(* ===== verification/_CoqProject ===== *)
-Q . S2P
Prelude.v
Golang.v
Procs.v
Log.v
External.v
Instances.v
Nodes.v
NodesFacts.v
Table.v
TableInv.v
TableBucket.v
TableOps.v
TableSys.v
TableProps.v
TableRun.v
Refresh.v
Query.v
QueryProps.v
Awaiter.v
AwaiterProps.v
AwaiterCalls.v
Acceptor.v
AcceptorProps.v
Writer.v
Identity.v
EncPubkey.v
V4.v
V4Facts.v
V4Props.v
V4Safe.v
V4Types.v
Handler.v
PacketHandler.v
Feed.v
Peer.v
PeerProps.v
Crawler.v
Workers.v
WorkersProps.v
Lifecycle.v
Seeker.v
Disc.v
NetIP.v
Config.v
Scanner.v
NodeScan.v
Transport.v
Service.v
Broker.v
Crawl.v
Contexts.v
Delivery.v
CrawlApp.v
DiscCmd.v
DiscScan.v
ScanApp.v
Monitor.v
ScanCalls.v
Db.v
DbSpec.v
DbProps.v
DbUse.v
Metrics.v
Announce.v
Launch.v
Cache.v
LookupCalls.v
MessageBroker.v
