(* ===== verification/Prelude.v ===== *)
(** * Verification of node-util

    node-util crawls the peer-to-peer network of Ethereum: [crawler/] finds
    nodes with the discovery protocol v4, asks them who they are and announces
    them to a message broker; [scanner/] scans the ports of the announced
    addresses; [service/] holds the broker, the store and the metrics they
    share.  This library models that code in Gallina, as it is written, and
    proves what makes each part correct.  File names are relative to src/.

    ** Method

    Sequential code is a function on the state of its component; code that can
    panic returns [outcome], with the panic as a value; a fallible function
    returns an option or a sum.  Goroutines are step relations whose steps are
    the actions other goroutines can observe (a lock, a channel operation, an
    atomic), and a property of concurrent code is an invariant of all runs:
    [rtc_invariant] below.  Code that changes an object's state, may wait for
    others and may panic is a procedure of Procs.v, whose weakest
    preconditions the proofs compute by rules.  A pointer that several owners share is a key of a
    heap (nodes in Nodes.v, peers in Crawler.v).  Integers are [Z] with their
    wrap-around written out; an instant is its number of nanoseconds.

    Packages that are not in the repository are classes: External.v has
    go-ethereum's [enode], [netutil], node database and [v4wire], Writer.v the
    rate limiter.  The functions are the fields, the documented behaviour the
    proofs use is a second class of laws, and Instances.v (and the token bucket
    of Writer.v) has executable instances that satisfy the laws, so that the
    witnesses run on concrete values.

    ** Files

    - Prelude.v: outcomes, reachability, lists, tactics, hints.
    - Golang.v, NetIP.v: machine integers, [time], [net.IP], [copy],
      [sort.Search], the text and the class of an address.
    - Procs.v: procedures and their weakest preconditions.
    - Nodes.v, NodesFacts.v (crawler/net/discovery/common/node.go): nodes and
      lists ordered by distance; [Push] keeps the closest ([Push_closest]).
    - Table.v, TableInv.v, TableBucket.v, TableOps.v, TableSys.v, TableProps.v
      (discovery/table/table.go): the buckets, their limits per network, the
      revalidation.  [sys] is a table with a revalidation under way.  The
      invariant gives the bounds and the distinctness of entries, the limits on
      networks, that no method panics, and what each operation does on each
      branch.
    - TableRun.v (the same file's [Run]): the loop's channels and timers as a
      step relation, with [close]; one refresh and one revalidation at a time,
      every caller of [refresh] is served, and the shutdown ends.
    - Refresh.v (the same file's [doRefresh]): the seeds and the lookups
      through the table's transport; an empty table is filled.
    - Query.v, QueryProps.v (discovery/query.go): rounds of concurrent queries;
      a round is safe and ends, a lookup never asks twice and returns the
      closest nodes it heard of.
    - Awaiter.v, AwaiterProps.v (discovery/responseAwaiter.go): pending
      requests and their replies; each request is marked once, and the loop
      refines the view its callers have ([await]).  AwaiterCalls.v: any number
      of callers beside that goroutine; an awaited request ends without an
      error only after a reply its checker accepted ([execute_result]).
    - Acceptor.v, AcceptorProps.v (acceptor.go, listener.go): the limiter and
      the pool of packet workers; no packet is lost or handled twice.
    - Delivery.v (the same files): the listener and the pool with the buffers
      they share; a packet that is handled is the datagram that was read
      ([datagrams_intact]), and when the workers wait for each other.
    - Writer.v (writer.go): throttled writes.
    - Identity.v (identity.go): the local record is always current.
    - EncPubkey.v (discovery/common/encPubkey.go): the bytes of public keys.
    - V4.v, V4Facts.v, V4Props.v, V4Safe.v, V4Types.v (discovery/v4/): bonds, packets and
      requests; who is answered, what is believed, the shape of the answers,
      and for every datagram: no panic, the table's invariant, and nothing but
      a bond's packets to a sender without one; the values that a
      packet's two stages exchange are typed ([stages_typed]).  A
      handler's program reads the outcomes of its sends from a list of events,
      as the awaiter's refinement gives them.
    - Handler.v (handler.go): execution of requests, events, random lookups.
    - PacketHandler.v (handler.go, ctx.go, acceptor.go): the calls of the packet
      handler against the class [SubHandler], whose laws V4Safe.v discharges:
      each call is recorded once, and from [NewHandler] on nothing panics.
    - LookupCalls.v (handler.go [LookupRandom], query.go): the goroutines of a
      lookup call the packet handler beside its other users ([lookup_calls]).
    - Contexts.v (handler.go, ctx.go): the pool of contexts as a store that
      calls share; each call reads its own address ([contexts_private]).
    - Feed.v (crawler/events/): subscriptions; no panic, exact delivery, and
      the listener that blocks the feed.
    - Workers.v, WorkersProps.v (crawler/workers/, crawler/iterator.go): the
      pool's monitor, the iterators, the work loop.
    - Lifecycle.v (runner.go): wait groups, starting and stopping a runner.
    - Monitor.v (runner.go, pool.go): the runner, the feed of its pool and the
      goroutine that forwards the workers' statistics; when it can end.
    - Seeker.v (crawler/seeker.go): starting and stopping the seeker, with its
      runner as a part of its state.
    - Peer.v, PeerProps.v, Crawler.v (crawler/crawler/): peers and counters,
      the processors, the seeker's loop, the ring of peers of the crawler.
    - Crawl.v (crawler/crawler.go): the goroutines of [Crawl] with the seeker,
      the loop and its runner as parts of one state; nothing panics, and when
      the context is done everything can end.
    - Transport.v (crawler/net/): connections and their files, the hello
      handshake and the querier.
    - Disc.v, DiscScan.v, DiscCmd.v (crawler/cmd/disc/v4/): the discovery tool:
      the loop of [scan], its goroutines, and [ping], [random] and [enr] against
      the packet handler; what they report was checked ([commands_checked]).
    - Config.v (crawler/app/, scanner/app/): flags and configuration.
    - CrawlApp.v (crawler/cmd/crawler, crawler/app/application.go): the crawl
      command, from its flags to the application built of the parts above; what
      it opens, where it fails ([runCrawler_result]); the goroutines of [Run].
    - ScanApp.v (scanner/cmd/scanner, scanner/app/application.go): the two scan
      commands, their services and the goroutines of [IpScan].
    - Log.v (crawler/log, and scanner/log, which is the same code): levels, and
      the root logger that all callers share ([Root_shared]).
    - Scanner.v (scanner/scanner/): scans of ports, the controller, and the
      node scanner with its cache.
    - ScanCalls.v (scanner.go): the calls of [Scan] beside the controller's
      threads; what each returns, and that all can ([Scan_result]).
    - NodeScan.v (the same directory): the node scanner, its goroutines and the
      controller beside each other; they refine the node scanner of Scanner.v.
    - Service.v (service/): metrics, the broker's calls, transactions.
    - Broker.v (service/broker/): the subscribers, feeds and consuming
      goroutines of a topic in every interleaving.
    - MessageBroker.v (service/broker/): the interface of a broker, the broker
      with its metrics and the one that discards, and subscriptions.
    - Metrics.v (service/metrics/, and each component's recorder): the
      registration of metrics and the calls of the recorders, in the order in
      which the applications make them ([crawl_metrics]).
    - Db.v (service/db/): the schema of the migrations as data, the statements
      of SQL under its constraints, the driver, and every method of the
      queries; DbSpec.v: the specification of the interface [Querier], on maps
      from identities to records; DbProps.v: the statements refine it and keep
      the constraints ([store_refines]), and pages list every node
      ([pages_complete]).
    - DbUse.v: what the crawler and the scanner store ([nothing_is_stored]).
    - Announce.v (crawler/broker/, scanner/broker/): the messages from the
      crawler to the scanner, through the queue and the subscription; what is
      scanned was crawled ([scanned_was_crawled]).
    - Cache.v (scanner/scanner/cache.go): the keys of the cache with their
      times and failures; while no key expires they are the set of Scanner.v
      ([cacheScan_refines]), and an address waits twelve hours for its next scan
      ([rescan_after_expiration]).
    - Launch.v (the launchers, crawler/cmd/disc, flags.go): the tables of
      commands and their flags, and which flags a command depends on.

    ** How the parts meet

    The table's hook becomes the feed's events (Handler.v [node_events]), which
    the seeker's loop turns into work (Crawler.v [eventLoop]); the work passes
    through an iterator (Workers.v) to [seeker_OnData] and [crawler_OnData]
    (Peer.v); Crawl.v runs these goroutines beside each other.  The table
    answers FindnodeByID to lookups (Handler.v [LookupRandom] joins Table.v
    and Query.v) and to findnode requests (V4.v).
    V4.v requests wait as Awaiter.v's [await] says.  PacketHandler.v runs them
    for the calls of its users, and Refresh.v calls it through the interface
    [Transport].  Delivery.v hands the listener's datagrams to the workers that
    run [HandlePacket].  A worker of a runner (Lifecycle.v) that ends reports on
    its pool's feed (Feed.v), and Monitor.v runs both with the goroutine that
    reads the reports.  The querier's information
    (Transport.v) is the [PeerInfo] a peer keeps (Peer.v).  The records that the
    crawler's effects (Crawler.v) and the scans (NodeScan.v) create are calls of
    the store: DbUse.v runs the two beside the database of Db.v.  The calls of
    the recorder that PacketHandler.v lists are those that Metrics.v observes
    ([rpc_counter_counts]).  Announce.v runs the crawler, its broker
    (Service.v), the topic of the scanner (Broker.v) and the node scanner
    (NodeScan.v) beside each other.  Query.v lets any node answer anything to a
    lookup; LookupCalls.v gives it the answers of the packet handler.

    ** Bounds and fuel

    [sort_Search] runs as many iterations as the list has elements, which
    halving needs at most ([sort_Search_spec]); [scan_ports] one iteration for
    each port of its range ([ScanItem_result]); a byte has three decimal digits
    and a 16-bit group four hexadecimal ones (NetIP.v).  A round of a lookup
    has an explicit bound on its steps ([round_terminates]).

    ** Not modelled

    Mocks, the formatting of log lines, the parsing of command lines, the HTTP
    servers, sockets, the encoding of JSON, and the simulated network: they are input and output, or have
    no logic of the program.  Of SQL, Db.v has the statements that the queries
    use, one at a time; which texts and instants a column takes, and in what
    order rows come, are parameters.  The wire format and
    the cryptography are go-ethereum's.  The
    node scanner of NodeScan.v has the keys of its cache without their time
    (Cache.v has it), so that what is proved of it holds until the first of them
    expires, after twelve hours.

    Where the code does not do what it says, the theorem states what it does:
    for instance [unsolicited_pong_bonds], [checkDeadlines_stops],
    [limiter_never_forgives], [refresh_not_limited],
    [late_start_ignores_target], [deaf_listener_blocks_feed], [late_Stop_does_not_wait],
    [subscribe_can_block_forever], [Wait_returns_early], [workers_starve],
    [finishedAt_unset], [Stop_panics]. *)

From stdpp Require Import base list relations gmap.
From Stdlib Require Import Lia Permutation Sorted.

(** ** Outcomes of Go code that can panic *)

Inductive panic : Set :=
| IndexOutOfRange
| NilDereference
| DivideByZero
| SliceToArray
| CloseOfClosedChannel
| SendOnClosedChannel
| InterfaceConversion
| CloseOfNilChannel
| NegativeWaitGroup
| MakeChanSize
(* a call of [panic] in the source *)
| Raised.

Inductive outcome (A : Type) : Type :=
| Ok (a : A)
| Panic (why : panic).

Arguments Ok {A} a.
Arguments Panic {A} why.

#[export] Instance outcome_ret : MRet outcome := fun A a => Ok a.
#[export] Instance outcome_bind : MBind outcome :=
  fun A B f m => match m with Ok a => f a | Panic w => Panic w end.
#[export] Instance outcome_fmap : FMap outcome :=
  fun A B f m => match m with Ok a => Ok (f a) | Panic w => Panic w end.

#[export] Instance panic_eq_dec : EqDecision panic.
Proof. solve_decision. Defined.

Lemma outcome_bind_ok {A B} (m : outcome A) (f : A -> outcome B) b :
  m ≫= f = Ok b <-> exists a, m = Ok a /\ f a = Ok b.
Proof. destruct m as [a|w]; naive_solver. Qed.

(** [m ⇓ a]: the code returns [a]; [m ↯ w]: it panics. *)
Declare Scope outcome_scope.
Delimit Scope outcome_scope with outcome.
Notation "m ⇓ a" := (m = Ok a) (at level 70, no associativity) : outcome_scope.
Notation "m ↯ w" := (m = Panic w) (at level 70, no associativity) : outcome_scope.

(** ** Transition systems

    The components that run beside each other are relations between states;
    a state is reachable by the closure [rtc]. *)

Section Reachability.
Context {S : Type} (step : relation S).

(** What holds at first and is preserved by each step holds everywhere. *)
Lemma rtc_invariant (P : S -> Prop) x y :
  (forall a b, P a -> step a b -> P b) -> P x -> rtc step x y -> P y.
Proof. intros Hp Hx Hr. induction Hr; eauto. Qed.

(** The same for a relation between states that is a preorder. *)
Lemma rtc_preorder (R : relation S) `{!PreOrder R} x y :
  (forall a b, step a b -> R a b) -> rtc step x y -> R x y.
Proof. intros Hs Hr. induction Hr; [reflexivity|]. etransitivity; eauto. Qed.

End Reachability.

(** ** Lists *)

Lemma elem_of_snoc {A} (l : list A) x : x ∈ l ++ [x].
Proof. apply elem_of_app. right. by left. Qed.

(** An element of a list, under [omap] and under an update. *)
Lemma omap_split {A B} (f : A -> option B) (l : list A) i x :
  l !! i = Some x -> exists l1 l2, omap f l = l1 ++ option_list (f x) ++ l2 /\
    forall y, omap f (<[i := y]> l) = l1 ++ option_list (f y) ++ l2.
Proof.
  intros Hi. exists (omap f (take i l)), (omap f (drop (S i) l)). split.
  - rewrite <- (take_drop_middle l i x Hi) at 1. rewrite omap_app. simpl. by destruct (f x).
  - intros y. rewrite insert_take_drop by (by eapply lookup_lt_Some). rewrite omap_app. simpl. by destruct (f y).
Qed.

Lemma NoDup_snoc {A} (l : list A) x : NoDup l -> x ∉ l -> NoDup (l ++ [x]).
Proof.
  intros Hl Hx. apply NoDup_app. split; [done|]. split; [|apply NoDup_singleton].
  intros y Hy Hxy. apply list_elem_of_singleton in Hxy. by subst.
Qed.

(** ** Tactics *)

(** Closes an equation of closed terms by evaluation, without writing the
    value out. *)
Ltac vm_refl := match goal with |- ?a = ?b => vm_cast_no_check (@eq_refl _ b) end.

(** Turns a run into a goal for each step: [H : rtc step init s] and a lemma
    [step_inv : P a -> step a b -> P b]. *)
Ltac run_invariant step_inv :=
  match goal with
  | H : rtc _ _ ?s |- _ => revert H; apply rtc_invariant; [intros ? ? ? ?; by eapply step_inv|]
  end.

(** ** Hints: membership in what was just appended, and the like *)

Create HintDb nodeutil discriminated.
#[export] Hint Constants Opaque : nodeutil.
#[export] Hint Resolve elem_of_snoc : nodeutil.
#[export] Hint Resolve NoDup_nil_2 NoDup_singleton NoDup_elements : nodeutil.
#[export] Hint Resolve not_elem_of_nil not_elem_of_empty : nodeutil.
