(* ===== verification/Golang.v ===== *)
(** * The parts of Go and of its standard library the program uses

    Machine integers with their wrap-around, instants and durations of
    package [time], addresses of package [net], [copy] and slice
    expressions, and [sort.Search].  Everything here is executable. *)

From stdpp Require Import base list numbers.
From Stdlib Require Import ZArith Lia.
From S2P Require Import Prelude.
Open Scope Z_scope.

(** ** Machine integers *)

Definition wrap_u (w : Z) (z : Z) : Z := z mod 2 ^ w.
Definition u8 : Z -> Z := wrap_u 8.
Definition u16 : Z -> Z := wrap_u 16.
Definition u32 : Z -> Z := wrap_u 32.
Definition u64 : Z -> Z := wrap_u 64.
Definition wrap_s (w : Z) (z : Z) : Z := (z + 2 ^ (w - 1)) mod 2 ^ w - 2 ^ (w - 1).
Definition i32 : Z -> Z := wrap_s 32.
Definition i64 : Z -> Z := wrap_s 64.

Definition MaxUint : Z := 2 ^ 64 - 1.
Definition MaxInt64 : Z := 2 ^ 63 - 1.
Definition MinInt64 : Z := - 2 ^ 63.

(** Integer division truncates towards zero and panics on a zero divisor. *)
Definition div_i64 (x y : Z) : outcome Z :=
  if decide (y = 0) then Panic DivideByZero else Ok (i64 (Z.quot x y)).

Lemma wrap_u_small w z : 0 <= z < 2 ^ w -> wrap_u w z = z.
Proof. apply Z.mod_small. Qed.

Lemma wrap_u_bound w z : 0 <= w -> 0 <= wrap_u w z < 2 ^ w.
Proof. intros. apply Z.mod_pos_bound. lia. Qed.

Lemma u32_add z d : u32 (u32 z + d) = u32 (z + d).
Proof. unfold u32, wrap_u. by rewrite Z.add_mod_idemp_l. Qed.

(** [atomic.AddUint32(&x, ^uint32(0))] *)
Lemma u32_pred z : u32 (u32 z + (2 ^ 32 - 1)) = u32 (z - 1).
Proof.
  rewrite u32_add. unfold u32, wrap_u.
  replace (z + (2 ^ 32 - 1)) with (z - 1 + 1 * 2 ^ 32) by lia. by rewrite Z.mod_add.
Qed.

Lemma u16_add z d : u16 (u16 z + d) = u16 (z + d).
Proof. unfold u16, wrap_u. by rewrite Z.add_mod_idemp_l. Qed.

Lemma i64_small z : MinInt64 <= z <= MaxInt64 -> i64 z = z.
Proof.
  unfold i64, wrap_s, MinInt64, MaxInt64; intros H; simpl (64 - 1).
  rewrite Z.mod_small; lia.
Qed.

(** ** Package time

    An instant is its number of nanoseconds since the Unix epoch; a duration
    is an [int64] of nanoseconds. *)

Definition Nanosecond : Z := 1.
Definition Microsecond : Z := 1000.
Definition Millisecond : Z := 1000000.
Definition Second : Z := 1000000000.
Definition Minute : Z := 60 * Second.
Definition Hour : Z := 60 * Minute.

(** [time.Unix(s, 0)], [time.UnixMilli(ms)], and their inverses, which round
    towards minus infinity. *)
Definition time_Unix (s : Z) : Z := s * Second.
Definition time_UnixMilli (ms : Z) : Z := ms * Millisecond.
Definition to_Unix (t : Z) : Z := t / Second.
Definition to_UnixMilli (t : Z) : Z := t / Millisecond.

(** [t.Sub(u)] saturates at the bounds of [time.Duration]. *)
Definition time_Sub (t u : Z) : Z := Z.max MinInt64 (Z.min MaxInt64 (t - u)).
(** [time.Since(u)] at the instant [now]. *)
Definition time_Since (now u : Z) : Z := time_Sub now u.

Lemma time_Sub_exact t u :
  MinInt64 <= t - u <= MaxInt64 -> time_Sub t u = t - u.
Proof. unfold time_Sub. lia. Qed.

Lemma time_Since_lt now u d :
  MinInt64 < d <= MaxInt64 -> (time_Since now u < d <-> now - u < d).
Proof. unfold time_Since, time_Sub. lia. Qed.

Lemma to_Unix_time_Unix s : to_Unix (time_Unix s) = s.
Proof. unfold to_Unix, time_Unix, Second. apply Z.div_mul. lia. Qed.

(** ** Package net: IP addresses

    A [net.IP] is its slice of bytes: 4 for IPv4, 16 for IPv6 and for IPv4 in
    its mapped form, 0 for a nil address. *)

Definition IP : Type := list Z.

Definition v4InV6Prefix : list Z := [0;0;0;0;0;0;0;0;0;0;255;255].

(** [ip.To4()]: [None] is the nil result. *)
Definition To4 (a : IP) : option IP :=
  if decide (length a = 4)%nat then Some a
  else if decide (length a = 16%nat /\ take 12 a = v4InV6Prefix) then Some (drop 12 a)
  else None.

(** [ip.Equal(x)]: an IPv4 address equals its IPv4-mapped form. *)
Definition IP_Equal (a b : IP) : bool :=
  if decide (length a = length b) then bool_decide (a = b)
  else if decide (length a = 4 /\ length b = 16)%nat then
    bool_decide (take 12 b = v4InV6Prefix) && bool_decide (a = drop 12 b)
  else if decide (length a = 16 /\ length b = 4)%nat then
    bool_decide (take 12 a = v4InV6Prefix) && bool_decide (drop 12 a = b)
  else false.

Lemma IP_Equal_refl a : IP_Equal a a = true.
Proof.
  unfold IP_Equal. rewrite decide_True by done. by apply bool_decide_eq_true.
Qed.

Lemma IP_Equal_sym a b : IP_Equal a b = IP_Equal b a.
Proof.
  unfold IP_Equal.
  repeat case_decide; try lia; try done; try (by rewrite andb_comm);
    try (f_equal; apply bool_decide_ext; split; congruence);
    apply bool_decide_ext; split; congruence.
Qed.

Lemma IP_Equal_nil a : IP_Equal [] a = true -> a = [].
Proof.
  unfold IP_Equal. simpl. repeat case_decide; try (simpl in *; lia); try done.
Qed.

(** The conversion [[4]byte(s)] of a slice panics when the slice is shorter
    than four bytes; a nil slice has length 0. *)
Definition to_array4 (s : option IP) : outcome (list Z) :=
  match s with
  | Some a => if decide (4 <= length a)%nat then Ok (take 4 a) else Panic SliceToArray
  | None => Panic SliceToArray
  end.

(** ** Slices *)

(** [copy(dst[k:], src)] for [k <= len(dst)], a memmove: [src] is read before
    [dst] is written. *)
Definition copy_at {A} (k : nat) (dst src : list A) : list A :=
  let n := Nat.min (length dst - k) (length src) in
  take k dst ++ take n src ++ drop (k + n) dst.

Lemma length_copy_at {A} k (dst src : list A) :
  (k <= length dst)%nat -> length (copy_at k dst src) = length dst.
Proof.
  intros Hk. unfold copy_at.
  rewrite !length_app, !length_take, length_drop. lia.
Qed.

(** ** Package sort: binary search

    [sort.Search(n, f)] keeps [f(i-1) = false] and [f(j) = true]; [n]
    iterations are enough because the window shrinks at each one. *)
Fixpoint search_loop (fuel : nat) (f : nat -> bool) (i j : nat) : nat :=
  match fuel with
  | O => i
  | S fuel' =>
      if (i <? j)%nat then
        let h := Nat.div2 (i + j) in
        if f h then search_loop fuel' f i h else search_loop fuel' f (S h) j
      else i
  end.

Definition sort_Search (n : nat) (f : nat -> bool) : nat := search_loop n f 0 n.

(** [p] is where [f] turns from false to true on [0, n). *)
Definition partition_point (n : nat) (f : nat -> bool) (p : nat) : Prop :=
  (p <= n)%nat /\ (forall i, (i < p)%nat -> f i = false) /\
  (forall i, (p <= i < n)%nat -> f i = true).

Lemma partition_point_unique n f p q :
  partition_point n f p -> partition_point n f q -> p = q.
Proof.
  intros (Hp & Hp0 & Hp1) (Hq & Hq0 & Hq1).
  destruct (Nat.lt_trichotomy p q) as [H|[H|H]]; [|done|].
  - specialize (Hp1 p ltac:(lia)). specialize (Hq0 p ltac:(lia)). congruence.
  - specialize (Hq1 q ltac:(lia)). specialize (Hp0 q ltac:(lia)). congruence.
Qed.

Lemma search_loop_spec f n p fuel i j :
  partition_point n f p -> (i <= p <= j)%nat -> (j <= n)%nat -> (j - i <= fuel)%nat ->
  search_loop fuel f i j = p.
Proof.
  intros (Hp & Hlo & Hhi). revert i j.
  induction fuel as [|fuel IH]; intros i j Hij Hj Hf; simpl; [lia|].
  destruct (Nat.ltb_spec i j) as [Hlt|Hge]; [|lia].
  pose proof (Nat.div2_odd (i + j)) as Hodd.
  pose proof (Nat.b2n_le_1 (Nat.odd (i + j))).
  destruct (f (Nat.div2 (i + j))) eqn:Ef.
  - apply IH; [|lia|lia]. split; [lia|].
    destruct (Nat.le_gt_cases p (Nat.div2 (i + j))); [done|].
    rewrite (Hlo _ H0) in Ef. done.
  - apply IH; [|lia|lia]. split; [|lia].
    destruct (Nat.le_gt_cases (S (Nat.div2 (i + j))) p); [done|].
    rewrite Hhi in Ef by lia. done.
Qed.

Lemma sort_Search_spec n f p : partition_point n f p -> sort_Search n f = p.
Proof.
  intros Hp. apply (search_loop_spec f n); [done| |lia|lia].
  destruct Hp. lia.
Qed.
