(* ===== verification/Procs.v ===== *)
(** * Procedures over a state

    Code that changes an object's state, may wait for other goroutines and
    may panic is a procedure: from a state it returns with the new state and
    a value, blocks in a state, or panics.  [wp] is what holds of the state
    in which a procedure returns or blocks, with the rules to compute it and
    a tactic that applies them. *)

From stdpp Require Import base list.
From S2P Require Import Prelude Golang.

(** ** The monad *)

Section Procs.
Context {S : Type}.

Inductive res (A : Type) : Type :=
| Returns (s : S) (a : A)
| Blocks (s : S)
| Panics (w : panic).

Definition proc (A : Type) : Type := S -> res A.

End Procs.

Arguments res : clear implicits.
Arguments proc : clear implicits.
Arguments Returns {S A}.
Arguments Blocks {S A}.
Arguments Panics {S A}.

#[export] Instance proc_ret {S} : MRet (proc S) := fun A a s => Returns s a.
#[export] Instance proc_bind {S} : MBind (proc S) := fun A B f m s =>
  match m s with Returns s' a => f a s' | Blocks s' => Blocks s' | Panics w => Panics w end.

Definition get {S} : proc S S := fun s => Returns s s.
Definition modify {S} (f : S -> S) : proc S () := fun s => Returns (f s) tt.
Definition crash {S A} (w : panic) : proc S A := fun _ => Panics w.

(** A procedure on a part of the state. *)
Definition zoom {S T A} (part : S -> T) (put : T -> S -> S) (m : proc T A) : proc S A := fun s =>
  match m (part s) with
  | Returns t a => Returns (put t s) a
  | Blocks t => Blocks (put t s)
  | Panics w => Panics w
  end.

(** ** Weakest preconditions

    A postcondition is told the state and, when the procedure returned, its
    value.  A procedure that panics has none. *)

Section Wp.
Context {S : Type}.

Definition wp {A} (m : proc S A) (Q : S -> option A -> Prop) (s : S) : Prop :=
  match m s with Returns s' a => Q s' (Some a) | Blocks s' => Q s' None | Panics _ => False end.

Lemma wp_mono {A} (m : proc S A) (Q Q' : S -> option A -> Prop) s :
  wp m Q s -> (forall s' r, Q s' r -> Q' s' r) -> wp m Q' s.
Proof. unfold wp. destruct (m s); auto. Qed.

#[export] Instance wp_Proper A (m : proc S A) :
  Proper (pointwise_relation _ (pointwise_relation _ iff) ==> eq ==> iff) (wp m).
Proof. intros Q Q' HQ s _ <-. split; intros H; (eapply wp_mono; [exact H|]); intros; by apply HQ. Qed.

Lemma wp_ret {A} (a : A) (Q : S -> option A -> Prop) s : Q s (Some a) -> wp (mret a) Q s.
Proof. done. Qed.

Lemma wp_bind {A B} (m : proc S A) (f : A -> proc S B) (Q : S -> option B -> Prop) s :
  wp m (fun s' r => match r with Some a => wp (f a) Q s' | None => Q s' None end) s ->
  wp (m ≫= f) Q s.
Proof. unfold wp, mbind, proc_bind. by destruct (m s). Qed.

Lemma wp_get (Q : S -> option S -> Prop) s : Q s (Some s) -> wp get Q s.
Proof. done. Qed.

Lemma wp_modify f (Q : S -> option () -> Prop) s : Q (f s) (Some tt) -> wp (modify f) Q s.
Proof. done. Qed.

Lemma wp_zoom {T A} (part : S -> T) (put : T -> S -> S) (m : proc T A) Q s :
  (match m (part s) with
   | Returns t a => Q (put t s) (Some a) | Blocks t => Q (put t s) None | Panics _ => False
   end) -> wp (zoom part put m) Q s.
Proof. unfold wp, zoom. by destruct (m (part s)). Qed.

(** [m] keeps the property [I] of the state, and does not panic where it
    holds. *)
Definition preserves {A} (I : S -> Prop) (m : proc S A) : Prop :=
  forall s, I s -> wp m (fun s' _ => I s') s.

Lemma preserves_wp {A} (I : S -> Prop) (m : proc S A) (Q : S -> option A -> Prop) s :
  preserves I m -> I s -> (forall s' r, I s' -> Q s' r) -> wp m Q s.
Proof. intros Hm Hs HQ. by eapply wp_mono; [apply Hm|apply HQ]. Qed.

Lemma preserves_ret {A} I (a : A) : preserves I (mret a).
Proof. intros s Hs. exact Hs. Qed.

Lemma preserves_bind {A B} I (m : proc S A) (f : A -> proc S B) :
  preserves I m -> (forall a, preserves I (f a)) -> preserves I (m ≫= f).
Proof.
  intros Hm Hf s Hs. apply wp_bind. eapply preserves_wp; [exact Hm|exact Hs|].
  intros s' [a|] Hs'; [by apply Hf|done].
Qed.

(** What a procedure read is the state it goes on in. *)
Lemma preserves_get {B} (I : S -> Prop) (f : S -> proc S B) :
  (forall s, I s -> wp (f s) (fun s' _ => I s') s) -> preserves I (get ≫= f).
Proof. intros Hf s Hs. by apply Hf. Qed.

Lemma preserves_modify (I : S -> Prop) (f : S -> S) :
  (forall s, I s -> I (f s)) -> preserves I (modify f).
Proof. intros Hf s Hs. by apply Hf. Qed.

End Wp.
