(* ===== verification/Log.v ===== *)
(** * crawler/log and scanner/log: loggers

    The two packages are the same.  A logger writes the messages of its level
    and above; the level is the package's when the logger is made.  [Root]
    makes the logger that all callers share, whoever comes first.  The levels
    of zap are a class, with the order it documents as its law. *)

From Stdlib Require Import ZArith Lia.
From stdpp Require Import base list strings relations.
From S2P Require Import Prelude Golang.
Local Open Scope Z_scope.

(** ** zap's levels *)

Class Zap := { DebugLevel : Z; InfoLevel : Z; WarnLevel : Z; ErrorLevel : Z; FatalLevel : Z }.

(** The levels are consecutive but for two between the last ones. *)
Class ZapLaws (Zp : Zap) : Prop := {
  zap_info : InfoLevel = DebugLevel + 1;
  zap_warn : WarnLevel = InfoLevel + 1;
  zap_error : ErrorLevel = WarnLevel + 1;
  zap_fatal : ErrorLevel < FatalLevel }.

Section Log.
Context `{ZL : ZapLaws}.

Definition TRACE : Z := DebugLevel - 1.
Definition DEBUG : Z := TRACE + 1.
Definition INFO : Z := DEBUG + 1.
Definition WARN : Z := INFO + 1.
Definition ERROR : Z := WARN + 1.
Definition FATAL : Z := FatalLevel.

Record LogField := mkField { key : string; value : string }.

Definition NewStringField (k v : string) : LogField := mkField k v.
Definition NewErrorField (err : option string) : LogField := mkField "error" (default "nil"%string err).

(** A logger, with the level of its core, and what it writes. *)
Record logger := mkLogger { id : string; level : Z }.
Record entry := mkEntry { e_level : Z; e_msg : string; e_fields : list (string * string) }.

Definition NewLogger (currLvl : Z) : logger := mkLogger "" currLvl.
Definition NewLoggerWithId (i : string) (currLvl : Z) : logger := mkLogger i currLvl.

(** [log] on what was written before. *)
Definition log (l : logger) (lvl : Z) (msg : string) (_fields : list LogField) (out : list entry) : list entry :=
  let fields := map (fun field => (key field, value field)) _fields in
  let m := if decide (0 < String.length (id l))%nat then ("id:" +:+ id l +:+ "-msg:" +:+ msg)%string else msg in
  if decide (level l <= lvl) then out ++ [mkEntry lvl m fields] else out.

Definition Trace (l : logger) := log l TRACE.
Definition Debug (l : logger) := log l DebugLevel.
Definition Info (l : logger) := log l InfoLevel.
Definition Warn (l : logger) := log l WarnLevel.
Definition Error (l : logger) := log l ErrorLevel.
Definition Fatal (l : logger) := log l FatalLevel.

(** The methods in the order of their levels, with the package's constants. *)
Definition methods : list (Z * (logger -> string -> list LogField -> list entry -> list entry)) :=
  [(TRACE, Trace); (DEBUG, Debug); (INFO, Info); (WARN, Warn); (ERROR, Error); (FATAL, Fatal)].

(** the constants of the package name the levels of the methods, in order,
    so that a logger made after [SetLoggingLvl(c)] writes exactly the methods
    from that of [c] on, each message once, with its fields and its id. *)
Theorem level_filters i j c m cm :
  methods !! i = Some (c, m) -> methods !! j = Some cm ->
  forall ident msg fields out,
    cm.2 (NewLoggerWithId ident c) msg fields out =
      if decide (i <= j)%nat
      then out ++ [mkEntry cm.1 (if decide (0 < String.length ident)%nat then "id:" +:+ ident +:+ "-msg:" +:+ msg else msg)%string
                     (map (fun field => (key field, value field)) fields)]
      else out.
Proof.
  destruct ZL as [H1 H2 H3 H4]. unfold methods, Trace, Debug, Info, Warn, Error, Fatal, FATAL, ERROR, WARN, INFO, DEBUG, TRACE.
  intros Hi Hj ident msg fields out.
  assert (i < 6)%nat as Hi6 by exact (lookup_lt_Some _ _ _ Hi).
  assert (j < 6)%nat as Hj6 by exact (lookup_lt_Some _ _ _ Hj).
  destruct i as [|[|[|[|[|[|i]]]]]]; [..|lia]; injection Hi as <- <-;
    destruct j as [|[|[|[|[|[|j]]]]]]; try lia; injection Hj as <-;
    unfold log; cbn [fst snd level id NewLoggerWithId];
    repeat case_decide; try lia; try done; do 3 f_equal; lia.
Qed.

End Log.

(** ** The root logger *)

(** A call of [Root] is before its first load, has made a logger, is before
    its last load, or has returned a logger.  Loggers are numbered: [made] are
    their levels.  [currLvl] and [root] are the package's variables. *)
Inductive root_pc : Set := RtLoad | RtMake | RtSwap (n : nat) | RtReload | RtReturned (n : nat).

Record package := mkPackage { currLvl : Z; root : option nat; made : list Z; calls : list root_pc }.

Definition new_package (lvl : Z) : package := mkPackage lvl None [] [].

Definition set_call (k : nat) (pc : root_pc) (s : package) : package :=
  mkPackage (currLvl s) (root s) (made s) (<[k := pc]> (calls s)).

Definition SetLoggingLvl (lvl : Z) (s : package) : package := mkPackage lvl (root s) (made s) (calls s).

Definition first_load (k : nat) (s : package) : package :=
  set_call k (match root s with Some n => RtReturned n | None => RtMake end) s.

Definition make (k : nat) (s : package) : package :=
  mkPackage (currLvl s) (root s) (made s ++ [currLvl s]) (<[k := RtSwap (length (made s))]> (calls s)).

(** [CompareAndSwap(nil, logger)]. *)
Definition swap (k n : nat) (s : package) : package :=
  mkPackage (currLvl s) (match root s with None => Some n | r => r end) (made s) (<[k := RtReload]> (calls s)).

(** The assertion of the type fails for nil. *)
Definition reload (k : nat) (s : package) : outcome package :=
  match root s with Some n => Ok (set_call k (RtReturned n) s) | None => Panic InterfaceConversion end.

Inductive log_step (s : package) : outcome package -> Prop :=
| lg_call : log_step s (Ok (mkPackage (currLvl s) (root s) (made s) (calls s ++ [RtLoad])))
| lg_level lvl : log_step s (Ok (SetLoggingLvl lvl s))
| lg_other : log_step s (Ok (mkPackage (currLvl s) (root s) (made s ++ [currLvl s]) (calls s)))
| lg_load k : calls s !! k = Some RtLoad -> log_step s (Ok (first_load k s))
| lg_make k : calls s !! k = Some RtMake -> log_step s (Ok (make k s))
| lg_swap k n : calls s !! k = Some (RtSwap n) -> log_step s (Ok (swap k n s))
| lg_reload k : calls s !! k = Some RtReload -> log_step s (reload k s).

Definition log_ok (s s' : package) : Prop := log_step s (Ok s').

(** What a call knows: a logger it made exists, and after the swap there is a
    root, which is what it returns. *)
Definition call_ok (r : option nat) (len : nat) (pc : root_pc) : Prop :=
  match pc with
  | RtSwap n => (n < len)%nat
  | RtReload => r <> None
  | RtReturned n => r = Some n
  | _ => True
  end.

Record log_inv (s : package) : Prop := {
  lo_calls : Forall (call_ok (root s) (length (made s))) (calls s);
  lo_root : forall n, root s = Some n -> (n < length (made s))%nat }.

Lemma call_ok_mono r r' len len' pc :
  call_ok r len pc -> (len <= len')%nat -> (forall n, r = Some n -> r' = Some n) -> call_ok r' len' pc.
Proof.
  intros Hc Hl Hr. destruct pc; simpl in *; try done; [lia| |by apply Hr].
  destruct r as [n|]; [|done]. by rewrite (Hr n eq_refl).
Qed.

Lemma calls_mono s r' len' :
  log_inv s -> (length (made s) <= len')%nat -> (forall n, root s = Some n -> r' = Some n) ->
  Forall (call_ok r' len') (calls s).
Proof.
  intros [Hc _] Hl Hr. eapply Forall_impl; [exact Hc|]. intros pc Hpc. exact (call_ok_mono _ _ _ _ _ Hpc Hl Hr).
Qed.

(** No step panics; the root and the levels of the loggers stay. *)
Lemma log_step_inv s o :
  log_inv s -> log_step s o ->
  exists s', o = Ok s' /\ log_inv s' /\ (forall n, root s = Some n -> root s' = Some n) /\ made s `prefix_of` made s'.
Proof.
  intros Hi Hs. pose proof Hi as [Hc Hr]. destruct Hs as [|lvl| |k Hk|k Hk|k n Hk|k Hk].
  - eexists. split_and!; [done| |done|done]. constructor; simpl; [|done]. apply Forall_app. by split; [|constructor].
  - eexists. split_and!; [done| |done|done]. by constructor.
  - eexists. split_and!; [done| |done|by eexists]. constructor; simpl; rewrite length_app; simpl.
    + apply calls_mono; [done|lia|done].
    + intros n Hn. specialize (Hr n Hn). lia.
  - eexists. split_and!; [done| |done|done]. constructor; simpl; [|done].
    apply Forall_insert; [done|]. by destruct (root s).
  - eexists. split_and!; [done| |done|by eexists]. constructor; simpl; rewrite length_app; simpl.
    + apply Forall_insert; [apply calls_mono; [done|lia|done]|]. simpl. lia.
    + intros n Hn. specialize (Hr n Hn). lia.
  - pose proof (Forall_lookup_1 _ _ _ _ Hc Hk) as Hn. simpl in Hn.
    assert (forall m, root s = Some m -> root (swap k n s) = Some m) as Hkeep by by intros m Hm; simpl; rewrite Hm.
    eexists. split_and!; [done| |done|done]. constructor.
    + apply Forall_insert; [by apply calls_mono|]. simpl. by destruct (root s).
    + simpl. destruct (root s) as [m|]; [by intros ? [= <-]; apply Hr|by intros ? [= <-]].
  - pose proof (Forall_lookup_1 _ _ _ _ Hc Hk) as Hn. simpl in Hn. unfold reload.
    destruct (root s) as [n|] eqn:Er; [|done]. eexists. split_and!; [done| |by simpl; rewrite Er|done].
    constructor; simpl; rewrite ?Er; [|by intros ? [= <-]; apply Hr]. by apply Forall_insert.
Qed.

Lemma log_reach lvl s : rtc log_ok (new_package lvl) s -> log_inv s.
Proof.
  intros Hr. assert (log_inv (new_package lvl)) as Hi by (by constructor).
  revert Hi Hr. apply rtc_invariant. intros s1 s2 Hi Hs.
  by destruct (log_step_inv _ _ Hi Hs) as (s' & [= ->] & ? & _).
Qed.

Lemma log_run s s' :
  log_inv s -> rtc log_ok s s' -> (forall n, root s = Some n -> root s' = Some n) /\ made s `prefix_of` made s'.
Proof.
  intros Hi Hr. revert Hi. induction Hr as [s|s s1 s2 Hs Hr IH]; intros Hi; [by split|].
  destruct (log_step_inv _ _ Hi Hs) as (s1' & [= <-] & Hi1 & Hr1 & Hm1). destruct (IH Hi1) as [H2 H3].
  split; [auto|by etrans].
Qed.

(** C2: [Root] gives every caller the same logger, whichever of them come
    first together and whatever the level is set to meanwhile; it never
    panics; and the logger, with the level the package had when it was made,
    is the root for ever: setting the level later does not change it. *)
Theorem Root_shared lvl s o :
  rtc log_ok (new_package lvl) s -> log_step s o ->
  (exists s', o = Ok s') /\
  (forall k k' n n', calls s !! k = Some (RtReturned n) -> calls s !! k' = Some (RtReturned n') -> n = n') /\
  (forall k n, calls s !! k = Some (RtReturned n) -> exists l, made s !! n = Some l /\
     forall s', rtc log_ok s s' -> root s' = Some n /\ made s' !! n = Some l).
Proof.
  intros Hi%log_reach Hs.
  assert (forall k n, calls s !! k = Some (RtReturned n) -> root s = Some n) as Hret.
  { intros k n Hk. exact (Forall_lookup_1 _ _ _ _ (lo_calls _ Hi) Hk). }
  split_and!.
  - destruct (log_step_inv _ _ Hi Hs) as (s' & -> & _). by eexists.
  - intros k k' n n' Hk%Hret Hk'%Hret. congruence.
  - intros k n Hk%Hret. destruct (lookup_lt_is_Some_2 (made s) n) as [l Hl]; [by apply (lo_root _ Hi)|].
    exists l. split; [done|]. intros s' Hr. destruct (log_run _ _ Hi Hr) as [Hroot Hm].
    split; [by apply Hroot|]. by eapply prefix_lookup_Some.
Qed.

(** ** Concrete levels, and two callers at once *)

Module Demo.

#[export] Instance zap : Zap := {| DebugLevel := -1; InfoLevel := 0; WarnLevel := 1; ErrorLevel := 2; FatalLevel := 5 |}.
#[export] Instance zap_laws : ZapLaws zap.
Proof. by constructor. Qed.

Lemma level_filters_witness :
  Debug (NewLoggerWithId "x" INFO) "m" [] [] = [] /\
  Warn (NewLoggerWithId "x" INFO) "m" [NewErrorField None] [] = [mkEntry 1 "id:x-msg:m" [("error", "nil")]%string].
Proof.
  split.
  - exact (level_filters 2 1 INFO Info (DEBUG, Debug) eq_refl eq_refl "x" "m" [] []).
  - exact (level_filters 2 3 INFO Info (WARN, Warn) eq_refl eq_refl "x" "m" [NewErrorField None] []).
Defined.

(** Both make a logger; the level is set before the second returns. *)
Definition raced : package := mkPackage (-1) (Some 0%nat) [0; 0] [RtReturned 0; RtReturned 0].

Lemma raced_reachable : rtc log_ok (new_package 0) raced.
Proof.
  eapply rtc_l; [exact (lg_call (new_package 0))|].
  eapply rtc_l; [exact (lg_call (mkPackage 0 None [] [RtLoad]))|].
  eapply rtc_l; [exact (lg_load (mkPackage 0 None [] [RtLoad; RtLoad]) 0 eq_refl)|].
  eapply rtc_l; [exact (lg_load (mkPackage 0 None [] [RtMake; RtLoad]) 1 eq_refl)|].
  eapply rtc_l; [exact (lg_make (mkPackage 0 None [] [RtMake; RtMake]) 0 eq_refl)|].
  eapply rtc_l; [exact (lg_make (mkPackage 0 None [0] [RtSwap 0; RtMake]) 1 eq_refl)|].
  eapply rtc_l; [exact (lg_swap (mkPackage 0 None [0; 0] [RtSwap 0; RtSwap 1]) 0 0 eq_refl)|].
  eapply rtc_l; [exact (lg_swap (mkPackage 0 (Some 0%nat) [0; 0] [RtReload; RtSwap 1]) 1 1 eq_refl)|].
  eapply rtc_l; [exact (lg_level (mkPackage 0 (Some 0%nat) [0; 0] [RtReload; RtReload]) (-1))|].
  eapply rtc_l; [exact (lg_reload (mkPackage (-1) (Some 0%nat) [0; 0] [RtReload; RtReload]) 0 eq_refl)|].
  eapply rtc_l; [exact (lg_reload (mkPackage (-1) (Some 0%nat) [0; 0] [RtReturned 0; RtReload]) 1 eq_refl)|apply rtc_refl].
Qed.

Lemma Root_shared_witness : exists l, made raced !! 0%nat = Some l.
Proof.
  destruct (proj2 (proj2 (Root_shared 0 raced _ raced_reachable (lg_call raced))) 0%nat 0%nat eq_refl) as (l & Hl & _).
  by exists l.
Defined.

End Demo.
