(* ===== verification/External.v ===== *)
(** * What the program uses of other packages

    The code under src/ calls go-ethereum's [p2p/enode], [p2p/netutil] and its
    node database.  None of it is defined here: each package is a class whose
    fields are the functions the program calls, and a second class with the
    documented behaviour the proofs rely on.  Instances.v has one concrete
    instance of each. *)

From stdpp Require Import base list countable gmap.
From Stdlib Require Import ZArith Lia.
From S2P Require Import Prelude Golang.
Open Scope Z_scope.

(** ** p2p/enode: node identities, node records and the XOR metric *)

Class Enode := {
  ID : Type;
  ID_eq_dec :: EqDecision ID;
  ID_countable :: Countable ID;
  enode : Type;
  enode_ID : enode -> ID;
  enode_IP : enode -> IP;
  enode_UDP : enode -> Z;
  enode_TCP : enode -> Z;
  enode_Seq : enode -> Z;
  (** [ValidateComplete() == nil] *)
  ValidateComplete : enode -> bool;
  LogDist : ID -> ID -> Z;
  DistCmp : ID -> ID -> ID -> Z;
}.

Class EnodeLaws `(E : Enode) : Prop := {
  (** the logarithmic distance of two 256-bit identities *)
  LogDist_bounds (a b : ID) : 0 <= LogDist a b <= 256;
  (** [DistCmp t a b] is negative, zero or positive as [a] is closer to [t]
      than [b], as close, or farther: a total order on identities *)
  DistCmp_sgn (t a b : ID) : Z.sgn (DistCmp t b a) = - Z.sgn (DistCmp t a b);
  DistCmp_trans (t a b c : ID) :
    DistCmp t a b <= 0 -> DistCmp t b c <= 0 -> DistCmp t a c <= 0;
  DistCmp_eq (t a b : ID) : DistCmp t a b = 0 -> a = b;
  enode_Seq_bounds (n : enode) : 0 <= enode_Seq n < 2 ^ 64;
}.

(** ** p2p/netutil *)

Class NetUtil := {
  IsLAN : IP -> bool;
  (** [CheckRelayIP(sender, addr) == nil] *)
  CheckRelayIP : IP -> IP -> bool;
  NetSet : Type;
  (** [DistinctNetSet{Subnet, Limit}] with no members *)
  newNetSet : Z -> Z -> NetSet;
  NetSet_Add : NetSet -> IP -> NetSet * bool;
  NetSet_Remove : NetSet -> IP -> NetSet;
  (** observers, used by the laws and the invariants only: the limit, the
      network an address falls in, and the members of a network *)
  netkey : Type;
  netkey_eq_dec :: EqDecision netkey;
  NetSet_Limit : NetSet -> Z;
  NetSet_net : NetSet -> IP -> netkey;
  NetSet_count : NetSet -> netkey -> nat;
}.

Class NetUtilLaws `(N : NetUtil) : Prop := {
  (** an IPv4 address and its IPv4-mapped form are the same address *)
  IsLAN_Equal a b : IP_Equal a b = true -> IsLAN a = IsLAN b;
  net_Equal (x : NetSet) a b : IP_Equal a b = true -> NetSet_net x a = NetSet_net x b;
  new_Limit s l : NetSet_Limit (newNetSet s l) = l;
  new_count s l k : NetSet_count (newNetSet s l) k = 0%nat;
  new_net s l l' a : NetSet_net (newNetSet s l) a = NetSet_net (newNetSet s l') a;
  (** Add refuses, and changes nothing, when the network is at its limit *)
  Add_full (x : NetSet) a :
    NetSet_Limit x <= Z.of_nat (NetSet_count x (NetSet_net x a)) ->
    NetSet_Add x a = (x, false);
  Add_free (x : NetSet) a :
    Z.of_nat (NetSet_count x (NetSet_net x a)) < NetSet_Limit x ->
    (NetSet_Add x a).2 = true;
  Add_count (x : NetSet) a k :
    (NetSet_Add x a).2 = true ->
    NetSet_count (NetSet_Add x a).1 k =
      if decide (k = NetSet_net x a) then S (NetSet_count x k) else NetSet_count x k;
  Add_Limit (x : NetSet) a : NetSet_Limit (NetSet_Add x a).1 = NetSet_Limit x;
  Add_net (x : NetSet) a b : NetSet_net (NetSet_Add x a).1 b = NetSet_net x b;
  Remove_count (x : NetSet) a k :
    NetSet_count (NetSet_Remove x a) k =
      if decide (k = NetSet_net x a) then pred (NetSet_count x k) else NetSet_count x k;
  Remove_Limit (x : NetSet) a : NetSet_Limit (NetSet_Remove x a) = NetSet_Limit x;
  Remove_net (x : NetSet) a b : NetSet_net (NetSet_Remove x a) b = NetSet_net x b;
}.

(** ** p2p/enode.DB: the node database, with instants in whole seconds *)

Class NodeDB `{E : Enode} := {
  DB : Type;
  (** [QuerySeeds(n, maxAge)] at an instant, with its random choices *)
  QuerySeeds : DB -> Z -> nat -> Z -> Z -> list enode;
  UpdateNode : DB -> enode -> DB;
  LastPingReceived : DB -> ID -> IP -> Z;
  UpdateLastPingReceived : DB -> ID -> IP -> Z -> DB;
  LastPongReceived : DB -> ID -> IP -> Z;
  UpdateLastPongReceived : DB -> ID -> IP -> Z -> DB;
  DB_FindFails : DB -> ID -> IP -> Z;
}.

Class NodeDBLaws `{E : Enode} (D : NodeDB) : Prop := {
  pong_pong db i a t :
    LastPongReceived (UpdateLastPongReceived db i a t) i a = time_Unix (to_Unix t);
  pong_pong_ne db i j a b t : i <> j ->
    LastPongReceived (UpdateLastPongReceived db i a t) j b = LastPongReceived db j b;
  pong_ping db i j a b t :
    LastPongReceived (UpdateLastPingReceived db i a t) j b = LastPongReceived db j b;
  ping_ping db i a t :
    LastPingReceived (UpdateLastPingReceived db i a t) i a = time_Unix (to_Unix t);
  ping_ping_ne db i j a b t : i <> j ->
    LastPingReceived (UpdateLastPingReceived db i a t) j b = LastPingReceived db j b;
  ping_pong db i j a b t :
    LastPingReceived (UpdateLastPongReceived db i a t) j b = LastPingReceived db j b;
  fails_pong db i j a b t :
    DB_FindFails (UpdateLastPongReceived db i a t) j b = DB_FindFails db j b;
  fails_ping db i j a b t :
    DB_FindFails (UpdateLastPingReceived db i a t) j b = DB_FindFails db j b;
}.

(** ** p2p/discover/v4wire: the packets of the discovery protocol

    The packet structs, with the fields the program uses. *)

Record Endpoint := mkEndpoint { ep_ip : IP; ep_udp : Z; ep_tcp : Z }.

Record rpcNode {P : Type} := mkRpcNode { rn_ip : IP; rn_udp : Z; rn_tcp : Z; rn_id : P }.
Arguments rpcNode : clear implicits.
Arguments mkRpcNode {P}.

Inductive packet {P R : Type} : Type :=
| Ping (Version : Z) (From To : Endpoint) (Expiration ENRSeq : Z)
| Pong (To : Endpoint) (ReplyTok : list Z) (Expiration ENRSeq : Z)
| Findnode (Target : P) (Expiration : Z)
| Neighbors (Nodes : list (rpcNode P)) (Expiration : Z)
| ENRRequest (Expiration : Z)
| ENRResponse (ReplyTok : list Z) (Record_ : R).
Arguments packet : clear implicits.

Class V4Wire `{E : Enode} := {
  Pubkey : Type;
  PublicKey : Type;
  ENRecord : Type;
  (** [v4wire.Pubkey.ID], and the identity [Keccak256Hash(target)] *)
  Pubkey_ID : Pubkey -> ID;
  Target_ID : Pubkey -> ID;
  DecodePubkey : Pubkey -> option PublicKey;
  EncodePubkey : PublicKey -> Pubkey;
  (** the key of a record that has none *)
  no_Pubkey : Pubkey;
  load_key : enode -> option PublicKey;
  NewV4 : PublicKey -> IP -> Z -> Z -> enode;
  enode_New : ENRecord -> option enode;
  NewEndpoint : IP -> Z -> Z -> Endpoint;
  Expired : Z -> Z -> bool;
  Kind : packet Pubkey ENRecord -> Z;
  PongPacket : Z;
  NeighborsPacket : Z;
  ENRResponsePacket : Z;
  MaxNeighbors : nat;
  (** encoding with the local key: the bytes and their hash *)
  Encode : packet Pubkey ENRecord -> option (list Z * list Z);
  Decode : list Z -> option (packet Pubkey ENRecord * Pubkey * list Z);
}.

Class V4WireLaws `{E : Enode} (W : V4Wire) : Prop := {
  (** the node of a public key has the key's identity *)
  NewV4_ID key pk ip tcp udp : DecodePubkey pk = Some key -> enode_ID (NewV4 key ip tcp udp) = Pubkey_ID pk;
  NewV4_IP key ip tcp udp : enode_IP (NewV4 key ip tcp udp) = ip;
  NewV4_UDP key ip tcp udp : 0 <= udp < 2 ^ 16 -> enode_UDP (NewV4 key ip tcp udp) = udp;
  MaxNeighbors_pos : (0 < MaxNeighbors)%nat;
  (** only a Pong has the kind of a Pong, and so on *)
  Kind_Pong p : Kind p = PongPacket -> exists t tok e s, p = Pong t tok e s;
  Kind_Neighbors p : Kind p = NeighborsPacket -> exists ns e, p = Neighbors ns e;
  Kind_ENRResponse p : Kind p = ENRResponsePacket -> exists tok r, p = ENRResponse tok r;
}.
