(* ===== verification/Instances.v ===== *)
(** * Concrete instances of the external packages

    Small executable versions of what External.v declares, which satisfy its
    laws: identities are integers under the XOR metric, a network set counts
    address prefixes, and the node database is a pair of finite maps.  They
    show that the laws are consistent, and the examples evaluate with them. *)

From stdpp Require Import base list gmap.
From Stdlib Require Import ZArith Lia.
From S2P Require Import Prelude Golang External.
Open Scope Z_scope.

(** ** Nodes *)

Record record := mkRecord {
  r_id : Z; r_ip : IP; r_udp : Z; r_tcp : Z; r_seq : Z }.

Definition xor_LogDist (a b : Z) : Z :=
  let x := Z.abs (Z.lxor a b) in if decide (x = 0) then 0 else Z.min 256 (Z.log2 x + 1).

Definition xor_DistCmp (t a b : Z) : Z := Z.lxor t a - Z.lxor t b.

#[export] Instance xor_enode : Enode := {|
  ID := Z;
  enode := record;
  enode_ID := r_id;
  enode_IP := r_ip;
  enode_UDP := r_udp;
  enode_TCP := r_tcp;
  enode_Seq n := u64 (r_seq n);
  ValidateComplete n := bool_decide (r_ip n <> []);
  LogDist := xor_LogDist;
  DistCmp := xor_DistCmp |}.

Lemma lxor_cancel t a b : Z.lxor t a = Z.lxor t b -> a = b.
Proof.
  intros H. apply (f_equal (Z.lxor t)) in H.
  by rewrite <- !Z.lxor_assoc, Z.lxor_nilpotent, !Z.lxor_0_l in H.
Qed.

#[export] Instance xor_enode_laws : EnodeLaws xor_enode.
Proof.
  constructor; simpl.
  - intros a b. unfold xor_LogDist. case_decide; [lia|].
    pose proof (Z.log2_nonneg (Z.abs (Z.lxor a b))). lia.
  - intros t a b. unfold xor_DistCmp. rewrite <- Z.sgn_opp. f_equal. lia.
  - unfold xor_DistCmp. lia.
  - intros t a b H. apply (lxor_cancel t). unfold xor_DistCmp in H. lia.
  - intros n. apply (wrap_u_bound 64). lia.
Qed.

(** ** Networks *)

(** The IPv4 form of an address that has one. *)
Definition canonical (a : IP) : IP := default a (To4 a).

Lemma canonical_Equal a b : IP_Equal a b = true -> canonical a = canonical b.
Proof.
  unfold canonical, IP_Equal, To4. intros H.
  destruct (decide (length a = length b)) as [|Hn]; [apply bool_decide_eq_true in H; by subst|].
  destruct (decide (length a = 4 /\ length b = 16)%nat) as [[Ha Hb]|Hn1].
  { apply andb_true_iff in H as [H1 H2]. apply bool_decide_eq_true in H1, H2.
    rewrite decide_True, decide_False, decide_True by (try done; lia). by subst. }
  destruct (decide (length a = 16 /\ length b = 4)%nat) as [[Ha Hb]|]; [|done].
  apply andb_true_iff in H as [H1 H2]. apply bool_decide_eq_true in H1, H2.
  rewrite decide_False, !decide_True by (try done; lia). by subst.
Qed.

Definition private (a : IP) : bool :=
  match canonical a with
  | x :: y :: _ => bool_decide (x = 10 \/ x = 127 \/ x = 192 /\ y = 168)
  | _ => false
  end.

Record counts := mkCounts { c_subnet : Z; c_limit : Z; c_members : gmap (list Z) nat }.

Definition c_net (s : counts) (a : IP) : list Z := take (Z.to_nat (c_subnet s / 8)) (canonical a).
Definition c_count (s : counts) (k : list Z) : nat := default 0%nat (c_members s !! k).

Definition c_Add (s : counts) (a : IP) : counts * bool :=
  if decide (Z.of_nat (c_count s (c_net s a)) < c_limit s)
  then (mkCounts (c_subnet s) (c_limit s)
          (<[c_net s a := S (c_count s (c_net s a))]> (c_members s)), true)
  else (s, false).

Definition c_Remove (s : counts) (a : IP) : counts :=
  mkCounts (c_subnet s) (c_limit s) (<[c_net s a := pred (c_count s (c_net s a))]> (c_members s)).

#[export] Instance prefix_netutil : NetUtil := {|
  IsLAN := private;
  CheckRelayIP sender a := bool_decide (a <> []) && (private sender || negb (private a));
  NetSet := counts;
  newNetSet subnet limit := mkCounts subnet limit ∅;
  NetSet_Add := c_Add;
  NetSet_Remove := c_Remove;
  netkey := list Z;
  netkey_eq_dec := _;
  NetSet_Limit := c_limit;
  NetSet_net := c_net;
  NetSet_count := c_count |}.

Lemma c_count_insert s k v k' :
  default 0%nat (<[k := v]> (c_members s) !! k') = if decide (k' = k) then v else c_count s k'.
Proof. unfold c_count. rewrite lookup_insert. repeat case_decide; congruence || done. Qed.

#[export] Instance prefix_netutil_laws : NetUtilLaws prefix_netutil.
Proof.
  constructor; simpl.
  - intros a b H. unfold private. by rewrite (canonical_Equal _ _ H).
  - intros x a b H. unfold c_net. by rewrite (canonical_Equal _ _ H).
  - done.
  - done.
  - done.
  - intros x a H. unfold c_Add. by rewrite decide_False by lia.
  - intros x a H. unfold c_Add. by rewrite decide_True by lia.
  - intros x a k. unfold c_Add. case_decide; [|done]. intros _. simpl.
    unfold c_count at 1. simpl. rewrite c_count_insert. case_decide; congruence.
  - intros x a. unfold c_Add. by case_decide.
  - intros x a b. unfold c_Add. by case_decide.
  - intros x a k. unfold c_count at 1. simpl. rewrite c_count_insert. case_decide; congruence.
  - done.
  - done.
Qed.

(** ** The node database *)

Record memdb := mkMemdb {
  m_nodes : list record;
  m_pings : gmap (Z * IP) Z;
  m_pongs : gmap (Z * IP) Z }.

#[export] Instance mem_nodedb : NodeDB (E := xor_enode) := {|
  DB := memdb;
  QuerySeeds db _ _ n _ := take (Z.to_nat n) (m_nodes db);
  UpdateNode db n := mkMemdb (n :: m_nodes db) (m_pings db) (m_pongs db);
  LastPingReceived db i a := time_Unix (default 0 (m_pings db !! (i, a)));
  UpdateLastPingReceived db i a t :=
    mkMemdb (m_nodes db) (<[(i, a) := to_Unix t]> (m_pings db)) (m_pongs db);
  LastPongReceived db i a := time_Unix (default 0 (m_pongs db !! (i, a)));
  UpdateLastPongReceived db i a t :=
    mkMemdb (m_nodes db) (m_pings db) (<[(i, a) := to_Unix t]> (m_pongs db));
  DB_FindFails _ _ _ := 0 |}.

#[export] Instance mem_nodedb_laws : NodeDBLaws mem_nodedb.
Proof.
  constructor; simpl; try done.
  - intros. by rewrite lookup_insert_eq.
  - intros. by rewrite lookup_insert_ne by congruence.
  - intros. by rewrite lookup_insert_eq.
  - intros. by rewrite lookup_insert_ne by congruence.
Qed.

Definition empty_db : @DB xor_enode mem_nodedb := mkMemdb [] ∅ ∅.

(** ** The wire protocol *)

Definition small_kind {P R : Type} (p : packet P R) : Z :=
  match p with
  | Ping _ _ _ _ _ => 1 | Pong _ _ _ _ => 2 | Findnode _ _ => 3
  | Neighbors _ _ => 4 | ENRRequest _ => 5 | ENRResponse _ _ => 6
  end.

(** Only the packets the examples receive can be decoded. *)
Definition small_Decode (buf : list Z) : option (packet Z record * Z * list Z) :=
  match buf with
  | [1; key; exp] => Some (Ping 4 (mkEndpoint [] 0 30303) (mkEndpoint [] 0 0) exp 1, key, [7])
  | [2; key; exp] => Some (Pong (mkEndpoint [] 0 0) [9] exp 1, key, [7])
  | [3; key; target; exp] => Some (Findnode target exp, key, [7])
  | _ => None
  end.

#[export] Instance small_wire : V4Wire (E := xor_enode) := {|
  Pubkey := Z;
  PublicKey := Z;
  ENRecord := record;
  Pubkey_ID key := key;
  Target_ID key := key;
  DecodePubkey key := if decide (0 <= key) then Some key else None;
  EncodePubkey key := key;
  no_Pubkey := 0;
  load_key n := Some (r_id n);
  NewV4 key ip tcp udp := mkRecord key ip udp tcp 0;
  enode_New r := Some r;
  NewEndpoint ip udp tcp := mkEndpoint ip udp tcp;
  Expired now exp := bool_decide (time_Unix (i64 exp) < now);
  Kind := small_kind;
  PongPacket := 2;
  NeighborsPacket := 4;
  ENRResponsePacket := 6;
  MaxNeighbors := 2;
  Encode p := Some ([small_kind p], [9]);
  Decode := small_Decode |}.

#[export] Instance small_wire_laws : V4WireLaws small_wire.
Proof.
  constructor; simpl; try done.
  - intros key pk ip tcp udp. case_decide; [|done]. by intros [= ->].
  - lia.
  - intros []; simpl; try done. intros _. by repeat eexists.
  - intros []; simpl; try done. intros _. by repeat eexists.
  - intros []; simpl; try done. intros _. by repeat eexists.
Qed.
