(* ===== verification/Nodes.v ===== *)
(** * crawler/net/discovery/common: nodes and lists ordered by distance *)

From stdpp Require Import base list gmap sorting.
From Stdlib Require Import ZArith Lia Permutation Sorted.
From S2P Require Import Prelude Golang External.
Open Scope Z_scope.

(** ** Nodes

    A [*common.Node] is a pointer.  The embedded [enode.Node] never changes,
    so it is kept beside the pointer; the two mutable fields are a cell of
    the heap, shared by every list that holds the pointer. *)

Section Nodes.
Context `{E : Enode}.

Record Node := mkNode { node_ptr : nat; node_enode : enode }.

Record cell := mkCell { addedAt : Z; livenessChecks : Z }.

Record heap := mkHeap { h_next : nat; h_cells : gmap nat cell }.

(** The zero value of the two fields, which [&Node{Node: *n}] allocates. *)
Definition zero_cell : cell := mkCell 0 0.

Definition deref (h : heap) (n : Node) : cell := default zero_cell (h_cells h !! node_ptr n).

Definition store (h : heap) (n : Node) (c : cell) : heap :=
  mkHeap (h_next h) (<[node_ptr n := c]> (h_cells h)).

Definition SetTimestamp (h : heap) (n : Node) (ts : Z) : heap :=
  store h n (mkCell (u64 (to_Unix ts)) (livenessChecks (deref h n))).

Definition Bump (h : heap) (n : Node) : heap :=
  store h n (mkCell (addedAt (deref h n)) (u64 (livenessChecks (deref h n) + 1))).

Definition BumpX (h : heap) (n : Node) (i : Z) : heap :=
  store h n (mkCell (addedAt (deref h n)) (u64 (livenessChecks (deref h n) + u64 i))).

Definition Unwrap (n : Node) : enode := node_enode n.

Definition WrapNode (h : heap) (n : enode) : heap * Node :=
  (mkHeap (S (h_next h)) (delete (h_next h) (h_cells h)), mkNode (h_next h) n).

Fixpoint WrapNodes (h : heap) (ns : list enode) : heap * list Node :=
  match ns with
  | [] => (h, [])
  | n :: ns' =>
      let '(h1, x) := WrapNode h n in
      let '(h2, xs) := WrapNodes h1 ns' in (h2, x :: xs)
  end.

Definition UnwrapNodes (ns : list Node) : list enode := map Unwrap ns.

Definition GetAddedAt (h : heap) (n : Node) : Z := time_Unix (i64 (addedAt (deref h n))).
Definition GetCount (h : heap) (n : Node) : Z := i64 (livenessChecks (deref h n)).
Definition GetNode (n : Node) : enode := node_enode n.

Definition Node_ID (n : Node) : ID := enode_ID (node_enode n).
Definition Node_IP (n : Node) : IP := enode_IP (node_enode n).
Definition Node_Seq (n : Node) : Z := enode_Seq (node_enode n).

(** ** NodesByDistance *)

Record NodesByDistance := mkNBD { nbd_entries : list Node; Target : ID }.

Definition Entries (h : NodesByDistance) : list Node := nbd_entries h.
Definition Enodes (h : NodesByDistance) : list enode := UnwrapNodes (nbd_entries h).

Definition Push (h : NodesByDistance) (n : Node) (maxElems : Z) : NodesByDistance :=
  let es := nbd_entries h in
  let ix := sort_Search (length es)
    (fun i => match es !! i with
              | Some e => bool_decide (DistCmp (Target h) (Node_ID e) (Node_ID n) > 0)
              | None => false
              end) in
  let end_ := length es in
  let es1 := if decide (Z.of_nat (length es) < maxElems) then es ++ [n] else es in
  let es2 :=
    if decide (ix < end_)%nat
    then <[ix := n]> (copy_at (S ix) es1 (drop ix es1))
    else es1 in
  mkNBD es2 (Target h).

(** ** The reference: insertion into a sorted list *)

(** [x] is no farther from [t] than [y]. *)
Definition dist_le (t : ID) (x y : Node) : Prop := DistCmp t (Node_ID x) (Node_ID y) <= 0.

#[export] Instance dist_le_dec t x y : Decision (dist_le t x y).
Proof. unfold dist_le. apply _. Defined.

(** Insert behind every element that is no farther. *)
Fixpoint insert_by (t : ID) (n : Node) (l : list Node) : list Node :=
  match l with
  | [] => [n]
  | x :: l' => if decide (dist_le t x n) then x :: insert_by t n l' else n :: l
  end.

(** The reference result of a run of [Push]es: insert, keep the first [k]. *)
Definition push_ref (t : ID) (k : nat) (l : list Node) (n : Node) : list Node :=
  take k (insert_by t n l).

Definition sorted_by (t : ID) (l : list Node) : Prop := StronglySorted (dist_le t) l.

End Nodes.

Arguments Node {E}.
Arguments NodesByDistance {E}.
