(* ===== verification/NodesFacts.v ===== *)
(** * Facts about NodesByDistance

    [Push] refines sorted insertion followed by truncation, and a run of
    [Push]es keeps the closest nodes. *)

From stdpp Require Import base list gmap sorting.
From Stdlib Require Import ZArith Lia Permutation Sorted.
From S2P Require Import Prelude Golang External Nodes.
Open Scope Z_scope.

(** ** Shifting a slice by one position *)

Lemma slide_insert {A} (l : list A) ix x :
  (ix < length l)%nat ->
  <[ix := x]> (copy_at (S ix) l (drop ix l)) =
  take ix l ++ x :: take (length l - S ix) (drop ix l).
Proof.
  intros Hix. unfold copy_at. rewrite length_drop.
  replace (Nat.min (length l - S ix) (length l - ix)) with (length l - S ix)%nat by lia.
  rewrite (drop_ge l (_ + _)) by lia. rewrite app_nil_r.
  destruct (lookup_lt_is_Some_2 l ix Hix) as [y Hy].
  rewrite (take_S_r _ _ _ Hy), <- app_assoc. simpl.
  rewrite insert_app_r_alt by (rewrite length_take; lia).
  rewrite length_take, Nat.min_l, Nat.sub_diag by lia. done.
Qed.

Section Facts.
Context `{EL : EnodeLaws}.

(** ** The distance order *)

Lemma dist_le_trans t x y z : dist_le t x y -> dist_le t y z -> dist_le t x z.
Proof. unfold dist_le. apply DistCmp_trans. Qed.

Lemma dist_le_total t x y : ~ dist_le t x y -> dist_le t y x.
Proof.
  unfold dist_le. intros H.
  pose proof (DistCmp_sgn t (Node_ID x) (Node_ID y)). lia.
Qed.

Lemma dist_le_refl t x : dist_le t x x.
Proof.
  unfold dist_le. pose proof (DistCmp_sgn t (Node_ID x) (Node_ID x)). lia.
Qed.

Lemma farther_iff t e n :
  bool_decide (DistCmp t (Node_ID e) (Node_ID n) > 0) = true <-> ~ dist_le t e n.
Proof. rewrite bool_decide_eq_true. unfold dist_le. lia. Qed.

(** ** Sorted insertion *)

Lemma insert_by_perm t n l : Permutation (insert_by t n l) (n :: l).
Proof.
  induction l as [|x l IH]; simpl; [done|].
  case_decide; [|done]. rewrite IH. apply perm_swap.
Qed.

Lemma length_insert_by t n l : length (insert_by t n l) = S (length l).
Proof. by rewrite insert_by_perm. Qed.

Lemma insert_by_sorted t n l : sorted_by t l -> sorted_by t (insert_by t n l).
Proof.
  unfold sorted_by. induction 1 as [|x l Hl IH Hx]; simpl.
  - repeat constructor.
  - case_decide as Hd.
    + constructor; [done|]. rewrite insert_by_perm. by constructor.
    + constructor; [by constructor|].
      apply dist_le_total in Hd. constructor; [done|].
      eapply Forall_impl; [exact Hx|]. intros y. by apply dist_le_trans.
Qed.

Lemma sorted_take t k l : sorted_by t l -> sorted_by t (take k l).
Proof.
  unfold sorted_by. intros H. revert k.
  induction H as [|x l Hl IH Hx]; intros [|k]; simpl; try constructor; [done|].
  by apply Forall_take.
Qed.

(** The position where [insert_by] inserts is the one [sort.Search] finds. *)
Lemma insert_by_position t n l :
  sorted_by t l -> exists p,
  insert_by t n l = take p l ++ n :: drop p l /\
  partition_point (length l)
    (fun i => match l !! i with
              | Some e => bool_decide (DistCmp t (Node_ID e) (Node_ID n) > 0)
              | None => false
              end) p.
Proof.
  unfold sorted_by. induction 1 as [|x l Hl IH Hx]; simpl.
  - exists 0%nat. split; [done|]. split; [simpl; lia|]. split; intros; lia.
  - case_decide as Hd.
    + destruct IH as (p & -> & Hp & Hlo & Hhi). exists (S p).
      split; [done|]. split; [simpl; lia|]. split.
      * intros [|i] Hi; simpl; [|apply Hlo; lia].
        apply not_true_iff_false. rewrite farther_iff. tauto.
      * intros [|i] Hi; simpl; [lia|]. apply Hhi. lia.
    + exists 0%nat. split; [done|]. split; [lia|]. split; [lia|].
      intros i Hi.
      destruct (lookup_lt_is_Some_2 (x :: l) i) as [y Hy]; [simpl; lia|].
      rewrite Hy, farther_iff. intros Hyn. apply Hd.
      destruct i as [|i]; simplify_eq/=; [done|].
      rewrite Forall_lookup in Hx. eapply dist_le_trans; [by eapply Hx|done].
Qed.

(** C-level refinement: [Push] with its binary search and its in-place shift
    is sorted insertion followed by truncation. *)
Lemma Push_refines h n maxElems :
  sorted_by (Target h) (nbd_entries h) ->
  Z.of_nat (length (nbd_entries h)) <= maxElems ->
  nbd_entries (Push h n maxElems) =
    push_ref (Target h) (Z.to_nat maxElems) (nbd_entries h) n.
Proof.
  destruct h as [es t]; simpl. intros Hs Hlen. unfold push_ref, Push; simpl.
  destruct (insert_by_position t n es Hs) as (p & -> & Hpp).
  rewrite (sort_Search_spec _ _ _ Hpp). destruct Hpp as (Hp & _).
  destruct (decide (Z.of_nat (length es) < maxElems)) as [Hroom|Hroom].
  - rewrite (take_ge (take p es ++ _))
      by (rewrite length_app, length_take; simpl; rewrite length_drop; lia).
    case_decide as Hix.
    + rewrite slide_insert by (rewrite length_app; simpl; lia).
      rewrite take_app_le, drop_app_le by lia. f_equal. f_equal.
      rewrite length_app; simpl.
      rewrite take_app_le by (rewrite length_drop; lia).
      apply take_ge. rewrite length_drop; lia.
    + rewrite (take_ge es), (drop_ge es) by lia. done.
  - assert (length es = Z.to_nat maxElems) as Hk by lia.
    case_decide as Hix.
    + rewrite slide_insert by done. rewrite <- Hk.
      rewrite take_app_ge by (rewrite length_take; lia).
      rewrite length_take, Nat.min_l by lia.
      replace (length es - p)%nat with (S (length es - S p)) by lia. done.
    + rewrite take_app_le by (rewrite length_take; lia).
      rewrite take_take, take_ge by lia. done.
Qed.

Lemma Push_Target h n k : Target (Push h n k) = Target h.
Proof. done. Qed.

Lemma push_ref_sorted t k l n : sorted_by t l -> sorted_by t (push_ref t k l n).
Proof. intros. by apply sorted_take, insert_by_sorted. Qed.

Lemma push_ref_length t k l n : (length (push_ref t k l n) <= k)%nat.
Proof. unfold push_ref. rewrite length_take. lia. Qed.

Lemma Push_fold h ns k :
  sorted_by (Target h) (nbd_entries h) ->
  Z.of_nat (length (nbd_entries h)) <= k ->
  nbd_entries (fold_left (fun h n => Push h n k) ns h) =
    fold_left (push_ref (Target h) (Z.to_nat k)) ns (nbd_entries h) /\
  Target (fold_left (fun h n => Push h n k) ns h) = Target h.
Proof.
  revert h. induction ns as [|n ns IH]; intros h Hs Hlen; simpl; [done|].
  pose proof (Push_refines h n k Hs Hlen) as HP.
  destruct (IH (Push h n k)) as [IH1 IH2].
  - rewrite HP. by apply push_ref_sorted.
  - rewrite HP. pose proof (push_ref_length (Target h) (Z.to_nat k) (nbd_entries h) n). lia.
  - rewrite IH1, IH2, HP. done.
Qed.

(** ** The closest nodes *)

(** [l] holds [k] closest elements of [pool] (all of it when [pool] is
    smaller), in order of distance. *)
Definition k_closest (t : ID) (k : nat) (pool l : list Node) : Prop :=
  sorted_by t l /\
  exists rest, Permutation pool (l ++ rest) /\
    (length l = Nat.min k (length pool)) /\
    (forall x y, x ∈ l -> y ∈ rest -> dist_le t x y).

Lemma sorted_split t k l :
  sorted_by t l -> forall x y, x ∈ take k l -> y ∈ drop k l -> dist_le t x y.
Proof.
  unfold sorted_by. intros H. revert k.
  induction H as [|z l Hl IH Hz]; intros [|k] x y; simpl;
    try (intros Hx; by apply elem_of_nil in Hx).
  rewrite elem_of_cons. intros [->|Hx] Hy; [|by eapply IH].
  rewrite Forall_forall in Hz. apply Hz.
  by eapply subseteq_drop.
Qed.

(** When the inserted node survives the truncation of a full list, an old
    element was dropped. *)
Lemma dropped_old t k n l :
  length l = k -> n ∈ take k (insert_by t n l) ->
  exists w, w ∈ drop k (insert_by t n l) /\ w ∈ l.
Proof.
  intros Hk Hn. pose proof (insert_by_perm t n l) as Hp.
  rewrite <- (take_drop k (insert_by t n l)) in Hp.
  assert (length (drop k (insert_by t n l)) = 1%nat) as H1
    by (rewrite length_drop, length_insert_by; lia).
  destruct (drop k _) as [|w [|? ?]]; try discriminate.
  exists w. split; [set_solver|].
  destruct (elem_of_Permutation (take k (insert_by t n l)) n) as [HP _].
  destruct (HP Hn) as [l' Hl']. rewrite Hl' in Hp. simpl in Hp.
  apply Permutation_cons_inv in Hp. rewrite <- Hp. set_solver.
Qed.

Lemma k_closest_push t k pool l n :
  k_closest t k pool l -> k_closest t k (n :: pool) (push_ref t k l n).
Proof.
  intros (Hs & rest & Hperm & Hlen & Hle).
  pose proof (insert_by_sorted t n l Hs) as Hs'.
  split; [by apply push_ref_sorted|].
  exists (drop k (insert_by t n l) ++ rest). unfold push_ref. split_and!.
  - rewrite app_assoc, take_drop, insert_by_perm, Hperm. done.
  - rewrite length_take, length_insert_by. simpl.
    apply Permutation_length in Hperm. rewrite length_app in Hperm. lia.
  - intros x y Hx. rewrite elem_of_app. intros [Hy|Hy]; [by eapply sorted_split|].
    destruct (decide (k <= length pool)%nat) as [Hk|Hk].
    + (* l is full: what remains after truncation is no farther than l's own *)
      assert (length l = k) as Hlk by lia.
      assert (exists z, z ∈ l /\ dist_le t x z) as (z & Hz & Hxz);
        [|eapply dist_le_trans; [exact Hxz|by apply Hle]].
      pose proof (subseteq_take k (insert_by t n l) x Hx) as Hin.
      rewrite insert_by_perm, elem_of_cons in Hin.
      destruct Hin as [->|Hin]; [|exists x; split; [done|apply dist_le_refl]].
      destruct (dropped_old t k n l Hlk Hx) as (w & Hw & Hwl).
      exists w. split; [done|]. by eapply sorted_split.
    + apply Permutation_length in Hperm. rewrite length_app in Hperm.
      destruct rest; [by apply elem_of_nil in Hy|simpl in Hperm; lia].
Qed.

#[export] Instance k_closest_proper t k : Proper (Permutation ==> eq ==> iff) (k_closest t k).
Proof.
  assert (forall p q l, Permutation p q -> k_closest t k p l -> k_closest t k q l) as H.
  { intros p q l Hpq (Hs & rest & Hp & Hl & Hle). split; [done|]. exists rest.
    rewrite <- Hpq. done. }
  intros p q Hpq l ? <-. split; apply H; done.
Qed.

Lemma k_closest_fold t k ns pool l :
  k_closest t k pool l -> k_closest t k (pool ++ ns) (fold_left (push_ref t k) ns l).
Proof.
  revert pool l. induction ns as [|n ns IH]; intros pool l H; simpl; [by rewrite app_nil_r|].
  rewrite cons_middle, app_assoc. apply IH.
  rewrite Permutation_app_comm. by apply k_closest_push.
Qed.

(** A run of [Push]es from an empty list keeps the closest of the pushed nodes. *)
Lemma Push_closest t ns k :
  0 <= k ->
  k_closest t (Z.to_nat k) ns
    (nbd_entries (fold_left (fun h n => Push h n k) ns (mkNBD [] t))).
Proof.
  intros Hk. destruct (Push_fold (mkNBD [] t) ns k) as [-> _]; simpl; [constructor|lia|].
  apply (k_closest_fold t (Z.to_nat k) ns [] []).
  split; [constructor|]. exists []. simpl. split_and!; [done|lia|].
  intros x y Hx. by apply elem_of_nil in Hx.
Qed.

Lemma k_closest_length t k pool l : k_closest t k pool l -> length l = Nat.min k (length pool).
Proof. intros (_ & rest & _ & H & _). done. Qed.

Lemma k_closest_subset t k pool l x : k_closest t k pool l -> x ∈ l -> x ∈ pool.
Proof. intros (_ & rest & -> & _) Hx. apply elem_of_app. by left. Qed.

End Facts.
