(* ===== verification/Table.v ===== *)
(** * crawler/net/discovery/table: the node table

    The Kademlia table of nodes the discovery protocol keeps: buckets of live
    entries and replacements, and the IP limits per bucket and per table.  A
    method that takes the mutex is one function on [Table]; log messages are
    left out; the hook is the trace of its calls.  Random choices and the
    clock are arguments. *)

From stdpp Require Import base list gmap.
From Stdlib Require Import ZArith Lia.
From S2P Require Import Prelude Golang External Nodes.
Open Scope Z_scope.

Definition bucketSize : nat := 16.
Definition maxReplacements : nat := 10.
Definition hashBits : Z := 32 * 8.
Definition nBuckets : Z := hashBits / 15.
Definition bucketMinDistance : Z := hashBits - nBuckets.
Definition seedMinTableTime : Z := 5 * Minute.
Definition seedCount : Z := 30.
Definition seedMaxAge : Z := 5 * 24 * Hour.

Inductive HookType : Set := Added | Seen | Removed.

(** The package variables [bucketIPLimit], [bucketSubnet], [tableIPLimit] and
    [tableSubnet]. *)
Record limits := mkLimits {
  bucketIPLimit : Z; bucketSubnet : Z; tableIPLimit : Z; tableSubnet : Z }.

Definition default_limits : limits := mkLimits 2 24 10 24.
Definition no_limits : limits := mkLimits MaxUint MaxUint MaxUint MaxUint.

Section Table.
Context `{E : Enode} `{N : NetUtil} `{D : NodeDB (E := E)}.

Record bucket := mkBucket {
  entries : list Node;
  replacements : list Node;
  bips : NetSet }.

Record Table := mkTable {
  buckets : list bucket;
  nursery : list Node;
  tips : NetSet;
  db : DB;
  hp : heap;
  initDone : bool;
  nodedHook : bool;
  hooks : list (Node * HookType) }.

(** [tab.net.Self()]: the local node. *)
Variable Self : enode.

Definition set_buckets (t : Table) bs :=
  mkTable bs (nursery t) (tips t) (db t) (hp t) (initDone t) (nodedHook t) (hooks t).
Definition set_tips (t : Table) s :=
  mkTable (buckets t) (nursery t) s (db t) (hp t) (initDone t) (nodedHook t) (hooks t).
Definition set_db (t : Table) d :=
  mkTable (buckets t) (nursery t) (tips t) d (hp t) (initDone t) (nodedHook t) (hooks t).
Definition set_hp (t : Table) h :=
  mkTable (buckets t) (nursery t) (tips t) (db t) h (initDone t) (nodedHook t) (hooks t).
(** Writing back a bucket and the table's address set. *)
Definition put (t : Table) (bi : nat) (s : NetSet) (b : bucket) : Table :=
  set_tips (set_buckets t (<[bi := b]> (buckets t))) s.

Definition hookNode (t : Table) (n : Node) (ty : HookType) : Table :=
  if nodedHook t
  then mkTable (buckets t) (nursery t) (tips t) (db t) (hp t) (initDone t) (nodedHook t)
         (hooks t ++ [(n, ty)])
  else t.

(** ** Lists of nodes *)

Definition contains (ns : list Node) (id : ID) : bool :=
  existsb (fun n => bool_decide (Node_ID n = id)) ns.

(** The slots of the slice are pointers, [None] is nil. *)
Definition pushNode (l : list Node) (n : Node) (max : nat)
    : outcome (list Node * option Node) :=
  let slots := map Some l in
  let slots1 := if decide (length slots < max)%nat then slots ++ [None] else slots in
  match last slots1 with
  | None => Panic IndexOutOfRange
  | Some removed =>
      let slots2 := <[0%nat := Some n]> (copy_at 1 slots1 slots1) in
      Ok (omap id slots2, removed)
  end.

Fixpoint deleteNode (l : list Node) (n : Node) : list Node :=
  match l with
  | [] => []
  | x :: l' => if decide (Node_ID x = Node_ID n) then l' else x :: deleteNode l' n
  end.

(** ** IP limits *)

Definition set_entries (b : bucket) es := mkBucket es (replacements b) (bips b).
Definition set_replacements (b : bucket) rs := mkBucket (entries b) rs (bips b).
Definition set_bips (b : bucket) s := mkBucket (entries b) (replacements b) s.

Definition addIP (s : NetSet) (b : bucket) (a : IP) : NetSet * bucket * bool :=
  if decide (length a = 0)%nat then (s, b, false)
  else if IsLAN a then (s, b, true)
  else
    let '(s1, ok) := NetSet_Add s a in
    if negb ok then (s1, b, false)
    else
      let '(bs1, ok) := NetSet_Add (bips b) a in
      if negb ok then (NetSet_Remove s1 a, set_bips b bs1, false)
      else (s1, set_bips b bs1, true).

Definition removeIP (s : NetSet) (b : bucket) (a : IP) : NetSet * bucket :=
  if IsLAN a then (s, b)
  else (NetSet_Remove s a, set_bips b (NetSet_Remove (bips b) a)).

(** ** Operations inside one bucket *)

Definition addReplacement (s : NetSet) (b : bucket) (n : Node) : outcome (NetSet * bucket) :=
  if contains (replacements b) (Node_ID n) then Ok (s, b)
  else
    let '(s1, b1, ok) := addIP s b (Node_IP n) in
    if negb ok then Ok (s1, b1)
    else
      '(rs, removed) ← pushNode (replacements b1) n maxReplacements;
      let b2 := set_replacements b1 rs in
      match removed with
      | Some r => Ok (removeIP s1 b2 (Node_IP r))
      | None => Ok (s1, b2)
      end.

Definition deleteInBucket (s : NetSet) (b : bucket) (n : Node) : NetSet * bucket :=
  removeIP s (set_entries b (deleteNode (entries b) n)) (Node_IP n).

(** [rnd] is what [tab.rand] draws for [Intn]. *)
Definition replace (s : NetSet) (b : bucket) (last_ : Node) (rnd : nat)
    : NetSet * bucket * option Node :=
  match last (entries b) with
  | None => (s, b, None)
  | Some e =>
      if decide (Node_ID e <> Node_ID last_) then (s, b, None)
      else
        match replacements b !! (rnd mod length (replacements b))%nat with
        | None => (* len(b.replacements) == 0 *)
            let '(s1, b1) := deleteInBucket s b last_ in (s1, b1, None)
        | Some r =>
            let b1 := set_replacements b (deleteNode (replacements b) r) in
            let b2 := set_entries b1 (<[pred (length (entries b1)) := r]> (entries b1)) in
            let '(s1, b3) := removeIP s b2 (Node_IP last_) in
            (s1, b3, Some r)
        end
  end.

(** The loop stops at the first entry with the node's identity. *)
Definition bumpInBucket (s : NetSet) (b : bucket) (n : Node) : NetSet * bucket * bool :=
  match list_find (fun e => Node_ID e = Node_ID n) (entries b) with
  | None => (s, b, false)
  | Some (i, e) =>
      let move (s : NetSet) (b : bucket) :=
        (s, set_entries b
              (<[0%nat := n]> (copy_at 1 (entries b) (take i (entries b)))), true) in
      if IP_Equal (Node_IP n) (Node_IP e) then move s b
      else
        let '(s1, b1) := removeIP s b (Node_IP e) in
        let '(s2, b2, ok) := addIP s1 b1 (Node_IP n) in
        if negb ok then
          let '(s3, b3, _) := addIP s2 b2 (Node_IP e) in (s3, b3, false)
        else move s2 b2
  end.

(** ** Buckets of the table *)

(** [bucketAtDistance]: the bucket's index in the array. *)
Definition bucketAtDistance (d : Z) : outcome nat :=
  if decide (d <= bucketMinDistance) then Ok 0%nat
  else
    let i := d - bucketMinDistance - 1 in
    if decide (0 <= i < nBuckets) then Ok (Z.to_nat i) else Panic IndexOutOfRange.

Definition bucket_of (id : ID) : outcome nat := bucketAtDistance (LogDist (enode_ID Self) id).

Definition get_bucket (t : Table) (bi : nat) : outcome bucket :=
  match buckets t !! bi with Some b => Ok b | None => Panic IndexOutOfRange end.

(** ** The table's methods *)

Definition AddSeenNode (now : Z) (t0 : Table) (n : Node) : outcome Table :=
  if decide (Node_ID n = enode_ID Self) then Ok t0
  else
    let t := hookNode t0 n Seen in
    bi ← bucket_of (Node_ID n);
    b ← get_bucket t bi;
    if contains (entries b) (Node_ID n) then Ok t
    else if decide (bucketSize <= length (entries b))%nat then
      '(s, b1) ← addReplacement (tips t) b n;
      Ok (put t bi s b1)
    else
      let '(s, b1, ok) := addIP (tips t) b (Node_IP n) in
      if negb ok then Ok (put t bi s b1)
      else
        let b2 := set_entries b1 (entries b1 ++ [n]) in
        let b3 := set_replacements b2 (deleteNode (replacements b2) n) in
        let t1 := put t bi s b3 in
        Ok (hookNode (set_hp t1 (SetTimestamp (hp t1) n now)) n Added).

Definition addVerifiedNode (now : Z) (t : Table) (n : Node) : outcome Table :=
  if negb (initDone t) then Ok t
  else if decide (Node_ID n = enode_ID Self) then Ok t
  else
    bi ← bucket_of (Node_ID n);
    b ← get_bucket t bi;
    let '(s, b1, bumped) := bumpInBucket (tips t) b n in
    let t1 := put t bi s b1 in
    if (bumped : bool) then Ok t1
    else if decide (bucketSize <= length (entries b1))%nat then
      '(s2, b2) ← addReplacement (tips t1) b1 n;
      Ok (put t1 bi s2 b2)
    else
      let '(s2, b2, ok) := addIP (tips t1) b1 (Node_IP n) in
      if negb ok then Ok (put t1 bi s2 b2)
      else
        '(es, _) ← pushNode (entries b2) n bucketSize;
        let b3 := set_entries b2 es in
        let b4 := set_replacements b3 (deleteNode (replacements b3) n) in
        let t2 := put t1 bi s2 b4 in
        Ok (hookNode (set_hp t2 (SetTimestamp (hp t2) n now)) n Added).

Definition delete_ (t : Table) (n : Node) : outcome Table :=
  bi ← bucket_of (Node_ID n);
  b ← get_bucket t bi;
  let '(s, b1) := deleteInBucket (tips t) b n in
  Ok (put t bi s b1).

Fixpoint AddSeenNodes (now : Z) (t : Table) (ns : list Node) : outcome Table :=
  match ns with
  | [] => Ok t
  | n :: ns' => t1 ← AddSeenNode now t n; AddSeenNodes now t1 ns'
  end.

(** [qrnd] is the randomness of the database query. *)
Definition loadSeedNodes (now : Z) (qrnd : nat) (t : Table) : outcome Table :=
  let '(h, seeds) := WrapNodes (hp t) (QuerySeeds (db t) now qrnd seedCount seedMaxAge) in
  AddSeenNodes now (set_hp t h) (seeds ++ nursery t).

(** [setFallbackNodes]: [None] is the error of a bad bootstrap node. *)
Definition setFallbackNodes (t : Table) (ns : list enode) : option Table :=
  if forallb ValidateComplete ns then
    let '(h, nodes) := WrapNodes (hp t) ns in
    Some (mkTable (buckets t) nodes (tips t) (db t) h (initDone t) (nodedHook t) (hooks t))
  else None.

(** The limits are package variables: a call with [ignoreLimits] overwrites
    them for every table built later.  [None] is the error result. *)
Definition NewTable (lim : limits) (now : Z) (qrnd : nat) (d : DB) (bootnodes : list enode)
    (ignoreLimits : bool) (hook : bool) : outcome (limits * option Table) :=
  let lim := if ignoreLimits then no_limits else lim in
  let tab := mkTable [] [] (newNetSet (tableSubnet lim) (tableIPLimit lim)) d
               (mkHeap 0 ∅) false hook [] in
  match setFallbackNodes tab bootnodes with
  | None => Ok (lim, None)
  | Some tab =>
      let tab := set_buckets tab (replicate (Z.to_nat nBuckets)
                   (mkBucket [] [] (newNetSet (bucketSubnet lim) (bucketIPLimit lim)))) in
      tab ← loadSeedNodes now qrnd tab;
      Ok (lim, Some tab)
  end.

Definition getNode (t : Table) (id : ID) : outcome (option enode) :=
  bi ← bucket_of id;
  b ← get_bucket t bi;
  Ok (snd <$> list_find (fun n => enode_ID n = id) (map GetNode (entries b))).

Definition all_entries (t : Table) : list Node := concat (map entries (buckets t)).

Definition len (t : Table) : nat := foldr (fun b n => (length (entries b) + n)%nat) 0%nat (buckets t).

Definition BucketLen (t : Table) (id : ID) : outcome nat :=
  bi ← bucket_of id; b ← get_bucket t bi; Ok (length (entries b)).

(** The two nested loops run over [all_entries] in order. *)
Definition FindnodeByID (t : Table) (target : ID) (nresults : Z) (preferLive : bool)
    : NodesByDistance :=
  let step '(nodes, liveNodes) n :=
    (Push nodes n nresults,
     if preferLive && bool_decide (GetCount (hp t) n > 0)
     then Push liveNodes n nresults else liveNodes) in
  let '(nodes, liveNodes) :=
    fold_left step (all_entries t) (mkNBD [] target, mkNBD [] target) in
  if preferLive && bool_decide (0 < length (Entries liveNodes))%nat then liveNodes else nodes.

(** [rnd i] is the number drawn at iteration [i]. *)
Fixpoint shuffle (rnd : nat -> nat) (k : nat) (i : nat) (l : list enode) : list enode :=
  match k with
  | O => l
  | S k' =>
      let j := (rnd i mod length l)%nat in
      let l' := match l !! i, l !! j with
                | Some x, Some y => <[j := x]> (<[i := y]> l)
                | _, _ => l
                end in
      shuffle rnd k' (S i) l'
  end.

(** The number of nodes copied and the buffer afterwards. *)
Definition ReadRandomNodes (rnd : nat -> nat) (t : Table) (buf : list enode)
    : nat * list enode :=
  if negb (initDone t) then (0%nat, buf)
  else
    let nodes := map GetNode (all_entries t) in
    let nodes := shuffle rnd (length nodes) 0 nodes in
    (Nat.min (length buf) (length nodes), copy_at 0 buf nodes).

Definition copyLiveNodes (now : Z) (t : Table) : Table :=
  fold_left (fun t n =>
      if decide (GetCount (hp t) n > 0 /\ time_Sub now (GetAddedAt (hp t) n) >= seedMinTableTime)
      then set_db t (UpdateNode (db t) (Unwrap n)) else t)
    (all_entries t) t.

(** ** Revalidation *)

(** [perm] is the permutation of bucket indices [rand.Perm] draws. *)
Fixpoint nodeToRevalidate (t : Table) (perm : list nat) : option (Node * nat) :=
  match perm with
  | [] => None
  | bi :: perm' =>
      match buckets t !! bi with
      | Some b => match last (entries b) with
                  | Some n => Some (n, bi)
                  | None => nodeToRevalidate t perm'
                  end
      | None => nodeToRevalidate t perm'
      end
  end.

(** What [doRevalidate] does once the ping returned [(remoteSeq, err)] and,
    when the sequence number is higher, the ENR request returned [enr]. *)
Definition doRevalidate_enr (t : Table) (last_ : Node) (remoteSeq : Z) (enr : option enode)
    : Table * Node :=
  if decide (Node_Seq last_ < remoteSeq) then
    match enr with
    | None => (t, last_)
    | Some n =>
        let '(h, l1) := WrapNode (hp t) n in
        let h := SetTimestamp h l1 (GetAddedAt h last_) in
        let h := BumpX h l1 (GetCount h last_) in
        (set_hp t h, l1)
    end
  else (t, last_).

Definition doRevalidate_reply (t0 : Table) (last0 : Node) (bi : nat) (remoteSeq : Z)
    (err : bool) (enr : option enode) (rnd : nat) : outcome Table :=
  let '(t, last_) := doRevalidate_enr t0 last0 remoteSeq enr in
  b ← get_bucket t bi;
  if negb err then
    let t := set_hp t (Bump (hp t) last_) in
    let '(s, b1, _) := bumpInBucket (tips t) b last_ in
    Ok (put t bi s b1)
  else
    let '(s, b1, r) := replace (tips t) b last_ rnd in
    let t := put t bi s b1 in
    match r with
    | Some _ => Ok t
    | None => Ok (hookNode t last_ Removed)
    end.

Definition FindFails (t : Table) (id : ID) (a : IP) : Z := 0.

(** [UpdateFindFails] always fails, with "not implemented". *)
Definition UpdateFindFails (t : Table) (id : ID) (a : IP) (fails : Z) : bool := false.

End Table.

Arguments bucket {E N}.
Arguments Table {E N D}.
