(* ===== verification/TableBucket.v ===== *)
(** * Operations on one bucket of the node table

    The bucket's invariant and its preservation by [addReplacement],
    [bumpInBucket], [deleteInBucket] and [replace], with what each of them
    does to the two lists. *)

From stdpp Require Import base list gmap.
From Stdlib Require Import ZArith Lia Permutation.
From S2P Require Import Prelude Golang External Nodes NodesFacts Table TableInv.
Open Scope Z_scope.

(** ** Slices *)

Lemma move_front {A} (l : list A) i x :
  (i < length l)%nat ->
  <[0%nat := x]> (copy_at 1 l (take i l)) = x :: take i l ++ drop (S i) l.
Proof.
  intros Hi. destruct l as [|y l]; simpl in Hi; [lia|].
  unfold copy_at. rewrite length_take. simpl length.
  replace (Nat.min (S (length l) - 1) (Nat.min i (S (length l)))) with i by lia.
  rewrite take_take, Nat.min_id. done.
Qed.

Lemma shift_right {A} (l : list A) x :
  (0 < length l)%nat -> <[0%nat := x]> (copy_at 1 l l) = x :: take (length l - 1) l.
Proof.
  intros Hl. destruct l as [|y l]; simpl in Hl; [lia|].
  unfold copy_at. replace (Nat.min (length (y :: l) - 1) (length (y :: l))) with (length l)
    by (simpl; lia).
  rewrite (drop_ge (y :: l) (1 + length l)) by done. rewrite app_nil_r.
  simpl length. rewrite Nat.sub_succ, Nat.sub_0_r. done.
Qed.

Section Bucket.
Context `{EL : EnodeLaws} `{NL : NetUtilLaws} `{D : NodeDB (E := E)}.

(** ** [contains], [pushNode], [deleteNode] *)

Lemma contains_true ns id : contains ns id = true <-> id ∈ map Node_ID ns.
Proof.
  unfold contains. rewrite existsb_exists, list_elem_of_fmap. split.
  - intros (x & Hx & Hid). apply bool_decide_eq_true in Hid.
    exists x. split; [done|]. by apply list_elem_of_In.
  - intros (x & -> & Hx). exists x. rewrite bool_decide_eq_true. split; [|done].
    by apply list_elem_of_In.
Qed.

Lemma contains_false ns id : contains ns id = false <-> id ∉ map Node_ID ns.
Proof. rewrite <- contains_true. by destruct (contains ns id). Qed.

Lemma omap_id_Some {A} (l : list A) : omap id (map Some l) = l.
Proof. induction l as [|x l IH]; csimpl; [done|]. by rewrite IH. Qed.

(** [pushNode] puts the node at the front and drops the last element of a
    full list. *)
Lemma pushNode_spec l n max :
  (0 < max)%nat -> (length l <= max)%nat ->
  pushNode l n max =
    Ok (n :: take (max - 1) l, if decide (length l < max)%nat then None else last l).
Proof.
  intros Hmax Hl. unfold pushNode. change (map Some l) with (Some <$> l).
  rewrite length_fmap.
  destruct (decide (length l < max)%nat) as [Hlt|Hge].
  - rewrite last_snoc, shift_right by (rewrite length_app; simpl; lia).
    rewrite length_app, length_fmap. simpl. rewrite Nat.add_sub.
    rewrite take_app_le, !take_ge by (rewrite ?length_fmap; lia).
    csimpl. by rewrite omap_id_Some.
  - rewrite shift_right by (rewrite length_fmap; lia).
    rewrite fmap_last, length_fmap, <- fmap_take. csimpl.
    rewrite omap_id_Some. replace (length l) with max by lia.
    destruct (last l) eqn:El; [done|]. apply last_None in El. subst l. simpl in *. lia.
Qed.

Lemma deleteNode_notin l n : Node_ID n ∉ map Node_ID l -> deleteNode l n = l.
Proof.
  induction l as [|x l IH]; simpl; [done|]. rewrite not_elem_of_cons. intros [Hne Hl].
  rewrite decide_False by congruence. by rewrite IH.
Qed.

Lemma deleteNode_split l1 x l2 n :
  Node_ID x = Node_ID n -> Node_ID n ∉ map Node_ID l1 ->
  deleteNode (l1 ++ x :: l2) n = l1 ++ l2.
Proof.
  intros Hx. induction l1 as [|y l1 IH]; simpl; [by rewrite decide_True|].
  rewrite not_elem_of_cons. intros [Hne Hl]. rewrite decide_False by congruence.
  by rewrite IH.
Qed.

(** ** The invariant of a bucket *)

Variable Self : enode.
Variables (tl bl : Z) (tf bf : IP -> netkey).

Definition nodes_of (b : bucket) : list Node := entries b ++ replacements b.

(** [n] belongs to bucket [i]: it is not the local node and its distance
    selects the bucket. *)
Definition belongs (i : nat) (n : Node) : Prop :=
  Node_ID n <> enode_ID Self /\ bucket_of Self (Node_ID n) = Ok i.

Record shape (i : nat) (b : bucket) : Prop := {
  sh_entries : (length (entries b) <= bucketSize)%nat;
  sh_repl : (length (replacements b) <= maxReplacements)%nat;
  sh_full : replacements b = [] \/ length (entries b) = bucketSize;
  sh_nodup : NoDup (map Node_ID (nodes_of b));
  sh_belongs : Forall (belongs i) (nodes_of b);
  sh_ip : Forall (fun n => Node_IP n <> []) (nodes_of b) }.

(** The bucket is well-formed and both IP sets are exact, where [R] are the
    nodes of the other buckets. *)
Definition binv (i : nat) (R : list Node) (s : NetSet) (b : bucket) : Prop :=
  shape i b /\ tracked tl bl tf bf s b (nodes_of b ++ R) (nodes_of b).

Lemma tracked_perm s b b' L L' B B' :
  bips b = bips b' -> Permutation L L' -> Permutation B B' ->
  tracked tl bl tf bf s b L B -> tracked tl bl tf bf s b' L' B'.
Proof. unfold tracked. intros <- HL HB [H1 H2]. by rewrite HL in H1; rewrite HB in H2. Qed.

Lemma binv_lists i R s b s' b' :
  binv i R s b -> same_lists b b' ->
  tracked tl bl tf bf s' b' (nodes_of b ++ R) (nodes_of b) -> binv i R s' b'.
Proof.
  intros [[] _] [He Hr] Ht. unfold binv, nodes_of in *.
  split; [constructor|]; unfold nodes_of; rewrite ?He, ?Hr; done.
Qed.

Lemma nodup_snoc_perm (l : list Node) n l' :
  Permutation l' (n :: l) -> NoDup (map Node_ID l) -> Node_ID n ∉ map Node_ID l ->
  NoDup (map Node_ID l').
Proof. intros Hp Hn Hin. rewrite Hp. simpl. by constructor. Qed.

(** ** [addReplacement] *)

(** The bucket of a full list of entries after [n] was prepended to the
    replacements: with room, and when the last of them, [r], goes. *)

Lemma prepended_perm b n : Permutation (n :: nodes_of b) (entries b ++ n :: replacements b).
Proof. unfold nodes_of. by rewrite Permutation_middle. Qed.

Lemma replacement_room_inv i R s s1 b b1 n :
  binv i R s b -> length (entries b) = bucketSize -> NoDup (map Node_ID (n :: nodes_of b)) -> belongs i n ->
  Node_IP n <> [] -> entries b1 = entries b -> (length (replacements b) < maxReplacements)%nat ->
  tracked tl bl tf bf s1 b1 (n :: nodes_of b ++ R) (n :: nodes_of b) ->
  binv i R s1 (set_replacements b1 (n :: replacements b)).
Proof.
  intros [[He Hr Hf Hnd Hb Hip] Ht] Hfull Hnd1 Hbel Hne Hse Hroom Ht1.
  pose proof (prepended_perm b n) as Hp1.
  split; [constructor; unfold nodes_of; simpl; rewrite ?Hse|].
  - exact He.
  - exact Hroom.
  - by right.
  - by rewrite <- Hp1.
  - rewrite <- Hp1. by constructor.
  - rewrite <- Hp1. by constructor.
  - eapply tracked_perm, Ht1; unfold nodes_of; simpl; rewrite ?Hse; [done| |done].
    rewrite app_comm_cons. by rewrite Hp1.
Qed.

Lemma replacement_drop_inv i R s s1 b b1 n l0 r :
  binv i R s b -> length (entries b) = bucketSize -> NoDup (map Node_ID (n :: nodes_of b)) -> belongs i n ->
  Node_IP n <> [] -> entries b1 = entries b -> replacements b = l0 ++ [r] -> length l0 = 9%nat ->
  tracked tl bl tf bf s1 b1 (n :: nodes_of b ++ R) (n :: nodes_of b) ->
  let '(s3, b3) := removeIP s1 (set_replacements b1 (n :: l0)) (Node_IP r) in
  binv i R s3 b3 /\ entries b3 = entries b.
Proof.
  intros [[He Hr Hf Hnd Hb Hip] Ht] Hfull Hnd1 Hbel Hne Hse Hl0 Hlen Ht1.
  set (b2 := set_replacements b1 (n :: l0)).
  assert (Permutation (n :: nodes_of b) (r :: nodes_of b2)) as Hp2.
  { rewrite prepended_perm, Hl0. unfold nodes_of, b2. simpl. rewrite Hse, <- (Permutation_cons_append l0 r).
    by rewrite (perm_swap r n l0), <- Permutation_middle. }
  assert (tracked tl bl tf bf s1 b2 (r :: nodes_of b2 ++ R) (r :: nodes_of b2)) as Ht2.
  { eapply tracked_perm, Ht1; [done| |done]. rewrite app_comm_cons, Hp2. done. }
  pose proof (removeIP_spec tl bl tf bf _ _ _ _ _ Ht2) as Hrem.
  destruct (removeIP s1 b2 (Node_IP r)) as [s3 b3]. destruct Hrem as [[He3 Hr3] Ht3].
  split; [|by rewrite He3].
  assert (nodes_of b3 = nodes_of b2) as Hn3 by (unfold nodes_of; congruence).
  rewrite Hp2 in Hnd1. apply NoDup_cons in Hnd1 as [_ Hnd1].
  assert (Forall (belongs i) (r :: nodes_of b2)) as Hb2 by (rewrite <- Hp2; by constructor).
  assert (Forall (fun n => Node_IP n <> []) (r :: nodes_of b2)) as Hi2
    by (rewrite <- Hp2; by constructor).
  split; [|by rewrite Hn3].
  constructor; rewrite ?Hn3, ?He3, ?Hr3; simpl; rewrite ?Hse, ?Hlen; [done|done|by right|done| |].
  - by inversion Hb2.
  - by inversion Hi2.
Qed.

Lemma addReplacement_inv i R s b n :
  binv i R s b -> length (entries b) = bucketSize ->
  Node_ID n ∉ map Node_ID (entries b) -> belongs i n ->
  exists s' b', addReplacement s b n = Ok (s', b') /\ binv i R s' b' /\ entries b' = entries b.
Proof.
  intros Hinv Hfull Hnot Hbel. pose proof Hinv as [[He Hr Hf Hnd Hb Hip] Ht].
  unfold addReplacement. destruct (contains (replacements b) (Node_ID n)) eqn:Hc; [by eauto|].
  apply contains_false in Hc.
  pose proof (addIP_spec tl bl tf bf s b n _ _ Ht) as Hadd.
  destruct (addIP s b (Node_IP n)) as [[s1 b1] ok]. destruct Hadd as [Hsame Hadd].
  destruct ok; simpl; [|exists s1, b1; split; [done|]; split; [by eapply binv_lists|apply Hsame]].
  destruct Hadd as [Hne Ht1]. destruct Hsame as [Hse Hsr].
  rewrite Hsr, pushNode_spec by (unfold maxReplacements in *; lia).
  assert (NoDup (map Node_ID (n :: nodes_of b))) as Hnd1.
  { simpl. constructor; [|done]. unfold nodes_of. rewrite map_app, elem_of_app. tauto. }
  simpl. destruct (decide (length (replacements b) < maxReplacements)%nat) as [Hroom|Hno].
  - eexists s1, _. split; [done|]. split; [|done].
    rewrite (take_ge (replacements b)) by (unfold maxReplacements in Hroom; lia).
    by eapply replacement_room_inv.
  - assert (exists l0 r, replacements b = l0 ++ [r]) as (l0 & r & Hl0).
    { destruct (replacements b) as [|r l0] using rev_ind; [|by eauto].
      simpl in Hno. unfold maxReplacements in Hno. lia. }
    rewrite Hl0, last_snoc. simpl.
    assert (length l0 = 9%nat) as Hlen
      by (rewrite Hl0, length_app in Hr, Hno; simpl in *; unfold maxReplacements in *; lia).
    rewrite take_app_le, take_ge by lia.
    pose proof (replacement_drop_inv i R s s1 b b1 n l0 r Hinv Hfull Hnd1 Hbel Hne Hse Hl0 Hlen Ht1) as Hd.
    destruct (removeIP s1 (set_replacements b1 (n :: l0)) (Node_IP r)) as [s3 b3]. eauto.
Qed.

(** ** A new entry, at either end *)

Lemma add_entry_inv i R s b n s1 b1 es :
  binv i R s b -> (length (entries b) < bucketSize)%nat ->
  Node_ID n ∉ map Node_ID (entries b) -> belongs i n ->
  addIP s b (Node_IP n) = (s1, b1, true) -> Permutation es (n :: entries b) ->
  replacements b = [] /\ binv i R s1 (set_replacements (set_entries b1 es) []).
Proof.
  intros [[He Hr Hf Hnd Hb Hip] Ht] Hroom Hnot Hbel Hadd Hes.
  pose proof (addIP_spec tl bl tf bf s b n _ _ Ht) as H. rewrite Hadd in H.
  destruct H as [_ [Hne Ht1]].
  assert (replacements b = []) as Hr0 by (destruct Hf; [done|lia]).
  unfold nodes_of in *. rewrite Hr0, app_nil_r in *. split; [done|].
  split; [constructor|]; unfold nodes_of; simpl; rewrite ?app_nil_r, ?Hes; simpl.
  - lia.
  - unfold maxReplacements. lia.
  - by left.
  - by constructor.
  - by constructor.
  - by constructor.
  - eapply tracked_perm, Ht1; rewrite ?Hes; done.
Qed.

Lemma addIP_fail_inv i R s b n s1 b1 :
  binv i R s b -> addIP s b (Node_IP n) = (s1, b1, false) -> binv i R s1 b1 /\ same_lists b b1.
Proof.
  intros Hinv Hadd. pose proof Hinv as [_ Ht].
  pose proof (addIP_spec tl bl tf bf s b n _ _ Ht) as H. rewrite Hadd in H.
  destruct H as [Hs Ht1]. split; [by eapply binv_lists|done].
Qed.

(** ** [bumpInBucket] *)

(** The entries after a successful bump: the node replaces the entry with its
    identity and moves to the front, the others keep their order. *)
Definition bumped (es : list Node) (n : Node) (es' : list Node) : Prop :=
  exists l1 e l2, es = l1 ++ e :: l2 /\ Node_ID e = Node_ID n /\ es' = n :: l1 ++ l2.

Lemma bump_entries_inv i R s b n e l1 l2 s' b' :
  binv i R s b -> entries b = l1 ++ e :: l2 -> Node_ID e = Node_ID n -> Node_IP n <> [] ->
  entries b' = n :: l1 ++ l2 -> replacements b' = replacements b ->
  tracked tl bl tf bf s' b' (n :: (l1 ++ l2 ++ replacements b) ++ R)
    (n :: l1 ++ l2 ++ replacements b) ->
  binv i R s' b'.
Proof.
  intros [[He Hr Hf Hnd Hb Hip] _] Hsplit Hid Hne He' Hr' Ht'.
  assert (nodes_of b' = n :: l1 ++ l2 ++ replacements b) as Hn'
    by (unfold nodes_of; rewrite He', Hr'; simpl; by rewrite app_assoc).
  assert (Permutation (nodes_of b) (e :: l1 ++ l2 ++ replacements b)) as Hp
    by (unfold nodes_of; rewrite Hsplit, <- app_assoc; simpl; by rewrite <- Permutation_middle).
  assert (length (entries b') = length (entries b)) as Hlen
    by (rewrite He', Hsplit; simpl; rewrite !length_app; simpl; lia).
  rewrite Hp in Hnd, Hb, Hip. simpl in Hnd. rewrite Hid in Hnd.
  inversion Hb as [|? ? He1 Hb1]; subst. inversion Hip as [|? ? Hi1 Hip1]; subst.
  split; [constructor|]; rewrite ?Hn', ?Hr', ?Hlen; try done.
  - constructor; [|done]. unfold belongs in *. by rewrite Hid in He1.
  - by constructor.
Qed.

Lemma bumpInBucket_inv i R s b n :
  binv i R s b ->
  let '(s', b', r) := bumpInBucket s b n in
  binv i R s' b' /\ replacements b' = replacements b /\
  (if (r : bool) then bumped (entries b) n (entries b') else entries b' = entries b).
Proof.
  intros Hinv. unfold bumpInBucket.
  destruct (list_find _ (entries b)) as [[k e]|] eqn:Hfind; [|done].
  apply list_find_Some in Hfind as (Hk & Hid & _).
  pose proof (lookup_lt_Some _ _ _ Hk) as Hlt.
  assert (exists l1 l2, entries b = l1 ++ e :: l2 /\ forall b1, entries b1 = entries b ->
    <[0%nat := n]> (copy_at 1 (entries b1) (take k (entries b1))) = n :: l1 ++ l2)
    as (l1 & l2 & Hsplit & Hmove).
  { exists (take k (entries b)), (drop (S k) (entries b)). split; [by rewrite take_drop_middle|].
    intros b1 Hb1. rewrite Hb1. by apply move_front. }
  pose proof Hinv as [[He Hr Hf Hnd Hb Hip] Ht].
  assert (Permutation (nodes_of b) (e :: l1 ++ l2 ++ replacements b)) as Hp
    by (unfold nodes_of; rewrite Hsplit, <- app_assoc; simpl; by rewrite <- Permutation_middle).
  assert (Node_IP e <> []) as Hie by (rewrite Hp in Hip; by inversion Hip).
  assert (tracked tl bl tf bf s b (e :: (l1 ++ l2 ++ replacements b) ++ R)
            (e :: l1 ++ l2 ++ replacements b)) as Ht0
    by (eapply tracked_perm, Ht; rewrite ?Hp; done).
  destruct (IP_Equal (Node_IP n) (Node_IP e)) eqn:Heq.
  - rewrite IP_Equal_sym in Heq. split_and!; simpl; [|done|].
    + eapply bump_entries_inv; [done..| |simpl; by apply Hmove|done|].
      { intros Hn. rewrite Hn, IP_Equal_sym in Heq. by apply IP_Equal_nil in Heq. }
      destruct Ht0 as [HL0 HB0]. split; by eapply exact_same_ip.
    + exists l1, e, l2. split_and!; [done..|]. by apply Hmove.
  - pose proof (removeIP_spec tl bl tf bf _ _ _ _ _ Ht0) as Hrem.
    destruct (removeIP s b (Node_IP e)) as [s1 b1]. destruct Hrem as [[Hs1 Hr1] Ht1].
    pose proof (addIP_spec tl bl tf bf _ _ n _ _ Ht1) as Hadd.
    destruct (addIP s1 b1 (Node_IP n)) as [[s2 b2] ok]. destruct Hadd as [[Hs2 Hr2] Hadd].
    destruct ok; simpl.
    + destruct Hadd as [Hne Ht2]. split_and!; [|congruence|].
      * eapply bump_entries_inv; [done..|simpl; apply Hmove; congruence|simpl; congruence|].
        by eapply tracked_perm, Ht2.
      * exists l1, e, l2. split_and!; [done..|]. apply Hmove. congruence.
    + pose proof (addIP_back tl bl tf bf _ _ _ _ _ _ _ Ht0 Hadd Hie) as Hback.
      pose proof (addIP_spec tl bl tf bf _ _ e _ _ Hadd) as Hadd3.
      destruct (addIP s2 b2 (Node_IP e)) as [[s3 b3] ok]. simpl in Hback. subst ok.
      destruct Hadd3 as [[Hs3 Hr3] [_ Ht3]].
      split_and!; [|congruence|congruence].
      eapply binv_lists; [done|split; congruence|].
      eapply tracked_perm, Ht3; rewrite ?Hp; done.
Qed.

(** ** [replace] *)

(** What [replace] does to the two lists: nothing when the node is no longer
    the last entry; else the last entry goes, and a replacement takes its
    place when there is one. *)
Inductive replaced (b : bucket) (last_ : Node) (b' : bucket) : option Node -> Prop :=
| replaced_moved :
    (forall e, last (entries b) = Some e -> Node_ID e <> Node_ID last_) ->
    same_lists b b' -> replaced b last_ b' None
| replaced_removed es e :
    entries b = es ++ [e] -> Node_ID e = Node_ID last_ -> replacements b = [] ->
    entries b' = es -> replacements b' = [] -> replaced b last_ b' None
| replaced_by es e r :
    entries b = es ++ [e] -> Node_ID e = Node_ID last_ ->
    Permutation (replacements b) (r :: replacements b') ->
    entries b' = es ++ [r] -> replaced b last_ b' (Some r).

Lemma last_Some_split {A} (l : list A) x : last l = Some x -> exists l', l = l' ++ [x].
Proof. rewrite last_Some. done. Qed.

Lemma replace_shrink_inv i R s b es e s' b' :
  binv i R s b -> entries b = es ++ [e] -> replacements b = [] ->
  entries b' = es -> replacements b' = [] ->
  tracked tl bl tf bf s' b' (es ++ R) es -> binv i R s' b'.
Proof.
  intros [[He Hr Hf Hnd Hb Hip] _] Hes Hr0 He' Hr' Ht. unfold nodes_of in *.
  rewrite Hes, Hr0, app_nil_r in *. rewrite length_app in He.
  rewrite map_app in Hnd. apply NoDup_app in Hnd as [Hnd _].
  apply Forall_app in Hb as [Hb _]. apply Forall_app in Hip as [Hip _].
  split; [constructor|]; unfold nodes_of; rewrite ?He', ?Hr', ?app_nil_r; try done.
  - lia.
  - by left.
Qed.

Lemma replace_swap_inv i R s b es e r rs s' b' :
  binv i R s b -> entries b = es ++ [e] -> Permutation (replacements b) (r :: rs) ->
  entries b' = es ++ [r] -> replacements b' = rs ->
  tracked tl bl tf bf s' b' ((r :: es ++ rs) ++ R) (r :: es ++ rs) -> binv i R s' b'.
Proof.
  intros [[He Hr Hf Hnd Hb Hip] _] Hes Hrs He' Hr' Ht.
  assert (Permutation (nodes_of b) (e :: nodes_of b')) as Hp.
  { unfold nodes_of. rewrite Hes, He', Hr', Hrs, <- !app_assoc. simpl.
    by rewrite <- !Permutation_middle. }
  assert (Permutation (nodes_of b') (r :: es ++ rs)) as Hp'.
  { unfold nodes_of. rewrite He', Hr', <- app_assoc. simpl. by rewrite <- Permutation_middle. }
  rewrite Hp in Hnd, Hb, Hip. apply NoDup_cons in Hnd as [_ Hnd].
  apply Forall_cons in Hb as [_ Hb]. apply Forall_cons in Hip as [_ Hip].
  rewrite Hrs in Hr. simpl in Hr. rewrite Hes, length_app in He, Hf.
  split; [constructor|]; rewrite ?He', ?Hr', ?length_app; try done.
  - unfold maxReplacements in *. lia.
  - destruct Hf as [Hf|Hf]; [|by right]. rewrite Hf in Hrs.
    apply Permutation_nil_l in Hrs. done.
  - eapply tracked_perm, Ht; rewrite ?Hp'; done.
Qed.

(** The last entry [e] makes way for the replacement [r], or goes. *)

Lemma replace_by_inv i R s b last_ e es r :
  binv i R s b -> entries b = es ++ [e] -> Node_ID e = Node_ID last_ -> r ∈ replacements b ->
  let '(s1, b1) := removeIP s (set_entries (set_replacements b (deleteNode (replacements b) r)) (es ++ [r])) (Node_IP e) in
  binv i R s1 b1 /\ replaced b last_ b1 (Some r).
Proof.
  intros Hinv Hes Hid Hin. pose proof Hinv as [[He Hr Hf Hnd Hb Hip] Ht].
  destruct (list_elem_of_split _ _ Hin) as (r1 & r2 & Hrs).
  assert (Node_ID r ∉ map Node_ID r1) as Hnotin.
  { unfold nodes_of in Hnd. rewrite Hrs, !map_app in Hnd.
    apply NoDup_app in Hnd as (_ & _ & Hnd). apply NoDup_app in Hnd as (_ & Hd & _).
    intros Hr1. apply (Hd _ Hr1). simpl. by left. }
  assert (deleteNode (replacements b) r = r1 ++ r2) as Hdel
    by (rewrite Hrs; by apply deleteNode_split).
  assert (Permutation (replacements b) (r :: r1 ++ r2)) as Hperm
    by (by rewrite Hrs, <- Permutation_middle).
  rewrite Hdel. set (b2 := set_entries _ _).
  assert (tracked tl bl tf bf s b2 (e :: (r :: es ++ r1 ++ r2) ++ R)
    (e :: r :: es ++ r1 ++ r2)) as Ht0.
  { assert (Permutation (nodes_of b) (e :: r :: es ++ r1 ++ r2)) as Hp.
    { unfold nodes_of. rewrite Hes, Hperm, <- app_assoc. simpl.
      by rewrite <- !Permutation_middle. }
    eapply tracked_perm, Ht; [done| |done]. by rewrite Hp. }
  pose proof (removeIP_spec tl bl tf bf _ _ _ _ _ Ht0) as Hrem.
  destruct (removeIP s b2 (Node_IP e)) as [s1 b1].
  destruct Hrem as [[He1 Hr1] Ht1]. simpl in He1, Hr1.
  split; [by eapply replace_swap_inv|].
  eapply replaced_by; [done..| |done]. by rewrite Hr1.
Qed.

Lemma replace_remove_inv i R s b last_ e es :
  binv i R s b -> entries b = es ++ [e] -> Node_ID e = Node_ID last_ -> replacements b = [] ->
  Node_IP e = Node_IP last_ ->
  let '(s1, b1) := deleteInBucket s b last_ in binv i R s1 b1 /\ replaced b last_ b1 None.
Proof.
  intros Hinv Hes Hid Hr0 Hipe. pose proof Hinv as [[He Hr Hf Hnd Hb Hip] Ht].
  assert (Node_ID last_ ∉ map Node_ID es) as Hnotin.
  { unfold nodes_of in Hnd. rewrite Hes, Hr0, app_nil_r, map_app in Hnd.
    apply NoDup_app in Hnd as (_ & Hd & _). rewrite <- Hid. intros Hin. apply (Hd _ Hin).
    simpl. by left. }
  assert (deleteNode (entries b) last_ = es) as Hdel
    by (rewrite Hes, deleteNode_split, app_nil_r; done).
  unfold deleteInBucket. rewrite Hdel, <- Hipe.
  assert (tracked tl bl tf bf s (set_entries b es) (e :: es ++ R) (e :: es)) as Ht0.
  { eapply tracked_perm, Ht; [done| |]; unfold nodes_of; rewrite Hes, Hr0, app_nil_r;
      rewrite <- Permutation_cons_append; done. }
  pose proof (removeIP_spec tl bl tf bf _ _ _ _ _ Ht0) as Hrem.
  destruct (removeIP s (set_entries b es) (Node_IP e)) as [s1 b1].
  destruct Hrem as [[He1 Hr1] Ht1]. simpl in He1, Hr1.
  split; [|eapply replaced_removed; eauto; congruence].
  eapply replace_shrink_inv; eauto; congruence.
Qed.

Lemma replace_inv i R s b last_ rnd :
  binv i R s b ->
  (forall e, e ∈ entries b -> Node_ID e = Node_ID last_ -> Node_IP e = Node_IP last_) ->
  let '(s', b', r) := replace s b last_ rnd in
  binv i R s' b' /\ replaced b last_ b' r.
Proof.
  intros Hinv Hsame. unfold replace.
  destruct (last (entries b)) as [e|] eqn:Hlast.
  2: { split; [done|]. apply replaced_moved; [by rewrite Hlast|done]. }
  destruct (decide (Node_ID e <> Node_ID last_)) as [Hne|Hid].
  { split; [done|]. apply replaced_moved; [|done]. rewrite Hlast. intros; congruence. }
  apply dec_stable in Hid. apply last_Some_split in Hlast as [es Hes].
  assert (Node_IP e = Node_IP last_) as Hipe
    by (apply Hsame; [rewrite Hes; apply elem_of_snoc|done]).
  destruct (replacements b !! _) as [r|] eqn:Hlk.
  - apply list_elem_of_lookup_2 in Hlk as Hin. rewrite <- Hipe. simpl.
    assert (<[pred (length (entries b)) := r]> (entries b) = es ++ [r]) as ->.
    { rewrite Hes, length_app, Nat.add_comm. simpl.
      replace (length es) with (length es + 0)%nat by lia. by rewrite insert_app_r. }
    pose proof (replace_by_inv i R s b last_ e es r Hinv Hes Hid Hin) as H. by destruct (removeIP _ _ _).
  - assert (replacements b = []) as Hr0.
    { destruct (replacements b) as [|x l]; [done|]. exfalso.
      apply lookup_ge_None in Hlk. pose proof (Nat.mod_upper_bound rnd (length (x :: l))).
      simpl length in *. lia. }
    pose proof (replace_remove_inv i R s b last_ e es Hinv Hes Hid Hr0 Hipe) as H.
    by destruct (deleteInBucket s b last_).
Qed.

End Bucket.
