(* ===== verification/TableOps.v ===== *)
(** * The table's methods preserve its invariant

    The invariant of the whole table, the methods' effect on it, and the
    transition system of the running table: nodes seen, seeds loaded, live
    nodes copied and one revalidation at a time, whose network exchange
    happens while the mutex is free. *)

From stdpp Require Import base list gmap relations.
From Stdlib Require Import ZArith Lia Permutation.
From S2P Require Import Prelude Golang External Nodes NodesFacts Table TableInv TableBucket.
Open Scope Z_scope.

Section Ops.
Context `{EL : EnodeLaws} `{NL : NetUtilLaws} `{D : NodeDB (E := E)}.
Variable Self : enode.
Variables (tl bl : Z) (tf bf : IP -> netkey).

Abbreviation shape := (shape Self).
Abbreviation binv := (binv Self tl bl tf bf).

Definition all_nodes (t : Table) : list Node := concat (map nodes_of (buckets t)).

Record tinv (t : Table) : Prop := {
  ti_len : length (buckets t) = Z.to_nat nBuckets;
  ti_shape : forall i b, buckets t !! i = Some b -> shape i b;
  ti_bips : forall i b, buckets t !! i = Some b -> exact bl bf (bips b) (nodes_of b);
  ti_tips : exact tl tf (tips t) (all_nodes t) }.

(** The nodes outside bucket [i]. *)
Definition others (t : Table) (i : nat) : list Node :=
  concat (map nodes_of (delete i (buckets t))).

Lemma concat_delete {A} (ls : list (list A)) i l :
  ls !! i = Some l -> Permutation (concat ls) (l ++ concat (delete i ls)).
Proof.
  revert i. induction ls as [|x ls IH]; intros [|i] Hi; simplify_eq/=; [done|].
  rewrite (IH _ Hi), !app_assoc, (Permutation_app_comm l). done.
Qed.

Lemma delete_insert_same {A} (l : list A) i x : delete i (<[i := x]> l) = delete i l.
Proof. revert i. induction l as [|y l IH]; intros [|i]; simpl; [done..|]. f_equal. apply IH. Qed.

Lemma all_nodes_split t i b :
  buckets t !! i = Some b -> Permutation (all_nodes t) (nodes_of b ++ others t i).
Proof.
  intros Hi. unfold all_nodes, others. change (map nodes_of) with (fmap (M:=list) nodes_of).
  rewrite list_fmap_delete. apply concat_delete. by rewrite list_lookup_fmap, Hi.
Qed.

Lemma tinv_binv t i b : tinv t -> buckets t !! i = Some b -> binv i (others t i) (tips t) b.
Proof.
  intros [_ Hs Hb Ht] Hi. split; [by apply Hs|]. split; [|by apply (Hb i)].
  by rewrite <- (all_nodes_split _ _ _ Hi).
Qed.

Lemma others_put t i s b : others (put t i s b) i = others t i.
Proof. unfold others, put. simpl. by rewrite delete_insert_same. Qed.

Lemma put_inv t i s b b' :
  tinv t -> buckets t !! i = Some b -> binv i (others t i) s b' -> tinv (put t i s b').
Proof.
  intros Hinv Hi [Hs [Ht Hb]]. pose proof (lookup_lt_Some _ _ _ Hi) as Hlt.
  assert (buckets (put t i s b') !! i = Some b') as Hi'
    by (unfold put; simpl; by apply list_lookup_insert_eq).
  destruct Hinv as [Hlen Hsh Hbi Hti].
  assert (forall j c, buckets (put t i s b') !! j = Some c ->
    (j = i /\ c = b') \/ buckets t !! j = Some c) as Hput.
  { unfold put. simpl. intros j c. rewrite list_lookup_insert.
    case_decide as Hd; [destruct Hd as [-> _]; naive_solver|by right]. }
  constructor.
  - unfold put. simpl. by rewrite length_insert.
  - intros j c Hj. apply Hput in Hj as [[-> ->]|Hj]; eauto.
  - intros j c Hj. apply Hput in Hj as [[-> ->]|Hj]; eauto.
  - rewrite (all_nodes_split _ _ _ Hi'), others_put. done.
Qed.

(** The invariant is about the buckets and the address set only. *)
Lemma tinv_ext t t' : buckets t' = buckets t -> tips t' = tips t -> tinv t -> tinv t'.
Proof. intros Hb Ht []. constructor; unfold all_nodes in *; rewrite ?Hb, ?Ht; done. Qed.

Lemma hookNode_fields t n ty :
  buckets (hookNode t n ty) = buckets t /\ tips (hookNode t n ty) = tips t /\
  hp (hookNode t n ty) = hp t /\ nursery (hookNode t n ty) = nursery t /\
  nodedHook (hookNode t n ty) = nodedHook t /\
  hooks (hookNode t n ty) = hooks t ++ (if nodedHook t then [(n, ty)] else []).
Proof. unfold hookNode. destruct (nodedHook t) eqn:H; by rewrite ?H, ?app_nil_r. Qed.

Lemma hookNode_inv t n ty : tinv t -> tinv (hookNode t n ty).
Proof. apply tinv_ext; apply hookNode_fields. Qed.

(** ** Buckets *)

(** The distance of two identities always selects a bucket. *)
Lemma bucket_of_total id : exists i, bucket_of Self id = Ok i /\ (i < Z.to_nat nBuckets)%nat.
Proof.
  unfold bucket_of, bucketAtDistance. pose proof (LogDist_bounds (enode_ID Self) id) as Hd.
  change bucketMinDistance with 239. change nBuckets with 17.
  case_decide; [exists 0%nat; split; [done|lia]|].
  rewrite decide_True by lia. eexists. split; [done|]. lia.
Qed.

Lemma tinv_bucket t id :
  tinv t -> exists i b, bucket_of Self id = Ok i /\ buckets t !! i = Some b /\ get_bucket t i = Ok b.
Proof.
  intros Hinv. destruct (bucket_of_total id) as (i & Hi & Hlt).
  rewrite <- (ti_len _ Hinv) in Hlt. apply lookup_lt_is_Some_2 in Hlt as [b Hb].
  exists i, b. unfold get_bucket. by rewrite Hb.
Qed.

(** ** [AddSeenNode] *)

(** The effect of [AddSeenNode] on the bucket of the node. *)
Inductive seen_effect (n : Node) (b b' : bucket) : bool -> Prop :=
| seen_known : Node_ID n ∈ map Node_ID (entries b) -> b' = b -> seen_effect n b b' false
| seen_full : length (entries b) = bucketSize -> entries b' = entries b ->
    Node_ID n ∉ map Node_ID (entries b) -> seen_effect n b b' false
| seen_refused : (length (entries b) < bucketSize)%nat -> same_lists b b' ->
    Node_ID n ∉ map Node_ID (entries b) -> seen_effect n b b' false
| seen_added : (length (entries b) < bucketSize)%nat ->
    Node_ID n ∉ map Node_ID (entries b) ->
    entries b' = entries b ++ [n] -> replacements b' = replacements b ->
    seen_effect n b b' true.

(** What [AddSeenNode] does to the table once it holds the mutex. *)
Definition seen_result (now : Z) (n : Node) (i : nat) (b : bucket) (t t' : Table) : Prop :=
  exists b' added, tinv t' /\ buckets t' = <[i := b']> (buckets t) /\
    seen_effect n b b' added /\ nursery t' = nursery t /\
    hp t' = (if added : bool then SetTimestamp (hp t) n now else hp t) /\
    hooks t' = hooks t ++ (if added && nodedHook t then [(n, Added)] else []).

Lemma seen_unchanged now n i b t s b' :
  tinv t -> buckets t !! i = Some b -> binv i (others t i) s b' -> seen_effect n b b' false ->
  seen_result now n i b t (put t i s b').
Proof.
  intros Hinv Hb Hbi Heff. exists b', false. split_and!; try done; [|simpl; by rewrite app_nil_r].
  by eapply put_inv.
Qed.

Lemma seen_append now n i b t s1 b1 :
  tinv t -> buckets t !! i = Some b -> (length (entries b) < bucketSize)%nat ->
  Node_ID n ∉ map Node_ID (entries b) -> belongs Self i n ->
  addIP (tips t) b (Node_IP n) = (s1, b1, true) ->
  let b2 := set_entries b1 (entries b1 ++ [n]) in
  let t1 := put t i s1 (set_replacements b2 (deleteNode (replacements b2) n)) in
  seen_result now n i b t (hookNode (set_hp t1 (SetTimestamp (hp t1) n now)) n Added).
Proof.
  intros Hinv Hb Hroom Hc Hbn Hadd b2 t1. pose proof (tinv_binv _ _ _ Hinv Hb) as Hbi.
  pose proof (addIP_spec tl bl tf bf _ b n _ _ (proj2 Hbi)) as Ha.
  rewrite Hadd in Ha. destruct Ha as [[He1 Hr1] _].
  destruct (add_entry_inv Self tl bl tf bf _ _ _ _ _ _ _ (entries b1 ++ [n]) Hbi Hroom Hc Hbn Hadd)
    as [Hr0 Hbi']; [by rewrite <- Permutation_cons_append, He1|].
  assert (deleteNode (replacements b2) n = []) as Hdel by (simpl; by rewrite Hr1, Hr0).
  unfold t1. rewrite Hdel. set (b3 := set_replacements b2 []).
  destruct (hookNode_fields (set_hp (put t i s1 b3) (SetTimestamp (hp t) n now)) n Added)
    as (Hfb & Hft & Hfh & Hfn & _ & Hfk).
  exists b3, true. split_and!; try done.
  - apply hookNode_inv. eapply tinv_ext; [| |by eapply put_inv]; done.
  - apply seen_added; try done; simpl; congruence.
Qed.

Lemma AddSeenNode_locked now t n i b :
  tinv t -> buckets t !! i = Some b -> belongs Self i n ->
  exists t', seen_result now n i b t t' /\
    (if contains (entries b) (Node_ID n) then Ok t
     else if decide (bucketSize <= length (entries b))%nat then
       '(s, b1) ← addReplacement (tips t) b n; Ok (put t i s b1)
     else
       let '(s, b1, ok) := addIP (tips t) b (Node_IP n) in
       if negb ok then Ok (put t i s b1)
       else
         let b2 := set_entries b1 (entries b1 ++ [n]) in
         let b3 := set_replacements b2 (deleteNode (replacements b2) n) in
         let t1 := put t i s b3 in
         Ok (hookNode (set_hp t1 (SetTimestamp (hp t1) n now)) n Added)) = Ok t'.
Proof.
  intros Hinv Hb Hbn. pose proof (tinv_binv _ _ _ Hinv Hb) as Hbi.
  pose proof (ti_shape _ Hinv _ _ Hb) as [He _ _ _ _ _].
  destruct (contains (entries b) (Node_ID n)) eqn:Hc.
  { apply contains_true in Hc. exists t. split; [|done].
    exists b, false. rewrite list_insert_id, app_nil_r by done.
    split_and!; try done. by apply seen_known. }
  apply contains_false in Hc. case_decide as Hfull.
  - assert (length (entries b) = bucketSize) as Hfull' by lia.
    destruct (addReplacement_inv Self tl bl tf bf i _ _ b n Hbi Hfull' Hc Hbn)
      as (s' & b' & -> & Hbi' & He').
    exists (put t i s' b'). split; [|done]. apply seen_unchanged; try done. by apply seen_full.
  - apply Nat.nle_gt in Hfull.
    destruct (addIP (tips t) b (Node_IP n)) as [[s1 b1] [|]] eqn:Hadd; simpl.
    + eexists. split; [|done]. by apply seen_append.
    + destruct (addIP_fail_inv Self tl bl tf bf _ _ _ _ _ _ _ Hbi Hadd) as [Hbi' Hsame].
      exists (put t i s1 b1). split; [|done]. apply seen_unchanged; try done.
      by apply seen_refused.
Qed.

Lemma AddSeenNode_cases now t n :
  tinv t -> Node_ID n <> enode_ID Self ->
  exists i b t', bucket_of Self (Node_ID n) = Ok i /\ buckets t !! i = Some b /\
    AddSeenNode Self now t n = Ok t' /\ seen_result now n i b (hookNode t n Seen) t'.
Proof.
  intros Hinv Hself. destruct (tinv_bucket t (Node_ID n) Hinv) as (i & b & Hi & Hb & Hg).
  destruct (hookNode_fields t n Seen) as (Hfb & _).
  destruct (AddSeenNode_locked now (hookNode t n Seen) n i b) as (t' & Hr & Heq).
  - by apply hookNode_inv.
  - by rewrite Hfb.
  - done.
  - exists i, b, t'. split_and!; try done. unfold AddSeenNode. rewrite decide_False, Hi by done.
    simpl. unfold get_bucket in *. rewrite Hfb, Hb. simpl. exact Heq.
Qed.

(** No entry of the table is lost by [AddSeenNode]. *)
Definition keeps_entries (t t' : Table) : Prop :=
  forall i b, buckets t !! i = Some b ->
  exists b', buckets t' !! i = Some b' /\ entries b ⊆ entries b'.

Lemma keeps_refl t : keeps_entries t t.
Proof. intros i b Hb. by exists b. Qed.

Lemma keeps_trans t1 t2 t3 : keeps_entries t1 t2 -> keeps_entries t2 t3 -> keeps_entries t1 t3.
Proof.
  intros H1 H2 i b Hb. destruct (H1 _ _ Hb) as (b' & Hb' & Hs).
  destruct (H2 _ _ Hb') as (b'' & Hb'' & Hs'). exists b''. split; [done|]. set_solver.
Qed.

Lemma seen_effect_entries n b b' added :
  seen_effect n b b' added -> entries b' = entries b ++ (if added then [n] else []).
Proof. destruct 1; subst; rewrite ?app_nil_r; try done. by destruct H0. Qed.

Lemma AddSeenNode_inv now t n :
  tinv t -> exists t', AddSeenNode Self now t n = Ok t' /\ tinv t' /\ keeps_entries t t' /\
                  nursery t' = nursery t.
Proof.
  intros Hinv. destruct (decide (Node_ID n = enode_ID Self)) as [Hs|Hs].
  { exists t. unfold AddSeenNode. rewrite decide_True by done. eauto using keeps_refl. }
  destruct (AddSeenNode_cases now t n Hinv Hs) as (i & b & t' & Hi & Hb & Heq & Hres).
  destruct Hres as (b' & added & Hinv' & Hbs & Heff & Hn & _). exists t'.
  destruct (hookNode_fields t n Seen) as (Hfb & _ & _ & Hfn & _). rewrite Hfb in Hbs.
  split_and!; try done; [|congruence]. intros j c Hj. rewrite Hbs, list_lookup_insert.
  case_decide as Hd; [|by exists c].
  destruct Hd as [<- _]. simplify_eq. exists b'. split; [done|].
  rewrite (seen_effect_entries _ _ _ _ Heff). set_solver.
Qed.

Lemma AddSeenNodes_inv now ns t :
  tinv t -> exists t', AddSeenNodes Self now t ns = Ok t' /\ tinv t' /\ keeps_entries t t' /\
                  nursery t' = nursery t.
Proof.
  revert t. induction ns as [|n ns IH]; intros t Hinv; simpl; [eauto using keeps_refl|].
  destruct (AddSeenNode_inv now t n Hinv) as (t1 & -> & Hinv1 & Hk1 & Hn1). simpl.
  destruct (IH t1 Hinv1) as (t2 & -> & Hinv2 & Hk2 & Hn2).
  exists t2. split_and!; try done; [by eapply keeps_trans|congruence].
Qed.

Lemma loadSeedNodes_inv now qrnd t :
  tinv t -> exists t', loadSeedNodes Self now qrnd t = Ok t' /\ tinv t' /\ keeps_entries t t'.
Proof.
  intros Hinv. unfold loadSeedNodes.
  destruct (WrapNodes (hp t) _) as [h seeds].
  destruct (AddSeenNodes_inv now (seeds ++ nursery t) (set_hp t h)) as (t' & Heq & Hinv' & Hk & _).
  { by eapply tinv_ext; [| |exact Hinv]. }
  eauto.
Qed.

(** [copyLiveNodes] writes to the database only. *)
Lemma copyLiveNodes_fields now t :
  buckets (copyLiveNodes now t) = buckets t /\ tips (copyLiveNodes now t) = tips t /\
  hp (copyLiveNodes now t) = hp t.
Proof.
  unfold copyLiveNodes. generalize (all_entries t). intros l. revert t.
  induction l as [|n l IH]; intros t; simpl; [done|].
  case_decide; [|apply IH]. destruct (IH (set_db t (UpdateNode (db t) (Unwrap n)))) as (-> & -> & ->).
  done.
Qed.

(** ** [addVerifiedNode] *)

Lemma pushNode_entries i R s b n s1 b1 :
  binv i R s b -> (length (entries b) < bucketSize)%nat ->
  Node_ID n ∉ map Node_ID (entries b) -> belongs Self i n ->
  addIP s b (Node_IP n) = (s1, b1, true) ->
  exists r, pushNode (entries b1) n bucketSize = Ok (n :: entries b, r) /\
  let b2 := set_entries b1 (n :: entries b) in
  binv i R s1 (set_replacements b2 (deleteNode (replacements b2) n)).
Proof.
  intros Hbi Hroom Hc Hbn Hadd.
  pose proof (addIP_spec tl bl tf bf _ b n _ _ (proj2 Hbi)) as Ha.
  rewrite Hadd in Ha. destruct Ha as [[He1 Hr1] _].
  rewrite He1, pushNode_spec by (unfold bucketSize in *; lia).
  rewrite (take_ge (entries b)) by (unfold bucketSize in *; lia).
  eexists. split; [done|].
  destruct (add_entry_inv Self tl bl tf bf _ _ _ _ _ _ _ (n :: entries b) Hbi Hroom Hc Hbn Hadd)
    as [Hr0 Hbi']; [done|]. simpl. by rewrite Hr1, Hr0.
Qed.

(** A bump that fails although the identity is an entry leaves no room for
    the node's address. *)
Lemma bump_fail_full i R s b n s' b' :
  binv i R s b -> bumpInBucket s b n = (s', b', false) ->
  Node_ID n ∉ map Node_ID (entries b) \/ (addIP s' b' (Node_IP n)).2 = false.
Proof.
  intros Hbi. unfold bumpInBucket.
  destruct (list_find _ (entries b)) as [[k e]|] eqn:Hfind.
  2: { intros _. left. apply list_find_None in Hfind. intros Hin.
       apply list_elem_of_fmap in Hin as (x & Hx & Hin). rewrite Forall_forall in Hfind.
       by apply (Hfind x). }
  apply list_find_Some in Hfind as (Hk & Hid & _).
  destruct (IP_Equal (Node_IP n) (Node_IP e)); [done|].
  assert (exists L B, tracked tl bl tf bf s b (e :: L) (e :: B)) as (L & B & Ht).
  { destruct Hbi as [_ Ht]. apply list_elem_of_lookup_2 in Hk.
    apply list_elem_of_split in Hk as (l1 & l2 & Hl). do 2 eexists.
    eapply tracked_perm, Ht; [done| |];
      unfold nodes_of; rewrite Hl, <- !app_assoc; simpl; by rewrite <- Permutation_middle. }
  pose proof (removeIP_spec tl bl tf bf _ _ _ _ _ Ht) as Hr.
  destruct (removeIP s b (Node_IP e)) as [s1 b1]. destruct Hr as [_ Ht1].
  pose proof (addIP_spec tl bl tf bf _ _ n _ _ Ht1) as Ha.
  pose proof (addIP_ok_iff tl bl tf bf _ _ (Node_IP n) _ _ Ht1) as Hok.
  destruct (addIP s1 b1 (Node_IP n)) as [[s2 b2] [|]]; simpl in *; [done|].
  destruct Ha as [_ Ht2].
  pose proof (addIP_spec tl bl tf bf _ _ e _ _ Ht2) as Ha3.
  destruct (addIP s2 b2 (Node_IP e)) as [[s3 b3] ok3]. intros [= <- <-]. right.
  assert (exists L' B', tracked tl bl tf bf s3 b3 L' B' /\
    (forall k, (ncount tf k L <= ncount tf k L')%nat) /\
    (forall k, (ncount bf k B <= ncount bf k B')%nat)) as (L' & B' & Ht3 & HL & HB).
  { destruct ok3; [exists (e :: L), (e :: B)|exists L, B]; split; try apply Ha3;
      split; intros; rewrite ?ncount_cons; try case_decide; lia. }
  apply not_true_iff_false. rewrite (addIP_ok_iff tl bl tf bf _ _ _ _ _ Ht3).
  intros [Hne Hroom]. assert (false = true) as [=]. apply Hok. split; [done|].
  specialize (HL (tf (Node_IP n))). specialize (HB (bf (Node_IP n))).
  destruct Hroom as [|[]]; [by left|right; lia].
Qed.

Lemma put_put t i s b s' b' : put (put t i s b) i s' b' = put t i s' b'.
Proof. unfold put. simpl. unfold set_buckets, set_tips. simpl. by rewrite list_insert_insert_eq. Qed.

(** The last part of [addVerifiedNode], for a node the bump did not find. *)
Lemma verified_new_inv now t n i b :
  tinv t -> buckets t !! i = Some b -> (length (entries b) < bucketSize)%nat ->
  Node_ID n ∉ map Node_ID (entries b) \/ (addIP (tips t) b (Node_IP n)).2 = false ->
  belongs Self i n ->
  exists t', (let '(s2, b2, ok) := addIP (tips t) b (Node_IP n) in
    if negb ok then Ok (put t i s2 b2)
    else
      '(es, _) ← pushNode (entries b2) n bucketSize;
      let b3 := set_entries b2 es in
      let b4 := set_replacements b3 (deleteNode (replacements b3) n) in
      let t2 := put t i s2 b4 in
      Ok (hookNode (set_hp t2 (SetTimestamp (hp t2) n now)) n Added)) = Ok t' /\ tinv t'.
Proof.
  intros Hinv Hb Hroom Hor Hbn. pose proof (tinv_binv _ _ _ Hinv Hb) as Hbi.
  destruct (addIP (tips t) b (Node_IP n)) as [[s2 b2] ok] eqn:Hadd. simpl in Hor.
  destruct ok; simpl.
  - destruct Hor as [Hnot|[=]].
    destruct (pushNode_entries _ _ _ _ _ _ _ Hbi Hroom Hnot Hbn Hadd) as (r & -> & Hbi').
    simpl. eexists. split; [done|]. apply hookNode_inv.
    eapply tinv_ext; [| |by eapply put_inv]; done.
  - eexists. split; [done|]. destruct (addIP_fail_inv Self tl bl tf bf _ _ _ _ _ _ _ Hbi Hadd).
    by eapply put_inv.
Qed.

Lemma addReplacement_refused s b n :
  (addIP s b (Node_IP n)).2 = false ->
  exists s' b', addReplacement s b n = Ok (s', b') /\
    ((s', b') = (s, b) \/ addIP s b (Node_IP n) = (s', b', false)).
Proof.
  intros Hok. unfold addReplacement. destruct (contains _ _); [by eauto|].
  destruct (addIP s b (Node_IP n)) as [[s1 b1] ok]. simpl in *. subst ok. eauto.
Qed.

Lemma addVerifiedNode_inv now t n :
  tinv t -> exists t', addVerifiedNode Self now t n = Ok t' /\ tinv t'.
Proof.
  intros Hinv. unfold addVerifiedNode. destruct (initDone t); simpl; [|by eauto].
  case_decide as Hself; [by eauto|].
  destruct (tinv_bucket t (Node_ID n) Hinv) as (i & b & Hi & Hb & Hg).
  rewrite Hi. simpl. rewrite Hg. simpl.
  pose proof (tinv_binv _ _ _ Hinv Hb) as Hbi.
  pose proof (bumpInBucket_inv Self tl bl tf bf _ _ _ _ n Hbi) as Hbump.
  pose proof (bump_fail_full _ _ _ _ n (bumpInBucket (tips t) b n).1.1
    (bumpInBucket (tips t) b n).1.2 Hbi) as Hfail.
  destruct (bumpInBucket (tips t) b n) as [[s1 b1] bumped]. destruct Hbump as (Hbi1 & Hr1 & He1).
  simpl in Hfail. pose proof (put_inv _ _ _ _ _ Hinv Hb Hbi1) as Hinv1.
  destruct bumped; [by eauto|]. specialize (Hfail eq_refl).
  assert (buckets (put t i s1 b1) !! i = Some b1) as Hb1
    by (simpl; apply list_lookup_insert_eq; by eapply lookup_lt_Some).
  rewrite <- (others_put t i s1 b1) in Hbi1.
  case_decide as Hfull.
  2: { rewrite He1 in Hfull. apply (verified_new_inv now (put t i s1 b1) n i b1); rewrite ?He1; try done. lia. }
  destruct Hfail as [Hnot|Hfull'].
  - pose proof (sh_entries _ _ _ (ti_shape _ Hinv1 _ _ Hb1)).
    destruct (addReplacement_inv Self tl bl tf bf i _ _ b1 n Hbi1) as (s' & b' & -> & Hbi' & _);
      [lia|by rewrite He1|done|].
    eexists. split; [done|]. by eapply put_inv.
  - destruct (addReplacement_refused _ _ _ Hfull') as (s' & b' & -> & [[= -> ->]|Heq]);
      (eexists; split; [done|]; eapply put_inv; [done..|]); [done|].
    by eapply addIP_fail_inv.
Qed.

End Ops.
