(* ===== verification/TableSys.v ===== *)
(** * The running table

    Revalidation on every branch, and the transition system of the table as
    the goroutines of [Run] and the discovery handlers drive it: a node seen,
    the seeds loaded, the live nodes copied, and one revalidation at a time,
    whose network exchange takes place between two critical sections. *)

From stdpp Require Import base list gmap relations.
From Stdlib Require Import ZArith Lia Permutation.
From S2P Require Import Prelude Golang External Nodes NodesFacts Table TableInv TableBucket TableOps.
Open Scope Z_scope.

Section Sys.
Context `{EL : EnodeLaws} `{NL : NetUtilLaws} `{D : NodeDB (E := E)}.
Variable Self : enode.

(** [pending] is the node and bucket [doRevalidate] has picked and is pinging. *)
Record sys := mkSys { tab : Table; pending : option (Node * nat) }.

Definition set_initDone (t : Table) : Table :=
  mkTable (buckets t) (nursery t) (tips t) (db t) (hp t) true (nodedHook t) (hooks t).

Inductive sys_step : sys -> sys -> Prop :=
| sys_seen now n t t' p :
    AddSeenNode Self now t n = Ok t' -> sys_step (mkSys t p) (mkSys t' p)
| sys_seeds now qrnd t t' p :
    loadSeedNodes Self now qrnd t = Ok t' -> sys_step (mkSys t p) (mkSys t' p)
| sys_copy now t p : sys_step (mkSys t p) (mkSys (copyLiveNodes now t) p)
| sys_init t p : sys_step (mkSys t p) (mkSys (set_initDone t) p)
| sys_pick perm t n bi :
    nodeToRevalidate t perm = Some (n, bi) -> sys_step (mkSys t None) (mkSys t (Some (n, bi)))
| sys_reply t n bi remoteSeq err enr rnd t' :
    (err = true -> remoteSeq = 0) ->
    doRevalidate_reply t n bi remoteSeq err enr rnd = Ok t' ->
    sys_step (mkSys t (Some (n, bi))) (mkSys t' None).

Section Invariant.
Variables (tl bl : Z) (tf bf : IP -> netkey).

Abbreviation tinv := (tinv Self tl bl tf bf).
Abbreviation binv := (binv Self tl bl tf bf).

(** The node being pinged is an entry of its bucket. *)
Definition pending_ok (t : Table) (p : option (Node * nat)) : Prop :=
  match p with
  | None => True
  | Some (n, bi) => exists b, buckets t !! bi = Some b /\ n ∈ entries b
  end.

Definition sys_inv (s : sys) : Prop := tinv (tab s) /\ pending_ok (tab s) (pending s).

Lemma pending_keeps t t' p : keeps_entries t t' -> pending_ok t p -> pending_ok t' p.
Proof.
  intros Hk. destruct p as [[n bi]|]; [|done]. intros (b & Hb & Hin).
  destruct (Hk _ _ Hb) as (b' & Hb' & Hsub). exists b'. split; [done|]. by apply Hsub.
Qed.

Lemma pending_buckets t t' p : buckets t' = buckets t -> pending_ok t p -> pending_ok t' p.
Proof. unfold pending_ok. by intros ->. Qed.

Lemma nodeToRevalidate_entry t perm n bi :
  nodeToRevalidate t perm = Some (n, bi) ->
  bi ∈ perm /\ exists b, buckets t !! bi = Some b /\ last (entries b) = Some n.
Proof.
  induction perm as [|i perm IH]; simpl; [done|].
  destruct (buckets t !! i) as [b|] eqn:Hb; [destruct (last (entries b)) as [m|] eqn:Hl|].
  - intros [= <- <-]. split; [by left|]. eauto.
  - intros H. apply IH in H as [? ?]. split; [by right|done].
  - intros H. apply IH in H as [? ?]. split; [by right|done].
Qed.

Lemma entry_same_id i b n e :
  shape Self i b -> n ∈ entries b -> e ∈ entries b -> Node_ID e = Node_ID n -> e = n.
Proof.
  intros Hs Hn He Hid. pose proof (sh_nodup _ _ _ Hs) as Hnd. unfold nodes_of in Hnd.
  rewrite map_app in Hnd. apply NoDup_app in Hnd as [Hnd _].
  apply list_elem_of_lookup in Hn as [j Hj]. apply list_elem_of_lookup in He as [k Hk].
  change (map Node_ID) with (fmap (M:=list) Node_ID) in Hnd.
  assert (j = k) as -> by
    (eapply (NoDup_lookup _ _ _ (Node_ID n) Hnd); rewrite list_lookup_fmap, ?Hj, ?Hk; simpl; congruence).
  congruence.
Qed.

(** ** Revalidation *)

Lemma enr_fields t n seq enr :
  buckets (doRevalidate_enr t n seq enr).1 = buckets t /\
  tips (doRevalidate_enr t n seq enr).1 = tips t /\
  hooks (doRevalidate_enr t n seq enr).1 = hooks t /\
  nodedHook (doRevalidate_enr t n seq enr).1 = nodedHook t.
Proof. unfold doRevalidate_enr. case_decide; [destruct enr|]; done. Qed.

Lemma enr_old t n seq enr : seq <= Node_Seq n -> doRevalidate_enr t n seq enr = (t, n).
Proof. intros Hs. unfold doRevalidate_enr. by rewrite decide_False by lia. Qed.

(** The node answered and its record has not changed. *)
Lemma revalidate_alive t n bi b seq enr rnd :
  tinv t -> buckets t !! bi = Some b -> n ∈ entries b -> seq <= Node_Seq n ->
  exists t' b', doRevalidate_reply t n bi seq false enr rnd = Ok t' /\ tinv t' /\
    buckets t' = <[bi := b']> (buckets t) /\
    bumped (entries b) n (entries b') /\ replacements b' = replacements b /\
    hp t' = Bump (hp t) n /\ hooks t' = hooks t.
Proof.
  intros Hinv Hb Hin Hseq. unfold doRevalidate_reply. rewrite enr_old by done.
  unfold get_bucket. rewrite Hb. simpl.
  pose proof (tinv_binv Self tl bl tf bf _ _ _ Hinv Hb) as Hbi.
  pose proof (bumpInBucket_inv Self tl bl tf bf _ _ _ _ n Hbi) as Hbump.
  destruct (bumpInBucket (tips t) b n) as [[s1 b1] ok] eqn:Heq.
  destruct Hbump as (Hbi1 & Hr1 & He1).
  assert (ok = true) as ->.
  { unfold bumpInBucket in Heq. destruct (list_find _ (entries b)) as [[k e]|] eqn:Hf.
    - apply list_find_Some in Hf as (Hk & Hid & _). apply list_elem_of_lookup_2 in Hk.
      rewrite (entry_same_id _ _ _ _ (proj1 Hbi) Hin Hk Hid), IP_Equal_refl in Heq. congruence.
    - apply list_find_None in Hf. rewrite Forall_forall in Hf. exfalso. by apply (Hf n Hin). }
  exists (put (set_hp t (Bump (hp t) n)) bi s1 b1), b1. split_and!; try done.
  eapply put_inv; [by apply (tinv_ext Self tl bl tf bf t)|done|done].
Qed.

(** The node did not answer. *)
Lemma revalidate_dead t n bi b seq enr rnd :
  tinv t -> buckets t !! bi = Some b -> n ∈ entries b -> seq <= Node_Seq n ->
  exists t' b' r, doRevalidate_reply t n bi seq true enr rnd = Ok t' /\ tinv t' /\
    buckets t' = <[bi := b']> (buckets t) /\ replaced b n b' r /\ hp t' = hp t /\
    hooks t' = hooks t ++ (if nodedHook t && bool_decide (r = None) then [(n, Removed)] else []).
Proof.
  intros Hinv Hb Hin Hseq. unfold doRevalidate_reply. rewrite enr_old by done.
  unfold get_bucket. rewrite Hb. simpl.
  pose proof (tinv_binv Self tl bl tf bf _ _ _ Hinv Hb) as Hbi.
  pose proof (replace_inv Self tl bl tf bf _ _ _ _ n rnd Hbi) as Hrep.
  destruct (replace (tips t) b n rnd) as [[s1 b1] r].
  destruct Hrep as [Hbi1 Hr].
  { intros e He Hid. by rewrite (entry_same_id _ _ _ _ (proj1 Hbi) Hin He Hid). }
  pose proof (put_inv Self tl bl tf bf _ _ _ _ _ Hinv Hb Hbi1) as Hinv1.
  destruct r as [r|].
  - exists (put t bi s1 b1), b1, (Some r). rewrite andb_false_r, app_nil_r. split_and!; done.
  - destruct (hookNode_fields (put t bi s1 b1) n Removed) as (Hfb & Hft & Hfh & _ & _ & Hfk).
    exists (hookNode (put t bi s1 b1) n Removed), b1, None. rewrite andb_true_r.
    split_and!; try done. by apply hookNode_inv.
Qed.

(** In general: whatever the answer, the invariant is kept. *)
Lemma revalidate_inv t n bi seq err enr rnd :
  tinv t -> pending_ok t (Some (n, bi)) -> (err = true -> seq = 0) ->
  exists t', doRevalidate_reply t n bi seq err enr rnd = Ok t' /\ tinv t'.
Proof.
  intros Hinv (b & Hb & Hin) Hseq. destruct err.
  - rewrite Hseq by done. pose proof (enode_Seq_bounds (node_enode n)) as Hs.
    destruct (revalidate_dead t n bi b 0 enr rnd Hinv Hb Hin) as (t' & ? & ? & ? & ? & _); [|eauto].
    unfold Node_Seq. lia.
  - unfold doRevalidate_reply. destruct (enr_fields t n seq enr) as (Hfb & Hft & _).
    destruct (doRevalidate_enr t n seq enr) as [t1 m]. simpl in *.
    assert (tinv t1) as Hinv1 by (by apply (tinv_ext Self tl bl tf bf t)).
    unfold get_bucket. rewrite Hfb, Hb. simpl.
    assert (buckets t1 !! bi = Some b) as Hb1 by congruence.
    pose proof (tinv_binv Self tl bl tf bf _ _ _ Hinv1 Hb1) as Hbi.
    pose proof (bumpInBucket_inv Self tl bl tf bf _ _ _ _ m Hbi) as Hbump.
    destruct (bumpInBucket (tips t1) b m) as [[s1 b1] ok].
    eexists. split; [done|]. eapply put_inv; [by apply (tinv_ext Self tl bl tf bf t1)|done|apply Hbump].
Qed.

(** ** The invariant of the system *)

Lemma sys_step_inv s s' : sys_step s s' -> sys_inv s -> sys_inv s'.
Proof.
  intros Hstep [Hinv Hp]. destruct Hstep; unfold sys_inv in *; simpl in *.
  - destruct (AddSeenNode_inv Self tl bl tf bf now t n Hinv) as (t1 & ? & ? & ? & _).
    assert (t1 = t') as -> by congruence. split; [done|]. by eapply pending_keeps.
  - destruct (loadSeedNodes_inv Self tl bl tf bf now qrnd t Hinv) as (t1 & ? & ? & ?).
    assert (t1 = t') as -> by congruence. split; [done|]. by eapply pending_keeps.
  - destruct (copyLiveNodes_fields now t) as (Hb & Ht & _).
    split; [by apply (tinv_ext Self tl bl tf bf t)|by eapply pending_buckets].
  - split; [by apply (tinv_ext Self tl bl tf bf t)|done].
  - split; [done|]. simpl. apply nodeToRevalidate_entry in H as (_ & b & Hb & Hl).
    exists b. split; [done|]. apply last_Some_split in Hl as [l ->].
    apply elem_of_app. right. by left.
  - destruct (revalidate_inv t n bi remoteSeq err enr rnd Hinv Hp H) as (t1 & ? & ?).
    assert (t1 = t') as -> by congruence. by split.
Qed.

Lemma sys_reach_inv s s' : rtc sys_step s s' -> sys_inv s -> sys_inv s'.
Proof. induction 1; eauto using sys_step_inv. Qed.

(** The empty table. *)
Lemma empty_inv t s :
  buckets t = replicate (Z.to_nat nBuckets) (mkBucket [] [] s) ->
  exact tl tf (tips t) [] -> exact bl bf s [] -> tinv t.
Proof.
  intros Hb Ht Hs.
  assert (forall i b, buckets t !! i = Some b -> b = mkBucket [] [] s) as Hall.
  { intros i b. rewrite Hb, lookup_replicate. naive_solver. }
  constructor.
  - by rewrite Hb, length_replicate.
  - intros i b Hi. rewrite (Hall _ _ Hi).
    constructor; simpl; unfold maxReplacements, bucketSize; try lia; try constructor; done.
  - intros i b Hi. by rewrite (Hall _ _ Hi).
  - replace (all_nodes t) with (@nil Node); [done|]. unfold all_nodes. rewrite Hb.
    generalize (Z.to_nat nBuckets). intros k. induction k as [|k IH]; [done|exact IH].
Qed.

End Invariant.

(** ** The table [NewTable] builds *)

Definition table_net (l : limits) : IP -> netkey := NetSet_net (newNetSet (tableSubnet l) (tableIPLimit l)).
Definition bucket_net (l : limits) : IP -> netkey := NetSet_net (newNetSet (bucketSubnet l) (bucketIPLimit l)).

Lemma new_exact sn l : exact l (NetSet_net (newNetSet sn l)) (newNetSet sn l) [].
Proof. constructor; [apply new_Limit|done|intros; by rewrite new_count|]. intros k. change (ncount _ _ _) with 0%nat. lia. Qed.

Definition table_inv (l : limits) : Table -> Prop :=
  tinv Self (tableIPLimit l) (bucketIPLimit l) (table_net l) (bucket_net l).

Lemma NewTable_inv lim now qrnd d boot ign hook :
  exists r, NewTable Self lim now qrnd d boot ign hook = Ok (if ign then no_limits else lim, r) /\
  match r with
  | None => forallb ValidateComplete boot = false
  | Some t => forallb ValidateComplete boot = true /\
              table_inv (if ign then no_limits else lim) t
  end.
Proof.
  unfold NewTable. set (lim' := if ign then no_limits else lim).
  unfold setFallbackNodes. destruct (forallb ValidateComplete boot); [|by eexists].
  destruct (WrapNodes _ boot) as [h nodes]. simpl.
  match goal with |- context [loadSeedNodes _ _ _ ?t0] => set (t := t0) end.
  assert (table_inv lim' t) as Hinv
    by (eapply empty_inv; [done|apply new_exact|apply new_exact]).
  destruct (loadSeedNodes_inv Self _ _ _ _ now qrnd t Hinv) as (t' & -> & Hinv' & _).
  simpl. exists (Some t'). done.
Qed.

(** The states a table reaches once [NewTable] has built it. *)
Definition reachable (l : limits) (s : sys) : Prop :=
  exists lim now qrnd d boot ign hook t0,
    NewTable Self lim now qrnd d boot ign hook = Ok (l, Some t0) /\
    rtc sys_step (mkSys t0 None) s.

Lemma reachable_inv l s :
  reachable l s -> sys_inv (tableIPLimit l) (bucketIPLimit l) (table_net l) (bucket_net l) s.
Proof.
  intros (lim & now & qrnd & d & boot & ign & hook & t0 & Hnew & Hr).
  destruct (NewTable_inv lim now qrnd d boot ign hook) as (r & Heq & Hr0).
  rewrite Heq in Hnew. injection Hnew as <- ->. eapply sys_reach_inv; [done|].
  by destruct Hr0.
Qed.

End Sys.
