(* ===== verification/TableProps.v ===== *)
(** * What the node table guarantees

    The properties of the table for its callers, each with a run of the
    concrete instance where its hypotheses hold. *)

From stdpp Require Import base list gmap relations.
From Stdlib Require Import ZArith Lia Permutation.
From S2P Require Import Prelude Golang External Instances Nodes NodesFacts.
From S2P Require Import Table TableInv TableBucket TableOps TableSys.
Open Scope Z_scope.

(** ** Lemmas *)

Section Props.
Context `{EL : EnodeLaws} `{NL : NetUtilLaws} `{D : NodeDB (E := E)}.
Variable Self : enode.

Lemma NoDup_concat_keys {A} (f : A -> nat) (ls : list (list A)) off :
  (forall i l, ls !! i = Some l -> NoDup l /\ Forall (fun x => f x = (off + i)%nat) l) ->
  NoDup (concat ls).
Proof.
  revert off. induction ls as [|l ls IH]; intros off H; simpl; [constructor|].
  apply NoDup_app. destruct (H 0%nat l eq_refl) as [Hl Hf]. split_and!; [done| |].
  - intros x Hx Hin. rewrite Forall_forall in Hf. specialize (Hf x Hx).
    apply list_elem_of_In, in_concat in Hin as (l' & Hl' & Hx').
    apply list_elem_of_In, list_elem_of_lookup in Hl' as [j Hj].
    destruct (H (S j) l' Hj) as [_ Hg]. rewrite Forall_forall in Hg.
    apply list_elem_of_In in Hx'. specialize (Hg x Hx'). simpl in *. lia.
  - apply (IH (S off)). intros i m Hm. destruct (H (S i) m Hm) as [? ?]. split; [done|].
    eapply Forall_impl; [done|]. simpl. intros; lia.
Qed.

Definition bucket_index (id : ID) : nat :=
  match bucket_of Self id with Ok i => i | Panic _ => 0%nat end.

Lemma map_concat {A B} (f : A -> B) (ls : list (list A)) :
  map f (concat ls) = concat (map (map f) ls).
Proof. by rewrite concat_map. Qed.

Lemma all_nodes_nodup tl bl tf bf t :
  tinv Self tl bl tf bf t -> NoDup (map Node_ID (all_nodes t)).
Proof.
  intros [_ Hs _ _]. unfold all_nodes. rewrite map_concat, map_map.
  apply (NoDup_concat_keys bucket_index _ 0). intros i l Hl.
  change (map ?f) with (fmap (M:=list) f) in Hl.
  apply list_lookup_fmap_Some in Hl as (b & -> & Hb). destruct (Hs _ _ Hb) as [_ _ _ Hnd Hbl _].
  split; [done|]. apply Forall_fmap. eapply Forall_impl; [done|].
  intros n [_ Hn]. simpl. unfold bucket_index. by rewrite Hn.
Qed.

Lemma all_entries_sub t : all_entries t ⊆ all_nodes t.
Proof.
  unfold all_entries, all_nodes. induction (buckets t) as [|b bs IH]; simpl; [done|].
  unfold nodes_of. set_solver.
Qed.

Lemma all_entries_elem t n :
  n ∈ all_entries t <-> exists i b, buckets t !! i = Some b /\ n ∈ entries b.
Proof.
  unfold all_entries. rewrite list_elem_of_In, in_concat. split.
  - intros (l & Hl & Hn). apply in_map_iff in Hl as (b & <- & Hb).
    apply list_elem_of_In, list_elem_of_lookup in Hb as [i Hi]. exists i, b.
    by rewrite list_elem_of_In.
  - intros (i & b & Hb & Hn). exists (entries b). split; [|by apply list_elem_of_In].
    apply in_map, list_elem_of_In. by eapply list_elem_of_lookup_2.
Qed.

Lemma all_entries_nodup tl bl tf bf t :
  tinv Self tl bl tf bf t -> NoDup (map Node_ID (all_entries t)).
Proof.
  intros Hinv. pose proof (all_nodes_nodup _ _ _ _ _ Hinv) as H.
  unfold all_entries, all_nodes in *. revert H. generalize (buckets t).
  intros bs. rewrite !map_concat. induction bs as [|b bs IH]; simpl; [done|].
  unfold nodes_of at 1. rewrite map_app, <- app_assoc. intros H.
  apply NoDup_app in H as (H1 & H2 & H3). apply NoDup_app in H3 as (_ & _ & H3).
  apply NoDup_app. split_and!; [done| |by apply IH].
  intros x Hx Hin. apply (H2 x Hx), elem_of_app. right. revert Hin. clear.
  induction bs as [|b bs IH]; simpl; [done|]. unfold nodes_of. rewrite map_app. set_solver.
Qed.

Lemma entry_bucket tl bl tf bf t n :
  tinv Self tl bl tf bf t -> n ∈ all_entries t ->
  exists i b, bucket_of Self (Node_ID n) = Ok i /\ buckets t !! i = Some b /\ n ∈ entries b.
Proof.
  intros Hinv (i & b & Hb & Hn)%all_entries_elem.
  destruct (ti_shape _ _ _ _ _ _ Hinv _ _ Hb) as [_ _ _ _ Hbl _].
  rewrite Forall_forall in Hbl. destruct (Hbl n) as [_ Hi]; [|by exists i, b].
  unfold nodes_of. set_solver.
Qed.

Lemma shuffle_perm rnd k i (l : list enode) : Permutation (shuffle rnd k i l) l.
Proof.
  revert i l. induction k as [|k IH]; intros i l; simpl; [done|].
  rewrite IH. destruct (l !! i) as [x|] eqn:Hx; [|done].
  destruct (l !! (rnd i mod length l)%nat) as [y|] eqn:Hy; [|done].
  by apply Permutation_insert_swap.
Qed.

(** The nodes of the table that answered a revalidation. *)
Definition live_entries (t : Table) : list Node :=
  filter (fun n => GetCount (hp t) n > 0) (all_entries t).

(** The two lists [FindnodeByID] fills. *)
Lemma findnode_fold h target k pl (ns : list Node) a0 b0 :
  fold_left (fun '(nodes, liveNodes) n =>
      (Push nodes n k,
       if pl && bool_decide (GetCount h n > 0) then Push liveNodes n k else liveNodes))
    ns (mkNBD a0 target, mkNBD b0 target) =
  (fold_left (fun h n => Push h n k) ns (mkNBD a0 target),
   fold_left (fun h n => Push h n k)
     (if pl then filter (fun n => GetCount h n > 0) ns else []) (mkNBD b0 target)).
Proof.
  revert a0 b0. induction ns as [|n ns IH]; intros a0 b0; simpl; [by destruct pl|].
  assert (forall a, Push (mkNBD a target) n k = mkNBD (nbd_entries (Push (mkNBD a target) n k)) target)
    as Hp by done.
  rewrite (Hp a0). destruct pl; simpl; [|apply IH].
  rewrite filter_cons. destruct (decide (GetCount h n > 0)) as [Hd|Hd].
  - rewrite bool_decide_true by done. simpl. rewrite (Hp b0). apply IH.
  - rewrite bool_decide_false by done. apply IH.
Qed.

(** ** The properties *)

(** C1: in every state a table reaches after [NewTable], whatever the order
    of nodes seen, seeds loaded and revalidations, there are 17 buckets; each
    has at most 16 entries and 10 replacements, and replacements only while
    it is full of entries; every node is in the bucket its distance selects
    and is not the local node; and no identity occurs twice in the table. *)
Theorem table_invariant l s :
  reachable Self l s ->
  length (buckets (tab s)) = 17%nat /\
  NoDup (map Node_ID (all_nodes (tab s))) /\
  forall i b, buckets (tab s) !! i = Some b ->
    (length (entries b) <= 16)%nat /\ (length (replacements b) <= 10)%nat /\
    (replacements b = [] \/ length (entries b) = 16%nat) /\
    forall n, n ∈ entries b \/ n ∈ replacements b ->
      Node_ID n <> enode_ID Self /\
      bucketAtDistance (LogDist (enode_ID Self) (Node_ID n)) = Ok i.
Proof.
  intros [Hinv _]%reachable_inv. split; [apply (ti_len _ _ _ _ _ _ Hinv)|].
  split; [by eapply all_nodes_nodup|]. intros i b Hb.
  destruct (ti_shape _ _ _ _ _ _ Hinv _ _ Hb) as [He Hr Hf _ Hbl _].
  split_and!; [done..|]. intros n Hn. rewrite Forall_forall in Hbl. apply Hbl.
  unfold nodes_of. by rewrite elem_of_app.
Qed.

(** C2: with the default limits a bucket never holds, among its entries and
    replacements, more than 2 nodes with public addresses of one /24 network,
    and the whole table never more than 10. *)
Theorem table_ip_limits s :
  reachable Self default_limits s ->
  (forall k, (ncount (table_net default_limits) k (all_nodes (tab s)) <= 10)%nat) /\
  (forall i b, buckets (tab s) !! i = Some b ->
     forall k, (ncount (bucket_net default_limits) k (nodes_of b) <= 2)%nat).
Proof.
  intros [Hinv _]%reachable_inv. split.
  - intros k. pose proof (exact_bound _ _ _ _ (ti_tips _ _ _ _ _ _ Hinv) k) as H.
    simpl in H. lia.
  - intros i b Hb k. pose proof (exact_bound _ _ _ _ (ti_bips _ _ _ _ _ _ Hinv _ _ Hb) k) as H.
    simpl in H. lia.
Qed.

Lemma AddSeenNode_returns l s now n : reachable Self l s -> exists t, AddSeenNode Self now (tab s) n = Ok t.
Proof. intros [Hinv _]%reachable_inv. edestruct (AddSeenNode_inv Self) as (t & Ht & _); eauto. Qed.

(** no method of a reachable table panics: every bucket index is in
    range for every identity, and [pushNode] never indexes an empty slice. *)
Theorem table_total l s now qrnd n id :
  reachable Self l s ->
  (exists t, AddSeenNode Self now (tab s) n = Ok t) /\
  (exists t, addVerifiedNode Self now (tab s) n = Ok t) /\
  (exists t, loadSeedNodes Self now qrnd (tab s) = Ok t) /\
  (exists r, getNode Self (tab s) id = Ok r) /\
  (exists k, BucketLen Self (tab s) id = Ok k) /\
  (forall m bi seq err enr rnd, pending s = Some (m, bi) -> (err = true -> seq = 0) ->
     exists t, doRevalidate_reply (tab s) m bi seq err enr rnd = Ok t).
Proof.
  intros Hr. pose proof Hr as [Hinv Hp]%reachable_inv. split_and!.
  - by eapply AddSeenNode_returns.
  - edestruct (addVerifiedNode_inv Self) as (t & Ht & _); eauto.
  - edestruct (loadSeedNodes_inv Self) as (t & Ht & _); eauto.
  - destruct (tinv_bucket _ _ _ _ _ _ id Hinv) as (i & b & Hi & _ & Hg).
    unfold getNode. rewrite Hi. simpl. rewrite Hg. by eexists.
  - destruct (tinv_bucket _ _ _ _ _ _ id Hinv) as (i & b & Hi & _ & Hg).
    unfold BucketLen. rewrite Hi. simpl. rewrite Hg. by eexists.
  - intros m bi seq err enr rnd Hm Hseq. rewrite Hm in Hp.
    edestruct (revalidate_inv Self) as (t & Ht & _); eauto.
Qed.

(** C10: [AddSeenNode] on a reachable table, on each branch.  The local node
    is ignored.  Any other node is reported as seen and only its own bucket
    changes: a known node changes nothing; a full bucket keeps its entries; a
    bucket with room either refuses the address, and keeps its lists, or
    gets the node at the end of its entries, stamped with the time and
    reported as added. *)
Theorem AddSeenNode_effect l s now n :
  reachable Self l s ->
  exists t', AddSeenNode Self now (tab s) n = Ok t' /\
  (Node_ID n = enode_ID Self -> t' = tab s) /\
  (Node_ID n <> enode_ID Self ->
    exists i b b' added, bucket_of Self (Node_ID n) = Ok i /\
      buckets (tab s) !! i = Some b /\ buckets t' = <[i := b']> (buckets (tab s)) /\
      seen_effect n b b' added /\
      hp t' = (if added : bool then SetTimestamp (hp (tab s)) n now else hp (tab s)) /\
      (nodedHook (tab s) = true ->
       hooks t' = hooks (tab s) ++ (n, Seen) :: (if added then [(n, Added)] else []))).
Proof.
  intros [Hinv _]%reachable_inv.
  destruct (decide (Node_ID n = enode_ID Self)) as [Hs|Hs].
  { exists (tab s). unfold AddSeenNode. by rewrite decide_True. }
  destruct (AddSeenNode_cases Self _ _ _ _ now (tab s) n Hinv Hs) as (i & b & t' & Hi & Hb & Heq & Hres).
  destruct Hres as (b' & added & _ & Hbs & Heff & _ & Hh & Hk).
  destruct (hookNode_fields (tab s) n Seen) as (Hfb & _ & Hfh & _ & Hfo & Hfk).
  exists t'. split_and!; [done..|]. intros _. exists i, b, b', added.
  rewrite Hfb in Hbs. rewrite Hfh in Hh. split_and!; [done..|].
  intros Hhook. rewrite Hk, Hfk, Hfo, Hhook, <- app_assoc. by destruct added.
Qed.

(** a revalidated node that answers with an unchanged record moves to the
    front of its bucket, the other entries keep their order, its liveness
    count grows by one and its timestamp stays. *)
Theorem revalidate_alive_front l s n bi seq enr rnd :
  reachable Self l s -> pending s = Some (n, bi) -> seq <= Node_Seq n ->
  exists b l1 l2 t' b', buckets (tab s) !! bi = Some b /\ entries b = l1 ++ n :: l2 /\
    doRevalidate_reply (tab s) n bi seq false enr rnd = Ok t' /\
    buckets t' = <[bi := b']> (buckets (tab s)) /\
    entries b' = n :: l1 ++ l2 /\ replacements b' = replacements b /\
    livenessChecks (deref (hp t') n) = u64 (livenessChecks (deref (hp (tab s)) n) + 1) /\
    addedAt (deref (hp t') n) = addedAt (deref (hp (tab s)) n).
Proof.
  intros [Hinv Hp]%reachable_inv Hn Hseq. rewrite Hn in Hp. destruct Hp as (b & Hb & Hin).
  destruct (revalidate_alive Self _ _ _ _ (tab s) n bi b seq enr rnd Hinv Hb Hin Hseq)
    as (t' & b' & Hr & _ & Hbs & Hbump & Hrep & Hh & _).
  destruct Hbump as (l1 & e & l2 & He & Hid & He').
  assert (e = n) as ->.
  { eapply entry_same_id; [by apply (ti_shape _ _ _ _ _ _ Hinv)|done| |done]. rewrite He. set_solver. }
  exists b, l1, l2, t', b'. split_and!; try done; rewrite Hh; unfold Bump, deref, store; simpl;
    by rewrite lookup_insert_eq.
Qed.

(** a revalidated node that does not answer is dropped when it is still
    the last entry of its bucket, and one of the replacements, if there are
    any, takes its place; otherwise the bucket is unchanged. *)
Theorem revalidate_dead_replaced l s n bi enr rnd :
  reachable Self l s -> pending s = Some (n, bi) ->
  exists b t' b', buckets (tab s) !! bi = Some b /\ n ∈ entries b /\
    doRevalidate_reply (tab s) n bi 0 true enr rnd = Ok t' /\
    buckets t' = <[bi := b']> (buckets (tab s)) /\
    ((last (entries b) <> Some n /\ same_lists b b') \/
     exists es, entries b = es ++ [n] /\
       ((replacements b = [] /\ entries b' = es /\ replacements b' = []) \/
        exists r, entries b' = es ++ [r] /\
                  Permutation (replacements b) (r :: replacements b'))).
Proof.
  intros [Hinv Hp]%reachable_inv Hn. rewrite Hn in Hp. destruct Hp as (b & Hb & Hin).
  destruct (revalidate_dead Self _ _ _ _ (tab s) n bi b 0 enr rnd Hinv Hb Hin)
    as (t' & b' & r & Hr & _ & Hbs & Hrep & _ & _).
  { pose proof (enode_Seq_bounds (node_enode n)). unfold Node_Seq. lia. }
  pose proof (ti_shape _ _ _ _ _ _ Hinv _ _ Hb) as Hsh.
  exists b, t', b'. split_and!; [done..|].
  destruct Hrep as [Hne Hs|es e He Hid Hr0 He' Hr'|es e x He Hid Hp He'].
  - left. split; [|done]. intros Hl. by apply (Hne n Hl).
  - assert (e = n) as ->
      by (eapply entry_same_id; [done|done|rewrite He; apply elem_of_snoc|done]).
    right. exists es. split; [done|]. by left.
  - assert (e = n) as ->
      by (eapply entry_same_id; [done|done|rewrite He; apply elem_of_snoc|done]).
    right. exists es. split; [done|]. right. by exists x.
Qed.

(** when the node that does not answer is no longer the last entry, the
    hook is told that the node was removed although the bucket keeps it. *)
Theorem dead_but_kept_reported_removed l s n bi b enr rnd :
  reachable Self l s -> pending s = Some (n, bi) ->
  buckets (tab s) !! bi = Some b -> last (entries b) <> Some n -> nodedHook (tab s) = true ->
  exists t' b', doRevalidate_reply (tab s) n bi 0 true enr rnd = Ok t' /\
    buckets t' !! bi = Some b' /\ n ∈ entries b' /\ hooks t' = hooks (tab s) ++ [(n, Removed)].
Proof.
  intros [Hinv Hp]%reachable_inv Hn Hb Hl Hh. rewrite Hn in Hp.
  destruct Hp as (b0 & Hb0 & Hin). assert (b0 = b) as -> by congruence.
  destruct (revalidate_dead Self _ _ _ _ (tab s) n bi b 0 enr rnd Hinv Hb Hin)
    as (t' & b' & r & Hr & _ & Hbs & Hrep & _ & Hk).
  { pose proof (enode_Seq_bounds (node_enode n)). unfold Node_Seq. lia. }
  pose proof (ti_shape _ _ _ _ _ _ Hinv _ _ Hb) as Hsh.
  assert (forall es e, entries b = es ++ [e] -> Node_ID e = Node_ID n -> False) as Hnot.
  { intros es e He Hid. apply Hl. rewrite He, last_snoc. f_equal.
    eapply entry_same_id; [done|done|rewrite He; apply elem_of_snoc|done]. }
  destruct Hrep as [Hne [Hs _]|es e He Hid|es e x He Hid]; [|by destruct (Hnot es e)..].
  rewrite Hh in Hk. exists t', b'. split_and!; [done| |by rewrite Hs|done].
  rewrite Hbs. apply list_lookup_insert_eq. by eapply lookup_lt_Some.
Qed.

(** C9: [getNode] finds exactly the entries of the whole table: the bucket the
    identity selects is the only one that can hold it. *)
Theorem getNode_spec l s id :
  reachable Self l s ->
  exists r, getNode Self (tab s) id = Ok r /\
    match r with
    | Some e => enode_ID e = id /\ e ∈ map GetNode (all_entries (tab s))
    | None => id ∉ map Node_ID (all_entries (tab s))
    end.
Proof.
  intros [Hinv _]%reachable_inv.
  destruct (tinv_bucket _ _ _ _ _ _ id Hinv) as (i & b & Hi & Hb & Hg).
  unfold getNode. rewrite Hi. simpl. rewrite Hg. simpl. eexists. split; [done|].
  destruct (list_find _ _) as [[k e]|] eqn:Hf; simpl.
  - apply list_find_Some in Hf as (Hk & Hid & _). split; [done|].
    change (map ?f) with (fmap (M:=list) f) in *.
    apply list_lookup_fmap_Some in Hk as (n & -> & Hn). apply list_elem_of_fmap_2.
    apply all_entries_elem. exists i, b. split; [done|]. by eapply list_elem_of_lookup_2.
  - apply list_find_None in Hf. rewrite Forall_forall in Hf.
    intros (n & -> & Hn)%list_elem_of_fmap.
    destruct (entry_bucket _ _ _ _ _ _ Hinv Hn) as (j & c & Hj & Hc & Hin).
    assert (j = i) as -> by congruence. assert (c = b) as -> by congruence.
    apply (Hf (GetNode n)); [|done]. by apply (list_elem_of_fmap_2 GetNode).
Qed.

(** C10: [FindnodeByID] returns the [nresults] entries of the table closest to
    the target, closest first; when live nodes are preferred and there are
    some, the closest of these, and no other node. *)
Theorem FindnodeByID_closest t target k preferLive :
  0 <= k ->
  let pool := if preferLive && negb (bool_decide (live_entries t = [])) then live_entries t
              else all_entries t in
  k_closest target (Z.to_nat k) pool (Entries (FindnodeByID t target k preferLive)).
Proof.
  intros Hk pool. unfold FindnodeByID. rewrite findnode_fold.
  fold (live_entries t). pose proof (Push_closest target (all_entries t) k Hk) as Hall.
  unfold pool. destruct preferLive; [|done].
  rewrite !andb_true_l. pose proof (Push_closest target (live_entries t) k Hk) as Hlive.
  pose proof (k_closest_length _ _ _ _ Hlive) as Hlen. fold (live_entries t).
  set (h := fold_left _ (live_entries t) _) in *. unfold Entries.
  destruct (decide (live_entries t = [])) as [Hl|Hl].
  - rewrite (bool_decide_true _ Hl). rewrite Hl in Hlen. simpl in Hlen.
    rewrite bool_decide_false by lia. done.
  - rewrite (bool_decide_false _ Hl). case_bool_decide as Hpos; [done|].
    assert (length (live_entries t) <> 0%nat) by (intros H%nil_length_inv; done).
    replace (Z.to_nat k) with 0%nat in * by lia.
    pose proof (k_closest_length _ _ _ _ Hall) as H0. apply nil_length_inv in H0, Hlen.
    simpl. rewrite H0. by rewrite Hlen in Hlive.
Qed.

(** C10: [ReadRandomNodes] fills the buffer with nodes of the table, as many as
    fit, no identity twice, and leaves the rest of the buffer alone; before
    the first refresh is done it does nothing. *)
Theorem ReadRandomNodes_unique l s rnd buf :
  reachable Self l s ->
  let '(n, buf') := ReadRandomNodes rnd (tab s) buf in
  drop n buf' = drop n buf /\
  if initDone (tab s) then
    n = Nat.min (length buf) (length (all_entries (tab s))) /\
    NoDup (map enode_ID (take n buf')) /\
    take n buf' ⊆ map GetNode (all_entries (tab s))
  else n = 0%nat /\ buf' = buf.
Proof.
  intros [Hinv _]%reachable_inv. unfold ReadRandomNodes.
  destruct (initDone (tab s)); simpl; [|done].
  set (nodes := map GetNode (all_entries (tab s))).
  pose proof (shuffle_perm rnd (length nodes) 0 nodes) as Hp.
  set (sh := shuffle rnd (length nodes) 0 nodes) in *.
  unfold copy_at. rewrite Nat.sub_0_r, take_0. simpl. set (m := Nat.min (length buf) (length sh)).
  assert (length (take m sh) = m) as Hm by (rewrite length_take; lia).
  rewrite drop_app_le, (drop_ge (take m sh)), (take_app_le (take m sh)), (take_ge (take m sh))
    by lia.
  split_and!.
  - done.
  - unfold m. rewrite Hp. unfold nodes. by rewrite length_map.
  - pose proof (all_entries_nodup _ _ _ _ _ Hinv) as Hnd.
    assert (NoDup (map enode_ID sh)) as Hnd'.
    { rewrite Hp. unfold nodes. by rewrite map_map. }
    rewrite <- (take_drop m sh), map_app in Hnd'. by apply NoDup_app in Hnd' as [? _].
  - intros x Hx. apply (subseteq_take m) in Hx. by rewrite Hp in Hx.
Qed.

(** C11: [copyLiveNodes] stores in the database exactly the entries that were
    found alive and have been in the table for five minutes, in table order,
    and changes nothing else. *)
Theorem copyLiveNodes_stores now t :
  let copied := filter (fun n => GetCount (hp t) n > 0 /\
                                 time_Sub now (GetAddedAt (hp t) n) >= 5 * Minute)
                  (all_entries t) in
  copyLiveNodes now t = set_db t (fold_left (fun d n => UpdateNode d (Unwrap n)) copied (db t)).
Proof.
  simpl. unfold copyLiveNodes. generalize (all_entries t). intros ns. revert t.
  induction ns as [|n ns IH]; intros t; simpl; [by destruct t|].
  rewrite filter_cons. unfold seedMinTableTime.
  destruct (decide _) as [Hd|Hd]; rewrite IH; [|done]. by destruct t.
Qed.

End Props.

(** ** Runs of the concrete instance *)

Module Demo.

Definition self : @enode xor_enode := mkRecord 0 [10; 0; 0; 1] 30303 30303 1.

(** Nodes of one public /24 network, all in the last bucket. *)
Definition peer (i : Z) : @enode xor_enode := mkRecord (2 ^ 255 + i) [8; 8; 8; i] 30303 30303 1.

Definition start : Table :=
  match NewTable self default_limits (10 * Hour) 0 empty_db [peer 1; peer 2; peer 3] false true with
  | Ok (_, Some t) => t
  | _ => mkTable [] [] (newNetSet 0 0) empty_db (mkHeap 0 ∅) false false []
  end.

Definition after {A} (d : A) (o : outcome A) : A := match o with Ok a => a | Panic _ => d end.

Definition newcomer : Node := mkNode 100 (mkRecord (2 ^ 255 + 9) [9; 9; 9; 9] 30303 30303 1).

(** The run picks the last entry, node 2, and then sees a newcomer. *)
Definition picked : Node := mkNode 1 (peer 2).
Definition seen : Table := after start (AddSeenNode self (11 * Hour) start newcomer).
Definition pinging : sys := mkSys start (Some (picked, 16%nat)).
Definition pinging_seen : sys := mkSys seen (Some (picked, 16%nat)).

Lemma start_reachable : reachable self default_limits (mkSys start None).
Proof.
  exists default_limits, (10 * Hour), 0%nat, empty_db, [peer 1; peer 2; peer 3], false, true, start.
  split; [|apply rtc_refl].
  destruct (NewTable_inv self default_limits (10 * Hour) 0 empty_db
              [peer 1; peer 2; peer 3] false true) as ([t|] & Heq & Hr).
  - unfold start. by rewrite Heq.
  - vm_compute in Hr. discriminate.
Qed.

Lemma reachable_step l s s' : reachable self l s -> sys_step self s s' -> reachable self l s'.
Proof.
  intros (lim & now & q & d & bo & ig & ho & t0 & Hn & Hr) Hs.
  exists lim, now, q, d, bo, ig, ho, t0. split; [done|]. by eapply rtc_r.
Qed.

Lemma pinging_reachable : reachable self default_limits pinging.
Proof.
  eapply reachable_step; [apply start_reachable|].
  apply (sys_pick self [16%nat]). vm_refl.
Qed.

Lemma pinging_seen_reachable : reachable self default_limits pinging_seen.
Proof.
  eapply reachable_step; [apply pinging_reachable|].
  apply (sys_seen self (11 * Hour) newcomer).
  destruct (AddSeenNode_returns self _ _ (11 * Hour) newcomer start_reachable) as (t & Ht).
  simpl in Ht. unfold seen. by rewrite Ht.
Qed.

End Demo.

Lemma table_invariant_witness :
  reachable Demo.self default_limits Demo.pinging_seen /\ length (buckets Demo.seen) = 17%nat.
Proof.
  split; [exact Demo.pinging_seen_reachable|].
  exact (proj1 (table_invariant Demo.self _ _ Demo.pinging_seen_reachable)).
Defined.

(** Of the three bootstrap nodes of one /24 network the table keeps two. *)
Lemma table_ip_limits_witness :
  map Node_ID (all_nodes Demo.start) = [2 ^ 255 + 1; 2 ^ 255 + 2] /\
  (ncount (table_net default_limits) ([8; 8; 8]%Z : list Z) (all_nodes Demo.start) <= 10)%nat.
Proof.
  split; [vm_refl|].
  exact (proj1 (table_ip_limits Demo.self _ Demo.start_reachable) ([8; 8; 8]%Z : list Z)).
Defined.

Lemma table_total_witness :
  exists t, AddSeenNode Demo.self 0 Demo.seen Demo.newcomer = Ok t.
Proof.
  exact (proj1 (table_total Demo.self _ _ 0 0%nat Demo.newcomer 0 Demo.pinging_seen_reachable)).
Defined.

Lemma AddSeenNode_effect_witness :
  exists t', AddSeenNode Demo.self (11 * Hour) Demo.start Demo.newcomer = Ok t' /\ t' = Demo.seen.
Proof.
  destruct (AddSeenNode_effect Demo.self _ _ (11 * Hour) Demo.newcomer Demo.start_reachable)
    as (t' & Ht & _).
  exists t'. split; [exact Ht|]. unfold Demo.seen. simpl in Ht. by rewrite Ht.
Defined.

Lemma revalidate_alive_front_witness :
  exists t', doRevalidate_reply Demo.seen Demo.picked 16 1 false None 0 = Ok t' /\
    livenessChecks (deref (hp t') Demo.picked) = 1.
Proof.
  destruct (revalidate_alive_front Demo.self _ _ Demo.picked 16 1 None 0
              Demo.pinging_seen_reachable eq_refl)
    as (b & l1 & l2 & t' & b' & _ & _ & Hr & _ & _ & _ & Hc & _).
  { vm_compute. discriminate. }
  exists t'. split; [exact Hr|]. rewrite Hc. vm_refl.
Defined.

Lemma revalidate_dead_replaced_witness :
  exists t', doRevalidate_reply Demo.start Demo.picked 16 0 true None 0 = Ok t'.
Proof.
  destruct (revalidate_dead_replaced Demo.self _ _ Demo.picked 16 None 0
              Demo.pinging_reachable eq_refl) as (b & t' & b' & _ & _ & Hr & _).
  exists t'. exact Hr.
Defined.

Lemma dead_but_kept_reported_removed_witness :
  exists t', doRevalidate_reply Demo.seen Demo.picked 16 0 true None 0 = Ok t' /\
    hooks t' = hooks Demo.seen ++ [(Demo.picked, Removed)].
Proof.
  destruct (dead_but_kept_reported_removed Demo.self _ _ Demo.picked 16
              (nth 16 (buckets Demo.seen) (mkBucket [] [] (newNetSet 0 0))) None 0
              Demo.pinging_seen_reachable eq_refl) as (t' & b' & Hr & _ & _ & Hh).
  - vm_refl.
  - intros H%(f_equal (option_map node_ptr)). revert H. vm_compute. discriminate.
  - vm_refl.
  - exists t'. split; [exact Hr|exact Hh].
Defined.

Lemma getNode_spec_witness :
  exists r, getNode Demo.self Demo.start (2 ^ 255 + 2) = Ok r.
Proof.
  destruct (getNode_spec Demo.self _ _ (2 ^ 255 + 2) Demo.start_reachable) as (r & Hr & _).
  exists r. exact Hr.
Defined.

Lemma FindnodeByID_closest_witness :
  k_closest (E := xor_enode) (2 ^ 255 + 2) 1 (all_entries Demo.start)
    (Entries (FindnodeByID Demo.start (2 ^ 255 + 2) 1 true)).
Proof. exact (FindnodeByID_closest Demo.start (2 ^ 255 + 2) 1 true ltac:(lia)). Defined.

Lemma ReadRandomNodes_unique_witness :
  let '(n, buf') := ReadRandomNodes (fun _ => 1%nat) (set_initDone Demo.start)
                      [Demo.self; Demo.self; Demo.self] in
  NoDup (map (enode_ID (Enode := xor_enode)) (take n buf')) /\ n = 2%nat.
Proof.
  assert (reachable Demo.self default_limits (mkSys (set_initDone Demo.start) None)) as Hr
    by (eapply Demo.reachable_step; [apply Demo.start_reachable|apply sys_init]).
  destruct (ReadRandomNodes_unique Demo.self _ _ (fun _ => 1%nat)
    [Demo.self; Demo.self; Demo.self] Hr) as (_ & Hn & Hd & _).
  split; [exact Hd|vm_refl].
Defined.
