(* ===== verification/TableRun.v ===== *)
(** * crawler/net/discovery/table: the loop that schedules the table's work

    [Run] starts refreshes and revalidations in goroutines of their own and
    tells the callers of [refresh] when a refresh is done.  Channels that
    callers wait on are numbers; 0 is [initDone].  A step is one case of the
    loop's select, the end of a goroutine, or a step of the shutdown. *)

From stdpp Require Import base list gmap relations.
From Stdlib Require Import ZArith Lia.
From S2P Require Import Prelude.

(** [WaitRefresh] and [WaitRevalidate] are the receives after the loop. *)
Inductive phase : Set := Loop | WaitRefresh | WaitRevalidate | Closed.

(** [refreshDone] and [revalidateDone] are nil, open, or ready to receive
    from; [timer] tells whether the revalidation timer is armed.  [closeReq]
    is closed by [close]; [closers] are its callers that wait for the end. *)
Record loop := mkLoop {
  at_phase : phase;
  waiting : list nat;
  refreshDone : option bool;
  refreshing : nat;
  revalidateDone : option bool;
  revalidating : nat;
  timer : bool;
  requested : gset nat;
  closed : gset nat;
  closeReq : bool;
  closers : nat }.

Fixpoint close_all (chs : list nat) (c : gset nat) : outcome (gset nat) :=
  match chs with
  | [] => Ok c
  | ch :: chs' => if decide (ch ∈ c) then Panic CloseOfClosedChannel else close_all chs' ({[ch]} ∪ c)
  end.

(** Starting a refresh when none is running. *)
Definition start_refresh (l : loop) : loop :=
  match refreshDone l with
  | None => mkLoop (at_phase l) (waiting l) (Some false) (S (refreshing l)) (revalidateDone l)
              (revalidating l) (timer l) (requested l) (closed l) (closeReq l) (closers l)
  | Some _ => l
  end.

Definition add_waiting (ch : nat) (l : loop) : loop :=
  mkLoop (at_phase l) (waiting l ++ [ch]) (refreshDone l) (refreshing l) (revalidateDone l)
    (revalidating l) (timer l) ({[ch]} ∪ requested l) (closed l) (closeReq l) (closers l).

(** Closing the channels of the callers that wait. *)
Definition close_waiting (p : phase) (l : loop) : outcome loop :=
  c ← close_all (waiting l) (closed l);
  Ok (mkLoop p [] None (refreshing l) (revalidateDone l) (revalidating l) (timer l) (requested l) c (closeReq l) (closers l)).

Definition init_loop : loop := mkLoop Loop [0] (Some false) 1 None 0 true {[0]} ∅ false 0.

Definition set_close (r : bool) (n : nat) (l : loop) : loop :=
  mkLoop (at_phase l) (waiting l) (refreshDone l) (refreshing l) (revalidateDone l) (revalidating l) (timer l)
    (requested l) (closed l) r n.

(** [close], up to its receive of [closed]. *)
Definition call_close_ (l : loop) : outcome loop :=
  if closeReq l then Panic CloseOfClosedChannel else Ok (set_close true (S (closers l)) l).

(** [refresh] once [closeReq] is closed: the caller closes the channel. *)
Definition refuse_refresh (ch : nat) (l : loop) : loop :=
  mkLoop (at_phase l) (waiting l) (refreshDone l) (refreshing l) (revalidateDone l) (revalidating l) (timer l)
    ({[ch]} ∪ requested l) ({[ch]} ∪ closed l) (closeReq l) (closers l).

(** [isInitDone]: channel 0 is [initDone]. *)
Definition isInitDone (l : loop) : bool := bool_decide (0 ∈ closed l).

Inductive loop_step (l : loop) : outcome loop -> Prop :=
| lp_tick : at_phase l = Loop -> loop_step l (Ok (start_refresh l))
| lp_request ch :
    at_phase l = Loop -> ch ∉ requested l -> loop_step l (Ok (start_refresh (add_waiting ch l)))
| lp_refreshed :
    at_phase l = Loop -> refreshDone l = Some true -> loop_step l (close_waiting Loop l)
| lp_revalidate :
    at_phase l = Loop -> timer l = true ->
    loop_step l (Ok (mkLoop Loop (waiting l) (refreshDone l) (refreshing l) (Some false)
                       (S (revalidating l)) false (requested l) (closed l) (closeReq l) (closers l)))
| lp_revalidated :
    at_phase l = Loop -> revalidateDone l = Some true ->
    loop_step l (Ok (mkLoop Loop (waiting l) (refreshDone l) (refreshing l) None
                       (pred (revalidating l)) true (requested l) (closed l) (closeReq l) (closers l)))
| lp_close :
    at_phase l = Loop -> closeReq l = true ->
    loop_step l (Ok (mkLoop WaitRefresh (waiting l) (refreshDone l) (refreshing l) (revalidateDone l)
                       (revalidating l) (timer l) (requested l) (closed l) (closeReq l) (closers l)))
| lp_end_refresh :
    at_phase l = WaitRefresh -> refreshDone l <> Some false -> loop_step l (close_waiting WaitRevalidate l)
| lp_end_revalidate :
    at_phase l = WaitRevalidate -> revalidateDone l <> Some false ->
    loop_step l (Ok (mkLoop Closed (waiting l) (refreshDone l) (refreshing l) None
                       0 (timer l) (requested l) (closed l) (closeReq l) (closers l)))
| go_refresh_done n :
    refreshing l = S n -> refreshDone l = Some false ->
    loop_step l (Ok (mkLoop (at_phase l) (waiting l) (Some true) n (revalidateDone l)
                       (revalidating l) (timer l) (requested l) (closed l) (closeReq l) (closers l)))
| go_revalidate_done n :
    revalidating l = S n -> revalidateDone l = Some false ->
    loop_step l (Ok (mkLoop (at_phase l) (waiting l) (refreshDone l) (refreshing l) (Some true)
                       (revalidating l) (timer l) (requested l) (closed l) (closeReq l) (closers l)))
| call_close : loop_step l (call_close_ l)
| lp_closed n :
    at_phase l = Closed -> closers l = S n -> loop_step l (Ok (set_close (closeReq l) n l))
| lp_refused ch :
    closeReq l = true -> ch ∉ requested l -> loop_step l (Ok (refuse_refresh ch l)).

Definition loop_ok (l l' : loop) : Prop := loop_step l (Ok l').

(** ** The invariant *)

Record loop_inv (l : loop) : Prop := {
  li_refresh : refreshing l = match refreshDone l with Some false => 1 | _ => 0 end;
  li_revalidate : revalidating l = match revalidateDone l with Some _ => 1 | None => 0 end;
  li_timer : at_phase l = Loop -> (timer l = true <-> revalidateDone l = None);
  li_nodup : NoDup (waiting l);
  li_open : forall ch, ch ∈ waiting l -> ch ∉ closed l;
  li_known : forall ch, ch ∈ requested l <-> ch ∈ waiting l \/ ch ∈ closed l;
  li_served : at_phase l = Loop \/ at_phase l = WaitRefresh ->
              waiting l <> [] -> refreshDone l <> None;
  li_ended : at_phase l = WaitRevalidate \/ at_phase l = Closed -> waiting l = [] /\ refreshDone l = None;
  li_close : at_phase l <> Loop \/ closers l <> 0 -> closeReq l = true }.

Lemma close_all_ok chs c :
  NoDup chs -> (forall ch, ch ∈ chs -> ch ∉ c) -> close_all chs c = Ok (list_to_set chs ∪ c).
Proof.
  revert c. induction chs as [|ch chs IH]; intros c Hnd Hopen; simpl; [f_equal; set_solver|].
  apply NoDup_cons in Hnd as [Hn Hnd]. rewrite decide_False by (apply Hopen; by left).
  rewrite IH; [f_equal; set_solver|done|]. intros x Hx. set_solver.
Qed.

Lemma close_waiting_inv p l :
  loop_inv l -> refreshDone l <> Some false -> p = Loop /\ at_phase l = Loop \/ p = WaitRevalidate /\ at_phase l = WaitRefresh ->
  exists l', close_waiting p l = Ok l' /\ loop_inv l' /\ waiting l' = [] /\
    closed l' = list_to_set (waiting l) ∪ closed l.
Proof.
  intros [Hr Hv Ht Hnd Ho Hk Hs He Hcl] Hd Hp. unfold close_waiting.
  rewrite close_all_ok by done. simpl. eexists. split; [done|].
  split; [|done]. constructor; simpl; try done.
  - destruct (refreshDone l) as [[|]|]; done.
  - intros ->. apply Ht. by destruct Hp as [[_ ?]|[[=] _]].
  - constructor.
  - intros ch Hch. by apply elem_of_nil in Hch.
  - intros ch. rewrite Hk, elem_of_union, elem_of_list_to_set, elem_of_nil. tauto.
  - intros [Hx|Hx]; apply Hcl; [left|by right]. destruct Hp as [[-> ?]|[_ Hp]]; [done|by rewrite Hp].
Qed.

Lemma start_refresh_inv l :
  at_phase l = Loop ->
  refreshing l = match refreshDone l with Some false => 1 | _ => 0 end ->
  revalidating l = match revalidateDone l with Some _ => 1 | None => 0 end ->
  (timer l = true <-> revalidateDone l = None) -> NoDup (waiting l) ->
  (forall ch, ch ∈ waiting l -> ch ∉ closed l) ->
  (forall ch, ch ∈ requested l <-> ch ∈ waiting l \/ ch ∈ closed l) ->
  (closers l <> 0 -> closeReq l = true) -> loop_inv (start_refresh l).
Proof.
  intros Hp Hr Hv Ht Hnd Ho Hk Hcl. unfold start_refresh.
  destruct (refreshDone l) as [b|] eqn:Hd; constructor; simpl; rewrite ?Hp, ?Hd; try done;
    try congruence; try (by intros [|]); (intros [Hx|Hx]; [done|by apply Hcl]).
Qed.

(** A step of the loop, unless it is a second call of [close]. *)
Lemma loop_step_inv l o :
  loop_inv l -> loop_step l o ->
  (exists l', o = Ok l' /\ loop_inv l') \/ (closeReq l = true /\ o = Panic CloseOfClosedChannel).
Proof.
  intros Hinv Hs. pose proof Hinv as [Hr Hv Ht Hnd Ho Hk Hsv He Hcl].
  destruct Hs as [Hp|ch Hp Hch|Hp Hd|Hp Hti|Hp Hd|Hp Hcr|Hp Hd|Hp Hd|n Hn Hd|n Hn Hd| |n Hp Hn|ch Hcr Hch];
    try (left; eexists; split; [reflexivity|]).
  - apply start_refresh_inv; auto.
  - apply start_refresh_inv; simpl; auto.
    + apply NoDup_app. split_and!; [done| |by apply NoDup_singleton].
      intros x Hx ->%list_elem_of_singleton. apply Hch, Hk. by left.
    + intros x [Hx|Hx%list_elem_of_singleton]%elem_of_app; [by apply Ho|]. subst.
      intros Hc. apply Hch, Hk. by right.
    + intros x. rewrite elem_of_union, elem_of_singleton, Hk, elem_of_app, list_elem_of_singleton. tauto.
  - left. destruct (close_waiting_inv Loop l Hinv) as (l' & -> & Hi & _); [congruence|by left|]. by eexists.
  - constructor; simpl; auto; [|done|by intros [|]|intros [|]; auto].
    rewrite (proj1 (Ht Hp) Hti) in Hv. by rewrite Hv.
  - constructor; simpl; auto; try done; try (by intros [|]); [by rewrite Hv, Hd|intros [|]; auto].
  - constructor; simpl; auto; try done; try (by intros [|]).
  - left. destruct (close_waiting_inv WaitRevalidate l Hinv) as (l' & -> & Hi & _); [done|by right|]. by eexists.
  - constructor; simpl; auto; try done; try (by intros [|]). intros _. apply Hcl. left. by rewrite Hp.
  - constructor; simpl; auto; try done.
    + rewrite Hd in Hr. lia.
    + intros Hx. destruct (He Hx). congruence.
  - constructor; simpl; auto; try done.
    + by rewrite Hv, Hd.
    + intros Hp. specialize (Ht Hp). rewrite Hd in Ht. split; [intros Hx; by apply Ht in Hx|done].
  - unfold call_close_. destruct (closeReq l) eqn:Hcr; [by right|]. left. eexists. split; [reflexivity|]. by constructor.
  - constructor; simpl; auto. intros _. apply Hcl. left. by rewrite Hp.
  - constructor; simpl; auto.
    + intros x Hx. specialize (Ho x Hx). rewrite not_elem_of_union, not_elem_of_singleton. split; [|done].
      intros ->. apply Hch, Hk. by left.
    + intros x. rewrite !elem_of_union, Hk. tauto.
Qed.

Lemma loop_init_inv : loop_inv init_loop.
Proof.
  constructor; simpl; try done; try (by intros [|]); [by apply NoDup_singleton|set_solver].
Qed.

Lemma loop_reach_inv l : rtc loop_ok init_loop l -> loop_inv l.
Proof.
  intros Hr. assert (forall l l', rtc loop_ok l l' -> loop_inv l -> loop_inv l') as Hgen.
  { clear. induction 1 as [|l l1 l2 Hs _ IH]; intros Hi; [done|]. apply IH.
    by destruct (loop_step_inv _ _ Hi Hs) as [(l' & [= <-] & ?)|[_ ?]]. }
  by apply (Hgen _ _ Hr), loop_init_inv.
Qed.

(** at most one refresh and one revalidation run at a time; no step of
    the loop or of its shutdown closes a channel twice, but a second call of
    [close] does; and every channel handed to the loop is still waiting, or
    closed. *)
Theorem Run_exclusive l o :
  rtc loop_ok init_loop l -> loop_step l o ->
  refreshing l <= 1 /\ revalidating l <= 1 /\
  (forall ch, ch ∈ requested l <-> ch ∈ waiting l \/ ch ∈ closed l) /\
  (forall ch, ch ∈ waiting l -> ch ∉ closed l) /\
  ((exists l', o = Ok l') \/ (closeReq l = true /\ o = call_close_ l)).
Proof.
  intros Hr%loop_reach_inv Hs. pose proof (loop_step_inv _ _ Hr Hs) as Ho.
  destruct Hr as [Hf Hv _ _ Hop Hk _ _ _]. split_and!; [| |done|done|].
  3: { destruct Ho as [(l' & -> & _)|[Hc ->]]; [left; by eexists|right]. split; [done|]. unfold call_close_. by rewrite Hc. }
  - rewrite Hf. destruct (refreshDone l) as [[|]|]; lia.
  - rewrite Hv. destruct (revalidateDone l); lia.
Qed.

(** A step from a state of the invariant that does not panic. *)
Lemma loop_ok_inv l l' : loop_inv l -> loop_ok l l' -> rtc loop_ok l l' /\ loop_inv l'.
Proof.
  intros Hi Hs. split; [by apply rtc_once|].
  by destruct (loop_step_inv _ _ Hi Hs) as [(l'' & [= <-] & ?)|[_ [=]]].
Qed.

(** The receive of [refreshDone] that follows in the loop or in the shutdown. *)
Definition next_phase (l : loop) (p : phase) : Prop :=
  p = Loop /\ at_phase l = Loop \/ p = WaitRevalidate /\ at_phase l = WaitRefresh.

(** A refresh that runs can be made to end. *)
Lemma refresh_ends l :
  loop_inv l -> exists l', rtc loop_ok l l' /\ loop_inv l' /\ requested l' = requested l /\
    waiting l' = waiting l /\ closed l' = closed l /\ at_phase l' = at_phase l /\
    closeReq l' = closeReq l /\ refreshDone l' <> Some false /\
    (refreshDone l <> None -> refreshDone l' = Some true).
Proof.
  intros Hi. destruct (refreshDone l) as [[|]|] eqn:Hd.
  1,3: exists l; rewrite ?Hd; by split_and!.
  assert (loop_ok l _) as Hstep
    by (apply (go_refresh_done l 0); [by rewrite (li_refresh _ Hi), Hd|done]).
  destruct (loop_ok_inv _ _ Hi Hstep). eexists. by split_and!.
Qed.

Lemma close_waiting_fields p l l' :
  close_waiting p l = Ok l' ->
  requested l' = requested l /\ closeReq l' = closeReq l /\ at_phase l' = p.
Proof. unfold close_waiting. destruct (close_all _ _); simpl; [|done]. by intros [= <-]. Qed.

(** The loop can serve the channels that wait, as long as there are some. *)
Lemma waiting_served l :
  loop_inv l -> waiting l <> [] ->
  exists l', rtc loop_ok l l' /\ requested l' = requested l /\ forall ch, ch ∈ requested l -> ch ∈ closed l'.
Proof.
  intros Hi Hw.
  assert (exists p, next_phase l p) as [p Hp].
  { pose proof (li_ended _ Hi) as He. unfold next_phase.
    destruct (at_phase l); [by exists Loop; left|by exists WaitRevalidate; right|..];
      (destruct He as [? _]; [tauto|done]). }
  destruct (refresh_ends l Hi) as (l1 & Hr1 & Hi1 & Hq1 & Hw1 & Hc1 & Hp1 & _ & Hn & Hd1).
  assert (refreshDone l1 = Some true) as Hd.
  { apply Hd1, (li_served _ Hi); [|done]. destruct Hp as [[_ ?]|[_ ?]]; tauto. }
  destruct (close_waiting_inv p l1 Hi1 Hn) as (l2 & Heq & _ & _ & Hcl).
  { by rewrite Hp1. }
  destruct (close_waiting_fields _ _ _ Heq) as (Hq2 & _ & _).
  exists l2. split_and!; [|congruence|].
  - eapply rtc_r; [done|]. unfold loop_ok. rewrite <- Heq. destruct Hp as [[-> Hpl]|[-> Hpl]].
    + apply lp_refreshed; congruence.
    + apply lp_end_refresh; congruence.
  - intros ch Hch. rewrite Hcl, Hw1, Hc1, elem_of_union, elem_of_list_to_set. by apply (li_known _ Hi).
Qed.

(** ** The shutdown *)

Lemma close_leaves_loop l :
  loop_inv l -> closeReq l = true -> at_phase l = Loop ->
  exists l', rtc loop_ok l l' /\ loop_inv l' /\ closeReq l' = true /\ at_phase l' = WaitRefresh.
Proof.
  intros Hi Hc Hp. destruct (loop_ok_inv l _ Hi (lp_close l Hp Hc)). eexists. by split_and!.
Qed.

Lemma close_waits_refresh l :
  loop_inv l -> closeReq l = true -> at_phase l = WaitRefresh ->
  exists l', rtc loop_ok l l' /\ loop_inv l' /\ closeReq l' = true /\ at_phase l' = WaitRevalidate.
Proof.
  intros Hi Hc Hp. destruct (refresh_ends l Hi) as (l1 & Hr1 & Hi1 & _ & _ & _ & Hp1 & Hc1 & Hn & _).
  destruct (close_waiting_inv WaitRevalidate l1 Hi1 Hn) as (l2 & Heq & Hi2 & _); [right; by rewrite Hp1|].
  destruct (close_waiting_fields _ _ _ Heq) as (_ & Hc2 & Hp2).
  exists l2. split_and!; [|done|congruence|done].
  eapply rtc_r; [done|]. unfold loop_ok. rewrite <- Heq. apply lp_end_refresh; congruence.
Qed.

Lemma close_waits_revalidate l :
  loop_inv l -> closeReq l = true -> at_phase l = WaitRevalidate ->
  exists l', rtc loop_ok l l' /\ loop_inv l' /\ closeReq l' = true /\ at_phase l' = Closed.
Proof.
  intros Hi Hc Hp.
  assert (exists l1, rtc loop_ok l l1 /\ loop_inv l1 /\ closeReq l1 = true /\ at_phase l1 = WaitRevalidate /\
    revalidateDone l1 <> Some false) as (l1 & Hr1 & Hi1 & Hc1 & Hp1 & Hn).
  { destruct (revalidateDone l) as [[|]|] eqn:Hd.
    1,3: exists l; rewrite ?Hd; by split_and!.
    assert (loop_ok l _) as Hstep
      by (apply (go_revalidate_done l 0); [by rewrite (li_revalidate _ Hi), Hd|done]).
    destruct (loop_ok_inv _ _ Hi Hstep). eexists. by split_and!. }
  destruct (loop_ok_inv l1 _ Hi1 (lp_end_revalidate l1 Hp1 Hn)). eexists. split_and!; [by etrans|done..].
Qed.

(** A table that was told to close can come to its end. *)
Lemma close_ends l :
  loop_inv l -> closeReq l = true ->
  exists l', rtc loop_ok l l' /\ loop_inv l' /\ at_phase l' = Closed.
Proof.
  assert (forall m, loop_inv m -> closeReq m = true -> at_phase m = WaitRefresh ->
    exists m', rtc loop_ok m m' /\ loop_inv m' /\ at_phase m' = Closed) as Hw.
  { intros m Hi Hc Hp. destruct (close_waits_refresh m Hi Hc Hp) as (m1 & ? & Hi1 & Hc1 & Hp1).
    destruct (close_waits_revalidate m1 Hi1 Hc1 Hp1) as (m2 & ? & ? & _ & ?).
    exists m2. split_and!; [by etrans|done..]. }
  intros Hi Hc. destruct (at_phase l) eqn:Hp.
  - destruct (close_leaves_loop l Hi Hc Hp) as (l1 & ? & Hi1 & Hc1 & Hp1).
    destruct (Hw l1 Hi1 Hc1 Hp1) as (l2 & ? & ? & ?). exists l2. split_and!; [by etrans|done..].
  - by apply Hw.
  - destruct (close_waits_revalidate l Hi Hc Hp) as (l1 & ? & ? & _ & ?). by exists l1.
  - by exists l.
Qed.

Lemma closers_return l :
  at_phase l = Closed -> exists l', rtc loop_ok l l' /\ at_phase l' = Closed /\ closers l' = 0.
Proof.
  remember (closers l) as n eqn:Hn. revert l Hn. induction n as [|n IH]; intros l Hn Hp; [by exists l|].
  destruct (IH (set_close (closeReq l) n l) eq_refl Hp) as (l' & Hr & Hp' & H0).
  exists l'. split_and!; [|done..]. eapply rtc_l; [|done]. by apply lp_closed.
Qed.

Lemma requested_mono l l' : rtc loop_ok l l' -> requested l ⊆ requested l'.
Proof.
  induction 1 as [|l l1 l2 Hs _ IH]; [done|]. etrans; [|exact IH]. clear l2 IH. unfold loop_ok in Hs.
  inversion Hs as [Hp|ch Hp Hch|Hp Hd Heq|Hp Hti|Hp Hd|Hp Hcr|Hp Hd Heq|Hp Hd|n Hn Hd|n Hn Hd|Heq|n Hp Hn|ch Hcr Hch];
    subst; simpl; try done; try set_solver.
  - unfold start_refresh. by destruct (refreshDone l).
  - unfold start_refresh. destruct (refreshDone (add_waiting ch l)); simpl; set_solver.
  - by destruct (close_waiting_fields _ _ _ Heq) as (-> & _).
  - by destruct (close_waiting_fields _ _ _ Heq) as (-> & _).
  - revert Heq. unfold call_close_. destruct (closeReq l); [done|]. by intros [= <-].
Qed.


Lemma Run_exclusive_witness : exists l', loop_step init_loop (Ok l') /\ refreshing init_loop <= 1.
Proof.
  eexists. split; [by apply lp_tick|].
  exact (proj1 (Run_exclusive init_loop _ (rtc_refl _ _) (lp_tick init_loop eq_refl))).
Defined.

