(* ===== verification/Refresh.v ===== *)
(** * crawler/net/discovery/table: refreshing the table

    [doRefresh] loads the seeds and looks nodes up through the table's
    transport, an interface that the packet handler implements.  A refresh
    fills an empty table as soon as there is one usable seed. *)

From stdpp Require Import base list gmap.
From Stdlib Require Import ZArith Lia Permutation.
From S2P Require Import Prelude Golang Procs External Instances Nodes NodesFacts.
From S2P Require Import Table TableInv TableBucket TableOps TableSys TableProps.
Local Open Scope Z_scope.

(** ** The table's transport *)

(** What [doRefresh] calls of the interface [transport], on a state [St] that
    the table is a part of.  The results of the lookups are dropped. *)
Class Transport (St World : Type) := {
  tr_LookupSelf : World -> proc St ();
  tr_LookupRandom : World -> proc St () }.

Class TransportLaws {St World} (T : Transport St World) (I : St -> Prop) (fair : World -> Prop) : Prop := {
  law_LookupSelf w : fair w -> preserves I (tr_LookupSelf w);
  law_LookupRandom w : fair w -> preserves I (tr_LookupRandom w) }.

Section Refresh.
Context `{EL : EnodeLaws} `{NL : NetUtilLaws} `{D : NodeDB (E := E)}.
Variable Self : enode.
Context {St World : Type} {T : Transport St World} (table : St -> Table) (set_table : Table -> St -> St).
Hypothesis table_set : forall t s, table (set_table t s) = t.

(** A method of the table, called with the mutex held. *)
Definition on_table (f : Table -> outcome Table) : proc St () :=
  s ← get;
  match f (table s) with Ok t => modify (set_table t) | Panic w => crash w end.

Fixpoint lookups (ws : list World) : proc St () :=
  match ws with [] => mret tt | w :: ws' => tr_LookupRandom w;; lookups ws' end.

(** The self lookup, then three random ones. *)
Definition doRefresh_lookups (w0 w1 w2 w3 : World) : proc St () := tr_LookupSelf w0;; lookups [w1; w2; w3].

Definition doRefresh (now : Z) (qrnd : nat) (w0 w1 w2 w3 : World) : proc St () :=
  on_table (loadSeedNodes Self now qrnd);;
  doRefresh_lookups w0 w1 w2 w3.

(** ** An empty table *)

Section Empty.
Variables (tl bl : Z) (tf bf : IP -> netkey).
Abbreviation tinv := (tinv Self tl bl tf bf).

(** A bucket without entries has no replacements, so nothing is counted. *)
Lemma empty_all_nodes t : tinv t -> all_entries t = [] -> all_nodes t = [].
Proof.
  intros Hinv He. unfold all_nodes, all_entries in *.
  apply concat_nil_Forall, Forall_fmap, Forall_lookup. intros i b Hb.
  assert (entries b = []) as Heb.
  { apply concat_nil_Forall in He. rewrite Forall_fmap, Forall_lookup in He. by apply (He i b). }
  destruct (sh_full _ _ _ (ti_shape _ _ _ _ _ _ Hinv _ _ Hb)) as [Hr|Hf]; simpl; unfold nodes_of.
  - by rewrite Heb, Hr.
  - rewrite Heb in Hf. simpl in Hf. unfold bucketSize in Hf. lia.
Qed.

(** A node that a table with room accepts. *)
Definition usable (n : Node) : Prop := Node_ID n <> enode_ID Self /\ Node_IP n <> [].

Lemma AddSeenNode_empty now t n :
  0 < tl -> 0 < bl -> tinv t -> all_entries t = [] -> usable n ->
  exists t', AddSeenNode Self now t n = Ok t' /\ tinv t' /\ n ∈ all_entries t'.
Proof.
  intros Htl Hbl Hinv He [Hid Hip].
  destruct (tinv_bucket Self tl bl tf bf t (Node_ID n) Hinv) as (i & b & Hi & Hb & Hg).
  destruct (hookNode_fields t n Seen) as (Hfb & Hft & _).
  set (t0 := hookNode t n Seen) in *. assert (tinv t0) as Hinv0 by by apply hookNode_inv.
  assert (all_nodes t0 = []) as Hnil
    by (unfold all_nodes; rewrite Hfb; by apply empty_all_nodes).
  assert (buckets t0 !! i = Some b) as Hb0 by (by rewrite Hfb).
  pose proof (all_nodes_split t0 _ _ Hb0) as Hsplit. rewrite Hnil in Hsplit.
  apply Permutation_nil, app_eq_nil in Hsplit as [Hnb Ho].
  assert (entries b = []) as Heb by (unfold nodes_of in Hnb; by apply app_eq_nil in Hnb as [? _]).
  pose proof (tinv_binv _ _ _ _ _ _ _ _ Hinv0 Hb0) as [_ Ht]. rewrite Hnb, Ho in Ht. simpl in Ht.
  destruct (addIP (tips t0) b (Node_IP n)) as [[s1 b1] ok] eqn:Hadd.
  assert (ok = true) as ->.
  { pose proof (proj2 (addIP_ok_iff tl bl tf bf _ _ (Node_IP n) _ _ Ht)) as Hok.
    rewrite Hadd in Hok. simpl in Hok. apply Hok. split; [done|]. right. by split. }
  destruct (seen_append Self tl bl tf bf now n i b t0 s1 b1 Hinv0 Hb0) as (b' & added & Hinv' & Hbs & Heff & _).
  - rewrite Heb. simpl. unfold bucketSize. lia.
  - rewrite Heb. apply not_elem_of_nil.
  - by split.
  - done.
  - eexists. split; [|split; [exact Hinv'|]].
    + unfold AddSeenNode. rewrite decide_False, Hi by done. simpl. fold t0.
      unfold get_bucket in *. rewrite Hb0. simpl. rewrite Heb. simpl. by rewrite Hadd.
    + apply all_entries_elem.
      exists i, (mkBucket (entries b1 ++ [n]) (deleteNode (replacements b1) n) (bips b1)).
      split; [|apply elem_of_snoc]. rewrite (proj1 (hookNode_fields _ n Added)). apply list_lookup_insert_eq. by eapply lookup_lt_Some.
Qed.

(** Once a table has an entry it keeps it. *)
Lemma keeps_entries_all t t' n : keeps_entries t t' -> n ∈ all_entries t -> n ∈ all_entries t'.
Proof.
  intros Hk (i & b & Hb & Hn)%all_entries_elem. destruct (Hk _ _ Hb) as (b' & Hb' & Hs).
  apply all_entries_elem. exists i, b'. split; [done|by apply Hs].
Qed.

(** Adding nodes of which one is usable leaves no table empty. *)
Lemma AddSeenNodes_fill now ns t :
  0 < tl -> 0 < bl -> tinv t -> Exists usable ns ->
  exists t', AddSeenNodes Self now t ns = Ok t' /\ tinv t' /\ all_entries t' <> [].
Proof.
  intros Htl Hbl Hinv Hex. revert t Hinv. induction Hex as [n ns Hn|n ns Hex IH]; intros t Hinv; simpl.
  - assert (exists t1, AddSeenNode Self now t n = Ok t1 /\ tinv t1 /\ exists m, m ∈ all_entries t1)
      as (t1 & -> & Hinv1 & m & Hm).
    { destruct (all_entries t) as [|m l] eqn:He.
      - destruct (AddSeenNode_empty now t n Htl Hbl Hinv He Hn) as (t1 & ? & ? & ?). eauto.
      - destruct (AddSeenNode_inv Self tl bl tf bf now t n Hinv) as (t1 & ? & ? & Hk & _).
        exists t1. split_and!; [done..|]. exists m. eapply keeps_entries_all; [exact Hk|]. rewrite He. by left. }
    simpl. destruct (AddSeenNodes_inv Self tl bl tf bf now ns t1 Hinv1) as (t2 & -> & Hinv2 & Hk & _).
    exists t2. split_and!; [done..|]. intros Hnil.
    eapply not_elem_of_nil. rewrite <- Hnil. by eapply keeps_entries_all.
  - destruct (AddSeenNode_inv Self tl bl tf bf now t n Hinv) as (t1 & -> & Hinv1 & _). by apply IH.
Qed.

End Empty.

(** ** A refresh *)

(** The nodes [loadSeedNodes] offers to the table: the database's, wrapped,
    and the bootstrap nodes. *)
Definition seeds (now : Z) (qrnd : nat) (t : Table) : list Node :=
  (WrapNodes (hp t) (QuerySeeds (db t) now qrnd seedCount seedMaxAge)).2 ++ nursery t.

Section Spec.
Context {lim : limits} {fair : World -> Prop}
  {TL : TransportLaws T (fun s => table_inv Self lim (table s)) fair}.

Lemma lookups_preserve ws :
  Forall fair ws -> preserves (fun s => table_inv Self lim (table s)) (lookups ws).
Proof.
  induction 1 as [|w ws Hw _ IH]; cbn [lookups]; [apply preserves_ret|].
  apply preserves_bind; [by apply law_LookupRandom|done].
Qed.

(** C21: a refresh on a table that keeps its invariant, through any transport
    that keeps it, does not panic, and the invariant holds when it ends.  If
    one of the seeds is usable, and addresses have a limit of one or more,
    then the table has entries when the lookups begin, even if it had none. *)
Theorem doRefresh_bootstraps now qrnd w0 w1 w2 w3 s :
  table_inv Self lim (table s) -> Forall fair [w0; w1; w2; w3] ->
  wp (doRefresh now qrnd w0 w1 w2 w3) (fun s' _ => table_inv Self lim (table s')) s /\
  (0 < tableIPLimit lim -> 0 < bucketIPLimit lim -> Exists usable (seeds now qrnd (table s)) ->
   exists t, doRefresh now qrnd w0 w1 w2 w3 s = doRefresh_lookups w0 w1 w2 w3 (set_table t s) /\
     loadSeedNodes Self now qrnd (table s) = Ok t /\ all_entries t <> []).
Proof.
  intros Hinv Hf. apply Forall_cons in Hf as [Hf0 Hf].
  assert (forall t, loadSeedNodes Self now qrnd (table s) = Ok t ->
    doRefresh now qrnd w0 w1 w2 w3 s = doRefresh_lookups w0 w1 w2 w3 (set_table t s)) as Hrun.
  { intros t Ht. unfold doRefresh, on_table, get, mbind, proc_bind at 1 2. by rewrite Ht. }
  split.
  - destruct (loadSeedNodes_inv Self _ _ _ _ now qrnd (table s) Hinv) as (t & Ht & Hti & _).
    assert (preserves (fun s => table_inv Self lim (table s)) (doRefresh_lookups w0 w1 w2 w3)) as Hp
      by (apply preserves_bind; [by apply law_LookupSelf|intros _; by apply lookups_preserve]).
    specialize (Hp (set_table t s)). cbn beta in Hp. rewrite table_set in Hp. unfold wp in *. rewrite (Hrun t Ht). by apply Hp.
  - intros Htl Hbl Hex. unfold seeds, loadSeedNodes in *.
    destruct (WrapNodes (hp (table s)) _) as [h ns]. simpl in Hex.
    destruct (AddSeenNodes_fill (tableIPLimit lim) (bucketIPLimit lim) (table_net lim) (bucket_net lim) now (ns ++ nursery (table s)) (set_hp (table s) h) Htl Hbl) as (t & Ht & _ & Hn).
    + by apply (tinv_ext Self _ _ _ _ (table s)).
    + done.
    + exists t. split_and!; [|done|done]. by apply Hrun.
Qed.

End Spec.

End Refresh.

(** ** A concrete refresh, with a transport that finds nobody *)

Module Demo.

#[export] Instance silent : Transport Table () :=
  {| tr_LookupSelf _ := mret tt; tr_LookupRandom _ := mret tt |}.

#[export] Instance silent_laws I : TransportLaws silent I (fun _ => True).
Proof. by constructor; intros; apply preserves_ret. Qed.

(** A table without entries, and a bootstrap node. *)
Definition bootnode : Node := mkNode 0 (TableProps.Demo.peer 1).
Definition bare : Table :=
  mkTable (replicate (Z.to_nat nBuckets) (mkBucket [] [] (newNetSet 24 2))) [bootnode] (newNetSet 24 10)
    empty_db (mkHeap 1 ∅) false true [].

Lemma bare_inv : table_inv TableProps.Demo.self default_limits bare.
Proof.
  destruct (NewTable_inv TableProps.Demo.self default_limits 0 0 empty_db [] false true) as ([t|] & Heq & Hr).
  - destruct Hr as [_ Hr]. injection Heq as <-. eapply tinv_ext; [| |exact Hr]; reflexivity.
  - discriminate Hr.
Qed.

Lemma doRefresh_bootstraps_witness :
  all_entries bare = [] /\
  exists t : Table, loadSeedNodes TableProps.Demo.self (11 * Hour) 0 bare = Ok t /\ all_entries t <> [].
Proof.
  split; [reflexivity|].
  destruct (doRefresh_bootstraps (lim := default_limits) TableProps.Demo.self (fun t => t) (fun t _ => t)
    (fun t s => eq_refl) (11 * Hour) 0%nat tt tt tt tt bare bare_inv ltac:(repeat constructor)) as [_ H].
  destruct H as (t & _ & Ht & Hn); [reflexivity|reflexivity| |exists t; split; [exact Ht|exact Hn]].
  apply Exists_exists. exists bootnode. split; [by left|split; discriminate].
Defined.

End Demo.
