(* ===== verification/Query.v ===== *)
(** * crawler/net/discovery/query.go: the lookup

    One round of a lookup queries nodes concurrently: the calling goroutine
    hands out [alpha] slots and each query runs in a goroutine of its own.
    A round is a transition system over the caller's position, the slots
    channel and the running goroutines; [Run] is a sequence of rounds.
    Replies of the network and the context's cancellation are choices of the
    step relation. *)

From stdpp Require Import base list gmap relations.
From Stdlib Require Import ZArith Lia Permutation.
From S2P Require Import Prelude Golang External Nodes NodesFacts.
Open Scope Z_scope.

Section Query.
Context `{E : Enode}.

(** ** queryBuffer *)

Definition known (buf : list enode) (n : enode) : bool :=
  existsb (fun c => bool_decide (enode_ID c = enode_ID n)) buf.

(** The buffer afterwards and the number of nodes added. *)
Fixpoint append (buf : list enode) (nodes : list enode) : list enode * nat :=
  match nodes with
  | [] => (buf, 0%nat)
  | n :: ns =>
      if known buf n then append buf ns
      else let '(buf', added) := append (buf ++ [n]) ns in (buf', S added)
  end.

Definition peek (buf : list enode) : list enode := buf.
Definition slide (buf : list enode) : list enode := [].

(** ** lookup *)

(** [trace] and [answers] record the calls of [query] and the node lists the
    successful ones returned; [lhp] holds the nodes [WrapNode] allocates. *)
Record lookup := mkLookup {
  asked : gset ID;
  seen : gset ID;
  buffer : list enode;
  result : NodesByDistance;
  depth : Z;
  wants : Z;
  alpha : Z;
  lhp : heap;
  trace : list enode;
  answers : list enode }.

Definition set_asked (it : lookup) a :=
  mkLookup a (seen it) (buffer it) (result it) (depth it) (wants it) (alpha it) (lhp it) (trace it) (answers it).
Definition set_buffer (it : lookup) b :=
  mkLookup (asked it) (seen it) b (result it) (depth it) (wants it) (alpha it) (lhp it) (trace it) (answers it).
Definition set_depth (it : lookup) d :=
  mkLookup (asked it) (seen it) (buffer it) (result it) d (wants it) (alpha it) (lhp it) (trace it) (answers it).
Definition set_trace (it : lookup) t :=
  mkLookup (asked it) (seen it) (buffer it) (result it) (depth it) (wants it) (alpha it) (lhp it) t (answers it).
Definition set_answers (it : lookup) a :=
  mkLookup (asked it) (seen it) (buffer it) (result it) (depth it) (wants it) (alpha it) (lhp it) (trace it) a.

(** Marking a node seen and pushing it into the result. *)
Definition push_seen (it : lookup) (n : enode) : lookup :=
  let '(h, x) := WrapNode (lhp it) n in
  mkLookup (asked it) ({[enode_ID n]} ∪ seen it) (buffer it) (Push (result it) x (wants it))
    (depth it) (wants it) (alpha it) h (trace it) (answers it).

Definition newLookup (seedNodes : list enode) (target : ID) (depth wants alpha : Z) : lookup :=
  fold_left push_seen seedNodes
    (mkLookup ∅ ∅ [] (mkNBD [] target) depth wants alpha (mkHeap 0 ∅) [] []).

Definition Result (it : lookup) : list enode := Enodes (result it).

Definition canAsk (it : lookup) (n : enode) : lookup * bool :=
  if decide (enode_ID n ∈ asked it) then (it, false)
  else (set_asked it ({[enode_ID n]} ∪ asked it), true).

(** The body of [Run]'s loop after a successful round. *)
Definition absorb (it : lookup) : lookup :=
  let it' := fold_left (fun it n => if decide (enode_ID n ∈ seen it) then it else push_seen it n)
               (peek (buffer it)) it in
  set_buffer it' (slide (buffer it')).

(** ** One round: [queryNewNodes] *)

(** Where the caller is: at the head of the loop, receiving a slot for a
    node, past the receive, in [wg.Wait], returned. *)
Inductive pc : Type :=
| PcLoop | PcRecv (n : enode) | PcCheck (n : enode) | PcWait | PcRet (b : bool).

(** Where a query's goroutine is: in [query], about to give back its slot,
    about to count its success, about to close the channel. *)
Inductive go : Type :=
| GQuery (n : enode) | GSend | GAdd | GClose.

Record round := mkRound {
  look : lookup;
  rest : list enode;
  at_ : pc;
  slots : nat;
  closed : bool;
  done : Z;
  gos : list go }.

Definition set_look (r : round) it := mkRound it (rest r) (at_ r) (slots r) (closed r) (done r) (gos r).

Inductive round_step : round -> outcome round -> Prop :=
| st_end it s c d g :
    round_step (mkRound it [] PcLoop s c d g) (Ok (mkRound it [] PcWait s c d g))
| st_skip it it' n ns s c d g :
    canAsk it n = (it', false) ->
    round_step (mkRound it (n :: ns) PcLoop s c d g) (Ok (mkRound it' ns PcLoop s c d g))
| st_ask it it' n ns s c d g :
    canAsk it n = (it', true) ->
    round_step (mkRound it (n :: ns) PcLoop s c d g) (Ok (mkRound it' ns (PcRecv n) s c d g))
| st_recv it n ns s c d g :
    round_step (mkRound it ns (PcRecv n) (S s) c d g) (Ok (mkRound it ns (PcCheck n) s c d g))
| st_recv_closed it n ns d g :
    round_step (mkRound it ns (PcRecv n) 0 true d g) (Ok (mkRound it ns (PcCheck n) 0 true d g))
| st_cancelled it n ns s c d g :
    round_step (mkRound it ns (PcRecv n) s c d g) (Ok (mkRound it ns (PcRet false) s c d g))
| st_full it n ns s c d g :
    d = u32 (alpha it) ->
    round_step (mkRound it ns (PcCheck n) s c d g) (Ok (mkRound it ns PcWait s c d g))
| st_go it n ns s c d g :
    d <> u32 (alpha it) ->
    round_step (mkRound it ns (PcCheck n) s c d g)
      (Ok (mkRound (set_trace it (trace it ++ [n])) ns PcLoop s c d (g ++ [GQuery n])))
| st_wait it ns s c d :
    round_step (mkRound it ns PcWait s c d [])
      (Ok (mkRound it ns (PcRet (negb (bool_decide (d = 0)))) s c d []))
| st_error it ns p s c d g1 n g2 :
    round_step (mkRound it ns p s c d (g1 ++ GQuery n :: g2))
      (Ok (mkRound it ns p s c d (g1 ++ GSend :: g2)))
| st_reply it ns p s c d g1 n g2 nodes b added :
    append (buffer it) nodes = (b, added) ->
    round_step (mkRound it ns p s c d (g1 ++ GQuery n :: g2))
      (Ok (mkRound (set_answers (set_buffer it b) (answers it ++ nodes)) ns p s c d
             (g1 ++ (if decide (0 < added)%nat then GAdd else GSend) :: g2)))
| st_send it ns p s d g1 g2 :
    Z.of_nat s < alpha it ->
    round_step (mkRound it ns p s false d (g1 ++ GSend :: g2))
      (Ok (mkRound it ns p (S s) false d (g1 ++ g2)))
| st_send_closed it ns p s d g1 g2 :
    round_step (mkRound it ns p s true d (g1 ++ GSend :: g2)) (Panic SendOnClosedChannel)
| st_add it ns p s c d g1 g2 :
    round_step (mkRound it ns p s c d (g1 ++ GAdd :: g2))
      (Ok (mkRound it ns p s c (u32 (d + 1))
             (g1 ++ (if decide (u32 (d + 1) = u32 (alpha it)) then [GClose] else []) ++ g2)))
| st_close it ns p s d g1 g2 :
    round_step (mkRound it ns p s false d (g1 ++ GClose :: g2))
      (Ok (mkRound it ns p s true d (g1 ++ g2)))
| st_close_closed it ns p s d g1 g2 :
    round_step (mkRound it ns p s true d (g1 ++ GClose :: g2)) (Panic CloseOfClosedChannel).

Definition round_ok (r r' : round) : Prop := round_step r (Ok r').

(** The round's first state: [buffer] is the list of nodes to ask. *)
Definition round_init (it : lookup) (nodes : list enode) : round :=
  mkRound (set_depth it (depth it - 1)) nodes PcLoop (Z.to_nat (alpha it)) false 0 [].

(** What [queryNewNodes] returns, and the lookup at that moment. *)
Inductive queryNewNodes (it : lookup) : bool -> lookup -> Prop :=
| query_depth : depth it = 0 -> queryNewNodes it false it
| query_round r b :
    depth it <> 0 -> rtc round_ok (round_init it (Enodes (result it))) r -> at_ r = PcRet b ->
    queryNewNodes it b (look r).

(** [Run]; the number counts its successful rounds. *)
Inductive Run : lookup -> nat -> lookup -> Prop :=
| run_stop it it' : queryNewNodes it false it' -> Run it 0 it'
| run_more it it1 k it' :
    queryNewNodes it true it1 -> Run (absorb it1) k it' -> Run it (S k) it'.

End Query.
