(* ===== verification/QueryProps.v ===== *)
(** * What a lookup guarantees

    The slot accounting that keeps the channel of a round safe, the
    termination of rounds, and the result of [Run]. *)

From stdpp Require Import base list gmap relations.
From Stdlib Require Import ZArith Lia Permutation.
From S2P Require Import Prelude Golang External Instances Nodes NodesFacts Query.
Open Scope Z_scope.

Section Facts.
Context `{EL : EnodeLaws}.

(** ** Slots *)

Definition holding (p : pc) : Z := match p with PcCheck _ => 1 | _ => 0 end.

Definition is_close (g : go) : bool := match g with GClose => true | _ => false end.

(** Every slot is in the channel, held by the caller, owned by a running
    query, or counted as done; the channel is closed once all are done. *)
Inductive slots_inv (a : Z) (r : round) : Prop :=
| inv_open :
    closed r = false -> Forall (fun g => is_close g = false) (gos r) -> 0 <= done r < a ->
    Z.of_nat (slots r) + Z.of_nat (length (gos r)) + done r + holding (at_ r) = a ->
    slots_inv a r
| inv_closing :
    closed r = false -> gos r = [GClose] -> done r = a -> slots r = 0%nat ->
    holding (at_ r) = 0 -> slots_inv a r
| inv_closed :
    closed r = true -> gos r = [] -> done r = a -> slots r = 0%nat -> slots_inv a r.

Lemma step_alpha r r' : round_ok r r' -> alpha (look r') = alpha (look r).
Proof.
  inversion 1; subst; simpl; try done;
    match goal with H : canAsk _ _ = _ |- _ => revert H end;
    unfold canAsk; case_decide; intros [=]; subst; done.
Qed.

Lemma is_close_app (g1 g2 : list go) g :
  Forall (fun g => is_close g = false) (g1 ++ g :: g2) ->
  is_close g = false /\ Forall (fun g => is_close g = false) (g1 ++ g2).
Proof. rewrite !Forall_app, Forall_cons. tauto. Qed.

Lemma is_close_insert (g1 g2 : list go) g :
  is_close g = false -> Forall (fun g => is_close g = false) (g1 ++ g2) ->
  Forall (fun g => is_close g = false) (g1 ++ g :: g2).
Proof. rewrite !Forall_app, Forall_cons. tauto. Qed.

Lemma one_close (g1 g2 : list go) g : g1 ++ g :: g2 = [GClose] -> g1 = [] /\ g2 = [] /\ g = GClose.
Proof. destruct g1 as [|x g1]; [|destruct g1]; intros [=]; subst; done. Qed.

Lemma no_go {A} (g1 g2 : list A) g : g1 ++ g :: g2 = [] -> False.
Proof. by destruct g1. Qed.

Lemma slots_step a r r' :
  a = alpha (look r) -> 0 < a < 2 ^ 32 ->
  slots_inv a r -> round_ok r r' -> slots_inv a r'.
Proof.
  intros Ha Hb Hinv Hs. assert (u32 a = a) as Hu by (apply wrap_u_small; lia).
  inversion Hs; subst; clear Hs;
    destruct Hinv as [Hc Hg Hd Hsum|Hc Hg Hd Hn Hh|Hc Hg Hd Hn]; simpl in *; subst;
    rewrite ?Hu in *; try done;
    try (by (apply inv_open + apply inv_closing + apply inv_closed); simpl; try done; lia);
    try (by apply one_close in Hg as (? & ? & [=])); try (by apply no_go in Hg).
  all: rewrite ?length_app in *; simpl in *.
  - apply inv_open; simpl; [done| |done|rewrite length_app; simpl; lia].
    apply Forall_app. split; [done|]. by repeat constructor.
  - apply is_close_app in Hg as [_ Hg].
    apply inv_open; simpl; [done|by apply is_close_insert|done|rewrite length_app; simpl; lia].
  - apply is_close_app in Hg as [_ Hg].
    apply inv_open; simpl; [done| |done|rewrite length_app; simpl; lia].
    apply is_close_insert; [by case_decide|done].
  - apply is_close_app in Hg as [_ Hg].
    apply inv_open; simpl; [done..|rewrite length_app; lia].
  - apply is_close_app in Hg as [_ Hg].
    assert (u32 (d + 1) = d + 1) as -> by (apply wrap_u_small; lia). case_decide as Hlast.
    + assert (0 <= holding p) by (destruct p; simpl; lia).
      destruct g1; [|simpl in Hsum; lia]. destruct g2; [|simpl in Hsum; lia].
      apply inv_closing; simpl in *; try done; destruct p; simpl in *; lia.
    + apply inv_open; simpl; [done|done|lia|rewrite length_app; lia].
  - by apply is_close_app in Hg as [[=] _].
  - apply one_close in Hg as (-> & -> & _). by apply inv_closed.
Qed.

(** A goroutine can always take its next step. *)
Lemma go_progress a r :
  a = alpha (look r) -> slots_inv a r -> gos r <> [] -> exists r', round_ok r r'.
Proof.
  intros Ha Hinv Hg. destruct r as [it ns p s c d g]; simpl in *.
  destruct Hinv as [Hc Hall Hd Hsum|Hc Hg' Hd Hn Hh|Hc Hg' Hd Hn]; simpl in *; subst; [| |done].
  - destruct g as [|x g]; [done|]. apply Forall_cons in Hall as [Hx _]. simpl in Hsum.
    destruct x; [| | |done].
    + eexists. apply (st_error it ns p s false d []).
    + eexists. apply (st_send it ns p s d []). destruct p; simpl in *; lia.
    + eexists. apply (st_add it ns p s false d []).
  - eexists. apply (st_close it ns p 0 _ [] []).
Qed.

Lemma round_progress a r :
  a = alpha (look r) -> 0 < a -> slots_inv a r -> (forall b, at_ r <> PcRet b) ->
  exists r', round_ok r r'.
Proof.
  intros Ha Hpos Hinv Hret. destruct (decide (gos r = [])) as [Hg|Hg]; [|by eapply go_progress].
  destruct r as [it ns p s c d g]; simpl in *. subst g. destruct p as [|n|n| |b].
  - destruct ns as [|n ns]; [eexists; apply st_end|].
    destruct (canAsk it n) as [it' [|]] eqn:Hask; eexists; [by eapply st_ask|by eapply st_skip].
  - destruct s as [|s]; [|eexists; apply st_recv].
    destruct c; [eexists; apply st_recv_closed|].
    destruct Hinv as [_ _ Hd Hsum|_ Hg' _ _ _|Hc _ _ _]; simpl in *; [lia|done|done].
  - destruct (decide (d = u32 (alpha it))); eexists; [by apply st_full|by apply st_go].
  - eexists. apply st_wait.
  - by destruct (Hret b).
Qed.

(** Every step makes the round smaller. *)
Definition pc_weight (p : pc) : nat :=
  match p with PcLoop => 2 | PcRecv _ => 7 | PcCheck _ => 6 | PcWait => 1 | PcRet _ => 0 end.
Definition go_weight (g : go) : nat :=
  match g with GQuery _ => 3 | GSend => 1 | GAdd => 2 | GClose => 1 end.
Definition round_measure (r : round) : nat :=
  (8 * length (rest r) + pc_weight (at_ r) + sum_list (map go_weight (gos r)))%nat.

Lemma sum_list_app l1 l2 : sum_list (l1 ++ l2) = (sum_list l1 + sum_list l2)%nat.
Proof. induction l1; simpl; lia. Qed.

Lemma round_step_measure r r' : round_ok r r' -> (round_measure r' < round_measure r)%nat.
Proof.
  inversion 1; subst; unfold round_measure; simpl;
    repeat (rewrite ?map_app, ?sum_list_app; simpl); try case_decide; simpl; lia.
Qed.

Lemma round_returns a r :
  a = alpha (look r) -> 0 < a < 2 ^ 32 -> slots_inv a r ->
  exists r' b, rtc round_ok r r' /\ at_ r' = PcRet b.
Proof.
  remember (round_measure r) as m eqn:Hm. revert r Hm.
  induction m as [m IH] using lt_wf_ind. intros r -> Ha Hb Hinv.
  assert ((exists b, at_ r = PcRet b) \/ forall b, at_ r <> PcRet b) as [[b Hr]|Hr]
    by (destruct (at_ r); [by right..|by left; eexists]).
  { by exists r, b. }
  destruct (round_progress a r) as (r1 & Hs); [done|lia|done|done|].
  pose proof (round_step_measure _ _ Hs) as Hlt. pose proof (step_alpha _ _ Hs) as Hal.
  destruct (IH _ Hlt r1 eq_refl) as (r' & b & Hr' & Hret);
    [congruence|done|by eapply slots_step|].
  exists r', b. split; [by eapply rtc_l|done].
Qed.

Lemma init_inv it ns :
  0 < alpha it -> slots_inv (alpha it) (round_init it ns).
Proof. intros H. apply inv_open; simpl; try done; lia. Qed.

Lemma round_reach a r r' :
  a = alpha (look r) -> 0 < a < 2 ^ 32 -> slots_inv a r -> rtc round_ok r r' ->
  slots_inv a r' /\ a = alpha (look r').
Proof.
  intros Ha Hb Hinv Hr. induction Hr as [|r r1 r' Hs Hr IH]; [done|].
  apply IH; [by rewrite (step_alpha _ _ Hs)|by eapply slots_step].
Qed.

(** ** Nodes asked and queried *)

(** The steps of a round leave the result and the seen nodes alone. *)
Definition same_core (it it' : lookup) : Prop :=
  seen it' = seen it /\ result it' = result it /\ depth it' = depth it /\
  wants it' = wants it /\ alpha it' = alpha it.

Lemma step_core r r' : round_ok r r' -> same_core (look r) (look r').
Proof.
  inversion 1; subst; try done;
    match goal with H : canAsk _ _ = _ |- _ => revert H end;
    unfold canAsk; case_decide; intros [=]; subst; done.
Qed.

Definition ids (ns : list enode) : list ID := map enode_ID ns.

(** The nodes the caller is about to query. *)
Definition about (p : pc) : list enode :=
  match p with PcRecv n | PcCheck n => [n] | _ => [] end.

(** Nothing is queried twice, nothing is queried without being marked, and
    the buffer has distinct nodes the network answered with. *)
Record asking (it : lookup) (p : list enode) : Prop := {
  as_nodup : NoDup (ids (trace it ++ p));
  as_marked : forall n, n ∈ trace it ++ p -> enode_ID n ∈ asked it;
  as_buffer : NoDup (ids (buffer it));
  as_answers : buffer it ⊆ answers it }.

Lemma known_spec buf n : known buf n = true <-> enode_ID n ∈ ids buf.
Proof.
  unfold known, ids. rewrite existsb_exists. setoid_rewrite bool_decide_eq_true.
  setoid_rewrite <- list_elem_of_In. change (map enode_ID buf) with (enode_ID <$> buf).
  rewrite list_elem_of_fmap. split; intros (c & ? & ?); exists c; done.
Qed.

Lemma ids_app l1 l2 : ids (l1 ++ l2) = ids l1 ++ ids l2.
Proof. apply map_app. Qed.

(** [append] adds the new identities, in order, each once. *)
Lemma append_spec buf nodes b added :
  append buf nodes = (b, added) ->
  exists new, b = buf ++ new /\ added = length new /\ new ⊆ nodes /\
    (NoDup (ids buf) -> NoDup (ids b)) /\ ids nodes ⊆ ids b.
Proof.
  revert buf b added. induction nodes as [|n ns IH]; intros buf b added; simpl.
  { intros [= <- <-]. exists []. rewrite app_nil_r. split_and!; set_solver. }
  destruct (known buf n) eqn:Hk.
  - intros H. apply known_spec in Hk. destruct (IH _ _ _ H) as (new & -> & -> & Hs & Hn & Hi).
    exists new. split_and!; [done..|set_solver|done|]. unfold ids at 1. simpl.
    rewrite ids_app in *. set_solver.
  - destruct (append (buf ++ [n]) ns) as [b' k] eqn:Ha. intros [= <- <-].
    destruct (IH _ _ _ Ha) as (new & -> & -> & Hs & Hn & Hi).
    exists (n :: new). rewrite <- app_assoc. split_and!; [done..|set_solver| |].
    + intros Hnd. rewrite <- app_assoc in Hn. apply Hn. rewrite ids_app. apply NoDup_app.
      split_and!; [done| |by apply NoDup_singleton]. intros x Hx Hx'.
      apply list_elem_of_singleton in Hx' as ->. apply known_spec in Hx. congruence.
    + unfold ids at 1. simpl. rewrite <- app_assoc in Hi. rewrite ids_app in *. set_solver.
Qed.

Lemma asking_ask it it' n :
  canAsk it n = (it', true) -> asking it [] -> asking it' [n].
Proof.
  unfold canAsk. case_decide as Hd; intros [=]; subst. intros [Hn Hm Hb Ha].
  rewrite app_nil_r in *. constructor; simpl; [| |done|done].
  - rewrite ids_app. apply NoDup_app. split_and!; [done| |by apply NoDup_singleton].
    intros x Hx Hx'. apply list_elem_of_singleton in Hx' as ->. apply Hd.
    apply list_elem_of_fmap in Hx as (m & -> & Hin). apply Hm. set_solver.
  - intros m Hin. apply elem_of_app in Hin as [Hin|Hin]; [|set_solver].
    assert (enode_ID m ∈ asked it) by (apply Hm; set_solver). set_solver.
Qed.

Lemma asking_drop it p : asking it p -> asking it [].
Proof.
  intros [Hn Hm Hb Ha]. constructor; rewrite ?app_nil_r; try done.
  - rewrite ids_app in Hn. by apply NoDup_app in Hn as [? _].
  - intros n Hin. apply Hm. set_solver.
Qed.

Lemma asking_step r r' :
  round_ok r r' -> asking (look r) (about (at_ r)) -> asking (look r') (about (at_ r')).
Proof.
  inversion 1; subst; simpl; intros Ha; try done; try (by eapply asking_drop).
  - unfold canAsk in *. case_decide; by simplify_eq.
  - by eapply asking_ask.
  - destruct Ha as [Hn Hm Hb Hs]. constructor; simpl; rewrite ?app_nil_r; done.
  - destruct Ha as [Hn Hm Hb Hs]. 
    match goal with H : append _ _ = _ |- _ =>
      destruct (append_spec _ _ _ _ H) as (new & -> & _ & Hsub & Hnd & _) end.
    constructor; simpl; [done..|by apply Hnd|]. set_solver.
Qed.

Lemma asking_reach r r' :
  rtc round_ok r r' -> asking (look r) (about (at_ r)) -> asking (look r') (about (at_ r')).
Proof. induction 1; eauto using asking_step. Qed.

(** A round makes at most one query for each node it was given. *)
Lemma trace_step r r' :
  round_ok r r' ->
  (length (trace (look r')) + length (about (at_ r')) + length (rest r') <=
   length (trace (look r)) + length (about (at_ r)) + length (rest r))%nat.
Proof.
  inversion 1; subst; simpl; rewrite ?length_app; simpl; try lia;
    unfold canAsk in *; case_decide; simplify_eq; simpl; lia.
Qed.

Lemma trace_reach r r' :
  rtc round_ok r r' ->
  (length (trace (look r')) + length (about (at_ r')) + length (rest r') <=
   length (trace (look r)) + length (about (at_ r)) + length (rest r))%nat.
Proof. induction 1 as [|r r1 r2 Hs _ IH]; [done|]. pose proof (trace_step _ _ Hs). lia. Qed.

(** ** The result *)

Lemma core_reach r r' : rtc round_ok r r' -> same_core (look r) (look r').
Proof.
  induction 1 as [|r r1 r2 Hs _ IH]; [done|].
  destruct (step_core _ _ Hs) as (? & ? & ? & ? & ?). destruct IH as (? & ? & ? & ? & ?).
  unfold same_core. split_and!; congruence.
Qed.

Section Pool.
Variables (seeds : list enode) (target : ID) (w : Z).

(** The result holds the [w] closest of the seeds and the nodes found, and
    these are new identities, each once, from the network's answers. *)
Record pooled (it : lookup) (found : list enode) (pool : list Node) : Prop := {
  po_target : Target (result it) = target;
  po_wants : wants it = w;
  po_closest : k_closest target (Z.to_nat w) pool (Entries (result it));
  po_pool : Permutation (map node_enode pool) (seeds ++ found);
  po_seen : forall i, i ∈ seen it <-> i ∈ ids (seeds ++ found);
  po_new : NoDup (ids found);
  po_fresh : forall n, n ∈ found -> enode_ID n ∉ ids seeds;
  po_answers : found ⊆ answers it }.

Lemma push_seen_fields it n :
  trace (push_seen it n) = trace it /\ answers (push_seen it n) = answers it /\
  buffer (push_seen it n) = buffer it /\ asked (push_seen it n) = asked it /\
  depth (push_seen it n) = depth it /\ wants (push_seen it n) = wants it /\
  alpha (push_seen it n) = alpha it /\ seen (push_seen it n) = {[enode_ID n]} ∪ seen it.
Proof. done. Qed.

(** Pushing a node keeps the result the closest of the nodes pushed. *)
Lemma push_seen_closest it n pool :
  0 <= w -> Target (result it) = target -> wants it = w ->
  k_closest target (Z.to_nat w) pool (Entries (result it)) ->
  exists x, node_enode x = n /\
    k_closest target (Z.to_nat w) (x :: pool) (Entries (result (push_seen it n))).
Proof.
  intros Hw Ht Hwa Hk. exists (mkNode (h_next (lhp it)) n). split; [done|].
  unfold push_seen, WrapNode. cbn [result]. unfold Entries in *.
  rewrite Push_refines, Ht, Hwa; [by apply k_closest_push|rewrite Ht; apply Hk|].
  rewrite (k_closest_length _ _ _ _ Hk), Hwa. lia.
Qed.

Lemma absorb_loop ns it found pool :
  0 <= w -> ns ⊆ answers it -> pooled it found pool ->
  let it' := fold_left (fun it n => if decide (enode_ID n ∈ seen it) then it else push_seen it n) ns it in
  (exists found' pool', pooled it' found' pool') /\
  trace it' = trace it /\ answers it' = answers it /\ asked it' = asked it /\
  depth it' = depth it /\ alpha it' = alpha it.
Proof.
  intros Hw. revert it found pool. induction ns as [|n ns IH]; intros it found pool Hns Hp; simpl.
  { split; [by eauto|done]. }
  case_decide as Hseen; [apply (IH it found pool); [set_solver|done]|].
  destruct Hp as [Ht Hwa Hk Hpo Hse Hn Hf Ha].
  destruct (push_seen_closest it n pool Hw Ht Hwa Hk) as (x & Hx & Hk').
  destruct (push_seen_fields it n) as (Htr & Han & _ & Has & Hde & Hwa' & Hal & Hse').
  apply (IH (push_seen it n) (found ++ [n]) (x :: pool)); [rewrite Han; set_solver|].
  assert (enode_ID n ∉ ids (seeds ++ found)) as Hnew by (by rewrite <- Hse).
  rewrite ids_app in Hnew. constructor; try done.
  - simpl. rewrite Hpo, Hx, app_assoc. by rewrite Permutation_cons_append.
  - intros i. rewrite Hse', app_assoc, ids_app, elem_of_union, Hse, elem_of_app. set_solver.
  - rewrite ids_app. apply NoDup_app. split_and!; [done| |by apply NoDup_singleton].
    intros y Hy Hy'. apply list_elem_of_singleton in Hy' as ->. set_solver.
  - intros m Hm. apply elem_of_app in Hm as [Hm|Hm%list_elem_of_singleton]; [by apply Hf|].
    subst m. set_solver.
  - rewrite Han. set_solver.
Qed.

Lemma pooled_core it it' found pool :
  same_core it it' -> answers it ⊆ answers it' -> pooled it found pool -> pooled it' found pool.
Proof.
  intros (Hs & Hr & _ & Hw & _) Ha []. constructor; rewrite ?Hs, ?Hr, ?Hw; try done. set_solver.
Qed.

End Pool.

Lemma answers_reach r r' : rtc round_ok r r' -> answers (look r) ⊆ answers (look r').
Proof.
  induction 1 as [|r r1 r2 Hs _ IH]; [done|]. etrans; [|exact IH].
  inversion Hs; subst; simpl; try done; [..|set_solver];
    unfold canAsk in *; case_decide; by simplify_eq.
Qed.

(** What holds of a lookup between two rounds. *)
Definition between (seeds : list enode) (target : ID) (w a : Z) (it : lookup) : Prop :=
  alpha it = a /\ asking it [] /\ exists found pool, pooled seeds target w it found pool.

Lemma newLookup_pooled seeds target d w a :
  0 <= w -> between seeds target w a (newLookup seeds target d w a) /\
  trace (newLookup seeds target d w a) = [] /\ depth (newLookup seeds target d w a) = d.
Proof.
  intros Hw. unfold newLookup, between.
  set (it0 := mkLookup _ _ _ _ _ _ _ _ _ _).
  assert (forall ns it pool,
    Target (result it) = target -> wants it = w ->
    k_closest target (Z.to_nat w) pool (Entries (result it)) ->
    let it' := fold_left push_seen ns it in
    alpha it' = alpha it /\ depth it' = depth it /\ trace it' = trace it /\
    asked it' = asked it /\ buffer it' = buffer it /\ answers it' = answers it /\
    seen it' = list_to_set (ids ns) ∪ seen it /\
    Target (result it') = target /\ wants it' = w /\
    exists pool', Permutation (map node_enode pool') (ns ++ map node_enode pool) /\
      k_closest target (Z.to_nat w) pool' (Entries (result it'))) as Hfold.
  { induction ns as [|n ns IH]; intros it pool Ht Hwa Hk; simpl.
    { split_and!; try done; [by rewrite (left_id_L ∅ (∪))|by eauto]. }
    destruct (push_seen_closest target w it n pool Hw Ht Hwa Hk) as (x & Hx & Hk').
    destruct (IH (push_seen it n) (x :: pool) Ht Hwa Hk')
      as (H1 & H2 & H3 & H4 & H5 & H6 & H7 & H8 & H9 & pool' & Hp & Hk'').
    split_and!; try done.
    - rewrite H7. simpl. set_solver.
    - exists pool'. split; [|done]. rewrite Hp. simpl. rewrite Hx. by rewrite Permutation_middle. }
  destruct (Hfold seeds it0 []) as (H1 & H2 & H3 & H4 & H5 & H6 & H7 & H8 & H9 & pool' & Hp & Hk);
    [done|done|split; [constructor|]; exists []; split_and!; [done|simpl; lia|set_solver]|].
  split_and!; [done| | |done|done].
  - constructor; rewrite ?H3, ?H4, ?H5, ?H6; simpl; try constructor; set_solver.
  - exists [], pool'. constructor; try done.
    + intros i. rewrite H7, app_nil_r, elem_of_union, elem_of_list_to_set. simpl. set_solver.
    + constructor.
    + set_solver.
    + set_solver.
Qed.

Lemma Result_length seeds target w a it :
  between seeds target w a it -> (length (Enodes (result it)) <= Z.to_nat w)%nat.
Proof.
  intros (_ & _ & found & pool & Hp). unfold Enodes, UnwrapNodes. rewrite length_map.
  pose proof (k_closest_length _ _ _ _ (po_closest _ _ _ _ _ _ Hp)) as H. unfold Entries in H. lia.
Qed.

(** One round, from the outside. *)
Lemma round_between seeds target w a it b it1 :
  between seeds target w a it -> queryNewNodes it b it1 ->
  between seeds target w a it1 /\
  (length (trace it1) <= length (trace it) + (if decide (depth it = 0%Z) then 0 else Z.to_nat w))%nat /\
  (b = true -> depth it <> 0 /\ depth it1 = depth it - 1).
Proof.
  intros Hb Hq. pose proof (Result_length _ _ _ _ _ Hb) as Hlen.
  destruct Hb as (Ha & Hask & found & pool & Hp).
  destruct Hq as [|r b Hd Hr Hret].
  { split; [by split_and!; eauto|]. split; [lia|done]. }
  pose proof (core_reach _ _ Hr) as Hc. pose proof (trace_reach _ _ Hr) as Ht.
  pose proof (asking_reach _ _ Hr) as Has. pose proof (answers_reach _ _ Hr) as Han.
  rewrite decide_False by done. simpl in *.
  destruct Hc as (Hs & Hres & Hde & Hw & Hal).
  split; [|by split; [lia|]]. split; [by rewrite Hal|]. split.
  - rewrite Hret in Has. apply Has. destruct Hask. by constructor.
  - exists found, pool. apply (pooled_core seeds target w (set_depth it (depth it - 1))); [done|done|].
    destruct Hp. by constructor.
Qed.

Lemma absorb_between seeds target w a it :
  0 <= w -> between seeds target w a it ->
  between seeds target w a (absorb it) /\ trace (absorb it) = trace it /\
  depth (absorb it) = depth it.
Proof.
  intros Hw (Ha & Hask & found & pool & Hp).
  destruct (absorb_loop seeds target w (peek (buffer it)) it found pool Hw (as_answers _ _ Hask) Hp)
    as ((f' & p' & Hp') & Ht & Han & Has & Hd & Hal).
  unfold absorb. set (it1 := fold_left _ _ _) in *. split; [|done]. split; [by rewrite <- Ha|].
  split.
  - destruct Hask as [Hn Hm _ _]. constructor; simpl; rewrite ?Ht, ?Has; try done; [constructor|].
    intros x Hx. by apply elem_of_nil in Hx.
  - exists f', p'. destruct Hp'. by constructor.
Qed.

Lemma Run_between seeds target w a it k it' :
  0 <= w -> between seeds target w a it -> Run it k it' ->
  between seeds target w a it' /\
  (0 <= depth it -> Z.of_nat k <= depth it /\
     Z.of_nat (length (trace it')) <= Z.of_nat (length (trace it)) + depth it * w).
Proof.
  intros Hw Hb Hr. induction Hr as [it it' Hq|it it1 k it' Hq _ IH].
  - destruct (round_between _ _ _ _ _ _ _ Hb Hq) as (Hb' & Ht & _). split; [done|].
    intros Hd. split; [lia|]. case_decide; nia.
  - destruct (round_between _ _ _ _ _ _ _ Hb Hq) as (Hb1 & Ht & Hd1).
    destruct (Hd1 eq_refl) as [Hne Hd]. rewrite decide_False in Ht by done.
    destruct (absorb_between _ _ _ _ _ Hw Hb1) as (Hb2 & Ht2 & Hd2).
    destruct (IH Hb2) as [Hb' Hbound]. split; [done|]. intros Hpos.
    rewrite Ht2, Hd2, Hd in Hbound. destruct Hbound as [H1 H2]; [lia|]. split; [lia|nia].
Qed.

(** ** Marked but not queried *)

(** [i] is marked as asked, but neither queried nor about to be. *)
Definition passed_over (i : ID) (it : lookup) (p : list enode) : Prop :=
  i ∈ asked it /\ i ∉ ids (trace it ++ p).

Lemma passed_step i r r' :
  round_ok r r' -> passed_over i (look r) (about (at_ r)) -> passed_over i (look r') (about (at_ r')).
Proof.
  unfold passed_over. inversion 1; subst; simpl; rewrite ?app_nil_r, ?ids_app; intros [Ha Hn];
    try (split; [done|set_solver]).
  - unfold canAsk in *. case_decide; by simplify_eq.
  - unfold canAsk in *. case_decide as Hd; simplify_eq. simpl. split; [set_solver|].
    simpl in Hn. set_solver.
Qed.

Lemma passed_reach i r r' :
  rtc round_ok r r' -> passed_over i (look r) (about (at_ r)) -> passed_over i (look r') (about (at_ r')).
Proof. induction 1; eauto using passed_step. Qed.

Lemma absorb_asked ns it :
  let it' := fold_left (fun it n => if decide (enode_ID n ∈ seen it) then it else push_seen it n) ns it in
  asked it' = asked it /\ trace it' = trace it.
Proof.
  revert it. induction ns as [|n ns IH]; intros it; simpl; [done|].
  case_decide; [apply IH|]. by destruct (IH (push_seen it n)) as [-> ->].
Qed.

Lemma passed_absorb i it : passed_over i it [] -> passed_over i (absorb it) [].
Proof.
  unfold passed_over, absorb. destruct (absorb_asked (peek (buffer it)) it) as [Ha Ht].
  set (it' := fold_left _ _ _) in *. simpl. by rewrite Ha, Ht.
Qed.

Lemma passed_round i it b it1 :
  queryNewNodes it b it1 -> passed_over i it [] -> passed_over i it1 [].
Proof.
  intros Hq Hp. destruct Hq as [|r b Hd Hr Hret]; [done|].
  pose proof (passed_reach i _ _ Hr) as H. rewrite Hret in H. by apply H.
Qed.

Lemma passed_Run i it k it' : Run it k it' -> passed_over i it [] -> passed_over i it' [].
Proof. induction 1; eauto using passed_round, passed_absorb. Qed.

(** ** Some execution of [Run] ends *)

Lemma absorb_depth it : depth (absorb it) = depth it /\ alpha (absorb it) = alpha it.
Proof.
  unfold absorb. generalize (peek (buffer it)). intros ns.
  assert (forall ns it, let it' := fold_left (fun it n => if decide (enode_ID n ∈ seen it) then it
      else push_seen it n) ns it in depth it' = depth it /\ alpha it' = alpha it) as H.
  { clear. induction ns as [|n ns IH]; intros it; simpl; [done|].
    case_decide; [apply IH|]. by destruct (IH (push_seen it n)) as [-> ->]. }
  apply (H ns it).
Qed.

Lemma Run_exists it :
  0 < alpha it < 2 ^ 32 -> 0 <= depth it -> exists k it', Run it k it'.
Proof.
  intros Ha Hd. remember (Z.to_nat (depth it)) as d eqn:Hdd. revert it Ha Hd Hdd.
  induction d as [|d IH]; intros it Ha Hd Hdd.
  { exists 0%nat, it. apply run_stop, query_depth. lia. }
  destruct (round_returns (alpha it) (round_init it (Enodes (result it))) eq_refl Ha
              (init_inv it _ (proj1 Ha))) as (r & b & Hr & Hret).
  assert (depth it <> 0) as Hne by lia.
  pose proof (query_round it r b Hne Hr Hret) as Hq. destruct b.
  - destruct (core_reach _ _ Hr) as (_ & _ & Hde & _ & Hal). simpl in Hde, Hal.
    destruct (absorb_depth (look r)) as [Hde' Hal'].
    destruct (IH (absorb (look r))) as (k & it' & Hrun); [congruence|lia|lia|].
    exists (S k), it'. by eapply run_more.
  - exists 0%nat, (look r). by apply run_stop.
Qed.

(** ** The properties *)

(** in every state of a round, with [alpha] slots, at most [alpha]
    queries are in flight, no goroutine sends on the closed channel or
    closes it again, a goroutine that gives back its slot never blocks, and
    unless the round has returned some goroutine can run. *)
Theorem round_safe it nodes r :
  0 < alpha it < 2 ^ 32 -> rtc round_ok (round_init it nodes) r ->
  Z.of_nat (length (gos r)) <= alpha it /\
  (forall w, ~ round_step r (Panic w)) /\
  (GSend ∈ gos r -> closed r = false /\ Z.of_nat (slots r) < alpha it) /\
  ((forall b, at_ r <> PcRet b) -> exists r', round_ok r r').
Proof.
  intros Ha Hr. destruct (round_reach (alpha it) (round_init it nodes) r eq_refl Ha (init_inv it nodes (proj1 Ha)) Hr) as [Hinv Hal].
  assert (0 <= holding (at_ r)) by (destruct (at_ r); simpl; lia). split_and!.
  - destruct Hinv as [_ _ Hd Hs|_ -> _ _ _|_ -> _ _]; simpl; lia.
  - intros w Hs. inversion Hs; subst; destruct Hinv as [Hc Hg|Hc Hg|Hc Hg]; simpl in *; try done;
      by apply no_go in Hg.
  - intros Hin. destruct Hinv as [Hc Hg Hd Hs|Hc Hg|Hc Hg]; rewrite ?Hg in Hin.
    + split; [done|]. destruct (gos r); [by apply elem_of_nil in Hin|simpl in *; lia].
    + by apply list_elem_of_singleton in Hin.
    + by apply elem_of_nil in Hin.
  - intros Hret. eapply round_progress; eauto. lia.
Qed.



(** a lookup never queries an identity twice; its rounds are at most
    [depth] and its queries at most [depth * wants]. *)
Theorem Run_bounded seeds target depth wants alpha k it' :
  0 <= wants -> 0 <= depth -> Run (newLookup seeds target depth wants alpha) k it' ->
  NoDup (ids (trace it')) /\ Z.of_nat k <= depth /\
  Z.of_nat (length (trace it')) <= depth * wants.
Proof.
  intros Hw Hd Hr. destruct (newLookup_pooled seeds target depth wants alpha Hw) as (Hb & Ht & Hde).
  destruct (Run_between _ _ _ _ _ _ _ Hw Hb Hr) as ((_ & Hask & _) & Hbound).
  rewrite Ht, Hde in Hbound. destruct (Hbound Hd) as [H1 H2]. split_and!; [|done|].
  - pose proof (as_nodup _ _ Hask) as H. by rewrite app_nil_r in H.
  - simpl in H2. lia.
Qed.

(** a node that reaches the check of the done counter when the round has
    already its [alpha] successes was marked as asked before, so it is not
    queried in this round nor in any later round of the lookup. *)
Theorem last_marked_never_queried it nodes r n r' k it' :
  0 < alpha it < 2 ^ 32 -> asking it [] ->
  rtc round_ok (round_init it nodes) r -> at_ r = PcCheck n -> done r = alpha it ->
  rtc round_ok r r' -> at_ r' = PcRet true -> Run (absorb (look r')) k it' ->
  enode_ID n ∈ asked it' /\ enode_ID n ∉ ids (trace it').
Proof.
  intros Ha Hask Hr Hat Hdone Hr' Hret Hrun.
  destruct (round_reach (alpha it) (round_init it nodes) r eq_refl Ha (init_inv it nodes (proj1 Ha)) Hr)
    as [Hinv Hal].
  assert (asking (look r) [n]) as Has.
  { pose proof (asking_reach _ _ Hr) as H. rewrite Hat in H. apply H. destruct Hask. by constructor. }
  assert (passed_over (enode_ID n) (look r') []) as Hp.
  { destruct r as [it0 ns p s c d g]. simpl in *. subst p d.
    apply rtc_inv in Hr' as [<-|(r1 & Hs & Hr2)]; [done|].
    pose proof (passed_reach (enode_ID n) _ _ Hr2) as Hpass. rewrite Hret in Hpass. apply Hpass.
    destruct Hinv as [? ? Hd|? ? ? ? Hh|Hc Hg _ Hz]; simpl in *; [lia|done|]. subst.
    inversion Hs; subst; try (by exfalso; eapply no_go); simpl.
    - destruct Has as [Hn Hm _ _]. rewrite ids_app in Hn. apply NoDup_app in Hn as (_ & Hn & _).
      split; [apply Hm; apply elem_of_snoc|]. rewrite app_nil_r. intros Hin.
      apply (Hn _ Hin). by left.
    - exfalso. match goal with H : _ <> u32 _ |- _ => apply H end.
      rewrite Hal. symmetry. apply wrap_u_small. lia. }
  apply passed_absorb in Hp. destruct (passed_Run _ _ _ _ Hrun Hp) as [H1 H2].
  by rewrite app_nil_r in H2.
Qed.

End Facts.

(** ** A run of the concrete instance *)

Module Demo.

Definition a : @enode xor_enode := mkRecord 1 [8; 8; 8; 1] 30303 30303 1.
Definition b : @enode xor_enode := mkRecord 2 [8; 8; 8; 2] 30303 30303 1.
Definition c : @enode xor_enode := mkRecord 3 [8; 8; 8; 3] 30303 30303 1.

(** Node [a] answers with [c], which exhausts the single slot while [b] is
    waiting for one. *)
Definition start : lookup := newLookup [a; b] 0 2 2 1.

Ltac go lem := eapply rtc_l; [eapply lem; try reflexivity|].

Lemma canAsk_marked (it : lookup) (n : @enode xor_enode) :
  enode_ID n ∈ asked it -> canAsk (absorb it) n = (absorb it, false).
Proof.
  intros Hn. unfold canAsk, absorb. destruct (absorb_asked (peek (buffer it)) it) as [Ha _].
  simpl in *. rewrite Ha. by rewrite decide_True.
Qed.

(** The round up to the check for [b], and from there to its end. *)
Lemma first_round :
  exists r r', rtc round_ok (round_init start (Enodes (result start))) r /\
    at_ r = PcCheck b /\ done r = alpha start /\
    rtc round_ok r r' /\ at_ r' = PcRet true /\ trace (look r') = [a] /\
    Enodes (result (absorb (look r'))) = [a; b] /\ depth (absorb (look r')) = 1 /\
    asked (look r') = {[enode_ID b]} ∪ ({[enode_ID a]} ∪ ∅).
Proof.
  do 2 eexists. split.
  { change (Enodes (result start)) with [a; b]. unfold round_init.
    change (Z.to_nat (alpha start)) with 1%nat.
    go st_ask. go st_recv. eapply rtc_l; [eapply st_go; discriminate|]. go st_ask.
    eapply rtc_l; [eapply (st_reply _ _ _ _ _ _ [] a [] [c]); reflexivity|].
    eapply rtc_l; [eapply (st_add _ _ _ _ _ _ [])|].
    eapply rtc_l; [eapply (st_close _ _ _ _ _ [])|].
    go st_recv_closed. apply rtc_refl. }
  split; [reflexivity|]. split; [reflexivity|]. split.
  { go st_full. go st_wait. apply rtc_refl. }
  split; [reflexivity|]. split; [reflexivity|]. split; [reflexivity|]. split; reflexivity.
Qed.

(** The second round finds both nodes asked, and the lookup ends. *)
Lemma second_round (it : lookup) :
  Enodes (result it) = [a; b] -> depth it = 1 -> canAsk it a = (it, false) ->
  canAsk it b = (it, false) -> Run it 0 (set_depth it 0).
Proof.
  intros Hres Hd Ha Hb. apply run_stop.
  apply (query_round it (mkRound (set_depth it 0) [] (PcRet false) (Z.to_nat (alpha it)) false 0 []));
    [by rewrite Hd| |done].
  rewrite Hres. unfold round_init. rewrite Hd.
  assert (forall n, canAsk it n = (it, false) ->
    canAsk (set_depth it 0) n = (set_depth it 0, false)) as Hset
    by (intros n; unfold canAsk; simpl; case_decide; congruence).
  eapply rtc_l; [eapply st_skip, Hset, Ha|]. eapply rtc_l; [eapply st_skip, Hset, Hb|].
  go st_end. eapply rtc_l; [apply (st_wait _ _ _ _ 0)|]. apply rtc_refl.
Qed.

Lemma run : exists it', Run start 1 it' /\ trace it' = [a].
Proof.
  destruct first_round as (r & r' & Hr & _ & _ & Hr' & Hret & Ht & Hres & Hd & Has).
  assert (canAsk (absorb (look r')) a = (absorb (look r'), false)) as Ha
    by (apply canAsk_marked; rewrite Has; set_solver).
  assert (canAsk (absorb (look r')) b = (absorb (look r'), false)) as Hb
    by (apply canAsk_marked; rewrite Has; set_solver).
  exists (set_depth (absorb (look r')) 0). split.
  - apply run_more with (look r'); [|by apply second_round].
    apply (query_round start r'); [done|by etrans|done].
  - unfold absorb in *. destruct (absorb_asked (peek (buffer (look r'))) (look r')) as [_ Htr].
    simpl in *. by rewrite Htr.
Qed.

End Demo.

Lemma round_safe_witness :
  exists r : round, rtc round_ok (round_init Demo.start (Enodes (result Demo.start))) r /\
    Z.of_nat (length (gos r)) <= 1.
Proof.
  destruct Demo.first_round as (r & r' & Hr & _). exists r. split; [exact Hr|].
  exact (proj1 (round_safe Demo.start _ r ltac:(done) Hr)).
Defined.



Lemma Run_bounded_witness :
  exists it', Run Demo.start 1 it' /\ NoDup (ids (trace it')).
Proof.
  destruct Demo.run as (it' & Hr & _). exists it'. split; [exact Hr|].
  exact (proj1 (Run_bounded [Demo.a; Demo.b] 0 2 2 1 1 it' ltac:(lia) ltac:(lia) Hr)).
Defined.

Lemma last_marked_never_queried_witness :
  exists it', Run Demo.start 1 it' /\ enode_ID Demo.b ∈ asked it' /\ trace it' = [Demo.a].
Proof.
  destruct Demo.first_round as (r & r' & Hr & Hat & Hd & Hr' & Hret & Ht & Hres & Hde & Has).
  assert (canAsk (absorb (look r')) Demo.a = (absorb (look r'), false)) as Ha
    by (apply Demo.canAsk_marked; rewrite Has; set_solver).
  assert (canAsk (absorb (look r')) Demo.b = (absorb (look r'), false)) as Hb
    by (apply Demo.canAsk_marked; rewrite Has; set_solver).
  pose proof (Demo.second_round _ Hres Hde Ha Hb) as Hrun.
  eexists. split; [eapply run_more; [apply (query_round Demo.start r'); [done|by etrans|done]|exact Hrun]|].
  split.
  - refine (proj1 (last_marked_never_queried Demo.start _ r Demo.b r' 0 _ ltac:(done) _ Hr Hat Hd Hr' Hret Hrun)).
    apply (newLookup_pooled [Demo.a; Demo.b] 0 2 2 1). lia.
  - unfold absorb in *. destruct (absorb_asked (peek (buffer (look r'))) (look r')) as [_ Htr].
    simpl in *. by rewrite Htr.
Defined.
