(* ===== verification/Awaiter.v ===== *)
(** * crawler/net/discovery/responseAwaiter.go: requests awaiting a response

    The queue of outstanding requests, which one goroutine owns: it matches
    replies with requests, appends new requests and sweeps the expired ones.
    Each iteration of its loop is a function; the request's checker may keep
    state of its own, so its state [S] and step are parameters. *)

From stdpp Require Import base list gmap relations.
From Stdlib Require Import ZArith Lia Permutation.
From S2P Require Import Prelude Golang External Instances.
Open Scope Z_scope.

Inductive awaiterError : Set :=
| errRespAwaiterDone | errRespDeadlinePassed | errInvalidResponse | errAlreadyRunning.

Section Awaiter.
Context `{E : Enode} {S B : Type}.

(** [Request] and [Response], as far as the awaiter looks at them. *)
Record Request := mkRequest {
  rq_id : ID; rq_ip : IP; rq_kind : Z; rq_expiration : Z }.

(** [rs_body] is the packet itself, which only the checker reads. *)
Record Response := mkResponse { rs_id : ID; rs_ip : IP; rs_kind : Z; rs_body : B }.

(** A pointer to an [awaitableRequest]; its [ch] is closed and its [err] set
    once it is in [marks]. *)
Record awaitableRequest := mkAwaitable { aw_ptr : nat; aw_r : Request }.

Variable checker : S -> awaitableRequest -> Response -> S * (bool * bool).

Record awaiter := mkAwaiter {
  queue : list awaitableRequest;
  marks : gmap nat (option awaiterError);
  current : Z;
  ext : S }.

(** [mark]: closing a closed channel panics. *)
Definition mark (m : gmap nat (option awaiterError)) (a : awaitableRequest)
    (err : option awaiterError) : outcome (gmap nat (option awaiterError)) :=
  match m !! aw_ptr a with
  | Some _ => Panic CloseOfClosedChannel
  | None => Ok (<[aw_ptr a := err]> m)
  end.

Definition matches (a : awaitableRequest) (reply : Response) : bool :=
  bool_decide (rq_id (aw_r a) = rs_id reply) && bool_decide (rq_kind (aw_r a) = rs_kind reply) &&
  IP_Equal (rq_ip (aw_r a)) (rs_ip reply).

(** The [replyCh] case: the loop over the elements of the list, with the
    elements it has passed in [prev]. *)
Fixpoint reply_loop (now : Z) (reply : Response) (prev q : list awaitableRequest)
    (m : gmap nat (option awaiterError)) (s : S)
    : outcome (list awaitableRequest * gmap nat (option awaiterError) * S) :=
  match q with
  | [] => Ok (prev, m, s)
  | el :: q' =>
      if negb (matches el reply) then reply_loop now reply (prev ++ [el]) q' m s
      else if decide (rq_expiration (aw_r el) < now) then
        m' ← mark m el (Some errRespDeadlinePassed); Ok (prev ++ q', m', s)
      else
        let '(s', (ok, done)) := checker s el reply in
        if (done && ok : bool) then m' ← mark m el None; Ok (prev ++ q', m', s')
        else if negb ok && negb done then
          m' ← mark m el (Some errInvalidResponse); Ok (prev ++ q', m', s')
        else Ok (prev ++ el :: q', m, s')
  end.

Definition handle_reply (now : Z) (reply : Response) (a : awaiter) : outcome awaiter :=
  '(q, m, s) ← reply_loop now reply [] (queue a) (marks a) (ext a);
  Ok (mkAwaiter q m (current a) s).

(** The [reqCh] case. *)
Definition handle_add (r : awaitableRequest) (a : awaiter) : awaiter :=
  mkAwaiter (queue a ++ [r]) (marks a) (current a) (ext a).

Definition expired (now : Z) (a : awaitableRequest) : bool :=
  bool_decide (rq_expiration (aw_r a) <= now).

(** The loop of [checkDeadlines] runs over the elements after the first. *)
Fixpoint sweep (now : Z) (q : list awaitableRequest) (m : gmap nat (option awaiterError))
    (counter : nat) : outcome (list awaitableRequest * gmap nat (option awaiterError) * nat) :=
  match q with
  | [] => Ok ([], m, counter)
  | el :: q' =>
      if expired now el then
        m' ← mark m el (Some errRespDeadlinePassed); sweep now q' m' (Datatypes.S counter)
      else Ok (q, m, counter)
  end.

Definition checkDeadlines (now : Z) (a : awaiter) : outcome (awaiter * nat) :=
  match queue a with
  | [] => Ok (a, 0%nat)
  | q :: els =>
      '(els', m, counter) ← sweep now els (marks a) 0;
      if expired now q then
        m' ← mark m q (Some errRespDeadlinePassed);
        Ok (mkAwaiter els' m' (current a) (ext a), Datatypes.S counter)
      else Ok (mkAwaiter (q :: els') m (current a) (ext a), counter)
  end.

Definition lower : Z := 100 * Millisecond.
Definition upper : Z := 5 * Second.

(** The new interval of the ticker. *)
Definition next_interval (cur : Z) (count : nat) : Z :=
  if decide (count = 0)%nat then Z.min (i64 (cur * 2)) upper
  else Z.max (i64 (cur - Z.quot cur 3)) lower.

(** The [ticker.C] case. *)
Definition handle_tick (now : Z) (a : awaiter) : outcome awaiter :=
  '(a', count) ← checkDeadlines now a;
  Ok (mkAwaiter (queue a') (marks a') (next_interval (current a') count) (ext a')).

Definition NewAwaiter (s : S) : awaiter := mkAwaiter [] ∅ (Z.quot upper 2) s.

(** One iteration of [run].  A request is a new pointer: [AddPending] has
    just allocated it. *)
Inductive awaiter_step (a : awaiter) : outcome awaiter -> Prop :=
| aw_reply now reply : awaiter_step a (handle_reply now reply a)
| aw_add r :
    r.(aw_ptr) ∉ map aw_ptr (queue a) -> marks a !! aw_ptr r = None ->
    awaiter_step a (Ok (handle_add r a))
| aw_tick now : awaiter_step a (handle_tick now a).

Definition awaiter_ok (a a' : awaiter) : Prop := awaiter_step a (Ok a').

(** ** Facts *)

(** The requests in the queue are distinct and their channels are open. *)
Definition awaiter_inv (a : awaiter) : Prop :=
  NoDup (map aw_ptr (queue a)) /\ (forall x, x ∈ queue a -> marks a !! aw_ptr x = None) /\
  lower <= current a <= upper.

(** Where a reply finds its request: the first that matches it. *)
Lemma reply_loop_split now reply prev q m s :
  (Forall (fun x => matches x reply = false) q /\
   reply_loop now reply prev q m s = Ok (prev ++ q, m, s)) \/
  exists q1 el q2, q = q1 ++ el :: q2 /\ matches el reply = true /\
    Forall (fun x => matches x reply = false) q1 /\
    reply_loop now reply prev q m s = reply_loop now reply (prev ++ q1) (el :: q2) m s.
Proof.
  revert prev. induction q as [|el q IH]; intros prev; [left; by rewrite app_nil_r|].
  destruct (matches el reply) eqn:Hm.
  { right. exists [], el, q. by rewrite app_nil_r. }
  simpl. rewrite Hm. simpl. destruct (IH (prev ++ [el])) as [[Hall ->]|(q1 & e & q2 & -> & He & Hf & ->)].
  - left. rewrite <- app_assoc. split; [by constructor|done].
  - right. exists (el :: q1), e, q2. rewrite <- app_assoc. split_and!; try done. by constructor.
Qed.

Lemma reply_loop_skip now reply prev q1 q m s :
  Forall (fun x => matches x reply = false) q1 ->
  reply_loop now reply prev (q1 ++ q) m s = reply_loop now reply (prev ++ q1) q m s.
Proof.
  revert prev. induction q1 as [|x q1 IH]; intros prev Hf; simpl; [by rewrite app_nil_r|].
  apply Forall_cons in Hf as [Hx Hf]. rewrite Hx. simpl. by rewrite IH, <- app_assoc.
Qed.

(** What becomes of the first request that matches. *)
Definition verdict (now : Z) (s : S) (el : awaitableRequest) (reply : Response)
    : S * option (option awaiterError) :=
  if decide (rq_expiration (aw_r el) < now) then (s, Some (Some errRespDeadlinePassed))
  else
    let '(s', (ok, done)) := checker s el reply in
    match ok, done with
    | true, true => (s', Some None)
    | false, false => (s', Some (Some errInvalidResponse))
    | _, _ => (s', None)
    end.

Lemma reply_loop_hit now reply prev el q m s :
  matches el reply = true -> m !! aw_ptr el = None ->
  reply_loop now reply prev (el :: q) m s =
    match verdict now s el reply with
    | (s', Some err) => Ok (prev ++ q, <[aw_ptr el := err]> m, s')
    | (s', None) => Ok (prev ++ el :: q, m, s')
    end.
Proof.
  intros Hm Hopen. simpl. rewrite Hm. unfold verdict, mark. rewrite Hopen. simpl.
  case_decide; [done|]. destruct (checker s el reply) as [s' [[|] [|]]]; done.
Qed.

(** ** One request on its own

    What the loop does to one request, in order: it is offered a reply, a
    sweep reaches it, or other goroutines change the checker's state. *)
Inductive await_event : Type :=
| EvReply (now : Z) (reply : Response)
| EvSweep (now : Z)
| EvEnv (f : S -> S).

(** The state when the request is marked and its error, or [None] while it
    still waits. *)
Fixpoint await (s : S) (el : awaitableRequest) (evs : list await_event)
    : S * option (option awaiterError) :=
  match evs with
  | [] => (s, None)
  | EvEnv f :: evs' => await (f s) el evs'
  | EvSweep now :: evs' =>
      if expired now el then (s, Some (Some errRespDeadlinePassed)) else await s el evs'
  | EvReply now reply :: evs' =>
      if matches el reply then
        match verdict now s el reply with
        | (s', Some err) => (s', Some err)
        | (s', None) => await s' el evs'
        end
      else await s el evs'
  end.

Lemma remove_middle (q1 q2 : list awaitableRequest) el (m : gmap nat (option awaiterError)) err :
  NoDup (map aw_ptr (q1 ++ el :: q2)) ->
  (forall x, x ∈ q1 ++ el :: q2 -> m !! aw_ptr x = None) ->
  NoDup (map aw_ptr (q1 ++ q2)) /\
  (forall x, x ∈ q1 ++ q2 -> <[aw_ptr el := (err : option awaiterError)]> m !! aw_ptr x = None).
Proof.
  intros Hnd Hopen.
  assert (Permutation (q1 ++ el :: q2) (el :: q1 ++ q2)) as Hp by (by rewrite Permutation_middle).
  rewrite Hp in Hnd. simpl in Hnd. apply NoDup_cons in Hnd as [Hn Hnd]. split; [done|].
  intros x Hx. rewrite lookup_insert_ne; [apply Hopen; rewrite Hp; by right|].
  intros Heq. apply Hn. rewrite Heq. by apply (list_elem_of_fmap_2 aw_ptr).
Qed.

Lemma handle_reply_inv now reply a :
  awaiter_inv a -> exists a', handle_reply now reply a = Ok a' /\ awaiter_inv a'.
Proof.
  intros (Hnd & Hopen & Hc). unfold handle_reply.
  destruct (reply_loop_split now reply [] (queue a) (marks a) (ext a))
    as [[_ ->]|(q1 & el & q2 & Hq & Hm & _ & ->)].
  { eexists. split; [done|]. split; [done|]. split; [done|]. exact Hc. }
  rewrite Hq in Hnd, Hopen.
  assert (el ∈ q1 ++ el :: q2) as Hin by (apply elem_of_app; right; by left).
  rewrite (reply_loop_hit _ _ _ _ _ _ _ Hm (Hopen _ Hin)).
  destruct (verdict now (ext a) el reply) as [s' [err|]]; simpl; eexists; (split; [done|]).
  - destruct (remove_middle _ _ _ _ err Hnd Hopen). split; [done|]. split; [done|]. exact Hc.
  - split; [done|]. split; [done|]. exact Hc.
Qed.

(** The sweep removes the longest prefix of expired requests. *)
Fixpoint drop_expired (now : Z) (q : list awaitableRequest) : list awaitableRequest * list awaitableRequest :=
  match q with
  | [] => ([], [])
  | el :: q' =>
      if expired now el then let '(gone, kept) := drop_expired now q' in (el :: gone, kept)
      else ([], q)
  end.

Definition mark_all (m : gmap nat (option awaiterError)) (l : list awaitableRequest) :=
  fold_left (fun m (x : awaitableRequest) => <[aw_ptr x := Some errRespDeadlinePassed]> m) l m.

Lemma mark_all_lookup l (m : gmap nat (option awaiterError)) p :
  mark_all m l !! p = if decide (p ∈ map aw_ptr l) then Some (Some errRespDeadlinePassed) else m !! p.
Proof.
  revert m. induction l as [|x l IH]; intros m; simpl; [done|].
  unfold mark_all in *. simpl. rewrite IH, lookup_insert.
  repeat case_decide; set_solver.
Qed.

Lemma drop_expired_app now q :
  q = (drop_expired now q).1 ++ (drop_expired now q).2 /\
  Forall (fun x => expired now x = true) (drop_expired now q).1.
Proof.
  induction q as [|el q IH]; simpl; [done|]. destruct (expired now el) eqn:He; [|done].
  destruct (drop_expired now q) as [g l]; simpl in *. destruct IH as [-> Hg].
  split; [done|by constructor].
Qed.

Lemma sweep_spec now q m k :
  NoDup (map aw_ptr q) -> (forall x, x ∈ q -> m !! aw_ptr x = None) ->
  sweep now q m k = Ok ((drop_expired now q).2, mark_all m (drop_expired now q).1,
                        (k + length (drop_expired now q).1)%nat).
Proof.
  revert m k. induction q as [|el q IH]; intros m k Hnd Hopen; simpl; [by rewrite Nat.add_0_r|].
  destruct (expired now el) eqn:He; simpl; [|by rewrite Nat.add_0_r].
  unfold mark. rewrite Hopen by by left. simpl.
  destruct (remove_middle [] q el m (Some errRespDeadlinePassed) Hnd Hopen) as [Hnd' Hopen'].
  rewrite IH by done. destruct (drop_expired now q) as [g l]; simpl. do 3 f_equal. lia.
Qed.

(** The sweep as a whole: the first request is looked at on its own, the
    others up to the first that has not expired. *)
Definition swept (now : Z) (q : list awaitableRequest) : list awaitableRequest * list awaitableRequest :=
  match q with
  | [] => ([], [])
  | h :: els =>
      let '(gone, kept) := drop_expired now els in
      if expired now h then (gone ++ [h], kept) else (gone, h :: kept)
  end.

Lemma checkDeadlines_spec now a :
  awaiter_inv a ->
  checkDeadlines now a =
    Ok (mkAwaiter (swept now (queue a)).2 (mark_all (marks a) (swept now (queue a)).1) (current a) (ext a),
        length (swept now (queue a)).1).
Proof.
  intros (Hnd & Hopen & _). unfold checkDeadlines. destruct a as [q m c s]; simpl in *.
  destruct q as [|h els]; [done|].
  assert (forall x, x ∈ els -> m !! aw_ptr x = None) as Hels by (intros; apply Hopen; by right).
  apply NoDup_cons in Hnd as [Hh Hnd]. change (map aw_ptr els) with (aw_ptr <$> els) in Hnd.
  rewrite sweep_spec by done. simpl. pose proof (drop_expired_app now els) as [Happ _].
  destruct (drop_expired now els) as [g l]; simpl in *.
  destruct (expired now h); [|done]. unfold mark. rewrite mark_all_lookup, decide_False.
  2: { intros Hin. apply Hh. change (aw_ptr h ∈ map aw_ptr els). rewrite Happ, map_app. set_solver. }
  rewrite Hopen by by left. simpl. unfold mark_all. rewrite fold_left_app, length_app. simpl.
  do 2 f_equal. lia.
Qed.

Lemma swept_perm now q :
  Permutation q ((swept now q).1 ++ (swept now q).2) /\
  Forall (fun x => expired now x = true) (swept now q).1.
Proof.
  destruct q as [|h els]; simpl; [done|]. pose proof (drop_expired_app now els) as [Happ Hg].
  destruct (drop_expired now els) as [g l]; simpl in *.
  destruct (expired now h) eqn:He; simpl.
  - split; [rewrite <- app_assoc; simpl; by rewrite Happ, Permutation_middle|].
    apply Forall_app. by repeat constructor.
  - split; [by rewrite Happ, Permutation_middle|done].
Qed.

Lemma checkDeadlines_inv now a :
  awaiter_inv a -> exists a' n, checkDeadlines now a = Ok (a', n) /\ awaiter_inv a' /\ current a' = current a.
Proof.
  intros Hinv. rewrite checkDeadlines_spec by done. do 2 eexists. split; [done|]. split; [|done].
  destruct Hinv as (Hnd & Hopen & Hc). destruct (swept_perm now (queue a)) as [Hp _].
  rewrite Hp, map_app in Hnd. apply NoDup_app in Hnd as (_ & Hd & Hnd).
  split_and!; simpl; [done| |apply Hc|apply Hc].
  intros x Hx. rewrite mark_all_lookup, decide_False.
  - apply Hopen. rewrite Hp. set_solver.
  - intros Hin. apply (Hd _ Hin). by apply (list_elem_of_fmap_2 aw_ptr).
Qed.

Lemma next_interval_bounds cur n : lower <= cur <= upper -> lower <= next_interval cur n <= upper.
Proof.
  unfold next_interval, lower, upper, Millisecond, Second. intros H.
  assert (0 <= Z.quot cur 3 <= cur) by (Z.to_euclidean_division_equations; lia).
  case_decide; rewrite i64_small; unfold MinInt64, MaxInt64; lia.
Qed.

Lemma awaiter_step_inv a o :
  awaiter_inv a -> awaiter_step a o -> exists a', o = Ok a' /\ awaiter_inv a'.
Proof.
  intros Hinv Hs. destruct Hs as [now reply|r Hr Hm|now].
  - by apply handle_reply_inv.
  - eexists. split; [done|]. destruct Hinv as (Hnd & Hopen & Hc). split_and!; simpl; [| |apply Hc..].
    + rewrite map_app. apply NoDup_app. split_and!; [done| |by apply NoDup_singleton].
      intros x Hx ->%list_elem_of_singleton. done.
    + intros x Hx. apply elem_of_app in Hx as [Hx| ->%list_elem_of_singleton]; [by apply Hopen|done].
  - destruct (checkDeadlines_inv now a Hinv) as (a1 & n & Heq & Hinv1 & Hcur).
    unfold handle_tick. rewrite Heq. simpl. eexists. split; [done|].
    destruct Hinv1 as (? & ? & Hc). split_and!; [done|done|..]; apply next_interval_bounds, Hc.
Qed.

Lemma awaiter_reach a a' : rtc awaiter_ok a a' -> awaiter_inv a -> awaiter_inv a'.
Proof.
  induction 1 as [|a a1 a' Hs _ IH]; intros Hinv; [done|].
  destruct (awaiter_step_inv _ _ Hinv Hs) as (a2 & [= <-] & Hinv'). by apply IH.
Qed.

Lemma new_inv s : awaiter_inv (NewAwaiter s).
Proof.
  split_and!; simpl; [constructor|intros x Hx; by apply elem_of_nil in Hx|done|done].
Qed.

End Awaiter.
