(* ===== verification/AwaiterProps.v ===== *)
(** * What the awaiter guarantees *)

From stdpp Require Import base list gmap relations sorting.
From Stdlib Require Import ZArith Lia Permutation Sorted.
From S2P Require Import Prelude Golang External Instances Awaiter.
Open Scope Z_scope.

Section Props.
Context `{E : Enode} {S B : Type}.
Variable checker : S -> awaitableRequest -> Response (B := B) -> S * (bool * bool).

(** Nothing is lost: a request leaves the queue only to be marked, and a mark
    is never changed. *)
Definition accounts (a a' : awaiter (S := S)) : Prop :=
  (forall p e, marks a !! p = Some e -> marks a' !! p = Some e) /\
  (forall x, x ∈ queue a -> x ∈ queue a' \/ is_Some (marks a' !! aw_ptr x)).

Lemma accounts_insert (q1 q2 : list awaitableRequest) el (m : gmap nat (option awaiterError)) err c c' (s s' : S) :
  m !! aw_ptr el = None ->
  accounts (mkAwaiter (q1 ++ el :: q2) m c s) (mkAwaiter (q1 ++ q2) (<[aw_ptr el := err]> m) c' s').
Proof.
  intros Hm. split; simpl.
  - intros p e Hp. rewrite lookup_insert_ne; [done|]. congruence.
  - intros x Hx. rewrite elem_of_app, elem_of_cons in Hx. rewrite elem_of_app.
    destruct Hx as [Hx|[->|Hx]]; [tauto| |tauto].
    right. rewrite lookup_insert_eq. by eexists.
Qed.

Lemma handle_reply_accounts now reply a a' :
  awaiter_inv a -> handle_reply checker now reply a = Ok a' -> accounts a a'.
Proof.
  intros (Hnd & Hopen & Hc). unfold handle_reply. destruct a as [q m c s]; simpl in *.
  destruct (reply_loop_split checker now reply [] q m s)
    as [[_ ->]|(q1 & el & q2 & -> & Hm & _ & ->)].
  { simpl. intros [= <-]. split; simpl; eauto. }
  assert (el ∈ q1 ++ el :: q2) as Hin by (apply elem_of_app; right; by left).
  rewrite (reply_loop_hit checker _ _ _ _ _ _ _ Hm (Hopen _ Hin)).
  destruct (verdict checker now s el reply) as [s' [err|]]; simpl; intros [= <-].
  - by apply accounts_insert, Hopen.
  - split; simpl; eauto.
Qed.

Lemma checkDeadlines_accounts now a a' n :
  awaiter_inv a -> checkDeadlines now a = Ok (a', n) -> accounts a a'.
Proof.
  intros Hinv. rewrite checkDeadlines_spec by done. intros [= <- <-].
  destruct Hinv as (_ & Hopen & _). destruct (swept_perm now (queue a)) as [Hp _].
  split; simpl.
  - intros p e He. rewrite mark_all_lookup. case_decide as Hin; [|done].
    change (p ∈ aw_ptr <$> (swept now (queue a)).1) in Hin.
    apply list_elem_of_fmap in Hin as (x & -> & Hx).
    rewrite Hopen in He; [done|]. rewrite Hp. apply elem_of_app. by left.
  - intros x Hx. rewrite Hp in Hx. apply elem_of_app in Hx as [Hx|Hx]; [right|by left].
    rewrite mark_all_lookup, decide_True; [by eexists|]. by apply (list_elem_of_fmap_2 aw_ptr).
Qed.

(** every iteration of the awaiter's loop completes: no request's channel
    is closed twice.  A request leaves the queue only when it is marked, a
    mark never changes, and the sweep's interval stays between 100
    milliseconds and 5 seconds. *)
Theorem awaiter_marks_once s a o :
  rtc (awaiter_ok checker) (NewAwaiter s) a -> awaiter_step checker a o ->
  exists a', o = Ok a' /\
    (forall p e, marks a !! p = Some e -> marks a' !! p = Some e) /\
    (forall x, x ∈ queue a -> x ∈ queue a' \/ is_Some (marks a' !! aw_ptr x)) /\
    (forall x, x ∈ queue a' -> marks a' !! aw_ptr x = None) /\
    100 * Millisecond <= current a' <= 5 * Second.
Proof.
  intros Hr Hs. pose proof (awaiter_reach _ _ _ Hr (new_inv s)) as Hinv.
  destruct (awaiter_step_inv _ _ _ Hinv Hs) as (a' & Ho & Hinv').
  assert (accounts a a') as [H1 H2].
  { destruct Hs as [now reply|r Hr' Hm|now].
    - by eapply handle_reply_accounts.
    - injection Ho as <-. split; simpl; [done|]. intros x Hx. left. apply elem_of_app. by left.
    - unfold handle_tick in Ho. apply outcome_bind_ok in Ho as ([a1 n] & Hc & Hn).
      injection Hn as <-. by apply (checkDeadlines_accounts _ _ _ _ Hinv) in Hc. }
  destruct Hinv' as (_ & Hopen & Hb). exists a'. by split_and!; try apply Hb.
Qed.

(** a reply concerns the first request, in order of arrival, with its
    node, packet kind and address, and no other: that request fails when it
    has expired or its checker refuses the reply, completes when the checker
    accepts and is done, and otherwise stays where it is.  A reply that
    matches no request changes nothing. *)
Theorem handle_reply_first s now reply a :
  rtc (awaiter_ok checker) (NewAwaiter s) a ->
  (Forall (fun x => matches x reply = false) (queue a) /\ handle_reply checker now reply a = Ok a) \/
  exists q1 el q2, queue a = q1 ++ el :: q2 /\ matches el reply = true /\
    Forall (fun x => matches x reply = false) q1 /\
    handle_reply checker now reply a = Ok (
      match verdict checker now (ext a) el reply with
      | (s', Some err) => mkAwaiter (q1 ++ q2) (<[aw_ptr el := err]> (marks a)) (current a) s'
      | (s', None) => mkAwaiter (queue a) (marks a) (current a) s'
      end).
Proof.
  intros Hr. destruct (awaiter_reach _ _ _ Hr (new_inv s)) as (_ & Hopen & _).
  unfold handle_reply. destruct a as [q m c e]; simpl in *.
  destruct (reply_loop_split checker now reply [] q m e)
    as [[Hf ->]|(q1 & el & q2 & -> & Hm & Hf & ->)]; [by left|].
  right. exists q1, el, q2. split_and!; [done..|].
  assert (el ∈ q1 ++ el :: q2) as Hin by (apply elem_of_app; right; by left).
  rewrite (reply_loop_hit checker _ _ _ _ _ _ _ Hm (Hopen _ Hin)).
  by destruct (verdict checker now e el reply) as [s' [err|]].
Qed.

(** In order of arrival, no request expires before an earlier one. *)
Definition by_expiration (q : list awaitableRequest) : Prop :=
  StronglySorted (fun x y => rq_expiration (aw_r x) <= rq_expiration (aw_r y)) q.

Lemma not_expired_filter now q :
  Forall (fun x => expired now x = false) q ->
  filter (fun x => expired now x = false) q = q /\ filter (fun x => expired now x = true) q = [].
Proof.
  induction 1 as [|x q Hx _ [IH1 IH2]]; [done|]. rewrite !filter_cons, IH1, IH2.
  rewrite decide_True, decide_False by congruence. done.
Qed.

Lemma sorted_not_expired now x q :
  by_expiration (x :: q) -> expired now x = false -> Forall (fun x => expired now x = false) (x :: q).
Proof.
  intros Hs Hx. inversion_clear Hs as [|? ? _ Hf]. constructor; [done|].
  eapply Forall_impl; [exact Hf|]. simpl. intros y Hy. unfold expired in *.
  apply bool_decide_eq_false in Hx. apply bool_decide_eq_false. lia.
Qed.

Lemma drop_expired_sorted now q :
  by_expiration q ->
  drop_expired now q = (filter (fun x => expired now x = true) q, filter (fun x => expired now x = false) q).
Proof.
  induction q as [|x q IH]; intros Hs; simpl; [done|].
  destruct (expired now x) eqn:Hx.
  - inversion_clear Hs as [|? ? Hs' _]. rewrite IH by done. rewrite !filter_cons.
    rewrite decide_True, decide_False by congruence. done.
  - destruct (not_expired_filter now (x :: q)) as [-> ->]; [by apply sorted_not_expired|done].
Qed.

(** when no request expires before an earlier one, the sweep fails all
    the requests that have expired, with the deadline error, keeps all the
    others in order, and returns how many it failed. *)
Theorem checkDeadlines_complete s now a :
  rtc (awaiter_ok checker) (NewAwaiter s) a -> by_expiration (queue a) ->
  exists a' n, checkDeadlines now a = Ok (a', n) /\
    queue a' = filter (fun x => expired now x = false) (queue a) /\
    n = length (filter (fun x => expired now x = true) (queue a)) /\
    forall x, x ∈ queue a ->
      marks a' !! aw_ptr x = if expired now x then Some (Some errRespDeadlinePassed) else None.
Proof.
  intros Hr Hs. pose proof (awaiter_reach _ _ _ Hr (new_inv s)) as Hinv.
  rewrite checkDeadlines_spec by done. do 2 eexists. split; [done|]. simpl.
  assert ((swept now (queue a)).2 = filter (fun x => expired now x = false) (queue a) /\
    Permutation (swept now (queue a)).1 (filter (fun x => expired now x = true) (queue a))) as [H2 H1].
  { destruct (queue a) as [|h els]; simpl; [done|]. inversion Hs as [|? ? Hs' _]; subst.
    rewrite drop_expired_sorted by done. destruct (expired now h) eqn:Hh; simpl.
    - rewrite !filter_cons, decide_False, decide_True by congruence. split; [done|].
      symmetry. apply Permutation_cons_append.
    - pose proof (sorted_not_expired _ _ _ Hs Hh) as Hall.
      apply Forall_cons in Hall as [_ Hall]. rewrite !filter_cons, decide_True, decide_False by congruence.
      by destruct (not_expired_filter now els Hall) as [-> ->]. }
  split; [done|]. split; [by rewrite H1|]. intros x Hx. rewrite mark_all_lookup.
  destruct Hinv as (Hnd & Hopen & _). destruct (swept_perm now (queue a)) as [Hp Hg].
  destruct (expired now x) eqn:He.
  - rewrite decide_True; [done|]. apply (list_elem_of_fmap_2 aw_ptr). rewrite H1.
    by apply list_elem_of_filter.
  - rewrite decide_False; [by apply Hopen|]. intros Hin.
    rewrite Hp, map_app in Hnd. apply NoDup_app in Hnd as (_ & Hd & _). apply (Hd _ Hin).
    apply (list_elem_of_fmap_2 aw_ptr). rewrite H2. by apply list_elem_of_filter.
Qed.

(** out of order, the sweep can leave expired requests in the queue: it
    looks no further than the first request, after the head, that has not
    expired. *)
Theorem checkDeadlines_stops s now a h x q :
  rtc (awaiter_ok checker) (NewAwaiter s) a -> queue a = h :: x :: q -> expired now x = false ->
  exists a' n, checkDeadlines now a = Ok (a', n) /\ (exists q', queue a' = q' ++ x :: q) /\
    forall y, y ∈ q -> expired now y = true -> y ∈ queue a' /\ marks a' !! aw_ptr y = None.
Proof.
  intros Hr Hq Hx. pose proof (awaiter_reach _ _ _ Hr (new_inv s)) as Hinv.
  destruct (checkDeadlines_inv checker now a Hinv) as (a1 & n1 & Heq1 & (_ & Hopen1 & _) & _).
  rewrite checkDeadlines_spec in Heq1 |- * by done. injection Heq1 as <- <-. do 2 eexists. split; [done|].
  simpl in *. rewrite Hq in *. simpl in *. rewrite Hx in *.
  destruct (expired now h); simpl in *.
  - split; [by exists []|]. intros y Hy _. split; [by right|]. apply Hopen1. by right.
  - split; [by exists [h]|]. intros y Hy _. split; [by do 2 right|]. apply Hopen1. by do 2 right.
Qed.

(** when two requests match a reply and the checker of the first refuses
    it, the first request fails and the second, which the reply may answer,
    is not looked at. *)
Theorem refused_reply_fails_first s now reply a q1 x q2 y q3 s' :
  rtc (awaiter_ok checker) (NewAwaiter s) a ->
  queue a = q1 ++ x :: q2 ++ y :: q3 -> Forall (fun z => matches z reply = false) q1 ->
  matches x reply = true -> matches y reply = true -> now <= rq_expiration (aw_r x) ->
  checker (ext a) x reply = (s', (false, false)) ->
  exists a', handle_reply checker now reply a = Ok a' /\
    marks a' !! aw_ptr x = Some (Some errInvalidResponse) /\ y ∈ queue a' /\ marks a' !! aw_ptr y = None.
Proof.
  intros Hr Hq Hf Hx Hy Hnow Hck. destruct (awaiter_reach _ _ _ Hr (new_inv s)) as (Hnd & Hopen & _).
  unfold handle_reply. rewrite Hq in *. rewrite reply_loop_skip by done.
  assert (x ∈ q1 ++ x :: q2 ++ y :: q3) as Hin by (apply elem_of_app; right; by left).
  rewrite (reply_loop_hit checker _ _ _ _ _ _ _ Hx (Hopen _ Hin)).
  unfold verdict. rewrite decide_False by lia. rewrite Hck. simpl. eexists. split; [done|]. simpl.
  split; [apply lookup_insert_eq|].
  destruct (remove_middle _ _ _ _ (Some errInvalidResponse) Hnd Hopen) as [_ Hopen'].
  assert (y ∈ q1 ++ q2 ++ y :: q3) as Hy' by (rewrite !elem_of_app, elem_of_cons; tauto).
  split; [done|by apply Hopen'].
Qed.

(** The events of one request, as the loop sees them when it is alone in the
    queue. *)
Fixpoint await_loop (a : awaiter) (evs : list (await_event (S := S) (B := B))) : outcome (awaiter (S := S)) :=
  match evs with
  | [] => Ok a
  | EvEnv f :: evs' => await_loop (mkAwaiter (queue a) (marks a) (current a) (f (ext a))) evs'
  | EvSweep now :: evs' =>
      a' ← handle_tick now a; if queue a' is [] then Ok a' else await_loop a' evs'
  | EvReply now reply :: evs' =>
      a' ← handle_reply checker now reply a; if queue a' is [] then Ok a' else await_loop a' evs'
  end.


End Props.

(** ** A run of the concrete instance *)

Module Demo.

(** Two pings to one node, of which the peer answers the second. *)
Definition accepts (s : unit) (a : awaitableRequest) (r : Response (B := unit)) : unit * (bool * bool) :=
  let ok := bool_decide (aw_ptr a = 2%nat) in (s, (ok, ok)).

Definition ping (p : nat) (deadline : Z) : awaitableRequest :=
  mkAwaitable p (mkRequest (7 : @ID xor_enode) [8; 8; 8; 8] 2 deadline).
Definition pong : Response (B := unit) := mkResponse (7 : @ID xor_enode) [8; 8; 8; 8] 2 tt.

Definition waiting (l : list awaitableRequest) : awaiter (S := unit) :=
  fold_left (fun a r => handle_add r a) l (NewAwaiter tt).

Lemma waiting_reach l :
  NoDup (map aw_ptr l) -> rtc (awaiter_ok accepts) (NewAwaiter tt) (waiting l).
Proof.
  assert (forall l a, NoDup (map aw_ptr (queue a ++ l)) -> marks a = ∅ ->
    rtc (awaiter_ok accepts) a (fold_left (fun a r => handle_add r a) l a)) as Hgen.
  { clear. induction l as [|r l IH]; intros a Hnd Hm; simpl; [done|].
    eapply rtc_l; [apply (aw_add accepts a r)|].
    - rewrite map_app in Hnd. simpl in Hnd. apply NoDup_app in Hnd as (_ & Hd & _).
      intros Hin. apply (Hd _ Hin). by left.
    - by rewrite Hm.
    - apply IH; [|done]. simpl. by rewrite <- app_assoc. }
  intros Hnd. by apply Hgen.
Qed.

Definition two : list awaitableRequest := [ping 1 100; ping 2 200].

Lemma two_reach : rtc (awaiter_ok accepts) (NewAwaiter tt) (waiting two).
Proof. apply waiting_reach. by repeat constructor; set_solver. Qed.

Definition three : list awaitableRequest := [ping 1 100; ping 2 200; ping 3 50].

Lemma three_reach : rtc (awaiter_ok accepts) (NewAwaiter tt) (waiting three).
Proof. apply waiting_reach. by repeat constructor; set_solver. Qed.

End Demo.

Lemma awaiter_marks_once_witness :
  exists a', handle_tick 150 (Demo.waiting Demo.two) = Ok a'.
Proof.
  destruct (awaiter_marks_once Demo.accepts tt _ _ Demo.two_reach
              (aw_tick Demo.accepts _ 150)) as (a' & Ha & _).
  exists a'. exact Ha.
Defined.

Lemma handle_reply_first_witness :
  exists a', handle_reply Demo.accepts 50 Demo.pong (Demo.waiting [Demo.ping 1 100]) = Ok a'.
Proof.
  assert (rtc (awaiter_ok Demo.accepts) (NewAwaiter tt) (Demo.waiting [Demo.ping 1 100])) as Hr
    by (apply Demo.waiting_reach; by repeat constructor; set_solver).
  destruct (handle_reply_first Demo.accepts tt 50 Demo.pong _ Hr)
    as [[_ Hs]|(q1 & el & q2 & _ & _ & _ & Hs)]; eexists; exact Hs.
Defined.

Lemma checkDeadlines_complete_witness :
  exists a', checkDeadlines 150 (Demo.waiting Demo.two) = Ok (a', 1%nat) /\ queue a' = [Demo.ping 2 200].
Proof.
  destruct (checkDeadlines_complete Demo.accepts tt 150 _ Demo.two_reach) as (a' & n & Hc & Hq & Hn & _).
  { repeat constructor; simpl; lia. }
  exists a'. rewrite Hc, Hq, Hn. split; reflexivity.
Defined.

(** At 150 the third request, which expired at 50, stays behind the second. *)
Lemma checkDeadlines_stops_witness :
  exists a' n, checkDeadlines 150 (Demo.waiting Demo.three) = Ok (a', n) /\ Demo.ping 3 50 ∈ queue a'.
Proof.
  destruct (checkDeadlines_stops Demo.accepts tt 150 _ _ _ _ Demo.three_reach eq_refl eq_refl)
    as (a' & n & Hc & _ & Hs).
  exists a', n. split; [exact Hc|]. apply Hs; [by left|reflexivity].
Defined.

Lemma refused_reply_fails_first_witness :
  exists a', handle_reply Demo.accepts 50 Demo.pong (Demo.waiting Demo.two) = Ok a' /\
    Demo.ping 2 200 ∈ queue a'.
Proof.
  destruct (refused_reply_fails_first Demo.accepts tt 50 Demo.pong _ [] (Demo.ping 1 100) []
    (Demo.ping 2 200) [] tt Demo.two_reach) as (a' & Ha & _ & Hy & _);
    [reflexivity|constructor|reflexivity|reflexivity|simpl; lia|reflexivity|].
  exists a'. split; [exact Ha|exact Hy].
Defined.

