(* ===== verification/AwaiterCalls.v ===== *)
(** * crawler/net/discovery: the callers of the awaiter

    [AddPending] and [MatchResponse] of responseAwaiter.go hand what they are
    given to the goroutine of [run]; [execute] of handler.go adds a request,
    writes it and waits for its answer.  Any number of these calls run beside
    the one goroutine of Awaiter.v.  An iteration of its loop, which neither
    blocks nor looks at the calls, is one step; so is a write, which ends with
    or without an error. *)

From stdpp Require Import base list gmap relations.
From Stdlib Require Import ZArith Lia.
From S2P Require Import Prelude Golang External Instances Awaiter AwaiterProps.
Open Scope Z_scope.

Section Calls.
Context `{E : Enode} {S B : Type}.
Variable checker : S -> awaitableRequest -> Response (B := B) -> S * (bool * bool).

(** What [execute] returns: the writer's error, nothing for a request that
    nobody waits for, or the error of the request. *)
Inductive exec_end : Type :=
| WriteFailed
| Sent
| Answered (a : awaitableRequest) (err : option awaiterError).

(** Where a call is: at the select of [AddPending], before the write, at
    [Await], or at the end of [execute]; at the select of [MatchResponse], or at
    its end. *)
Inductive call : Type :=
| Adding (a : awaitableRequest)
| Writing (a : option awaitableRequest)
| Awaiting (a : awaitableRequest)
| Executed (e : exec_end)
| Matching (reply : Response (B := B))
| Matched (err : option awaiterError).

(** [own] is what the goroutine of [run] owns, [loops] how many of them there
    are, [closed] whether [done] is closed; [next] is the pointer the next
    allocation gives. *)
Record calls := mkCalls {
  own : awaiter (S := S); running : bool; loops : nat; closed : bool; next : nat; threads : list call }.

Definition Start (s : calls) : calls * option awaiterError :=
  if running s then (s, Some errAlreadyRunning)
  else (mkCalls (own s) true (Datatypes.S (loops s)) (closed s) (next s) (threads s), None).

Definition new_calls (s0 : S) : calls := (Start (mkCalls (NewAwaiter s0) false 0 false 0 [])).1.

(** A call begins: [AddPending] allocates the request. *)
Definition execute (r : Request) (await : bool) (s : calls) : calls :=
  if await then
    mkCalls (own s) (running s) (loops s) (closed s) (Datatypes.S (next s)) (threads s ++ [Adding (mkAwaitable (next s) r)])
  else mkCalls (own s) (running s) (loops s) (closed s) (next s) (threads s ++ [Writing None]).

Definition MatchResponse (reply : Response (B := B)) (s : calls) : calls :=
  mkCalls (own s) (running s) (loops s) (closed s) (next s) (threads s ++ [Matching reply]).

(** The call [i] comes to [t]. *)
Definition goto (i : nat) (t : call) (s : calls) : calls :=
  mkCalls (own s) (running s) (loops s) (closed s) (next s) (<[i := t]> (threads s)).

Definition set_own (s : calls) (a : awaiter (S := S)) : calls :=
  mkCalls a (running s) (loops s) (closed s) (next s) (threads s).

(** An iteration of the loop. *)
Definition loop (o : outcome (awaiter (S := S))) (s : calls) : outcome calls := a ← o; Ok (set_own s a).

(** [AddPending] at a closed [done] marks the request itself. *)
Definition mark_done (a : awaitableRequest) (s : calls) : outcome calls :=
  m ← mark (marks (own s)) a (Some errRespAwaiterDone);
  Ok (set_own s (mkAwaiter (queue (own s)) m (current (own s)) (ext (own s)))).

Definition after_write (a : option awaitableRequest) (failed : bool) : call :=
  if failed then Executed WriteFailed else match a with Some a => Awaiting a | None => Executed Sent end.

Inductive calls_step (s : calls) : outcome calls -> Prop :=
| cs_start : calls_step s (Ok (Start s).1)
| cs_execute r await : calls_step s (Ok (execute r await s))
| cs_match reply : calls_step s (Ok (MatchResponse reply s))
| cs_added i a :
    (0 < loops s)%nat -> threads s !! i = Some (Adding a) ->
    calls_step s (Ok (goto i (Writing (Some a)) (set_own s (handle_add a (own s)))))
| cs_add_done i a :
    closed s = true -> threads s !! i = Some (Adding a) ->
    calls_step s (s' ← mark_done a s; Ok (goto i (Writing (Some a)) s'))
| cs_written i a failed : threads s !! i = Some (Writing a) -> calls_step s (Ok (goto i (after_write a failed) s))
| cs_awaited i a err :
    threads s !! i = Some (Awaiting a) -> marks (own s) !! aw_ptr a = Some err ->
    calls_step s (Ok (goto i (Executed (Answered a err)) s))
| cs_matched i reply now :
    (0 < loops s)%nat -> threads s !! i = Some (Matching reply) ->
    calls_step s (s' ← loop (handle_reply checker now reply (own s)) s; Ok (goto i (Matched None) s'))
| cs_match_done i reply :
    closed s = true -> threads s !! i = Some (Matching reply) ->
    calls_step s (Ok (goto i (Matched (Some errRespAwaiterDone)) s))
| cs_tick now : (0 < loops s)%nat -> calls_step s (loop (handle_tick now (own s)) s)
| cs_done : (0 < loops s)%nat -> closed s = true -> calls_step s (Panic CloseOfClosedChannel).

Definition calls_ok (s s' : calls) : Prop := calls_step s (Ok s').

(** ** What a mark means *)

(** A reply the checker was asked about in time. *)
Definition checked (x : awaitableRequest) (verdict : bool * bool) : Prop :=
  exists now s reply s', matches x reply = true /\ now <= rq_expiration (aw_r x) /\ checker s x reply = (s', verdict).

Definition mark_ok (x : awaitableRequest) (err : option awaiterError) : Prop :=
  match err with
  | None => checked x (true, true)
  | Some errInvalidResponse => checked x (false, false)
  | Some errRespDeadlinePassed => exists now, rq_expiration (aw_r x) <= now
  | Some _ => False
  end.

(** A request is queued, or marked for a reason. *)
Definition settled (a : awaiter (S := S)) (x : awaitableRequest) : Prop :=
  x ∈ queue a \/ exists err, marks a !! aw_ptr x = Some err /\ mark_ok x err.

(** The pointers the goroutine has seen. *)
Definition known (a : awaiter (S := S)) (p : nat) : Prop := p ∈ aw_ptr <$> queue a \/ is_Some (marks a !! p).

(** An iteration settles what it removes and learns of no request. *)
Record moves (a a' : awaiter (S := S)) : Prop := {
  mv_marks : forall p e, marks a !! p = Some e -> marks a' !! p = Some e;
  mv_settled : forall x, x ∈ queue a -> settled a' x;
  mv_known : forall p, known a' p -> known a p }.

Lemma moves_refl_queue a c s' : moves a (mkAwaiter (queue a) (marks a) c s').
Proof. split; [done| |done]. intros x Hx. by left. Qed.

Lemma verdict_ok now s el reply s' err :
  matches el reply = true -> verdict checker now s el reply = (s', Some err) -> mark_ok el err.
Proof.
  intros Hm. unfold verdict. case_decide as Hn.
  { intros [= _ <-]. exists now. lia. }
  destruct (checker s el reply) as [s1 [[|] [|]]] eqn:Hc; intros [= _ <-]; exists now, s, reply, s1; (split; [done|]); (split; [lia|done]).
Qed.

Lemma handle_reply_moves now reply a a' : awaiter_inv a -> handle_reply checker now reply a = Ok a' -> moves a a'.
Proof.
  intros (Hnd & Hopen & _). unfold handle_reply. destruct a as [q m c s]; simpl in *.
  destruct (reply_loop_split checker now reply [] q m s) as [[_ ->]|(q1 & el & q2 & -> & Hm & _ & ->)].
  { intros [= <-]. apply (moves_refl_queue (mkAwaiter q m c s)). }
  assert (el ∈ q1 ++ el :: q2) as Hin by (apply elem_of_app; right; by left).
  rewrite (reply_loop_hit checker _ _ _ _ _ _ _ Hm (Hopen _ Hin)).
  destruct (verdict checker now s el reply) as [s' [err|]] eqn:Hv; simpl; intros [= <-].
  2: { apply (moves_refl_queue (mkAwaiter (q1 ++ el :: q2) m c s)). }
  split; simpl.
  - intros p e Hp. rewrite lookup_insert_ne; [done|]. intros <-. by rewrite Hopen in Hp.
  - intros x Hx. assert (x = el \/ x ∈ q1 ++ q2) as [->|Hx'] by (revert Hx; rewrite !elem_of_app, elem_of_cons; tauto).
    + right. exists err. simpl. rewrite lookup_insert_eq. split; [done|]. by eapply verdict_ok.
    + by left.
  - intros p [Hp|Hp]; unfold known in *; simpl in *.
    + left. rewrite fmap_app in *. simpl. set_solver.
    + destruct (decide (p = aw_ptr el)) as [->|Hne]; [left; by apply (list_elem_of_fmap_2 aw_ptr)|].
      right. by rewrite lookup_insert_ne in Hp.
Qed.

Lemma handle_tick_moves now a a' : awaiter_inv a -> handle_tick now a = Ok a' -> moves a a'.
Proof.
  intros Hinv. unfold handle_tick. rewrite checkDeadlines_spec by done. intros [= <-].
  destruct (swept_perm now (queue a)) as [Hp Hx]. destruct Hinv as (_ & Hopen & _). rewrite Forall_forall in Hx.
  split; simpl.
  - intros p e He. rewrite mark_all_lookup, decide_False; [done|]. change (p ∉ aw_ptr <$> (swept now (queue a)).1).
    intros (x & -> & Hin)%list_elem_of_fmap. rewrite Hopen in He; [done|]. rewrite Hp. set_solver.
  - intros x Hin. rewrite Hp in Hin. apply elem_of_app in Hin as [Hin|Hin]; [right|by left].
    exists (Some errRespDeadlinePassed). simpl. rewrite mark_all_lookup, decide_True by (by apply (list_elem_of_fmap_2 aw_ptr)).
    split; [done|]. exists now. by apply Hx, bool_decide_eq_true in Hin.
  - intros p [Hin|Hin]; unfold known in *; simpl in *.
    + left. rewrite Hp, fmap_app. set_solver.
    + rewrite mark_all_lookup in Hin. case_decide as Hd; [|by right]. left. rewrite Hp, fmap_app.
      change (p ∈ aw_ptr <$> (swept now (queue a)).1) in Hd. set_solver.
Qed.

Lemma settled_moves a a' x : moves a a' -> settled a x -> settled a' x.
Proof. intros [Hm Hs _] [Hx|(err & He & Hok)]; [by apply Hs|right; eauto]. Qed.

(** ** The invariant *)

Definition call_ok (a : awaiter (S := S)) (t : call) : Prop :=
  match t with
  | Writing (Some x) | Awaiting x => settled a x
  | Executed (Answered x err) => marks a !! aw_ptr x = Some err /\ mark_ok x err
  | Matched err => err = None
  | _ => True
  end.

Definition is_adding (t : call) : option nat := match t with Adding a => Some (aw_ptr a) | _ => None end.

Record calls_inv (s0 : S) (s : calls) : Prop := {
  ci_reach : rtc (awaiter_ok checker) (NewAwaiter s0) (own s);
  ci_running : running s = true;
  ci_loops : loops s = 1%nat;
  ci_closed : closed s = false;
  ci_known : forall p, known (own s) p -> (p < next s)%nat;
  ci_adding : forall i t p, threads s !! i = Some t -> is_adding t = Some p -> (p < next s)%nat /\ ~ known (own s) p;
  ci_distinct : forall i j t u p, threads s !! i = Some t -> threads s !! j = Some u ->
    is_adding t = Some p -> is_adding u = Some p -> i = j;
  ci_calls : forall i t, threads s !! i = Some t -> call_ok (own s) t }.

Lemma ci_own s0 s : calls_inv s0 s -> awaiter_inv (own s).
Proof. intros Hi. eapply awaiter_reach; [apply Hi|apply new_inv]. Qed.

Lemma call_ok_moves a a' t : moves a a' -> call_ok a t -> call_ok a' t.
Proof.
  intros Hm. destruct t as [x|[x|]|x|[| |x err]|reply|err]; simpl; try done; try by apply settled_moves.
  intros [He Hok]. split; [by apply (mv_marks _ _ Hm)|done].
Qed.

Lemma new_callers_inv s0 : calls_inv s0 (new_calls s0).
Proof.
  split; simpl; try done.
  intros p [Hp|[e Hp]]; simpl in Hp; [by apply elem_of_nil in Hp|by rewrite lookup_empty in Hp].
Qed.

Lemma set_own_inv s0 s a :
  calls_inv s0 s -> awaiter_ok checker (own s) a -> moves (own s) a -> calls_inv s0 (set_own s a).
Proof.
  intros [] Ha Hm. split; simpl; try done.
  - by eapply rtc_r.
  - intros p Hp. by apply ci_known0, (mv_known _ _ Hm).
  - intros i t p Ht Hp. destruct (ci_adding0 i t p Ht Hp) as [? Hk]. split; [done|]. intros Hk'. by apply Hk, (mv_known _ _ Hm).
  - intros i t Ht. eapply call_ok_moves; [done|]. by eapply ci_calls0.
Qed.

Lemma goto_inv s0 s i t : calls_inv s0 s -> call_ok (own s) t -> is_adding t = None -> calls_inv s0 (goto i t s).
Proof.
  intros [] Hok Ht. split; simpl; try done.
  - intros j u p [(<- & <- & _)|[_ Hu]]%list_lookup_insert_Some; [congruence|by eapply ci_adding0].
  - intros j k u v p [(<- & <- & _)|[_ Hu]]%list_lookup_insert_Some [(<- & <- & _)|[_ Hv]]%list_lookup_insert_Some;
      [done|congruence|congruence|by eapply ci_distinct0].
  - intros j u [(<- & <- & _)|[_ Hu]]%list_lookup_insert_Some; [done|by eapply ci_calls0].
Qed.

(** A request that is handed over is new to the goroutine. *)
Lemma added_inv s0 s i a :
  calls_inv s0 s -> threads s !! i = Some (Adding a) ->
  calls_inv s0 (goto i (Writing (Some a)) (set_own s (handle_add a (own s)))).
Proof.
  intros [] Hi. destruct (ci_adding0 i _ _ Hi eq_refl) as [Hlt Hk].
  assert (forall p, known (handle_add a (own s)) p -> p = aw_ptr a \/ known (own s) p) as Hadd.
  { intros p [Hp|Hp]; unfold known in *; simpl in *; [|tauto]. rewrite fmap_app in Hp. set_solver. }
  split; simpl; try done.
  - eapply rtc_r; [done|]. apply aw_add; [intros Hin; apply Hk; by left|].
    destruct (marks (own s) !! aw_ptr a) eqn:Hm; [|done]. destruct Hk. right. by rewrite Hm.
  - intros p [->|Hp]%Hadd; [done|by apply ci_known0].
  - intros j u p [(<- & <- & _)|[Hne Hu]]%list_lookup_insert_Some Hp; [done|].
    destruct (ci_adding0 j u p Hu Hp) as [Hp' Hk']. split; [done|]. intros [->|?]%Hadd; [|done].
    by apply Hne, (ci_distinct0 i j _ _ _ Hi Hu eq_refl Hp).
  - intros j k u v p [(<- & <- & _)|[_ Hu]]%list_lookup_insert_Some [(<- & <- & _)|[_ Hv]]%list_lookup_insert_Some;
      [done|done|done|by eapply ci_distinct0].
  - intros j u [(<- & <- & _)|[_ Hu]]%list_lookup_insert_Some; [left; apply elem_of_snoc|].
    specialize (ci_calls0 j u Hu). destruct u as [x|[x|]|x|[| |x err]|reply|err]; simpl in *; try done;
      (destruct ci_calls0 as [Hx|Hx]; [left; simpl; set_solver|by right]).
Qed.

(** A call that begins. *)
Lemma begin_inv s0 s t n :
  calls_inv s0 s -> (next s <= n)%nat -> call_ok (own s) t ->
  (forall p, is_adding t = Some p -> p = next s /\ n = Datatypes.S (next s)) ->
  calls_inv s0 (mkCalls (own s) (running s) (loops s) (closed s) n (threads s ++ [t])).
Proof.
  intros [] Hn Hok Ht. split; simpl; try done.
  - intros p Hp. specialize (ci_known0 p Hp). lia.
  - intros i u p [[_ Hu]|[-> <-]]%lookup_snoc_Some Hp.
    + destruct (ci_adding0 i u p Hu Hp). split; [lia|done].
    + destruct (Ht p Hp) as [-> ->]. split; [lia|]. intros Hk%ci_known0. lia.
  - intros i j u v p [[_ Hu]|[-> <-]]%lookup_snoc_Some [[_ Hv]|[-> <-]]%lookup_snoc_Some Hp Hq; [by eapply ci_distinct0| | |done].
    + destruct (Ht p Hq) as [-> _]. destruct (ci_adding0 i u _ Hu Hp). lia.
    + destruct (Ht p Hp) as [-> _]. destruct (ci_adding0 j v _ Hv Hq). lia.
  - intros i u [[_ Hu]|[-> <-]]%lookup_snoc_Some; [by eapply ci_calls0|done].
Qed.

(** An iteration of the loop completes. *)
Lemma reply_iterates s0 s now reply :
  calls_inv s0 s -> exists a, handle_reply checker now reply (own s) = Ok a /\ calls_inv s0 (set_own s a).
Proof.
  intros Hi. pose proof (ci_own _ _ Hi) as Ha. destruct (handle_reply_inv checker now reply _ Ha) as (a & He & _).
  exists a. split; [done|]. apply set_own_inv; [done| |by eapply handle_reply_moves].
  unfold awaiter_ok. rewrite <- He. constructor.
Qed.

Lemma tick_iterates s0 s now :
  calls_inv s0 s -> exists a, handle_tick now (own s) = Ok a /\ calls_inv s0 (set_own s a).
Proof.
  intros Hi. pose proof (ci_own _ _ Hi) as Ha.
  destruct (awaiter_step_inv checker _ _ Ha (aw_tick checker (own s) now)) as (a & He & _).
  exists a. split; [done|]. apply set_own_inv; [done| |by eapply handle_tick_moves].
  unfold awaiter_ok. rewrite <- He. constructor.
Qed.

(** No step panics, and the steps of a closed [done] are not taken. *)
Lemma calls_step_inv s0 s o : calls_inv s0 s -> calls_step s o -> exists s', o = Ok s' /\ calls_inv s0 s'.
Proof.
  intros Hi Hs. pose proof (ci_closed _ _ Hi) as Hc.
  destruct Hs as [|r await|reply|i a _ Ht|i a Hd|i a failed Ht|i a err Ht Hm|i reply now _ Ht|i reply Hd|now|_ Hd];
    try congruence; try (eexists; split; [done|]).
  - unfold Start. by rewrite (ci_running _ _ Hi).
  - destruct await; (apply begin_inv; [done|lia|done|]); intros p Hp; simpl in Hp; [by simplify_eq|done].
  - apply begin_inv; [done|lia|done|]. done.
  - by apply added_inv.
  - pose proof (ci_calls _ _ Hi i _ Ht) as Hok. destruct failed, a; by apply goto_inv.
  - apply goto_inv; [done| |done]. split; [done|]. destruct (ci_calls _ _ Hi i _ Ht) as [Hq|(err' & He & Hok)]; [|congruence].
    destruct (ci_own _ _ Hi) as (_ & Hopen & _). by rewrite Hopen in Hm.
  - destruct (reply_iterates s0 s now reply Hi) as (a & -> & Hi'). eexists. split; [done|]. by apply goto_inv.
  - destruct (tick_iterates s0 s now Hi) as (a & -> & Hi'). by eexists.
Qed.

Lemma callers_reach s0 s : rtc calls_ok (new_calls s0) s -> calls_inv s0 s.
Proof.
  apply rtc_invariant; [|apply new_callers_inv].
  intros a b Ha Hs. destruct (calls_step_inv _ _ _ Ha Hs) as (b' & [= <-] & Hb). done.
Qed.

(** ** Every call can return *)

(** A tick after every deadline answers every request that was added. *)
Lemma swept_all now q : Forall (fun x => rq_expiration (aw_r x) <= now) q -> (swept now q).2 = [].
Proof.
  assert (forall l, Forall (fun x => rq_expiration (aw_r x) <= now) l -> drop_expired now l = (l, [])) as Hd.
  { induction 1 as [|x l Hx _ IH]; [done|]. simpl. unfold expired. rewrite bool_decide_true by done. by rewrite IH. }
  destruct 1 as [|x l Hx Hl]; [done|]. simpl. rewrite Hd by done. unfold expired. by rewrite bool_decide_true.
Qed.

Lemma late_tick s0 s now :
  calls_inv s0 s -> Forall (fun x => rq_expiration (aw_r x) <= now) (queue (own s)) ->
  exists s', calls_ok s s' /\ threads s' = threads s /\ calls_inv s0 s' /\
    forall x, settled (own s') x -> is_Some (marks (own s') !! aw_ptr x).
Proof.
  intros Hi Hq. destruct (tick_iterates s0 s now Hi) as (a & Ht & Hi'). exists (set_own s a). split_and!; try done.
  - unfold calls_ok. replace (Ok (set_own s a)) with (loop (handle_tick now (own s)) s) by by rewrite Ht.
    constructor. rewrite (ci_loops _ _ Hi). lia.
  - intros x. unfold handle_tick in Ht. rewrite (checkDeadlines_spec checker _ _ (ci_own _ _ Hi)) in Ht.
    injection Ht as <-. intros [Hx|(err & He & _)]; simpl in *; [|by eexists].
    rewrite swept_all in Hx by done. by apply elem_of_nil in Hx.
Qed.

Definition latest (q : list awaitableRequest) : Z := foldr (fun x t => Z.max (rq_expiration (aw_r x)) t) 0 q.

Lemma latest_spec q : Forall (fun x => rq_expiration (aw_r x) <= latest q) q.
Proof.
  induction q as [|x q IH]; constructor; simpl; [lia|]. eapply Forall_impl; [exact IH|]. simpl. lia.
Qed.

(** The steps a call has still to make. *)
Definition remaining (t : call) : nat :=
  match t with Adding _ => 3 | Writing _ => 2 | Awaiting _ | Matching _ => 1 | Executed _ | Matched _ => 0 end.

Definition work (s : calls) : nat := sum_list_with remaining (threads s).

Lemma work_goto i t t' s :
  threads s !! i = Some t -> (remaining t' < remaining t)%nat -> (work (goto i t' s) < work s)%nat.
Proof.
  intros Hi Hlt. unfold work, goto. simpl. rewrite insert_take_drop by by eapply lookup_lt_Some.
  rewrite <- (take_drop_middle _ _ _ Hi) at 3. rewrite !sum_list_with_app. simpl. lia.
Qed.

Lemma call_returns s0 s :
  calls_inv s0 s -> work s <> 0%nat ->
  exists s', rtc calls_ok s s' /\ calls_inv s0 s' /\ length (threads s') = length (threads s) /\ (work s' < work s)%nat.
Proof.
  intros Hi Hw.
  assert (exists i t, threads s !! i = Some t /\ remaining t <> 0%nat) as (i & t & Ht & Hr).
  { revert Hw. unfold work. induction (threads s) as [|t l IH]; [done|]. simpl. intros Hw.
    destruct (decide (remaining t = 0%nat)) as [Hz|Hz]; [|by exists 0%nat, t].
    destruct IH as (i & u & Hu & Hr); [lia|]. by exists (Datatypes.S i), u. }
  assert (forall s1 t1 t', threads s1 = threads s -> threads s1 !! i = Some t1 -> (remaining t' < remaining t1)%nat ->
    rtc calls_ok s s1 -> calls_inv s0 s1 -> (forall s2, threads s2 = threads s1 -> calls_ok s1 (goto i t' s2) ->
    exists s', rtc calls_ok s s' /\ calls_inv s0 s' /\ length (threads s') = length (threads s) /\ (work s' < work s)%nat)) as Hgo.
  { intros s1 t1 t' He1 Ht1 Hlt Hr1 Hi1 s2 He2 Hs. exists (goto i t' s2).
    destruct (calls_step_inv _ _ _ Hi1 Hs) as (s' & [= <-] & Hi'). split_and!; [by eapply rtc_r|done| |].
    - simpl. rewrite length_insert. congruence.
    - assert (work s = work s2) as -> by (unfold work; congruence). eapply work_goto; [|done]. congruence. }
  assert (0 < loops s)%nat as Hl by (rewrite (ci_loops _ _ Hi); lia).
  destruct t as [a|a|a|e|reply|err]; simpl in Hr; try done.
  - refine (Hgo s _ (Writing (Some a)) eq_refl Ht _ _ Hi (set_own s (handle_add a (own s))) eq_refl _); [simpl; lia|done|].
    by apply cs_added.
  - refine (Hgo s _ (after_write a false) eq_refl Ht _ _ Hi s eq_refl _); [destruct a; simpl; lia|done|]. by apply cs_written.
  - destruct (late_tick s0 s _ Hi (latest_spec _)) as (s1 & Hs1 & He1 & Hi1 & Hm).
    rewrite <- He1 in Ht. destruct (Hm a (ci_calls _ _ Hi1 i _ Ht)) as [err Herr].
    refine (Hgo s1 _ (Executed (Answered a err)) He1 Ht _ _ Hi1 s1 eq_refl _); [simpl; lia|by apply rtc_once|]. by apply cs_awaited.
  - destruct (reply_iterates s0 s 0 reply Hi) as (a & Ha & _).
    refine (Hgo s _ (Matched None) eq_refl Ht _ _ Hi (set_own s a) eq_refl _); [simpl; lia|done|].
    pose proof (cs_matched s i reply 0 Hl Ht) as Hs. by rewrite Ha in Hs.
Qed.

Definition returned (t : call) : Prop := match t with Executed _ | Matched _ => True | _ => False end.

Lemma calls_return s0 s :
  calls_inv s0 s -> exists s', rtc calls_ok s s' /\ length (threads s') = length (threads s) /\ Forall returned (threads s').
Proof.
  remember (work s) as n eqn:En. revert s En. induction n as [n IH] using lt_wf_ind. intros s -> Hi.
  destruct (decide (work s = 0%nat)) as [Hz|Hz].
  - exists s. split_and!; [done..|]. revert Hz. unfold work.
    induction (threads s) as [|t l IHl]; [constructor|]. simpl. intros Hz. constructor; [by destruct t; simpl in *; try lia|apply IHl; lia].
  - destruct (call_returns s0 s Hi Hz) as (s1 & Hr & Hi1 & Hl & Hlt). destruct (IH _ Hlt s1 eq_refl Hi1) as (s' & Hr' & Hl' & Hf).
    exists s'. split_and!; [by etransitivity|congruence|done].
Qed.


End Calls.

(** ** A ping and its pong *)

Module PingPong.

Definition accept (s : unit) (a : awaitableRequest) (r : Response (B := unit)) : unit * (bool * bool) := (s, (true, true)).

Definition ping : Request := mkRequest (7 : @ID xor_enode) [8; 8; 8; 8] 2 100.
Definition pong : Response (B := unit) := mkResponse (7 : @ID xor_enode) [8; 8; 8; 8] 2 tt.

(** A ping is sent and answered. *)
Definition pinged : calls (S := unit) (B := unit) :=
  goto 0 (Awaiting (mkAwaitable 0 ping))
    (goto 0 (Writing (Some (mkAwaitable 0 ping)))
       (let s := execute ping true (new_calls tt) in set_own s (handle_add (mkAwaitable 0 ping) (own s)))).

Definition answered : calls (S := unit) (B := unit) :=
  goto 0 (Executed (Answered (mkAwaitable 0 ping) None))
    (goto 1 (Matched None)
       (let s := MatchResponse pong pinged in set_own s (mkAwaiter [] {[0%nat := None]} (current (own s)) tt))).

Lemma pinged_reach : rtc (calls_ok accept) (new_calls tt) pinged.
Proof.
  eapply rtc_l; [exact (cs_execute accept _ ping true)|].
  eapply rtc_l; [by apply (cs_added accept (execute ping true (new_calls tt)) 0 (mkAwaitable 0 ping)); [simpl; lia|]|].
  apply rtc_once. by apply (cs_written accept _ 0 (Some (mkAwaitable 0 ping)) false).
Qed.

Lemma answered_reach : rtc (calls_ok accept) (new_calls tt) answered.
Proof.
  etransitivity; [exact pinged_reach|].
  eapply rtc_l; [exact (cs_match accept _ pong)|].
  eapply rtc_l; [by apply (cs_matched accept (MatchResponse pong pinged) 1 pong 50); [simpl; lia|]|].
  apply rtc_once. by apply (cs_awaited accept _ 0 (mkAwaitable 0 ping) None).
Qed.

End PingPong.

