(* ===== verification/Acceptor.v ===== *)
(** * crawler/net/discovery: acceptor.go and listener.go

    The per-address rate limiter, the acceptor that hands packets to a pool
    of workers, and the listener that reads packets from the connection. *)

From stdpp Require Import base list gmap relations.
From Stdlib Require Import ZArith Lia Permutation.
From S2P Require Import Prelude Golang.
Open Scope Z_scope.

(** ** The limiter *)

(** The address of the record is only kept for reading, and left out. *)
Record acceptLimit := mkAcceptLimit { c : Z; last : Z }.

Record limiter := mkLimiter {
  timeDeltaTh : Z;
  bound : Z;
  m : gmap (list Z) acceptLimit }.

(** The counter after a packet: [elapsed] since the last packet. *)
Definition count_packet (th : Z) (v : acceptLimit) (elapsed : Z) : outcome Z :=
  let c1 := i64 (c v + 1) in
  if decide (elapsed > th) then
    q ← div_i64 elapsed (i64 (th * th));
    let c2 := i64 (c1 - i64 (q + 1)) in
    Ok (if decide (c2 < 0) then 0 else c2)
  else Ok c1.

(** [now] and [now'] are the two readings of the clock. *)
Definition update (now now' : Z) (l : limiter) (ip : IP) : outcome limiter :=
  key ← to_array4 (To4 ip);
  let v := default (mkAcceptLimit 0 0) (m l !! key) in
  c' ← count_packet (timeDeltaTh l) v (time_Since now (time_Unix (last v)));
  Ok (mkLimiter (timeDeltaTh l) (bound l)
        (<[key := mkAcceptLimit c' (to_Unix now')]> (m l))).

Definition isAbove (l : limiter) (ip : IP) : outcome bool :=
  key ← to_array4 (To4 ip);
  let v := default (mkAcceptLimit 0 0) (m l !! key) in
  Ok (bool_decide (c v > bound l)).

(** ** The acceptor: one call of [Accept] *)

Record acceptorJob := mkJob { data : list Z; from : IP }.

(** [started] is [once]; [sent] are the jobs [send] offers to the workers,
    whose side is the system [pool_step] below. *)
Record poolAcceptor := mkPoolAcceptor {
  limit : bool;
  limiter_ : limiter;
  started : bool;
  sent : list acceptorJob }.

Definition send (a : poolAcceptor) (j : acceptorJob) : poolAcceptor :=
  mkPoolAcceptor (limit a) (limiter_ a) (started a) (sent a ++ [j]).

(** The boolean is the rate-limit error. *)
Definition Accept (now now' : Z) (d : list Z) (ip : IP) (a : poolAcceptor)
    : outcome (poolAcceptor * bool) :=
  let a := mkPoolAcceptor (limit a) (limiter_ a) true (sent a) in
  if limit a then
    l ← update now now' (limiter_ a) ip;
    let a := mkPoolAcceptor (limit a) l (started a) (sent a) in
    above ← isAbove l ip;
    if (above : bool) then Ok (a, true) else Ok (send a (mkJob d ip), false)
  else Ok (send a (mkJob d ip), false).

(** ** The listener *)

Definition maxPacketSize : nat := 1280.

(** A read of the connection; the clock readings belong to the packet. *)
Inductive read : Type :=
| ReadOk (d : list Z) (ip : IP) (now now' : Z)
| TemporaryError
| EOF
| OtherError.

Record listener := mkListener { okayPackets : Z; invalidPackets : Z }.

(** [loop] over the reads of the connection, until one fails for good. *)
Fixpoint loop (reads : list read) (l : listener) (a : poolAcceptor) : outcome (listener * poolAcceptor) :=
  match reads with
  | [] => Ok (l, a)
  | TemporaryError :: rs => loop rs l a
  | EOF :: _ | OtherError :: _ => Ok (l, a)
  | ReadOk d ip now now' :: rs =>
      '(a', err) ← Accept now now' (take maxPacketSize d) ip a;
      if (err : bool)
      then loop rs (mkListener (okayPackets l) (u64 (invalidPackets l + 1))) a'
      else loop rs (mkListener (u64 (okayPackets l + 1)) (invalidPackets l)) a'
  end.

(** ** The workers *)

(** The goroutines of the pool: callers blocked in [send], workers waiting,
    workers in [HandlePacket], workers that returned.  [accepted] are the
    packets [Accept] was called with, [handled] and [dropped] their ends. *)
Record pool := mkPool {
  workers : nat;
  running : bool;
  stopped : bool;
  accepted : list acceptorJob;
  sending : list acceptorJob;
  idle : nat;
  busy : list acceptorJob;
  exited : nat;
  handled : list acceptorJob;
  dropped : list acceptorJob }.

Inductive pool_step : pool -> pool -> Prop :=
| pool_accept w r st a s i b e h d j :
    pool_step (mkPool w r st a s i b e h d)
      (mkPool w true st (a ++ [j]) (s ++ [j]) (if r : bool then i else w) b e h d)
| pool_deliver w r st a s1 j s2 i b e h d :
    pool_step (mkPool w r st a (s1 ++ j :: s2) (S i) b e h d)
      (mkPool w r st a (s1 ++ s2) i (b ++ [j]) e h d)
| pool_drop w r a s1 j s2 i b e h d :
    pool_step (mkPool w r true a (s1 ++ j :: s2) i b e h d)
      (mkPool w r true a (s1 ++ s2) i b e h (d ++ [j]))
| pool_finish w r st a s i b1 j b2 e h d :
    pool_step (mkPool w r st a s i (b1 ++ j :: b2) e h d)
      (mkPool w r st a s (S i) (b1 ++ b2) e (h ++ [j]) d)
| pool_exit w r a s i b e h d :
    pool_step (mkPool w r true a s (S i) b e h d) (mkPool w r true a s i b (S e) h d)
| pool_stop w a s i b e h d :
    pool_step (mkPool w true false a s i b e h d) (mkPool w true true a s i b e h d).

Definition new_pool (w : nat) : pool := mkPool w false false [] [] 0 [] 0 [] [].

(** Every packet accepted is somewhere, and every worker is accounted for. *)
Definition pool_inv (p : pool) : Prop :=
  Permutation (accepted p) (sending p ++ busy p ++ handled p ++ dropped p) /\
  (if running p then (idle p + length (busy p) + exited p = workers p)%nat
   else sending p = [] /\ idle p = 0%nat /\ busy p = [] /\ exited p = 0%nat /\
        handled p = [] /\ dropped p = [] /\ stopped p = false) /\
  (stopped p = false -> dropped p = [] /\ exited p = 0%nat).

Lemma pool_step_inv p p' : pool_inv p -> pool_step p p' -> pool_inv p' /\ workers p' = workers p.
Proof.
  intros (Hp & Hw & Hd) Hs. destruct Hs; unfold pool_inv in *; simpl in *; (split; [|done]);
    (split; [|split]).
  - rewrite Hp, <- !app_assoc. simpl. by rewrite <- Permutation_cons_append, !Permutation_middle.
  - destruct r; [done|]. destruct Hw as (_ & _ & -> & -> & _). simpl. lia.
  - destruct r; [done|]. intros _. by destruct Hw as (_ & _ & _ & -> & _ & -> & _).
  - rewrite Hp, <- !app_assoc. simpl. by rewrite !Permutation_middle.
  - destruct r; [|destruct Hw as (? & [=] & _)]. rewrite length_app. simpl. lia.
  - done.
  - rewrite Hp, !app_assoc, <- (Permutation_cons_append (_ ++ d)). simpl.
    rewrite <- !app_assoc. simpl. by rewrite <- Permutation_middle.
  - destruct r; [done|]. by destruct Hw as (? & ? & ? & ? & ? & ? & ?).
  - done.
  - rewrite Hp, <- !app_assoc. simpl. by rewrite !Permutation_middle.
  - destruct r; [|by destruct Hw as (? & ? & Hb & _); destruct b1].
    rewrite length_app in *. simpl in *. lia.
  - done.
  - done.
  - destruct r; [lia|by destruct Hw as (? & ? & _)].
  - done.
  - done.
  - done.
  - done.
Qed.

Lemma pool_reach_inv w p : rtc pool_step (new_pool w) p -> pool_inv p /\ workers p = w.
Proof.
  intros Hr. assert (forall p p', rtc pool_step p p' -> pool_inv p ->
    pool_inv p' /\ workers p' = workers p) as Hgen.
  { clear. induction 1 as [p|p p1 p2 Hs _ IH]; intros Hi; [done|].
    destruct (pool_step_inv _ _ Hi Hs) as [Hi' Hw]. destruct (IH Hi') as [? Hw']. by rewrite Hw'. }
  apply (Hgen _ _ Hr). by split_and!.
Qed.
