(* ===== verification/AcceptorProps.v ===== *)
(** * What the acceptor guarantees *)

From stdpp Require Import base list gmap relations.
From Stdlib Require Import ZArith Lia Permutation.
From S2P Require Import Prelude Golang Acceptor.
Open Scope Z_scope.

Definition record_of (l : limiter) (key : list Z) : acceptLimit := default (mkAcceptLimit 0 0) (m l !! key).
Definition count (l : limiter) (key : list Z) : Z := c (record_of l key).

(** The counter, where nothing overflows. *)
Lemma count_packet_exact th v el :
  2 <= th -> th * th <= MaxInt64 -> 0 <= c v < MaxInt64 -> 0 <= el <= MaxInt64 ->
  count_packet th v el = Ok (if decide (el > th) then Z.max 0 (c v - el / (th * th)) else c v + 1).
Proof.
  intros Hth Hsq Hc Hel. unfold count_packet.
  rewrite (i64_small (c v + 1)) by (unfold MinInt64; lia).
  rewrite (i64_small (th * th)) by (unfold MinInt64; nia).
  case_decide; [|done]. unfold div_i64. rewrite decide_False by nia. simpl.
  rewrite Z.quot_div_nonneg by nia.
  assert (0 <= el / (th * th) <= MaxInt64 / 4) as Hq.
  { split; [apply Z.div_pos; nia|]. etrans; [|apply Z.div_le_mono; [lia|apply Hel]].
    apply Z.div_le_compat_l; nia. }
  change (MaxInt64 / 4) with 2305843009213693951 in Hq.
  unfold MaxInt64 in *. change (2 ^ 63 - 1) with 9223372036854775807 in *.
  rewrite (i64_small (el / (th * th))), (i64_small (el / (th * th) + 1)), (i64_small (c v + 1 - _))
    by (unfold MinInt64, MaxInt64; lia).
  f_equal. case_decide; lia.
Qed.

Lemma to_array4_key ip v : To4 ip = Some v -> to_array4 (To4 ip) = Ok v.
Proof.
  intros Hv. rewrite Hv. unfold to_array4.
  assert (length v = 4)%nat as Hl.
  { revert Hv. unfold To4. case_decide; [by intros [= <-]|]. case_decide as Hd; [|done].
    intros [= <-]. rewrite length_drop. lia. }
  rewrite decide_True by lia. by rewrite take_ge by lia.
Qed.

(** the limiter's count of an address.  A packet at most the timeframe
    after the last one adds one; a later one takes off one for each square
    of the timeframe, in nanoseconds, that has passed, never going below
    zero; the other addresses keep their records. *)
Theorem update_count l ip key now now' :
  To4 ip = Some key -> 2 <= timeDeltaTh l -> timeDeltaTh l * timeDeltaTh l <= MaxInt64 ->
  0 <= count l key < MaxInt64 -> time_Unix (last (record_of l key)) <= now ->
  exists l', update now now' l ip = Ok l' /\
    let elapsed := time_Since now (time_Unix (last (record_of l key))) in
    count l' key =
      (if decide (elapsed > timeDeltaTh l)
       then Z.max 0 (count l key - elapsed / (timeDeltaTh l * timeDeltaTh l)) else count l key + 1) /\
    last (record_of l' key) = to_Unix now' /\
    forall k, k <> key -> m l' !! k = m l !! k.
Proof.
  intros Hkey Hth Hsq Hc Hnow. unfold update. rewrite (to_array4_key _ _ Hkey). simpl.
  fold (record_of l key). rewrite count_packet_exact; [|done..|].
  2: { unfold time_Since, time_Sub, MinInt64, MaxInt64. lia. }
  simpl. eexists. split; [done|]. unfold count, record_of. simpl. rewrite lookup_insert_eq. simpl.
  split_and!; [done..|]. intros k Hk. by rewrite lookup_insert_ne.
Qed.

(** with a timeframe between one and three seconds the count of an address
    never decreases while its packets come less than ten years apart, so an
    address above the bound stays above it. *)
Theorem limiter_never_forgives l ip key now now' :
  To4 ip = Some key -> Second <= timeDeltaTh l <= 3 * Second ->
  0 <= count l key < MaxInt64 ->
  time_Unix (last (record_of l key)) <= now < time_Unix (last (record_of l key)) + 10 * 365 * 24 * Hour ->
  isAbove l ip = Ok true ->
  exists l', update now now' l ip = Ok l' /\ isAbove l' ip = Ok true.
Proof.
  intros Hkey Hth Hc Hnow Habove.
  destruct (update_count l ip key now now') as (l' & Hu & Hcount & _); try done.
  { unfold Second in Hth. lia. }
  { unfold MaxInt64, Second in *. nia. }
  { lia. }
  exists l'. split; [done|]. unfold isAbove in *. rewrite (to_array4_key _ _ Hkey) in *. simpl in *.
  fold (record_of l key) (record_of l' key) in *. fold (count l key) (count l' key) in *.
  injection Habove as Habove. apply bool_decide_eq_true in Habove. f_equal. apply bool_decide_eq_true.
  assert (bound l' = bound l) as ->.
  { revert Hu. unfold update. rewrite (to_array4_key _ _ Hkey). simpl.
    destruct (count_packet _ _ _); simpl; [|done]. by intros [= <-]. }
  rewrite Hcount. case_decide; [|lia].
  assert (time_Since now (time_Unix (last (record_of l key))) / (timeDeltaTh l * timeDeltaTh l) = 0) as ->;
    [|lia].
  apply Z.div_small. unfold time_Since, time_Sub, MinInt64, MaxInt64, Hour, Minute, Second in *. nia.
Qed.

(** the limiter panics on an address without an IPv4 form, and on any
    address whose timeframe in nanoseconds has a square that is a multiple
    of 2^64, once the timeframe has passed. *)
Theorem update_panics l ip now now' :
  (To4 ip = None -> update now now' l ip = Panic SliceToArray) /\
  (forall key, To4 ip = Some key -> i64 (timeDeltaTh l * timeDeltaTh l) = 0 ->
     timeDeltaTh l < time_Since now (time_Unix (last (record_of l key))) ->
     update now now' l ip = Panic DivideByZero).
Proof.
  split; [by unfold update; intros ->|]. intros key Hkey Hz Hel. unfold update.
  rewrite (to_array4_key _ _ Hkey). simpl. fold (record_of l key). unfold count_packet.
  rewrite decide_True by lia. rewrite Hz. done.
Qed.

(** ** The listener and the pool *)

(** The packets read before the connection fails for good. *)
Fixpoint packets (reads : list read) : list acceptorJob :=
  match reads with
  | [] | EOF :: _ | OtherError :: _ => []
  | TemporaryError :: rs => packets rs
  | ReadOk d ip _ _ :: rs => mkJob (take maxPacketSize d) ip :: packets rs
  end.

Lemma Accept_sent now now' d ip a a' err :
  Accept now now' d ip a = Ok (a', err) ->
  sent a' = sent a ++ (if err then [] else [mkJob d ip]) /\ limit a' = limit a /\
  (limit a = false -> err = false).
Proof.
  unfold Accept. simpl. destruct (limit a) eqn:Hl.
  - intros (l & _ & H)%outcome_bind_ok. apply outcome_bind_ok in H as (above & _ & H).
    destruct above; injection H as <- <-; simpl; by rewrite ?app_nil_r.
  - intros [= <- <-]. simpl. done.
Qed.

Lemma loop_counts_from reads l a l' a' :
  0 <= okayPackets l -> 0 <= invalidPackets l ->
  okayPackets l + Z.of_nat (length (packets reads)) < 2 ^ 64 ->
  invalidPackets l + Z.of_nat (length (packets reads)) < 2 ^ 64 ->
  loop reads l a = Ok (l', a') ->
  exists new, sent a' = sent a ++ new /\ new `sublist_of` packets reads /\
    okayPackets l' = okayPackets l + Z.of_nat (length new) /\
    okayPackets l' + invalidPackets l' =
      okayPackets l + invalidPackets l + Z.of_nat (length (packets reads)) /\
    (limit a = false -> new = packets reads).
Proof.
  revert l a. induction reads as [|r rs IH]; intros l a Ho Hi Hb1 Hb2; simpl.
  { intros [= <- <-]. exists []. rewrite app_nil_r. split_and!; simpl; try done; lia. }
  destruct r as [d ip now now'| | |]; simpl in *.
  2: by apply IH.
  2,3: intros [= <- <-]; exists []; rewrite app_nil_r; split_and!; simpl; try done; lia.
  destruct (Accept now now' (take maxPacketSize d) ip a) as [[a1 err]|] eqn:Ha; simpl; [|done].
  destruct (Accept_sent _ _ _ _ _ _ _ Ha) as (Hs & Hl & Hf). intros Hloop.
  unfold u64 in Hloop. destruct err.
  - rewrite wrap_u_small in Hloop by lia. apply IH in Hloop; simpl in *; try lia.
    destruct Hloop as (new & Hs' & Hsub & Hok & Hsum & Hlim). exists new.
    rewrite Hs', Hs, app_nil_r. split_and!; try done; try lia; [by apply sublist_cons|].
    intros Hfalse. by specialize (Hf Hfalse).
  - rewrite wrap_u_small in Hloop by lia. apply IH in Hloop; simpl in *; try lia.
    destruct Hloop as (new & Hs' & Hsub & Hok & Hsum & Hlim).
    exists (mkJob (take maxPacketSize d) ip :: new). rewrite Hs', Hs, <- app_assoc.
    split_and!; simpl; try done; try lia; [by apply sublist_skip|].
    intros Hfalse. f_equal. apply Hlim. congruence.
Qed.

(** the listener hands the packets it reads to the workers in order, cut
    to 1280 bytes; its two counters are the packets handed over and the
    packets refused; temporary errors are skipped, any other error ends the
    loop, and without a limit no packet is refused. *)
Theorem listener_counts reads a l' a' :
  Z.of_nat (length (packets reads)) < 2 ^ 64 ->
  loop reads (mkListener 0 0) a = Ok (l', a') ->
  exists new, sent a' = sent a ++ new /\ new `sublist_of` packets reads /\
    okayPackets l' = Z.of_nat (length new) /\
    okayPackets l' + invalidPackets l' = Z.of_nat (length (packets reads)) /\
    (limit a = false -> new = packets reads).
Proof. intros Hb. apply (loop_counts_from reads (mkListener 0 0)); simpl; lia. Qed.

(** at every moment each packet accepted is waiting for a worker, being
    handled, handled, or dropped, exactly once; it is dropped only after the
    pool was stopped, and at most [workers] packets are handled at a time. *)
Theorem pool_conserves w p :
  rtc pool_step (new_pool w) p ->
  Permutation (accepted p) (sending p ++ busy p ++ handled p ++ dropped p) /\
  (length (busy p) <= w)%nat /\ (stopped p = false -> dropped p = []).
Proof.
  intros Hr. destruct (pool_reach_inv _ _ Hr) as [(Hp & Hw & Hd) Hwk]. split; [done|].
  split; [|by apply Hd]. destruct (running p); [lia|].
  destruct Hw as (_ & _ & -> & _). simpl. lia.
Qed.

(** ** Witnesses *)

Lemma update_panics_witness :
  let l := mkLimiter (2 ^ 32) 5 ∅ in
  update (time_Unix 5) 0 l [8; 8; 8; 8] = Panic DivideByZero.
Proof.
  apply (proj2 (update_panics (mkLimiter (2 ^ 32) 5 ∅) [8; 8; 8; 8] (time_Unix 5) 0) [8; 8; 8; 8]);
    vm_compute; reflexivity.
Defined.

Definition demo_limiter : limiter := mkLimiter Second 2 {[ [8; 8; 8; 8] := mkAcceptLimit 3 100 ]}.

Lemma update_count_witness :
  exists l', update (time_Unix 105) (time_Unix 105) demo_limiter [8; 8; 8; 8] = Ok l' /\
    count l' [8; 8; 8; 8] = 3.
Proof.
  destruct (update_count demo_limiter [8; 8; 8; 8] [8; 8; 8; 8] (time_Unix 105) (time_Unix 105))
    as (l' & Hu & Hc & _); try (vm_compute; (reflexivity || discriminate || (split; [discriminate|reflexivity]))).
  exists l'. split; [exact Hu|]. rewrite Hc. vm_compute. reflexivity.
Defined.

Lemma limiter_never_forgives_witness :
  exists l', update (time_Unix 1000000) (time_Unix 1000000) demo_limiter [8; 8; 8; 8] = Ok l' /\
    isAbove l' [8; 8; 8; 8] = Ok true.
Proof.
  apply (limiter_never_forgives demo_limiter [8; 8; 8; 8] [8; 8; 8; 8]);
    try (vm_compute; (reflexivity || (split; [discriminate|(reflexivity || discriminate)]))).
Defined.

Lemma listener_counts_witness :
  let a := mkPoolAcceptor false demo_limiter false [] in
  exists l' a', loop [ReadOk [1; 2] [9; 9; 9; 9] 0 0; TemporaryError; EOF] (mkListener 0 0) a = Ok (l', a') /\
    okayPackets l' = 1.
Proof.
  do 2 eexists. split; [reflexivity|].
  destruct (listener_counts [ReadOk [1; 2] [9; 9; 9; 9] 0 0; TemporaryError; EOF]
              (mkPoolAcceptor false demo_limiter false []) _ _ ltac:(done) eq_refl)
    as (new & _ & _ & Ho & _ & Hn).
  rewrite Ho, Hn by reflexivity. reflexivity.
Defined.

Lemma pool_conserves_witness :
  exists p, rtc pool_step (new_pool 4) p /\ accepted p = [mkJob [1] []] /\ (length (busy p) <= 4)%nat.
Proof.
  assert (rtc pool_step (new_pool 4)
    (mkPool 4 true false [mkJob [1] []] [] 3 [mkJob [1] []] 0 [] [])) as Hr.
  { eapply rtc_l; [apply pool_accept|]. eapply rtc_l; [apply (pool_deliver _ _ _ _ [])|]. apply rtc_refl. }
  eexists. split; [exact Hr|]. split; [reflexivity|].
  exact (proj1 (proj2 (pool_conserves 4 _ Hr))).
Defined.
