(* ===== verification/Writer.v ===== *)
(** * crawler/net/discovery/writer.go: throttled writes

    A writer waits on two limiters before it sends: one for the kind of the
    packet and one for the IPv4 address.  The limiter is
    [golang.org/x/time/rate]'s: a class, with the bound it documents as its
    law, and a token bucket as an instance. *)

From Stdlib Require Import ZArith Lia.
From stdpp Require Import base list gmap.
From S2P Require Import Prelude Golang.
Open Scope Z_scope.

(** ** rate.Limiter *)

Class RateLimiter := {
  Limiter : Type;
  (** [NewLimiter(Every(interval), burst)] *)
  NewLimiter : Z -> Z -> Limiter;
  (** [Wait] at an instant: the instant at which it returns *)
  Wait : Limiter -> Z -> Limiter * Z;
  (** observers: the instants at which [Wait] returned, and the parameters *)
  admitted : Limiter -> list Z;
  Interval : Limiter -> Z;
  Burst : Limiter -> Z;
}.

(** Of the events [i] to [j] all but [burst] cost an interval each. *)
Definition spaced (interval burst : Z) (ts : list Z) : Prop :=
  forall i j t u, (i <= j)%nat -> ts !! i = Some t -> ts !! j = Some u ->
    (Z.of_nat (j - i) + 1 - burst) * interval <= u - t.

Class RateLimiterLaws (R : RateLimiter) : Prop := {
  new_admitted i b : admitted (NewLimiter i b) = [];
  new_Interval i b : Interval (NewLimiter i b) = i;
  new_Burst i b : Burst (NewLimiter i b) = b;
  Wait_admitted l now : admitted (Wait l now).1 = admitted l ++ [(Wait l now).2];
  Wait_Interval l now : Interval (Wait l now).1 = Interval l;
  Wait_Burst l now : Burst (Wait l now).1 = Burst l;
  Wait_later l now : now <= (Wait l now).2;
  (** a limiter used from its creation on spaces what it admits *)
  Wait_spaced i b l : 0 <= i -> 1 <= b ->
    (exists nows, l = fold_left (fun l now => (Wait l now).1) nows (NewLimiter i b)) ->
    spaced i b (admitted l);
}.

Section Writer.
Context `{RL : RateLimiterLaws}.

(** ** throtter *)

Record throtter {K : Type} `{Countable K} := mkThrotter {
  amount : Z; interval : Z; cache : gmap K Limiter; shouldThrottle : bool }.
Arguments throtter K {_ _}.

Definition new_throtter {K} `{Countable K} : throtter K := mkThrotter K _ _ 0 0 ∅ false.

(** [wait]: the instant at which it returns. *)
Definition wait {K} `{Countable K} (r : throtter K) (p : K) (now : Z) : throtter K * Z :=
  if negb (shouldThrottle r) then (r, now)
  else
    let limiter := default (NewLimiter (interval r) (amount r)) (cache r !! p) in
    let '(l, t) := Wait limiter now in
    (mkThrotter K _ _ (amount r) (interval r) (<[p := l]> (cache r)) true, t).

Definition set_throttle {K} `{Countable K} (timeframe n : Z) (r : throtter K) : throtter K :=
  mkThrotter K _ _ n timeframe (cache r) true.

(** ** writer *)

Record writer := mkWriter {
  packetThrotter : throtter Z; ipThrotter : throtter (list Z); sent : list (Z * IP * list Z) }.

Definition newWriter : writer := mkWriter new_throtter new_throtter [].

Definition ThrottleIp (timeframe n : Z) (w : writer) : writer :=
  mkWriter (packetThrotter w) (set_throttle timeframe n (ipThrotter w)) (sent w).
Definition ThrottlePackets (timeframe n : Z) (w : writer) : writer :=
  mkWriter (set_throttle timeframe n (packetThrotter w)) (ipThrotter w) (sent w).
Definition Build (w : writer) : writer := w.

(** The two waits of [write] are steps of their own, since several goroutines
    write at once; then the packet goes to the socket. *)
Definition wait_packet (kind now : Z) (w : writer) : writer * Z :=
  let '(r, t) := wait (packetThrotter w) kind now in (mkWriter r (ipThrotter w) (sent w), t).

Definition wait_ip (a : IP) (now : Z) (w : writer) : writer * Z :=
  match To4 a with
  | Some ip4 => let '(r, t) := wait (ipThrotter w) (take 4 ip4) now in (mkWriter (packetThrotter w) r (sent w), t)
  | None => (w, now)
  end.

Definition write (kind : Z) (a : IP) (bytes : list Z) (now : Z) (w : writer) : writer :=
  let '(w1, t1) := wait_packet kind now w in
  let '(w2, t2) := wait_ip a t1 w1 in
  mkWriter (packetThrotter w2) (ipThrotter w2) (sent w2 ++ [(t2, a, bytes)]).

Inductive writer_step (w : writer) : writer -> Prop :=
| ws_packet kind now : writer_step w (wait_packet kind now w).1
| ws_ip a now : writer_step w (wait_ip a now w).1
| ws_sent x : writer_step w (mkWriter (packetThrotter w) (ipThrotter w) (sent w ++ [x])).

(** ** Lemmas *)

(** Each cached limiter has been used since its creation with the throttle's
    parameters. *)
Definition throttle_inv {K} `{Countable K} (timeframe n : Z) (r : throtter K) : Prop :=
  shouldThrottle r = true /\ interval r = timeframe /\ amount r = n /\
  forall p l, cache r !! p = Some l ->
    exists nows, l = fold_left (fun l now => (Wait l now).1) nows (NewLimiter timeframe n).

Lemma wait_inv {K} `{Countable K} timeframe n (r : throtter K) p now :
  throttle_inv timeframe n r -> throttle_inv timeframe n (wait r p now).1.
Proof.
  intros (Hs & Hi & Ha & Hc). unfold wait. rewrite Hs. simpl.
  destruct (Wait _ now) as [l t] eqn:Ew. split_and!; simpl; [done|done|done|].
  intros q k [[<- <-]|[_ Hq]]%lookup_insert_Some; [|by apply (Hc q)].
  apply (f_equal fst) in Ew. simpl in Ew. rewrite <- Ew. destruct (cache r !! p) as [k'|] eqn:Ep; simpl.
  - destruct (Hc p k' Ep) as [nows ->]. exists (nows ++ [now]). by rewrite fold_left_app.
  - exists [now]. simpl. by rewrite Hi, Ha.
Qed.

Lemma writer_step_inv timeframe n w w' :
  throttle_inv timeframe n (ipThrotter w) -> writer_step w w' -> throttle_inv timeframe n (ipThrotter w').
Proof.
  intros Hi Hs. destruct Hs as [kind now|a now|x]; [|unfold wait_ip|done].
  - unfold wait_packet. by destruct (wait (packetThrotter w) kind now).
  - destruct (To4 a) as [ip4|]; [|done]. pose proof (wait_inv _ _ _ (take 4 ip4) now Hi) as Hw.
    by destruct (wait (ipThrotter w) (take 4 ip4) now).
Qed.

Lemma write_steps kind a bytes now w : rtc writer_step w (write kind a bytes now w).
Proof.
  unfold write. destruct (wait_packet kind now w) as [w1 t1] eqn:E1. destruct (wait_ip a t1 w1) as [w2 t2] eqn:E2.
  eapply rtc_l; [apply (ws_packet _ kind now)|]. rewrite E1. simpl.
  eapply rtc_l; [apply (ws_ip _ a t1)|]. rewrite E2. simpl. apply rtc_once, ws_sent.
Qed.


(** A write sends its packet exactly once, not before it was asked to,
    and an address without IPv4 form is not held back. *)
Theorem write_sends kind a bytes now w :
  exists t, sent (write kind a bytes now w) = sent w ++ [(t, a, bytes)] /\ now <= t /\
    (To4 a = None -> shouldThrottle (packetThrotter w) = false -> t = now).
Proof.
  assert (forall K `{Countable K} (r : throtter K) p t, t <= (wait r p t).2) as Hw.
  { intros K ? ? r p t. unfold wait. destruct (shouldThrottle r); simpl; [|lia].
    pose proof (Wait_later (default (NewLimiter (interval r) (amount r)) (cache r !! p)) t) as H'.
    by destruct (Wait _ t). }
  unfold write, wait_packet, wait_ip.
  pose proof (Hw _ _ _ (packetThrotter w) kind now) as H1.
  destruct (wait (packetThrotter w) kind now) as [r t1] eqn:E1. simpl in *.
  destruct (To4 a) as [ip4|] eqn:E4.
  - pose proof (Hw _ _ _ (ipThrotter w) (take 4 ip4) t1) as H2.
    destruct (wait (ipThrotter w) (take 4 ip4) t1) as [r' t2]. simpl in *. exists t2. split_and!; [done|lia|done].
  - simpl. exists t1. split_and!; [done|lia|]. intros _ Hs. unfold wait in E1. rewrite Hs in E1. by injection E1.
Qed.

End Writer.

(** ** A token bucket

    The state is what was admitted and the instant at which the bucket is full
    again. *)

Record bucket := mkBucket { b_interval : Z; b_burst : Z; b_full : option Z; b_admitted : list Z }.

Definition bucket_wait (l : bucket) (now : Z) : bucket * Z :=
  let t := match b_full l with Some f => Z.max now (f - (b_burst l - 1) * b_interval l) | None => now end in
  let t := match last (b_admitted l) with Some u => Z.max t u | None => t end in
  let f := match b_full l with Some f => Z.max f t | None => t end in
  (mkBucket (b_interval l) (b_burst l) (Some (f + b_interval l)) (b_admitted l ++ [t]), t).

#[export] Instance token_bucket : RateLimiter := {|
  Limiter := bucket;
  NewLimiter i b := mkBucket i b None [];
  Wait := bucket_wait;
  admitted := b_admitted;
  Interval := b_interval;
  Burst := b_burst |}.

(** Every admitted event has been paid for by the time the bucket is full. *)
Record bucket_inv (i b : Z) (l : bucket) : Prop := {
  bk_interval : b_interval l = i;
  bk_burst : b_burst l = b;
  bk_spaced : spaced i b (b_admitted l);
  bk_full : forall k t, b_admitted l !! k = Some t ->
    exists f, b_full l = Some f /\ t + Z.of_nat (length (b_admitted l) - k) * i <= f }.

Lemma bucket_wait_inv i b l now : 0 <= i -> 1 <= b -> bucket_inv i b l -> bucket_inv i b (bucket_wait l now).1.
Proof.
  intros Hi Hb [H1 H2 H3 H4]. unfold bucket_wait. rewrite H1, H2.
  set (t0 := match b_full l with Some f => Z.max now (f - (b - 1) * i) | None => now end).
  set (t := match last (b_admitted l) with Some u => Z.max t0 u | None => t0 end).
  assert (t0 <= t) as Ht by (unfold t; destruct (last _); lia).
  constructor; simpl; [done|done| |].
  - intros x y u v Hxy Hu Hv. destruct (decide (y = length (b_admitted l))) as [->|Hy].
    + rewrite lookup_app_r, Nat.sub_diag in Hv by lia. injection Hv as <-.
      destruct (decide (x = length (b_admitted l))) as [->|Hx].
      { rewrite lookup_app_r, Nat.sub_diag in Hu by lia. injection Hu as <-. rewrite Nat.sub_diag. simpl. nia. }
      rewrite lookup_app_l in Hu by lia. destruct (H4 x u Hu) as (f & Hf & Hle).
      unfold t0 in Ht. rewrite Hf in Ht. nia.
    + apply lookup_lt_Some in Hv as Hlt. rewrite length_app in Hlt. simpl in Hlt.
      rewrite lookup_app_l in Hu, Hv by lia. by apply (H3 x y).
  - intros k u Hu. eexists. split; [reflexivity|]. rewrite length_app. simpl.
    apply lookup_lt_Some in Hu as Hlt. rewrite length_app in Hlt. simpl in Hlt.
    destruct (decide (k = length (b_admitted l))) as [->|Hk].
    + rewrite lookup_app_r, Nat.sub_diag in Hu by lia. injection Hu as <-.
      replace (length (b_admitted l) + 1 - length (b_admitted l))%nat with 1%nat by lia.
      destruct (b_full l); lia.
    + rewrite lookup_app_l in Hu by lia. destruct (H4 k u Hu) as (f & Hf & Hle). rewrite Hf.
      replace (Z.of_nat (length (b_admitted l) + 1 - k)) with (Z.of_nat (length (b_admitted l) - k) + 1) by lia.
      lia.
Qed.

#[export] Instance token_bucket_laws : RateLimiterLaws token_bucket.
Proof.
  constructor; simpl; try done.
  - intros l now. unfold bucket_wait. simpl. destruct (b_full l), (last (b_admitted l)); simpl; lia.
  - intros i b l Hi Hb [nows ->].
    assert (forall l, bucket_inv i b l -> bucket_inv i b (fold_left (fun l now => (bucket_wait l now).1) nows l)) as H.
    { induction nows as [|now nows IH]; intros k Hk; simpl; [done|]. by apply IH, bucket_wait_inv. }
    apply H. constructor; [done|done| |]; simpl.
    + intros x y t u _ Ht. by rewrite lookup_nil in Ht.
    + intros k t Ht. by rewrite lookup_nil in Ht.
Qed.

(** ** A concrete run: two packets to one address, with a burst of one *)

Module Demo.

Definition dst : IP := [9; 9; 9; 9].
Definition built : writer := Build (ThrottleIp Second 1 newWriter).
Definition twice : writer := write 1 dst [2] 5 (write 1 dst [1] 0 built).


End Demo.
