(* ===== verification/Identity.v ===== *)
(** * crawler/net/discovery/identity.go: the local node record

    The entries of the local record, its sequence number and the signed node,
    which is rebuilt when an entry has changed.  Signing a record and
    decoding it are calls of go-ethereum: [signed entries seq] is the node
    they yield, or the panic of the source when they fail is not reached. *)

From stdpp Require Import base list gmap strings relations.
From Stdlib Require Import ZArith Lia.
From S2P Require Import Prelude Golang External Instances.
Open Scope Z_scope.

Section Identity.
Context `{E : Enode}.
Variable signed : gmap string (list Z) -> Z -> enode.

(** [cur] is [None] before the first [Store]. *)
Record identity := mkIdentity {
  name : string;
  ip : IP;
  tcp : Z;
  udp : Z;
  entries : gmap string (list Z);
  seq : Z;
  dirty : bool;
  cur : option enode }.

Definition FakeName (i : identity) : string :=
  if decide (name i = "")%string then "geth/linux-amd64/go1.18.1"%string else name i.
Definition GetIp (i : identity) : IP := ip i.
Definition GetTcp (i : identity) : Z := udp i.
Definition GetUdp (i : identity) : Z := tcp i.
Definition GetSequence (i : identity) : Z := seq i.

(** An entry is its ENR key and its encoding. *)
Definition SetEntry (key : string) (e : list Z) (i : identity) : identity :=
  match entries i !! key with
  | Some val =>
      if decide (val = e) then i
      else mkIdentity (name i) (ip i) (tcp i) (udp i) (<[key := e]> (entries i)) (seq i) true (cur i)
  | None => mkIdentity (name i) (ip i) (tcp i) (udp i) (<[key := e]> (entries i)) (seq i) true (cur i)
  end.

(** Loading an empty [atomic.Value] gives nil, and the assertion panics. *)
Definition load_cur (i : identity) : outcome enode :=
  match cur i with Some n => Ok n | None => Panic InterfaceConversion end.

Definition sign (i : identity) : outcome (identity * enode) :=
  if negb (dirty i) then n ← load_cur i; Ok (i, n)
  else
    let s := u64 (seq i + 1) in
    let n := signed (entries i) s in
    Ok (mkIdentity (name i) (ip i) (tcp i) (udp i) (entries i) s false (Some n), n).

Definition GetNode (i : identity) : outcome (identity * enode) :=
  if negb (dirty i) then n ← load_cur i; Ok (i, n) else sign i.

(** The encodings of the address and the ports are arguments. *)
Definition NewRandomIdentity (name : string) (ip : IP) (tcp udp : Z) (eip eudp etcp : list Z)
    : outcome identity :=
  let i := mkIdentity name ip tcp udp ∅ 0 true None in
  let i := SetEntry "ip" eip i in
  let i := SetEntry "udp" eudp i in
  let i := SetEntry "tcp" etcp i in
  '(i, _) ← sign i; Ok i.

(** What the other goroutines do with the identity. *)
Inductive identity_step : identity -> identity -> Prop :=
| step_set key e i : identity_step i (SetEntry key e i)
| step_get i i' n : GetNode i = Ok (i', n) -> identity_step i i'.

Definition identity_inv (i : identity) : Prop :=
  dirty i = false -> cur i = Some (signed (entries i) (seq i)).

Lemma SetEntry_inv key e i : identity_inv i -> identity_inv (SetEntry key e i).
Proof.
  unfold identity_inv, SetEntry. intros Hi. destruct (entries i !! key); [case_decide|]; simpl; done.
Qed.

Lemma sign_spec i :
  identity_inv i -> exists i', sign i = Ok (i', signed (entries i) (seq i')) /\ identity_inv i' /\
    entries i' = entries i /\ dirty i' = false /\
    seq i' = (if dirty i then u64 (seq i + 1) else seq i) /\ (dirty i = false -> i' = i).
Proof.
  intros Hi. unfold sign, load_cur. destruct (dirty i) eqn:Hd; simpl.
  - eexists (mkIdentity _ _ _ _ _ _ false _). simpl. split_and!; try done.
  - rewrite (Hi Hd). simpl. exists i. by split_and!.
Qed.

Lemma GetNode_sign i : identity_inv i -> GetNode i = sign i.
Proof. unfold GetNode, sign. by destruct (dirty i). Qed.

(** the record of the local node.  In every state reached from
    [NewRandomIdentity], [GetNode] returns the signature of the current
    entries; it increases the sequence number exactly when an entry has
    changed since the last signature, and a second call returns the same
    node. *)
Theorem GetNode_current name ip tcp udp eip eudp etcp i0 i :
  NewRandomIdentity name ip tcp udp eip eudp etcp = Ok i0 -> rtc identity_step i0 i ->
  exists i', GetNode i = Ok (i', signed (entries i) (seq i')) /\ entries i' = entries i /\
    seq i' = (if dirty i then u64 (seq i + 1) else seq i) /\
    GetNode i' = Ok (i', signed (entries i) (seq i')).
Proof.
  intros Hnew Hr. assert (identity_inv i) as Hi.
  { assert (identity_inv i0) as H0.
    { unfold NewRandomIdentity in Hnew. apply outcome_bind_ok in Hnew as ([i1 n] & Hs & [= <-]).
      match type of Hs with sign ?x = _ => destruct (sign_spec x) as (i2 & Hs2 & Hi2 & _) end;
        [by repeat apply SetEntry_inv|]. rewrite Hs in Hs2. by injection Hs2 as -> _. }
    clear Hnew. induction Hr as [|i0 i1 i Hs _ IH]; [done|]. apply IH. destruct Hs as [|i0 i1 n Hg].
    - by apply SetEntry_inv.
    - rewrite GetNode_sign in Hg by done. destruct (sign_spec i0 H0) as (i2 & Hs2 & Hi2 & _).
      rewrite Hg in Hs2. by injection Hs2 as -> _. }
  rewrite GetNode_sign by done. destruct (sign_spec i Hi) as (i' & Hs & Hi' & He & Hd & Hq & _).
  exists i'. split_and!; try done. rewrite GetNode_sign by done.
  destruct (sign_spec i' Hi') as (i'' & Hs' & _ & _ & _ & _ & Hsame).
  rewrite (Hsame Hd) in Hs'. by rewrite He in Hs'.
Qed.

(** C0: [SetEntry] stores the entry, leaves the others alone, and asks for a
    new signature only when the stored value differs. *)
Theorem SetEntry_effect key e i :
  let i' := SetEntry key e i in
  entries i' = <[key := e]> (entries i) /\ seq i' = seq i /\ cur i' = cur i /\
  (dirty i' = true <-> dirty i = true \/ entries i !! key <> Some e).
Proof.
  unfold SetEntry. destruct (entries i !! key) as [val|] eqn:Hk; simpl.
  - case_decide as Hv; simpl.
    + subst. rewrite insert_id by done. split_and!; naive_solver.
    + split_and!; naive_solver.
  - split_and!; naive_solver.
Qed.

(** the accessors of the ports are exchanged: the TCP port reported is the
    UDP port of the identity, and the other way round. *)
Theorem ports_exchanged name ip tcp udp eip eudp etcp i :
  NewRandomIdentity name ip tcp udp eip eudp etcp = Ok i -> GetTcp i = udp /\ GetUdp i = tcp.
Proof.
  unfold NewRandomIdentity. intros ([i1 n] & Hs & [= <-])%outcome_bind_ok.
  assert (forall k e i, Identity.tcp (SetEntry k e i) = Identity.tcp i /\
                        Identity.udp (SetEntry k e i) = Identity.udp i) as Hset.
  { intros k e j. unfold SetEntry. destruct (entries j !! k); [case_decide|]; done. }
  assert (forall i i' n, sign i = Ok (i', n) -> Identity.tcp i' = Identity.tcp i /\ Identity.udp i' = Identity.udp i) as Hsign.
  { intros j j' m. unfold sign. destruct (dirty j); simpl; [by intros [= <- <-]|].
    unfold load_cur. destruct (cur j); simpl; [|done]. by intros [= <- <-]. }
  apply Hsign in Hs as [Ht Hu]. unfold GetTcp, GetUdp. rewrite Ht, Hu.
  by destruct (Hset "tcp"%string etcp (SetEntry "udp" eudp (SetEntry "ip" eip
    (mkIdentity name ip tcp udp ∅ 0 true None)))) as [-> ->];
  destruct (Hset "udp"%string eudp (SetEntry "ip" eip
    (mkIdentity name ip tcp udp ∅ 0 true None))) as [-> ->];
  destruct (Hset "ip"%string eip (mkIdentity name ip tcp udp ∅ 0 true None)) as [-> ->].
Qed.

End Identity.

(** The concrete signature keeps the sequence number. *)
Definition demo_signed (es : gmap string (list Z)) (s : Z) : @enode xor_enode :=
  mkRecord 1 (default [] (es !! "ip"%string)) 0 0 s.

Lemma GetNode_current_witness :
  exists i0 i', NewRandomIdentity demo_signed "" [8; 8; 8; 8] 30303 30304 [8; 8; 8; 8] [0] [1] = Ok i0 /\
    GetNode demo_signed (SetEntry "ip" [9; 9; 9; 9] i0) =
      Ok (i', demo_signed (entries (SetEntry "ip" [9; 9; 9; 9] i0)) (seq i')).
Proof.
  assert (exists i0, NewRandomIdentity demo_signed "" [8; 8; 8; 8] 30303 30304 [8; 8; 8; 8] [0] [1] = Ok i0)
    as [i0 Hi0] by (eexists; reflexivity).
  destruct (GetNode_current demo_signed _ _ _ _ _ _ _ i0 (SetEntry "ip" [9; 9; 9; 9] i0) Hi0)
    as (i' & Hg & _).
  { eapply rtc_l; [apply step_set|apply rtc_refl]. }
  exists i0, i'. split; [exact Hi0|exact Hg].
Defined.

Lemma ports_exchanged_witness :
  exists i, NewRandomIdentity demo_signed "" [8; 8; 8; 8] 30303 30304 [] [] [] = Ok i /\ GetTcp i = 30304.
Proof.
  eexists. split; [reflexivity|].
  exact (proj1 (ports_exchanged demo_signed "" [8; 8; 8; 8] 30303 30304 [] [] [] _ eq_refl)).
Defined.
