(* ===== verification/EncPubkey.v ===== *)
(** * crawler/net/discovery/common/encPubkey.go: encoded public keys

    A public key is written as the 32 bytes of each coordinate.  The curve and
    go-ethereum's [math.ReadBits] are parameters. *)

From Stdlib Require Import ZArith Lia.
From stdpp Require Import base list.
From S2P Require Import Prelude Golang.
Local Open Scope Z_scope.

(** ** Big-endian numbers *)

Definition byte (b : Z) : Prop := 0 <= b < 256.

(** [new(big.Int).SetBytes(buf)] *)
Definition SetBytes (buf : list Z) : Z := foldl (fun acc b => 256 * acc + b) 0 buf.

Lemma SetBytes_snoc l b : SetBytes (l ++ [b]) = 256 * SetBytes l + b.
Proof. unfold SetBytes. by rewrite foldl_app. Qed.

Lemma SetBytes_bound l : Forall byte l -> 0 <= SetBytes l < 256 ^ Z.of_nat (length l).
Proof.
  induction l as [|b l IH] using rev_ind; intros Hl; [done|].
  apply Forall_app in Hl as [Hl Hb%List.Forall_inv]. specialize (IH Hl). unfold byte in Hb.
  rewrite SetBytes_snoc, length_app, Nat2Z.inj_add, Z.pow_add_r by lia. change (256 ^ Z.of_nat (length [b])) with 256. lia.
Qed.

(** Byte strings of one length are told apart by their value. *)
Lemma SetBytes_inj l l' :
  Forall byte l -> Forall byte l' -> length l = length l' -> SetBytes l = SetBytes l' -> l = l'.
Proof.
  revert l'. induction l as [|b l IH] using rev_ind; intros l' Hl Hl' Hn Heq.
  { by destruct l'. }
  destruct l' as [|b' l' _] using rev_ind; [rewrite length_app in Hn; simpl in Hn; lia|].
  apply Forall_app in Hl as [Hl Hb%List.Forall_inv], Hl' as [Hl' Hb'%List.Forall_inv].
  unfold byte in *. rewrite !length_app in Hn. simpl in Hn. rewrite !SetBytes_snoc in Heq.
  assert (SetBytes l = SetBytes l' /\ b = b') as [? ->] by lia.
  f_equal. apply IH; [done..|lia|done].
Qed.

(** ** The keys *)

(** [ReadBits n buf] fills a buffer of a given length with the big-endian
    bytes of [n], when they fit. *)
Class ReadBitsLaws (ReadBits : Z -> nat -> list Z) : Prop := {
  ReadBits_length n len : length (ReadBits n len) = len;
  ReadBits_bytes n len : Forall byte (ReadBits n len);
  ReadBits_value n len : 0 <= n < 256 ^ Z.of_nat len -> SetBytes (ReadBits n len) = n }.

Record PublicKey := mkPublicKey { X : Z; Y : Z }.

Section EncPubkey.
Context (ReadBits : Z -> nat -> list Z) `{!ReadBitsLaws ReadBits}.
Context (IsOnCurve : Z -> Z -> bool).

(** [EncPubkey] is an array of this many bytes. *)
Definition EncPubkey_len : nat := 64.

Definition EncodePubkey (key : PublicKey) : list Z :=
  ReadBits (X key) (EncPubkey_len / 2) ++ ReadBits (Y key) (EncPubkey_len - EncPubkey_len / 2).

Inductive pubkeyError : Set := wrong_size | invalid_point.

Definition DecodePubkey (e : list Z) : pubkeyError + PublicKey :=
  if decide (length e <> EncPubkey_len) then inl wrong_size
  else
    let half := (length e / 2)%nat in
    let p := mkPublicKey (SetBytes (take half e)) (SetBytes (drop half e)) in
    if negb (IsOnCurve (X p) (Y p)) then inl invalid_point else inr p.

(** A point whose coordinates fit in 32 bytes. *)
Definition valid_key (key : PublicKey) : Prop :=
  IsOnCurve (X key) (Y key) = true /\ 0 <= X key < 256 ^ 32 /\ 0 <= Y key < 256 ^ 32.

Lemma EncodePubkey_length key : length (EncodePubkey key) = EncPubkey_len.
Proof. unfold EncodePubkey. by rewrite length_app, !ReadBits_length. Qed.

Lemma EncodePubkey_bytes key : Forall byte (EncodePubkey key).
Proof. unfold EncodePubkey. apply Forall_app. by split; apply ReadBits_bytes. Qed.

Lemma EncodePubkey_halves key :
  take 32 (EncodePubkey key) = ReadBits (X key) 32 /\ drop 32 (EncodePubkey key) = ReadBits (Y key) 32.
Proof.
  unfold EncodePubkey. change (EncPubkey_len / 2)%nat with 32%nat. change (EncPubkey_len - 32)%nat with 32%nat.
  split; [apply take_app_length'|apply drop_app_length']; by rewrite ReadBits_length.
Qed.

(** C26: encoding and decoding are inverse.  Every point of the curve whose
    coordinates fit is what its encoding decodes to; and a byte string is
    decoded to a key exactly when it has 64 bytes and its halves are a point
    of the curve, which encodes to that byte string again. *)
Theorem pubkey_roundtrip key e :
  (valid_key key -> DecodePubkey (EncodePubkey key) = inr key) /\
  (Forall byte e -> DecodePubkey e = inr key <-> valid_key key /\ EncodePubkey key = e).
Proof.
  assert (valid_key key -> DecodePubkey (EncodePubkey key) = inr key) as Henc.
  { intros (Hc & Hx & Hy). unfold DecodePubkey. rewrite EncodePubkey_length, decide_False by (by intros []).
    change (EncPubkey_len / 2)%nat with 32%nat. destruct (EncodePubkey_halves key) as [-> ->].
    cbn [X Y]. rewrite !ReadBits_value by done. rewrite Hc. by destruct key. }
  split; [done|]. intros He. split; [|intros [Hv <-]; auto].
  unfold DecodePubkey. case_decide as Hn; [done|]. rewrite Hn.
  change (EncPubkey_len / 2)%nat with 32%nat. cbn [X Y].
  destruct (IsOnCurve _ _) eqn:Hc; simpl; [|done]. intros [= <-].
  pose proof (Forall_take _ 32 _ He) as H1. pose proof (Forall_drop _ 32 _ He) as H2.
  assert (length (take 32 e) = 32%nat) as L1 by (rewrite length_take, Hn; done).
  assert (length (drop 32 e) = 32%nat) as L2 by (rewrite length_drop, Hn; done).
  pose proof (SetBytes_bound _ H1) as B1. pose proof (SetBytes_bound _ H2) as B2. rewrite L1 in B1. rewrite L2 in B2.
  split; [done|]. unfold EncodePubkey. cbn [X Y].
  change (EncPubkey_len / 2)%nat with 32%nat. change (EncPubkey_len - 32)%nat with 32%nat.
  rewrite <- (take_drop 32 e) at 3.
  f_equal; apply SetBytes_inj; rewrite ?ReadBits_length, ?ReadBits_value; auto using ReadBits_bytes.
Qed.

End EncPubkey.

(** ** A concrete curve *)

Module Demo.

Fixpoint big_endian (n : Z) (len : nat) : list Z :=
  match len with O => [] | S len' => big_endian (n / 256) len' ++ [n mod 256] end.

#[export] Instance big_endian_laws : ReadBitsLaws big_endian.
Proof.
  constructor.
  - intros n len. revert n. induction len as [|len IH]; intros n; simpl; [done|].
    rewrite length_app, IH. simpl. lia.
  - intros n len. revert n. induction len as [|len IH]; intros n; simpl; [constructor|].
    apply Forall_app. split; [done|]. apply Forall_singleton, Z.mod_pos_bound. lia.
  - intros n len. revert n. induction len as [|len IH]; intros n Hn; [change (256 ^ Z.of_nat 0) with 1 in Hn; unfold SetBytes; simpl; lia|].
    cbn [big_endian]. rewrite SetBytes_snoc, IH.
    + pose proof (Z.div_mod n 256). lia.
    + rewrite Nat2Z.inj_succ, Z.pow_succ_r in Hn by lia.
      split; [apply Z.div_pos; lia|apply Z.div_lt_upper_bound; lia].
Qed.

(** y^2 = x^3 + 7 modulo 17, and the point (2, 7). *)
Definition small_curve (x y : Z) : bool := bool_decide ((y * y - x * x * x - 7) mod 17 = 0).
Definition point : PublicKey := mkPublicKey 2 7.

Lemma pubkey_roundtrip_witness :
  DecodePubkey small_curve (EncodePubkey big_endian point) = inr point.
Proof.
  apply (pubkey_roundtrip big_endian small_curve point []).
  split; [reflexivity|]. split; simpl; lia.
Defined.

End Demo.
