(* ===== verification/V4.v ===== *)
(** * crawler/net/discovery/v4: the discovery protocol's handler

    The handler of incoming packets and the requests it makes.  A function of
    the handler is a procedure of a small monad over the handler's state,
    which records the packets written and the responses handed to the
    awaiter; a procedure returns, blocks on a request that is still waiting,
    or panics.  What happens to an awaited request, while other goroutines
    may change the handler, is a list of events (see Awaiter.v). *)

From stdpp Require Import base list gmap.
From Stdlib Require Import ZArith Lia.
From S2P Require Import Prelude Golang Procs External Nodes Table Identity Awaiter.
Open Scope Z_scope.

(** ** Constants, configuration and errors *)

Definition SubProtcolOffset : Z := 10.
Definition ExpirationKey : Z := 1.
Definition senderKey : Z := SubProtcolOffset + 1.
Definition enrSeqKey : Z := senderKey + 1.
Definition BucketSize : Z := 16.
Definition bondExpiration : Z := 24 * Hour.
Definition expiration : Z := 20 * Second.
Definition maxFindnodeFailures : Z := 5.
Definition maxGlobalFailures : Z := 5.

Record Config := mkConfig {
  NeighbourAmount : Z; ResponseEnr : bool; ResponseFindNode : bool }.

Definition DefaultConfig : Config := mkConfig BucketSize true true.

Definition validate (c : Config) : Config :=
  if decide (NeighbourAmount c < 0 \/ NeighbourAmount c > 16)
  then mkConfig BucketSize (ResponseEnr c) (ResponseFindNode c) else c.

(** The sentinel errors of error.go, and the errors of the libraries. *)
Inductive v4err : Type :=
| ErrUnknownPacket | ErrWrongPacket | ErrExpired | ErrUnsolicitedReply | ErrUnknownNode
| ErrLowPort | ErrBondFailure | ErrHandlerDisabled
| ErrDecode | ErrEncode | ErrPubkey | ErrRelayIP | ErrIncomplete | ErrRecord | ErrWrite
| ErrAwaiter (e : awaiterError).

#[export] Instance v4err_eq_dec : EqDecision v4err.
Proof. unfold EqDecision. intros x y. unfold Decision. decide equality. decide equality. Defined.

Definition IsImportant (err : v4err) : bool :=
  match err with
  | ErrHandlerDisabled | ErrWrongPacket | ErrUnknownPacket | ErrExpired => false
  | _ => true
  end.

Section V4.
Context `{E : Enode} `{N : NetUtil} `{D : NodeDB (E := E)} `{W : V4Wire (E := E)}.

Abbreviation packet := (packet Pubkey ENRecord).

(** ** Wire packets *)

Inductive any : Type := AnyKey (k : PublicKey) | AnySeq (s : Z) | AnyTime (t : Z).

Record WirePacket := NewWire { GetSource : packet; wdata : gmap Z any }.

Definition NewWirePacket (src : packet) : WirePacket := NewWire src ∅.
Definition Set_ (p : WirePacket) (key : Z) (v : any) : WirePacket :=
  NewWire (GetSource p) (<[key := v]> (wdata p)).
Definition Get_ (p : WirePacket) (key : Z) : option any := wdata p !! key.

(** ** The handler and its procedures *)

Definition addr : Type := IP * Z.

Record sent := mkSent { s_packet : packet; s_bytes : list Z; s_to : ID; s_addr : addr }.

(** [store] is the database [db] of the table: both are set up with the same
    one.  [out] are the packets written, [matched] the responses given to
    [ctx.Match]. *)
Record handler := mkHandler {
  Cfg : Config;
  tab : Table;
  failureMap : gmap ID Z;
  out : list sent;
  matched : list (Response (B := packet)) }.

Definition set_tab (h : handler) t := mkHandler (Cfg h) t (failureMap h) (out h) (matched h).
Definition set_store (h : handler) d := set_tab h (set_db (tab h) d).
Definition store (h : handler) : DB := db (tab h).

Abbreviation proc := (Procs.proc handler).

(** The local node, the identity that holds its address, ports and sequence
    number (it does not change once the handler runs), and which writes to
    the connection succeed, given the packets written before. *)
Variable Self : enode.
Variable holder : identity (E := E).
Variable write_ok : list sent -> bool.

(** [PacketHandler.execute] for a request that is not awaited. *)
Definition write (s : sent) : proc (option v4err) := fun h =>
  if write_ok (out h)
  then Returns (mkHandler (Cfg h) (tab h) (failureMap h) (out h ++ [s]) (matched h)) None
  else Returns h (Some ErrWrite).

(** [ctx.Match]: the awaiter takes the response, and reports no mismatch. *)
Definition Match (r : Response (B := packet)) : proc (option v4err) := fun h =>
  Returns (mkHandler (Cfg h) (tab h) (failureMap h) (out h) (matched h ++ [r])) None.

(** [send] without waiting for an answer. *)
Definition sendAndForget (toId : ID) (toAddr : addr) (p : packet) : proc (option v4err) :=
  match Encode p with
  | None => mret (Some ErrEncode)
  | Some (enc, _) => write (mkSent p enc toId toAddr)
  end.

(** [PacketHandler.execute] for an awaited request: it is queued, written,
    and the caller waits until the awaiter marks it.  While it waits, the
    awaiter offers it replies and sweeps the queue, and other goroutines
    change the handler.  The checker works on the handler and a value of its
    own, and may panic. *)
Inductive event : Type :=
| HvReply (now : Z) (r : Response (B := packet))
| HvSweep (now : Z)
| HvEnv (f : handler -> handler).

Definition lift {S} (e : event) : await_event (S := outcome (handler * S)) (B := packet) :=
  match e with
  | HvReply now r => EvReply now r
  | HvSweep now => EvSweep now
  | HvEnv f => EvEnv (fmap (fun '(h, v) => (f h, v)))
  end.

Definition execute {S} (s : sent) (kind exp : Z)
    (checker : outcome (handler * S) -> awaitableRequest -> Response (B := packet) ->
               outcome (handler * S) * (bool * bool))
    (init : S) (evs : list event) : proc (option v4err * S) := fun h =>
  match write s h with
  | Panics w => Panics w
  | Blocks h => Blocks h
  | Returns h (Some err) => Returns h (Some err, init)
  | Returns h None =>
      let el := mkAwaitable 0 (mkRequest (s_to s) (s_addr s).1 kind (time_Unix (i64 exp))) in
      match await checker (Ok (h, init)) el (map lift evs) with
      | (Panic w, _) => Panics w
      | (Ok (h', _), None) => Blocks h'
      | (Ok (h', v), Some None) => Returns h' (None, v)
      | (Ok (h', v), Some (Some err)) => Returns h' (Some (ErrAwaiter err), v)
      end
  end.

(** ** Bonds and faults *)

Definition checkBond (now : Z) (h : handler) (id : ID) (ip : IP) : bool :=
  bool_decide (time_Since now (LastPongReceived (store h) id ip) < bondExpiration).

Definition isFaulty (h : handler) (id : ID) : bool :=
  match failureMap h !! id with Some faults => bool_decide (faults > maxGlobalFailures) | None => false end.

Definition set_faults (h : handler) (id : ID) (n : Z) : handler :=
  mkHandler (Cfg h) (tab h) (<[id := n]> (failureMap h)) (out h) (matched h).

(** The retry loop of the compare-and-swap ends with one increment. *)
Definition markFault (id : ID) : proc () :=
  modify (fun h => set_faults h id (u16 (default 0 (failureMap h !! id) + 1))).

Definition clearFault (h : handler) (id : ID) : handler := set_faults h id 0.

(** ** Ping and pong *)

Definition verifyPing (now : Z) (from : addr) (fromkey : Pubkey) (p : WirePacket)
    : proc (WirePacket * option v4err) :=
  match GetSource p with
  | Ping _ _ _ exp _ =>
      if Expired now exp then mret (p, Some ErrExpired)
      else
        match DecodePubkey fromkey with
        | None => mret (p, Some ErrPubkey)
        | Some sender =>
            modify (fun h => set_store h (UpdateLastPingReceived (store h) (Pubkey_ID fromkey) from.1 now));;
            mret (Set_ p senderKey (AnyKey sender), None)
        end
  | _ => mret (p, Some ErrWrongPacket)
  end.

Definition generatePing (now : Z) (toid : ID) (toaddr : addr) : option (sent * list Z * Z) :=
  let exp := u64 (to_Unix (now + expiration)) in
  let req := Ping 4 (mkEndpoint (GetIp holder) (GetUdp holder) (GetTcp holder))
               (NewEndpoint toaddr.1 toaddr.2 0) exp (GetSequence holder) in
  match Encode req with
  | None => None
  | Some (data, hash) => Some (mkSent req data toid toaddr, hash, exp)
  end.

(** The verifier of a ping's answer: the sequence number of the matching
    pong is the value kept. *)
Definition ping_checker (hash : list Z) (callback : handler -> outcome handler)
    (s : outcome (handler * option Z)) (el : awaitableRequest) (r : Response (B := packet))
    : outcome (handler * option Z) * (bool * bool) :=
  match rs_body r with
  | Pong _ tok _ enrseq =>
      if bool_decide (tok = hash)
      then ('(h, _) ← s; h' ← callback h; Ok (h', Some enrseq), (true, true))
      else (s, (false, false))
  | _ => (_ ← s; Panic InterfaceConversion, (false, false))
  end.

Definition makePingRequest (now : Z) (id : ID) (a : addr) (callback : handler -> outcome handler)
    (evs : list event) : proc (v4err + Z) :=
  match generatePing now id a with
  | None => mret (inl ErrEncode)
  | Some (s, hash, exp) =>
      '(err, seq) ← execute s PongPacket exp (ping_checker hash callback) None evs;
      match err, seq with
      | Some e, _ => mret (inl e)
      | None, Some v => mret (inr v)
      | None, None => crash InterfaceConversion
      end
  end.

(** The callback that adds a node to the table at the time [now']. *)
Definition add_seen (now' : Z) (n : Node) (h : handler) : outcome handler :=
  t ← AddSeenNode Self now' (tab h) n; Ok (set_tab h t).

(** The end of [HandlePingRequest]: the sender is added to the table, at once
    when it has a bond, and otherwise when it answers a ping. *)
Definition add_or_ping (now now' : Z) (a : addr) (fromID : ID) (sender : PublicKey) (tcp : Z)
    (evs : list event) : proc (option v4err) :=
  h ← get;
  let '(hp', n) := WrapNode (hp (tab h)) (NewV4 sender a.1 tcp a.2) in
  modify (fun h => set_tab h (set_hp (tab h) hp'));;
  if decide (time_Since now (LastPongReceived (store h) (Node_ID n) a.1) > bondExpiration) then
    r ← makePingRequest now fromID a (add_seen now' n) evs;
    match r with inl e => mret (Some e) | inr _ => mret None end
  else
    h ← get;
    match add_seen now' n h with
    | Ok h' => modify (fun _ => h');; mret None
    | Panic w => crash w
    end.

Definition HandlePingRequest (now now' : Z) (a : addr) (p : WirePacket) (fromID : ID) (hash : list Z)
    (evs : list event) : proc (option v4err) :=
  match GetSource p with
  | Ping _ from _ exp _ =>
      let pong := Pong (NewEndpoint a.1 a.2 (ep_tcp from)) hash exp (enode_Seq Self) in
      match Encode pong with
      | None => mret (Some ErrEncode)
      | Some (raw, _) =>
          err ← write (mkSent pong raw fromID a);
          match err with
          | Some e => mret (Some e)
          | None =>
              match Get_ p senderKey with
              | Some (AnyKey sender) => add_or_ping now now' a fromID sender (ep_tcp from) evs
              | _ => crash InterfaceConversion
              end
          end
      end
  | _ => mret (Some ErrWrongPacket)
  end.

Definition verifyPong (now : Z) (from : addr) (key : Pubkey) (p : WirePacket)
    : proc (WirePacket * option v4err) :=
  match GetSource p with
  | Pong _ _ exp _ =>
      if Expired now exp then mret (p, Some ErrExpired)
      else
        modify (fun h => set_store h (UpdateLastPongReceived (store h) (Pubkey_ID key) from.1 now));;
        mret (p, None)
  | _ => mret (p, Some ErrWrongPacket)
  end.

Definition to_response (p : WirePacket) (fromID : ID) (a : addr) : Response (B := packet) :=
  mkResponse fromID a.1 (Kind (GetSource p)) (GetSource p).

Definition HandlePongResponse (a : addr) (p : WirePacket) (fromID : ID) : proc (option v4err) :=
  match GetSource p with
  | Pong _ _ _ _ => Match (to_response p fromID a)
  | _ => mret (Some ErrUnsolicitedReply)
  end.

(** ** Findnode and neighbors *)

Definition VerifyFindNodeRequest (now : Z) (a : addr) (fromID : ID) (p : WirePacket)
    : proc (WirePacket * option v4err) :=
  h ← get;
  if negb (ResponseFindNode (Cfg h)) then mret (p, Some ErrHandlerDisabled)
  else
    match GetSource p with
    | Findnode _ exp =>
        if Expired now exp then mret (p, Some ErrExpired)
        else if negb (checkBond now h fromID a.1) then mret (p, Some ErrUnknownNode)
        else mret (Set_ p ExpirationKey (AnyTime (time_Unix (i64 exp))), None)
    | _ => mret (p, Some ErrWrongPacket)
    end.

Definition nodeToRPC (n : Node) : rpcNode Pubkey :=
  let ekey := match load_key (node_enode n) with Some key => EncodePubkey key | None => no_Pubkey end in
  mkRpcNode (Node_IP n) (u16 (enode_UDP (node_enode n))) (u16 (enode_TCP (node_enode n))) ekey.

(** The loop over the closest entries, with the nodes not yet sent and
    whether a packet was sent. *)
Fixpoint send_neighbors (exp : Z) (a : addr) (fromId : ID) (entries : list Node)
    (nodes : list (rpcNode Pubkey)) (sent : bool) : proc (option v4err) :=
  match entries with
  | [] =>
      if bool_decide (0 < length nodes)%nat || negb sent
      then sendAndForget fromId a (Neighbors nodes exp)
      else mret None
  | n :: es =>
      if negb (CheckRelayIP a.1 (Node_IP n)) then send_neighbors exp a fromId es nodes sent
      else
        let nodes := nodes ++ [nodeToRPC n] in
        if decide (length nodes = MaxNeighbors) then
          err ← sendAndForget fromId a (Neighbors nodes exp);
          match err with
          | Some e => mret (Some e)
          | None => send_neighbors exp a fromId es [] true
          end
        else send_neighbors exp a fromId es nodes sent
  end.

Definition makeFindNodesResponse (target : Pubkey) (exp : Z) (a : addr) (fromId : ID)
    : proc (option v4err) :=
  h ← get;
  let closest := FindnodeByID (tab h) (Target_ID target) (NeighbourAmount (Cfg h)) true in
  send_neighbors exp a fromId (Entries closest) [] false.

Definition HandleFindNodeRequest (a : addr) (p : WirePacket) (fromID : ID) : proc (option v4err) :=
  match GetSource p with
  | Findnode target exp => makeFindNodesResponse target exp a fromID
  | _ => crash InterfaceConversion
  end.

Definition VerifyFindNodeResponse (now : Z) (p : WirePacket) : proc (WirePacket * option v4err) :=
  match GetSource p with
  | Neighbors _ exp => if Expired now exp then mret (p, Some ErrExpired) else mret (p, None)
  | _ => crash InterfaceConversion
  end.

Definition HandleFindNodeResponse (a : addr) (p : WirePacket) (fromID : ID) : proc (option v4err) :=
  match GetSource p with
  | Neighbors _ _ =>
      err ← Match (to_response p fromID a);
      match err with Some _ => mret (Some ErrUnsolicitedReply) | None => mret None end
  | _ => crash InterfaceConversion
  end.

Definition nodeFromRPC (sender : IP) (rn : rpcNode Pubkey) : v4err + enode :=
  if decide (rn_udp rn <= 1024) then inl ErrLowPort
  else if negb (CheckRelayIP sender (rn_ip rn)) then inl ErrRelayIP
  else
    match DecodePubkey (rn_id rn) with
    | None => inl ErrPubkey
    | Some key =>
        let n := NewV4 key (rn_ip rn) (rn_tcp rn) (rn_udp rn) in
        if ValidateComplete n then inr n else inl ErrIncomplete
    end.

(** The verifier of a neighbors packet: the nodes accepted so far and the
    number received. *)
Definition collect (sender : IP) (acc : list enode * Z) (rn : rpcNode Pubkey) : list enode * Z :=
  let '(nodes, nreceived) := acc in
  match nodeFromRPC sender rn with
  | inl _ => (nodes, nreceived + 1)
  | inr n => (nodes ++ [n], nreceived + 1)
  end.

Definition findnode_checker (sender : IP) (s : outcome (handler * (list enode * Z)))
    (el : awaitableRequest) (r : Response (B := packet))
    : outcome (handler * (list enode * Z)) * (bool * bool) :=
  match rs_body r with
  | Neighbors ns _ =>
      let s' := '(h, acc) ← s; Ok (h, fold_left (collect sender) ns acc) in
      (s', (true, match s' with Ok (_, (_, nreceived)) => bool_decide (nreceived >= BucketSize)
                              | Panic _ => true end))
  | _ => (_ ← s; Panic InterfaceConversion, (false, false))
  end.

Definition makeFindNodeRequest (now : Z) (id : ID) (a : addr) (encKey : Pubkey)
    (evs : list event)
    : proc (list enode * option v4err) :=
  let exp := u64 (to_Unix (now + expiration)) in
  let req := Findnode encKey exp in
  match Encode req with
  | None => mret ([], Some ErrEncode)
  | Some (data, _) =>
      '(err, (nodes, nreceived)) ←
        execute (mkSent req data id a) NeighborsPacket exp (findnode_checker a.1) ([], 0) evs;
      let err := if decide (err <> None /\ nreceived <> 0) then None else err in
      mret (nodes, err)
  end.

(** ** Node records *)

Definition verifyENRRequest (now : Z) (a : addr) (fromID : ID) (p : WirePacket) (evs : list event)
    : proc (WirePacket * option v4err) :=
  h ← get;
  if negb (ResponseEnr (Cfg h)) then mret (p, Some ErrHandlerDisabled)
  else
    match GetSource p with
    | ENRRequest exp =>
        if Expired now exp then mret (p, Some ErrExpired)
        else if negb (checkBond now h fromID a.1) then
          markFault fromID;;
          h ← get;
          (if negb (isFaulty h fromID) then
             makePingRequest now fromID a (fun h => Ok (clearFault h fromID)) evs;; mret tt
           else mret tt);;
          mret (p, Some ErrUnknownNode)
        else mret (p, None)
    | _ => crash InterfaceConversion
    end.

Definition handleENRRequest (record : ENRecord) (a : addr) (fromID : ID) (mac : list Z)
    : proc (option v4err) :=
  sendAndForget fromID a (ENRResponse mac record).

Definition verifyEnrResponse (a : addr) (fromID : ID) (p : WirePacket) : proc (WirePacket * option v4err) :=
  err ← Match (to_response p fromID a);
  mret (p, match err with Some _ => Some ErrUnsolicitedReply | None => None end).

Definition enr_checker (hash : list Z) (s : outcome (handler * option ENRecord))
    (el : awaitableRequest) (r : Response (B := packet))
    : outcome (handler * option ENRecord) * (bool * bool) :=
  match rs_body r with
  | ENRResponse tok record =>
      let matched := bool_decide (tok = hash) in
      ('(h, old) ← s; Ok (h, if matched then Some record else old), (matched, matched))
  | _ => (_ ← s; Panic InterfaceConversion, (false, false))
  end.

Definition makeEnrRequest (now : Z) (n : enode) (a : addr)
    (evs : list event)
    : proc (v4err + enode) :=
  let exp := u64 (to_Unix (now + expiration)) in
  let req := ENRRequest exp in
  match Encode req with
  | None => mret (inl ErrEncode)
  | Some (raw, hash) =>
      '(err, response) ← execute (mkSent req raw (enode_ID n) a) ENRResponsePacket exp (enr_checker hash) None evs;
      match err, response with
      | Some e, _ => mret (inl e)
      | None, None => crash NilDereference
      | None, Some record =>
          match enode_New record with
          | None => mret (inl ErrRecord)
          | Some respN =>
              if decide (enode_ID respN <> enode_ID n) then mret (inl ErrRecord)
              else if decide (enode_Seq respN < enode_Seq n) then mret (inr n)
              else if negb (CheckRelayIP a.1 (enode_IP respN)) then mret (inl ErrRelayIP)
              else mret (inr respN)
          end
      end
  end.

(** ** Requests that need a bond *)

(** [sleep] is what other goroutines do to the handler during the pause, and
    [now1], [now2] the clock before and after it. *)
Definition tryBond (now now1 now2 : Z) (id : ID) (a : addr) (evs : list event)
    (sleep : handler -> handler) : proc bool :=
  h ← get;
  r ← (if decide (checkBond now h id a.1 = false \/ DB_FindFails (store h) id a.1 > maxFindnodeFailures)
       then makePingRequest now id a Ok evs else mret (inr 0));
  match r with
  | inl _ => mret false
  | inr _ =>
      h ← get;
      if decide (time_Since now1 (LastPingReceived (store h) id a.1) < bondExpiration) then mret true
      else
        modify sleep;;
        h ← get;
        mret (bool_decide (time_Since now2 (LastPingReceived (store h) id a.1) < bondExpiration))
  end.

Definition MakeFindNodeRequest (now now1 now2 now3 : Z) (id : ID) (a : addr) (encKey : Pubkey)
    (evs : list event) (sleep : handler -> handler)
    (evs' : list event)
    : proc (list enode * option v4err) :=
  bonded ← tryBond now now1 now2 id a evs sleep;
  if negb bonded then mret ([], Some ErrBondFailure) else makeFindNodeRequest now3 id a encKey evs'.

Definition MakeEnrRequest (now now1 now2 now3 : Z) (n : enode) (a : addr)
    (evs : list event) (sleep : handler -> handler)
    (evs' : list event)
    : proc (v4err + enode) :=
  bonded ← tryBond now now1 now2 (enode_ID n) a evs sleep;
  if negb bonded then mret (inl ErrBondFailure) else makeEnrRequest now3 n a evs'.

(** ** Incoming packets *)

(** The checks of a packet before it is handled, and its handling, by the
    type of the packet ([selectReactor]). *)
Definition preverify (now : Z) (a : addr) (p : WirePacket) (fromID : ID) (fromKey : Pubkey)
    (evs : list event) : proc (WirePacket * option v4err) :=
  match GetSource p with
  | Ping _ _ _ _ _ => verifyPing now a fromKey p
  | Pong _ _ _ _ => verifyPong now a fromKey p
  | Findnode _ _ => VerifyFindNodeRequest now a fromID p
  | Neighbors _ _ => VerifyFindNodeResponse now p
  | ENRResponse _ _ => verifyEnrResponse a fromID p
  | ENRRequest _ => verifyENRRequest now a fromID p evs
  end.

Definition handle (now now' : Z) (record : ENRecord) (a : addr) (p : WirePacket) (fromID : ID)
    (hash : list Z) (evs : list event) : proc (option v4err) :=
  match GetSource p with
  | Ping _ _ _ _ _ => HandlePingRequest now now' a p fromID hash evs
  | Pong _ _ _ _ => HandlePongResponse a p fromID
  | Findnode _ _ => HandleFindNodeRequest a p fromID
  | Neighbors _ _ => HandleFindNodeResponse a p fromID
  | ENRResponse _ _ => mret None
  | ENRRequest _ => handleENRRequest record a fromID hash
  end.

(** [record] is the local record, [evs] what happens to the ping a packet can
    cause. *)
Definition HandlePacket (now now' : Z) (record : ENRecord) (a : addr) (buf : list Z)
    (evs : list event) : proc (option v4err) :=
  match Decode buf with
  | None => mret (Some ErrDecode)
  | Some (rawpacket, fromKey, hash) =>
      '(p, err) ← preverify now a (NewWirePacket rawpacket) (Pubkey_ID fromKey) fromKey evs;
      match err with
      | Some e => mret (Some e)
      | None => handle now now' record a p (Pubkey_ID fromKey) hash evs
      end
  end.

End V4.
