(* ===== verification/V4Facts.v ===== *)
(** * Awaited requests of the v4 handler

    What the three checkers do over the events of a request. *)

From stdpp Require Import base list gmap.
From Stdlib Require Import ZArith Lia.
From S2P Require Import Prelude Golang Procs External Nodes Table Identity Awaiter V4.
Open Scope Z_scope.

Section Facts.
Context `{EL : EnodeLaws} `{N : NetUtil} `{D : NodeDB (E := E)} `{WL : V4WireLaws (E := E)}.

Definition is_env (e : event) : bool := match e with HvEnv _ => true | _ => false end.

(** Replies carry the kind of their packet, as [to_response] makes them. *)
Definition well_kinded (e : event) : Prop :=
  match e with HvReply _ r => rs_kind r = Kind (rs_body r) | _ => True end.

Lemma matches_kind {B} el (r : Response (B := B)) :
  matches el r = true -> rq_kind (aw_r el) = rs_kind r.
Proof.
  unfold matches. rewrite !andb_true_iff. intros [[_ H] _]. by apply bool_decide_eq_true in H.
Qed.

Lemma to_response_kinded now p id a : well_kinded (HvReply now (to_response p id a)).
Proof. done. Qed.

(** ** Pings *)

(** A pong that answers the ping with this hash is among the events. *)
Definition answered (el : awaitableRequest) (hash : list Z) (evs : list event) (seq : Z) : Prop :=
  exists now r t e, HvReply now r ∈ evs /\ matches el r = true /\ rs_body r = Pong t hash e seq.

Lemma answered_cons el hash e evs seq : answered el hash evs seq -> answered el hash (e :: evs) seq.
Proof. intros (now & r & t & x & Hin & ?). exists now, r, t, x. split; [by right|done]. Qed.

(** The other goroutines keep the property [I] of the handler. *)
Definition keeps (I : handler -> Prop) (e : event) : Prop :=
  match e with HvEnv f => forall h, I h -> I (f h) | _ => True end.

Lemma ping_await (I : handler -> Prop) hash cb el evs h :
  rq_kind (aw_r el) = PongPacket -> Forall well_kinded evs -> Forall (keeps I) evs -> I h ->
  (forall h, I h -> exists h', cb h = Ok h') ->
  exists h' v r,
    await (ping_checker hash cb) (Ok (h, None)) el (map lift evs) = (Ok (h', v), r) /\
    ((v = None /\ r <> Some None /\ (Forall (fun e => is_env e = false) evs -> h' = h)) \/
     (exists seq, v = Some seq /\ r = Some None /\ answered el hash evs seq)).
Proof.
  intros Hkind Hwk HI Hh Hcb. revert h Hh. induction Hwk as [|e evs He Hwk IH]; intros h Hh; simpl.
  { exists h, None, None. split; [done|]. by left. }
  apply Forall_cons in HI as [Hke HI]. specialize (IH HI).
  destruct e as [now r|now|f]; simpl.
  - destruct (matches el r) eqn:Hm.
    2: { destruct (IH h Hh) as (h' & v & x & -> & Hor). exists h', v, x. split; [done|].
         destruct Hor as [(? & ? & Henv)|(seq & ? & ? & Ha)]; [left|right].
         - split_and!; try done. by intros [_ ?]%Forall_cons; apply Henv.
         - exists seq. split_and!; try done. by apply answered_cons. }
    simpl in He. rewrite <- (matches_kind _ _ Hm), Hkind in He. symmetry in He.
    destruct (Kind_Pong _ He) as (t & tok & ex & seq & Hbody). unfold verdict, ping_checker.
    case_decide. { exists h, None, (Some (Some errRespDeadlinePassed)). split; [done|]. by left. }
    rewrite Hbody. case_bool_decide as Htok.
    + destruct (Hcb h Hh) as [h' Hh']. simpl. rewrite Hh'. simpl. exists h', (Some seq), (Some None).
      split; [done|]. right. exists seq. split_and!; try done. exists now, r, t, ex.
      subst tok. split; [by left|done].
    + exists h, None, (Some (Some errInvalidResponse)). split; [done|]. by left.
  - destruct (expired now el).
    { exists h, None, (Some (Some errRespDeadlinePassed)). split; [done|]. by left. }
    destruct (IH h Hh) as (h' & v & x & -> & Hor). exists h', v, x. split; [done|].
    destruct Hor as [(? & ? & Henv)|(seq & ? & ? & Ha)]; [left|right].
    + split_and!; try done. by intros [_ ?]%Forall_cons; apply Henv.
    + exists seq. split_and!; try done. by apply answered_cons.
  - destruct (IH (f h) (Hke h Hh)) as (h' & v & x & -> & Hor). exists h', v, x. split; [done|].
    destruct Hor as [(? & ? & Henv)|(seq & ? & ? & Ha)]; [left|right].
    + split_and!; try done. by intros [? _]%Forall_cons.
    + exists seq. split_and!; try done. by apply answered_cons.
Qed.

(** ** Neighbors *)

(** The node a neighbors packet's entry is accepted as. *)
Definition accepted (sender : IP) (rn : rpcNode Pubkey) : option enode :=
  match nodeFromRPC sender rn with inl _ => None | inr n => Some n end.

Lemma collect_fold sender ns nodes k :
  fold_left (collect sender) ns (nodes, k) =
    (nodes ++ omap (accepted sender) ns, k + Z.of_nat (length ns)).
Proof.
  revert nodes k. induction ns as [|rn ns IH]; intros nodes k.
  - simpl. by rewrite app_nil_r, Z.add_0_r.
  - assert (collect sender (nodes, k) rn =
      (nodes ++ option_list (accepted sender rn), k + 1)) as Hc.
    { unfold collect, accepted. by destruct (nodeFromRPC sender rn); simpl; rewrite ?app_nil_r. }
    assert (omap (accepted sender) (rn :: ns) =
      option_list (accepted sender rn) ++ omap (accepted sender) ns) as ->
      by (csimpl; by destruct (accepted sender rn)).
    cbn [fold_left]. rewrite Hc, IH, app_assoc. f_equal. simpl. lia.
Qed.

(** The node lists of the neighbors packets among the events. *)
Definition neighbor_lists (evs : list event) : list (list (rpcNode Pubkey)) :=
  omap (fun e => match e with
                 | HvReply _ r => match rs_body r with Neighbors ns _ => Some ns | _ => None end
                 | _ => None end) evs.

#[local] Arguments neighbor_lists : simpl never.

Lemma neighbor_lists_reply now r evs :
  neighbor_lists (HvReply now r :: evs) =
    match rs_body r with Neighbors ns _ => ns :: neighbor_lists evs | _ => neighbor_lists evs end.
Proof. unfold neighbor_lists. csimpl. by destruct (rs_body r). Qed.

Lemma findnode_await sender el evs h nodes k :
  rq_kind (aw_r el) = NeighborsPacket -> Forall well_kinded evs ->
  exists h' taken r,
    await (findnode_checker sender) (Ok (h, (nodes, k))) el (map lift evs) =
      (Ok (h', (nodes ++ omap (accepted sender) (concat taken), k + Z.of_nat (length (concat taken)))), r) /\
    taken `sublist_of` neighbor_lists evs /\
    (r = Some None -> BucketSize <= k + Z.of_nat (length (concat taken))).
Proof.
  intros Hkind Hwk. revert h nodes k. induction Hwk as [|e evs He Hwk IH]; intros h nodes k; simpl.
  { exists h, [], None. simpl. by rewrite app_nil_r, Z.add_0_r. }
  destruct e as [now r|now|f]; simpl.
  - destruct (matches el r) eqn:Hm.
    2: { destruct (IH h nodes k) as (h' & tk & x & -> & Hs & Hr). exists h', tk, x. split_and!; try done.
         rewrite neighbor_lists_reply. destruct (rs_body r); try done. by apply sublist_cons. }
    simpl in He. rewrite <- (matches_kind _ _ Hm), Hkind in He. symmetry in He.
    destruct (Kind_Neighbors _ He) as (ns & ex & Hbody). unfold verdict, findnode_checker.
    case_decide.
    { exists h, [], (Some (Some errRespDeadlinePassed)). simpl. rewrite app_nil_r, Z.add_0_r.
      split_and!; try done. apply sublist_nil_l. }
    rewrite neighbor_lists_reply, Hbody. simpl. rewrite collect_fold.
    case_bool_decide as Hdone.
    + exists h, [ns], (Some None). simpl. rewrite app_nil_r. split_and!; try done; [|lia].
      apply sublist_skip, sublist_nil_l.
    + destruct (IH h (nodes ++ omap (accepted sender) ns) (k + Z.of_nat (length ns)))
        as (h' & tk & x & Heq & Hs & Hr).
      unfold findnode_checker in Heq. rewrite Heq. exists h', (ns :: tk), x. simpl.
      rewrite omap_app, app_assoc, length_app, Nat2Z.inj_add, Z.add_assoc.
      split_and!; try done. by apply sublist_skip.
  - destruct (expired now el).
    { exists h, [], (Some (Some errRespDeadlinePassed)). simpl. rewrite app_nil_r, Z.add_0_r.
      split_and!; try done. apply sublist_nil_l. }
    destruct (IH h nodes k) as (h' & tk & x & -> & Hs & Hr). by exists h', tk, x.
  - destruct (IH (f h) nodes k) as (h' & tk & x & -> & Hs & Hr). by exists h', tk, x.
Qed.

(** ** Records *)

Lemma enr_await hash el evs h v :
  rq_kind (aw_r el) = ENRResponsePacket -> Forall well_kinded evs ->
  exists h' v' r, await (enr_checker hash) (Ok (h, v)) el (map lift evs) = (Ok (h', v'), r) /\
    (r = Some None -> is_Some v').
Proof.
  intros Hkind Hwk. revert h. induction Hwk as [|e evs He Hwk IH]; intros h; simpl.
  { by exists h, v, None. }
  destruct e as [now r|now|f]; simpl; [| |apply IH].
  - destruct (matches el r) eqn:Hm; [|apply IH].
    simpl in He. rewrite <- (matches_kind _ _ Hm), Hkind in He. symmetry in He.
    destruct (Kind_ENRResponse _ He) as (tok & rec & Hbody). unfold verdict, enr_checker.
    case_decide; [by exists h, v, (Some (Some errRespDeadlinePassed))|].
    rewrite Hbody. simpl. case_bool_decide.
    + exists h, (Some rec), (Some None). done.
    + by exists h, v, (Some (Some errInvalidResponse)).
  - destruct (expired now el); [by exists h, v, (Some (Some errRespDeadlinePassed))|apply IH].
Qed.

End Facts.
