(* ===== verification/V4Props.v ===== *)
(** * What the v4 handler guarantees *)

From stdpp Require Import base list gmap.
From Stdlib Require Import ZArith Lia.
From S2P Require Import Prelude Golang Procs External Instances Nodes NodesFacts.
From S2P Require Import Table TableInv TableBucket TableOps TableSys TableProps Identity Awaiter V4 V4Facts.
Open Scope Z_scope.

Section Props.
Context `{EL : EnodeLaws} `{NL : NetUtilLaws} `{DL : NodeDBLaws (E := E)} `{WL : V4WireLaws (E := E)}.
Variable Self : enode.
Variable holder : identity (E := E).
Variable write_ok : list sent -> bool.

(** a pong that no ping asked for creates a bond all the same.  After an
    unexpired pong, whatever its token and whatever was sent before, its
    sender and its address pass the bond check for almost a day, and a
    findnode request from them is accepted. *)
Theorem unsolicited_pong_bonds now now' now2 record a buf evs h to tok exp seq key hash :
  Decode buf = Some (Pong to tok exp seq, key, hash) -> Expired now exp = false ->
  now <= now2 < now + bondExpiration - Second ->
  exists h', HandlePacket Self holder write_ok now now' record a buf evs h = Returns h' None /\
    out h' = out h /\ checkBond now2 h' (Pubkey_ID key) a.1 = true /\
    forall target exp2, Expired now2 exp2 = false -> ResponseFindNode (Cfg h) = true ->
      exists p, VerifyFindNodeRequest now2 a (Pubkey_ID key) (NewWirePacket (Findnode target exp2)) h'
                = Returns h' (p, None).
Proof.
  intros Hdec Hexp Hnow. unfold HandlePacket. rewrite Hdec. unfold preverify, verifyPong. simpl.
  unfold mbind, proc_bind. rewrite Hexp. unfold modify, mret, proc_ret, handle. simpl.
  unfold HandlePongResponse, Match. simpl. eexists. split; [done|]. split; [done|].
  set (h' := mkHandler _ _ _ _ _).
  assert (checkBond now2 h' (Pubkey_ID key) a.1 = true) as Hb.
  { unfold checkBond, h', V4.store. simpl. rewrite pong_pong. apply bool_decide_eq_true.
    unfold time_Since, time_Sub, time_Unix, to_Unix, bondExpiration, Hour, Minute, Second,
      MinInt64, MaxInt64 in *.
    pose proof (Z.mod_pos_bound now 1000000000 ltac:(lia)).
    pose proof (Z.div_mod now 1000000000 ltac:(lia)). lia. }
  split; [done|]. intros target exp2 Hexp2 Hcfg. unfold VerifyFindNodeRequest, mbind, proc_bind, get.
  simpl. rewrite Hcfg. simpl. rewrite Hexp2, Hb. simpl. by eexists.
Qed.

(** a findnode request is answered only when answers are enabled, the
    request has not expired and its sender has a bond; otherwise nothing is
    written, nothing changes, and the caller gets the matching error. *)
Theorem findnode_requires_bond now now' record a buf evs h target exp key hash :
  Decode buf = Some (Findnode target exp, key, hash) ->
  let r := HandlePacket Self holder write_ok now now' record a buf evs h in
  if negb (ResponseFindNode (Cfg h)) then r = Returns h (Some ErrHandlerDisabled)
  else if Expired now exp then r = Returns h (Some ErrExpired)
  else if negb (checkBond now h (Pubkey_ID key) a.1) then r = Returns h (Some ErrUnknownNode)
  else r = makeFindNodesResponse write_ok target exp a (Pubkey_ID key) h.
Proof.
  intros Hdec. simpl. unfold HandlePacket. rewrite Hdec. unfold preverify, VerifyFindNodeRequest. simpl.
  unfold mbind, proc_bind, get.
  destruct (negb (ResponseFindNode (Cfg h))); [done|].
  destruct (Expired now exp); [done|].
  destruct (negb (checkBond now h (Pubkey_ID key) a.1)); [done|]. done.
Qed.

(** ** The answer to a findnode request *)

Definition nodes_in (s : sent) : list (rpcNode Pubkey) :=
  match s_packet s with Neighbors ns _ => ns | _ => [] end.

(** The entries the requester may be told about. *)
Definition relayed (sender : IP) (l : list Node) : list Node :=
  filter (fun n => CheckRelayIP sender (Node_IP n) = true) l.

Definition well_addressed (exp : Z) (a : addr) (id : ID) (s : sent) : Prop :=
  (exists ns, s_packet s = Neighbors ns exp /\ (length ns <= MaxNeighbors)%nat) /\
  s_addr s = a /\ s_to s = id.

Lemma sendAndForget_ok id a p h :
  (exists e, Encode p = Some e) -> (forall l, write_ok l = true) ->
  exists enc, sendAndForget write_ok id a p h =
    Returns (mkHandler (Cfg h) (tab h) (failureMap h) (out h ++ [mkSent p enc id a]) (matched h)) None.
Proof.
  intros [[enc hs] He] Hw. unfold sendAndForget. rewrite He. unfold write. rewrite Hw. by exists enc.
Qed.

Definition with_out (h : handler) (l : list sent) : handler :=
  mkHandler (Cfg h) (tab h) (failureMap h) l (matched h).

Lemma send_neighbors_spec exp a id entries nodes sent h :
  (forall ns, exists e, Encode (Neighbors ns exp) = Some e) -> (forall l, write_ok l = true) ->
  (length nodes < MaxNeighbors)%nat -> (nodes = [] \/ True) ->
  exists pk, send_neighbors write_ok exp a id entries nodes sent h =
      Returns (with_out h (out h ++ pk)) None /\
    concat (map nodes_in pk) = nodes ++ map nodeToRPC (relayed a.1 entries) /\
    Forall (well_addressed exp a id) pk /\ (sent = false -> pk <> []).
Proof.
  intros He Hw Hlen _. revert nodes sent h Hlen.
  induction entries as [|n es IH]; intros nodes sent h Hlen; simpl.
  - destruct (bool_decide (0 < length nodes)%nat || negb sent) eqn:Hc.
    + destruct (sendAndForget_ok id a (Neighbors nodes exp) h (He nodes) Hw) as [enc Hs].
      rewrite Hs. eexists [_]. split; [done|]. simpl. split_and!; try done.
      constructor; [|done]. split; [|done]. exists nodes. split; [done|lia].
    + apply orb_false_iff in Hc as [Hn Hs]. apply bool_decide_eq_false in Hn.
      exists []. unfold with_out. rewrite app_nil_r. destruct h. split; [done|]. simpl.
      destruct nodes; [|simpl in Hn; lia]. split_and!; try done. by intros ->.
  - unfold relayed. rewrite filter_cons. fold (relayed a.1 es).
    destruct (CheckRelayIP a.1 (Node_IP n)) eqn:Hr; simpl.
    2: { apply (IH nodes sent h Hlen). }
    assert (nodes ++ nodeToRPC n :: map nodeToRPC (relayed a.1 es) =
      (nodes ++ [nodeToRPC n]) ++ map nodeToRPC (relayed a.1 es)) as -> by (by rewrite <- app_assoc).
    set (nodes' := nodes ++ [nodeToRPC n]).
    assert (length nodes' = S (length nodes)) as Hl by (unfold nodes'; rewrite length_app; simpl; lia).
    case_decide as Hfull.
    + destruct (sendAndForget_ok id a (Neighbors nodes' exp) h (He nodes') Hw) as [enc Hs].
      unfold mbind, proc_bind. rewrite Hs.
      destruct (IH [] true (with_out h (out h ++ [mkSent (Neighbors nodes' exp) enc id a])))
        as (pk & Hp & Hc & Hf & _); [simpl; apply MaxNeighbors_pos|].
      unfold with_out in Hp at 1. rewrite Hp. exists (mkSent (Neighbors nodes' exp) enc id a :: pk).
      unfold with_out. simpl. rewrite <- app_assoc, Hc. split_and!; try done.
      constructor; [|done]. split; [|done]. exists nodes'. split; [done|lia].
    + destruct (IH nodes' sent h) as (pk & Hp & Hc & Hf & Hn); [lia|]. by exists pk.
Qed.

(** C12: the answer to a findnode request, when packets can be encoded and
    written: one or more neighbors packets to the requester, each of at most
    [MaxNeighbors] nodes, that together list in order the closest nodes of
    the table, the live ones when there are some, except those whose address
    the requester may not be told; and nothing else changes. *)
Theorem makeFindNodesResponse_chunks target exp a id h :
  (forall ns, exists e, Encode (Neighbors ns exp) = Some e) -> (forall l, write_ok l = true) ->
  exists pk, makeFindNodesResponse write_ok target exp a id h =
      Returns (with_out h (out h ++ pk)) None /\ pk <> [] /\
    Forall (well_addressed exp a id) pk /\
    concat (map nodes_in pk) = map nodeToRPC (relayed a.1
      (Entries (FindnodeByID (tab h) (Target_ID target) (NeighbourAmount (Cfg h)) true))).
Proof.
  intros He Hw. unfold makeFindNodesResponse, mbind, proc_bind, get.
  destruct (send_neighbors_spec exp a id
    (Entries (FindnodeByID (tab h) (Target_ID target) (NeighbourAmount (Cfg h)) true)) [] false h He Hw)
    as (pk & Hp & Hc & Hf & Hn); [apply MaxNeighbors_pos|by left|].
  exists pk. split_and!; [done|by apply Hn|done|done].
Qed.

(** ** Requests *)

Lemma write_cases s h :
  write write_ok s h = Returns (with_out h (out h ++ [s])) None \/
  write write_ok s h = Returns h (Some ErrWrite).
Proof. unfold write, with_out. destruct (write_ok (out h)); [by left|by right]. Qed.

(** A ping request, whose callback is total on handlers with a property
    that the other goroutines keep: it never panics; it yields a sequence number only when a pong with the hash of the ping,
    from the pinged node and address, was among the replies, and it is that
    pong's number; and as long as other goroutines leave the handler alone,
    a ping without such an answer changes nothing but the packets written. *)
Lemma makePing_cases (I : handler -> Prop) now id a cb evs h :
  Forall well_kinded evs -> Forall (keeps I) evs -> (forall l, I (with_out h l)) ->
  (forall h, I h -> exists h', cb h = Ok h') ->
  match makePingRequest holder write_ok now id a cb evs h with
  | Panics _ => False
  | Returns h' (inr seq) =>
      exists s hash exp, generatePing holder now id a = Some (s, hash, exp) /\
        answered (mkAwaitable 0 (mkRequest id a.1 PongPacket (time_Unix (i64 exp)))) hash evs seq
  | Returns h' (inl _) | Blocks h' =>
      Forall (fun e => is_env e = false) evs ->
      exists l, h' = with_out h (out h ++ l) /\ (length l <= 1)%nat
  end.
Proof.
  intros Hwk HI Hh Hcb.
  assert (exists l, h = with_out h (out h ++ l) /\ (length l <= 1)%nat) as Hid
    by (exists []; rewrite app_nil_r; destruct h; simpl; split; [done|lia]).
  unfold makePingRequest. destruct (generatePing holder now id a) as [[[s hash] exp]|] eqn:Hg; [|by simpl].
  assert (s_to s = id /\ s_addr s = a) as [Hto Haddr].
  { revert Hg. unfold generatePing. destruct (Encode _) as [[d hs]|]; [|done]. by intros [= <- _ _]. }
  unfold mbind, proc_bind, execute.
  destruct (write_cases s h) as [->| ->]; [|by simpl].
  rewrite Hto, Haddr. set (el := mkAwaitable 0 _).
  destruct (ping_await I hash cb el evs (with_out h (out h ++ [s])) eq_refl Hwk HI (Hh _) Hcb)
    as (h' & v & r & -> & [(-> & Hr & Henv)|(seq & -> & -> & Hans)]).
  - destruct r as [[e|]|]; [|done|]; simpl; intros He; exists [s]; (split; [by apply Henv|simpl; lia]).
  - simpl. by exists s, hash, exp.
Qed.

Lemma add_seen_total lim now' n h :
  table_inv Self lim (tab h) -> exists h', add_seen Self now' n h = Ok h'.
Proof.
  intros Hinv. unfold add_seen. edestruct (AddSeenNode_inv Self) as (t & -> & _); [done|]. by eexists.
Qed.

(** What an unanswered ping leaves behind. *)
Definition only_wrote (h h' : handler) : Prop :=
  buckets (tab h') = buckets (tab h) /\ failureMap h' = failureMap h /\
  exists l, out h' = out h ++ l /\ (length l <= 1)%nat.

Lemma add_or_ping_spec lim now now' a fromID k tcp evs h :
  table_inv Self lim (tab h) ->
  Forall well_kinded evs -> Forall (keeps (fun h => table_inv Self lim (tab h))) evs ->
  bondExpiration < time_Since now (LastPongReceived (store h) (enode_ID (NewV4 k a.1 tcp a.2)) a.1) ->
  match add_or_ping Self holder write_ok now now' a fromID k tcp evs h with
  | Panics _ => False
  | Returns h' None =>
      exists s hash' e n, generatePing holder now fromID a = Some (s, hash', e) /\
        answered (mkAwaitable 0 (mkRequest fromID a.1 PongPacket (time_Unix (i64 e)))) hash' evs n
  | Returns h' (Some _) | Blocks h' => Forall (fun e => is_env e = false) evs -> only_wrote h h'
  end.
Proof.
  intros Hinv Hwk Hk Hold. unfold add_or_ping, mbind, proc_bind, get, modify, WrapNode. cbn [hp tab].
  set (n := mkNode _ _). set (h1 := set_tab h _).
  rewrite decide_True by (unfold n, Node_ID; simpl; unfold V4.store in *; lia).
  pose proof (makePing_cases (fun h => table_inv Self lim (tab h)) now fromID a (add_seen Self now' n)
                evs h1 Hwk Hk) as Hp.
  assert (forall l, table_inv Self lim (tab (with_out h1 l))) as Hl
    by (intros l; by apply (tinv_ext Self _ _ _ _ (tab h))).
  specialize (Hp Hl (add_seen_total lim now' n)).
  destruct (makePingRequest holder write_ok now fromID a (add_seen Self now' n) evs h1)
    as [h' [e|sq]|h'|w]; simpl; [| | |done].
  - intros He. destruct (Hp He) as (l & -> & Hlen). split_and!; [done..|]. by exists l.
  - destruct Hp as (s & hash & e & Hg & Ha). by exists s, hash, e, sq.
  - intros He. destruct (Hp He) as (l & -> & Hlen). split_and!; [done..|]. by exists l.
Qed.

(** a ping from a node without a recent pong, on a handler whose table
    keeps its invariant.  The handler never panics; it succeeds only when the
    ping it sends back was answered, by a pong with that ping's hash from the
    sender's identity and address; and otherwise, as long as no other
    goroutine changes the handler, the buckets stay as they are and at most
    two packets are written, the first a pong to the sender's address with
    the hash of its ping. *)
Theorem HandlePingRequest_needs_proof lim now now' a p fromID hash evs h v from to exp seq k :
  table_inv Self lim (tab h) ->
  Forall well_kinded evs -> Forall (keeps (fun h => table_inv Self lim (tab h))) evs ->
  GetSource p = Ping v from to exp seq -> Get_ p senderKey = Some (AnyKey k) ->
  bondExpiration <
    time_Since now (LastPongReceived (store h) (enode_ID (NewV4 k a.1 (ep_tcp from) a.2)) a.1) ->
  match HandlePingRequest Self holder write_ok now now' a p fromID hash evs h with
  | Panics _ => False
  | Returns h' None =>
      exists s hash' e n, generatePing holder now fromID a = Some (s, hash', e) /\
        answered (mkAwaitable 0 (mkRequest fromID a.1 PongPacket (time_Unix (i64 e)))) hash' evs n
  | Returns h' (Some _) | Blocks h' =>
      Forall (fun e => is_env e = false) evs ->
      buckets (tab h') = buckets (tab h) /\ failureMap h' = failureMap h /\
      (out h' = out h \/ exists enc l, (length l <= 1)%nat /\ out h' = out h ++
        mkSent (Pong (NewEndpoint a.1 a.2 (ep_tcp from)) hash exp (enode_Seq Self)) enc fromID a :: l)
  end.
Proof.
  intros Hinv Hwk Hk Hsrc Hkey Hold. unfold HandlePingRequest. rewrite Hsrc.
  set (pong := Pong _ hash exp _). destruct (Encode pong) as [[raw hs]|]; [|simpl; tauto].
  unfold mbind, proc_bind.
  destruct (write_cases (mkSent pong raw fromID a) h) as [->| ->]; [|simpl; tauto].
  rewrite Hkey. set (h1 := with_out h _).
  pose proof (add_or_ping_spec lim now now' a fromID k (ep_tcp from) evs h1 Hinv Hwk Hk Hold) as Hs.
  assert (forall h', only_wrote h1 h' -> buckets (tab h') = buckets (tab h) /\ failureMap h' = failureMap h /\
    (out h' = out h \/ exists enc l, (length l <= 1)%nat /\ out h' = out h ++ mkSent pong enc fromID a :: l)) as Hw.
  { intros h' (Hb & Hf & l & Hl & Hlen). split_and!; [done..|]. right. exists raw, l.
    split; [done|]. rewrite Hl. simpl. by rewrite <- app_assoc. }
  destruct (add_or_ping _ _ _ _ _ _ _ _ _ _ h1) as [h' [e|]|h'|w]; [|done| |done]; intros He;
    by apply Hw, Hs.
Qed.

(** the nodes a findnode request returns are entries of the answers that
    passed every check, in the order received: their port is above 1024, the
    answering node may relay their address, and their record is complete.
    The request never panics, and it fails only when no node was received. *)
Theorem makeFindNodeRequest_checked now id a key evs h :
  Forall well_kinded evs ->
  match makeFindNodeRequest write_ok now id a key evs h with
  | Panics _ => False
  | Blocks _ => True
  | Returns h' (nodes, err) =>
      (exists taken, taken `sublist_of` neighbor_lists evs /\
         nodes = omap (accepted a.1) (concat taken) /\ (err <> None -> concat taken = [])) /\
      forall n, n ∈ nodes -> exists rn k, rn ∈ concat (neighbor_lists evs) /\ 1024 < rn_udp rn /\
        CheckRelayIP a.1 (rn_ip rn) = true /\ DecodePubkey (rn_id rn) = Some k /\
        n = NewV4 k (rn_ip rn) (rn_tcp rn) (rn_udp rn) /\ ValidateComplete n = true
  end.
Proof.
  intros Hwk. unfold makeFindNodeRequest. set (exp := u64 _).
  assert (forall nodes taken, nodes = omap (accepted a.1) (concat taken) -> taken `sublist_of` neighbor_lists evs ->
    forall n, n ∈ nodes -> exists rn k, rn ∈ concat (neighbor_lists evs) /\ 1024 < rn_udp rn /\
        CheckRelayIP a.1 (rn_ip rn) = true /\ DecodePubkey (rn_id rn) = Some k /\
        n = NewV4 k (rn_ip rn) (rn_tcp rn) (rn_udp rn) /\ ValidateComplete n = true) as Hchk.
  { intros nodes taken -> Hs n (rn & Hin & Hacc)%list_elem_of_omap.
    unfold accepted, nodeFromRPC in Hacc. case_decide as Hp; [done|].
    destruct (CheckRelayIP a.1 (rn_ip rn)) eqn:Hr; simpl in Hacc; [|done].
    destruct (DecodePubkey (rn_id rn)) as [k|] eqn:Hk; [|done].
    destruct (ValidateComplete _) eqn:Hv; [|done]. injection Hacc as <-. exists rn, k.
    split_and!; try done; [|lia]. apply list_elem_of_In, in_concat in Hin as (l & Hl & Hx).
    apply list_elem_of_In, in_concat. exists l. split; [|done]. apply list_elem_of_In.
    apply list_elem_of_In in Hl. by apply (sublist_subseteq _ _ Hs). }
  destruct (Encode (Findnode key exp)) as [[data hs]|].
  2: { simpl. split; [|intros n Hn; by apply elem_of_nil in Hn].
       exists []. split; [apply sublist_nil_l|done]. }
  unfold mbind, proc_bind, execute.
  destruct (write_cases (mkSent (Findnode key exp) data id a) h) as [->| ->].
  2: { simpl. split; [|intros n Hn; by apply elem_of_nil in Hn].
       exists []. split; [apply sublist_nil_l|done]. }
  cbn [s_to s_addr]. set (el := mkAwaitable 0 _).
  destruct (findnode_await a.1 el evs (with_out h (out h ++ [mkSent (Findnode key exp) data id a])) [] 0
    eq_refl Hwk) as (h' & taken & r & -> & Hs & Hr). simpl.
  destruct r as [[e|]|]; simpl; [| |done].
  - split; [|by eapply Hchk]. exists taken. split_and!; try done. case_decide as Hd; [done|].
    intros _. destruct (decide (Z.of_nat (length (concat taken)) = 0)); [|naive_solver].
    apply nil_length_inv. lia.
  - split; [|by eapply Hchk]. exists taken. split_and!; try done.
Qed.

(** a record request never panics, and what it returns is the node it was
    given, or a valid record of the same identity, at least as recent and
    with an address the answering node may relay. *)
Theorem makeEnrRequest_checked now n a evs h :
  Forall well_kinded evs ->
  match makeEnrRequest write_ok now n a evs h with
  | Panics _ => False
  | Blocks _ => True
  | Returns _ (inl _) => True
  | Returns _ (inr n') =>
      n' = n \/ (enode_ID n' = enode_ID n /\ enode_Seq n <= enode_Seq n' /\
                 CheckRelayIP a.1 (enode_IP n') = true)
  end.
Proof.
  intros Hwk. unfold makeEnrRequest. set (exp := u64 _).
  destruct (Encode (ENRRequest exp)) as [[raw hash]|]; [|done].
  unfold mbind, proc_bind, execute.
  destruct (write_cases (mkSent (ENRRequest exp) raw (enode_ID n) a) h) as [->| ->]; [|done].
  cbn [s_to s_addr]. set (el := mkAwaitable 0 _).
  destruct (enr_await hash el evs (with_out h (out h ++ [mkSent (ENRRequest exp) raw (enode_ID n) a])) None
    eq_refl Hwk) as (h' & v & r & -> & Hv).
  destruct r as [[e|]|]; simpl; [done| |done].
  destruct (Hv eq_refl) as [record ->]. destruct (enode_New record) as [respN|]; [|done].
  destruct (decide (enode_ID respN <> enode_ID n)) as [|Hid]; [done|]. apply dec_stable in Hid.
  case_decide; [by left|]. destruct (CheckRelayIP a.1 (enode_IP respN)) eqn:Hr; simpl; [|done].
  right. split_and!; [done|lia|done].
Qed.

(** ** Faults *)

Fixpoint mark_times (k : nat) (id : ID) (h : handler) : handler :=
  match k with
  | O => h
  | S k' => match markFault id (mark_times k' id h) with Returns h' _ => h' | _ => h end
  end.

(** the fault counter of a node is 16 bits wide.  After [k] faults since
    the last answer the node is considered faulty exactly when [k] modulo
    65536 is more than 5; the counters of the other nodes are untouched. *)
Theorem faults_count k id h :
  isFaulty (mark_times k id (clearFault h id)) id = bool_decide (5 < k mod 65536)%nat /\
  forall j, j <> id -> failureMap (mark_times k id (clearFault h id)) !! j = failureMap h !! j.
Proof.
  assert (failureMap (mark_times k id (clearFault h id)) !! id = Some (Z.of_nat k mod 65536) /\
    forall j, j <> id -> failureMap (mark_times k id (clearFault h id)) !! j = failureMap h !! j) as [Hk Hj].
  { induction k as [|k [IH IHj]].
    - simpl. rewrite lookup_insert_eq. split; [done|]. intros j Hj. by rewrite lookup_insert_ne.
    - simpl. rewrite IH, lookup_insert_eq. split.
      + f_equal. simpl. unfold u16, wrap_u. change (2 ^ 16) with 65536.
        rewrite Zplus_mod_idemp_l. f_equal. lia.
      + intros j Hj. rewrite lookup_insert_ne by done. by apply IHj. }
  split; [|done]. unfold isFaulty. rewrite Hk. apply bool_decide_ext. unfold maxGlobalFailures.
  change 65536 with (Z.of_nat 65536). rewrite <- Nat2Z.inj_mod. lia.
Qed.

End Props.

(** ** Runs of the concrete instance *)

Definition demo_holder : identity (E := xor_enode) := mkIdentity String.EmptyString [8; 8; 4; 4] 30303 30303 ∅ 1 false None.
Definition demo_record : @ENRecord xor_enode small_wire := mkRecord (2 ^ 255 + 2) [8; 8; 8; 6] 30303 30303 9.
Definition demo_id (k : Z) : @ID xor_enode := k.
Definition demo_key (k : Z) : @Pubkey xor_enode small_wire := k.
Definition demo_pub (k : Z) : @PublicKey xor_enode small_wire := k.
Definition demo_handler : handler := mkHandler DefaultConfig Demo.start ∅ [] [].
Definition demo_addr : addr := ([8; 8; 8; 5], 30305).
Definition always {A} (_ : A) : bool := true.

(** Node 5 sends a pong nobody asked for, and may then ask for nodes. *)
Lemma unsolicited_pong_bonds_witness :
  exists h', HandlePacket Demo.self demo_holder always (30 * Hour) 0 demo_record demo_addr
      [2; 5; 200000] [] demo_handler = Returns h' None /\
    checkBond (31 * Hour) h' (demo_id 5) [8; 8; 8; 5] = true.
Proof.
  destruct (unsolicited_pong_bonds Demo.self demo_holder always (30 * Hour) 0 (31 * Hour) demo_record
    demo_addr [2; 5; 200000] [] demo_handler (mkEndpoint [] 0 0) [9] 200000 1 (demo_key 5) [7])
    as (h' & Hh & _ & Hb & _); [reflexivity|reflexivity|vm_compute; split; [discriminate|reflexivity]|].
  exists h'. split; [exact Hh|exact Hb].
Defined.

Lemma findnode_requires_bond_witness :
  HandlePacket Demo.self demo_holder always (30 * Hour) 0 demo_record demo_addr
    [3; 5; 6; 200000] [] demo_handler = Returns demo_handler (Some ErrUnknownNode).
Proof.
  exact (findnode_requires_bond Demo.self demo_holder always (30 * Hour) 0 demo_record demo_addr
    [3; 5; 6; 200000] [] demo_handler (demo_key 6) 200000 (demo_key 5) [7] eq_refl).
Defined.

Lemma makeFindNodesResponse_chunks_witness :
  exists pk : list sent, makeFindNodesResponse always (demo_key 6) 200000 demo_addr (demo_id 5) demo_handler =
    Returns (with_out demo_handler pk) None /\ pk <> [].
Proof.
  destruct (makeFindNodesResponse_chunks always (demo_key 6) 200000 demo_addr (demo_id 5) demo_handler)
    as (pk & Hp & Hn & _); [intros ns; eexists; reflexivity|reflexivity|].
  exists pk. split; [exact Hp|exact Hn].
Defined.

Lemma HandlePingRequest_needs_proof_witness :
  let p := Set_ (NewWirePacket (Ping 4 (mkEndpoint [] 0 30303) (mkEndpoint [] 0 0) 200000 1)) senderKey (AnyKey (demo_pub 5)) in
  match HandlePingRequest Demo.self demo_holder always (30 * Hour) 0 demo_addr p (demo_id 5) [7]
          [HvSweep (31 * Hour)] demo_handler with
  | Panics _ => False
  | Returns h' None => True
  | Returns h' (Some _) | Blocks h' => buckets (tab h') = buckets Demo.start
  end.
Proof.
  intros p. pose proof (HandlePingRequest_needs_proof Demo.self demo_holder always default_limits (30 * Hour) 0
    demo_addr p (demo_id 5) [7] [HvSweep (31 * Hour)] demo_handler 4 (mkEndpoint [] 0 30303) (mkEndpoint [] 0 0)
    200000 1 (demo_pub 5)) as H.
  assert (table_inv Demo.self default_limits (tab demo_handler)) as Hinv
    by (exact (proj1 (reachable_inv _ _ _ Demo.start_reachable))).
  specialize (H Hinv ltac:(by repeat constructor) ltac:(by repeat constructor) eq_refl eq_refl eq_refl).
  destruct (HandlePingRequest _ _ _ _ _ _ _ _ _ _ _) as [h' [e|]|h'|w]; [|done| |done];
    by apply H; repeat constructor.
Defined.

Definition demo_neighbors : event :=
  HvReply 0 (mkResponse (demo_id 5) [8; 8; 8; 5] 4
    (Neighbors [mkRpcNode [8; 8; 8; 6] 30306 30306 (demo_key 6); mkRpcNode [8; 8; 8; 7] 80 30307 (demo_key 7)] 100)).

(** Of the two nodes of the answer the second has a low port. *)
Lemma makeFindNodeRequest_checked_witness :
  match makeFindNodeRequest always 0 (demo_id 5) demo_addr (demo_key 6) [demo_neighbors; HvSweep (21 * Second)] demo_handler with
  | Returns _ (nodes, err) => exists taken : list (list (rpcNode Pubkey)),
      nodes = omap (accepted [8; 8; 8; 5]) (concat taken)
  | _ => True
  end.
Proof.
  pose proof (makeFindNodeRequest_checked always 0 (demo_id 5) demo_addr (demo_key 6)
    [demo_neighbors; HvSweep (21 * Second)] demo_handler ltac:(by repeat constructor)) as H.
  destruct (makeFindNodeRequest _ _ _ _ _ _ _) as [h' [nodes err]|h'|w]; [|done|done].
  destruct H as [(taken & _ & Hn & _) _]. exists taken. exact Hn.
Defined.

Lemma makeEnrRequest_checked_witness :
  match makeEnrRequest always 0 Demo.picked.(node_enode) demo_addr
          [HvReply 0 (mkResponse (demo_id (2 ^ 255 + 2)) [8; 8; 8; 5] 6 (ENRResponse [9] demo_record))] demo_handler with
  | Panics _ => False
  | _ => True
  end.
Proof.
  pose proof (makeEnrRequest_checked always 0 Demo.picked.(node_enode) demo_addr
    [HvReply 0 (mkResponse (demo_id (2 ^ 255 + 2)) [8; 8; 8; 5] 6 (ENRResponse [9] demo_record))] demo_handler
    ltac:(by repeat constructor)) as H.
  destruct (makeEnrRequest _ _ _ _ _ _) as [h' r|h'|w]; [destruct r; exact I|exact I|exact H].
Defined.
