(* ===== verification/V4Safe.v ===== *)
(** * The v4 handler as a whole

    Rules for the handler's procedures in the logic of Procs.v, and what
    follows for every datagram and every request: the handler never panics,
    the table keeps its invariant, and a sender without a bond gets no more
    than the pings and pongs that make one. *)

From stdpp Require Import base list gmap.
From Stdlib Require Import ZArith Lia.
From S2P Require Import Prelude Golang Procs External Instances Nodes NodesFacts.
From S2P Require Import Table TableInv TableBucket TableOps TableSys TableProps Identity Awaiter V4 V4Facts V4Props.
Local Open Scope Z_scope.

(** ** One awaited request, by an invariant *)

Section Await.
Context `{E : Enode} {S B : Type} (checker : S -> awaitableRequest -> Response (B := B) -> S * (bool * bool)).

(** [P] holds while the request waits and [Q] when it was answered. *)
Lemma await_invariant (P Q : S -> Prop) (K : Response (B := B) -> Prop) el evs s :
  P s ->
  (forall s r, P s -> K r -> matches el r = true ->
     let '(s', (ok, fin)) := checker s el r in P s' /\ (ok && fin = true -> Q s')) ->
  Forall (fun e => match e with
                   | EvReply _ r => K r | EvSweep _ => True | EvEnv f => forall s, P s -> P (f s)
                   end) evs ->
  let '(s', r) := await checker s el evs in P s' /\ (r = Some None -> Q s').
Proof.
  intros Hs Hc Hevs. revert s Hs. induction Hevs as [|[now r|now|f] evs He _ IH]; intros s Hs; simpl.
  - done.
  - destruct (matches el r) eqn:Hm; [|by apply IH]. unfold verdict. case_decide; [done|].
    specialize (Hc s r Hs He Hm). destruct (checker s el r) as [s' [[|] [|]]]; simpl in Hc;
      destruct Hc as [Hs' HQ]; [by split; [|intros _; apply HQ]|by apply IH..|done].
  - destruct (expired now el); [done|by apply IH].
  - by apply IH, He.
Qed.

End Await.

Section Safe.
Context `{EL : EnodeLaws} `{NL : NetUtilLaws} `{DL : NodeDBLaws (E := E)} `{WL : V4WireLaws (E := E)}.
Variable Self : enode.
Variable holder : identity (E := E).
Variable write_ok : list sent -> bool.

Abbreviation packet := (packet Pubkey ENRecord).

(** ** Writing and waiting *)

Lemma wp_write s (Q : handler -> option (option v4err) -> Prop) h :
  Q (with_out h (out h ++ [s])) (Some None) -> Q h (Some (Some ErrWrite)) -> wp (write write_ok s) Q h.
Proof. unfold wp, write. by destruct (write_ok (out h)). Qed.

Lemma wp_sendAndForget id a p (Q : handler -> option (option v4err) -> Prop) h :
  (forall enc, Q (with_out h (out h ++ [mkSent p enc id a])) (Some None)) ->
  (forall e, Q h (Some (Some e))) -> wp (sendAndForget write_ok id a p) Q h.
Proof.
  intros Hw He. unfold sendAndForget. destruct (Encode p) as [[enc hs]|]; [|apply He].
  apply wp_write; [apply Hw|apply He].
Qed.

(** An awaited request.  [I] holds of the handler as long as the request
    waits, [J] of the value its checker keeps, and [F] of that value when the
    request was answered. *)
Lemma wp_execute {V} (I : handler -> Prop) (J F : V -> Prop) s kind exp checker init evs h :
  I h -> I (with_out h (out h ++ [s])) -> J init ->
  (forall h v el r, I h -> J v -> Kind (rs_body r) = kind -> exists h' v' ok fin,
     checker (Ok (h, v)) el r = (Ok (h', v'), (ok, fin)) /\ I h' /\ J v' /\ (ok && fin = true -> F v')) ->
  Forall well_kinded evs -> Forall (keeps I) evs ->
  wp (execute write_ok s kind exp checker init evs)
     (fun h' r => I h' /\ match r with Some (None, v) => F v | _ => True end) h.
Proof.
  intros Hh Hw HJ Hc Hwk Hk. unfold execute, wp, write.
  destruct (write_ok (out h)); [|done]. fold (with_out h (out h ++ [s])).
  set (el := mkAwaitable 0 _).
  pose proof (await_invariant checker
    (fun s => exists h v, s = Ok (h, v) /\ I h /\ J v) (fun s => exists h v, s = Ok (h, v) /\ F v)
    (fun r => rs_kind r = Kind (rs_body r)) el (map lift evs)
    (Ok (with_out h (out h ++ [s]), init))) as H.
  destruct (await _ _ _ _) as [s' r].
  destruct H as [(h' & v & -> & Hh' & Hv) HF].
  - by eexists _, _.
  - intros ? r0 (h0 & v & -> & Hh0 & Hv) Hr Hm.
    assert (Kind (rs_body r0) = kind) as Hkd by (rewrite <- Hr, <- (matches_kind _ _ Hm); done).
    destruct (Hc h0 v el r0 Hh0 Hv Hkd) as (h' & v' & ok & fin & -> & ? & ? & ?).
    split; [by eexists _, _|]. intros Hd. eexists _, _. split; [done|auto].
  - apply List.Forall_map. rewrite Forall_forall in Hwk, Hk. apply Forall_forall. intros e He.
    specialize (Hwk e He). specialize (Hk e He). destruct e; [done..|].
    intros ? (h0 & v & -> & Hh0 & Hv). simpl. eexists _, _. split; [done|]. by split; [apply Hk|].
  - destruct r as [[e|]|]; [done| |done]. destruct (HF eq_refl) as (h2 & v2 & [= <- <-] & HFv). done.
Qed.

(** ** Pings *)

(** Packets the handler writes to make a bond with [id] at the address [a]. *)
Definition is_ping (p : packet) : Prop := match p with Ping _ _ _ _ _ => True | _ => False end.
Definition is_pong (p : packet) : Prop := match p with Pong _ _ _ _ => True | _ => False end.
Definition sent_to (id : ID) (a : addr) (s : sent) : Prop := s_to s = id /\ s_addr s = a.

Lemma wp_makePing (I : handler -> Prop) now id a cb evs h :
  I h -> (forall s, sent_to id a s -> is_ping (s_packet s) -> I (with_out h (out h ++ [s]))) ->
  (forall h, I h -> exists h', cb h = Ok h' /\ I h') ->
  Forall well_kinded evs -> Forall (keeps I) evs ->
  wp (makePingRequest holder write_ok now id a cb evs) (fun h' _ => I h') h.
Proof.
  intros Hh Hw Hcb Hwk Hk. unfold makePingRequest, generatePing.
  destruct (Encode _) as [[d hash]|]; [|by apply wp_ret]. apply wp_bind.
  eapply wp_mono; [apply (wp_execute I (fun _ => True) (fun v => is_Some v))|]; [done| |done| |done|done|].
  - by apply Hw.
  - intros h0 v el r Hh0 _ Hkd. destruct (Kind_Pong _ Hkd) as (t & tok & ex & seq & Hb).
    unfold ping_checker. rewrite Hb. case_bool_decide.
    + destruct (Hcb h0 Hh0) as (h' & Hh' & HI). simpl. rewrite Hh'. by eexists _, _, _, _.
    + by eexists _, _, _, _.
  - intros h' [[[e|] v]|]; [|intros [HI Hv]|by intros [HI _]].
    + intros [HI _]. by apply wp_ret.
    + destruct Hv as [seq ->]. by apply wp_ret.
Qed.

(** ** Properties of the handler its procedures keep *)

(** [I] does not depend on what the handler records beside its table and
    what it wrote, and new nodes can be added to the table where it holds. *)
Class HandlerInv (I : handler -> Prop) : Prop := {
  inv_matched h l : I h -> I (mkHandler (Cfg h) (tab h) (failureMap h) (out h) l);
  inv_faults h id n : I h -> I (set_faults h id n);
  inv_store h d : I h -> I (set_store h d);
  inv_hp h hp' : I h -> I (set_tab h (set_hp (tab h) hp'));
  inv_seen now n h : I h -> exists h', add_seen Self now n h = Ok h' /\ I h' }.

Section Handlers.
Context (I : handler -> Prop) `{!HandlerInv I}.

Lemma add_or_ping_wp now now' a fromID k tcp evs h :
  I h ->
  (forall h2 s, out h2 = out h -> I h2 -> sent_to fromID a s -> is_ping (s_packet s) ->
     I (with_out h2 (out h2 ++ [s]))) ->
  Forall well_kinded evs -> Forall (keeps I) evs ->
  wp (add_or_ping Self holder write_ok now now' a fromID k tcp evs) (fun h' _ => I h') h.
Proof.
  intros Hh Hw Hwk Hk. unfold add_or_ping. apply wp_bind, wp_get, wp_bind, wp_modify.
  unfold WrapNode. cbn [fst snd]. case_decide.
  - apply wp_bind. eapply wp_mono; [apply (wp_makePing I)|].
    + by apply inv_hp.
    + intros s Hs Hp. apply Hw; [done|by apply inv_hp|done..].
    + intros h0 Hh0. by apply inv_seen.
    + done.
    + done.
    + intros h' [[e|seq]|]; intros; [by apply wp_ret..|done].
  - apply wp_bind, wp_get. edestruct (inv_seen now') as (h' & Heq & Hh'); [by apply inv_hp|].
    rewrite Heq. by apply wp_bind, wp_modify, wp_ret.
Qed.

(** A verified ping: its key is stored in the packet. *)
Lemma verifyPing_wp now a key p h :
  I h -> wp (verifyPing now a key p) (fun h' r => I h' /\ out h' = out h /\
    match r with
    | Some (p', None) => GetSource p' = GetSource p /\ exists k, Get_ p' senderKey = Some (AnyKey k)
    | _ => True end) h.
Proof.
  intros Hh. unfold verifyPing. destruct (GetSource p) eqn:Hsrc; try by apply wp_ret.
  destruct (Expired now _); [by apply wp_ret|].
  destruct (DecodePubkey key) as [k|]; [|by apply wp_ret]. apply wp_bind, wp_modify, wp_ret.
  split; [by apply inv_store|]. split; [done|]. split; [done|]. exists k. apply lookup_insert_eq.
Qed.

(** What a pong and a ping to the sender leave true. *)
Definition may_bond (id : ID) (a : addr) (h : handler) : Prop :=
  forall s, sent_to id a s -> is_pong (s_packet s) ->
     I (with_out h (out h ++ [s])) /\
     forall h2 s2, out h2 = out h ++ [s] -> I h2 -> sent_to id a s2 -> is_ping (s_packet s2) ->
       I (with_out h2 (out h2 ++ [s2])).

Lemma HandlePing_wp now now' a p fromID hash evs h k :
  I h -> Get_ p senderKey = Some (AnyKey k) -> may_bond fromID a h -> Forall well_kinded evs -> Forall (keeps I) evs ->
  wp (HandlePingRequest Self holder write_ok now now' a p fromID hash evs) (fun h' _ => I h') h.
Proof.
  intros Hh Hkey Hw Hwk Hk. unfold HandlePingRequest.
  destruct (GetSource p) as [v from to exp seq| | | | |]; try by apply wp_ret.
  destruct (Encode _) as [[raw hs]|]; [|by apply wp_ret]. apply wp_bind, wp_write; [|by apply wp_ret].
  rewrite Hkey. set (s := mkSent _ raw fromID a). destruct (Hw s) as [Hs Hs2]; [done..|].
  apply add_or_ping_wp; [done| |done|done]. intros h2 s2 Ho. by apply Hs2.
Qed.

(** A record request: with no bond it is refused, after a ping at most. *)
Lemma verifyENR_wp now a fromID p evs h e0 :
  GetSource p = ENRRequest e0 -> I h ->
  (forall h2 s, out h2 = out h -> I h2 -> sent_to fromID a s -> is_ping (s_packet s) ->
     I (with_out h2 (out h2 ++ [s]))) ->
  Forall well_kinded evs -> Forall (keeps I) evs ->
  wp (verifyENRRequest holder write_ok now a fromID p evs) (fun h' r => I h' /\
    match r with Some (p', None) => p' = p /\ h' = h /\ checkBond now h fromID a.1 = true | _ => True end) h.
Proof.
  intros Hsrc Hh Hw Hwk Hk. unfold verifyENRRequest. apply wp_bind, wp_get.
  destruct (ResponseEnr (Cfg h)); simpl; [|by apply wp_ret]. rewrite Hsrc.
  destruct (Expired now e0); [by apply wp_ret|].
  destruct (checkBond now h fromID a.1) eqn:Hb; simpl; [by apply wp_ret|].
  apply wp_bind, wp_modify, wp_bind, wp_get. set (h1 := set_faults h fromID _).
  assert (I h1) as Hh1 by by apply inv_faults.
  apply wp_bind. destruct (negb (isFaulty h1 fromID)); [|by apply wp_ret, wp_ret].
  apply wp_bind. eapply wp_mono; [apply (wp_makePing I)|].
  - done.
  - intros s Hs Hp. by apply Hw.
  - intros h0 Hh0. eexists. split; [done|by apply inv_faults].
  - done.
  - done.
  - intros h' [r|] Hh'; [by apply wp_ret, wp_ret|done].
Qed.

(** The requests that are answered with more than a bond. *)
Definition needs_bond (p : packet) : Prop :=
  match p with Findnode _ _ | ENRRequest _ => True | _ => False end.

(** The checks of a packet write a ping at most.  They keep its source, store
    the key of a ping, and let a request through only from a bonded sender. *)
Definition verified (raw : packet) (p : WirePacket) : Prop :=
  GetSource p = raw /\ (is_ping raw -> exists k, Get_ p senderKey = Some (AnyKey k)).

Lemma preverify_wp now a raw fromID key evs h :
  I h ->
  (forall h2 s, out h2 = out h -> I h2 -> sent_to fromID a s -> is_ping (s_packet s) ->
     I (with_out h2 (out h2 ++ [s]))) ->
  Forall well_kinded evs -> Forall (keeps I) evs ->
  wp (preverify holder write_ok now a (NewWirePacket raw) fromID key evs) (fun h' r => I h' /\
    match r with
    | Some (p, None) => verified raw p /\ out h' = out h /\
        (needs_bond raw -> checkBond now h fromID a.1 = true)
    | _ => True end) h.
Proof.
  intros Hh Hw Hwk Hk. unfold preverify. destruct raw eqn:Hraw; cbn [GetSource NewWirePacket].
  - eapply wp_mono; [by apply verifyPing_wp|].
    intros h' [[p [e|]]|] (Hh' & Ho & Hp); [done| |done]. destruct Hp as [Hs Hp]. by split_and!.
  - unfold verifyPong. cbn [GetSource NewWirePacket].
    destruct (Expired _ _); [by apply wp_ret|]. apply wp_bind, wp_modify, wp_ret. by split; [apply inv_store|].
  - unfold VerifyFindNodeRequest. apply wp_bind, wp_get. cbn [GetSource NewWirePacket].
    destruct (negb (ResponseFindNode _)); [by apply wp_ret|]. destruct (Expired _ _); [by apply wp_ret|].
    destruct (checkBond now h fromID a.1); by apply wp_ret.
  - unfold VerifyFindNodeResponse. cbn [GetSource NewWirePacket]. by destruct (Expired _ _); apply wp_ret.
  - eapply wp_mono; [by eapply verifyENR_wp|].
    intros h' [[p [e|]]|] [Hh' Hp]; [done| |done]. by destruct Hp as (-> & -> & Hb).
  - apply wp_bind. unfold Match, wp. by split; [apply inv_matched|].
Qed.

Lemma Match_preserves r : preserves I (Match r).
Proof. intros h Hh. unfold Match, wp. by apply inv_matched. Qed.

Definition may_write : Prop := forall h l, I h -> I (with_out h l).

Lemma sendAndForget_preserves id a p : may_write -> preserves I (sendAndForget write_ok id a p).
Proof. intros Hw h Hh. by apply wp_sendAndForget; intros; [apply Hw|]. Qed.

Lemma send_neighbors_preserves exp a id entries nodes sent :
  may_write -> preserves I (send_neighbors write_ok exp a id entries nodes sent).
Proof.
  intros Hw. revert nodes sent. induction entries as [|n es IH]; intros nodes sent; cbn [send_neighbors].
  - destruct (_ || _); [by apply sendAndForget_preserves|apply preserves_ret].
  - destruct (negb _); [apply IH|]. case_decide; [|apply IH].
    apply preserves_bind; [by apply sendAndForget_preserves|]. intros [e|]; [apply preserves_ret|apply IH].
Qed.

Lemma handle_wp now now' record a raw p fromID hash evs h :
  I h -> verified raw p -> (needs_bond raw -> may_write) -> may_bond fromID a h ->
  Forall well_kinded evs -> Forall (keeps I) evs ->
  wp (handle Self holder write_ok now now' record a p fromID hash evs) (fun h' _ => I h') h.
Proof.
  intros Hh [Hsrc Hkey] Hw Hb Hwk Hk. unfold handle. rewrite Hsrc. destruct raw; simpl in Hw.
  - destruct (Hkey Logic.I) as [k Hk2]. by eapply HandlePing_wp.
  - unfold HandlePongResponse. rewrite Hsrc. by apply Match_preserves.
  - unfold HandleFindNodeRequest, makeFindNodesResponse. rewrite Hsrc.
    apply wp_bind, wp_get, send_neighbors_preserves; [by apply Hw|done].
  - unfold HandleFindNodeResponse. rewrite Hsrc.
    apply preserves_bind; [apply Match_preserves| |done]. intros [e|]; apply preserves_ret.
  - apply sendAndForget_preserves; [by apply Hw|done].
  - by apply wp_ret.
Qed.

(** ** Where any packet may be written *)

Hypothesis I_write : may_write.

(** Every datagram. *)
Lemma HandlePacket_preserves now now' record a buf evs :
  Forall well_kinded evs -> Forall (keeps I) evs ->
  preserves I (HandlePacket Self holder write_ok now now' record a buf evs).
Proof.
  intros Hwk Hk h Hh. unfold HandlePacket. destruct (Decode buf) as [[[raw key] hash]|]; [|by apply wp_ret].
  apply wp_bind. eapply wp_mono; [apply preverify_wp; [done| |done|done]; intros; by apply I_write|].
  intros h' [[p [e|]]|] [Hh' Hp]; [by apply wp_ret| |done]. destruct Hp as (Hp & _).
  eapply handle_wp; [done..| |done|done]. intros s _ _. split; [by apply I_write|]. intros. by apply I_write.
Qed.

(** ** Every request *)

Lemma makePing_preserves now id a cb evs :
  (forall h, I h -> exists h', cb h = Ok h' /\ I h') ->
  Forall well_kinded evs -> Forall (keeps I) evs ->
  preserves I (makePingRequest holder write_ok now id a cb evs).
Proof. intros Hcb Hwk Hk h Hh. apply wp_makePing; try done. intros. by apply I_write. Qed.

Lemma makeFindNode_preserves now id a key evs :
  Forall well_kinded evs -> Forall (keeps I) evs ->
  preserves I (makeFindNodeRequest write_ok now id a key evs).
Proof.
  intros Hwk Hk h Hh. unfold makeFindNodeRequest. destruct (Encode _) as [[d hs]|]; [|by apply wp_ret].
  apply wp_bind. eapply wp_mono; [apply (wp_execute I (fun _ => True) (fun _ => True))|].
  - done.
  - by apply I_write.
  - done.
  - intros h0 v el r Hh0 _ Hkd. destruct (Kind_Neighbors _ Hkd) as (ns & ex & Hb).
    unfold findnode_checker. rewrite Hb. simpl. by eexists _, _, _, _.
  - done.
  - done.
  - intros h' [[e [nodes k]]|] [Hh' _]; [by apply wp_ret|done].
Qed.

Lemma makeEnr_preserves now n a evs :
  Forall well_kinded evs -> Forall (keeps I) evs ->
  preserves I (makeEnrRequest write_ok now n a evs).
Proof.
  intros Hwk Hk h Hh. unfold makeEnrRequest. destruct (Encode _) as [[d hash]|]; [|by apply wp_ret].
  apply wp_bind. eapply wp_mono; [apply (wp_execute I (fun _ => True) (fun v => is_Some v))|].
  - done.
  - by apply I_write.
  - done.
  - intros h0 v el r Hh0 _ Hkd. destruct (Kind_ENRResponse _ Hkd) as (tok & rec & Hb).
    unfold enr_checker. rewrite Hb. simpl. eexists _, _, _, _. split_and!; [done..|].
    case_bool_decide; [by eexists|done].
  - done.
  - done.
  - intros h' [[[e|] v]|] [Hh' Hv]; [by apply wp_ret| |done]. destruct Hv as [rec ->].
    repeat case_match; by apply wp_ret.
Qed.

Lemma tryBond_preserves now now1 now2 id a evs sleep :
  Forall well_kinded evs -> Forall (keeps I) evs -> (forall h, I h -> I (sleep h)) ->
  preserves I (tryBond holder write_ok now now1 now2 id a evs sleep).
Proof.
  intros Hwk Hk Hs. unfold tryBond. apply preserves_get. intros h Hh.
  apply preserves_bind; [| |done].
  - case_decide; [|apply preserves_ret]. apply makePing_preserves; [|done|done]. by eexists.
  - intros [e|seq]; [apply preserves_ret|]. apply preserves_get. intros h1 Hh1.
    case_decide; [by apply wp_ret|].
    apply preserves_bind; [by apply preserves_modify| |done]. intros _.
    apply preserves_get. intros h2 Hh2. by apply wp_ret.
Qed.

Lemma MakeFindNode_preserves now now1 now2 now3 id a key evs sleep evs' :
  Forall well_kinded evs -> Forall (keeps I) evs -> (forall h, I h -> I (sleep h)) ->
  Forall well_kinded evs' -> Forall (keeps I) evs' ->
  preserves I (MakeFindNodeRequest holder write_ok now now1 now2 now3 id a key evs sleep evs').
Proof.
  intros. apply preserves_bind; [by apply tryBond_preserves|].
  intros [|]; simpl; [by apply makeFindNode_preserves|apply preserves_ret].
Qed.

Lemma MakeEnr_preserves now now1 now2 now3 n a evs sleep evs' :
  Forall well_kinded evs -> Forall (keeps I) evs -> (forall h, I h -> I (sleep h)) ->
  Forall well_kinded evs' -> Forall (keeps I) evs' ->
  preserves I (MakeEnrRequest holder write_ok now now1 now2 now3 n a evs sleep evs').
Proof.
  intros. apply preserves_bind; [by apply tryBond_preserves|].
  intros [|]; simpl; [by apply makeEnr_preserves|apply preserves_ret].
Qed.

End Handlers.

(** ** The table's invariant *)

#[export] Instance table_handler_inv lim : HandlerInv (fun h => table_inv Self lim (tab h)).
Proof.
  constructor; [done|done|..].
  - intros h d Hh. by apply (tinv_ext Self _ _ _ _ (tab h)).
  - intros h hp' Hh. by apply (tinv_ext Self _ _ _ _ (tab h)).
  - intros now n h Hh. unfold add_seen. destruct (AddSeenNode_inv Self _ _ _ _ now _ n Hh) as (t & -> & Ht & _).
    by eexists.
Qed.

(** every datagram.  On a handler whose table keeps its invariant,
    whatever the bytes, the address and the clock, and whatever answers arrive
    to the ping it can cause, handling it does not panic and leaves the
    table's invariant true, whether it returns or still waits. *)
Theorem HandlePacket_total lim now now' record a buf evs h :
  table_inv Self lim (tab h) -> Forall well_kinded evs ->
  Forall (keeps (fun h => table_inv Self lim (tab h))) evs ->
  match HandlePacket Self holder write_ok now now' record a buf evs h with
  | Panics _ => False
  | Returns h' _ | Blocks h' => table_inv Self lim (tab h')
  end.
Proof.
  intros Hh Hwk Hk.
  assert (preserves (fun h => table_inv Self lim (tab h))
    (HandlePacket Self holder write_ok now now' record a buf evs)) as Hp
    by (apply HandlePacket_preserves; [apply _|intros ? ? H; exact H|done|done]).
  specialize (Hp h Hh). unfold wp in Hp. by destruct (HandlePacket _ _ _ _ _ _ _ _ _ h).
Qed.

(** ** A sender without a bond *)

(** At most [k] packets were written since [o], all of them pings and pongs
    to [id] at the address [a]. *)
Definition bonding (id : ID) (a : addr) (o : list sent) (k : nat) (h : handler) : Prop :=
  exists l, out h = o ++ l /\ (length l <= k)%nat /\
    Forall (fun s => sent_to id a s /\ (is_ping (s_packet s) \/ is_pong (s_packet s))) l.

Lemma bonding_write id a o k h s :
  bonding id a o k h -> sent_to id a s -> is_ping (s_packet s) \/ is_pong (s_packet s) ->
  bonding id a o (S k) (with_out h (out h ++ [s])).
Proof.
  intros (l & Ho & Hl & Hf) Hs Hp. exists (l ++ [s]). simpl. rewrite Ho, app_assoc, length_app. simpl.
  split_and!; [done|lia|]. apply Forall_app. by split; [|apply Forall_singleton].
Qed.

Lemma bonding_le id a o k k' h : bonding id a o k h -> (k <= k')%nat -> bonding id a o k' h.
Proof. intros (l & ? & ? & ?) ?. exists l. split_and!; [done|lia|done]. Qed.

Lemma bonding_same id a o k h h' : out h' = out h -> bonding id a o k h -> bonding id a o k h'.
Proof. unfold bonding. by intros ->. Qed.

(** The invariant of a handler that deals with a sender: the table's, and the
    writes of the sender's bond. *)
Definition bond_inv (lim : limits) (id : ID) (a : addr) (o : list sent) (h : handler) : Prop :=
  table_inv Self lim (tab h) /\ bonding id a o 2 h.

#[export] Instance bond_handler_inv lim id a o : HandlerInv (bond_inv lim id a o).
Proof.
  constructor.
  - intros h l [Ht Hb]. by split.
  - intros h i n [Ht Hb]. by split.
  - intros h d [Ht Hb]. split; [|done]. by apply (inv_store (I := fun h => table_inv Self lim (tab h))).
  - intros h p [Ht Hb]. split; [|done]. by apply (inv_hp (I := fun h => table_inv Self lim (tab h))).
  - intros now n h [Ht Hb].
    destruct (inv_seen (I := fun h => table_inv Self lim (tab h)) now n h Ht) as (h' & Heq & Ht').
    exists h'. split; [done|]. split; [done|]. eapply bonding_same, Hb. revert Heq. unfold add_seen.
    destruct (AddSeenNode _ _ _ _); [|done]. by intros [= <-].
Qed.

Lemma bond_inv_write lim id a o h s :
  table_inv Self lim (tab h) -> bonding id a o 1 h -> sent_to id a s ->
  is_ping (s_packet s) \/ is_pong (s_packet s) -> bond_inv lim id a o (with_out h (out h ++ [s])).
Proof. intros Ht Hb Hs Hp. split; [done|by apply bonding_write]. Qed.

Lemma bonding_one id a h s :
  sent_to id a s -> is_pong (s_packet s) -> forall h2, out h2 = out h ++ [s] -> bonding id a (out h) 1 h2.
Proof. intros Hs Hp h2 Ho. exists [s]. split_and!; [done..|]. apply Forall_singleton. auto. Qed.

(** C4: a sender whose address has no bond gets no nodes and no record.  As
    long as the other goroutines write nothing themselves, one datagram makes
    the handler write at most two packets, pings and pongs, all to the
    sender's identity and address. *)
Theorem HandlePacket_no_amplification lim now now' record a buf evs h raw key hash :
  table_inv Self lim (tab h) -> Decode buf = Some (raw, key, hash) ->
  checkBond now h (Pubkey_ID key) a.1 = false ->
  Forall well_kinded evs -> Forall (keeps (bond_inv lim (Pubkey_ID key) a (out h))) evs ->
  match HandlePacket Self holder write_ok now now' record a buf evs h with
  | Panics _ => False
  | Returns h' _ | Blocks h' => bonding (Pubkey_ID key) a (out h) 2 h'
  end.
Proof.
  intros Ht Hdec Hbond Hwk Hk. set (id := Pubkey_ID key) in *. set (I := bond_inv lim id a (out h)) in *.
  assert (forall h2, out h2 = out h -> bonding id a (out h) 0 h2) as Hb0
    by (intros h2 Ho; exists []; by rewrite app_nil_r).
  assert (I h) as Hh by (split; [done|]; eapply bonding_le; [by apply Hb0|lia]).
  assert (forall h2 s, out h2 = out h -> I h2 -> sent_to id a s -> is_ping (s_packet s) ->
    I (with_out h2 (out h2 ++ [s]))) as Hw.
  { intros h2 s Ho [Ht2 _] Hs Hp. apply bond_inv_write; [done| |done|by left].
    eapply bonding_le; [by apply Hb0|lia]. }
  cut (wp (HandlePacket Self holder write_ok now now' record a buf evs) (fun h' _ => I h') h).
  { unfold wp. by destruct (HandlePacket _ _ _ _ _ _ _ _ _ h) as [h' r|h'|w]; [intros []|intros []|]. }
  unfold HandlePacket. rewrite Hdec. fold id. apply wp_bind.
  eapply wp_mono; [by apply (preverify_wp I)|].
  intros h' [[p [e|]]|] [Hh' Hp]; [by apply wp_ret| |done]. destruct Hp as (Hp & Ho & Hn).
  eapply (handle_wp I); [done..| | |done|done].
  - intros Hraw. specialize (Hn Hraw). congruence.
  - intros s Hs Hpong. split.
    + apply bond_inv_write; [apply Hh'| |done|by right]. eapply bonding_le; [by apply Hb0|lia].
    + intros h2 s2 Ho2 [Ht2 _] Hs2 Hp2. apply bond_inv_write; [exact Ht2| |exact Hs2|by left].
      apply (bonding_one _ _ _ s); [done..|congruence].
Qed.

End Safe.

(** ** Runs of the concrete instance *)

Module Demo.

Lemma demo_inv : table_inv TableProps.Demo.self default_limits (tab demo_handler).
Proof. exact (proj1 (reachable_inv _ _ _ TableProps.Demo.start_reachable)). Qed.

(** A ping from node 5, whose own ping is never answered. *)
Lemma HandlePacket_total_witness :
  match HandlePacket TableProps.Demo.self demo_holder always (30 * Hour) 0 demo_record demo_addr
          [1; 5; 200000] [HvSweep (31 * Hour)] demo_handler with
  | Panics _ => False
  | Returns h' _ | Blocks h' => table_inv TableProps.Demo.self default_limits (tab h')
  end.
Proof.
  exact (HandlePacket_total TableProps.Demo.self demo_holder always default_limits (30 * Hour) 0
    demo_record demo_addr [1; 5; 200000] [HvSweep (31 * Hour)] demo_handler demo_inv
    ltac:(by repeat constructor) ltac:(by repeat constructor)).
Defined.

Lemma HandlePacket_no_amplification_witness :
  match HandlePacket TableProps.Demo.self demo_holder always (30 * Hour) 0 demo_record demo_addr
          [1; 5; 200000] [HvSweep (31 * Hour)] demo_handler with
  | Panics _ => False
  | Returns h' _ | Blocks h' => (length (out h') <= 2)%nat
  end.
Proof.
  pose proof (HandlePacket_no_amplification TableProps.Demo.self demo_holder always default_limits (30 * Hour) 0
    demo_record demo_addr [1; 5; 200000] [HvSweep (31 * Hour)] demo_handler _ (demo_key 5) _ demo_inv
    eq_refl eq_refl ltac:(by repeat constructor) ltac:(by repeat constructor)) as H.
  destruct (HandlePacket _ _ _ _ _ _ _ _ _ _) as [h' r|h'|w]; [| |done];
    destruct H as (l & Ho & Hl & _); simpl in Ho; by rewrite Ho.
Defined.

End Demo.
