(* ===== verification/V4Types.v ===== *)
(** * crawler/net/discovery/v4: the values that packets carry

    A packet's handler runs in two stages that exchange values of type [any]
    under the keys of the packet.  The second stage asserts the types of what
    the first one stored; here each key has one type, the first stage keeps
    the typing, and on what it lets through no assertion fails. *)

From stdpp Require Import base list gmap.
From Stdlib Require Import ZArith Lia.
From S2P Require Import Prelude Golang Procs External Instances Nodes NodesFacts.
From S2P Require Import Table TableInv TableSys TableProps Identity Awaiter V4 V4Facts V4Props V4Safe.
Local Open Scope Z_scope.

Section Types.
Context `{EL : EnodeLaws} `{NL : NetUtilLaws} `{DL : NodeDBLaws (E := E)} `{WL : V4WireLaws (E := E)}.
Variable Self : enode.
Variable holder : identity (E := E).
Variable write_ok : list sent -> bool.

Abbreviation packet := (packet Pubkey ENRecord).

(** The type of the values under a key. *)
Definition has_type (key : Z) (v : any) : Prop :=
  match v with
  | AnyKey _ => key = senderKey
  | AnySeq _ => key = enrSeqKey
  | AnyTime _ => key = ExpirationKey
  end.

Definition typed (p : WirePacket) : Prop := map_Forall has_type (wdata p).

(** What the second stage asserts of a packet. *)
Definition asserted (key : Pubkey) (p : WirePacket) : Prop :=
  is_ping (GetSource p) -> exists k, Get_ p senderKey = Some (AnyKey k) /\ DecodePubkey key = Some k.

Lemma typed_new raw : typed (NewWirePacket raw).
Proof. apply map_Forall_empty. Qed.

Lemma typed_set p key v : typed p -> has_type key v -> typed (Set_ p key v).
Proof. intros Hp Hv. by apply map_Forall_insert_2. Qed.

(** The value of a key determines no other type. *)
Lemma typed_get p key v : typed p -> Get_ p key = Some v -> has_type key v.
Proof. intros Hp. apply Hp. Qed.

(** The first stage on one packet: what it returns without an error. *)
Definition staged (raw : packet) (key : Pubkey) (h : handler) (r : option (WirePacket * option v4err)) : Prop :=
  match r with
  | Some (p, err) => typed p /\ GetSource p = raw /\ (err = None -> asserted key p)
  | None => True
  end.

Lemma staged_ret raw key p err h :
  typed p -> GetSource p = raw -> (err = None -> asserted key p) ->
  wp (mret (p, err)) (staged raw key) h.
Proof. intros. by apply wp_ret. Qed.

Lemma not_ping raw key p : GetSource p = raw -> ~ is_ping raw -> asserted key p.
Proof. intros Hs Hn Hp. rewrite Hs in Hp. by destruct Hn. Qed.

Lemma verifyPing_staged now a key raw h :
  is_ping raw -> wp (verifyPing now a key (NewWirePacket raw)) (staged raw key) h.
Proof.
  intros Hp. unfold verifyPing. destruct raw; try done. cbn [GetSource NewWirePacket].
  destruct (Expired _ _); [by apply staged_ret; [apply typed_new|..]|].
  destruct (DecodePubkey key) as [k|] eqn:Hk; [|by apply staged_ret; [apply typed_new|..]].
  apply wp_bind, wp_modify, staged_ret; [apply typed_set; [apply typed_new|done]|done|].
  intros _ _. exists k. split; [apply lookup_insert_eq|done].
Qed.

Lemma verifyENR_staged lim now a fromID key raw evs h :
  table_inv Self lim (tab h) -> Forall well_kinded evs ->
  Forall (keeps (fun h => table_inv Self lim (tab h))) evs -> (exists exp, raw = ENRRequest exp) ->
  wp (verifyENRRequest holder write_ok now a fromID (NewWirePacket raw) evs) (staged raw key) h.
Proof.
  intros Ht Hwk Hk [exp ->]. set (raw := ENRRequest exp).
  assert (forall err h, wp (mret (NewWirePacket raw, err)) (staged raw key) h) as Hret.
  { intros err h0. apply staged_ret; [apply typed_new|done|]. intros _. apply (not_ping raw); [done|intros []]. }
  unfold verifyENRRequest. apply wp_bind, wp_get. destruct (negb _); [apply Hret|].
  cbn [GetSource NewWirePacket]. unfold raw at 1. destruct (Expired _ _); [apply Hret|].
  destruct (negb (checkBond _ _ _ _)); [|apply Hret].
  apply wp_bind, wp_modify, wp_bind, wp_get, wp_bind.
  destruct (negb (isFaulty _ _)); [|apply wp_ret, Hret].
  apply wp_bind. eapply wp_mono; [apply (wp_makePing _ _ (fun h => table_inv Self lim (tab h)))|]; try done.
  - intros h0 Hh0. by eexists.
  - intros h' [r|] Hh'; [apply wp_ret, Hret|done].
Qed.

Lemma preverify_staged lim now a raw key evs h :
  table_inv Self lim (tab h) -> Forall well_kinded evs ->
  Forall (keeps (fun h => table_inv Self lim (tab h))) evs ->
  wp (preverify holder write_ok now a (NewWirePacket raw) (Pubkey_ID key) key evs) (staged raw key) h.
Proof.
  intros Ht Hwk Hk. unfold preverify.
  assert (~ is_ping raw -> forall err h, wp (mret (NewWirePacket raw, err)) (staged raw key) h) as Hret.
  { intros Hn err h0. apply staged_ret; [apply typed_new|done|]. intros _. by apply (not_ping raw). }
  destruct raw eqn:Hraw; [by apply verifyPing_staged|specialize (Hret (fun np => np))..]; cbn [GetSource NewWirePacket].
  - unfold verifyPong. cbn [GetSource NewWirePacket]. destruct (Expired _ _); [apply Hret|].
    apply wp_bind, wp_modify, Hret.
  - unfold VerifyFindNodeRequest. apply wp_bind, wp_get. cbn [GetSource NewWirePacket].
    destruct (negb (ResponseFindNode _)); [apply Hret|]. destruct (Expired _ _); [apply Hret|].
    destruct (negb (checkBond _ _ _ _)); [apply Hret|].
    apply staged_ret; [apply typed_set; [apply typed_new|done]|done|]. intros _ [].
  - unfold VerifyFindNodeResponse. cbn [GetSource NewWirePacket]. destruct (Expired _ _); apply Hret.
  - eapply verifyENR_staged; [done..|by eexists].
  - apply wp_bind. unfold Match, wp. apply Hret.
Qed.

(** C31: the values that the two stages of a packet exchange are typed.  A
    packet that goes through the first stage keeps its source and has under
    each key a value of that key's type; when the stage reports no error, a
    ping has the key of its sender; and then the second stage, on any handler
    with a table in order, panics at no type assertion or otherwise. *)
Theorem stages_typed lim now a raw key evs h :
  table_inv Self lim (tab h) -> Forall well_kinded evs ->
  Forall (keeps (fun h => table_inv Self lim (tab h))) evs ->
  match preverify holder write_ok now a (NewWirePacket raw) (Pubkey_ID key) key evs h with
  | Panics _ => False
  | Blocks _ => True
  | Returns _ (p, err) =>
      typed p /\ GetSource p = raw /\
      (err = None -> asserted key p /\
         forall h' now1 now2 record hash evs' w,
           table_inv Self lim (tab h') -> Forall well_kinded evs' ->
           Forall (keeps (fun h => table_inv Self lim (tab h))) evs' ->
           handle Self holder write_ok now1 now2 record a p (Pubkey_ID key) hash evs' h' <> Panics w)
  end.
Proof.
  intros Ht Hwk Hk. pose proof (preverify_staged lim now a raw key evs h Ht Hwk Hk) as H. unfold wp in H.
  destruct (preverify _ _ _ _ _ _ _ _ h) as [h1 [p err]|h1|w]; [|done|done].
  destruct H as (Hty & Hsrc & Has). split_and!; [done|done|]. intros He. specialize (Has He). split; [done|].
  intros h' now1 now2 record hash evs' w Ht' Hwk' Hk' Heq.
  assert (verified raw p) as Hv.
  { split; [done|]. intros Hp. rewrite <- Hsrc in Hp. destruct (Has Hp) as (k & Hg & _). by exists k. }
  pose proof (handle_wp Self holder write_ok (fun h => table_inv Self lim (tab h))
    now1 now2 record a raw p (Pubkey_ID key) hash evs' h') as Hw.
  unfold wp in Hw. rewrite Heq in Hw.
  apply Hw; [done|done|intros _ h2 l H2; exact H2| |done|done]. intros s _ _. split; [exact Ht'|]. by intros h2 s2 _ H2.
Qed.

(** The second stage relies on the first: it panics on a ping whose sender's
    key was not stored. *)
Lemma unstaged_ping_panics now now' record a v from to exp seq fromID hash evs h raw hs :
  Encode (Pong (NewEndpoint a.1 a.2 (ep_tcp from)) hash exp (enode_Seq Self)) = Some (raw, hs) ->
  write_ok (out h) = true ->
  handle Self holder write_ok now now' record a (NewWirePacket (Ping v from to exp seq)) fromID hash evs h =
    Panics InterfaceConversion.
Proof.
  intros He Hw. unfold handle, HandlePingRequest. cbn [GetSource NewWirePacket]. rewrite He.
  unfold write, mbind, proc_bind. by rewrite Hw.
Qed.

End Types.

(** ** Runs of the concrete instance *)

Module Demo.

Lemma stages_typed_witness :
  typed (Set_ (NewWirePacket (Findnode (demo_key 5) 200000)) ExpirationKey (AnyTime 0)) /\
  match preverify demo_holder always (30 * Hour) demo_addr (NewWirePacket (Findnode (demo_key 5) 200000))
          (Pubkey_ID (demo_key 5)) (demo_key 5) [] demo_handler with
  | Panics _ => False
  | Returns _ (p, _) => typed p
  | Blocks _ => True
  end.
Proof.
  split; [apply typed_set; [apply typed_new|reflexivity]|].
  pose proof (stages_typed TableProps.Demo.self demo_holder always default_limits (30 * Hour) demo_addr
    (Findnode (demo_key 5) 200000) (demo_key 5) [] demo_handler V4Safe.Demo.demo_inv
    ltac:(by constructor) ltac:(by constructor)) as H.
  destruct (preverify _ _ _ _ _ _ _ _ _) as [h [p err]|h|w]; [exact (proj1 H)|exact H|exact H].
Defined.

End Demo.
