(* ===== verification/Handler.v ===== *)
(** * crawler/net/discovery/handler.go: the packet handler

    The handler joins the parts: it executes the requests of the protocol's
    handler through the awaiter and the writer, feeds node events from the
    table's hook, and looks up random nodes. *)

From stdpp Require Import base list gmap strings relations.
From Stdlib Require Import ZArith Lia Permutation.
From S2P Require Import Prelude Golang External Instances Nodes NodesFacts.
From S2P Require Import Table TableInv TableBucket TableOps TableSys TableProps Query QueryProps Awaiter.
Open Scope Z_scope.

(** ** Events *)

Definition EventType : Set := HookType.
Definition ADDED : EventType := Added.
Definition SEEN : EventType := Seen.
Definition REMOVED : EventType := Removed.

#[export] Instance EventType_eq_dec : EqDecision EventType.
Proof. unfold EventType. solve_decision. Defined.

Definition EventType_String (ev : EventType) : string :=
  match ev with Added => "added" | Seen => "seen" | Removed => "removed" end.

Section Handler.
Context `{EL : EnodeLaws} `{NL : NetUtilLaws} `{D : NodeDB (E := E)}.
Variable Self : enode.

Record NodeEvent := mkNodeEvent { SeenNode : Node; Type_ : EventType }.

(** What the table's hook sends to the feed. *)
Definition node_events (t : Table) : list NodeEvent :=
  map (fun '(n, ty) => mkNodeEvent n ty) (hooks t).

(** ** Requests

    [execute]: an awaited request is added to the awaiter's queue before it
    is written.  The result says whether the caller now waits for the
    request's mark, or returns, with or without the write's error. *)
Inductive execution : Type := Waits | Done | WriteError.

Definition execute_ {S} (r : awaitableRequest) (await : bool) (write_ok : bool) (a : awaiter (S := S))
    : awaiter (S := S) * execution :=
  let a' := if await then handle_add r a else a in
  if negb write_ok then (a', WriteError) else if await then (a', Waits) else (a', Done).

(** ** Lookups *)

(** [LookupRandom] for a target: the error "seed failure", or the result of
    the lookup, which any execution of its rounds may give. *)
Inductive LookupRandom (t : Table) (target : ID) : option (list enode) -> Prop :=
| random_no_seed :
    Entries (FindnodeByID t target 16 true) = [] -> LookupRandom t target None
| random_lookup k it :
    Entries (FindnodeByID t target 16 true) <> [] ->
    Run (newLookup (Enodes (FindnodeByID t target 16 true)) target 3 16 3) k it ->
    LookupRandom t target (Some (Result it)).

(** ** Facts *)

Lemma findnode_entries t target k pl :
  0 <= k -> Entries (FindnodeByID t target k pl) ⊆ all_entries t /\
  exists pool rest, Permutation pool (Entries (FindnodeByID t target k pl) ++ rest) /\
    pool `sublist_of` all_entries t /\
    length (Entries (FindnodeByID t target k pl)) = Nat.min (Z.to_nat k) (length pool) /\
    (pool = [] -> all_entries t = []).
Proof.
  intros Hk. unfold FindnodeByID. rewrite findnode_fold. fold (live_entries t).
  pose proof (Push_closest target (all_entries t) k Hk) as Hall.
  pose proof (Push_closest target (live_entries t) k Hk) as Hlive.
  assert (live_entries t `sublist_of` all_entries t) as Hsub.
  { apply sublist_filter. }
  assert (forall pool l, k_closest target (Z.to_nat k) pool l -> pool `sublist_of` all_entries t ->
    (pool = [] -> all_entries t = []) ->
    l ⊆ all_entries t /\ exists pool rest, Permutation pool (l ++ rest) /\
      pool `sublist_of` all_entries t /\ length l = Nat.min (Z.to_nat k) (length pool) /\
      (pool = [] -> all_entries t = [])) as Hgen.
  { intros pool l Hc Hs Hne. split.
    - intros x Hx. apply (sublist_subseteq _ _ Hs). by eapply k_closest_subset.
    - pose proof Hc as (_ & rest & Hp & Hl & _). by exists pool, rest. }
  unfold Entries. destruct pl; [|apply (Hgen _ _ Hall); [reflexivity|done]].
  rewrite andb_true_l. case_bool_decide as Hpos; [|apply (Hgen _ _ Hall); [reflexivity|done]].
  apply (Hgen _ _ Hlive); [done|]. intros Hnil. rewrite Hnil in Hpos. simpl in Hpos. lia.
Qed.

Lemma sublist_nodup_ids (l l' : list Node) :
  l `sublist_of` l' -> NoDup (map Node_ID l') -> NoDup (map Node_ID l).
Proof. intros Hs Hnd. apply (sublist_NoDup _ _ Hnd). by apply (fmap_sublist Node_ID). Qed.

(** a random lookup fails only when the table has no entries; otherwise it
    returns at most 16 nodes, closest to the target first and no identity
    twice, among them no fewer than the seeds the table gave. *)
Theorem LookupRandom_result l s target r :
  reachable Self l s -> LookupRandom (tab s) target r ->
  match r with
  | None => all_entries (tab s) = []
  | Some nodes =>
      (length (Enodes (FindnodeByID (tab s) target 16 true)) <= length nodes <= 16)%nat /\
      NoDup (map enode_ID nodes) /\
      forall i j x y, (i <= j)%nat -> nodes !! i = Some x -> nodes !! j = Some y ->
        DistCmp target (enode_ID x) (enode_ID y) <= 0
  end.
Proof.
  intros [Hinv _]%reachable_inv Hr.
  destruct (findnode_entries (tab s) target 16 true ltac:(lia))
    as (_ & pool & rest & Hp & Hsub & Hlen & Hne).
  change (Z.to_nat 16) with 16%nat in Hlen.
  destruct Hr as [Hnil|k it Hsome Hrun].
  { apply Hne. rewrite Hnil in Hlen. cbn [length] in Hlen. apply nil_length_inv. lia. }
  set (seeds := FindnodeByID (tab s) target 16 true) in *.
  destruct (newLookup_pooled (Enodes seeds) target 3 16 3 ltac:(lia)) as [Hb _].
  destruct (Run_between _ _ _ _ _ _ _ (ltac:(lia) : 0 <= 16) Hb Hrun) as ((_ & _ & found & pl & Hpo) & _).
  destruct Hpo as [Ht _ Hc Hperm _ Hnew Hfresh _].
  assert (NoDup (map enode_ID (Enodes seeds))) as Hnds.
  { unfold Enodes, UnwrapNodes. rewrite map_map. change (NoDup (map Node_ID (Entries seeds))).
    pose proof (sublist_nodup_ids _ _ Hsub (all_entries_nodup _ _ _ _ _ _ Hinv)) as Hnd.
    rewrite Hp, map_app in Hnd. by apply NoDup_app in Hnd as [? _]. }
  assert (NoDup (map enode_ID (Enodes seeds ++ found))) as Hall.
  { rewrite map_app. apply NoDup_app. split_and!; [done| |done]. intros x Hx Hx'.
    apply list_elem_of_fmap in Hx' as (n & -> & Hn). by apply (Hfresh n Hn). }
  pose proof Hc as (Hs & rest' & Hp' & Hlen' & _).
  change (Z.to_nat 16) with 16%nat in Hlen'. unfold Result, Enodes, UnwrapNodes in *.
  assert (length pl = length (map node_enode (nbd_entries seeds) ++ found)) as Hlp
    by (by rewrite <- (length_map node_enode pl), Hperm).
  rewrite length_app, length_map in Hlp. change (Unwrap) with node_enode in *.
  rewrite !length_map in *. unfold Entries in *. split_and!.
  - rewrite Hlen', Hlp. rewrite Hlen. lia.
  - rewrite Hlen'. lia.
  - rewrite <- Hperm, Hp', !map_app in Hall. by apply NoDup_app in Hall as [? _].
  - intros i j x y Hij Hx Hy.
    change (map node_enode) with (fmap (M:=list) node_enode) in Hx, Hy.
    apply list_lookup_fmap_Some in Hx as (n & -> & Hn), Hy as (m & -> & Hm).
    change (dist_le target n m). revert i j Hij Hn Hm. clear -Hs EL. unfold sorted_by in Hs.
    induction Hs as [|z zs Hz IH Hf]; intros i j Hij Hn Hm; [done|].
    destruct i as [|i], j as [|j]; simpl in *; simplify_eq; try lia.
    + apply dist_le_refl.
    + rewrite Forall_forall in Hf. apply Hf. by eapply list_elem_of_lookup_2.
    + by apply (IH i j); [lia|..].
Qed.

(** When the write of an awaited request fails, its caller gets the error
    at once but the request stays in the queue, unmarked, until a sweep or a
    stray reply removes it. *)
Lemma write_error_leaves_request {S} r (a : awaiter (S := S)) :
  exists a', execute_ r true false a = (a', WriteError) /\ r ∈ queue a' /\ marks a' = marks a.
Proof. eexists. split; [reflexivity|]. split; [apply elem_of_snoc|done]. Qed.

End Handler.

Lemma LookupRandom_result_witness :
  exists nodes, LookupRandom TableProps.Demo.start (5 : @ID xor_enode) (Some nodes) /\ (length nodes <= 16)%nat.
Proof.
  destruct (Run_exists (newLookup (Enodes (FindnodeByID TableProps.Demo.start (5 : @ID xor_enode) 16 true))
    (5 : @ID xor_enode) 3 16 3) ltac:(vm_compute; split; reflexivity) ltac:(vm_compute; discriminate)) as (k & it & Hrun).
  assert (LookupRandom TableProps.Demo.start (5 : @ID xor_enode) (Some (Result it))) as Hl.
  { apply (random_lookup _ _ k); [|exact Hrun].
    intros H%(f_equal (@length _)). revert H. vm_compute. discriminate. }
  exists (Result it). split; [exact Hl|].
  exact (proj2 (proj1 (LookupRandom_result TableProps.Demo.self _ _ _ _ TableProps.Demo.start_reachable Hl))).
Defined.
