(* ===== verification/PacketHandler.v ===== *)
(** * crawler/net/discovery/handler.go: calls of the packet handler

    The packet handler passes datagrams and requests to the handler of a
    protocol and records the outcome of each.  What it relies on is the
    class [SubHandler] with its laws [SubHandlerLaws]; its theorems are proved
    against them, and the handler of version 4 (V4.v) is an instance. *)

From Stdlib Require Import ZArith Lia String.
From stdpp Require Import base list gmap.
From S2P Require Import Prelude Golang Procs External Instances Nodes NodesFacts.
From S2P Require Import Table TableInv TableBucket TableOps TableSys TableProps.
From S2P Require Import Identity Awaiter V4 V4Facts V4Props V4Safe.
Local Open Scope Z_scope.

(** ** What a protocol's handler promises *)

Record RpcInfo {Err : Type} := WrapIntoRpcInfo { rpc_Error : option Err; rpc_Packet : string }.
Arguments RpcInfo : clear implicits.
Arguments WrapIntoRpcInfo {Err}.

(** The operations of a protocol's handler.  [World] is what a call depends on
    beside its arguments: the clock, and what other goroutines do while it
    waits. *)
Class SubHandler `{E : Enode} (St Err Key World : Type) := {
  sub_HandlePacket : World -> addr -> list Z -> proc St (RpcInfo Err);
  sub_MakePingRequest : World -> addr -> ID -> proc St (Z * RpcInfo Err);
  sub_MakeFindNodeRequest : World -> addr -> ID -> Key -> proc St (list enode * RpcInfo Err);
  sub_MakeEnrRequest : World -> addr -> enode -> proc St (option enode * RpcInfo Err) }.

(** [I] is an invariant of the handler's state where the other goroutines
    behave, and the handler does not panic where it holds. *)
Class SubHandlerLaws `{E : Enode} {St Err Key World : Type} (H : SubHandler St Err Key World)
    (I : St -> Prop) (fair : World -> Prop) : Prop := {
  law_HandlePacket w a buf : fair w -> preserves I (sub_HandlePacket w a buf);
  law_MakePingRequest w a id : fair w -> preserves I (sub_MakePingRequest w a id);
  law_MakeFindNodeRequest w a id key : fair w -> preserves I (sub_MakeFindNodeRequest w a id key);
  law_MakeEnrRequest w a n : fair w -> preserves I (sub_MakeEnrRequest w a n) }.

(** ** The packet handler *)

Section PacketHandler.
Context `{E : Enode} {St Err Key World : Type} {H : SubHandler St Err Key World}.

(** The calls of the recorder. *)
Inductive recording : Type :=
| RecordRpcDuration (dur : Z) (method : string) (code : Z) (ext : bool)
| RecordRpcRequest (method : string) (code : Z) (ext : bool).

Record PacketHandler := mkPacketHandler { sub : St; recorder : list recording }.

Definition on_sub {A} (m : proc St A) : proc PacketHandler A :=
  zoom sub (fun s h => mkPacketHandler s (recorder h)) m.

Definition record_code (info : RpcInfo Err) : Z :=
  match rpc_Error info with None => 200 | Some _ => 404 end.

(** What [record] appends for a call begun at [ts]: the function it returns
    is called with the result at the instant [now]. *)
Definition recordings (ext : bool) (ts now : Z) (info : RpcInfo Err) : list recording :=
  [RecordRpcDuration (time_Since now ts) (rpc_Packet info) (record_code info) ext;
   RecordRpcRequest (rpc_Packet info) (record_code info) ext].

Definition record (ext : bool) (ts now : Z) (info : RpcInfo Err) : proc PacketHandler () :=
  modify (fun h => mkPacketHandler (sub h) (recorder h ++ recordings ext ts now info)).

(** The instants at which a call is begun and recorded, and what it waits
    through. *)
Record timing := mkTiming { begun : Z; ended : Z; world : World }.

Definition HandlePacket (t : timing) (buf : list Z) (from : addr) : proc PacketHandler (option Err) :=
  result ← on_sub (sub_HandlePacket (world t) from buf);
  record true (begun t) (ended t) result;;
  mret (rpc_Error result).

Definition Ping (t : timing) (n : enode) : proc PacketHandler (Z * option Err) :=
  '(result, info) ← on_sub (sub_MakePingRequest (world t) (enode_IP n, enode_UDP n) (enode_ID n));
  record false (begun t) (ended t) info;;
  mret (result, rpc_Error info).

Definition runNodesQuery (t : timing) (address : addr) (id : ID) (target : Key)
    : proc PacketHandler (list enode * option Err) :=
  '(nodes, info) ← on_sub (sub_MakeFindNodeRequest (world t) address id target);
  record false (begun t) (ended t) info;;
  mret (nodes, rpc_Error info).

(** The random target is drawn by the caller of the model. *)
Definition AskForRandomNodes (t : timing) (n : enode) (target : Key)
    : proc PacketHandler (list enode * option Err) :=
  runNodesQuery t (enode_IP n, enode_UDP n) (enode_ID n) target.

Definition RequestENR (t : timing) (n : enode) : proc PacketHandler (option enode * option Err) :=
  '(node, info) ← on_sub (sub_MakeEnrRequest (world t) (enode_IP n, enode_UDP n) n);
  record false (begun t) (ended t) info;;
  mret (node, rpc_Error info).

(** ** Sequences of calls *)

Inductive call : Type :=
| CallPacket (buf : list Z) (from : addr)
| CallPing (n : enode)
| CallRandom (n : enode) (target : Key)
| CallENR (n : enode).

(** A call and the error it returned. *)
Definition run_call (t : timing) (c : call) : proc PacketHandler (option Err) :=
  match c with
  | CallPacket buf from => HandlePacket t buf from
  | CallPing n => r ← Ping t n; mret r.2
  | CallRandom n target => r ← AskForRandomNodes t n target; mret r.2
  | CallENR n => r ← RequestENR t n; mret r.2
  end.

Fixpoint run_calls (cs : list (timing * call)) : proc PacketHandler (list (option Err)) :=
  match cs with
  | [] => mret []
  | (t, c) :: cs' => r ← run_call t c; rs ← run_calls cs'; mret (r :: rs)
  end.

Definition external (c : call) : bool := match c with CallPacket _ _ => true | _ => false end.

(** The recordings of one call that returned [r] are for its method. *)
Definition records_call (t : timing) (c : call) (r : option Err) (l : list recording) : Prop :=
  exists method, l = recordings (external c) (begun t) (ended t) (WrapIntoRpcInfo r method).

(** ** Facts *)

Lemma wp_on_sub {A} (m : proc St A) (Q : PacketHandler -> option A -> Prop) h :
  wp m (fun s r => Q (mkPacketHandler s (recorder h)) r) (sub h) -> wp (on_sub m) Q h.
Proof. unfold wp, on_sub, zoom. by destruct (m (sub h)). Qed.

(** A call of the sub handler whose result is recorded. *)
Lemma wp_recorded {X A} (I : St -> Prop) (m : proc St X) (k : X -> proc PacketHandler A) ext t
    (info : X -> RpcInfo Err) (result : X -> A) (Q : PacketHandler -> option A -> Prop) h :
  preserves I m -> (forall x, k x = (record ext (begun t) (ended t) (info x);; mret (result x))) ->
  I (sub h) -> (forall s, I s -> Q (mkPacketHandler s (recorder h)) None) ->
  (forall s x, I s ->
     Q (mkPacketHandler s (recorder h ++ recordings ext (begun t) (ended t) (info x))) (Some (result x))) ->
  wp (on_sub m ≫= k) Q h.
Proof.
  intros Hm Hk Hh Hblock Hret. apply wp_bind, wp_on_sub. eapply preserves_wp; [exact Hm|exact Hh|].
  intros s [x|] Hs; [|by apply Hblock]. rewrite Hk. by apply wp_bind, wp_modify, wp_ret, Hret.
Qed.

Section Laws.
Context {I : St -> Prop} {fair : World -> Prop} {HL : SubHandlerLaws H I fair}.

(** One call: the sub handler's invariant holds again, and if it returned it
    was recorded. *)
Lemma wp_run_call t c (Q : PacketHandler -> option (option Err) -> Prop) h :
  fair (world t) -> I (sub h) ->
  (forall s, I s -> Q (mkPacketHandler s (recorder h)) None) ->
  (forall s r l, I s -> records_call t c r l -> Q (mkPacketHandler s (recorder h ++ l)) (Some r)) ->
  wp (run_call t c) Q h.
Proof.
  intros Hf Hh Hblock Hret.
  assert (forall s ext (info : RpcInfo Err), I s -> ext = external c ->
    Q (mkPacketHandler s (recorder h ++ recordings ext (begun t) (ended t) info)) (Some (rpc_Error info))) as Hr.
  { intros s ext [e m] Hs ->. apply Hret; [done|]. by exists m. }
  destruct c; simpl; [|apply wp_bind..].
  - eapply (wp_recorded I _ _ true t id); [by apply law_HandlePacket|done|done|done|].
    intros s info Hs. by apply Hr.
  - eapply (wp_recorded I _ _ false t snd (fun x => (x.1, rpc_Error x.2))); [by apply law_MakePingRequest|by intros []|done|done|].
    intros s [x info] Hs. by apply Hr.
  - eapply (wp_recorded I _ _ false t snd (fun x => (x.1, rpc_Error x.2))); [by apply law_MakeFindNodeRequest|by intros []|done|done|].
    intros s [x info] Hs. by apply Hr.
  - eapply (wp_recorded I _ _ false t snd (fun x => (x.1, rpc_Error x.2))); [by apply law_MakeEnrRequest|by intros []|done|done|].
    intros s [x info] Hs. by apply Hr.
Qed.

(** The recordings of the first calls of a sequence, which returned [rs]. *)
Inductive recorded : list (timing * call) -> list (option Err) -> list recording -> Prop :=
| recorded_nil cs : recorded cs [] []
| recorded_cons t c cs r rs l ls :
    records_call t c r l -> recorded cs rs ls -> recorded ((t, c) :: cs) (r :: rs) (l ++ ls).

(** What a sequence leaves behind, returned or blocked. *)
Definition session (h : PacketHandler) (cs : list (timing * call)) (h' : PacketHandler)
    (r : option (list (option Err))) : Prop :=
  I (sub h') /\
  exists rs l, recorder h' = recorder h ++ l /\ recorded cs rs l /\
    match r with Some rs' => rs = rs' /\ length rs = length cs | None => (length rs < length cs)%nat end.

Lemma run_calls_wp cs h :
  I (sub h) -> Forall (fun '(t, _) => fair (world t)) cs -> wp (run_calls cs) (session h cs) h.
Proof.
  intros Hh Hf. revert h Hh. induction Hf as [|[t c] cs Hw Hf IH]; intros h Hh.
  { apply wp_ret. split; [done|]. exists [], []. rewrite app_nil_r. split_and!; [done|constructor|done|done]. }
  cbn [run_calls]. apply wp_bind, wp_run_call; [done|done| |].
  { intros s Hs. split; [done|]. exists [], []. rewrite app_nil_r. split_and!; [done|constructor|simpl; lia]. }
  intros s r l Hs Hl. apply wp_bind. eapply wp_mono; [by apply IH|].
  intros h' [rs|] (Hi & rs' & l' & Hr & Hrec & Hn); simpl in Hr.
  - destruct Hn as [-> Hn]. apply wp_ret. split; [done|]. exists (r :: rs), (l ++ l').
    rewrite Hr, app_assoc. split_and!; [done|by constructor|done|by rewrite !length_cons, Hn].
  - split; [done|]. exists (r :: rs'), (l ++ l'). rewrite Hr, app_assoc.
    split_and!; [done|by constructor|rewrite !length_cons; lia].
Qed.


End Laws.

End PacketHandler.

(** ** acceptor.go: what takes the packets of a listener *)

Class Acceptor (S Err : Type) := { Accept : list Z -> addr -> proc S (option Err) }.

(** The acceptor that passes packets on to the handler; a call has its own
    timing. *)
Definition handleracceptor `{E : Enode} {St Err Key World} {H : SubHandler St Err Key World}
    (t : timing) : Acceptor PacketHandler Err := {| Accept data from := HandlePacket t data from |}.

Definition dummyAcceptor {S Err} : Acceptor S Err := {| Accept _ _ := mret None |}.

Definition functionalAcceptor {S Err} (f : list Z -> addr -> proc S (option Err)) : Acceptor S Err :=
  {| Accept := f |}.

(** A listener's packets, each given to the acceptor it meets; the read loop
    drops the errors. *)
Fixpoint accept_all {S Err} (ps : list (Acceptor S Err * list Z * addr)) : proc S () :=
  match ps with
  | [] => mret tt
  | (A, data, from) :: ps' => @Accept _ _ A data from;; accept_all ps'
  end.

(** Through the handler's acceptor the packets are the calls of a sequence. *)
Lemma accept_all_calls `{E : Enode} {St Err Key World} {H : SubHandler St Err Key World}
    (ps : list (timing * list Z * addr)) (h : PacketHandler) :
  accept_all (map (fun '(t, data, from) => (handleracceptor t, data, from)) ps) h =
    (run_calls (map (fun '(t, data, from) => (t, CallPacket data from)) ps);; mret tt) h.
Proof.
  revert h. induction ps as [|[[t data] from] ps IH]; intros h; [done|].
  simpl. unfold mbind, proc_bind. destruct (HandlePacket t data from h) as [h' r|h'|w]; [|done..].
  rewrite IH. unfold mbind, proc_bind. by destruct (run_calls _ h').
Qed.

(** ** Version 4 of the protocol *)

Section V4Sub.
Context `{EL : EnodeLaws} `{NL : NetUtilLaws} `{DL : NodeDBLaws (E := E)} `{WL : V4WireLaws (E := E)}.
Variable Self : enode.
Variable holder : identity (E := E).
Variable write_ok : list sent -> bool.
(** [v4wire.Packet.Name] *)
Variable Name : External.packet Pubkey ENRecord -> string.

(** The clock at the points where a call reads it, the local record, the
    events of the one or two requests it waits for, and what happens during
    the pause for a bond. *)
Record v4world := mkWorld {
  w_now : Z; w_now' : Z; w_now1 : Z; w_now2 : Z; w_now3 : Z;
  w_record : ENRecord;
  w_evs : list event; w_evs' : list event; w_sleep : handler -> handler }.

Definition fair_world (I : handler -> Prop) (w : v4world) : Prop :=
  (Forall well_kinded (w_evs w) /\ Forall (keeps I) (w_evs w)) /\
  (Forall well_kinded (w_evs' w) /\ Forall (keeps I) (w_evs' w)) /\
  forall h, I h -> I (w_sleep w h).

Definition no_endpoint : Endpoint := mkEndpoint [] 0 0.
Definition Ping_Name : string := Name (External.Ping 0 no_endpoint no_endpoint 0 0).
Definition Findnode_Name : string := Name (Findnode no_Pubkey 0).
Definition ENRRequest_Name : string := Name (ENRRequest 0).

Definition v4_HandlePacket (w : v4world) (a : addr) (buf : list Z) : proc handler (RpcInfo v4err) :=
  err ← V4.HandlePacket Self holder write_ok (w_now w) (w_now' w) (w_record w) a buf (w_evs w);
  mret (WrapIntoRpcInfo err
    match Decode buf with None => "unknown"%string | Some (rawpacket, _, _) => Name rawpacket end).

Definition v4_MakePingRequest (w : v4world) (a : addr) (id : ID) : proc handler (Z * RpcInfo v4err) :=
  r ← makePingRequest holder write_ok (w_now w) id a Ok (w_evs w);
  mret match r with
       | inl err => (0, WrapIntoRpcInfo (Some err) Ping_Name)
       | inr result => (result, WrapIntoRpcInfo None Ping_Name)
       end.

Definition v4_MakeFindNodeRequest (w : v4world) (a : addr) (id : ID) (encKey : Pubkey)
    : proc handler (list enode * RpcInfo v4err) :=
  '(nodes, err) ← MakeFindNodeRequest holder write_ok (w_now w) (w_now1 w) (w_now2 w) (w_now3 w)
                    id a encKey (w_evs w) (w_sleep w) (w_evs' w);
  mret (nodes, WrapIntoRpcInfo err Findnode_Name).

Definition v4_MakeEnrRequest (w : v4world) (a : addr) (n : enode)
    : proc handler (option enode * RpcInfo v4err) :=
  r ← MakeEnrRequest holder write_ok (w_now w) (w_now1 w) (w_now2 w) (w_now3 w)
        n a (w_evs w) (w_sleep w) (w_evs' w);
  mret match r with
       | inl err => (None, WrapIntoRpcInfo (Some err) ENRRequest_Name)
       | inr result => (Some result, WrapIntoRpcInfo None ENRRequest_Name)
       end.

#[export] Instance v4_SubHandler : SubHandler handler v4err Pubkey v4world := {|
  sub_HandlePacket := v4_HandlePacket;
  sub_MakePingRequest := v4_MakePingRequest;
  sub_MakeFindNodeRequest := v4_MakeFindNodeRequest;
  sub_MakeEnrRequest := v4_MakeEnrRequest |}.

(** The table's invariant is what it keeps. *)
Definition tab_inv (lim : limits) (h : handler) : Prop := table_inv Self lim (tab h).

#[export] Instance v4_SubHandlerLaws lim : SubHandlerLaws v4_SubHandler (tab_inv lim) (fair_world (tab_inv lim)).
Proof.
  assert (may_write (tab_inv lim)) as Hmay by (intros h l Hh; exact Hh).
  pose proof (table_handler_inv Self lim : HandlerInv Self (tab_inv lim)) as Hinv.
  constructor; intros w a; intros; destruct H as ([Hwk Hk] & [Hwk' Hk'] & Hs);
    (apply preserves_bind; [|intros []; apply preserves_ret]).
  - apply HandlePacket_preserves; [exact Hinv|done..].
  - apply makePing_preserves; [exact Hmay|by eexists|done|done].
  - by apply MakeFindNode_preserves.
  - by apply MakeEnr_preserves.
Qed.

(** [NewHandler] around the handler of version 4, with a table that reports to
    the feed.  [None] is the error of a bad bootstrap node. *)
Definition NewHandler (cfg : Config) (lim : limits) (now : Z) (qrnd : nat) (d : DB) (bootnodes : list enode)
    (IgnoreLimits : bool) : outcome (limits * option (PacketHandler (St := handler))) :=
  '(lim', tab) ← NewTable Self lim now qrnd d bootnodes IgnoreLimits true;
  Ok (lim', option_map (fun t => mkPacketHandler (mkHandler (validate cfg) t ∅ [] []) []) tab).

(** C3: the discovery protocol from its start.  [NewHandler] does not panic,
    and fails only for an invalid bootstrap node.  Then no sequence of
    datagrams, from whomever and with whatever bytes, and of requests, in
    whatever order and with whatever answers, makes the handler panic; and
    after it the table has its 17 buckets of bounded size, without an identity
    twice, and the addresses are within the limits. *)
Theorem v4_never_panics cfg lim now qrnd d boot ign cs :
  exists r, NewHandler cfg lim now qrnd d boot ign = Ok (if ign then no_limits else lim, r) /\
  (r = None <-> forallb ValidateComplete boot = false) /\
  forall h, r = Some h ->
    Forall (fun '(t, _) => fair_world (tab_inv (if ign then no_limits else lim)) (world t)) cs ->
    match run_calls (H := v4_SubHandler) cs h with
    | Panics _ => False
    | Returns h' _ | Blocks h' => tab_inv (if ign then no_limits else lim) (sub h')
    end.
Proof.
  destruct (NewTable_inv Self lim now qrnd d boot ign true) as (t & Heq & Ht).
  unfold NewHandler. rewrite Heq. simpl. eexists. split; [reflexivity|]. split.
  { destruct t as [t|]; simpl; [destruct Ht as [Ht _]; rewrite Ht; done|done]. }
  intros h Hh Hf. destruct t as [t|]; [|done]. destruct Ht as [_ Ht]. injection Hh as <-.
  set (h := mkPacketHandler _ []) in *. pose proof (run_calls_wp cs h Ht Hf) as Hw.
  unfold wp in Hw. by destruct (run_calls cs h) as [h' rs|h'|w]; [apply Hw|apply Hw|].
Qed.

End V4Sub.

(** ** Runs of the concrete instance *)

Module Demo.

Definition demo_name (p : External.packet (@Pubkey xor_enode small_wire) (@ENRecord xor_enode small_wire))
    : string := "packet".
Definition quiet : v4world :=
  mkWorld (30 * Hour) 0 (31 * Hour) (31 * Hour) (31 * Hour) demo_record [HvSweep (31 * Hour)] [] (fun h => h).
Definition when : timing (World := v4world) := mkTiming (30 * Hour) (31 * Hour) quiet.

(** Node 5 sends a pong, then asks for nodes, and then is asked for some. *)
Definition calls : list (timing (World := v4world) * call (Key := @Pubkey xor_enode small_wire)) :=
  [(when, CallPacket [2; 5; 200000] demo_addr);
   (when, CallPacket [3; 5; 6; 200000] demo_addr);
   (when, CallRandom (node_enode TableProps.Demo.picked) (demo_key 6))].

#[export] Instance demo_sub : SubHandler handler v4err (@Pubkey xor_enode small_wire) v4world :=
  v4_SubHandler TableProps.Demo.self demo_holder always demo_name.

Lemma calls_fair : Forall (fun '(t, _) => fair_world
  (tab_inv TableProps.Demo.self default_limits) (world t)) calls.
Proof.
  assert (fair_world (tab_inv TableProps.Demo.self default_limits) quiet) as Hq.
  { split; [|split]; [split; repeat constructor|split; constructor|intros h Hh; exact Hh]. }
  repeat (apply List.Forall_cons || apply List.Forall_nil); exact Hq.
Qed.


(** The same calls from the start, with a bootstrap node. *)
Lemma v4_never_panics_witness :
  exists r, NewHandler TableProps.Demo.self DefaultConfig default_limits 0 0 empty_db [TableProps.Demo.peer 1] false =
      Ok (default_limits, r) /\
    match r with
    | None => False
    | Some h => match run_calls (H := demo_sub) calls h with Panics _ => False | _ => True end
    end.
Proof.
  destruct (v4_never_panics TableProps.Demo.self demo_holder always demo_name DefaultConfig default_limits 0 0 empty_db
    [TableProps.Demo.peer 1] false calls) as (r & Hr & Hnone & H).
  exists r. split; [exact Hr|]. destruct r as [h|].
  - specialize (H h eq_refl). cbv zeta in H.
    specialize (H calls_fair). unfold demo_sub. destruct (run_calls calls h) as [h' rs|h'|w]; [exact I|exact I|exact H].
  - destruct (proj1 Hnone eq_refl). discriminate.
Defined.

End Demo.
