(* ===== verification/Feed.v ===== *)
(** * crawler/events: the event feed

    Listeners subscribe with a channel; [Send] starts a goroutine that offers
    the event to every listener under the read lock, and [Unsubscribe] and
    [Stop] close channels under the write lock.  [ch i] is the channel
    that the listener with the fresh identifier [i] subscribed with; [willing]
    are the channels somebody receives from.  The system has one step per action of a goroutine that
    others can observe: taking a lock, the handing over of an event to a
    listener that receives, closing a channel. *)

From stdpp Require Import base list gmap relations.
From Stdlib Require Import ZArith Lia Permutation.
From S2P Require Import Prelude.

Section Feed.
Context (ch : nat -> nat).

(** A goroutine in [send]: its number, the listeners in the order the map
    gives them, those still to come, and the one it is blocked on. *)
Record sender := mkSender {
  sd_id : nat; sd_all : list nat; sd_todo : list nat; sd_at : option nat }.

(** [spawned] are the goroutines of [Send] before they hold the read lock,
    [sending] those that hold it; [stopping] is a caller of [Stop] that has yet
    to take the write lock, [closing] are the channels the holder of the write
    lock has still to close; [log] are the events handed over, by sender and
    listener; [done_] and [tasks] are the fields of the wrapped channels,
    [done_] also of the removed ones. *)
Record feed := mkFeed {
  listeners : gset nat;
  subs : Z;
  known : gset nat;
  stopped : bool;
  stopping : bool;
  spawned : nat;
  next_send : nat;
  sending : list sender;
  closing : option (list nat);
  done_ : gset nat;
  closed : gset nat;
  log : list (nat * nat) }.

(** The number of goroutines inside [wrappedChan.Send] for a channel. *)
Definition tasks (f : feed) (i : nat) : nat :=
  length (filter (fun s => sd_at s = Some i) (sending f)).

Definition unlocked (f : feed) : Prop := sending f = [] /\ closing f = None.

Definition NewFeed : feed := mkFeed ∅ 0 ∅ false false 0 0 [] None ∅ ∅ [].

(** ** The methods: what they do once they hold the lock *)

Definition Subscribe (f : feed) (i : nat) : feed :=
  if stopped f then f else
  mkFeed ({[i]} ∪ listeners f) (subs f + 1) ({[i]} ∪ known f) (stopped f) (stopping f) (spawned f)
    (next_send f) (sending f) (closing f) (done_ f) (closed f) (log f).

Definition Unsubscribe (f : feed) (i : nat) : feed :=
  if decide (i ∈ listeners f) then
    mkFeed (listeners f ∖ {[i]}) (subs f - 1) (known f) (stopped f) (stopping f) (spawned f)
      (next_send f) (sending f) (Some [i]) (done_ f) (closed f) (log f)
  else f.

Definition Send (f : feed) : feed :=
  if (subs f =? 0)%Z then f else
  mkFeed (listeners f) (subs f) (known f) (stopped f) (stopping f) (S (spawned f))
    (next_send f) (sending f) (closing f) (done_ f) (closed f) (log f).

Definition Stop (f : feed) : feed :=
  if stopped f then f else
  mkFeed (listeners f) (subs f) (known f) true true (spawned f)
    (next_send f) (sending f) (closing f) (done_ f) (closed f) (log f).

(** [stop]: the listeners, in the order [keys] of the map, are to be closed;
    they leave the map afterwards, before anybody else takes the lock. *)
Definition stop (f : feed) (keys : list nat) : feed :=
  mkFeed ∅ (subs f) (known f) (stopped f) false (spawned f)
    (next_send f) (sending f) (Some keys) (done_ f) (closed f) (log f).

(** [send] with the read lock: the map is iterated in the order [all]. *)
Definition send (f : feed) (all : list nat) : feed :=
  mkFeed (listeners f) (subs f) (known f) (stopped f) (stopping f) (pred (spawned f))
    (S (next_send f)) (sending f ++ [mkSender (next_send f) all all None]) (closing f)
    (done_ f) (closed f) (log f).

Definition set_sending (f : feed) ss lg :=
  mkFeed (listeners f) (subs f) (known f) (stopped f) (stopping f) (spawned f) (next_send f) ss
    (closing f) (done_ f) (closed f) lg.

(** [wrappedChan.Send] of the next listener: nothing when it is done,
    otherwise the goroutine is now at the channel. *)
Definition wrapped_send (f : feed) s1 (k : nat) all (i : nat) todo s2 : feed :=
  if decide (i ∈ done_ f) then set_sending f (s1 ++ mkSender k all todo None :: s2) (log f)
  else set_sending f (s1 ++ mkSender k all todo (Some i) :: s2) (log f).

(** [c.ch <- data] *)
Definition hand (f : feed) s1 (k : nat) all (i : nat) todo s2 : outcome feed :=
  if decide (ch i ∈ closed f) then Panic SendOnClosedChannel
  else Ok (set_sending f (s1 ++ mkSender k all todo None :: s2) (log f ++ [(k, i)])).

Definition set_closing (f : feed) c d cl :=
  mkFeed (listeners f) (subs f) (known f) (stopped f) (stopping f) (spawned f) (next_send f)
    (sending f) c d cl (log f).

(** [wrappedChan.Close], after its wait for the senders. *)
Definition wrapped_close (f : feed) (i : nat) todo : outcome feed :=
  if decide (i ∈ done_ f) then Ok (set_closing f (Some todo) (done_ f) (closed f))
  else if decide (ch i ∈ closed f) then Panic CloseOfClosedChannel
  else Ok (set_closing f (Some todo) ({[i]} ∪ done_ f) ({[ch i]} ∪ closed f)).

(** ** The invariant *)

(** The listeners sender [k] has handed its event to, in order. *)
Definition handed (lg : list (nat * nat)) (k : nat) : list nat := (filter (fun e => e.1 = k) lg).*2.

Record sender_ok (f : feed) (s : sender) : Prop := {
  so_all : Permutation (sd_all s) (elements (listeners f));
  so_progress : sd_all s = handed (log f) (sd_id s) ++ option_list (sd_at s) ++ sd_todo s }.

Record feed_inv (f : feed) : Prop := {
  fi_known : forall i, i ∈ known f <->
    i ∈ listeners f \/ i ∈ default [] (closing f) \/ i ∈ done_ f;
  fi_live : forall i, i ∈ listeners f -> i ∉ done_ f;
  fi_closed : closed f = set_map ch (done_ f);
  fi_lock : closing f <> None -> sending f = [];
  fi_closing : forall l, closing f = Some l -> NoDup l /\ forall i, i ∈ l -> i ∉ done_ f /\ i ∉ listeners f;
  fi_senders : forall s, s ∈ sending f -> sender_ok f s;
  fi_ids : NoDup (map sd_id (sending f));
  fi_fresh : forall s, s ∈ sending f -> sd_id s < next_send f;
  fi_log : forall e, e ∈ log f -> e.1 < next_send f }.

Lemma handed_snoc lg k i j : handed (lg ++ [(k, i)]) j = handed lg j ++ (if decide (k = j) then [i] else []).
Proof.
  unfold handed. rewrite filter_app, fmap_app. f_equal. rewrite filter_cons. simpl.
  by case_decide.
Qed.

Lemma handed_fresh f k : (forall e, e ∈ log f -> e.1 < k) -> handed (log f) k = [].
Proof.
  intros H. unfold handed. replace (filter (fun e => e.1 = k) (log f)) with (@nil (nat * nat)); [done|].
  symmetry. induction (log f) as [|e lg IH]; [done|]. rewrite filter_cons, decide_False.
  - apply IH. intros x Hx. apply H. by right.
  - intros He. specialize (H e ltac:(by left)). lia.
Qed.

(** A sender advances: its number and listeners stay. *)
Lemma advance_inv f s1 s s' s2 lg :
  feed_inv f -> sending f = s1 ++ s :: s2 -> sd_id s' = sd_id s ->
  sender_ok (set_sending f (s1 ++ s' :: s2) lg) s' ->
  (forall j, j <> sd_id s -> handed lg j = handed (log f) j) -> (forall e, e ∈ lg -> e.1 < next_send f) ->
  feed_inv (set_sending f (s1 ++ s' :: s2) lg).
Proof.
  intros [H1 H2 H3 H5 H6 H7 H8 H9 H10] Hs Hid Hok Hlg Hb. rewrite Hs in *.
  assert (s ∈ s1 ++ s :: s2) as Hin by set_solver.
  constructor; simpl; try done.
  - intros Hc. by destruct s1; specialize (H5 Hc).
  - intros x Hx. apply elem_of_app in Hx as [Hx|[->|Hx]%elem_of_cons]; [|done|].
    + destruct (H7 x ltac:(set_solver)) as [Ha Hp]. constructor; [done|]. simpl. rewrite Hlg; [done|].
      intros Heq. rewrite map_app in H8. apply NoDup_app in H8 as (_ & Hd & _).
      apply (Hd (sd_id x)); [by apply (list_elem_of_fmap_2 sd_id)|]. rewrite Heq. by left.
    + destruct (H7 x ltac:(set_solver)) as [Ha Hp]. constructor; [done|]. simpl. rewrite Hlg; [done|].
      intros Heq. rewrite map_app in H8. apply NoDup_app in H8 as (_ & _ & H8).
      simpl in H8. apply NoDup_cons in H8 as [H8 _]. apply H8. rewrite <- Heq.
      by apply (list_elem_of_fmap_2 sd_id).
  - rewrite map_app in *. simpl in *. by rewrite Hid.
  - intros x Hx. apply elem_of_app in Hx as [Hx|[->|Hx]%elem_of_cons]; [|rewrite Hid|]; apply H9; set_solver.
Qed.

Lemma finish_inv f s1 s s2 :
  feed_inv f -> sending f = s1 ++ s :: s2 -> feed_inv (set_sending f (s1 ++ s2) (log f)).
Proof.
  intros [H1 H2 H3 H5 H6 H7 H8 H9 H10] Hs. rewrite Hs in *.
  constructor; simpl; try done.
  - intros Hc. by destruct s1; specialize (H5 Hc).
  - intros x Hx. destruct (H7 x ltac:(set_solver)). by constructor.
  - rewrite map_app in *. simpl in H8. apply NoDup_app in H8 as (Ha & Hd & Hb).
    apply NoDup_cons in Hb as [_ Hb]. apply NoDup_app. split_and!; [done| |done].
    intros y Hy Hy'. apply (Hd y Hy). by right.
  - intros x Hx. apply H9. set_solver.
Qed.


(** Changing the map of listeners needs the lock: nobody is sending. *)
Lemma unlocked_no_sender f s : unlocked f -> s ∉ sending f.
Proof. intros [-> _]. apply not_elem_of_nil. Qed.

Lemma Subscribe_inv f i : feed_inv f -> unlocked f -> i ∉ known f -> feed_inv (Subscribe f i).
Proof.
  intros Hi Hu Hk. unfold Subscribe. destruct (stopped f); [done|].
  destruct Hi as [H1 H2 H3 H5 H6 H7 H8 H9 H10]. destruct Hu as [Hs Hc]. rewrite Hc in *.
  constructor; simpl; rewrite ?Hs, ?Hc; try done; try apply NoDup_nil_2.
  - intros j. rewrite !elem_of_union, elem_of_singleton, H1. tauto.
  - intros j Hj. apply elem_of_union in Hj as [Hj%elem_of_singleton|Hj]; [subst j|by apply H2].
    intros Hd. apply Hk, H1. tauto.
  - by intros s Hin%elem_of_nil.
  - by intros s Hin%elem_of_nil.
Qed.

Lemma Unsubscribe_inv f i : feed_inv f -> unlocked f -> feed_inv (Unsubscribe f i).
Proof.
  intros Hi Hu. unfold Unsubscribe. case_decide as Hl; [|done].
  destruct Hi as [H1 H2 H3 H5 H6 H7 H8 H9 H10]. destruct Hu as [Hs Hc]. rewrite Hc in *.
  constructor; simpl; rewrite ?Hs; try done; try apply NoDup_nil_2.
  - intros j. rewrite H1, elem_of_difference, elem_of_singleton, list_elem_of_singleton. simpl.
    rewrite elem_of_nil. destruct (decide (j = i)) as [->|]; tauto.
  - intros j [Hj _]%elem_of_difference. by apply H2.
  - intros l [= <-]. split; [apply NoDup_singleton|].
    intros j ->%list_elem_of_singleton. split; [by apply H2|]. rewrite elem_of_difference, elem_of_singleton. tauto.
  - by intros s Hin%elem_of_nil.
  - by intros s Hin%elem_of_nil.
Qed.

Lemma stop_inv f keys :
  feed_inv f -> unlocked f -> Permutation keys (elements (listeners f)) -> feed_inv (stop f keys).
Proof.
  intros [H1 H2 H3 H5 H6 H7 H8 H9 H10] [Hs Hc] Hp. rewrite Hc in *.
  assert (forall j, j ∈ keys <-> j ∈ listeners f) as Hk by (intros; by rewrite Hp, elem_of_elements).
  constructor; simpl; rewrite ?Hs; try done; try apply NoDup_nil_2.
  - intros j. rewrite H1, Hk. simpl. rewrite elem_of_nil, elem_of_empty. tauto.
  - intros l [= <-]. split; [rewrite Hp; apply NoDup_elements|].
    intros j Hj%Hk. split; [by apply H2|apply not_elem_of_empty].
  - by intros s Hin%elem_of_nil.
  - by intros s Hin%elem_of_nil.
Qed.

Lemma send_inv f all :
  feed_inv f -> closing f = None -> Permutation all (elements (listeners f)) -> feed_inv (send f all).
Proof.
  intros Hi Hc Hp. pose proof (handed_fresh f (next_send f) (fi_log _ Hi)) as Hf.
  destruct Hi as [H1 H2 H3 H5 H6 H7 H8 H9 H10]. constructor; simpl; try done.
  - intros s Hin. apply elem_of_app in Hin as [Hs|Hs%list_elem_of_singleton]; [destruct (H7 s Hs); by constructor|].
    subst s. constructor; simpl; [done|by rewrite Hf].
  - rewrite map_app. apply NoDup_app. split_and!; [done| |apply NoDup_singleton].
    intros k Hk Hk'. apply list_elem_of_fmap in Hk as (s & -> & Hs). apply list_elem_of_singleton in Hk'.
    specialize (H9 s Hs). simpl in Hk'. lia.
  - intros s Hin. apply elem_of_app in Hin as [Hs|Hs%list_elem_of_singleton]; [specialize (H9 s Hs); lia|].
    subst s. simpl. lia.
  - intros e He. specialize (H10 e He). lia.
Qed.

(** A sender that has the read lock is never at a channel that is done. *)
Lemma sender_live f s i : feed_inv f -> s ∈ sending f -> i ∈ sd_all s -> i ∈ listeners f /\ i ∉ done_ f.
Proof.
  intros Hi Hs Ha. destruct (fi_senders _ Hi s Hs) as [Hp _]. rewrite Hp, elem_of_elements in Ha.
  split; [done|by apply (fi_live _ Hi)].
Qed.

Lemma sender_next f s1 k all i todo s2 :
  feed_inv f -> sending f = s1 ++ mkSender k all (i :: todo) None :: s2 -> i ∉ done_ f.
Proof.
  intros Hi Hs. assert (mkSender k all (i :: todo) None ∈ sending f) as Hin by (rewrite Hs; set_solver).
  apply (sender_live f _ i Hi Hin). rewrite (so_progress _ _ (fi_senders _ Hi _ Hin)). set_solver.
Qed.

Lemma wrapped_send_inv f s1 k all i todo s2 :
  feed_inv f -> sending f = s1 ++ mkSender k all (i :: todo) None :: s2 ->
  feed_inv (wrapped_send f s1 k all i todo s2).
Proof.
  intros Hi Hs. unfold wrapped_send. rewrite decide_False by by eapply sender_next.
  eapply advance_inv; [done..| |done|apply (fi_log _ Hi)].
  destruct (fi_senders _ Hi (mkSender k all (i :: todo) None)) as [Ha Hp]; [rewrite Hs; set_solver|].
  by constructor.
Qed.

Lemma hand_ok f s1 k all i todo s2 :
  feed_inv f -> Inj (=) (=) ch -> sending f = s1 ++ mkSender k all todo (Some i) :: s2 -> ch i ∉ closed f.
Proof.
  intros Hi Hinj Hs. rewrite (fi_closed _ Hi). intros (j & Hj & Hd)%elem_of_map.
  apply Hinj in Hj as <-.
  assert (mkSender k all todo (Some i) ∈ sending f) as Hin by (rewrite Hs; set_solver).
  apply (sender_live f _ i Hi Hin); [|done]. rewrite (so_progress _ _ (fi_senders _ Hi _ Hin)). set_solver.
Qed.

Lemma hand_inv f s1 k all i todo s2 :
  feed_inv f -> sending f = s1 ++ mkSender k all todo (Some i) :: s2 ->
  feed_inv (set_sending f (s1 ++ mkSender k all todo None :: s2) (log f ++ [(k, i)])).
Proof.
  intros Hi Hs. assert (mkSender k all todo (Some i) ∈ sending f) as Hin by (rewrite Hs; set_solver).
  destruct (fi_senders _ Hi _ Hin) as [Ha Hp]. simpl in *.
  eapply advance_inv; [done..| | |]; simpl.
  - constructor; simpl; [done|]. rewrite handed_snoc, decide_True by done. rewrite Hp. simpl.
    by rewrite <- app_assoc.
  - intros j Hj. rewrite handed_snoc, decide_False by done. apply app_nil_r.
  - intros e He. apply elem_of_app in He as [He|He%list_elem_of_singleton]; [by apply (fi_log _ Hi)|].
    subst e. apply (fi_fresh _ Hi _ Hin).
Qed.

Lemma close_inv f i todo :
  feed_inv f -> closing f = Some (i :: todo) ->
  feed_inv (set_closing f (Some todo) ({[i]} ∪ done_ f) ({[ch i]} ∪ closed f)).
Proof.
  intros [H1 H2 H3 H5 H6 H7 H8 H9 H10] Hc. destruct (H6 _ Hc) as [Hnd Hl].
  apply NoDup_cons in Hnd as [Hni Hnd]. rewrite Hc in *. specialize (H5 ltac:(done)).
  assert (i ∉ listeners f) as Hil by (apply Hl; by left).
  constructor; simpl; rewrite ?H5; try done; try apply NoDup_nil_2.
  - intros j. rewrite H1. simpl. rewrite elem_of_cons, elem_of_union, elem_of_singleton. tauto.
  - intros j Hj Hd. apply elem_of_union in Hd as [Hd%elem_of_singleton|Hd]; [congruence|]. by apply (H2 j).
  - rewrite set_map_union_L, set_map_singleton_L. by rewrite H3.
  - intros l [= <-]. split; [done|]. intros j Hj. destruct (Hl j ltac:(by right)) as [Hd ?]. split; [|done].
    rewrite elem_of_union, elem_of_singleton. intros [->|?]; done.
  - by intros s Hin%elem_of_nil.
  - by intros s Hin%elem_of_nil.
Qed.

Lemma NewFeed_inv : feed_inv NewFeed.
Proof.
  constructor; simpl; try done; try apply NoDup_nil_2; set_solver.
Qed.

(** ** The system *)

Context (willing : nat -> Prop).

Inductive feed_step (f : feed) : outcome feed -> Prop :=
| fd_subscribe i : unlocked f -> i ∉ known f -> feed_step f (Ok (Subscribe f i))
| fd_unsubscribe i : unlocked f -> feed_step f (Ok (Unsubscribe f i))
| fd_Send : feed_step f (Ok (Send f))
| fd_send all :
    spawned f <> 0 -> closing f = None -> Permutation all (elements (listeners f)) ->
    feed_step f (Ok (send f all))
| fd_offer s1 k all i todo s2 :
    sending f = s1 ++ mkSender k all (i :: todo) None :: s2 ->
    feed_step f (Ok (wrapped_send f s1 k all i todo s2))
| fd_receive s1 k all i todo s2 :
    sending f = s1 ++ mkSender k all todo (Some i) :: s2 -> willing (ch i) \/ ch i ∈ closed f ->
    feed_step f (hand f s1 k all i todo s2)
| fd_sent s1 k all s2 :
    sending f = s1 ++ mkSender k all [] None :: s2 ->
    feed_step f (Ok (set_sending f (s1 ++ s2) (log f)))
| fd_Stop : feed_step f (Ok (Stop f))
| fd_stop keys :
    unlocked f -> stopping f = true -> Permutation keys (elements (listeners f)) ->
    feed_step f (Ok (stop f keys))
| fd_close i todo :
    closing f = Some (i :: todo) -> i ∈ done_ f \/ tasks f i = 0 ->
    feed_step f (wrapped_close f i todo)
| fd_unlock :
    closing f = Some [] -> feed_step f (Ok (set_closing f None (done_ f) (closed f))).

Definition feed_ok (f f' : feed) : Prop := feed_step f (Ok f').

Lemma feed_step_inv f f' : feed_inv f -> feed_ok f f' -> feed_inv f'.
Proof.
  intros Hi Hs. inversion Hs; subst; clear Hs.
  - by apply Subscribe_inv.
  - by apply Unsubscribe_inv.
  - unfold Send. case_match; [done|]. destruct Hi as [H1 H2 H3 H5 H6 H7 H8 H9 H10].
    constructor; try done. intros s Hs. destruct (H7 s Hs). by constructor.
  - by apply send_inv.
  - by apply wrapped_send_inv.
  - match goal with H : hand _ _ _ _ _ _ _ = _ |- _ => unfold hand in H; case_decide; [done|injection H as <-] end.
    by apply hand_inv.
  - by eapply finish_inv.
  - unfold Stop. case_match; [done|]. destruct Hi as [H1 H2 H3 H5 H6 H7 H8 H9 H10].
    constructor; try done. intros s Hs. destruct (H7 s Hs). by constructor.
  - by apply stop_inv.
  - rename select (closing f = _) into Hc. destruct (fi_closing _ Hi _ Hc) as [_ Hl].
    match goal with H : wrapped_close _ _ _ = _ |- _ => unfold wrapped_close in H; rename H into Hw end.
    rewrite decide_False in Hw by by (apply Hl; left). case_decide; [done|]. injection Hw as <-.
    by apply close_inv.
  - destruct Hi as [H1 H2 H3 H5 H6 H7 H8 H9 H10]. rename select (closing f = _) into Hc. rewrite Hc in *.
    constructor; simpl; try done. intros s Hs. destruct (H7 s Hs). by constructor.
Qed.

Lemma reach_inv f : rtc feed_ok NewFeed f -> feed_inv f.
Proof.
  intros H. run_invariant feed_step_inv. apply NewFeed_inv.
Qed.

(** ** Properties *)


(** C15: When the goroutine of [Send] is done, it has handed the event to
    every listener that is subscribed exactly once, and to nobody else. *)
Theorem feed_delivers f s1 k all s2 :
  rtc feed_ok NewFeed f -> sending f = s1 ++ mkSender k all [] None :: s2 ->
  Permutation (handed (log f) k) (elements (listeners f)).
Proof.
  intros Hr%reach_inv Hs. destruct (fi_senders _ Hr (mkSender k all [] None)) as [Ha Hp]; [rewrite Hs; set_solver|].
  simpl in *. rewrite app_nil_r in Hp. by rewrite <- Hp.
Qed.

(** The channels of all subscriptions are accounted for: once nobody
    holds the write lock, a channel is closed exactly when its listener has
    been unsubscribed or stopped, and open while it listens. *)
Theorem feed_closes f i :
  Inj (=) (=) ch -> rtc feed_ok NewFeed f -> closing f = None -> i ∈ known f ->
  ch i ∈ closed f <-> i ∉ listeners f.
Proof.
  intros Hinj Hr%reach_inv Hc Hk. rewrite (fi_closed _ Hr), elem_of_map.
  apply (fi_known _ Hr) in Hk. rewrite Hc in Hk. split.
  - intros (j & Hj & Hd) Hl. apply Hinj in Hj as <-. by apply (fi_live _ Hr i).
  - intros Hl. exists i. split; [done|]. set_solver.
Qed.

(** A goroutine that is at the open channel of a listener that does not
    receive keeps the read lock: until the listener receives again nobody
    subscribes, unsubscribes or stops the feed, whoever else is served. *)
Definition blocked (f : feed) (i : nat) : Prop :=
  (exists s, s ∈ sending f /\ sd_at s = Some i) /\ ch i ∉ closed f /\ closing f = None.

Lemma blocked_sender s1 s s2 s' (i : nat) :
  s ∈ s1 ++ s' :: s2 -> sd_at s = Some i -> sd_at s' <> Some i -> forall r, s ∈ s1 ++ r ++ s2.
Proof.
  intros [H|[->|H]%elem_of_cons]%elem_of_app Ha Hn r; [set_solver|done|set_solver].
Qed.

Lemma blocked_step f f' i :
  ~ willing (ch i) -> blocked f i -> feed_ok f f' -> listeners f' = listeners f /\ blocked f' i.
Proof.
  intros Hw ((s & Hin & Ha) & Hcl & Hc) Hs.
  assert (~ unlocked f) as Hu by (intros [Hn _]; rewrite Hn in Hin; by apply elem_of_nil in Hin).
  unfold feed_ok in Hs. inversion Hs; subst; clear Hs; try done; try congruence.
  - unfold Send, blocked. case_match; (split; [done|]); simpl; eauto.
  - split; [done|]. repeat split; try done. exists s. split; [|done]. simpl. set_solver.
  - unfold wrapped_send. rename select (sending f = _) into Hs. rewrite Hs in Hin.
    case_decide; (split; [done|]); (repeat split; try done); exists s; (split; [|done]);
      simpl; by apply (blocked_sender _ _ _ _ i Hin Ha ltac:(done) [_]).
  - match goal with H : hand _ _ _ _ _ _ _ = _ |- _ => unfold hand in H; case_decide; [done|injection H as <-] end.
    rename select (sending f = _) into Hs. rewrite Hs in Hin.
    split; [done|]. repeat split; try done. exists s. split; [|done].
    simpl. apply (blocked_sender _ _ _ _ i Hin Ha ltac:(simpl; intros [= ->]; naive_solver) [_]).
  - rename select (sending f = _) into Hs. rewrite Hs in Hin.
    split; [done|]. repeat split; try done. exists s. split; [|done].
    by apply (blocked_sender _ _ _ _ i Hin Ha ltac:(done) []).
  - unfold Stop, blocked. case_match; (split; [done|]); simpl; eauto.
Qed.

(** A listener that stops receiving before it unsubscribes, with an
    event on its way to it, stops the feed: whatever happens from then on,
    the set of listeners stays as it is and no write lock is granted, so its
    own [Unsubscribe] and a [Stop] of the feed never return. *)
Theorem deaf_listener_blocks_feed f f' i :
  ~ willing (ch i) -> blocked f i -> rtc feed_ok f f' ->
  listeners f' = listeners f /\ closing f' = None /\ ~ unlocked f'.
Proof.
  intros Hw Hb Hr. assert (listeners f' = listeners f /\ blocked f' i) as [Hl ((s & Hin & _) & _ & Hc)].
  { induction Hr as [|g h k Hs Hr IH]; [done|]. destruct (blocked_step _ _ _ Hw Hb Hs) as [E Hb'].
    rewrite <- E. by apply IH. }
  split_and!; [done|done|]. intros [Hn _]. rewrite Hn in Hin. by apply elem_of_nil in Hin.
Qed.

End Feed.

(** ** A run with one listener *)

Module Demo.

Definition own (i : nat) : nat := i.

Lemma own_inj : Inj (=) (=) own.
Proof. by intros x y. Qed.

Definition subscribed : feed := Subscribe NewFeed 0.
Definition spawning : feed := Send subscribed.
Definition iterating : feed := send spawning [0].
Definition offering : feed := set_sending iterating [mkSender 0 [0] [] (Some 0)] [].
Definition delivered : feed := set_sending offering [mkSender 0 [0] [] None] [(0, 0)].
Definition unsubscribing : feed := Unsubscribe subscribed 0.
Definition closing_ : feed := set_closing unsubscribing (Some []) {[0]} {[0]}.
Definition unsubscribed : feed := set_closing closing_ None {[0]} {[0]}.

Lemma elements_one : Permutation [0] (elements (listeners subscribed)).
Proof.
  change (listeners subscribed) with ({[0]} ∪ ∅ : gset nat).
  by rewrite (right_id_L ∅ (∪)), elements_singleton.
Qed.

Lemma subscribed_step w : feed_ok own w NewFeed subscribed.
Proof. apply (fd_subscribe own w NewFeed 0); [done|apply not_elem_of_empty]. Qed.

Lemma offering_reachable w : rtc (feed_ok own w) NewFeed offering.
Proof.
  eapply rtc_l; [apply subscribed_step|]. eapply rtc_l; [apply (fd_Send own w subscribed)|].
  eapply rtc_l; [apply (fd_send own w spawning [0]); [done|done|apply elements_one]|].
  eapply rtc_l; [apply (fd_offer own w iterating [] 0 [0] 0 [] []); reflexivity|].
  unfold wrapped_send. rewrite decide_False by apply not_elem_of_empty. constructor.
Qed.

Lemma delivered_reachable : rtc (feed_ok own (fun _ => True)) NewFeed delivered.
Proof.
  eapply rtc_r; [apply offering_reachable|].
  pose proof (fd_receive own (fun _ => True) offering [] 0 [0] 0 [] [] eq_refl (or_introl I)) as H.
  unfold hand in H. rewrite decide_False in H by apply not_elem_of_empty. exact H.
Qed.

Lemma unsubscribed_reachable : rtc (feed_ok own (fun _ => True)) NewFeed unsubscribed.
Proof.
  eapply rtc_l; [apply subscribed_step|].
  eapply rtc_l; [apply (fd_unsubscribe own _ subscribed 0); done|].
  assert (Unsubscribe subscribed 0 = unsubscribing) as -> by reflexivity.
  assert (closing unsubscribing = Some [0]) as Hc.
  { unfold unsubscribing, Unsubscribe. rewrite decide_True; [done|]. simpl. set_solver. }
  assert (done_ unsubscribing = ∅ /\ closed unsubscribing = ∅) as [Hd Hl].
  { unfold unsubscribing, Unsubscribe. by case_decide. }
  assert (tasks unsubscribing 0 = 0) as Ht.
  { unfold unsubscribing, Unsubscribe. by case_decide. }
  eapply rtc_l.
  { pose proof (fd_close own (fun _ => True) unsubscribing 0 [] Hc (or_intror Ht)) as H.
    unfold wrapped_close in H. rewrite Hd, Hl, !decide_False in H by apply not_elem_of_empty.
    rewrite !(right_id_L ∅ (∪)) in H. exact H. }
  eapply rtc_l; [by apply (fd_unlock own _ closing_)|]. constructor.
Qed.


Lemma feed_delivers_witness :
  sending delivered = [] ++ mkSender 0 [0] [] None :: [] /\
  Permutation (handed (log delivered) 0) (elements (listeners delivered)).
Proof.
  split; [reflexivity|].
  by apply (feed_delivers own (fun _ => True) delivered [] 0 [0] [] delivered_reachable).
Defined.

Lemma feed_closes_witness : own 0 ∈ closed unsubscribed <-> 0 ∉ listeners unsubscribed.
Proof.
  apply (feed_closes own (fun _ => True) unsubscribed 0 own_inj unsubscribed_reachable); [reflexivity|].
  unfold unsubscribed, closing_, unsubscribing, Unsubscribe. case_decide; simpl; set_solver.
Defined.

Lemma deaf_listener_blocks_feed_witness :
  rtc (feed_ok own (fun _ => False)) NewFeed offering /\ listeners offering = listeners offering /\
  closing offering = None /\ ~ unlocked offering.
Proof.
  split; [apply offering_reachable|].
  apply (deaf_listener_blocks_feed own (fun _ => False) offering offering 0); [tauto| |constructor].
  split; [exists (mkSender 0 [0] [] (Some 0)); split; [apply list_elem_of_singleton|]; reflexivity|].
  split; [apply not_elem_of_empty|reflexivity].
Defined.

End Demo.
