(* ===== verification/Peer.v ===== *)
(** * crawler/crawler: peers, their counters, and the work done on them

    peer.go, buffer.go, seekerProc.go and crawlerProc.go.  A peer is the
    record of its fields; [MarkPeerNode] is also given as its three atomic
    steps, because the goroutines of several workers run it at once with the
    loop's [NewEntries]. *)

From stdpp Require Import base list gmap strings relations.
From Stdlib Require Import ZArith Lia Permutation.
From S2P Require Import Prelude Golang External Nodes.
Open Scope Z_scope.

(** ** QueryCounter *)

Record QueryCounter := mkCounter {
  duration : Z; LastAttempt : Z; SuccessCounter : Z; FailureCounter : Z }.

(** [QueryCounter{duration: d}] *)
Definition new_counter (d : Z) : QueryCounter := mkCounter d 0 0 0.

(** One iteration of [CanRefresh]'s loop that loaded [lastUnix]: [None] when
    the comparison fails and the loop goes on.  The instant is stored in
    seconds and read as milliseconds. *)
Definition try_refresh (now : Z) (lastUnix : Z) (q : QueryCounter) : option (QueryCounter * bool) :=
  if decide (time_Since now (time_UnixMilli lastUnix) < duration q) then Some (q, false)
  else if decide (LastAttempt q = lastUnix) then
    Some (mkCounter (duration q) (to_Unix now) (SuccessCounter q) (FailureCounter q), true)
  else None.

(** [CanRefresh] when nobody else stores in between: one iteration. *)
Definition CanRefresh (now : Z) (q : QueryCounter) : QueryCounter * bool :=
  default (q, false) (try_refresh now (LastAttempt q) q).

Definition GetLastAttempt (q : QueryCounter) : Z := time_UnixMilli (LastAttempt q).

Definition Bump (now : Z) (failure : bool) (q : QueryCounter) : QueryCounter :=
  if failure then mkCounter (duration q) (to_UnixMilli now) (SuccessCounter q) (u32 (FailureCounter q + 1))
  else mkCounter (duration q) (to_UnixMilli now) (u32 (SuccessCounter q + 1)) (FailureCounter q).

Definition GetSuccess (q : QueryCounter) : Z := SuccessCounter q.
Definition GetFailures (q : QueryCounter) : Z := FailureCounter q.

(** ** PeerInfo

    [Caps] is always made with [make]; [Extra] is a nil map or not, which
    [reflect.DeepEqual] tells apart. *)
Record PeerInfo := mkInfo {
  Name : string; Caps : list string; Version : Z; Extra : option (gmap string string) }.

#[export] Instance PeerInfo_eq_dec : EqDecision PeerInfo.
Proof. solve_decision. Defined.

Section Peer.
Context `{E : Enode}.

(** ** Peer *)

Record Peer := mkPeer {
  peer_node : enode;
  info : option PeerInfo;
  peersAmount : Z;
  Peers : gmap ID enode;
  infoCounter : QueryCounter;
  findCounter : QueryCounter;
  fresh : list ID }.

Definition new_peer (n : enode) (infoFreq findFreq : Z) : Peer :=
  mkPeer n None 0 ∅ (new_counter infoFreq) (new_counter findFreq) [].

Definition set_info_counter (p : Peer) q :=
  mkPeer (peer_node p) (info p) (peersAmount p) (Peers p) q (findCounter p) (fresh p).
Definition set_find_counter (p : Peer) q :=
  mkPeer (peer_node p) (info p) (peersAmount p) (Peers p) (infoCounter p) q (fresh p).

Definition PeersAmount (p : Peer) : Z := peersAmount p.

Definition zero_info : PeerInfo := mkInfo "" [] 0 None.

Definition GetInfo (p : Peer) : PeerInfo * bool :=
  match info p with None => (zero_info, false) | Some i => (i, true) end.

(** The result is whether the information is new; the hook runs then. *)
Definition UpdateInfo (p : Peer) (i : PeerInfo) : Peer * bool :=
  match info p with
  | Some prev =>
      if decide (prev = i) then (p, false)
      else (mkPeer (peer_node p) (Some i) (peersAmount p) (Peers p) (infoCounter p) (findCounter p) (fresh p), true)
  | None =>
      (mkPeer (peer_node p) (Some i) (peersAmount p) (Peers p) (infoCounter p) (findCounter p) (fresh p), true)
  end.

(** The atomic steps of [MarkPeerNode]: [LoadOrStore], the counter, and the
    append to [fresh] under the mutex. *)
Definition load_or_store (p : Peer) (n : enode) : Peer * bool :=
  match Peers p !! enode_ID n with
  | Some _ => (p, true)
  | None => (mkPeer (peer_node p) (info p) (peersAmount p) (<[enode_ID n := n]> (Peers p))
               (infoCounter p) (findCounter p) (fresh p), false)
  end.

Definition count_peer (p : Peer) : Peer :=
  mkPeer (peer_node p) (info p) (u32 (peersAmount p + 1)) (Peers p) (infoCounter p) (findCounter p) (fresh p).

Definition append_fresh (p : Peer) (i : ID) : Peer :=
  mkPeer (peer_node p) (info p) (peersAmount p) (Peers p) (infoCounter p) (findCounter p) (fresh p ++ [i]).

Definition MarkPeerNode (p : Peer) (n : enode) : Peer * bool :=
  let '(p1, loaded) := load_or_store p n in
  if loaded then (p1, false) else (append_fresh (count_peer p1) (enode_ID n), true).

Definition GetPeerNode (p : Peer) (i : ID) : option enode := Peers p !! i.

Definition GetPeerNodes (p : Peer) (ids : list ID) : list enode := omap (fun i => Peers p !! i) ids.

Definition NewEntries (p : Peer) : Peer * list ID :=
  if decide (length (fresh p) = 0%nat) then (p, [])
  else (mkPeer (peer_node p) (info p) (peersAmount p) (Peers p) (infoCounter p) (findCounter p) [], fresh p).

(** Workers and the loop on one peer: [counting] and [queueing] are the
    goroutines inside [MarkPeerNode] before the counter and before the
    append; [reported] is everything [NewEntries] has returned. *)
Record marking := mkMarking {
  mk_peer : Peer; counting : list ID; queueing : list ID; reported : list ID }.

Inductive mark_step (m : marking) : marking -> Prop :=
| ms_store n p :
    load_or_store (mk_peer m) n = (p, false) ->
    mark_step m (mkMarking p (enode_ID n :: counting m) (queueing m) (reported m))
| ms_known n p :
    load_or_store (mk_peer m) n = (p, true) ->
    mark_step m (mkMarking p (counting m) (queueing m) (reported m))
| ms_count c1 i c2 :
    counting m = c1 ++ i :: c2 ->
    mark_step m (mkMarking (count_peer (mk_peer m)) (c1 ++ c2) (i :: queueing m) (reported m))
| ms_append q1 i q2 :
    queueing m = q1 ++ i :: q2 ->
    mark_step m (mkMarking (append_fresh (mk_peer m) i) (counting m) (q1 ++ q2) (reported m))
| ms_entries :
    mark_step m (mkMarking (NewEntries (mk_peer m)).1 (counting m) (queueing m)
                   (reported m ++ (NewEntries (mk_peer m)).2))
| ms_update i : mark_step m (mkMarking (UpdateInfo (mk_peer m) i).1 (counting m) (queueing m) (reported m))
| ms_info_counter q :
    mark_step m (mkMarking (set_info_counter (mk_peer m) q) (counting m) (queueing m) (reported m))
| ms_find_counter q :
    mark_step m (mkMarking (set_find_counter (mk_peer m) q) (counting m) (queueing m) (reported m)).

(** ** seekerProc.go: [seekerProcessor.OnData]

    [enr i] is what the [i]-th request for the node's record gives.  The
    result counts the requests made. *)

Inductive seek_error : Type := EnrFailed | NotInterested.

Fixpoint enr_attempts (fuel : nat) (enr : nat -> option enode) (i : nat) : nat * option enode :=
  match fuel with
  | O => (i, None)
  | S fuel' => match enr i with None => enr_attempts fuel' enr (S i) | Some n => (S i, Some n) end
  end.

Definition seeker_OnData (enr : nat -> option enode) (verify : enode -> bool) (h : heap) (now : Z)
    : nat * (heap * Node + seek_error) :=
  match enr_attempts 3 enr 0 with
  | (k, None) => (k, inr EnrFailed)
  | (k, Some n) =>
      if negb (verify n) then (k, inr NotInterested)
      else let '(h1, w) := WrapNode h n in
           (k, inl (Nodes.Bump (SetTimestamp h1 w now) w, w))
  end.

(** ** crawlerProc.go: [crawlerProc.OnData]

    [query] and [ask] are the answers of the querier and of the packet
    handler; the instants are those of [CanRefresh] and of each [Bump].  The
    result is the peer, whether the hook ran, the nodes pinged, and whether
    there was no error. *)

Fixpoint mark_all (p : Peer) (ns : list enode) : Peer * list enode :=
  match ns with
  | [] => (p, [])
  | n :: ns' =>
      let '(p1, new) := MarkPeerNode p n in
      let '(p2, pinged) := mark_all p1 ns' in
      (p2, if new then n :: pinged else pinged)
  end.

Definition refresh_info (t1 t2 : Z) (query : option PeerInfo) (p : Peer) : Peer * bool :=
  let '(q, can) := CanRefresh t1 (infoCounter p) in
  let p1 := set_info_counter p q in
  if can then
    match query with
    | Some i =>
        let '(p2, updated) := UpdateInfo p1 i in
        (set_info_counter p2 (Bump t2 (negb updated) (infoCounter p2)), updated)
    | None => (set_info_counter p1 (Bump t2 true (infoCounter p1)), false)
    end
  else (p1, false).

Definition crawler_OnData (t1 t2 t3 t4 : Z) (query : option PeerInfo) (ask : option (list enode)) (p : Peer)
    : Peer * bool * list enode * bool :=
  let '(p1, hooked) := refresh_info t1 t2 query p in
  match ask with
  | None =>
      let p2 := set_find_counter p1 (Bump t3 true (findCounter p1)) in
      (set_find_counter p2 (Bump t4 true (findCounter p2)), hooked, [], false)
  | Some nodes =>
      let p2 := set_find_counter p1 (Bump t3 false (findCounter p1)) in
      let '(p3, pinged) := mark_all p2 nodes in (p3, hooked, pinged, true)
  end.

End Peer.
