(* ===== verification/PeerProps.v ===== *)
(** * Properties of the crawler's peers and processors *)

From stdpp Require Import base list gmap strings relations.
From Stdlib Require Import ZArith Lia Permutation.
From S2P Require Import Prelude Golang External Instances Nodes Peer.
Open Scope Z_scope.

(** ** QueryCounter *)

Lemma CanRefresh_eq now q :
  CanRefresh now q =
    if decide (time_Since now (time_UnixMilli (LastAttempt q)) < duration q) then (q, false)
    else (mkCounter (duration q) (to_Unix now) (SuccessCounter q) (FailureCounter q), true).
Proof. unfold CanRefresh, try_refresh. repeat case_decide; done. Qed.

(** The duration of a counter is one the program can have: not the least. *)
Definition duration_ok (q : QueryCounter) : Prop := MinInt64 < duration q <= MaxInt64.

(** After an attempt is recorded with [Bump], [CanRefresh] refuses until
    the counter's duration has passed since the start of the millisecond of
    the attempt, and grants then. *)
Theorem CanRefresh_after_Bump q t failure now :
  duration_ok q ->
  (CanRefresh now (Bump t failure q)).2 = true <-> duration q <= now - t / Millisecond * Millisecond.
Proof.
  intros Hd. rewrite CanRefresh_eq.
  assert (duration (Bump t failure q) = duration q /\ LastAttempt (Bump t failure q) = t / Millisecond)
    as [-> ->] by (unfold Bump, to_UnixMilli; destruct failure; done).
  pose proof (time_Since_lt now (time_UnixMilli (t / Millisecond)) (duration q) Hd) as Hl.
  unfold time_UnixMilli in *. case_decide as Hs; simpl; (split; [|]); intros; try done; lia.
Qed.

Lemma seconds_read_as_millis t d : 1000 * d <= 999 * t -> 0 <= t -> d <= t - t / Second * Millisecond.
Proof.
  intros Hd Ht. unfold Second, Millisecond. pose proof (Z.mul_div_le t 1000000000 ltac:(lia)). lia.
Qed.

(** C0: [CanRefresh] itself limits nothing: it stores the attempt in seconds
    and reads milliseconds, so a granted attempt is taken for one of January
    1970, and until the next [Bump] every call grants again. *)
Theorem refresh_not_limited q now q' later :
  duration_ok q -> CanRefresh now q = (q', true) -> now <= later -> 1000 * duration q <= 999 * now -> 0 <= now ->
  (CanRefresh later q').2 = true.
Proof.
  intros Hd Hc Hl Hn H0. rewrite CanRefresh_eq in Hc. case_decide as Hs; [done|]. injection Hc as <-.
  rewrite CanRefresh_eq. simpl. rewrite decide_False; [done|]. rewrite time_Since_lt by done.
  pose proof (seconds_read_as_millis now (duration q) Hn H0). unfold time_UnixMilli, to_Unix. lia.
Qed.

Section Props.
Context `{E : Enode}.

(** ** Marking the nodes a peer told about *)

Record mark_inv (m : marking) : Prop := {
  mi_once : Permutation (reported m ++ fresh (mk_peer m) ++ queueing m ++ counting m)
              (elements (dom (Peers (mk_peer m))));
  mi_count : peersAmount (mk_peer m) =
    u32 (Z.of_nat (size (dom (Peers (mk_peer m)))) - Z.of_nat (length (counting m))) }.

Lemma mark_inv_same m p :
  mark_inv m -> fresh p = fresh (mk_peer m) -> Peers p = Peers (mk_peer m) ->
  peersAmount p = peersAmount (mk_peer m) ->
  mark_inv (mkMarking p (counting m) (queueing m) (reported m)).
Proof. intros [H1 H2] Hf Hp Ha. constructor; simpl; by rewrite ?Ha, ?Hf, Hp. Qed.

Lemma mark_step_inv m m' : mark_inv m -> mark_step m m' -> mark_inv m'.
Proof.
  intros Hi Hs. destruct Hs as [n p Hl|n p Hl|c1 i c2 Hc|q1 i q2 Hq| |i|q|q].
  - destruct Hi as [H1 H2]. unfold load_or_store in Hl.
    destruct (Peers (mk_peer m) !! enode_ID n) eqn:El; [done|]. injection Hl as <-.
    assert (enode_ID n ∉ dom (Peers (mk_peer m))) as Hn by by apply not_elem_of_dom.
    constructor; simpl; rewrite dom_insert_L.
    + rewrite elements_union_singleton by done. rewrite <- H1.
      rewrite !(assoc_L (++)). by rewrite <- Permutation_middle.
    + rewrite H2. rewrite size_union by set_solver. rewrite size_singleton. f_equal. lia.
  - unfold load_or_store in Hl. case_match; [|done]. injection Hl as <-. by apply mark_inv_same.
  - destruct Hi as [H1 H2]. rewrite Hc in *. constructor; simpl.
    + rewrite <- H1. do 2 apply Permutation_app_head. rewrite <- Permutation_middle.
      apply Permutation_middle.
    + rewrite H2, u32_add. f_equal. rewrite !length_app. simpl. lia.
  - destruct Hi as [H1 H2]. rewrite Hq in *. constructor; simpl; [|done].
    rewrite <- H1. apply Permutation_app_head. rewrite <- !(assoc_L (++)). apply Permutation_app_head.
    simpl. by rewrite <- Permutation_middle.
  - unfold NewEntries. case_decide as He; simpl.
    + rewrite app_nil_r. by apply mark_inv_same.
    + destruct Hi as [H1 H2]. constructor; simpl; [|done]. rewrite <- H1. by rewrite <- !(assoc_L (++)).
  - unfold UpdateInfo. repeat case_match; by apply mark_inv_same.
  - by apply mark_inv_same.
  - by apply mark_inv_same.
Qed.

Lemma mark_reach_inv p m :
  Peers p = ∅ -> fresh p = [] -> peersAmount p = 0 -> rtc mark_step (mkMarking p [] [] []) m -> mark_inv m.
Proof.
  intros Hp Hf Ha Hr.
  assert (mark_inv (mkMarking p [] [] [])) as Hi.
  { constructor; simpl; rewrite ?Hf, ?Ha, Hp, dom_empty_L, ?elements_empty; [done|by rewrite size_empty]. }
  run_invariant mark_step_inv. done.
Qed.

(** C16: Whatever the interleaving of the workers that mark a peer's nodes and
    of the loop that collects the new ones, no identity is reported twice and
    only marked ones are; when no worker is in between, what has been reported
    and what waits are together exactly the marked identities, and
    [PeersAmount] is their number (modulo 2^32). *)
Theorem peers_reported_once p m :
  Peers p = ∅ -> fresh p = [] -> peersAmount p = 0 -> rtc mark_step (mkMarking p [] [] []) m ->
  NoDup (reported m) /\ (forall i, i ∈ reported m -> is_Some (GetPeerNode (mk_peer m) i)) /\
  (counting m = [] -> queueing m = [] ->
     (forall i, is_Some (GetPeerNode (mk_peer m) i) <-> i ∈ reported m \/ i ∈ fresh (mk_peer m)) /\
     PeersAmount (mk_peer m) = u32 (Z.of_nat (size (Peers (mk_peer m))))).
Proof.
  intros Hp Hf Ha [H1 H2]%(mark_reach_inv p m Hp Hf Ha).
  assert (forall i, i ∈ reported m ++ fresh (mk_peer m) ++ queueing m ++ counting m <->
    is_Some (GetPeerNode (mk_peer m) i)) as Hin.
  { intros i. unfold GetPeerNode. rewrite H1, elem_of_elements. apply elem_of_dom. }
  split_and!.
  - pose proof (NoDup_elements (dom (Peers (mk_peer m)))) as Hn. rewrite <- H1 in Hn.
    by apply NoDup_app in Hn as [? _].
  - intros i Hi. apply Hin, elem_of_app. by left.
  - intros Hc Hq. rewrite Hc, Hq in *. split.
    + intros i. rewrite <- Hin, !elem_of_app, elem_of_nil. tauto.
    + unfold PeersAmount. rewrite H2, size_dom. f_equal. simpl. lia.
Qed.

(** ** The processors *)

Lemma enr_attempts_spec fuel enr i k r :
  enr_attempts fuel enr i = (k, r) ->
  (i <= k <= i + fuel)%nat /\
  match r with
  | Some n => (i < k)%nat /\ enr (pred k) = Some n /\ forall j, (i <= j < pred k)%nat -> enr j = None
  | None => k = (i + fuel)%nat /\ forall j, (i <= j < k)%nat -> enr j = None
  end.
Proof.
  revert i. induction fuel as [|fuel IH]; intros i; simpl.
  { intros [= <- <-]. split; [lia|]. split; [lia|]. intros. lia. }
  destruct (enr i) as [n|] eqn:Ei.
  - intros [= <- <-]. simpl. split_and!; [lia|lia|lia|done|]. intros. lia.
  - intros [Hb H]%IH. split; [lia|].
    assert (forall j e, (i <= j < e)%nat -> (forall j, (S i <= j < e)%nat -> enr j = None) -> enr j = None) as Hx.
    { intros j e Hj Hall. destruct (decide (j = i)) as [->|]; [done|]. apply Hall. lia. }
    destruct r as [n|]; destruct_and!; split_and!; try lia; try done; intros j Hj; by eapply Hx.
Qed.

(** The seeker asks for a node's record until it gets it, at most three
    times; a node passed on is the record of the first successful request,
    which the filter accepts, wrapped with the present second and a count of
    one. *)
Theorem seeker_OnData_result enr verify h now k r :
  seeker_OnData enr verify h now = (k, r) ->
  (1 <= k <= 3)%nat /\ (forall j, (S j < k)%nat -> enr j = None) /\
  match r with
  | inr EnrFailed => k = 3%nat /\ enr 2%nat = None
  | inr NotInterested => exists n, enr (pred k) = Some n /\ verify n = false
  | inl (h', w) =>
      enr (pred k) = Some (node_enode w) /\ verify (node_enode w) = true /\
      deref h' w = mkCell (u64 (to_Unix now)) 1
  end.
Proof.
  unfold seeker_OnData. destruct (enr_attempts 3 enr 0) as [k' o] eqn:Ea.
  apply enr_attempts_spec in Ea as [Hb Ha]. destruct o as [n|].
  - destruct Ha as (Hk & Hn & Hall). destruct (verify n) eqn:Ev; simpl; intros [= <- <-].
    + split_and!; [lia|lia|intros; apply Hall; lia|done|done|].
      unfold deref, SetTimestamp, Nodes.Bump, store, deref. simpl.
      by rewrite !lookup_insert_eq, lookup_delete_eq.
    + split_and!; [lia|lia|intros; apply Hall; lia|]. by exists n.
  - destruct Ha as [-> Hall]. intros [= <- <-]. split_and!; [lia|lia|intros; apply Hall; lia|done|].
    apply Hall. lia.
Qed.

Lemma MarkPeerNode_eq p n :
  (MarkPeerNode p n).2 = bool_decide (Peers p !! enode_ID n = None) /\
  Peers (MarkPeerNode p n).1 = (if decide (Peers p !! enode_ID n = None) then <[enode_ID n := n]> (Peers p) else Peers p) /\
  infoCounter (MarkPeerNode p n).1 = infoCounter p /\ findCounter (MarkPeerNode p n).1 = findCounter p.
Proof.
  unfold MarkPeerNode, load_or_store. destruct (Peers p !! enode_ID n) eqn:El; simpl.
  - done.
  - done.
Qed.

(** The nodes of a list that are not known and have no earlier entry. *)
Fixpoint first_unknown (known : gset ID) (ns : list enode) : list enode :=
  match ns with
  | [] => []
  | n :: ns' =>
      if decide (enode_ID n ∈ known) then first_unknown known ns'
      else n :: first_unknown ({[enode_ID n]} ∪ known) ns'
  end.

Lemma mark_all_eq ns p :
  (mark_all p ns).2 = first_unknown (dom (Peers p)) ns /\
  dom (Peers (mark_all p ns).1) = dom (Peers p) ∪ list_to_set (map enode_ID ns) /\
  infoCounter (mark_all p ns).1 = infoCounter p /\ findCounter (mark_all p ns).1 = findCounter p.
Proof.
  revert p. induction ns as [|n ns IH]; intros p; simpl.
  { split_and!; [done| |done|done]. by rewrite (right_id_L ∅ (∪)). }
  pose proof (MarkPeerNode_eq p n) as (Hb & Hp & Hi & Hf).
  destruct (MarkPeerNode p n) as [p1 new]. simpl in *.
  destruct (IH p1) as (H1 & H2 & H3 & H4). destruct (mark_all p1 ns) as [p2 pinged]. simpl in *.
  rewrite H1, H2, H3, H4, Hb, Hp, Hi, Hf. case_decide as Hn.
  - rewrite bool_decide_eq_true_2 by done. rewrite dom_insert_L.
    rewrite decide_False by by apply not_elem_of_dom. split_and!; [done| |done|done]. set_solver.
  - rewrite bool_decide_eq_false_2 by done.
    assert (enode_ID n ∈ dom (Peers p)) as Hd.
    { apply elem_of_dom. by apply not_eq_None_Some. }
    rewrite decide_True by done. split_and!; [done| |done|done].
    apply leibniz_equiv. set_solver.
Qed.

(** A crawl step pings exactly the nodes the peer had not told about
    before, each once and in the order of the answer, and remembers them all;
    on success it counts one successful search; a failed search is counted
    twice, and the step then pings nobody. *)
Theorem crawler_OnData_effect t1 t2 t3 t4 query ask p p' hooked pinged ok :
  crawler_OnData t1 t2 t3 t4 query ask p = (p', hooked, pinged, ok) ->
  ok = bool_decide (is_Some ask) /\
  match ask with
  | Some nodes =>
      pinged = first_unknown (dom (Peers p)) nodes /\
      dom (Peers p') = dom (Peers p) ∪ list_to_set (map enode_ID nodes) /\
      findCounter p' = Bump t3 false (findCounter p)
  | None =>
      pinged = [] /\ Peers p' = Peers p /\
      GetFailures (findCounter p') = u32 (u32 (GetFailures (findCounter p) + 1) + 1) /\
      GetSuccess (findCounter p') = GetSuccess (findCounter p)
  end.
Proof.
  unfold crawler_OnData.
  assert (Peers (refresh_info t1 t2 query p).1 = Peers p /\ findCounter (refresh_info t1 t2 query p).1 = findCounter p)
    as [Hp Hf].
  { unfold refresh_info, UpdateInfo. repeat case_match; simplify_eq; done. }
  destruct (refresh_info t1 t2 query p) as [p1 h]. simpl in *.
  destruct ask as [nodes|].
  - pose proof (mark_all_eq nodes (set_find_counter p1 (Bump t3 false (findCounter p1)))) as (H1 & H2 & _ & H4).
    destruct (mark_all _ nodes) as [p3 pg]. simpl in *. intros [= <- <- <- <-].
    rewrite H1, H2, H4, Hp, Hf. done.
  - intros [= <- <- <- <-]. simpl. rewrite Hp, Hf. done.
Qed.

(** The information of a peer is queried only when [CanRefresh] grants
    it; the hook, which publishes it, runs exactly when the answer differs
    from what is known; an answer that changes nothing counts as a failure. *)
Theorem refresh_info_effect t1 t2 query p p' hooked :
  refresh_info t1 t2 query p = (p', hooked) ->
  (hooked = true <->
     (CanRefresh t1 (infoCounter p)).2 = true /\ exists i, query = Some i /\ info p <> Some i) /\
  info p' = (if hooked then query else info p) /\
  GetSuccess (infoCounter p') = (if hooked then u32 (GetSuccess (infoCounter p) + 1) else GetSuccess (infoCounter p)) /\
  GetFailures (infoCounter p') =
    (if (CanRefresh t1 (infoCounter p)).2 && negb hooked then u32 (GetFailures (infoCounter p) + 1)
     else GetFailures (infoCounter p)).
Proof.
  unfold refresh_info. rewrite CanRefresh_eq. case_decide as Hd; simpl.
  { intros [= <- <-]. simpl. naive_solver. }
  destruct query as [i|]; [|intros [= <- <-]; simpl; naive_solver].
  unfold UpdateInfo. simpl. destruct (info p) as [prev|] eqn:Ei.
  - case_decide as He; intros [= <- <-]; simpl; rewrite ?Ei; naive_solver.
  - intros [= <- <-]. simpl. naive_solver.
Qed.

End Props.

(** ** Concrete runs *)

Module Demo.

Definition node (i : Z) : @enode xor_enode := mkRecord i [9; 9; 9; i] 30303 30303 1.

(** Noon of a day in 2023. *)
Definition noon : Z := 1689076800 * Second.

Definition counter : QueryCounter := new_counter (10 * Minute).

Lemma CanRefresh_after_Bump_witness :
  (CanRefresh (noon + Minute) (Bump noon false counter)).2 = true <->
  10 * Minute <= noon + Minute - noon / Millisecond * Millisecond.
Proof. apply (CanRefresh_after_Bump counter noon false (noon + Minute)). unfold duration_ok; split; vm_compute; congruence. Defined.

Lemma refresh_not_limited_witness :
  exists q, CanRefresh noon counter = (q, true) /\ (CanRefresh (noon + Second) q).2 = true.
Proof.
  eexists. split; [reflexivity|].
  apply (refresh_not_limited counter noon _ (noon + Second));
    [unfold duration_ok; split; vm_compute; congruence|reflexivity|vm_compute; congruence..].
Defined.

Definition subject : Peer := new_peer (node 1) (10 * Minute) Minute.
Definition stored : Peer := (load_or_store subject (node 2)).1.
Definition counted : Peer := count_peer stored.
Definition appended : Peer := append_fresh counted 2.
Definition collected : Peer := (NewEntries appended).1.

Lemma peers_reported_once_witness :
  GetPeerNode collected 2 = Some (node 2) /\ (2 : Z) ∈ [2] /\
  PeersAmount collected = u32 (Z.of_nat (size (Peers collected))).
Proof.
  assert (rtc mark_step (mkMarking subject [] [] []) (mkMarking collected [] [] [2])) as Hr.
  { eapply rtc_l; [apply (ms_store _ (node 2) stored); reflexivity|].
    eapply rtc_l; [apply (ms_count _ [] (2 : @ID xor_enode) []); reflexivity|].
    eapply rtc_l; [apply (ms_append _ [] (2 : @ID xor_enode) []); reflexivity|].
    eapply rtc_l; [apply ms_entries|]. constructor. }
  split; [reflexivity|].
  destruct (peers_reported_once subject _ eq_refl eq_refl eq_refl Hr) as (_ & _ & H).
  destruct (H eq_refl eq_refl) as [_ Hc]. split; [by left|exact Hc].
Defined.

Definition answer (i : nat) : option (@enode xor_enode) := match i with O => None | _ => Some (node 2) end.

Lemma seeker_OnData_result_witness :
  exists h w, seeker_OnData answer (fun _ => true) (mkHeap 0 ∅) noon = (2%nat, inl (h, w)) /\
  answer 1%nat = Some (node_enode w).
Proof.
  eexists _, _. split; [reflexivity|].
  exact (proj1 (proj2 (proj2 (seeker_OnData_result answer (fun _ => true) (mkHeap 0 ∅) noon _ _ eq_refl)))).
Defined.

Definition crawled := crawler_OnData noon noon noon noon None (Some [node 2; node 3; node 2]) subject.

Lemma crawler_OnData_effect_witness :
  crawled = (crawled.1.1.1, crawled.1.1.2, crawled.1.2, crawled.2) /\ crawled.1.2 = [node 2; node 3].
Proof.
  assert (crawled = (crawled.1.1.1, crawled.1.1.2, crawled.1.2, crawled.2)) as H by (by destruct crawled as [[[??]?]?]).
  split; [exact H|].
  destruct (crawler_OnData_effect _ _ _ _ _ _ _ _ _ _ _ H) as (_ & Hp & _). rewrite Hp. reflexivity.
Defined.

Definition identified : Peer * bool :=
  refresh_info noon noon (Some (mkInfo "geth" ["eth/66"] 5 None)) subject.

Lemma refresh_info_effect_witness :
  identified = (identified.1, identified.2) /\ identified.2 = true /\ GetSuccess (infoCounter identified.1) = 1.
Proof.
  assert (identified = (identified.1, identified.2)) as H by by destruct identified.
  split; [exact H|]. split; [reflexivity|].
  destruct (refresh_info_effect _ _ _ _ _ _ H) as (_ & _ & Hs & _). rewrite Hs. reflexivity.
Defined.

End Demo.
