(* ===== verification/Crawler.v ===== *)
(** * crawler/crawler: the seeker and the crawler's loop

    seeker.go, buffer.go and crawler.go.  The seeker turns the node events of
    the table into work, each identity once; the crawler keeps the peers it
    was given in a ring that its loop turns by one peer per tick.  A
    [*Peer] is a pointer into a heap of peers, which the workers change at
    any time. *)

From stdpp Require Import base list gmap strings relations.
From Stdlib Require Import ZArith Lia Permutation.
From S2P Require Import Prelude Golang External Instances Nodes Table Handler Peer.
Open Scope Z_scope.
Local Open Scope outcome_scope.

(** ** buffer.go *)

Definition Enqueue {A} (b : list A) (x : A) : list A := b ++ [x].

Definition Dequeue {A} (b : list A) : list A * option A :=
  match b with [] => ([], None) | x :: b' => (b', Some x) end.

(** ** What the crawler publishes and stores *)

Record NewNode := mkNewNode {
  nn_ENR : string; nn_Enrs : list string; nn_Name : string; nn_Version : Z; nn_Caps : list string;
  nn_Extras : option (gmap string string) }.

Record NodeStats := mkStats { ns_ENR : string; Queried : Z; ns_Nodes : Z; NewNodes : list string }.

Inductive effect : Type :=
| PublishNewNodeFound (n : NewNode)
| PublishNodeStats (s : NodeStats)
| CreateEnrRecord (id : string) (fields : list string)
| CreateRlpRecord (id : string) (RawName : string) (ProtocolVersion : Z) (Caps : list string)
| PushItem (peer : nat)
| RecordRecvNode
| RecordLookup.

Definition threads : Z := 8.
Definition lookupDuration : Z := 1 * Second.
Definition queryDuration : Z := 5 * Second.
Definition infoAttemptFrequency : Z := 10 * Minute.
Definition findAttemptFrequency : Z := 1 * Minute.

(** [filterNode]: the names in the record against the keys asked for. *)
Definition filterNode (keys records : list string) : bool :=
  existsb (fun record => existsb (fun key => bool_decide (key = "*"%string) || bool_decide (record = key)) keys) records.

Section Crawler.
Context `{E : Enode}.
(** [enode.URLv4] and the names [RetrieveFieldNames] reads off the record. *)
Context (URLv4 : enode -> string) (RetrieveFieldNames : enode -> list string).

(** ** seeker.go: [eventLoop]

    An event is a node and its type; the result is what is pushed to the
    workers. *)
Definition on_event (seen : gset ID) (event : enode * EventType) : gset ID * option enode :=
  if negb (bool_decide (event.2 = SEEN)) then (seen, None)
  else if decide (enode_ID event.1 ∈ seen) then (seen, None)
  else ({[enode_ID event.1]} ∪ seen, Some event.1).

Fixpoint eventLoop (seen : gset ID) (events : list (enode * EventType)) : list enode :=
  match events with
  | [] => []
  | ev :: evs =>
      let '(seen', push) := on_event seen ev in option_list push ++ eventLoop seen' evs
  end.

(** ** crawler.go *)

(** [pushing] is the peer whose item the loop is pushing to its workers. *)
Record crawler := mkCrawler {
  buffer : list nat; peers : gmap nat Peer; next_peer : nat; effects : list effect;
  examined : list nat; pushing : option nat }.

Definition NewCrawler : crawler := mkCrawler [] ∅ 0 [] [] None.

(** What the hook of a peer does with its new information. *)
Definition infoHook (p : Peer) : list effect :=
  let i := (GetInfo p).1 in
  [PublishNewNodeFound (mkNewNode (URLv4 (peer_node p)) (RetrieveFieldNames (peer_node p))
     (Name i) (Version i) (Caps i) (Extra i));
   CreateRlpRecord (URLv4 (peer_node p)) (Name i) (i32 (Version i)) (Caps i)].

(** The body of the loop in [Crawl], for a node that the seeker passed on. *)
Definition Crawl_node (n : enode) (c : crawler) : crawler :=
  let p := new_peer n infoAttemptFrequency findAttemptFrequency in
  let fields := RetrieveFieldNames n in
  mkCrawler (Enqueue (buffer c) (next_peer c)) (<[next_peer c := p]> (peers c)) (S (next_peer c))
    (effects c ++ [RecordRecvNode; CreateEnrRecord (URLv4 n) fields;
                   PublishNewNodeFound (mkNewNode (URLv4 n) fields "" 0 [] None)])
    (examined c) (pushing c).

Definition node_stats (p : Peer) (entries : list ID) : NodeStats :=
  let findTotalCount := u32 (GetFailures (findCounter p) + GetSuccess (findCounter p)) in
  let infoTotalCount := u32 (GetFailures (infoCounter p) + GetSuccess (infoCounter p)) in
  mkStats (URLv4 (peer_node p)) (u32 (findTotalCount + infoTotalCount)) (PeersAmount p)
    (map URLv4 (GetPeerNodes p entries)).

(** Whether the peer's counter lets it be searched, and the part of the tick
    after that: what is left of the peer and what is published. *)
Definition search (now : Z) (p : Peer) : Peer * bool :=
  let '(q, can) := CanRefresh now (findCounter p) in (set_find_counter p q, can).

Definition publish (p : Peer) : Peer * list effect :=
  let '(p', entries) := NewEntries p in
  (p', if decide (length entries = 0%nat) then [] else [PublishNodeStats (node_stats p' entries)]).

(** One tick of [loop], up to the [Push] of the peer's item if it has one; a
    pointer in the buffer always has its peer. *)
Definition tick (now : Z) (c : crawler) : outcome crawler :=
  match Dequeue (buffer c) with
  | (_, None) => Ok c
  | (rest, Some x) =>
      match peers c !! x with
      | None => Panic NilDereference
      | Some p =>
          let '(p1, can) := search now p in
          let '(p2, effs) := if can then (p1, [PushItem x]) else publish p1 in
          Ok (mkCrawler (Enqueue rest x) (<[x := p2]> (peers c)) (next_peer c) (effects c ++ effs)
                (examined c ++ [x]) (if can then Some x else None))
      end
  end.

(** The rest of the tick, when [Push] has returned. *)
Definition pushed (x : nat) (c : crawler) : outcome crawler :=
  match peers c !! x with
  | None => Panic NilDereference
  | Some p =>
      let '(p', effs) := publish p in
      Ok (mkCrawler (buffer c) (<[x := p']> (peers c)) (next_peer c) (effects c ++ RecordLookup :: effs)
            (examined c) None)
  end.

(** A whole tick in which nobody comes between. *)
Definition examine (now : Z) (x : nat) (p : Peer) : Peer * list effect :=
  let '(p1, can) := search now p in
  let '(p2, effs) := publish p1 in
  (p2, (if can then [PushItem x; RecordLookup] else []) ++ effs).

(** A worker's [OnData] on a peer, run as a whole, with what its hook does. *)
Definition work (t1 t2 t3 t4 : Z) (query : option PeerInfo) (ask : option (list enode)) (x : nat) (c : crawler)
    : outcome crawler :=
  match peers c !! x with
  | None => Panic NilDereference
  | Some p =>
      let '(p', hooked, _, _) := crawler_OnData t1 t2 t3 t4 query ask p in
      Ok (mkCrawler (buffer c) (<[x := p']> (peers c)) (next_peer c)
            (effects c ++ (if hooked then infoHook p' else [])) (examined c) (pushing c))
  end.

Definition worker_acts (x : nat) (p' : Peer) (effs : list effect) (c : crawler) : crawler :=
  mkCrawler (buffer c) (<[x := p']> (peers c)) (next_peer c) (effects c ++ effs) (examined c) (pushing c).

(** The crawler while its workers run: they change peers, in as many atomic
    actions as they like, and their hooks publish. *)
Inductive crawl_step (c : crawler) : outcome crawler -> Prop :=
| cs_node n : crawl_step c (Ok (Crawl_node n c))
| cs_tick now : pushing c = None -> crawl_step c (tick now c)
| cs_pushed x : pushing c = Some x -> crawl_step c (pushed x c)
| cs_work x p p' effs :
    peers c !! x = Some p ->
    crawl_step c (Ok (worker_acts x p' effs c)).

Definition crawl_ok (c c' : crawler) : Prop := crawl_step c (Ok c').

(** ** Lemmas *)

Lemma work_step t1 t2 t3 t4 query ask x c c' :
  work t1 t2 t3 t4 query ask x c = Ok c' -> crawl_ok c c'.
Proof.
  unfold work. destruct (peers c !! x) as [p|] eqn:Hx; [|done].
  destruct (crawler_OnData t1 t2 t3 t4 query ask p) as [[[p' hooked] pinged] ok]. intros [= <-].
  by eapply cs_work.
Qed.

Record crawl_inv (c : crawler) : Prop := {
  ci_buffer : Permutation (buffer c) (seq 0 (next_peer c));
  ci_peers : forall x, is_Some (peers c !! x) <-> (x < next_peer c)%nat;
  ci_pushing : forall x, pushing c = Some x -> is_Some (peers c !! x) }.

(** A tick examines the first peer of the buffer and puts it at its end. *)
Lemma tick_cases now c c' :
  tick now c = Ok c' ->
  buffer c = [] /\ c' = c \/
  exists x rest p effs o, buffer c = x :: rest /\ is_Some (peers c !! x) /\ (o = None \/ o = Some x) /\
    c' = mkCrawler (rest ++ [x]) (<[x := p]> (peers c)) (next_peer c) (effects c ++ effs) (examined c ++ [x]) o.
Proof.
  unfold tick, Dequeue, Enqueue. destruct (buffer c) as [|x rest] eqn:Eb; [intros [= <-]; by left|].
  destruct (peers c !! x) as [p|] eqn:Ex; [|done]. destruct (search now p) as [p1 can].
  destruct (if can then _ else _) as [p2 effs]. intros [= <-]. right.
  exists x, rest, p2, effs, (if can then Some x else None). destruct can; by eauto 10.
Qed.

Lemma crawl_step_ok c o : crawl_inv c -> crawl_step c o -> exists c', o ⇓ c'.
Proof.
  intros [H1 H2 H3] Hs. destruct Hs as [n|now Hp|x Hp|x p p' effs Hx]; [by eexists| | |by eexists].
  - unfold tick, Dequeue. destruct (buffer c) as [|y rest] eqn:Eb; [by eexists|].
    assert (is_Some (peers c !! y)) as [p ->].
    { apply H2. assert (y ∈ seq 0 (next_peer c)) as Hy by (rewrite <- H1; by left).
      apply elem_of_seq in Hy. lia. }
    destruct (search now p) as [p1 can]. destruct (if can then _ else _). by eexists.
  - unfold pushed. destruct (H3 x Hp) as [p ->]. destruct (publish p). by eexists.
Qed.

Lemma insert_peer_inv (ps : gmap nat Peer) n x p :
  (forall y, is_Some (ps !! y) <-> (y < n)%nat) -> is_Some (ps !! x) ->
  forall y, is_Some (<[x := p]> ps !! y) <-> (y < n)%nat.
Proof.
  intros H Hx y. rewrite lookup_insert_is_Some, H. split; [|destruct (decide (x = y)); tauto].
  intros [<-|[_ Hy]]; [by apply H|done].
Qed.

Lemma crawl_step_inv c c' : crawl_inv c -> crawl_ok c c' -> crawl_inv c'.
Proof.
  intros [H1 H2 H3] Hs. unfold crawl_ok in Hs. inversion Hs as [n Heq|now Hp Heq|x Hp Heq|x p p' effs Hx Heq]; subst.
  - constructor; unfold Crawl_node, Enqueue; cbn -[seq].
    + rewrite H1, seq_S. done.
    + intros x. rewrite lookup_insert_is_Some, H2. lia.
    + intros x Hx. rewrite lookup_insert_is_Some', H2. right. by apply H2, H3.
  - destruct (tick_cases _ _ _ Heq) as [[_ ->]|(x & rest & p & effs & o & Hb & Hx & Ho & ->)]; [done|].
    pose proof (insert_peer_inv _ _ x p H2 Hx) as Hps. constructor; simpl; [|done|].
    + rewrite <- H1, Hb. symmetry. apply Permutation_cons_append.
    + intros y Hy. destruct Ho; simplify_eq. apply Hps, H2, Hx.
  - unfold pushed in Heq. destruct (peers c !! x) as [p|] eqn:Ex; [|done]. destruct (publish p). simplify_eq.
    constructor; simpl; [done|by eapply insert_peer_inv|done].
  - pose proof (insert_peer_inv _ _ x p' H2 (ex_intro _ _ Hx)) as Hps.
    constructor; simpl; [done|done|]. intros y Hy. by apply Hps, H2, H3.
Qed.

Lemma crawl_reach_inv c : rtc crawl_ok NewCrawler c -> crawl_inv c.
Proof.
  intros Hr. assert (crawl_inv NewCrawler) as Hi.
  { constructor; simpl; [done| |done]. intros x. rewrite lookup_empty. split; [intros [? ?]; done|lia]. }
  run_invariant crawl_step_inv. done.
Qed.

(** The examined peers followed by the buffer only ever grows at its end. *)
Lemma crawl_step_prefix c c' :
  crawl_ok c c' -> examined c `prefix_of` examined c' /\
  examined c ++ buffer c `prefix_of` examined c' ++ buffer c'.
Proof.
  intros Hs. unfold crawl_ok in Hs. inversion Hs as [n Heq|now Hp Heq|x Hp Heq|x p p' effs Hx Heq]; subst; simpl.
  - split; [done|]. exists [next_peer c]. unfold Enqueue. by rewrite <- (assoc_L (++)).
  - destruct (tick_cases _ _ _ Heq) as [[_ ->]|(x & rest & p & effs & o & -> & _ & _ & ->)]; [done|]. simpl.
    split; [by apply prefix_app_r|]. exists [x]. by rewrite <- !(assoc_L (++)).
  - unfold pushed in Heq. destruct (peers c !! x) as [p|]; [|done]. destruct (publish p). by simplify_eq.
  - done.
Qed.

Lemma crawl_prefix c c' :
  rtc crawl_ok c c' -> examined c `prefix_of` examined c' /\
  examined c ++ buffer c `prefix_of` examined c' ++ buffer c'.
Proof.
  induction 1 as [|x y z Hs Hr [IH1 IH2]]; [done|]. apply crawl_step_prefix in Hs as [H1 H2].
  split; by etransitivity.
Qed.

Lemma eventLoop_seen events seen n :
  n ∈ eventLoop seen events -> enode_ID n ∉ seen /\ (n, SEEN) ∈ events.
Proof.
  revert seen. induction events as [|[m ty] evs IH]; intros seen; simpl; [by intros ?%elem_of_nil|].
  unfold on_event. simpl. case_bool_decide as Ht; simpl.
  - subst ty. case_decide as Hs; simpl.
    + intros [? ?]%IH. split; [done|by right].
    + intros [->|[Hn Hin]%IH]%elem_of_cons; [split; [done|by left]|]. split; [set_solver|by right].
  - intros [? ?]%IH. split; [done|by right].
Qed.

(** ** Properties *)

(** The seeker asks for the record of each node that was reported as seen
    once: the identities pushed to its workers are distinct, and they are
    exactly those of the [SEEN] events. *)
Theorem seeker_pushes_once events :
  NoDup (map enode_ID (eventLoop ∅ events)) /\
  forall i, i ∈ map enode_ID (eventLoop ∅ events) <-> exists n, (n, SEEN) ∈ events /\ enode_ID n = i.
Proof.
  assert (forall seen, NoDup (map enode_ID (eventLoop seen events)) /\
    forall n, (n, SEEN) ∈ events -> enode_ID n ∉ seen -> enode_ID n ∈ map enode_ID (eventLoop seen events)) as H.
  { induction events as [|[m ty] evs IH]; intros seen; simpl.
    { split; [apply NoDup_nil_2|]. intros n Hn. by apply elem_of_nil in Hn. }
    unfold on_event. simpl. case_bool_decide as Ht; simpl.
    - subst ty. case_decide as Hs; simpl.
      + destruct (IH seen) as [H1 H2]. split; [done|].
        intros n [[= <-]|Hn]%elem_of_cons Hi; [done|by apply H2].
      + destruct (IH ({[enode_ID m]} ∪ seen)) as [H1 H2]. split.
        * apply NoDup_cons. split; [|done]. intros Hin.
          apply list_elem_of_fmap in Hin as (n & Heq & Hn). apply eventLoop_seen in Hn as [Hn _].
          apply Hn. rewrite <- Heq. set_solver.
        * intros n [[= <-]|Hn]%elem_of_cons Hi; [by left|]. destruct (decide (enode_ID n = enode_ID m)) as [->|Hne]; [by left|].
          right. apply H2; [done|]. set_solver.
    - destruct (IH seen) as [H1 H2]. split; [done|].
      intros n [[= <- <-]|Hn]%elem_of_cons Hi; [done|by apply H2]. }
  destruct (H ∅) as [H1 H2]. split; [done|]. intros i. split.
  - intros Hin. apply list_elem_of_fmap in Hin as (n & -> & Hn). exists n. split; [|done].
    by apply eventLoop_seen in Hn as [_ ?].
  - intros (n & Hn & <-). apply H2; [done|apply not_elem_of_empty].
Qed.

(** C17: The loop serves the peers in turn: no tick panics, the buffer always
    holds every peer that was discovered exactly once, and a peer at position
    [i] of the buffer is the one examined by the [i]-th tick from then on,
    whatever is discovered and whatever the workers do in between. *)
Theorem crawl_round_robin c c' i x :
  rtc crawl_ok NewCrawler c -> rtc crawl_ok c c' ->
  (forall w, ~ crawl_step c (Panic w)) /\ Permutation (buffer c) (seq 0 (next_peer c)) /\
  (buffer c !! i = Some x -> (length (examined c) + i < length (examined c'))%nat ->
     examined c' !! (length (examined c) + i)%nat = Some x).
Proof.
  intros Hr%crawl_reach_inv Hr'. split_and!.
  - intros w Hs. by destruct (crawl_step_ok _ _ Hr Hs).
  - apply (ci_buffer _ Hr).
  - intros Hi Hl. destruct (crawl_prefix _ _ Hr') as [_ Hp].
    assert ((examined c' ++ buffer c') !! (length (examined c) + i)%nat = Some x) as Hx.
    { eapply prefix_lookup_Some; [|exact Hp]. by rewrite lookup_app_r, Nat.add_sub' by lia. }
    by rewrite lookup_app_l in Hx.
Qed.

(** Examining a peer queues a search exactly when its counter grants one,
    and publishes the peer's statistics exactly when it has new nodes, which
    are listed once: the list is empty afterwards. *)
Theorem examine_effect now x p p' effs :
  (forall i, i ∈ fresh p -> is_Some (Peers p !! i)) -> examine now x p = (p', effs) ->
  (PushItem x ∈ effs <-> (CanRefresh now (findCounter p)).2 = true) /\
  fresh p' = [] /\ Peers p' = Peers p /\
  (fresh p = [] -> forall s, PublishNodeStats s ∉ effs) /\
  (fresh p <> [] -> exists s, PublishNodeStats s ∈ effs /\
     length (NewNodes s) = length (fresh p) /\
     forall k i, fresh p !! k = Some i -> exists n, Peers p !! i = Some n /\ NewNodes s !! k = Some (URLv4 n)).
Proof.
  intros Hfresh. unfold examine, search, publish. destruct (CanRefresh now (findCounter p)) as [q can]. simpl.
  unfold NewEntries. simpl.
  assert (forall l, (forall i, i ∈ l -> is_Some (Peers p !! i)) ->
    length (omap (fun i => Peers p !! i) l) = length l /\
    forall k i, l !! k = Some i -> exists n, Peers p !! i = Some n /\
      map URLv4 (omap (fun i => Peers p !! i) l) !! k = Some (URLv4 n)) as Hom.
  { induction l as [|j l IH]; intros Hl; [done|]. destruct (Hl j ltac:(by left)) as [n Hn]. simpl. rewrite Hn. simpl.
    destruct IH as [IH1 IH2]; [intros i Hi; apply Hl; by right|]. split; [by f_equal|].
    intros [|k] i Hk; simpl in *; [simplify_eq; by exists n|by apply IH2]. }
  case_decide as Hf; intros [= <- <-]; simpl.
  - apply nil_length_inv in Hf. rewrite Hf, app_nil_r.
    split_and!; [|done|done|intros _ s; destruct can; set_solver|done]. destruct can; set_solver.
  - rewrite (decide_False (P := length (fresh p) = 0%nat)) by done.
    split_and!; [|done|done|intros Hn; by rewrite Hn in Hf|].
    + destruct can; set_solver.
    + intros _. eexists. split; [apply elem_of_app; right; by left|]. simpl. unfold GetPeerNodes. simpl.
      destruct (Hom (fresh p) Hfresh) as [H1 H2]. split; [by rewrite length_map|done].
Qed.

End Crawler.

(** ** Concrete runs *)

Module Demo.

Definition node (i : Z) : @enode xor_enode := mkRecord i [9; 9; 9; i] 30303 30303 1.
Definition url (n : @enode xor_enode) : string := "enode".
Definition names (n : @enode xor_enode) : list string := ["eth"%string].

Definition two : crawler := Crawl_node url names (node 2) (Crawl_node url names (node 1) NewCrawler).

Definition ticked (now : Z) (c : crawler) : crawler :=
  match tick url now c with Ok c' => c' | Panic _ => c end.

Definition once : crawler := ticked (1689076800 * Second) two.

Lemma two_reachable : rtc (crawl_ok url names) NewCrawler two.
Proof. eapply rtc_l; [apply cs_node|]. eapply rtc_l; [apply cs_node|]. constructor. Qed.

Lemma once_step : crawl_ok url names two once.
Proof. exact (cs_tick url names two (1689076800 * Second) eq_refl). Qed.

Lemma crawl_round_robin_witness :
  buffer two !! 0%nat = Some 0%nat /\ examined once !! 0%nat = Some 0%nat.
Proof.
  split; [reflexivity|].
  apply (crawl_round_robin url names two once 0 0 two_reachable (rtc_once _ _ once_step)); [reflexivity|].
  apply Nat.ltb_lt. reflexivity.
Defined.

Definition told : Peer := (MarkPeerNode (new_peer (node 1) infoAttemptFrequency findAttemptFrequency) (node 2)).1.

Lemma examine_effect_witness :
  exists s, PublishNodeStats s ∈ (examine url (1689076800 * Second) 0 told).2 /\ length (NewNodes s) = 1%nat.
Proof.
  destruct (examine url (1689076800 * Second) 0 told) as [p' effs] eqn:E.
  assert (forall i, i ∈ fresh told -> is_Some (Peers told !! i)) as Hf.
  { intros i Hi. apply list_elem_of_singleton in Hi as ->. by eexists. }
  destruct (examine_effect url _ _ _ _ _ Hf E) as (_ & _ & _ & _ & H).
  destruct (H ltac:(discriminate)) as (s & Hs & Hl & _). exists s. split; [exact Hs|exact Hl].
Defined.

End Demo.
