(* ===== verification/Workers.v ===== *)
(** * crawler/workers and crawler/crawler/iterator.go: the worker pool, the
    iterators and the work loop

    The pool is a transition system: the monitor goroutine is a program
    counter between its atomic actions, and it runs beside the goroutine of
    [start], the callers of [AddWorker] and the workers. *)

From stdpp Require Import base list relations.
From Stdlib Require Import ZArith Lia Permutation.
From S2P Require Import Prelude Golang.
Open Scope Z_scope.

(** ** workers/base/worker.go *)

Record JobStats {T : Type} := mkJobStats {
  JobDescription : T; JobError : bool; CreatedAt : Z; StartedAt : Z; FinishedAt : Z }.
Arguments JobStats : clear implicits.

(** A worker: its creation and its job, [None] for the empty one, whose job
    does nothing. *)
Record Worker {T : Type} := mkWorker { createdAt : Z; job : option T }.
Arguments Worker : clear implicits.

Definition NewWorker {T} (now : Z) (j : T) : Worker T := mkWorker T now (Some j).
Definition emptyWorker {T} (now : Z) : Worker T := mkWorker T now None.

(** [Run] from [startedAt] to [finishedAt]; [exec] is whether the job fails. *)
Definition Run {T} (startedAt finishedAt : Z) (exec : T -> bool) (w : Worker T) : JobStats (option T) :=
  mkJobStats (option T) (job w) (match job w with Some j => exec j | None => false end)
    (createdAt w) startedAt finishedAt.

Section Pool.
Context {T : Type}.

(** ** workers/base/pool.go *)

(** Where the monitor is: at the top of its loop, before [PendingWorkers] or
    [popWorker] of the first condition, at the [select], and in the loop of
    the ticker before [PendingWorkers], before the load of the counter and
    before [popWorker]; [Exited] has closed [done]. *)
Inductive monitor_pc : Type := Top | TopPending | TopPop | Select_ | TickPending | TickActive | TickPop | Exited.

Record Pool := mkPool {
  workers : list (Worker T);
  target : Z;
  activeWorkers : Z;
  finishedWorkers : Z;
  pc : monitor_pc;
  starting : bool;
  adding : list (Worker T);
  running : list (Worker T);
  finished : list (Worker T);
  spawned : list (Worker T);
  accepted : list (Worker T);
  refused : list (Worker T) }.

Definition NewPool (n : Z) : Pool := mkPool [] (u32 n) 0 0 Top true [] [] [] [] [] [].

Definition with_pc (p : Pool) pc' : Pool :=
  mkPool (workers p) (target p) (activeWorkers p) (finishedWorkers p) pc' (starting p) (adding p) (running p)
    (finished p) (spawned p) (accepted p) (refused p).

Definition spawnWorker (p : Pool) (w : Worker T) : Pool :=
  mkPool (workers p) (target p) (u32 (activeWorkers p + 1)) (finishedWorkers p) (pc p) (starting p) (adding p)
    (running p ++ [w]) (finished p) (spawned p ++ [w]) (accepted p) (refused p).

Definition set_workers (p : Pool) ws : Pool :=
  mkPool ws (target p) (activeWorkers p) (finishedWorkers p) (pc p) (starting p) (adding p) (running p)
    (finished p) (spawned p) (accepted p) (refused p).

Definition popWorker (now : Z) (p : Pool) : Pool * Worker T :=
  match workers p with
  | [] => (p, emptyWorker now)
  | x :: ws => (set_workers p ws, x)
  end.

Definition pop_and_spawn (now : Z) (p : Pool) : Pool :=
  let '(p', w) := popWorker now p in spawnWorker p' w.

(** [start], with the lock for the whole of it. *)
Definition start (p : Pool) : Pool :=
  let p1 := foldl spawnWorker p (workers p) in
  mkPool [] (target p1) (activeWorkers p1) (finishedWorkers p1) (pc p1) false (adding p1) (running p1)
    (finished p1) (spawned p1) (accepted p1) (refused p1).

(** [addWorker], of a worker the monitor received from its caller. *)
Definition addWorker (p : Pool) (a1 : list (Worker T)) (w : Worker T) (a2 : list (Worker T)) : Pool :=
  mkPool (workers p ++ [w]) (target p) (activeWorkers p) (finishedWorkers p) (pc p) (starting p) (a1 ++ a2)
    (running p) (finished p) (spawned p) (accepted p ++ [w]) (refused p).

Definition PendingWorkers (p : Pool) : Z := Z.of_nat (length (workers p)).
Definition RunningWorkers (p : Pool) : Z := activeWorkers p.
Definition FinishedWorkers (p : Pool) : Z := finishedWorkers p.

Inductive pool_step (p : Pool) : Pool -> Prop :=
| pl_start : starting p = true -> pool_step p (start p)
| pl_AddWorker now j :
    pool_step p (mkPool (workers p) (target p) (activeWorkers p) (finishedWorkers p) (pc p) (starting p)
                   (adding p ++ [NewWorker now j]) (running p) (finished p) (spawned p) (accepted p) (refused p))
| pl_AddWorker_done a1 w a2 :
    adding p = a1 ++ w :: a2 -> pc p = Exited ->
    pool_step p (mkPool (workers p) (target p) (activeWorkers p) (finishedWorkers p) (pc p) (starting p)
                   (a1 ++ a2) (running p) (finished p) (spawned p) (accepted p) (refused p ++ [w]))
| pl_top : pc p = Top ->
    pool_step p (with_pc p (if activeWorkers p <? target p then TopPending else Select_))
| pl_top_pending : pc p = TopPending ->
    pool_step p (with_pc p (if 0 <? PendingWorkers p then TopPop else Select_))
| pl_top_pop now : pc p = TopPop -> pool_step p (with_pc (pop_and_spawn now p) Select_)
| pl_exit : pc p = Select_ -> pool_step p (with_pc p Exited)
| pl_add a1 w a2 : pc p = Select_ -> adding p = a1 ++ w :: a2 -> pool_step p (with_pc (addWorker p a1 w a2) Top)
| pl_tick : pc p = Select_ -> pool_step p (with_pc p TickPending)
| pl_tick_pending : pc p = TickPending ->
    pool_step p (with_pc p (if PendingWorkers p =? 0 then Top else TickActive))
| pl_tick_active : pc p = TickActive ->
    pool_step p (with_pc p (if activeWorkers p =? target p then Top else TickPop))
| pl_tick_pop now : pc p = TickPop -> pool_step p (with_pc (pop_and_spawn now p) TickPending)
| pl_finish r1 w r2 :
    running p = r1 ++ w :: r2 ->
    pool_step p (mkPool (workers p) (target p) (u32 (activeWorkers p + (2 ^ 32 - 1)))
                   (u32 (finishedWorkers p + 1)) (pc p) (starting p) (adding p) (r1 ++ r2)
                   (finished p ++ [w]) (spawned p) (accepted p) (refused p)).

(** ** crawler/iterator.go, read by runner.recv

    [pushing] are the pushes (callers of [SimpleIterator.Push], goroutines of
    [GoIterator.Push]) at their select; [taken] are the values [Next] gave to
    workers that have not looked at [Stopped] yet. *)
Record Iterator := mkIterator {
  stopped : bool; closed : bool; stopping : bool;
  pushed : list T; pushing : list T; taken : list T; processed : list T; lost : list T; abandoned : list T }.

Definition NewIterator : Iterator := mkIterator false false false [] [] [] [] [] [].

Inductive it_step (i : Iterator) : outcome Iterator -> Prop :=
| it_push t :
    it_step i (Ok (mkIterator (stopped i) (closed i) (stopping i) (pushed i ++ [t]) (pushing i ++ [t]) (taken i)
                     (processed i) (lost i) (abandoned i)))
| it_next p1 t p2 :
    pushing i = p1 ++ t :: p2 ->
    it_step i (Ok (mkIterator (stopped i) (closed i) (stopping i) (pushed i) (p1 ++ p2) (taken i ++ [t])
                     (processed i) (lost i) (abandoned i)))
| it_push_closed p1 t p2 :
    pushing i = p1 ++ t :: p2 -> closed i = true ->
    it_step i (Ok (mkIterator (stopped i) (closed i) (stopping i) (pushed i) (p1 ++ p2) (taken i)
                     (processed i) (lost i) (abandoned i ++ [t])))
| it_recv t1 t t2 :
    taken i = t1 ++ t :: t2 -> stopped i = false ->
    it_step i (Ok (mkIterator (stopped i) (closed i) (stopping i) (pushed i) (pushing i) (t1 ++ t2)
                     (processed i ++ [t]) (lost i) (abandoned i)))
| it_recv_stopped t1 t t2 :
    taken i = t1 ++ t :: t2 -> stopped i = true ->
    it_step i (Ok (mkIterator (stopped i) (closed i) (stopping i) (pushed i) (pushing i) (t1 ++ t2)
                     (processed i) (lost i ++ [t]) (abandoned i)))
| it_Stop :
    stopped i = false ->
    it_step i (Ok (mkIterator true (closed i) true (pushed i) (pushing i) (taken i)
                     (processed i) (lost i) (abandoned i)))
| it_close :
    stopping i = true ->
    it_step i (if closed i then Panic CloseOfClosedChannel else
      Ok (mkIterator (stopped i) true false (pushed i) (pushing i) (taken i)
                     (processed i) (lost i) (abandoned i))).

End Pool.
Arguments Pool : clear implicits.
Arguments Iterator : clear implicits.

(** ** workers/runner/item.go: items and when they were made, in microseconds *)

Record Item {T : Type} := mkItem { item_ts : Z; item_data : T }.
Arguments Item : clear implicits.

Definition UnixMicro (ns : Z) : Z := ns / 1000.
Definition NewItem {T} (now : Z) (value : T) : Item T := mkItem T (UnixMicro now) value.
Definition NewItemWithTs {T} (value : T) (ts : Z) : Item T := mkItem T (UnixMicro ts) value.
Definition GetData {T} (i : Item T) : T := item_data i.
Definition CreationTime {T} (i : Item T) : Z := item_ts i * 1000.

(** An item is at most a microsecond older than it is. *)
Lemma CreationTime_precise {T} now (value : T) : CreationTime (NewItem now value) <= now < CreationTime (NewItem now value) + 1000.
Proof. unfold CreationTime, NewItem, UnixMicro. simpl. pose proof (Z.div_mod now 1000). pose proof (Z.mod_pos_bound now 1000). lia. Qed.

(** ** workers/runner/runner.go: the work loop *)

Section Runner.
Context {T Y : Type}.

(** What [recv] gives: the context's error, the error "stopped" together with
    the item that [Next] gave, which nobody looks at, or an item. *)
Inductive received : Type := CtxDone | Stopped (t : T) | Received (t : T).

Definition recv (ctx_done : bool) (next : T) (stopped : bool) : received :=
  if ctx_done then CtxDone else if stopped then Stopped next else Received next.

(** The calls of the recorder, without the times. *)
Inductive record_call : Type := RecvTime | OpTime | WriteTime | Loop.

#[export] Instance record_call_eq_dec : EqDecision record_call.
Proof. solve_decision. Defined.

(** [workLoop] over the results of [recv]: the items given to [OnData], the
    results pushed, the calls of the recorder, and whether it returned. *)
Fixpoint workLoop (write : bool) (OnData : T -> option Y) (rs : list received)
    : list T * list Y * list record_call * bool :=
  match rs with
  | [] => ([], [], [], false)
  | CtxDone :: _ | Stopped _ :: _ => ([], [], [], true)
  | Received obj :: rs' =>
      let '(ts, ys, calls, returned) := workLoop write OnData rs' in
      let out := if write then option_list (OnData obj) else [] in
      let extra := if write then match OnData obj with Some _ => [OpTime] | None => [] end else [] in
      (obj :: ts, out ++ ys, [RecvTime; OpTime] ++ extra ++ [Loop] ++ calls, returned)
  end.

End Runner.
Arguments received : clear implicits.
