(* ===== verification/WorkersProps.v ===== *)
(** * Properties of the worker pool, the iterators and the work loop *)

From stdpp Require Import base list relations.
From Stdlib Require Import ZArith Lia Permutation.
From S2P Require Import Prelude Golang Workers.
Open Scope Z_scope.

Section Pool.
Context {T : Type}.
Implicit Types p : Pool T.

Definition has_job (w : Worker T) : Prop := is_Some (job w).

#[local] Instance has_job_dec w : Decision (has_job w).
Proof. unfold has_job. apply _. Defined.

(** ** Where each worker is, in every interleaving *)

Record pool_inv p : Prop := {
  pi_where : Permutation (spawned p) (running p ++ finished p);
  pi_fifo : filter has_job (spawned p) ++ workers p = accepted p;
  pi_jobs : Forall has_job (workers p ++ adding p);
  pi_active : activeWorkers p = u32 (Z.of_nat (length (running p)));
  pi_finished : finishedWorkers p = u32 (Z.of_nat (length (finished p))) }.

Lemma foldl_spawn ws p :
  foldl spawnWorker p ws =
    mkPool (workers p) (target p) (fold_left (fun z _ => u32 (z + 1)) ws (activeWorkers p)) (finishedWorkers p)
      (pc p) (starting p) (adding p) (running p ++ ws) (finished p) (spawned p ++ ws) (accepted p) (refused p).
Proof.
  revert p. induction ws as [|w ws IH]; intros p; simpl; [destruct p; simpl; by rewrite !app_nil_r|].
  rewrite IH. unfold spawnWorker; simpl. by rewrite <- !(assoc_L (++)).
Qed.

Lemma fold_count (ws : list (Worker T)) n :
  fold_left (fun z _ => u32 (z + 1)) ws (u32 n) = u32 (n + Z.of_nat (length ws)).
Proof.
  revert n. induction ws as [|w ws IH]; intros n; simpl; [f_equal; lia|]. rewrite u32_add, IH. f_equal. lia.
Qed.

Lemma filter_all_jobs (ws : list (Worker T)) : Forall has_job ws -> filter has_job ws = ws.
Proof. induction 1 as [|w ws Hw _ IH]; [done|]. rewrite filter_cons, decide_True by done. by rewrite IH. Qed.

Lemma with_pc_inv p c : pool_inv p -> pool_inv (with_pc p c).
Proof. intros []. by constructor. Qed.

Lemma spawn_inv p w :
  Permutation (spawned p) (running p ++ finished p) ->
  Permutation (spawned (spawnWorker p w)) (running (spawnWorker p w) ++ finished (spawnWorker p w)).
Proof. intros H. simpl. rewrite H. solve_Permutation. Qed.

Lemma pop_and_spawn_inv now p : pool_inv p -> pool_inv (pop_and_spawn now p).
Proof.
  intros [H1 H2 H3 H4 H5]. unfold pop_and_spawn, popWorker.
  destruct (workers p) as [|x ws] eqn:Ew.
  - constructor; [by apply spawn_inv|..]; simpl; try done; try by rewrite Ew.
    + rewrite filter_app, filter_cons, decide_False by (intros [? ?]; done). by rewrite filter_nil, app_nil_r, Ew.
    + rewrite H4, u32_add. f_equal. rewrite length_app. simpl. lia.
  - simpl in H3. apply Forall_cons in H3 as [Hx H3].
    constructor; [apply spawn_inv; done|..]; simpl; try done.
    + rewrite filter_app, filter_cons, decide_True by done. by rewrite filter_nil, <- (assoc_L (++)).
    + rewrite H4, u32_add. f_equal. rewrite length_app. simpl. lia.
Qed.

Lemma start_inv p : pool_inv p -> pool_inv (start p).
Proof.
  intros [H1 H2 H3 H4 H5]. unfold start. rewrite foldl_spawn. apply Forall_app in H3 as [H3 H3'].
  constructor; simpl; try done.
  - rewrite H1. solve_Permutation.
  - rewrite filter_app, (filter_all_jobs (workers p)), app_nil_r by done. done.
  - rewrite H4, fold_count, length_app. f_equal. lia.
Qed.

Lemma pool_step_preserves p p' : pool_inv p -> pool_step p p' -> pool_inv p'.
Proof.
  intros Hi Hs. destruct Hs; try (by apply with_pc_inv); try (by apply with_pc_inv, pop_and_spawn_inv).
  - by apply start_inv.
  - destruct Hi as [H1 H2 H3 H4 H5]. constructor; simpl; try done.
    rewrite (assoc_L (++)). apply Forall_app. split; [done|]. constructor; [by eexists|constructor].
  - destruct Hi as [H1 H2 H3 H4 H5]. constructor; simpl; try done. rewrite H in H3.
    rewrite Permutation_app_comm, <- Permutation_middle in H3. rewrite Permutation_app_comm.
    by apply Forall_cons in H3 as [_ H3].
  - apply with_pc_inv. destruct Hi as [H1 H2 H3 H4 H5]. constructor; simpl; try done.
    + by rewrite (assoc_L (++)), H2.
    + rewrite H0 in H3. rewrite <- (assoc_L (++)). simpl. by rewrite (Permutation_middle a1 a2 w).
  - destruct Hi as [H1 H2 H3 H4 H5]. rewrite H in *. constructor; simpl; try done.
    + rewrite H1. solve_Permutation.
    + rewrite H4, u32_pred. f_equal. rewrite !length_app. simpl. lia.
    + rewrite H5, u32_add. f_equal. rewrite length_app. simpl. lia.
Qed.

Lemma NewPool_inv n : pool_inv (NewPool n).
Proof. by constructor. Qed.

Lemma pool_reach_preserves n p : rtc pool_step (NewPool n) p -> pool_inv p.
Proof.
  intros Hr. run_invariant pool_step_preserves. apply NewPool_inv.
Qed.

(** The workers a pool accepts are started once each and in the order
    they were accepted, the others still wait; a worker that was started runs
    or has finished; and the counters give the numbers of both (modulo
    2^32). *)
Theorem pool_runs_in_order n p :
  rtc pool_step (NewPool n) p ->
  filter has_job (spawned p) ++ workers p = accepted p /\
  Permutation (spawned p) (running p ++ finished p) /\
  RunningWorkers p = u32 (Z.of_nat (length (running p))) /\
  FinishedWorkers p = u32 (Z.of_nat (length (finished p))).
Proof. intros [H1 H2 H3 H4 H5]%pool_reach_preserves. done. Qed.

(** ** The bound on running workers *)

Record bound_inv (n : Z) p : Prop := {
  bi_pool : pool_inv p;
  bi_target : target p = n;
  bi_started : starting p = false;
  bi_bound : Z.of_nat (length (running p)) <= n;
  bi_room : pc p = TopPending \/ pc p = TopPop \/ pc p = TickPop -> Z.of_nat (length (running p)) < n;
  bi_pending : pc p = TopPop \/ pc p = TickActive \/ pc p = TickPop -> workers p <> [];
  bi_jobs : Forall has_job (spawned p) }.

Lemma bound_active n p : 0 <= n < 2 ^ 32 -> bound_inv n p -> activeWorkers p = Z.of_nat (length (running p)).
Proof. intros Hn Hi. rewrite (pi_active _ (bi_pool _ _ Hi)). apply wrap_u_small. pose proof (bi_bound _ _ Hi). lia. Qed.

Lemma pop_and_spawn_bound n now p c :
  bound_inv n p -> pc p = TopPop \/ pc p = TickPop -> c = Select_ \/ c = TickPending ->
  bound_inv n (with_pc (pop_and_spawn now p) c).
Proof.
  intros Hi Hpc Hc. pose proof (pop_and_spawn_inv now p (bi_pool _ _ Hi)) as Hp.
  destruct Hi as [H1 H2 H3 H4 H5 H6 H7]. pose proof (pi_jobs _ H1) as Hj.
  specialize (H5 ltac:(tauto)). specialize (H6 ltac:(tauto)).
  unfold pop_and_spawn, popWorker in *. destruct (workers p) as [|x ws]; [done|].
  simpl in Hj. apply Forall_cons in Hj as [Hx Hj].
  constructor; simpl; try done.
  - by apply with_pc_inv.
  - rewrite length_app. simpl. lia.
  - destruct Hc as [-> | ->]; naive_solver.
  - destruct Hc as [-> | ->]; naive_solver.
  - apply Forall_app. split; [done|]. by constructor.
Qed.

Lemma bound_step n p p' : 0 <= n < 2 ^ 32 -> bound_inv n p -> pool_step p p' -> bound_inv n p'.
Proof.
  intros Hn Hi Hs. pose proof (pool_step_preserves _ _ (bi_pool _ _ Hi) Hs) as Hp'.
  pose proof (bound_active _ _ Hn Hi) as Ha. pose proof Hi as [H1 H2 H3 H4 H5 H6 H7].
  destruct Hs as [Hst|now j|a1 w a2 Hadd Hpc|Hpc|Hpc|now Hpc|Hpc|a1 w a2 Hpc Hadd|Hpc|Hpc|Hpc|now Hpc|r1 w r2 Hr];
    try (apply pop_and_spawn_bound; tauto); try congruence.
  - by constructor.
  - by constructor.
  - constructor; simpl; try done; destruct (Z.ltb_spec (activeWorkers p) (target p)); naive_solver lia.
  - constructor; simpl; try done; unfold PendingWorkers in *;
      destruct (Z.ltb_spec 0 (Z.of_nat (length (workers p)))) as [Hl|Hl]; try naive_solver lia.
    intros _ Hw. rewrite Hw in Hl. simpl in Hl. lia.
  - constructor; simpl; try done; naive_solver.
  - constructor; simpl; try done; naive_solver.
  - constructor; simpl; try done; naive_solver.
  - constructor; simpl; try done; unfold PendingWorkers in *;
      destruct (Z.eqb_spec (Z.of_nat (length (workers p))) 0) as [Hl|Hl]; try naive_solver.
    intros _ Hw. by rewrite Hw in Hl.
  - constructor; simpl; try done; destruct (Z.eqb_spec (activeWorkers p) (target p)) as [Hl|Hl]; try naive_solver.
    intros _. lia.
  - rewrite Hr in *. constructor; simpl; try done.
    + rewrite length_app in *. simpl in H4. lia.
    + intros Hpc. specialize (H5 Hpc). rewrite length_app in *. simpl in H5. lia.
Qed.

Lemma bound_reach n p : 0 <= n < 2 ^ 32 -> rtc pool_step (start (NewPool n)) p -> bound_inv n p.
Proof.
  intros Hn Hr. assert (bound_inv n (start (NewPool n))) as Hi.
  { constructor; simpl; try done; [by apply (wrap_u_small 32)|lia|naive_solver|naive_solver]. }
  revert Hi Hr. apply rtc_invariant. intros a b Ha Hab. by eapply bound_step.
Qed.

(** C13: When the goroutine of [start] ran before any worker was added, a
    pool never runs more workers than its target, and never starts the empty
    worker in place of one. *)
Theorem pool_bounded n p :
  0 <= n < 2 ^ 32 -> rtc pool_step (start (NewPool n)) p ->
  Z.of_nat (length (running p)) <= n /\ Forall has_job (spawned p).
Proof. intros Hn Hr. destruct (bound_reach n p Hn Hr). done. Qed.

End Pool.

(** ** The iterators *)

Section Iterator.
Context {T : Type}.
Implicit Types i : Iterator T.

Definition it_ok i i' : Prop := it_step i (Ok i').

Record it_inv i : Prop := {
  ii_where : Permutation (pushed i) (pushing i ++ taken i ++ processed i ++ lost i ++ abandoned i);
  ii_lost : stopped i = false -> lost i = [] /\ abandoned i = [];
  ii_closed : closed i = true -> stopped i = true /\ stopping i = false;
  ii_stopping : stopping i = true -> stopped i = true }.

Lemma it_step_inv i i' : it_inv i -> it_ok i i' -> it_inv i'.
Proof.
  intros [H1 H2 H3 H4] Hs. unfold it_ok in Hs.
  inversion Hs as [t He|p1 t p2 Hp He|p1 t p2 Hp Hc He|t1 t t2 Ht Hst He|t1 t t2 Ht Hst He|Hst He|Hst He];
    subst; clear Hs.
  - constructor; simpl; try done. rewrite H1. solve_Permutation.
  - constructor; simpl; try done. rewrite H1, Hp. solve_Permutation.
  - destruct (H3 Hc) as [Hst _]. constructor; simpl; try done; [|by rewrite Hst].
    rewrite H1, Hp. solve_Permutation.
  - constructor; simpl; try done. rewrite H1, Ht. solve_Permutation.
  - constructor; simpl; try done; [|by rewrite Hst]. rewrite H1, Ht. solve_Permutation.
  - constructor; simpl; try done. intros Hc. destruct (H3 Hc). congruence.
  - destruct (closed i) eqn:Ec; [done|]. simplify_eq. constructor; simpl; try done. intros _. split; [by apply H4|done].
Qed.

Lemma it_reach_inv i : rtc it_ok NewIterator i -> it_inv i.
Proof.
  intros Hr. run_invariant it_step_inv. by constructor.
Qed.

(** Every item pushed to an iterator is in one place: still offered,
    taken by a worker that has not decided, processed, or, only once the
    iterator is stopped, dropped by its pusher or by the worker that took it.
    Stopping twice or concurrently does not panic. *)
Theorem items_conserved i :
  rtc it_ok NewIterator i ->
  Permutation (pushed i) (pushing i ++ taken i ++ processed i ++ lost i ++ abandoned i) /\
  (stopped i = false -> Permutation (pushed i) (pushing i ++ taken i ++ processed i)) /\
  (forall w : panic, ~ it_step i (Panic w)).
Proof.
  intros [H1 H2 H3 H4]%it_reach_inv. split_and!; [done| |].
  - intros Hs. destruct (H2 Hs) as [Hl Ha]. by rewrite H1, Hl, Ha, !app_nil_r.
  - intros w Hs. inversion Hs as [| | | | | |Hst He]. destruct (closed i) eqn:Ec; [|done].
    destruct (H3 eq_refl). congruence.
Qed.

End Iterator.

(** ** The work loop *)

Section Runner.
Context {T Y : Type}.

(** The items received before the first error. *)
Fixpoint before_error (rs : list (received T)) : list T :=
  match rs with Received t :: rs' => t :: before_error rs' | _ => [] end.

(** The work loop processes the items it receives, in order, until [recv]
    first fails, and then returns; with [write] it passes on exactly the
    results of the items that did not fail, in order; and it never records a
    write time: the time of the push is recorded as a second operation. *)
Theorem workLoop_result write (OnData : T -> option Y) rs ts ys calls returned :
  workLoop write OnData rs = (ts, ys, calls, returned) ->
  ts = before_error rs /\ ys = (if write then omap OnData ts else []) /\
  (returned = true <-> exists r, r ∈ rs /\ forall t, r <> Received t) /\
  WriteTime ∉ calls /\
  length (filter (fun c => c = OpTime) calls) = (length ts + length ys)%nat.
Proof.
  revert ts ys calls returned. induction rs as [|[|t|t] rs IH]; intros ts ys calls returned; simpl.
  - intros [= <- <- <- <-]. split; [done|]. split; [by destruct write|]. split.
    { split; [done|]. intros (r & Hr & _). by apply elem_of_nil in Hr. }
    split; [by intros ?%elem_of_nil|done].
  - intros [= <- <- <- <-]. split; [done|]. split; [by destruct write|]. split.
    { split; [|done]. intros _. exists CtxDone. split; [by left|done]. }
    split; [by intros ?%elem_of_nil|done].
  - intros [= <- <- <- <-]. split; [done|]. split; [by destruct write|]. split.
    { split; [|done]. intros _. exists (Stopped t). split; [by left|done]. }
    split; [by intros ?%elem_of_nil|done].
  - destruct (workLoop write OnData rs) as [[[ts' ys'] calls'] ret'].
    destruct (IH _ _ _ _ eq_refl) as (-> & Hys & Hret & Hw & Ho). intros [= <- <- <- <-].
    split; [done|]. split; [|split; [|split]].
    + rewrite Hys. destruct write; [|done]. simpl. by destruct (OnData t).
    + rewrite Hret. split; intros (r & Hr & Hn).
      * exists r. split; [by right|done].
      * apply elem_of_cons in Hr as [->|Hr]; [by destruct (Hn t)|]. by exists r.
    + destruct write; [destruct (OnData t)|]; simpl; rewrite !elem_of_cons; naive_solver.
    + destruct write; [destruct (OnData t)|]; cbn [option_list app length];
        rewrite !filter_cons; repeat case_decide; try done; cbn [length]; rewrite Ho; simpl; lia.
Qed.

End Runner.

(** ** Concrete runs *)

Module Demo.

(** When [start] runs late, after workers were added, it starts them without
    looking at the target, and the ticker, which waits for equality, then
    starts all the others. *)
Definition w (i : nat) : Worker nat := NewWorker 0 i.
Definition at_ (c : monitor_pc) (pend : list (Worker nat)) (act : Z) (st : bool) (run : list (Worker nat)) acc : Pool nat :=
  mkPool pend 1 act 0 c st [] run [] run acc [].

Lemma add_worker (p : Pool nat) i :
  pc p = Select_ -> adding p = [] ->
  rtc pool_step p (with_pc (addWorker p [] (w i) []) Top).
Proof.
  intros Hpc Ha. eapply rtc_l; [by apply (pl_AddWorker p 0 i)|]. eapply rtc_l.
  - apply (pl_add _ [] (w i) []); [done|]. simpl. by rewrite Ha.
  - destruct p; simpl in *; subst. apply rtc_refl.
Qed.

Lemma late_start_ignores_target :
  exists p, rtc pool_step (NewPool (T := nat) 1) p /\ target p = 1 /\ RunningWorkers p = 3.
Proof.
  exists (at_ TickPending [] 3 false [w 0; w 1; w 2] [w 0; w 1; w 2]). split; [|done].
  eapply rtc_l; [by apply pl_top|]. eapply rtc_l; [by apply pl_top_pending|].
  etransitivity; [by apply (add_worker _ 0)|].
  eapply rtc_l; [by apply pl_top|]. eapply rtc_l; [by apply pl_top_pending|].
  eapply rtc_l; [by apply (pl_top_pop _ 0)|].
  etransitivity; [by apply (add_worker _ 1)|].
  eapply rtc_l; [by apply pl_start|]. eapply rtc_l; [by apply pl_top|].
  etransitivity; [by apply (add_worker _ 2)|].
  eapply rtc_l; [by apply pl_top|].
  eapply rtc_l; [by apply pl_tick|]. eapply rtc_l; [by apply pl_tick_pending|].
  eapply rtc_l; [by apply pl_tick_active|]. eapply rtc_l; [by apply (pl_tick_pop _ 0)|].
  apply rtc_refl.
Qed.

Definition two_running : Pool nat := at_ TickPending [w 2] 2 false [w 0; w 1] [w 0; w 1; w 2].

Lemma one_started : rtc pool_step (start (NewPool (T := nat) 1)) (at_ Select_ [] 1 false [w 0] [w 0]).
Proof.
  eapply rtc_l; [by apply pl_top|]. eapply rtc_l; [by apply pl_top_pending|].
  etransitivity; [by apply (add_worker _ 0)|].
  eapply rtc_l; [by apply pl_top|]. eapply rtc_l; [by apply pl_top_pending|].
  eapply rtc_l; [by apply (pl_top_pop _ 0)|]. apply rtc_refl.
Qed.

Lemma pool_runs_in_order_witness :
  rtc pool_step (NewPool (T := nat) 1) (at_ Select_ [] 1 false [w 0] [w 0]) /\ RunningWorkers (at_ Select_ [] 1 false [w 0] [w 0]) = u32 1.
Proof.
  assert (rtc pool_step (NewPool (T := nat) 1) (at_ Select_ [] 1 false [w 0] [w 0])) as Hr.
  { eapply rtc_l; [by apply pl_start|apply one_started]. }
  split; [exact Hr|]. exact (proj1 (proj2 (proj2 (pool_runs_in_order 1 _ Hr)))).
Defined.

Lemma pool_bounded_witness :
  Z.of_nat (length (running (at_ Select_ [] 1 false [w 0] [w 0]))) <= 1.
Proof. refine (proj1 (pool_bounded 1 _ _ one_started)). lia. Defined.

Definition offered : Iterator nat := mkIterator false false false [7%nat] [7%nat] [] [] [] [].

Lemma items_conserved_witness :
  rtc it_ok NewIterator offered /\ Permutation (pushed offered) (pushing offered ++ taken offered ++ processed offered).
Proof.
  assert (rtc it_ok (NewIterator (T := nat)) offered) as Hr by (eapply rtc_l; [apply (it_push _ 7%nat)|apply rtc_refl]).
  split; [exact Hr|]. exact (proj1 (proj2 (items_conserved _ Hr)) eq_refl).
Defined.

Lemma workLoop_result_witness :
  let r := workLoop true (fun n : nat => if decide (n = 2)%nat then None else Some n)
             [Received 1; Received 2; Received 3; Stopped 4]%nat in
  r = (r.1.1.1, r.1.1.2, r.1.2, r.2) /\ r.1.1.2 = [1; 3]%nat.
Proof.
  intros r. assert (r = (r.1.1.1, r.1.1.2, r.1.2, r.2)) as H by reflexivity.
  split; [exact H|]. rewrite (proj1 (proj2 (workLoop_result _ _ _ _ _ _ _ H))). reflexivity.
Defined.

End Demo.
