(* ===== verification/Lifecycle.v ===== *)
(** * Starting and stopping: runner.go

    A [sync.WaitGroup] is its counter.  The life of a runner is a transition
    system of the goroutine of [Start], the callers of [Stop] and [Wait], and
    the workers, whose loop is [Workers.workLoop]. *)

From Stdlib Require Import ZArith Lia.
From stdpp Require Import base list relations.
From S2P Require Import Prelude Golang.
Open Scope Z_scope.
Open Scope outcome_scope.

(** ** sync.WaitGroup *)

Definition wg_Add (d wg : Z) : outcome Z := if decide (wg + d < 0) then Panic NegativeWaitGroup else Ok (wg + d).
Definition wg_Done (wg : Z) : outcome Z := wg_Add (-1) wg.

(** ** runner.go *)

(** The goroutine of [Start]: it hands [k] more workers to the pool, waits
    for the signal, closes [done], releases the wait group and cancels. *)
Inductive runner_pc : Type := Idle | Adding (k : nat) | AtSig | AtClose | AtDone | AtCancel | Finished.

(** [waiting] workers are with the pool, [looping] are in [loop]; [stoppers]
    are the callers of [Stop] at the select. *)
Record runner := mkRunner {
  wg : Z; main : runner_pc; done_closed : bool; cancelled : bool; it_stopped : bool;
  stoppers : nat; waiting : nat; looping : nat; ended : nat }.

Definition newRunner : runner := mkRunner 0 Idle false false false 0 0 0 0.

Definition set_main (r : runner) pc := mkRunner (wg r) pc (done_closed r) (cancelled r) (it_stopped r) (stoppers r)
  (waiting r) (looping r) (ended r).
Definition set_wg (r : runner) n := mkRunner n (main r) (done_closed r) (cancelled r) (it_stopped r) (stoppers r)
  (waiting r) (looping r) (ended r).
Definition set_stoppers (r : runner) n := mkRunner (wg r) (main r) (done_closed r) (cancelled r) (it_stopped r) n
  (waiting r) (looping r) (ended r).
Definition set_workers (r : runner) w l e := mkRunner (wg r) (main r) (done_closed r) (cancelled r) (it_stopped r)
  (stoppers r) w l e.

Definition Start (threads : nat) (r : runner) : outcome runner :=
  n ← wg_Add 1 (wg r); Ok (set_main (set_wg r n) (Adding threads)).

Definition close_done (r : runner) : outcome runner :=
  if done_closed r then Panic CloseOfClosedChannel
  else Ok (mkRunner (wg r) AtDone true (cancelled r) (it_stopped r) (stoppers r) (waiting r) (looping r) (ended r)).

Definition release (r : runner) : outcome runner := n ← wg_Done (wg r); Ok (set_main (set_wg r n) AtCancel).

Definition cancel (r : runner) : runner :=
  mkRunner (wg r) Finished (done_closed r) true (it_stopped r) (stoppers r) (waiting r) (looping r) (ended r).

(** The job of a worker: [wg.Add], the loop, [wg.Done]. *)
Definition begin_job (w : nat) (r : runner) : outcome runner :=
  n ← wg_Add 1 (wg r); Ok (set_workers (set_wg r n) w (S (looping r)) (ended r)).
Definition end_job (l : nat) (r : runner) : outcome runner :=
  n ← wg_Done (wg r); Ok (set_workers (set_wg r n) (waiting r) l (S (ended r))).

(** What the runner's own goroutines do, and the callers in [Stop]. *)
Inductive runner_own (r : runner) : outcome runner -> Prop :=
| rn_add k : main r = Adding (S k) -> runner_own r (Ok (set_workers (set_main r (Adding k)) (S (waiting r)) (looping r) (ended r)))
| rn_added : main r = Adding 0 -> runner_own r (Ok (set_main r AtSig))
| rn_sig n : main r = AtSig -> stoppers r = S n -> runner_own r (Ok (set_main (set_stoppers r n) AtClose))
| rn_stop_done n : done_closed r = true -> stoppers r = S n -> runner_own r (Ok (set_stoppers r n))
| rn_close : main r = AtClose -> runner_own r (close_done r)
| rn_release : main r = AtDone -> runner_own r (release r)
| rn_cancel : main r = AtCancel -> runner_own r (Ok (cancel r))
| rn_begin w : waiting r = S w -> runner_own r (begin_job w r)
| rn_end l : looping r = S l -> cancelled r || it_stopped r = true -> runner_own r (end_job l r).

Definition Stop (r : runner) : runner := if done_closed r then r else set_stoppers r (S (stoppers r)).

Definition stop_iterator (r : runner) : runner :=
  mkRunner (wg r) (main r) (done_closed r) (cancelled r) true (stoppers r) (waiting r) (looping r) (ended r).

Inductive runner_step (r : runner) : outcome runner -> Prop :=
| rn_own o : runner_own r o -> runner_step r o
| rn_start threads : main r = Idle -> runner_step r (Start threads r)
| rn_stop : runner_step r (Ok (Stop r))
| rn_iterator : runner_step r (Ok (stop_iterator r)).

Definition own_ok (r r' : runner) : Prop := runner_own r (Ok r').
Definition runner_ok (r r' : runner) : Prop := runner_step r (Ok r').

Lemma own_runner_ok r r' : rtc own_ok r r' -> rtc runner_ok r r'.
Proof. apply rtc_subrel. intros x y H. by apply rn_own. Qed.

(** [Wait] returns in the states where the counter is zero. *)
Definition wait_returns (r : runner) : Prop := wg r = 0.

(** ** The invariant *)

(** The goroutine of [Start] holds the wait group until [release]. *)
Definition holds (pc : runner_pc) : Z := match pc with Idle | AtCancel | Finished => 0 | _ => 1 end.

Record runner_inv (r : runner) : Prop := {
  ri_wg : wg r = holds (main r) + Z.of_nat (looping r);
  ri_done : done_closed r = match main r with AtDone | AtCancel | Finished => true | _ => false end;
  ri_cancel : cancelled r = match main r with Finished => true | _ => false end;
  ri_idle : main r = Idle -> waiting r = 0%nat /\ looping r = 0%nat }.

Lemma wg_Add_ok d n : 0 <= n + d -> wg_Add d n ⇓ n + d.
Proof. intros. unfold wg_Add. by rewrite decide_False by lia. Qed.

(** Every step succeeds and keeps the invariant. *)
Lemma runner_own_inv r o : runner_inv r -> runner_own r o -> exists r', o ⇓ r' /\ runner_inv r'.
Proof.
  intros [H1 H2 H3 H4] Hs.
  destruct Hs as [k Hm|Hm|n Hm Hn|n Hd Hn|Hm|Hm|Hm|w Hw|l Hl Hc].
  - eexists. split; [reflexivity|]. rewrite Hm in *. by constructor.
  - eexists. split; [reflexivity|]. rewrite Hm in *. by constructor.
  - eexists. split; [reflexivity|]. rewrite Hm in *. by constructor.
  - eexists. split; [reflexivity|]. by constructor.
  - unfold close_done. rewrite H2, Hm in *. eexists. split; [reflexivity|]. by constructor.
  - unfold release, wg_Done. rewrite Hm in *. simpl in *. rewrite wg_Add_ok by lia. eexists. split; [reflexivity|].
    constructor; simpl; try done; lia.
  - eexists. split; [reflexivity|]. rewrite Hm in *. by constructor.
  - unfold begin_job. assert (0 <= holds (main r)) by by destruct (main r).
    rewrite wg_Add_ok by lia. eexists. split; [reflexivity|].
    constructor; simpl; try done; [lia|]. intros Hi. destruct (H4 Hi). lia.
  - unfold end_job, wg_Done. assert (0 <= holds (main r)) by by destruct (main r).
    rewrite wg_Add_ok by lia. eexists. split; [reflexivity|].
    constructor; simpl; try done; [lia|]. intros Hi. destruct (H4 Hi). lia.
Qed.

Lemma Start_inv r threads : runner_inv r -> main r = Idle -> exists r', Start threads r ⇓ r' /\ runner_inv r' /\
  r' = set_main (set_wg r 1) (Adding threads).
Proof.
  intros [H1 H2 H3 H4] Hm. unfold Start. destruct (H4 Hm) as [_ Hl]. rewrite Hm, Hl in *. simpl in *.
  rewrite H1. eexists. split; [reflexivity|]. split; [|done]. constructor; simpl; try done; lia.
Qed.

Lemma Stop_inv r : runner_inv r -> runner_inv (Stop r).
Proof. intros [H1 H2 H3 H4]. unfold Stop. by destruct (done_closed r) eqn:Hd; constructor; simpl; rewrite ?Hd. Qed.

Lemma stop_iterator_inv r : runner_inv r -> runner_inv (stop_iterator r).
Proof. intros []. by constructor. Qed.

Lemma runner_step_inv r o : runner_inv r -> runner_step r o -> exists r', o ⇓ r' /\ runner_inv r'.
Proof.
  intros Hi [o' Hs|th Hm| |].
  - by apply runner_own_inv in Hs.
  - destruct (Start_inv r th Hi Hm) as (r' & ? & ? & _). eauto.
  - eexists. split; [reflexivity|by apply Stop_inv].
  - eexists. split; [reflexivity|by apply stop_iterator_inv].
Qed.

Lemma own_ok_inv r r' : runner_inv r -> own_ok r r' -> runner_inv r'.
Proof. intros Hi Hs. destruct (runner_own_inv _ _ Hi Hs) as (x & [= <-] & Hx). done. Qed.

Lemma runner_ok_inv r r' : runner_inv r -> runner_ok r r' -> runner_inv r'.
Proof. intros Hi Hs. destruct (runner_step_inv _ _ Hi Hs) as (x & [= <-] & Hx). done. Qed.

Lemma runner_reach_inv r : rtc runner_ok newRunner r -> runner_inv r.
Proof. intros Hr. run_invariant runner_ok_inv. by constructor. Qed.

(** No interleaving of [Start], any number of [Stop]s and the workers
    panics: [done] is closed once and the wait group never becomes negative.
    When [Wait] returns after a start, [done] is closed and no worker is in
    its loop. *)
Theorem runner_safe r :
  rtc runner_ok newRunner r ->
  (forall p, ~ runner_step r (Panic p)) /\
  (wait_returns r -> main r <> Idle -> done_closed r = true /\ looping r = 0%nat).
Proof.
  intros Hi%runner_reach_inv. split.
  - intros p Hs. by destruct (runner_step_inv _ _ Hi Hs) as (? & ? & _).
  - intros Hw Hm. unfold wait_returns in Hw. rewrite (ri_wg _ Hi) in Hw.
    assert (0 <= holds (main r)) by by destruct (main r).
    split; [|lia]. rewrite (ri_done _ Hi). destruct (main r); simpl in *; try done; lia.
Qed.

(** ** Stopping ends *)

Lemma drain_workers r :
  runner_inv r -> main r = Finished -> exists r', rtc own_ok r r' /\ main r' = Finished /\ looping r' = 0%nat.
Proof.
  intros Hi. remember (looping r) as l eqn:El. revert r Hi El.
  induction l as [|l IH]; intros r Hi El Hm; [by exists r|].
  destruct (runner_own_inv _ _ Hi (rn_end r l (eq_sym El) ltac:(by rewrite (ri_cancel _ Hi), Hm)))
    as (r1 & Hr1 & Hi1).
  pose proof (rn_end r l (eq_sym El) ltac:(by rewrite (ri_cancel _ Hi), Hm)) as Hs. rewrite Hr1 in Hs.
  unfold end_job in Hr1. destruct (wg_Done (wg r)) as [n|]; [|done]. injection Hr1 as <-.
  destruct (IH (set_workers (set_wg r n) (waiting r) l (S (ended r))) Hi1 eq_refl Hm) as (r' & Hr & Hr').
  exists r'. split; [|done]. eapply rtc_l; [exact Hs|exact Hr].
Qed.

(** Each of the last actions of the goroutine of [Start] can be taken. *)
Definition closing (pc : runner_pc) : nat :=
  match pc with AtClose => 3 | AtDone => 2 | AtCancel => 1 | _ => 0 end.

Lemma close_down r :
  runner_inv r -> closing (main r) <> 0%nat \/ main r = Finished -> exists r', rtc own_ok r r' /\ main r' = Finished.
Proof.
  intros Hi. remember (closing (main r)) as n eqn:En. revert r Hi En.
  induction n as [|n IH]; intros r Hi En Hm; [by destruct Hm; [|exists r]|].
  assert (exists o, runner_own r o /\ forall r', o ⇓ r' ->
    n = closing (main r') /\ (n <> 0%nat \/ main r' = Finished)) as (o & Hs & Ho).
  { destruct (main r) eqn:Em; simpl in En; try done.
    - exists (close_done r). split; [by apply rn_close|]. intros r'. unfold close_done. destruct (done_closed r); [done|]. intros [= <-]. simpl. lia.
    - exists (release r). split; [by apply rn_release|]. intros r'. unfold release.
      destruct (wg_Done (wg r)); [|done]. intros [= <-]. simpl. lia.
    - exists (Ok (cancel r)). split; [by apply rn_cancel|]. intros r' [= <-]. simpl. split; [lia|by right]. }
  destruct (runner_own_inv _ _ Hi Hs) as (r1 & Hr1 & Hi1). destruct (Ho r1 Hr1) as [Hn1 Hm1].
  destruct (IH r1 Hi1 Hn1 Hm1) as (r' & Hr & Hr'). exists r'. split; [|done].
  rewrite Hr1 in Hs. eapply rtc_l; [exact Hs|exact Hr].
Qed.

Lemma hand_over_workers r k :
  main r = Adding k -> exists r', rtc own_ok r r' /\ main r' = AtSig /\ stoppers r' = stoppers r.
Proof.
  revert r. induction k as [|k IH]; intros r Hm.
  - exists (set_main r AtSig). split; [|done]. by apply rtc_once, rn_added.
  - destruct (IH (set_workers (set_main r (Adding k)) (S (waiting r)) (looping r) (ended r)) eq_refl) as (r' & Hr & Hr').
    exists r'. split; [|done]. eapply rtc_l; [by apply rn_add|exact Hr].
Qed.

(** A caller is in [Stop], or the goroutine of [Start] got its signal. *)
Definition signalled (r : runner) : Prop := stoppers r <> 0%nat \/ closing (main r) <> 0%nat \/ main r = Finished.

(** What the own steps of a runner keep. *)
Lemma own_facts r r' :
  runner_inv r -> own_ok r r' -> main r <> Idle /\ main r' <> Idle /\ it_stopped r' = it_stopped r /\
  (stoppers r' <= stoppers r)%nat /\ (done_closed r = true -> done_closed r' = true) /\
  (signalled r -> signalled r').
Proof.
  intros Hi Hs. pose proof Hi as [H1 H2 H3 H4]. unfold own_ok in Hs.
  inversion Hs as [k Hm Ho|Hm Ho|n Hm Hn Ho|n Hd Hn Ho|Hm Ho|Hm Ho|Hm Ho|w Hw Ho|l Hl Hc Ho]; subst;
    unfold signalled; simpl.
  - rewrite Hm. simpl. split_and!; try done; try lia; naive_solver.
  - rewrite Hm. simpl. split_and!; try done; try lia; naive_solver.
  - rewrite Hm. simpl. split_and!; try done; try lia; naive_solver.
  - assert (main r <> Idle) as Hi0 by (intros Hx; rewrite Hx in *; congruence).
    split_and!; try done; try lia. intros _. right. rewrite Hd in H2. destruct (main r); simpl; auto; congruence.
  - unfold close_done in Ho. destruct (done_closed r) eqn:Hd; simplify_eq. rewrite Hm. simpl. split_and!; try done; try lia; naive_solver.
  - unfold release in Ho. destruct (wg_Done (wg r)) as [x|]; [|done]. injection Ho as <-. simpl. rewrite Hm. simpl. split_and!; try done; try lia; naive_solver.
  - rewrite Hm. simpl. split_and!; try done; try lia; naive_solver.
  - unfold begin_job in Ho. destruct (wg_Add 1 (wg r)) as [x|]; [|done]. injection Ho as <-. simpl.
    assert (main r <> Idle) by (intros Hx; destruct (H4 Hx); lia). by split_and!; try lia.
  - unfold end_job in Ho. destruct (wg_Done (wg r)) as [x|]; [|done]. injection Ho as <-. simpl.
    assert (main r <> Idle) by (intros Hx; destruct (H4 Hx); lia). by split_and!; try lia.
Qed.

(** From a state in which somebody stops it, the goroutine of [Start] can
    finish and the workers can leave their loops. *)
Lemma runner_can_stop r :
  runner_inv r -> main r <> Idle -> signalled r ->
  exists r', rtc own_ok r r' /\ main r' = Finished /\ wait_returns r'.
Proof.
  intros Hi Hm Hn.
  assert (exists r1, rtc own_ok r r1 /\ (closing (main r1) <> 0%nat \/ main r1 = Finished)) as (r1 & Hr1 & Hc).
  { destruct Hn as [Hn|Hn]; [|exists r; split; [apply rtc_refl|done]].
    assert (forall q, main q = AtSig -> stoppers q = stoppers r -> exists q', own_ok q q' /\ main q' = AtClose) as Hsig.
    { intros q Hq Hqs. destruct (stoppers r) as [|n] eqn:Hs; [done|].
      eexists. split; [by eapply rn_sig|done]. }
    destruct (main r) as [|k| | | | |] eqn:Em; try done;
      try (exists r; split; [apply rtc_refl|rewrite Em; simpl; solve [auto]]).
    - destruct (hand_over_workers r k Em) as (q & Hq & Hqm & Hqs).
      destruct (Hsig q Hqm Hqs) as (q' & Hq' & Hm').
      exists q'. split; [by eapply rtc_r|]. left. by rewrite Hm'.
    - destruct (Hsig r Em eq_refl) as (q' & Hq' & Hm').
      exists q'. split; [by apply rtc_once|]. left. by rewrite Hm'. }
  assert (runner_inv r1) as Hi1 by (revert Hi Hr1; apply rtc_invariant, own_ok_inv).
  destruct (close_down r1 Hi1 Hc) as (r2 & Hr2 & Hm2).
  assert (runner_inv r2) as Hi2 by (revert Hi1 Hr2; apply rtc_invariant, own_ok_inv).
  destruct (drain_workers r2 Hi2 Hm2) as (r3 & Hr3 & Hm3 & Hl3).
  exists r3. split; [by repeat (etransitivity; [eassumption|])|]. split; [done|].
  assert (runner_inv r3) as Hi3 by (revert Hi2 Hr3; apply rtc_invariant, own_ok_inv).
  unfold wait_returns. rewrite (ri_wg _ Hi3), Hm3, Hl3. done.
Qed.

(** And then every caller of [Stop] returns. *)
Lemma runner_drains r :
  runner_inv r -> main r <> Idle -> signalled r ->
  exists r', rtc own_ok r r' /\ wait_returns r' /\ stoppers r' = 0%nat.
Proof.
  intros Hi Hm Hn. destruct (runner_can_stop r Hi Hm Hn) as (r1 & Hr1 & Hm1 & Hw1).
  assert (runner_inv r1) as Hi1 by (revert Hi Hr1; apply rtc_invariant, own_ok_inv).
  assert (forall n q, stoppers q = n -> done_closed q = true -> exists q', rtc own_ok q q' /\ wg q' = wg q /\ stoppers q' = 0%nat)
    as Hdrain.
  { induction n as [|n IH]; intros q Hq Hd; [by exists q|].
    destruct (IH (set_stoppers q n) eq_refl Hd) as (q' & Hr & Hw & H0). exists q'.
    split; [|done]. eapply rtc_l; [by eapply rn_stop_done|exact Hr]. }
  destruct (Hdrain _ r1 eq_refl) as (r2 & Hr2 & Hw2 & H0); [by rewrite (ri_done _ Hi1), Hm1|].
  exists r2. split; [by etransitivity|]. unfold wait_returns in *. by rewrite Hw2.
Qed.

(** A runner that was started and that somebody stops can always be
    brought to its end: from every state in which a caller is in [Stop], the
    goroutine of [Start] can finish and the workers can leave their loops, so
    that [Wait] returns. *)
Theorem runner_stops r n :
  rtc runner_ok newRunner r -> main r <> Idle -> stoppers r = S n ->
  exists r', rtc runner_ok r r' /\ main r' = Finished /\ wait_returns r'.
Proof.
  intros Hi%runner_reach_inv Hm Hn.
  destruct (runner_can_stop r Hi Hm) as (r' & Hr & Hr'); [left; by rewrite Hn|].
  exists r'. split; [by apply own_runner_ok|done].
Qed.

(** ** A concrete run: one worker, one stop *)

Module Demo.

Definition stopping : runner := mkRunner 2 AtSig false false false 1 0 1 0.

Lemma stopping_reachable : rtc runner_ok newRunner stopping.
Proof.
  eapply rtc_l; [exact (rn_start newRunner 1 eq_refl)|].
  eapply rtc_l; [by apply rn_own, (rn_add _ 0)|]. eapply rtc_l; [by apply rn_own, rn_added|].
  eapply rtc_l; [exact (rn_own _ _ (rn_begin (mkRunner 1 AtSig false false false 0 1 0 0) 0 eq_refl))|].
  eapply rtc_l; [by apply rn_stop|]. apply rtc_refl.
Qed.

Lemma runner_safe_witness : ~ runner_step stopping (Panic NegativeWaitGroup).
Proof. apply (runner_safe stopping stopping_reachable). Defined.

Lemma runner_stops_witness : exists r', rtc runner_ok stopping r' /\ main r' = Finished /\ wait_returns r'.
Proof. by apply (runner_stops stopping 0 stopping_reachable). Defined.

End Demo.
