(* ===== verification/Seeker.v ===== *)
(** * crawler/crawler/seeker.go: starting and stopping the seeker

    The goroutine of [Start], the event loop and the callers of [Stop], with
    the seeker's runner (Lifecycle.v) as a part of its state.  What the event
    loop does with an event is [Crawler.on_event]. *)

From Stdlib Require Import ZArith Lia.
From stdpp Require Import base list relations.
From S2P Require Import Prelude Golang Lifecycle.
Local Open Scope Z_scope.
Local Open Scope outcome_scope.

(** The goroutine [start]: it waits for the signal, closes [done], and the
    deferred calls cancel the context and run [cleanup] line by line. *)
Inductive seeker_pc : Set :=
| Off | SkSig | SkClose | SkCancel | SkStopDst | SkStopRecv | SkStopRunner | SkInStop | SkInWait | SkDone | Over.

(** The event loop: at its select, in the iterator's [Push], or returned. *)
Inductive event_pc : Set := EvOff | EvSelect | EvPush | EvEnd.

Record seeker := mkSeeker {
  running : bool; pc : seeker_pc; ev : event_pc; s_wg : Z; s_done : bool; s_cancelled : bool;
  dst_stopped : bool; s_stoppers : nat; s_waiters : nat; s_filter : bool; rn : runner }.

Definition NewSeeker (filter : bool) : seeker :=
  mkSeeker false Off EvOff 0 false false false 0 0 filter newRunner.

Definition set_pc (s : seeker) p := mkSeeker (running s) p (ev s) (s_wg s) (s_done s) (s_cancelled s)
  (dst_stopped s) (s_stoppers s) (s_waiters s) (s_filter s) (rn s).
Definition set_ev (s : seeker) e := mkSeeker (running s) (pc s) e (s_wg s) (s_done s) (s_cancelled s)
  (dst_stopped s) (s_stoppers s) (s_waiters s) (s_filter s) (rn s).
Definition set_rn (s : seeker) r := mkSeeker (running s) (pc s) (ev s) (s_wg s) (s_done s) (s_cancelled s)
  (dst_stopped s) (s_stoppers s) (s_waiters s) (s_filter s) r.
Definition set_callers (s : seeker) st w := mkSeeker (running s) (pc s) (ev s) (s_wg s) (s_done s) (s_cancelled s)
  (dst_stopped s) st w (s_filter s) (rn s).

(** [Start]: only the first call does anything.  A missing filter is
    replaced by one that accepts all. *)
Definition seeker_Start (threads : nat) (s : seeker) : outcome seeker :=
  if running s then Ok s
  else
    n ← wg_Add 1 (s_wg s);
    r ← Lifecycle.Start threads newRunner;
    Ok (mkSeeker true SkSig EvSelect n (s_done s) (s_cancelled s) (dst_stopped s) (s_stoppers s) (s_waiters s) true r).

(** [f] tells whether the function is not nil. *)
Definition RegisterFilter (f : bool) (s : seeker) : seeker :=
  if running s then s
  else mkSeeker (running s) (pc s) (ev s) (s_wg s) (s_done s) (s_cancelled s) (dst_stopped s)
         (s_stoppers s) (s_waiters s) f (rn s).

(** [Stop]: at once when [done] is closed, else at the select. *)
Definition seeker_Stop (s : seeker) : seeker :=
  if s_done s then s else set_callers s (S (s_stoppers s)) (s_waiters s).

(** The statements of [start] and [cleanup], one by one. *)
Definition sk_close (s : seeker) : outcome seeker :=
  if s_done s then Panic CloseOfClosedChannel
  else Ok (mkSeeker (running s) SkCancel (ev s) (s_wg s) true (s_cancelled s) (dst_stopped s)
             (s_stoppers s) (s_waiters s) (s_filter s) (rn s)).
Definition sk_cancel (s : seeker) : seeker :=
  mkSeeker (running s) SkStopDst (ev s) (s_wg s) (s_done s) true (dst_stopped s)
    (s_stoppers s) (s_waiters s) (s_filter s) (rn s).
Definition sk_stop_dst (s : seeker) : seeker :=
  mkSeeker (running s) SkStopRecv (ev s) (s_wg s) (s_done s) (s_cancelled s) true
    (s_stoppers s) (s_waiters s) (s_filter s) (rn s).
Definition sk_stop_recv (s : seeker) : seeker := set_rn (set_pc s SkStopRunner) (stop_iterator (rn s)).
Definition sk_stop_runner (s : seeker) : seeker := set_rn (set_pc s SkInStop) (Lifecycle.Stop (rn s)).
Definition sk_release (s : seeker) : outcome seeker :=
  n ← wg_Done (s_wg s);
  Ok (mkSeeker (running s) Over (ev s) n (s_done s) (s_cancelled s) (dst_stopped s)
        (s_stoppers s) (s_waiters s) (s_filter s) (rn s)).

(** The steps of the seeker's own goroutines and of the callers in [Stop]. *)
Inductive seeker_own (s : seeker) : outcome seeker -> Prop :=
| sk_runner o : runner_own (rn s) o -> seeker_own s (r ← o; Ok (set_rn s r))
| sk_sig n : pc s = SkSig -> s_stoppers s = S n ->
    seeker_own s (Ok (set_pc (set_callers s n (S (s_waiters s))) SkClose))
| sk_closed : pc s = SkClose -> seeker_own s (sk_close s)
| sk_cancelled : pc s = SkCancel -> seeker_own s (Ok (sk_cancel s))
| sk_dst : pc s = SkStopDst -> seeker_own s (Ok (sk_stop_dst s))
| sk_recv : pc s = SkStopRecv -> seeker_own s (Ok (sk_stop_recv s))
| sk_stop : pc s = SkStopRunner -> seeker_own s (Ok (sk_stop_runner s))
| sk_stopped : pc s = SkInStop -> stoppers (rn s) = 0%nat -> seeker_own s (Ok (set_pc s SkInWait))
| sk_waited : pc s = SkInWait -> wait_returns (rn s) -> seeker_own s (Ok (set_pc s SkDone))
| sk_done : pc s = SkDone -> seeker_own s (sk_release s)
| sk_late n : s_done s = true -> s_stoppers s = S n -> seeker_own s (Ok (set_callers s n (s_waiters s)))
| sk_return n : s_wg s = 0 -> s_waiters s = S n -> seeker_own s (Ok (set_callers s (s_stoppers s) n))
| ev_pushed : ev s = EvPush -> it_stopped (rn s) = true -> seeker_own s (Ok (set_ev s EvSelect))
| ev_ended : ev s = EvSelect -> s_cancelled s = true -> seeker_own s (Ok (set_ev s EvEnd)).

(** The steps that others cause: calls of the seeker's methods, an event the
    seeker has not seen, and a worker that takes what the loop pushes. *)
Inductive seeker_step (s : seeker) : outcome seeker -> Prop :=
| sk_own o : seeker_own s o -> seeker_step s o
| sk_Start threads : seeker_step s (seeker_Start threads s)
| sk_Stop : seeker_step s (Ok (seeker_Stop s))
| sk_Register f : seeker_step s (Ok (RegisterFilter f s))
| ev_event : ev s = EvSelect -> seeker_step s (Ok (set_ev s EvPush))
| ev_taken : ev s = EvPush -> seeker_step s (Ok (set_ev s EvSelect)).

Definition seeker_own_ok (s s' : seeker) : Prop := seeker_own s (Ok s').
Definition seeker_ok (s s' : seeker) : Prop := seeker_step s (Ok s').

(** ** The invariant *)

(** How far [start] got. *)
Definition stage (p : seeker_pc) : nat :=
  match p with
  | Off => 0 | SkSig => 1 | SkClose => 2 | SkCancel => 3 | SkStopDst => 4 | SkStopRecv => 5
  | SkStopRunner => 6 | SkInStop => 7 | SkInWait => 8 | SkDone => 9 | Over => 10
  end.

Definition after (k : nat) (p : seeker_pc) : bool := bool_decide (k < stage p)%nat.

Record seeker_inv (s : seeker) : Prop := {
  si_running : running s = after 0 (pc s);
  si_wg : s_wg s = if after 0 (pc s) && negb (after 9 (pc s)) then 1 else 0;
  si_done : s_done s = after 2 (pc s);
  si_cancel : s_cancelled s = after 3 (pc s);
  si_dst : dst_stopped s = after 4 (pc s);
  si_waiters : after 1 (pc s) = false -> s_waiters s = 0%nat;
  si_ev : ev s = EvOff <-> after 0 (pc s) = false;
  si_ended : ev s = EvEnd -> after 3 (pc s) = true;
  si_filter : after 0 (pc s) = true -> s_filter s = true }.

(** The runner's state at a stage of [start]. *)
Record runner_at (p : seeker_pc) (r : runner) : Prop := {
  ra_inv : runner_inv r;
  ra_recv : it_stopped r = after 5 p;
  ra_idle : main r = Idle <-> after 0 p = false;
  ra_signalled : after 6 p = true -> signalled r;
  ra_stoppers : after 7 p = true -> stoppers r = 0%nat;
  ra_waited : after 8 p = true -> done_closed r = true }.

Lemma runner_at_own p r r' : runner_at p r -> own_ok r r' -> runner_at p r'.
Proof.
  intros [H1 H2 H3 H4 H5 H6] Hs. destruct (own_facts r r' H1 Hs) as (Hm & Hm' & Hit & Hst & Hd & Hsig).
  constructor; [by eapply own_ok_inv|congruence| |auto| |auto].
  - split; [done|]. intros Ha. by apply H3 in Ha.
  - intros Ha. specialize (H5 Ha). lia.
Qed.

Definition inv (s : seeker) : Prop := seeker_inv s /\ runner_at (pc s) (rn s).

(** [Stop] signals the runner, and [Wait] returns when it closed [done]. *)
Lemma Stop_signals r : runner_inv r -> signalled (Lifecycle.Stop r).
Proof.
  intros Hi. unfold Lifecycle.Stop, signalled. destruct (done_closed r) eqn:Hd; [|by left].
  rewrite (ri_done _ Hi) in Hd. right. destruct (main r); simpl; auto; done.
Qed.

Lemma Stop_fields r :
  main (Lifecycle.Stop r) = main r /\ it_stopped (Lifecycle.Stop r) = it_stopped r.
Proof. unfold Lifecycle.Stop. by destruct (done_closed r). Qed.

Lemma waited_done r : runner_inv r -> main r <> Idle -> wait_returns r -> done_closed r = true.
Proof.
  intros Hi Hm Hw. unfold wait_returns in Hw. rewrite (ri_wg _ Hi) in Hw. rewrite (ri_done _ Hi).
  destruct (main r); simpl in *; try done; lia.
Qed.

(** A step of [start] to the next stage, or of nobody's. *)
Ltac stage_step Hpc := split; constructor; simpl in *; rewrite ?Hpc in *; simpl in *; try done; auto.

Lemma seeker_own_inv s o : inv s -> seeker_own s o -> exists s', o ⇓ s' /\ inv s'.
Proof.
  intros [Hi Hr] Hs. pose proof Hi as [H1 H2 H3 H4 H5 H6 H7 H8 H9]. pose proof Hr as [R1 R2 R3 R4 R5 R6].
  destruct Hs as [o Ho|n Hp Hn|Hp|Hp|Hp|Hp|Hp|Hp Hst|Hp Hw|Hp|n Hd Hn|n Hw Hn|He Hit|He Hc].
  - destruct (runner_own_inv _ _ R1 Ho) as (r & -> & _). eexists. split; [reflexivity|].
    split; [by constructor|by eapply runner_at_own].
  - eexists. split; [reflexivity|]. stage_step Hp.
  - unfold sk_close. rewrite H3, Hp. eexists. split; [reflexivity|]. stage_step Hp.
  - eexists. split; [reflexivity|]. stage_step Hp.
  - eexists. split; [reflexivity|]. stage_step Hp.
  - eexists. split; [reflexivity|]. stage_step Hp. by apply stop_iterator_inv.
  - eexists. split; [reflexivity|]. destruct (Stop_fields (rn s)) as [Hm Hit]. stage_step Hp.
    + by apply Stop_inv.
    + by rewrite Hit.
    + by rewrite Hm.
    + intros _. by apply Stop_signals.
  - eexists. split; [reflexivity|]. stage_step Hp.
  - eexists. split; [reflexivity|]. stage_step Hp.
    intros _. apply waited_done; [done| |done]. rewrite R3. done.
  - unfold sk_release, wg_Done, wg_Add. rewrite H2, Hp. eexists. split; [reflexivity|]. stage_step Hp.
  - eexists. split; [reflexivity|]. split; [by constructor|done].
  - eexists. split; [reflexivity|]. split; [|done]. constructor; try done. intros Ha. specialize (H6 Ha). congruence.
  - eexists. split; [reflexivity|]. split; [|done]. constructor; simpl; try done. rewrite <- H7, He. done.
  - eexists. split; [reflexivity|]. split; [|done]. constructor; simpl; try done; [|congruence].
    rewrite <- H7, He. done.
Qed.

Lemma seeker_step_inv s o : inv s -> seeker_step s o -> exists s', o ⇓ s' /\ inv s'.
Proof.
  intros Hs Hst. pose proof Hs as [Hi Hr]. pose proof Hi as [H1 H2 H3 H4 H5 H6 H7 H8 H9].
  destruct Hst as [o Ho|threads| |f|He|He].
  - by eapply seeker_own_inv.
  - unfold seeker_Start. destruct (running s) eqn:Hrun; [by eexists|].
    assert (pc s = Off) as Hp by (unfold after in H1; symmetry in H1; apply bool_decide_eq_false in H1; destruct (pc s); simpl in *; done || lia).
    rewrite H2, Hp. cbn -[Lifecycle.Start].
    destruct (Start_inv newRunner threads) as (r & Heq & Hri & ->); [by repeat constructor|done|].
    rewrite Heq. eexists. split; [reflexivity|]. stage_step Hp.
  - eexists. split; [reflexivity|]. unfold seeker_Stop. destruct (s_done s) eqn:Hd; [done|]. split; [|exact Hr].
    constructor; simpl; congruence || done.
  - eexists. split; [reflexivity|]. unfold RegisterFilter. destruct (running s) eqn:Hrun; [done|]. split; [|done].
    constructor; simpl; congruence || done.
  - eexists. split; [reflexivity|]. split; [|done]. constructor; simpl; try done. rewrite <- H7, He. done.
  - eexists. split; [reflexivity|]. split; [|done]. constructor; simpl; try done. rewrite <- H7, He. done.
Qed.

Lemma seeker_ok_inv s s' : inv s -> seeker_ok s s' -> inv s'.
Proof. intros Hi Hs. destruct (seeker_step_inv _ _ Hi Hs) as (x & [= <-] & Hx). done. Qed.

Lemma seeker_own_ok_inv s s' : inv s -> seeker_own_ok s s' -> inv s'.
Proof. intros Hi Hs. eapply seeker_ok_inv; [exact Hi|by apply sk_own]. Qed.

Lemma seeker_reach_inv f s : rtc seeker_ok (NewSeeker f) s -> inv s.
Proof. intros Hr. run_invariant seeker_ok_inv. split; by repeat constructor. Qed.

(** no interleaving of [Start], [Stop] and [RegisterFilter] calls with
    the seeker's goroutines panics, and [Start] takes effect once.  A call of
    [Stop] whose signal was received returns only after the whole cleanup:
    [done] is closed, the event loop's context is cancelled, both iterators
    and the runner are stopped, and the goroutine is over. *)
Theorem seeker_safe f s :
  rtc seeker_ok (NewSeeker f) s ->
  (forall p, ~ seeker_step s (Panic p)) /\
  (running s = true -> forall threads, seeker_Start threads s ⇓ s) /\
  (forall n, s_waiters s = S n -> s_wg s = 0 ->
     pc s = Over /\ s_done s = true /\ s_cancelled s = true /\ dst_stopped s = true /\
     it_stopped (rn s) = true /\ done_closed (rn s) = true).
Proof.
  intros [Hi Hr]%seeker_reach_inv. split_and!.
  - intros p Hs. destruct (seeker_step_inv s _ (conj Hi Hr) Hs) as (? & ? & _). done.
  - intros Hrun threads. unfold seeker_Start. by rewrite Hrun.
  - intros n Hn Hw. destruct Hi as [H1 H2 H3 H4 H5 H6 H7 H8 H9], Hr as [R1 R2 R3 R4 R5 R6].
    assert (pc s = Over) as Hp.
    { rewrite H2 in Hw. destruct (pc s); try done; specialize (H6 eq_refl); congruence. }
    rewrite Hp in *. split_and!; auto.
Qed.

(** ** Stopping ends *)

Lemma lift_runner s r : rtc own_ok (rn s) r -> rtc seeker_own_ok s (set_rn s r).
Proof.
  intros Hr. remember (rn s) as r0 eqn:E. revert s E.
  induction Hr as [r|r r1 r2 Hs Hr IH]; intros s ->; [destruct s; apply rtc_refl|].
  eapply rtc_l; [exact (sk_runner s _ Hs)|]. exact (IH (set_rn s r1) eq_refl).
Qed.

Lemma own_step s s' : seeker_own s (Ok s') -> stage (pc s') = S (stage (pc s)) ->
  exists s1, rtc seeker_own_ok s s1 /\ stage (pc s1) = S (stage (pc s)).
Proof. intros Hs Hst. exists s'. split; [by apply rtc_once|done]. Qed.

(** From every stage after the signal [start] gets to the next. *)
Lemma cleanup_advances s :
  inv s -> after 1 (pc s) = true -> pc s <> Over ->
  exists s1, rtc seeker_own_ok s s1 /\ stage (pc s1) = S (stage (pc s)).
Proof.
  intros [Hi Hr] Ha Ho. pose proof Hi as [H1 H2 H3 H4 H5 H6 H7 H8 H9]. pose proof Hr as [R1 R2 R3 R4 R5 R6].
  destruct (pc s) eqn:Hp; try done.
  - pose proof (sk_closed s Hp) as Hs. unfold sk_close in Hs. rewrite H3 in Hs.
    rewrite <- Hp. eapply own_step; [exact Hs|by rewrite Hp].
  - rewrite <- Hp. eapply own_step; [by apply sk_cancelled|by rewrite Hp].
  - rewrite <- Hp. eapply own_step; [by apply sk_dst|by rewrite Hp].
  - rewrite <- Hp. eapply own_step; [by apply sk_recv|by rewrite Hp].
  - rewrite <- Hp. eapply own_step; [by apply sk_stop|by rewrite Hp].
  - destruct (runner_drains (rn s) R1) as (r & Hrr & _ & H0); [by rewrite R3|by apply R4|].
    exists (set_pc (set_rn s r) SkInWait). split; [|done].
    eapply rtc_r; [by apply lift_runner|]. by apply (sk_stopped (set_rn s r)).
  - destruct (runner_drains (rn s) R1) as (r & Hrr & Hw & _); [by rewrite R3|by apply R4|].
    exists (set_pc (set_rn s r) SkDone). split; [|done].
    eapply rtc_r; [by apply lift_runner|]. by apply (sk_waited (set_rn s r)).
  - pose proof (sk_done s Hp) as Hs. unfold sk_release, wg_Done, wg_Add in Hs. rewrite H2 in Hs. simpl in Hs.
    rewrite <- Hp. eapply own_step; [exact Hs|by rewrite Hp].
Qed.

(** From every stage after the signal [start] gets to its end. *)
Lemma cleanup_ends s : inv s -> after 1 (pc s) = true -> exists s', rtc seeker_own_ok s s' /\ pc s' = Over.
Proof.
  remember (10 - stage (pc s))%nat as n eqn:En. revert s En.
  induction n as [|n IH]; intros s En Hi Ha.
  { exists s. split; [apply rtc_refl|]. destruct (pc s); simpl in En; lia || done. }
  destruct (cleanup_advances s Hi Ha) as (s1 & Hr1 & Hst); [intros Hp; rewrite Hp in En; simpl in En; lia|].
  destruct (IH s1) as (s' & Hr' & Hp'); [lia| |unfold after in *; apply bool_decide_eq_true in Ha; apply bool_decide_eq_true; lia|].
  { revert Hi Hr1. apply rtc_invariant, seeker_own_ok_inv. }
  exists s'. split; [by etransitivity|done].
Qed.

(** Once [start] is over, every caller returns and the event loop ends. *)
Lemma callers_return s :
  inv s -> pc s = Over ->
  exists s', rtc seeker_own_ok s s' /\ pc s' = Over /\ s_stoppers s' = 0%nat /\ s_waiters s' = 0%nat /\ ev s' = EvEnd.
Proof.
  intros Hinv Hp. pose proof Hinv as [Hi Hr].
  pose proof Hi as [H1 H2 H3 H4 H5 H6 H7 H8 H9]. rewrite Hp in *. simpl in *.
  assert (forall n t, s_stoppers t = n -> s_done t = true -> rtc seeker_own_ok t (set_callers t 0 (s_waiters t))) as Hlate.
  { induction n as [|n IH]; intros t Ht Hd; [destruct t; simpl in *; subst; apply rtc_refl|].
    eapply rtc_l; [by eapply sk_late|]. exact (IH (set_callers t n (s_waiters t)) eq_refl Hd). }
  assert (forall n t, s_waiters t = n -> s_wg t = 0 -> rtc seeker_own_ok t (set_callers t (s_stoppers t) 0)) as Hret.
  { induction n as [|n IH]; intros t Ht Hw; [destruct t; simpl in *; subst; apply rtc_refl|].
    eapply rtc_l; [by eapply sk_return|]. exact (IH (set_callers t (s_stoppers t) n) eq_refl Hw). }
  assert (forall t, s_cancelled t = true -> it_stopped (rn t) = true -> ev t <> EvOff ->
    rtc seeker_own_ok t (set_ev t EvEnd)) as Hev.
  { intros t Hc Hit He. destruct (ev t) eqn:Ee; [done| | |destruct t; simpl in *; subst; apply rtc_refl].
    - apply rtc_once. by apply ev_ended.
    - eapply rtc_l; [by apply ev_pushed|]. apply rtc_once. by apply (ev_ended (set_ev t EvSelect)). }
  set (s1 := set_callers s 0 (s_waiters s)). set (s2 := set_callers s1 0 0).
  exists (set_ev s2 EvEnd). split; [|done].
  etransitivity; [by apply (Hlate _ s eq_refl)|]. fold s1. etransitivity; [by apply (Hret _ s1 eq_refl)|]. fold s2.
  apply Hev; [done| |intros He; by apply H7 in He].
  change (it_stopped (rn s) = true). by rewrite (ra_recv _ _ Hr).
Qed.

(** a seeker that was started and that somebody stops can always be
    brought to its end: from every reachable state in which a caller is in
    [Stop], the cleanup can finish, stopping the runner and waiting for its
    workers, every call of [Stop] can return, and the event loop can end, even
    when it was pushing an event that no worker takes. *)
Theorem seeker_stops f s n :
  rtc seeker_ok (NewSeeker f) s -> running s = true -> s_stoppers s = S n ->
  exists s', rtc seeker_ok s s' /\ pc s' = Over /\ s_stoppers s' = 0%nat /\ s_waiters s' = 0%nat /\ ev s' = EvEnd.
Proof.
  intros Hinv%seeker_reach_inv Hrun Hn. pose proof Hinv as [Hi Hr].
  assert (exists s1, rtc seeker_own_ok s s1 /\ after 1 (pc s1) = true) as (s1 & Hr1 & Ha).
  { destruct (after 1 (pc s)) eqn:Ha; [by exists s|].
    assert (pc s = SkSig) as Hp by (rewrite (si_running _ Hi) in Hrun; by destruct (pc s)).
    eexists. split; [apply rtc_once; by eapply sk_sig|done]. }
  assert (inv s1) as Hi1 by (revert Hinv Hr1; apply rtc_invariant, seeker_own_ok_inv).
  destruct (cleanup_ends s1 Hi1 Ha) as (s2 & Hr2 & Hp2).
  assert (inv s2) as Hi2 by (revert Hi1 Hr2; apply rtc_invariant, seeker_own_ok_inv).
  destruct (callers_return s2 Hi2 Hp2) as (s3 & Hr3 & H3). exists s3. split; [|done].
  apply (rtc_subrel seeker_own_ok); [intros x y Hs; by apply sk_own|]. by repeat (etransitivity; [eassumption|]).
Qed.

(** A call of [Stop] that comes after the signal returns at once, whatever is
    left of the cleanup. *)
Lemma late_Stop_does_not_wait s : s_done s = true -> seeker_Stop s = s.
Proof. intros Hd. unfold seeker_Stop. by rewrite Hd. Qed.

(** ** A concrete run: started, then stopped while it pushes an event *)

Module Demo.

Definition stopping : seeker :=
  mkSeeker true SkSig EvPush 1 false false false 1 0 true (set_main (set_wg newRunner 1) (Adding 1)).

Lemma stopping_seeker_reachable : rtc seeker_ok (NewSeeker false) stopping.
Proof.
  eapply rtc_l; [exact (sk_Start (NewSeeker false) 1)|]. eapply rtc_l; [by apply ev_event|].
  eapply rtc_l; [apply sk_Stop|]. apply rtc_refl.
Qed.

Lemma seeker_safe_witness : seeker_Start 3 stopping ⇓ stopping.
Proof. exact (proj1 (proj2 (seeker_safe false stopping stopping_seeker_reachable)) eq_refl 3%nat). Defined.

Lemma seeker_stops_witness : exists s', rtc seeker_ok stopping s' /\ pc s' = Over.
Proof.
  destruct (seeker_stops false stopping 0 stopping_seeker_reachable eq_refl eq_refl) as (s' & Hr & Hp & _).
  exists s'. split; [exact Hr|exact Hp].
Defined.

End Demo.
