(* ===== verification/Disc.v ===== *)
(** * crawler/cmd/disc/v4: the commands of the discovery tool

    [ping], [random] and [enr] ask one node after the other; [scan] asks a
    node for random nodes again and again, with several goroutines, until it
    tells nothing new.  A scan is the sequence of events its [select] sees. *)

From Stdlib Require Import ZArith Lia.
From stdpp Require Import base list gmap.
From S2P Require Import Prelude Golang External Instances.
Open Scope Z_scope.

(** ** ping, random and enr: stop at the first error *)

Fixpoint ask_each {N A : Type} (ask : N -> option A) (nodes : list N) : list A * bool :=
  match nodes with
  | [] => ([], true)
  | n :: nodes' =>
      match ask n with
      | None => ([], false)
      | Some a => let '(l, ok) := ask_each ask nodes' in (a :: l, ok)
      end
  end.

Section Peek.
Context `{E : Enode}.

(** ** scan *)

(** The counters of an interval are 16 bits wide, [exhaused] 8 bits. *)
Record peek := mkPeek {
  cache : gmap ID enode; nodesAmount : Z; duplicates : Z; queries : Z; exhaused : Z }.

Definition new_peek : peek := mkPeek ∅ 0 0 0 0.

Inductive peek_event : Type := Ticked | Cancelled | Answered (result : list enode).

Definition peek_node (p : peek) (n : enode) : peek :=
  match cache p !! enode_ID n with
  | Some _ => mkPeek (cache p) (nodesAmount p) (u16 (duplicates p + 1)) (queries p) (exhaused p)
  | None => mkPeek (<[enode_ID n := n]> (cache p)) (nodesAmount p) (duplicates p) (queries p) (exhaused p)
  end.

Definition peek_answer (p : peek) (result : list enode) : peek :=
  let p1 := mkPeek (cache p) (nodesAmount p) (duplicates p) (u16 (queries p + 1)) (exhaused p) in
  let p2 := fold_left peek_node result p1 in
  mkPeek (cache p2) (u16 (nodesAmount p2 + u16 (Z.of_nat (length result)))) (duplicates p2) (queries p2) (exhaused p2).

(** The state after an event, and whether the loop goes on. *)
Definition peek_on (p : peek) (ev : peek_event) : peek * bool :=
  match ev with
  | Cancelled => (p, false)
  | Answered result => (peek_answer p result, true)
  | Ticked =>
      let e := if decide (nodesAmount p = duplicates p) then u8 (exhaused p + 1) else exhaused p in
      if decide (e > 3) then (mkPeek (cache p) (nodesAmount p) (duplicates p) (queries p) e, false)
      else (mkPeek (cache p) 0 0 0 e, true)
  end.

Fixpoint peek_loop (p : peek) (evs : list peek_event) : peek * bool :=
  match evs with
  | [] => (p, true)
  | ev :: evs' => let '(p', go) := peek_on p ev in if go then peek_loop p' evs' else (p', false)
  end.

(** The nodes that are dumped. *)
Definition scanned (p : peek) : list enode := (map_to_list (cache p)).*2.

(** ** Lemmas *)

(** What the loop handled: the events before the one that ended it. *)
Definition told (evs : list peek_event) : list enode :=
  concat (map (fun ev => match ev with Answered r => r | _ => [] end) evs).

Record peek_inv (p : peek) (ns : list enode) : Prop := {
  pe_cache : dom (cache p) = list_to_set (map enode_ID ns);
  pe_keys : forall i n, cache p !! i = Some n -> enode_ID n = i /\ n ∈ ns }.

Lemma peek_node_inv p ns n : peek_inv p ns -> peek_inv (peek_node p n) (ns ++ [n]).
Proof.
  intros [H1 H2]. unfold peek_node. destruct (cache p !! enode_ID n) as [m|] eqn:El.
  - split; simpl.
    + rewrite H1, map_app, list_to_set_app_L. simpl.
      assert (enode_ID n ∈ (list_to_set (map enode_ID ns) : gset ID)) by (rewrite <- H1; by apply elem_of_dom_2 in El).
      apply leibniz_equiv. set_solver.
    + intros i k Hk. destruct (H2 i k Hk). split; [done|]. apply elem_of_app. by left.
  - split; simpl.
    + rewrite dom_insert_L, H1, map_app, list_to_set_app_L. simpl. apply leibniz_equiv. set_solver.
    + intros i k [[<- <-]|[_ Hk]]%lookup_insert_Some; [split; [done|apply elem_of_snoc]|].
      destruct (H2 i k Hk). split; [done|]. apply elem_of_app. by left.
Qed.

Lemma peek_nodes_inv r p ns : peek_inv p ns -> peek_inv (fold_left peek_node r p) (ns ++ r).
Proof.
  revert p ns. induction r as [|n r IH]; intros p ns Hi; simpl; [by rewrite app_nil_r|].
  replace (ns ++ n :: r) with ((ns ++ [n]) ++ r) by by rewrite <- (assoc_L (++)).
  by apply IH, peek_node_inv.
Qed.

Lemma peek_on_inv p ev ns :
  peek_inv p ns -> peek_inv (peek_on p ev).1 (ns ++ told [ev]).
Proof.
  intros Hi. destruct ev as [| |r]; unfold told; simpl; rewrite ?app_nil_r; [|done|].
  - destruct Hi as [H1 H2]. case_decide; by split.
  - unfold peek_answer. apply (peek_nodes_inv r) in Hi as H. destruct Hi as [H1 H2].
    assert (peek_inv (mkPeek (cache p) (nodesAmount p) (duplicates p) (u16 (queries p + 1)) (exhaused p)) ns) as Hi'
      by by split.
    apply (peek_nodes_inv r) in Hi' as [H3 H4]. by split.
Qed.

(** Handling nodes counts each as a duplicate or adds it to the cache. *)
Lemma peek_node_count p n :
  u16 (duplicates (peek_node p n) + Z.of_nat (size (cache (peek_node p n)))) =
    u16 (duplicates p + Z.of_nat (size (cache p)) + 1).
Proof.
  unfold peek_node. destruct (cache p !! enode_ID n) eqn:El; simpl.
  - rewrite u16_add. f_equal. lia.
  - rewrite map_size_insert_None by done. f_equal. lia.
Qed.

Lemma peek_nodes_count r p :
  u16 (duplicates (fold_left peek_node r p) + Z.of_nat (size (cache (fold_left peek_node r p)))) =
    u16 (duplicates p + Z.of_nat (size (cache p)) + Z.of_nat (length r)) /\
  nodesAmount (fold_left peek_node r p) = nodesAmount p /\ exhaused (fold_left peek_node r p) = exhaused p.
Proof.
  revert p. induction r as [|n r IH]; intros p; simpl; [split; [f_equal; lia|done]|].
  destruct (IH (peek_node p n)) as (-> & -> & ->). split.
  - rewrite <- u16_add, peek_node_count, u16_add. f_equal. lia.
  - unfold peek_node. by destruct (cache p !! enode_ID n).
Qed.

(** The counters of an interval that began with [n0] identities known. *)
Definition interval_ok (n0 : nat) (p : peek) : Prop :=
  u16 (nodesAmount p) = u16 (duplicates p + (Z.of_nat (size (cache p)) - Z.of_nat n0)) /\
  0 <= nodesAmount p < 2 ^ 16 /\ 0 <= duplicates p < 2 ^ 16.

Lemma peek_node_bound r p : 0 <= duplicates p < 2 ^ 16 -> 0 <= duplicates (fold_left peek_node r p) < 2 ^ 16.
Proof.
  revert p. induction r as [|n r IH]; intros p Hp; simpl; [done|]. apply IH. unfold peek_node.
  destruct (cache p !! enode_ID n); simpl; [apply (wrap_u_bound 16); lia|done].
Qed.

Lemma peek_answer_interval n0 p r : interval_ok n0 p -> interval_ok n0 (peek_answer p r).
Proof.
  intros (H1 & H2 & H3). unfold interval_ok, peek_answer. cbn [cache nodesAmount duplicates].
  set (p1 := mkPeek (cache p) (nodesAmount p) (duplicates p) (u16 (queries p + 1)) (exhaused p)).
  destruct (peek_nodes_count r p1) as (Hc & Hn & _).
  pose proof (peek_node_bound r p1 H3) as Hb. rewrite Hn. cbn [cache nodesAmount duplicates] in *.
  split; [|split; [apply (wrap_u_bound 16); lia|done]].
  set (q := fold_left peek_node r p1) in *.
  assert (forall a b, u16 (a + u16 b) = u16 (a + b)) as Hr.
  { intros a b. by rewrite Z.add_comm, u16_add, Z.add_comm. }
  assert (forall a, u16 (u16 a) = u16 a) as Hid by (intros a; pose proof (u16_add a 0) as H; by rewrite !Z.add_0_r in H).
  rewrite Hid, Hr, <- (u16_add (nodesAmount p)), H1, u16_add.
  replace (duplicates q + (Z.of_nat (size (cache q)) - Z.of_nat n0))
    with (duplicates q + Z.of_nat (size (cache q)) + - Z.of_nat n0) by lia.
  rewrite <- (u16_add (duplicates q + _)), Hc, u16_add. f_equal. unfold p1. simpl. lia.
Qed.

Lemma interval_ok_exhausted n0 p :
  interval_ok n0 p ->
  nodesAmount p = duplicates p <-> (Z.of_nat (size (cache p)) - Z.of_nat n0) mod 2 ^ 16 = 0.
Proof.
  intros (H1 & H2 & H3). unfold u16 in H1. rewrite (wrap_u_small 16 (nodesAmount p)) in H1 by done.
  unfold wrap_u in H1. set (d := Z.of_nat (size (cache p)) - Z.of_nat n0) in *.
  pose proof (Z.mod_pos_bound d (2 ^ 16) ltac:(lia)). rewrite <- Z.add_mod_idemp_r in H1 by lia.
  split.
  - intros Heq. rewrite <- Heq in H1. destruct (decide (d mod 2 ^ 16 = 0)) as [|Hd]; [done|].
    destruct (decide (nodesAmount p + d mod 2 ^ 16 < 2 ^ 16)).
    + rewrite Z.mod_small in H1 by lia. lia.
    + replace (nodesAmount p + d mod 2 ^ 16) with (nodesAmount p + d mod 2 ^ 16 - 2 ^ 16 + 1 * 2 ^ 16) in H1 by lia.
      rewrite Z.mod_add, Z.mod_small in H1 by lia. lia.
  - intros Hd. rewrite Hd, Z.add_0_r, Z.mod_small in H1 by lia. done.
Qed.

(** ** Properties *)

(** The nodes a scan dumps are those the asked node told about, each
    identity once: every node told before the loop ended has its identity
    among them. *)
Theorem scan_result evs p go :
  peek_loop new_peek evs = (p, go) ->
  NoDup (map enode_ID (scanned p)) /\
  exists handled rest, evs = handled ++ rest /\ (go = true -> rest = []) /\
    (forall n, n ∈ scanned p -> n ∈ told handled) /\
    (forall i, i ∈ map enode_ID (told handled) <-> i ∈ map enode_ID (scanned p)).
Proof.
  assert (forall evs p ns, peek_inv p ns -> exists handled rest, evs = handled ++ rest /\
    ((peek_loop p evs).2 = true -> rest = []) /\ peek_inv (peek_loop p evs).1 (ns ++ told handled)) as H.
  { clear. induction evs as [|ev evs IH]; intros p ns Hi; simpl.
    - exists [], []. simpl. by rewrite app_nil_r.
    - pose proof (peek_on_inv p ev ns Hi) as Hi'. destruct (peek_on p ev) as [p' go]. simpl in Hi'.
      destruct go; simpl.
      + destruct (IH p' _ Hi') as (handled & rest & -> & Hg & Hp). exists (ev :: handled), rest.
        split; [done|]. split; [done|]. unfold told in *. simpl in *.
        by rewrite app_nil_r, <- (assoc_L (++)) in Hp.
      + by exists [ev], evs. }
  intros Hr. destruct (H evs new_peek []) as (handled & rest & He & Hg & Hc & Hk).
  { split; [done|]. intros i n Hn. simpl in Hn. by rewrite lookup_empty in Hn. }
  rewrite Hr in Hg, Hc, Hk. simpl in *. split.
  - unfold scanned. rewrite <- list_fmap_compose.
    replace (compose enode_ID snd <$> map_to_list (cache p)) with (fst <$> map_to_list (cache p)); [apply NoDup_fst_map_to_list|].
    apply list_fmap_ext. intros k [i n] Hin. apply list_elem_of_lookup_2, elem_of_map_to_list in Hin.
    by destruct (Hk i n Hin).
  - exists handled, rest. split; [done|]. split; [done|]. split.
    + intros n Hn. unfold scanned in Hn. apply list_elem_of_fmap in Hn as ([i m] & -> & Hm).
      apply elem_of_map_to_list in Hm. by destruct (Hk i m Hm).
    + intros i. rewrite <- (elem_of_list_to_set (C := gset ID)), <- Hc, elem_of_dom, list_elem_of_fmap. split.
      * intros [n Hn]. destruct (Hk i n Hn) as [<- _]. exists n. split; [done|].
        unfold scanned. apply list_elem_of_fmap. exists (enode_ID n, n). split; [done|].
        by apply elem_of_map_to_list.
      * intros (n & -> & Hn). unfold scanned in Hn. apply list_elem_of_fmap in Hn as ([j m] & -> & Hm).
        apply elem_of_map_to_list in Hm. destruct (Hk j m Hm) as [<- _]. by eexists.
Qed.

(** At a tick the interval before it counts as exhausted exactly when the
    number of identities its answers added is a multiple of 2^16 (although the
    code only compares two 16-bit counters that wrap around), and the scan ends
    at the fourth exhausted interval; otherwise a new interval begins. *)
Theorem scan_exhausts p rs :
  0 <= exhaused p <= 3 -> nodesAmount p = 0 -> duplicates p = 0 ->
  let p1 := fold_left peek_answer rs p in
  exhaused (peek_on p1 Ticked).1 =
    (if decide ((Z.of_nat (size (cache p1)) - Z.of_nat (size (cache p))) mod 2 ^ 16 = 0)
     then exhaused p + 1 else exhaused p) /\
  (peek_on p1 Ticked).2 = bool_decide (exhaused (peek_on p1 Ticked).1 <= 3) /\
  cache (peek_on p1 Ticked).1 = cache p1 /\
  ((peek_on p1 Ticked).2 = true ->
     nodesAmount (peek_on p1 Ticked).1 = 0 /\ duplicates (peek_on p1 Ticked).1 = 0).
Proof.
  intros He Hn Hd p1.
  assert (interval_ok (size (cache p)) p1 /\ exhaused p1 = exhaused p) as [Hi Hx].
  { assert (interval_ok (size (cache p)) p) as H0 by (unfold interval_ok; rewrite Hn, Hd; split; [f_equal; lia|lia]).
    unfold p1. clear p1 He Hn Hd. revert H0. generalize (size (cache p)) as n0. intros n0 H0.
    revert p H0. induction rs as [|r rs IH]; intros p H0; [done|]. cbn [fold_left].
    destruct (IH (peek_answer p r)) as [H1 ->]; [by apply peek_answer_interval|]. split; [done|].
    unfold peek_answer. cbn [exhaused]. by destruct (peek_nodes_count r
      (mkPeek (cache p) (nodesAmount p) (duplicates p) (u16 (queries p + 1)) (exhaused p))) as (_ & _ & ->). }
  pose proof (interval_ok_exhausted _ _ Hi) as Hex. unfold peek_on.
  assert ((if decide (nodesAmount p1 = duplicates p1) then u8 (exhaused p1 + 1) else exhaused p1) =
    (if decide ((Z.of_nat (size (cache p1)) - Z.of_nat (size (cache p))) mod 2 ^ 16 = 0) then exhaused p + 1 else exhaused p)) as ->.
  { rewrite Hx. do 2 case_decide; try tauto. unfold u8. rewrite wrap_u_small by lia. done. }
  set (e := if decide (_ mod _ = 0) then exhaused p + 1 else exhaused p). case_decide as Hgt; simpl.
  - split; [done|]. split; [by rewrite bool_decide_eq_false_2 by lia|]. done.
  - split; [done|]. split; [by rewrite bool_decide_eq_true_2 by lia|]. done.
Qed.

End Peek.

(** The commands ask the nodes in order and report every answer before the
    first error. *)
Lemma ask_each_spec {N A} (ask : N -> option A) nodes :
  exists asked, asked `prefix_of` nodes /\ Forall2 (fun n a => ask n = Some a) asked (ask_each ask nodes).1 /\
    ((ask_each ask nodes).2 = true -> asked = nodes).
Proof.
  induction nodes as [|n nodes (asked & Hp & Hf & Ha)]; simpl; [by exists []|].
  destruct (ask n) as [a|] eqn:En; [|exists []; split; [apply prefix_nil|done]].
  destruct (ask_each ask nodes) as [l ok]. simpl in *. exists (n :: asked).
  split; [by apply prefix_cons|]. split; [by constructor|]. intros Hok. by rewrite Ha.
Qed.

Module Demo.

Definition node (i : Z) : @enode xor_enode := mkRecord i [9; 9; 9; i] 30303 30303 1.

Definition events : list peek_event := [Answered [node 1; node 2]; Answered [node 1]; Ticked; Cancelled].

Lemma scan_result_witness :
  exists p, peek_loop new_peek events = (p, false) /\ NoDup (map enode_ID (scanned p)).
Proof.
  destruct (peek_loop new_peek events) as [p go] eqn:E. exists p.
  assert (go = false) as -> by (transitivity (peek_loop new_peek events).2; [by rewrite E|reflexivity]).
  split; [reflexivity|]. exact (proj1 (scan_result events p false E)).
Defined.

Definition dry : peek := mkPeek ∅ 0 0 0 3.

Lemma scan_exhausts_witness : exhaused (peek_on dry Ticked).1 = 4 /\ (peek_on dry Ticked).2 = false.
Proof.
  destruct (scan_exhausts dry [] ltac:(simpl; lia) eq_refl eq_refl) as (H1 & H2 & _).
  split; [exact H1|]. transitivity (bool_decide (exhaused (peek_on dry Ticked).1 <= 3)); [exact H2|reflexivity].
Defined.

End Demo.
