(* ===== verification/NetIP.v ===== *)
(** * Package net: the text of an address, and global unicast addresses *)

From Stdlib Require Import ZArith Lia Ascii.
From stdpp Require Import base list strings.
From S2P Require Import Prelude Golang.
Open Scope Z_scope.
Local Open Scope string_scope.

(** ** [IP.String] *)

Definition digit_char (d : Z) : ascii :=
  ascii_of_nat (Z.to_nat (if decide (d < 10) then 48 + d else 87 + d)).

(** A number in a base, without leading zeros; [fuel] digits at most. *)
Fixpoint number (fuel : nat) (base v : Z) (acc : string) : string :=
  match fuel with
  | O => acc
  | S fuel' =>
      let acc' := String (digit_char (v mod base)) acc in
      if decide (v / base = 0) then acc' else number fuel' base (v / base) acc'
  end.

(** A byte has at most three decimal digits, a group four hexadecimal ones. *)
Definition dec (v : Z) : string := number 3 10 v "".
Definition hex (v : Z) : string := number 4 16 v "".
Definition hex2 (v : Z) : string := String (digit_char (v / 16)) (String (digit_char (v mod 16)) "").

Fixpoint groups (bs : list Z) : list Z :=
  match bs with a :: b :: bs' => (a * 256 + b) :: groups bs' | _ => [] end.

(** The length of the run of zeros a list starts with. *)
Fixpoint zeros (gs : list Z) : nat :=
  match gs with g :: gs' => if decide (g = 0) then S (zeros gs') else O | [] => O end.

(** The first longest run of zeros: where it starts and its length. *)
Fixpoint longest_run (i : nat) (gs : list Z) (best : nat * nat) : nat * nat :=
  match gs with
  | [] => best
  | _ :: gs' => longest_run (S i) gs' (if decide (best.2 < zeros gs)%nat then (i, zeros gs) else best)
  end.

Definition join (sep : string) (ps : list string) : string :=
  match ps with
  | [] => ""
  | p :: ps' => p +:+ foldr (fun q s => sep +:+ q +:+ s) "" ps'
  end.

Definition v6_string (gs : list Z) : string :=
  let '(at_, len) := longest_run 0 gs (0, 0)%nat in
  if decide (2 <= len)%nat
  then join ":" (map hex (take at_ gs)) +:+ "::" +:+ join ":" (map hex (drop (at_ + len) gs))
  else join ":" (map hex gs).

Definition IP_String (a : IP) : string :=
  if decide (length a = 0)%nat then "<nil>"
  else match To4 a with
  | Some b => join "." (map dec b)
  | None => if decide (length a = 16)%nat then v6_string (groups a)
            else "?" +:+ foldr (fun b s => hex2 b +:+ s) "" a
  end.

(** ** [IP.IsGlobalUnicast] *)

Definition IPv4bcast : IP := [255; 255; 255; 255].
Definition IPv4zero : IP := [0; 0; 0; 0].
Definition IPv6unspecified : IP := replicate 16 0.
Definition IPv6loopback : IP := (replicate 15 0 ++ [1])%list.

Definition byte_at (a : IP) (i : nat) : Z := default 0 (a !! i).

Definition IsUnspecified (a : IP) : bool := IP_Equal a IPv4zero || IP_Equal a IPv6unspecified.

Definition IsLoopback (a : IP) : bool :=
  match To4 a with Some b => bool_decide (byte_at b 0 = 127) | None => IP_Equal a IPv6loopback end.

Definition IsMulticast (a : IP) : bool :=
  match To4 a with
  | Some b => bool_decide (Z.land (byte_at b 0) 0xf0 = 0xe0)
  | None => bool_decide (length a = 16%nat) && bool_decide (byte_at a 0 = 0xff)
  end.

Definition IsLinkLocalUnicast (a : IP) : bool :=
  match To4 a with
  | Some b => bool_decide (byte_at b 0 = 169) && bool_decide (byte_at b 1 = 254)
  | None => bool_decide (length a = 16%nat) && bool_decide (byte_at a 0 = 0xfe) &&
            bool_decide (Z.land (byte_at a 1) 0xc0 = 0x80)
  end.

Definition IsGlobalUnicast (a : IP) : bool :=
  (bool_decide (length a = 4%nat) || bool_decide (length a = 16%nat)) &&
  negb (IP_Equal a IPv4bcast) && negb (IsUnspecified a) && negb (IsLoopback a) &&
  negb (IsMulticast a) && negb (IsLinkLocalUnicast a).

(** ** Examples *)

Example ex_v4 : IP_String [192; 0; 2; 33] = "192.0.2.33".
Proof. reflexivity. Qed.

Example ex_v4_mapped : IP_String (v4InV6Prefix ++ [192; 0; 2; 33])%list = "192.0.2.33".
Proof. reflexivity. Qed.

Example ex_v6 : IP_String [0x20; 1; 0xd; 0xb8; 0; 0; 0; 0; 0; 1; 0; 0; 0; 0; 0; 1] = "2001:db8::1:0:0:1".
Proof. reflexivity. Qed.

Example ex_unicast : map IsGlobalUnicast [[192; 0; 2; 33]; [127; 0; 0; 1]; [169; 254; 1; 1]; [224; 0; 0; 1]; []]
  = [true; false; false; false; false].
Proof. reflexivity. Qed.
