(* ===== verification/Config.v ===== *)
(** * crawler/app/parse.go and scanner/app: flags and configuration

    The flags of the command line come from a third-party package; what the
    program reads of them is the record [Context].  [net.ParseIP],
    [enode.ParseV4] and [store.NewStore] are arguments. *)

From Stdlib Require Import ZArith Lia Ascii.
From stdpp Require Import base list strings.
From S2P Require Import Prelude Golang.
Open Scope Z_scope.
Local Open Scope string_scope.

(** ** The parts of packages strings and strconv the parsers use *)

(** [strings.Split(s, sep)] for a separator of one byte. *)
Fixpoint Split (s : string) (sep : ascii) : list string :=
  match s with
  | "" => [""]
  | String c s' =>
      if decide (c = sep) then "" :: Split s' sep
      else match Split s' sep with [] => [String c ""] | p :: ps => String c p :: ps end
  end.

Definition HasPrefix (s p : string) : bool := String.prefix p s.

Definition digit (c : ascii) : option Z :=
  let n := Z.of_nat (nat_of_ascii c) in
  if decide (48 <= n <= 57) then Some (n - 48) else None.

Fixpoint digits (acc : Z) (s : string) : option Z :=
  match s with
  | "" => Some acc
  | String c s' => match digit c with Some d => digits (acc * 10 + d) s' | None => None end
  end.

(** [strconv.Atoi]: an optional sign, at least one digit, and an [int] that
    holds the number. *)
Definition Atoi (s : string) : option Z :=
  let '(neg, body) :=
    match s with
    | String "-" s' => (true, s')
    | String "+" s' => (false, s')
    | _ => (false, s)
    end in
  if decide (body = "") then None else
  match digits 0 body with
  | Some v =>
      let v := if (neg : bool) then - v else v in
      if decide (MinInt64 <= v <= MaxInt64) then Some v else None
  | None => None
  end.

(** ** The flags *)

Record Context := mkContext {
  IsSet : string -> bool;
  Bool_ : string -> bool;
  String_ : string -> string;
  StringSlice : string -> list string;
  Int : string -> Z;
  Uint : string -> Z;
  Uint64 : string -> Z }.

Module Crawler.

Definition NodesFlag := "nodes".
Definition TimeOutInMinutesFlag := "timeout".
Definition ConcurrencyFactorFlag := "concurrency".
Definition DirFlag := "dir".
Definition MetricsFlag := "metrics".
Definition IdentitiesFlag := "identities".
Definition DiscPort := "discport".
Definition FakeName := "fakename".
Definition FakeCaps := "fakecaps".
Definition BrokerEnabled := "enable_broker".
Definition BrokerEndpoint := "broker_endpoint".
Definition BrokerUser := "broker_user".
Definition BrokerPassword := "broker_password".
Definition DbSource := "db_source".
Definition DbMigrationUrl := "db_migration_url".

Record Cap := mkCap { cap_Name : string; cap_Version : Z }.

Definition DefaultQuieries : list Cap :=
  [mkCap "diff" 1; mkCap "eth" 64; mkCap "eth" 65; mkCap "eth" 66;
   mkCap "les" 2; mkCap "les" 3; mkCap "les" 4; mkCap "snap" 1].

Section Parse.
Context {enode Store : Type}.
Context (ParseV4 : string -> option enode) (NewStore : string -> string -> option Store).
Implicit Types ctx : Context.

Definition ParseNode (source : string) : option enode :=
  if HasPrefix source "enode://" then ParseV4 source else None.

(** [None] is an error. *)
Definition ParseNodes ctx : option (list enode) :=
  if IsSet ctx NodesFlag then
    let input := String_ ctx NodesFlag in
    if decide (input = "") then Some [] else mapM ParseNode (Split input ",")
  else Some [].

Definition ParseMetrics ctx : bool := if IsSet ctx MetricsFlag then Bool_ ctx MetricsFlag else false.

Definition ParseIdentities ctx : list string :=
  let s := if IsSet ctx IdentitiesFlag then StringSlice ctx IdentitiesFlag else [] in
  if decide (length s = 0%nat) then ["*"] else s.

Definition ParseDiscPort ctx : Z :=
  let port := if IsSet ctx DiscPort then Int ctx DiscPort else 0 in
  if decide (port < 1000) then 10001 else port.

(** The duration of the context's deadline, if it has one. *)
Definition ParseTimeout ctx : option Z :=
  if negb (IsSet ctx TimeOutInMinutesFlag) then None
  else if decide (Uint64 ctx TimeOutInMinutesFlag = 0) then None
  else Some (i64 (i64 (Uint64 ctx TimeOutInMinutesFlag) * Minute)).

Definition ParseConcurrency ctx : Z :=
  if negb (IsSet ctx ConcurrencyFactorFlag) then 8 else i64 (Uint64 ctx ConcurrencyFactorFlag).

Definition defaultDirectory : string := ".".

Definition ParseDir ctx : string :=
  if negb (IsSet ctx DirFlag) then defaultDirectory
  else if decide (String_ ctx DirFlag = "") then defaultDirectory else String_ ctx DirFlag.

Definition ParseFakeName ctx : string := if IsSet ctx FakeName then String_ ctx FakeName else "".

Definition parse_cap (flag : string) : option Cap :=
  match Split flag ":" with
  | [name; value] => match Atoi value with Some v => Some (mkCap name (u64 v)) | None => None end
  | _ => None
  end.

Definition ParseFakeCaps ctx : option (list Cap) :=
  let rawflags := if IsSet ctx FakeCaps then StringSlice ctx FakeCaps else [] in
  match mapM parse_cap rawflags with
  | None => None
  | Some flags => if decide (length flags = 0%nat) then Some DefaultQuieries else Some flags
  end.

(** User name, password, end point; [None] inside is a broker that is not
    enabled.  The value of the flag is not looked at, only that it is set. *)
Definition ParseBroker ctx : option (option (string * string * string)) :=
  if negb (IsSet ctx BrokerEnabled) then Some None
  else if negb (IsSet ctx BrokerUser) then None
  else if negb (IsSet ctx BrokerPassword) then None
  else if negb (IsSet ctx BrokerEndpoint) then None
  else Some (Some (String_ ctx BrokerUser, String_ ctx BrokerPassword, String_ ctx BrokerEndpoint)).

Definition ParseDb ctx : option Store :=
  if negb (IsSet ctx DbSource) then None
  else if negb (IsSet ctx DbMigrationUrl) then None
  else NewStore (String_ ctx DbSource) (String_ ctx DbMigrationUrl).

(** ** Facts *)

(** [strings.Join] with a separator of one byte. *)
Fixpoint Join (ps : list string) (sep : ascii) : string :=
  match ps with
  | [] => ""
  | [p] => p
  | p :: ps' => p +:+ String sep (Join ps' sep)
  end.

Lemma Join_cons_char a p ps sep : Join (String a p :: ps) sep = String a (Join (p :: ps) sep).
Proof. by destruct ps. Qed.

Lemma Split_Join s sep : Split s sep <> [] /\ Join (Split s sep) sep = s.
Proof.
  induction s as [|a s [Hne IH]]; [done|]. simpl. case_decide as Ha.
  - split; [done|]. subst a. destruct (Split s sep) as [|p ps] eqn:Es; [done|]. change (String sep (Join (p :: ps) sep) = String sep s). by rewrite IH.
  - destruct (Split s sep) as [|p ps]; [done|]. split; [done|]. by rewrite Join_cons_char, IH.
Qed.

(** The boot nodes are those the flag lists: parsing succeeds exactly when
    every piece between the commas is an [enode://] URL that the node parser
    accepts, and then gives their nodes in order. *)
Theorem ParseNodes_result ctx nodes :
  IsSet ctx NodesFlag = true -> String_ ctx NodesFlag <> "" ->
  ParseNodes ctx = Some nodes <->
  exists pieces, pieces = Split (String_ ctx NodesFlag) "," /\ Join pieces "," = String_ ctx NodesFlag /\
    Forall2 (fun p n => HasPrefix p "enode://" = true /\ ParseV4 p = Some n) pieces nodes.
Proof.
  intros Hs Hn. unfold ParseNodes. rewrite Hs, decide_False by done. rewrite mapM_Some. split.
  - intros Hf. eexists. split; [done|]. split; [apply Split_Join|].
    eapply Forall2_impl; [exact Hf|]. intros p n. unfold ParseNode. by case_match.
  - intros (pieces & -> & _ & Hf). eapply Forall2_impl; [exact Hf|].
    intros p n [Hp Hv]. unfold ParseNode. by rewrite Hp.
Qed.

(** The capabilities announced to peers are never empty: those of the
    flags, one for each flag and in order, or the default ones when there are
    no flags. *)
Theorem ParseFakeCaps_result ctx caps :
  ParseFakeCaps ctx = Some caps ->
  caps <> [] /\
  (caps = DefaultQuieries \/
   IsSet ctx FakeCaps = true /\
   Forall2 (fun flag c => exists value v, Split flag ":" = [cap_Name c; value] /\ Atoi value = Some v /\
                            cap_Version c = u64 v) (StringSlice ctx FakeCaps) caps).
Proof.
  unfold ParseFakeCaps. destruct (mapM parse_cap _) as [flags|] eqn:Em; [|done]. apply mapM_Some in Em.
  case_decide as Hl; intros [= <-]; [split; [done|by left]|].
  split; [by intros ->|]. right. destruct (IsSet ctx FakeCaps); [|by inversion Em; subst].
  split; [done|]. eapply Forall2_impl; [exact Em|]. intros flag c Hc. unfold parse_cap in Hc.
  destruct (Split flag ":") as [|name [|value [|]]] eqn:Es; try done.
  destruct (Atoi value) as [v|] eqn:Ea; [|done]. injection Hc as <-. by exists value, v.
Qed.

End Parse.
End Crawler.

Module Scanner.

Definition MetricsFlag := "metrics".
Definition brokerEnabled := "broker_enabled".
Definition brokerEndpoint := "broker_endpoint".
Definition brokerUser := "broker_user".
Definition brokerPassword := "broker_password".
Definition dbEnabled := "db_enabled".
Definition dbSource := "db_source".
Definition dbMigrationUrl := "db_migration_url".
Definition cacheEnabled := "cache_enabled".
Definition cacheEndpoint := "cache_endpoint".
Definition cachePassword := "cache_password".
Definition IpsFlag := "ips".
Definition IntervalFlag := "interval_in_ms".
Definition ScanPortStart := "port_start".
Definition ScanPortEnd := "port_end".
Definition Verbose := "verbose".

Definition MaxTcpPort : Z := 65535.

Record Config := mkConfig {
  Ips : list IP; Threads : Z; Burst : Z; Interval : Z; PortStart : Z; PortEnd : Z;
  Metrics : bool;
  StoreEnabled : bool; StoreMigration : string; StoreSource : string;
  CacheEnabled : bool; CacheEndpoint : string; CachePassword : string;
  BrokerEnabled : bool; BrokerEndpoint : string; BrokerUser : string; BrokerPassword : string }.

(** [gomaxprocs] is [runtime.GOMAXPROCS(0)]. *)
Definition DefaultConfig (gomaxprocs : Z) : Config :=
  mkConfig [] gomaxprocs 10 (Second / 10) 0 MaxTcpPort false false "" "" false "" "" false "" "" "".

Definition set_ips (c : Config) ips :=
  mkConfig ips (Threads c) (Burst c) (Interval c) (PortStart c) (PortEnd c) (Metrics c) (StoreEnabled c)
    (StoreMigration c) (StoreSource c) (CacheEnabled c) (CacheEndpoint c) (CachePassword c) (BrokerEnabled c)
    (BrokerEndpoint c) (BrokerUser c) (BrokerPassword c).

Definition set_limits (c : Config) threads burst interval pstart pend :=
  mkConfig (Ips c) threads burst interval pstart pend (Metrics c) (StoreEnabled c)
    (StoreMigration c) (StoreSource c) (CacheEnabled c) (CacheEndpoint c) (CachePassword c) (BrokerEnabled c)
    (BrokerEndpoint c) (BrokerUser c) (BrokerPassword c).

(** [Validate]: the error, or the clamped configuration. *)
Definition Validate (c : Config) : option Config :=
  if bool_decide (length (Ips c) = 0%nat) && negb (BrokerEnabled c) then None
  else
    let burst := if decide (Burst c <= 0) then 1 else Burst c in
    let interval := if decide (Interval c < 1 * Millisecond) then 1 * Millisecond else Interval c in
    let threads := if decide (Threads c <= 0) then 1 else Threads c in
    let pstart := if decide (PortStart c < 0) then 0 else PortStart c in
    let pstart := if decide (PortEnd c <= 0) then MaxTcpPort else pstart in
    Some (set_limits c threads burst interval pstart (PortEnd c)).

Section Parse.
Context (ParseIP : string -> option IP).
Implicit Types (ctx : Context) (c : Config).

Definition ParseMetrics ctx c : Config :=
  if IsSet ctx MetricsFlag then
    mkConfig (Ips c) (Threads c) (Burst c) (Interval c) (PortStart c) (PortEnd c) (Bool_ ctx MetricsFlag)
      (StoreEnabled c) (StoreMigration c) (StoreSource c) (CacheEnabled c) (CacheEndpoint c) (CachePassword c)
      (BrokerEnabled c) (BrokerEndpoint c) (BrokerUser c) (BrokerPassword c)
  else c.

(** The parsers that can fail give the configuration as they leave it, and
    whether there was no error. *)
Definition ParseBroker ctx c : Config * bool :=
  if negb (IsSet ctx brokerEnabled) then (c, true)
  else if negb (IsSet ctx brokerUser) then (c, false)
  else if negb (IsSet ctx brokerPassword) then (c, false)
  else if negb (IsSet ctx brokerEndpoint) then (c, false)
  else
    (mkConfig (Ips c) (Threads c) (Burst c) (Interval c) (PortStart c) (PortEnd c) (Metrics c)
       (StoreEnabled c) (StoreMigration c) (StoreSource c) (CacheEnabled c) (CacheEndpoint c) (CachePassword c)
       (Bool_ ctx brokerEnabled) (String_ ctx brokerEndpoint) (String_ ctx brokerUser) (String_ ctx brokerPassword),
     true).

Definition ParseDb ctx c : Config * bool :=
  if negb (IsSet ctx dbEnabled) then (c, true)
  else if negb (IsSet ctx dbSource) then (c, false)
  else if negb (IsSet ctx dbMigrationUrl) then (c, false)
  else
    (mkConfig (Ips c) (Threads c) (Burst c) (Interval c) (PortStart c) (PortEnd c) (Metrics c)
       (Bool_ ctx dbEnabled) (String_ ctx dbMigrationUrl) (String_ ctx dbSource) (CacheEnabled c) (CacheEndpoint c)
       (CachePassword c) (BrokerEnabled c) (BrokerEndpoint c) (BrokerUser c) (BrokerPassword c), true).

Definition ParseCache ctx c : Config * bool :=
  if negb (IsSet ctx cacheEnabled) then (c, true)
  else if negb (IsSet ctx cacheEndpoint) then (c, false)
  else if negb (IsSet ctx cachePassword) then (c, false)
  else
    (mkConfig (Ips c) (Threads c) (Burst c) (Interval c) (PortStart c) (PortEnd c) (Metrics c)
       (StoreEnabled c) (StoreMigration c) (StoreSource c) (Bool_ ctx cacheEnabled) (String_ ctx cacheEndpoint)
       (String_ ctx cachePassword) (BrokerEnabled c) (BrokerEndpoint c) (BrokerUser c) (BrokerPassword c), true).

Fixpoint add_ips (rawIps : list string) (ips : list IP) : list IP * bool :=
  match rawIps with
  | [] => (ips, true)
  | raw :: rest =>
      match ParseIP raw with None => (ips, false) | Some a => add_ips rest (ips ++ [a])%list end
  end.

Definition ParseIps ctx c : Config * bool :=
  if negb (IsSet ctx IpsFlag) then (c, true)
  else
    let '(ips, ok) := add_ips (StringSlice ctx IpsFlag) (Ips c) in
    (set_ips c ips, ok && negb (bool_decide (length (StringSlice ctx IpsFlag) = 0%nat))).

Definition ParseInterval ctx c : Config :=
  if negb (IsSet ctx IntervalFlag) then c
  else set_limits c (Threads c) (Burst c) (i64 (Millisecond * Int ctx IntervalFlag)) (PortStart c) (PortEnd c).

(** Nothing calls [ParsePorts]. *)
Definition ParsePorts ctx c : Config :=
  let c1 := if IsSet ctx ScanPortStart
            then set_limits c (Threads c) (Burst c) (Interval c) (i64 (Uint ctx ScanPortStart)) (PortEnd c) else c in
  if IsSet ctx ScanPortStart
  then set_limits c1 (Threads c1) (Burst c1) (Interval c1) (PortStart c1) (i64 (Uint ctx ScanPortEnd)) else c1.

(** [Parse]: the error of [ParseIps] is dropped. *)
Definition Parse ctx c : Config * bool :=
  let c1 := ParseInterval ctx (ParseMetrics ctx c) in
  let '(c2, _) := ParseIps ctx c1 in
  let '(c3, ok) := ParseBroker ctx c2 in
  if negb ok then (c3, false) else
  let '(c4, ok) := ParseDb ctx c3 in
  if negb ok then (c4, false) else ParseCache ctx c4.

(** ** Facts *)

Lemma ParseIps_result ctx c c' ok :
  ParseIps ctx c = (c', ok) -> exists ips, c' = set_ips c ips /\ Ips c `prefix_of` ips.
Proof.
  unfold ParseIps. destruct (IsSet ctx IpsFlag); simpl.
  - assert (forall raws ips, ips `prefix_of` (add_ips raws ips).1) as Hp.
    { induction raws as [|raw raws IH]; intros ips; simpl; [done|]. destruct (ParseIP raw); [|done].
      etransitivity; [by apply prefix_app_r|apply IH]. }
    specialize (Hp (StringSlice ctx IpsFlag) (Ips c)).
    destruct (add_ips _ _) as [ips ok']. intros [= <- <-]. by exists ips.
  - intros [= <- <-]. exists (Ips c). by destruct c.
Qed.

(** When the scanner's flags parse, each service that is switched on has
    all of its credentials, taken from its flags, and a service that is not
    mentioned keeps its configuration; the ports, threads and burst are never
    read from flags. *)
Theorem Parse_result ctx c c' :
  Parse ctx c = (c', true) ->
  (PortStart c' = PortStart c /\ PortEnd c' = PortEnd c /\ Threads c' = Threads c /\ Burst c' = Burst c) /\
  Ips c `prefix_of` Ips c' /\
  (if IsSet ctx brokerEnabled then
     IsSet ctx brokerUser && IsSet ctx brokerPassword && IsSet ctx brokerEndpoint = true /\
     (BrokerEnabled c', BrokerUser c', BrokerPassword c', BrokerEndpoint c') =
       (Bool_ ctx brokerEnabled, String_ ctx brokerUser, String_ ctx brokerPassword, String_ ctx brokerEndpoint)
   else (BrokerEnabled c', BrokerUser c', BrokerPassword c', BrokerEndpoint c') =
        (BrokerEnabled c, BrokerUser c, BrokerPassword c, BrokerEndpoint c)) /\
  (if IsSet ctx dbEnabled then
     IsSet ctx dbSource && IsSet ctx dbMigrationUrl = true /\
     (StoreEnabled c', StoreSource c', StoreMigration c') =
       (Bool_ ctx dbEnabled, String_ ctx dbSource, String_ ctx dbMigrationUrl)
   else (StoreEnabled c', StoreSource c', StoreMigration c') = (StoreEnabled c, StoreSource c, StoreMigration c)) /\
  (if IsSet ctx cacheEnabled then
     IsSet ctx cacheEndpoint && IsSet ctx cachePassword = true /\
     (CacheEnabled c', CacheEndpoint c', CachePassword c') =
       (Bool_ ctx cacheEnabled, String_ ctx cacheEndpoint, String_ ctx cachePassword)
   else (CacheEnabled c', CacheEndpoint c', CachePassword c') = (CacheEnabled c, CacheEndpoint c, CachePassword c)).
Proof.
  unfold Parse.
  set (c1 := ParseInterval ctx (ParseMetrics ctx c)).
  assert (set_limits c1 0 0 0 0 0 = set_limits (ParseMetrics ctx c) 0 0 0 0 0 /\ PortStart c1 = PortStart c /\
    PortEnd c1 = PortEnd c /\ Threads c1 = Threads c /\ Burst c1 = Burst c) as (H1 & Hps & Hpe & Ht & Hb).
  { unfold c1, ParseInterval, ParseMetrics. by repeat case_match. }
  destruct (ParseIps ctx c1) as [c2 b] eqn:Ei. apply ParseIps_result in Ei as (ips & -> & Hips).
  assert (forall {A} (f : Config -> A), f (set_limits c1 0 0 0 0 0) = f (set_limits (ParseMetrics ctx c) 0 0 0 0 0)) as Hf
    by (intros; by rewrite H1).
  pose proof (Hf _ Ips) as F1. pose proof (Hf _ BrokerEnabled) as F2. pose proof (Hf _ BrokerUser) as F3.
  pose proof (Hf _ BrokerPassword) as F4. pose proof (Hf _ BrokerEndpoint) as F5.
  pose proof (Hf _ StoreEnabled) as F6. pose proof (Hf _ StoreSource) as F7. pose proof (Hf _ StoreMigration) as F8.
  pose proof (Hf _ CacheEnabled) as F9. pose proof (Hf _ CacheEndpoint) as F10. pose proof (Hf _ CachePassword) as F11.
  clear Hf H1. clearbody c1.
  unfold ParseMetrics, ParseBroker, ParseDb, ParseCache in *. simpl in *.
  destruct (IsSet ctx MetricsFlag); simpl in *;
  destruct (IsSet ctx brokerEnabled), (IsSet ctx brokerUser), (IsSet ctx brokerPassword), (IsSet ctx brokerEndpoint);
    simpl; try done;
  destruct (IsSet ctx dbEnabled), (IsSet ctx dbSource), (IsSet ctx dbMigrationUrl); simpl; try done;
  destruct (IsSet ctx cacheEnabled), (IsSet ctx cacheEndpoint), (IsSet ctx cachePassword); simpl; try done;
  intros [= <-]; simpl; rewrite <- F1; split_and!; try done; congruence.
Qed.

(** A configuration that validates has addresses or a broker, and its
    burst, threads and interval are positive; but a [PortEnd] that is not
    positive is kept, and [PortStart] is moved to 65535 instead, so the range
    of ports is empty. *)
Theorem Validate_result c c' :
  Validate c = Some c' ->
  (Ips c' <> [] \/ BrokerEnabled c' = true) /\
  1 <= Burst c' /\ 1 <= Threads c' /\ Millisecond <= Interval c' /\ 0 <= PortStart c' /\
  PortEnd c' = PortEnd c /\
  (PortEnd c <= 0 -> PortStart c' = MaxTcpPort).
Proof.
  unfold Validate, set_limits, MaxTcpPort. destruct (bool_decide _ && _) eqn:Eb; [done|]. intros [= <-]. simpl.
  split; [|unfold Millisecond; repeat split; repeat case_decide; lia].
  apply andb_false_iff in Eb as [Eb|Eb].
  - apply bool_decide_eq_false in Eb. left. by intros Hn; rewrite Hn in Eb.
  - right. by apply negb_false_iff in Eb.
Qed.

End Parse.
End Scanner.

(** ** Concrete command lines *)

Module Demo.

Definition among (names : list string) (s : string) : bool := bool_decide (s ∈ names).

Definition crawl : Context :=
  mkContext (among ["nodes"; "fakecaps"]) (fun _ => false) (fun _ => "enode://a,enode://b")
    (fun _ => ["eth:66"; "snap:1"]) (fun _ => 0) (fun _ => 0) (fun _ => 0).

Lemma ParseNodes_result_witness :
  Crawler.ParseNodes Some crawl = Some ["enode://a"; "enode://b"].
Proof.
  apply (Crawler.ParseNodes_result Some crawl); [reflexivity|discriminate|].
  eexists. split; [reflexivity|]. split; [reflexivity|].
  repeat constructor.
Defined.

Lemma ParseFakeCaps_result_witness :
  Crawler.ParseFakeCaps crawl = Some [Crawler.mkCap "eth" 66; Crawler.mkCap "snap" 1] /\
  [Crawler.mkCap "eth" 66; Crawler.mkCap "snap" 1] <> [].
Proof.
  split; [reflexivity|]. exact (proj1 (Crawler.ParseFakeCaps_result crawl _ eq_refl)).
Defined.

Definition scan : Context :=
  mkContext (among ["db_enabled"; "db_source"; "db_migration_url"; "port_start"]) (fun _ => true) (fun s => s)
    (fun _ => []) (fun _ => 80) (fun _ => 80) (fun _ => 80).

Definition parsed : Scanner.Config := (Scanner.Parse (fun _ => None) scan (Scanner.DefaultConfig 4)).1.

Lemma Parse_result_witness :
  Scanner.Parse (fun _ => None) scan (Scanner.DefaultConfig 4) = (parsed, true) /\ Scanner.PortStart parsed = 0.
Proof.
  split; [reflexivity|].
  destruct (Scanner.Parse_result (fun _ => None) scan (Scanner.DefaultConfig 4) parsed eq_refl) as [[H _] _]. exact H.
Defined.

Definition unscanned : Scanner.Config :=
  Scanner.set_limits (Scanner.set_ips (Scanner.DefaultConfig 4) [[9; 9; 9; 9]]) 4 10 Second 22 0.

Lemma Validate_result_witness :
  exists c, Scanner.Validate unscanned = Some c /\ Scanner.PortStart c = 65535 /\ Scanner.PortEnd c = 0.
Proof.
  eexists. split; [reflexivity|].
  destruct (Scanner.Validate_result unscanned _ eq_refl) as (_ & _ & _ & _ & _ & He & Hs).
  split; [apply Hs; reflexivity|exact He].
Defined.

End Demo.
