(* ===== verification/Scanner.v ===== *)
(** * scanner/scanner: the port scanner

    scanner.go, nodeScanner.go and cache.go.  A scan of a range of ports; the
    controller, whose goroutines take items from a channel; and the node
    scanner, which scans the addresses of the nodes it hears of, once for as
    long as the cache remembers them. *)

From Stdlib Require Import ZArith Lia Permutation.
From stdpp Require Import base list gmap strings relations.
From S2P Require Import Prelude Golang NetIP Config.
Open Scope Z_scope.
Open Scope outcome_scope.

Definition MaxTcpPort : Z := 65535.
Definition logInterval : Z := 15 * Second.
Definition dialTimeout : Z := Second / 2.

Record scanItem := mkItem { Ip : IP; PortStart : Z; PortEnd : Z }.

(** The ports of an item are 16 bits wide. *)
Definition item_ok (i : scanItem) : Prop := 0 <= PortStart i < 2 ^ 16 /\ 0 <= PortEnd i < 2 ^ 16.

Record scannedItem := mkScanned { Src : scanItem; Open : list Z; startedAt : Z; finishedAt : Z }.

Definition StartedAt (r : scannedItem) : Z := time_UnixMilli (startedAt r).
Definition FinishedAt (r : scannedItem) : Z := time_UnixMilli (finishedAt r).

(** ** Scanning a range

    [wait i] is whether the limiter lets port [i] be scanned (its error is a
    cancelled context), [IsOpen i] whether the port accepts a connection. *)
Section ScanItem.
Context (wait IsOpen : Z -> bool).

(** The loop from port [i]: the open ports and where it stopped. *)
Fixpoint scan_ports (fuel : nat) (i last : Z) (open : list Z) : list Z * option Z :=
  match fuel with
  | O => (open, None)
  | S fuel' =>
      if decide (i <= last) then
        if negb (wait i) then (open, Some i)
        else scan_ports fuel' (i + 1) last (if IsOpen i then open ++ [i] else open)
      else (open, None)
  end.

(** The deferred function stores into the variable [result] after its value
    was returned, so [finishedAt] stays 0. *)
Definition ScanItem (now : Z) (item : scanItem) : scannedItem * Z :=
  let last := if decide (PortEnd item > MaxTcpPort) then MaxTcpPort else PortEnd item in
  match scan_ports (Z.to_nat (last - PortStart item + 1)) (PortStart item) last [] with
  | (open, Some i) => (mkScanned item open (to_UnixMilli now) 0, u16 i)
  | (open, None) => (mkScanned item open (to_UnixMilli now) 0, PortEnd item)
  end.

(** What [runScanner] does with an item: the result on the callback, or
    [None] when it closes the callback and ends. *)
Definition runScanner_item (now : Z) (item : scanItem) : option scannedItem :=
  let '(result, index) := ScanItem now item in
  if bool_decide (index <> PortEnd (Src result)) then None else Some result.

(** ** The specification of a scan *)

Fixpoint while (f : Z -> bool) (l : list Z) : list Z :=
  match l with x :: l' => if f x then x :: while f l' else [] | [] => [] end.

Definition ports (item : scanItem) : list Z := seqZ (PortStart item) (PortEnd item - PortStart item + 1).

Lemma scan_ports_spec fuel i last open :
  0 <= i -> (Z.to_nat (last - i + 1) <= fuel)%nat ->
  let scanned := while wait (seqZ i (last - i + 1)) in
  scan_ports fuel i last open =
    (open ++ filter (fun p => IsOpen p = true) scanned,
     if decide (Z.of_nat (length scanned) < last - i + 1) then Some (i + Z.of_nat (length scanned)) else None).
Proof.
  revert i open. induction fuel as [|fuel IH]; intros i open Hi Hf; cbn -[seqZ].
  { rewrite seqZ_nil by lia. simpl. rewrite app_nil_r, decide_False by lia. done. }
  case_decide as Hl; [|rewrite seqZ_nil by lia; simpl; by rewrite app_nil_r, decide_False by lia].
  rewrite seqZ_cons by lia. replace (Z.pred (last - i + 1)) with (last - (i + 1) + 1) by lia.
  change (Z.succ i) with (i + 1). cbn [while].
  destruct (wait i); simpl; [|by rewrite app_nil_r, decide_True, Z.add_0_r by lia].
  rewrite IH by lia. rewrite filter_cons. f_equal.
  - destruct (IsOpen i); [rewrite decide_True by done|by rewrite decide_False].
    by rewrite <- (assoc_L (++)).
  - do 2 case_decide; try lia; [f_equal; lia|done].
Qed.

Lemma while_length f l : (length (while f l) <= length l)%nat.
Proof. induction l as [|x l IH]; simpl; [done|]. destruct (f x); simpl; lia. Qed.

Lemma while_full f l : length (while f l) = length l -> while f l = l.
Proof.
  induction l as [|x l IH]; simpl; [done|]. destruct (f x); simpl; [|done]. intros [= H]. by rewrite IH.
Qed.

Lemma while_true f l x : x ∈ while f l -> f x = true.
Proof.
  induction l as [|y l IH]; simpl; [by intros ?%elem_of_nil|].
  destruct (f y) eqn:Ey; [|by intros ?%elem_of_nil]. intros [Hxy|Hx]%elem_of_cons; [congruence|by apply IH].
Qed.

Lemma ports_length item : Z.of_nat (length (ports item)) = Z.max 0 (PortEnd item - PortStart item + 1).
Proof. unfold ports. rewrite length_seqZ. lia. Qed.

(** ** Facts *)

Lemma ScanItem_spec now item :
  item_ok item ->
  let scanned := while wait (ports item) in
  ScanItem now item =
    (mkScanned item (filter (fun p => IsOpen p = true) scanned) (to_UnixMilli now) 0,
     if decide (length scanned = length (ports item)) then PortEnd item
     else PortStart item + Z.of_nat (length scanned)).
Proof.
  intros [Hs He] scanned. unfold ScanItem, MaxTcpPort. rewrite decide_False by lia.
  rewrite scan_ports_spec by lia. fold (ports item) scanned.
  pose proof (while_length wait (ports item)) as Hl. fold scanned in Hl. pose proof (ports_length item).
  do 2 case_decide; try lia; [|done]. simpl. unfold u16. rewrite wrap_u_small by lia. done.
Qed.

(** The first port that the limiter refuses. *)
Lemma first_refused f (l : list Z) p :
  p ∈ l -> f p = false ->
  exists k q, l !! k = Some q /\ f q = false /\ length (while f l) = k /\
    forall j x, (j < k)%nat -> l !! j = Some x -> f x = true.
Proof.
  intros Hp Hw. induction l as [|x l IH]; [by apply elem_of_nil in Hp|]. simpl.
  destruct (f x) eqn:Ex; simpl.
  - apply elem_of_cons in Hp as [->|Hp]; [congruence|]. destruct (IH Hp) as (k & q & H1 & H2 & H3 & H4).
    exists (S k), q. split_and!; [done|done|by f_equal|]. intros [|j] y Hj Hy; simpl in *; [congruence|].
    apply (H4 j); [lia|done].
  - exists 0%nat, x. split_and!; [done|done|done|]. intros. lia.
Qed.

Lemma while_all f (l : list Z) : (forall p, p ∈ l -> f p = true) -> while f l = l.
Proof.
  induction l as [|p l IH]; intros Hall; [done|]. simpl. rewrite Hall by by left.
  f_equal. apply IH. intros q Hq. apply Hall. by right.
Qed.

Lemma scan_refused now item r index p :
  item_ok item -> ScanItem now item = (r, index) -> p ∈ ports item -> wait p = false ->
  PortStart item <= index <= PortEnd item /\ wait index = false /\
  (forall p, PortStart item <= p < index -> wait p = true).
Proof.
  intros Hok Hr Hp Hw. pose proof (ScanItem_spec now item Hok) as Hspec. simpl in Hspec. rewrite Hspec in Hr.
  rewrite decide_False in Hr.
  - injection Hr as _ <-. destruct Hok as [Hs He].
    destruct (first_refused wait (ports item) p Hp Hw) as (k & q & Hq & Hqw & Hk & Hj).
    unfold ports in Hq. rewrite lookup_seqZ in Hq. destruct Hq as [-> Hq]. rewrite Hk.
    split_and!; [lia|lia|done|]. intros y Hy. apply (Hj (Z.to_nat (y - PortStart item))); [lia|].
    unfold ports. apply lookup_seqZ. lia.
  - intros Hl%while_full. rewrite <- Hl in Hp. apply while_true in Hp. congruence.
Qed.

(** A scan tries the ports of its range in ascending order, both ends
    included and also when the range ends at 65535, until the limiter refuses
    one; it returns the open ones among those, and the port it was refused, or
    the end of the range. *)
Theorem ScanItem_result now item r index :
  item_ok item -> ScanItem now item = (r, index) ->
  Src r = item /\ Open r = filter (fun p => IsOpen p = true) (while wait (ports item)) /\
  ((forall p, p ∈ ports item -> wait p = true) ->
     Open r = filter (fun p => IsOpen p = true) (ports item) /\ index = PortEnd item) /\
  ((exists p, p ∈ ports item /\ wait p = false) ->
     PortStart item <= index <= PortEnd item /\ wait index = false /\
     (forall p, PortStart item <= p < index -> wait p = true)).
Proof.
  intros Hok Hr. pose proof (ScanItem_spec now item Hok) as Hspec. simpl in Hspec. rewrite Hr in Hspec.
  injection Hspec as Hsrc Hidx. rewrite Hsrc. split_and!; [done|done| |].
  - intros Hall. rewrite Hidx, (while_all _ _ Hall), decide_True by done. done.
  - intros (p & Hp & Hw). by eapply scan_refused.
Qed.

(** A scan that is cancelled at the last port of its range is delivered as a
    complete one, although that port was not tried. *)
Lemma cancelled_at_end_delivered now item :
  item_ok item -> PortStart item <= PortEnd item -> wait (PortEnd item) = false ->
  (forall p, PortStart item <= p < PortEnd item -> wait p = true) ->
  exists r, runScanner_item now item = Some r /\ PortEnd item ∉ Open r.
Proof.
  intros Hok Hle Hw Hall. unfold runScanner_item. destruct (ScanItem now item) as [r index] eqn:Es.
  pose proof (ScanItem_spec now item Hok) as Hspec. simpl in Hspec. rewrite Es in Hspec.
  injection Hspec as -> _.
  destruct (scan_refused _ _ _ _ (PortEnd item) Hok Es) as (Hb & Hi & _); [apply elem_of_seqZ; lia|done|].
  assert (index = PortEnd item) as Hidx.
  { destruct (decide (index = PortEnd item)); [done|]. rewrite Hall in Hi by lia. done. }
  simpl. rewrite bool_decide_eq_false_2 by tauto. eexists. split; [done|]. simpl. intros [_ Hx%while_true]%list_elem_of_filter. congruence.
Qed.

(** The duration that is logged is the time since 1970, negated. *)
Lemma finishedAt_unset now item : FinishedAt (ScanItem now item).1 = 0.
Proof. unfold ScanItem. by destruct (scan_ports _ _ _ _) as [? [?|]]. Qed.

End ScanItem.

(** ** The controller *)

Record ScannerController := mkController {
  threads : Z; maxBurst : Z; maxFrequency : Z; ctl_dialTimeout : Z; done : option bool }.

(** [done] is not set: it stays the nil channel. *)
Definition NewScannerController (n burst interval : Z) : ScannerController :=
  mkController n burst interval dialTimeout None.

(** The goroutine that [Stop]'s signal wakes closes [done]. *)
Definition Stop (c : ScannerController) : outcome ScannerController :=
  match done c with
  | None => Panic CloseOfNilChannel
  | Some true => Panic CloseOfClosedChannel
  | Some false => Ok (mkController (threads c) (maxBurst c) (maxFrequency c) (ctl_dialTimeout c) (Some true))
  end.

(** The burst and the interval of the limiter each goroutine makes. *)
Definition scanner_limits (c : ScannerController) : outcome (Z * Z) :=
  d ← div_i64 (maxFrequency c) (threads c); Ok (i64 (maxBurst c * threads c), i64 (d + 1)).

(** The goroutines and the callers: [offered] are the callers at the channel
    [in], [scanning] the items taken; [idle] are the goroutines that wait for
    an item; [results] what was sent to the callbacks, [None] when a callback
    was closed, and [gone] the callers that gave up. *)
Record ctl := mkCtl {
  idle : nat; offered : list (nat * scanItem); scanning : list (nat * scanItem);
  results : list (nat * option scannedItem); gone : list nat; asked : list nat }.

Definition new_ctl (c : ScannerController) : ctl := mkCtl (Z.to_nat (threads c)) [] [] [] [] [].

Inductive ctl_step (s : ctl) : ctl -> Prop :=
| ct_offer k item :
    k ∉ asked s ->
    ctl_step s (mkCtl (idle s) (offered s ++ [(k, item)]) (scanning s) (results s) (gone s) (asked s ++ [k]))
| ct_give_up o1 k item o2 :
    offered s = o1 ++ (k, item) :: o2 ->
    ctl_step s (mkCtl (idle s) (o1 ++ o2) (scanning s) (results s) (gone s ++ [k]) (asked s))
| ct_take n o1 k item o2 :
    idle s = S n -> offered s = o1 ++ (k, item) :: o2 ->
    ctl_step s (mkCtl n (o1 ++ o2) (scanning s ++ [(k, item)]) (results s) (gone s) (asked s))
| ct_finish s1 k item s2 wait IsOpen now :
    scanning s = s1 ++ (k, item) :: s2 ->
    ctl_step s (mkCtl (match runScanner_item wait IsOpen now item with Some _ => S (idle s) | None => idle s end)
                  (offered s) (s1 ++ s2) (results s ++ [(k, runScanner_item wait IsOpen now item)]) (gone s) (asked s)).

Record ctl_inv (c : ScannerController) (s : ctl) : Prop := {
  cl_where : Permutation (asked s) ((offered s).*1 ++ (scanning s).*1 ++ (results s).*1 ++ gone s);
  cl_once : NoDup (asked s);
  cl_threads : (idle s + length (scanning s) + length (filter (fun r => r.2 = None) (results s)) = Z.to_nat (threads c))%nat }.

Lemma ctl_step_inv c s s' : ctl_inv c s -> ctl_step s s' -> ctl_inv c s'.
Proof.
  intros [H1 H2 H3] Hs. destruct Hs as [k item Hk|o1 k item o2 Ho|n o1 k item o2 Hn Ho|s1 k item s2 w op now Hsc].
  - constructor; simpl; [|by apply NoDup_snoc|done]. rewrite H1, fmap_app. simpl. solve_Permutation.
  - constructor; simpl; [|done|done]. rewrite H1, Ho, !fmap_app. simpl. solve_Permutation.
  - constructor; simpl; [|done|rewrite length_app; simpl; lia].
    rewrite H1, Ho, !fmap_app. simpl. solve_Permutation.
  - constructor; simpl; [|done|].
    + rewrite H1, Hsc, !fmap_app. simpl. solve_Permutation.
    + rewrite Hsc in H3. rewrite filter_app, !length_app in *. simpl in H3 |- *. rewrite filter_cons. simpl.
      destruct (runScanner_item w op now item); simpl; lia.
Qed.

Lemma ctl_reach_inv c s : rtc ctl_step (new_ctl c) s -> ctl_inv c s.
Proof.
  intros Hr. run_invariant (ctl_step_inv c). constructor; simpl; [done|apply NoDup_nil_2|lia].
Qed.

(** The controller scans at most [threads] addresses at once, and every
    scan that was asked for is waiting, under way, answered once, or given up
    by its caller; each answer that is a closed callback ends a goroutine for
    good. *)
Theorem controller_conserves c s :
  rtc ctl_step (new_ctl c) s ->
  Permutation (asked s) ((offered s).*1 ++ (scanning s).*1 ++ (results s).*1 ++ gone s) /\
  NoDup ((results s).*1) /\
  (length (scanning s) + length (filter (fun r => r.2 = None) (results s)) <= Z.to_nat (threads c))%nat.
Proof.
  intros [H1 H2 H3]%ctl_reach_inv. split_and!; [done| |lia].
  rewrite H1 in H2. by apply NoDup_app in H2 as (_ & _ & (_ & _ & (H2 & _)%NoDup_app)%NoDup_app).
Qed.

(** Stopping a controller panics. *)
Lemma Stop_panics n burst interval : Stop (NewScannerController n burst interval) ↯ CloseOfNilChannel.
Proof. reflexivity. Qed.

(** Each of the [n] goroutines has a limiter of its own whose interval is
    already divided by [n]: together they open a connection more often than
    the interval of the configuration allows. *)
Lemma scans_exceed_interval n burst interval :
  2 <= n -> 2 * n <= interval <= MaxInt64 -> 0 <= burst -> n <= MaxInt64 ->
  exists b i, scanner_limits (NewScannerController n burst interval) ⇓ (b, i) /\ i < interval.
Proof.
  intros Hn Hi Hb Hm. unfold scanner_limits, div_i64. simpl. rewrite decide_False by lia.
  eexists _, _. split; [reflexivity|].
  assert (0 <= Z.quot interval n <= interval / 2) as Hq.
  { rewrite Z.quot_div_nonneg by lia. split; [apply Z.div_pos; lia|apply Z.div_le_compat_l; lia]. }
  pose proof (Z.mul_div_le interval 2 ltac:(lia)). unfold MaxInt64 in *.
  rewrite !i64_small by (unfold MinInt64, MaxInt64; try rewrite i64_small by (unfold MinInt64, MaxInt64; lia); lia). lia.
Qed.

(** ** The node scanner and its cache

    [ParseV4] is the parser of [enode] for the text of a record, here with
    the address of the node it gives.  The cache is the set of its keys; a key
    expires after twelve hours. *)

Definition scan_key (a : IP) : string := "scan.ip"%string +:+ "."%string +:+ IP_String a.

Definition cacheScan (cache : gset string) (a : IP) : gset string * bool :=
  if decide (scan_key a ∈ cache) then (cache, false) else ({[scan_key a]} ∪ cache, true).

Definition deleteScan (cache : gset string) (a : IP) : gset string := cache ∖ {[scan_key a]}.

Definition convertArray (uints : list Z) : list Z := map i32 uints.

Record scanRecord := mkScanRecord { rec_Node : string; rec_Ip : string; rec_Ports : list Z }.

(** [under_way] are the scans handed to the controller whose callback has not
    run: the text of the record and the address; [dropped] those whose
    callback will not run, since the context was done first, or that were not
    handed over and not deleted. *)
Record nodeScanner := mkNodeScanner {
  cache : gset string; under_way : list (string * IP); records : list (IP * scanRecord);
  ns_ctx_done : bool; dropped : list IP }.

Definition NewNodeScanner : nodeScanner := mkNodeScanner ∅ [] [] false [].

Definition set_scans (s : nodeScanner) c u r := mkNodeScanner c u r (ns_ctx_done s) (dropped s).

Inductive node_result : Type := InvalidRecord | InvalidIp | CacheHit | Scanning | ScanFailed.

Section NodeScanner.
Context (ParseV4 : string -> option IP).

(** scanner/broker: the loop of [SubscribeNewNodes] passes the messages on
    that decode, in order, and drops the others.  [Unmarshal] gives the text
    of the record in a message. *)
Definition SubscribeNewNodes {M} (Unmarshal : M -> option string) (msgs : list M) : list string :=
  omap Unmarshal msgs.

(** One node from the broker; [accepted] is whether [ScanNoWait] hands the
    item to the controller, and [deleted] whether the cache, which answers
    otherwise, carries out a deletion asked for with a context that is done. *)
Definition on_node (accepted deleted : bool) (enr : string) (s : nodeScanner) : nodeScanner * node_result :=
  match ParseV4 enr with
  | None => (s, InvalidRecord)
  | Some ip =>
      if negb (IsGlobalUnicast ip) then (s, InvalidIp)
      else
        let '(c, fresh) := cacheScan (cache s) ip in
        if negb fresh then (set_scans s c (under_way s) (records s), CacheHit)
        else if accepted then (set_scans s c (under_way s ++ [(enr, ip)]) (records s), Scanning)
        else if deleted then (set_scans s (deleteScan c ip) (under_way s) (records s), ScanFailed)
        else (mkNodeScanner c (under_way s) (records s) (ns_ctx_done s) (ip :: dropped s), ScanFailed)
  end.

(** The item a node is scanned with. *)
Definition node_item (ip : IP) : scanItem := mkItem ip 22 MaxTcpPort.

(** The callback of the scan between [u1] and [u2]. *)
Definition callback (item : option scannedItem) (s : nodeScanner) u1 (enr : string) (ip : IP) u2 : nodeScanner :=
  match item with
  | None => set_scans s (deleteScan (cache s) ip) (u1 ++ u2) (records s)
  | Some r =>
      set_scans s (cache s) (u1 ++ u2)
        (records s ++ [(ip, mkScanRecord enr (IP_String (Ip (Src r))) (convertArray (Open r)))])
  end.

(** The goroutine of [ScanNoWait] that waits for the item may see the end of
    the context instead. *)
Definition drop_scan (s : nodeScanner) u1 (ip : IP) u2 : nodeScanner :=
  mkNodeScanner (cache s) (u1 ++ u2) (records s) (ns_ctx_done s) (ip :: dropped s).

(** [ScanNoWait] fails only when the context is done: the controller's [done]
    is never closed ([Stop_panics]). *)
Inductive node_step (s : nodeScanner) : nodeScanner -> Prop :=
| nd_node accepted deleted enr :
    accepted = true \/ ns_ctx_done s = true -> node_step s (on_node accepted deleted enr s).1
| nd_callback wait IsOpen now u1 enr ip u2 :
    under_way s = u1 ++ (enr, ip) :: u2 ->
    node_step s (callback (runScanner_item wait IsOpen now (node_item ip)) s u1 enr ip u2)
| nd_cancel : node_step s (mkNodeScanner (cache s) (under_way s) (records s) true (dropped s))
| nd_drop u1 enr ip u2 :
    ns_ctx_done s = true -> under_way s = u1 ++ (enr, ip) :: u2 -> node_step s (drop_scan s u1 ip u2).

(** The addresses that were taken on and not given up again. *)
Definition taken (s : nodeScanner) : list IP := (under_way s).*2 ++ (records s).*1 ++ dropped s.

(** The three facts depend on the scans only up to their order. *)
Definition covers (c : gset string) (l : list IP) : Prop :=
  NoDup (map scan_key l) /\ c = list_to_set (map scan_key l) /\ Forall (fun ip => IsGlobalUnicast ip = true) l.

#[export] Instance covers_perm c : Proper (Permutation ==> iff) (covers c).
Proof.
  assert (forall l l', Permutation l l' -> covers c l -> covers c l') as H.
  { intros l l' Hp (H1 & H2 & H3). unfold covers. rewrite <- Hp. split; [done|]. split; [|done].
    rewrite H2. apply list_to_set_perm_L. by rewrite Hp. }
  intros l l' Hp. split; apply H; by rewrite Hp.
Qed.

Record node_inv (s : nodeScanner) : Prop := {
  nv_covers : covers (cache s) (taken s);
  nv_dropped : ns_ctx_done s = false -> dropped s = [] }.

Lemma covers_add c l a :
  covers c l -> scan_key a ∉ c -> IsGlobalUnicast a = true -> covers ({[scan_key a]} ∪ c) (a :: l).
Proof.
  intros (H1 & H2 & H3) Hn Hu. split_and!; simpl; [|by rewrite H2|by constructor].
  apply NoDup_cons. split; [|done]. intros Hin. apply Hn. rewrite H2. by apply elem_of_list_to_set.
Qed.

Lemma covers_delete c l a : covers c (a :: l) -> covers (deleteScan c a) l.
Proof.
  intros ((Hn & H1)%NoDup_cons & H2 & (Hu & H3)%Forall_cons). split_and!; [done| |done].
  unfold deleteScan. rewrite H2. simpl. apply leibniz_equiv. intros x.
  rewrite elem_of_difference, elem_of_union, !elem_of_singleton, elem_of_list_to_set.
  split; [tauto|]. intros Hx. split; [by right|]. by intros ->.
Qed.

Lemma taken_perm (s : nodeScanner) u1 enr ip u2 :
  under_way s = u1 ++ (enr, ip) :: u2 -> Permutation (taken s) (ip :: (u1 ++ u2).*2 ++ (records s).*1 ++ dropped s).
Proof. intros Hu. unfold taken. rewrite Hu, !fmap_app. simpl. solve_Permutation. Qed.

Lemma node_step_inv s s' : node_inv s -> node_step s s' -> node_inv s'.
Proof.
  intros [Hi Hd] [accepted deleted enr Hacc|w op now u1 enr ip u2 Hu| |u1 enr ip u2 Hx Hu].
  - unfold on_node. destruct (ParseV4 enr) as [ip|]; [|done].
    destruct (IsGlobalUnicast ip) eqn:Eu; [|done]. simpl.
    unfold cacheScan. case_decide as Hc; simpl; [done|].
    pose proof (covers_add _ _ _ Hi Hc Eu) as Ha.
    destruct accepted; [|destruct deleted]; simpl; constructor; simpl; try done.
    + revert Ha. apply covers_perm. unfold taken. simpl. rewrite fmap_app. simpl. solve_Permutation.
    + by apply covers_delete in Ha.
    + revert Ha. apply covers_perm. unfold taken. simpl. solve_Permutation.
    + destruct Hacc; congruence.
  - rewrite (taken_perm _ _ _ _ _ Hu) in Hi. unfold callback.
    destruct (runScanner_item w op now (node_item ip)); constructor; simpl; try done.
    + revert Hi. apply covers_perm. unfold taken. simpl. rewrite !fmap_app. simpl. solve_Permutation.
    + by apply covers_delete in Hi.
  - by constructor.
  - rewrite (taken_perm _ _ _ _ _ Hu) in Hi. constructor; simpl; [|congruence].
    revert Hi. apply covers_perm. unfold taken. simpl. solve_Permutation.
Qed.

Lemma node_reach_inv s : rtc node_step NewNodeScanner s -> node_inv s.
Proof. intros Hr. run_invariant node_step_inv. constructor; [|done]. split_and!; [apply NoDup_nil_2|done|constructor]. Qed.

(** A scan that is dropped at the end of the context stays in the cache: its
    address is not scanned again until the key expires. *)
Lemma dropped_stays_cached s ip : rtc node_step NewNodeScanner s -> ip ∈ dropped s -> scan_key ip ∈ cache s.
Proof.
  intros [(_ & -> & _) _]%node_reach_inv Hin. apply elem_of_list_to_set, list_elem_of_fmap.
  exists ip. split; [done|]. unfold taken. set_solver.
Qed.

(** While no key expires, an address is scanned at most once however
    often its nodes are announced: the scans under way, the records made and
    the scans dropped at the end of the context are of distinct global unicast
    addresses, and these are exactly the ones in the cache, so a scan that
    crashed can be asked for again.  Before the context is done none
    is dropped. *)
Theorem nodes_scanned_once s :
  rtc node_step NewNodeScanner s ->
  NoDup (map scan_key (taken s)) /\
  Forall (fun ip => IsGlobalUnicast ip = true) (taken s) /\
  (forall k, k ∈ cache s <-> exists ip, ip ∈ taken s /\ scan_key ip = k) /\
  (forall accepted deleted enr ip, ParseV4 enr = Some ip -> IsGlobalUnicast ip = true ->
     (on_node accepted deleted enr s).2 = CacheHit <-> exists ip', ip' ∈ taken s /\ scan_key ip' = scan_key ip) /\
  (ns_ctx_done s = false -> dropped s = []).
Proof.
  intros [(H1 & H2 & H3) H4]%node_reach_inv.
  assert (forall k, k ∈ cache s <-> exists ip, ip ∈ taken s /\ scan_key ip = k) as Hc.
  { intros k. rewrite H2, elem_of_list_to_set. rewrite list_elem_of_fmap. naive_solver. }
  split_and!; [done..| |done]. intros accepted deleted enr ip Hp Hu. rewrite <- Hc. unfold on_node. rewrite Hp, Hu. simpl.
  unfold cacheScan. case_decide as Hd; simpl; [done|]. by destruct accepted, deleted.
Qed.

End NodeScanner.

(** ** Concrete runs *)

Module Demo.

Definition item : scanItem := mkItem [9; 9; 9; 9] 65530 65535.
Definition web (p : Z) : bool := bool_decide (p = 65535).

Lemma item_is_ok : item_ok item.
Proof. unfold item_ok. simpl. lia. Qed.

Lemma ScanItem_result_witness :
  ScanItem (fun _ => true) web 0 item = (mkScanned item [65535] 0 0, 65535) /\
  [65535] = filter (fun p => web p = true) (ports item).
Proof.
  split; [reflexivity|].
  destruct (ScanItem_result (fun _ => true) web 0 item _ _ item_is_ok eq_refl) as (_ & _ & H & _).
  exact (proj1 (H (fun _ _ => eq_refl))).
Defined.

Definition controller : ScannerController := NewScannerController 2 10 Second.

Definition scanning_one : ctl := mkCtl 1 [] [(7%nat, item)] [] [] [7%nat].

Lemma controller_conserves_witness :
  rtc ctl_step (new_ctl controller) scanning_one /\ NoDup ((results scanning_one).*1).
Proof.
  assert (rtc ctl_step (new_ctl controller) scanning_one) as Hr.
  { eapply rtc_l; [apply (ct_offer _ 7%nat item), not_elem_of_nil|].
    eapply rtc_l; [apply (ct_take _ 1 [] 7%nat item []); reflexivity|]. apply rtc_refl. }
  split; [exact Hr|]. exact (proj1 (proj2 (controller_conserves controller _ Hr))).
Defined.

Definition heard : nodeScanner := (on_node (fun _ => Some [9; 9; 9; 9]) true false "enode://a" NewNodeScanner).1.

Lemma nodes_scanned_once_witness :
  rtc (node_step (fun _ => Some [9; 9; 9; 9])) NewNodeScanner heard /\
  (on_node (fun _ => Some [9; 9; 9; 9]) true false "enode://b" heard).2 = CacheHit.
Proof.
  assert (rtc (node_step (fun _ => Some [9; 9; 9; 9])) NewNodeScanner heard) as Hr.
  { eapply rtc_l; [apply (nd_node _ _ true false "enode://a"%string); by left|apply rtc_refl]. }
  split; [exact Hr|].
  destruct (nodes_scanned_once _ _ Hr) as (_ & _ & _ & H & _).
  apply (H true false "enode://b"%string [9; 9; 9; 9] eq_refl eq_refl).
  exists [9; 9; 9; 9]. split; [|reflexivity]. apply list_elem_of_singleton. reflexivity.
Defined.

End Demo.
