(* ===== verification/NodeScan.v ===== *)
(** * scanner/scanner: the node scanner and the controller together

    Scanner.v has the controller's goroutines and the node scanner apart from
    each other: there a node is taken on, or not, in one step, and the result
    of its scan is any result.  Here they run beside each other: the loop of
    [Start] that waits in [ScanNoWait], the goroutine of each [ScanNoWait] that
    waits for its result, and the threads of the controller.  The composition
    refines the node scanner of Scanner.v. *)

From stdpp Require Import base list gmap strings relations.
From Stdlib Require Import ZArith Lia Permutation.
From S2P Require Import Prelude Golang NetIP Scanner.
Local Open Scope Z_scope.

Section NodeScan.
Context (ParseV4 : string -> option IP) (c : ScannerController).

(** The loop of [Start] waits for a node, or is in [ScanNoWait] of the [k]-th
    scan; [waits] tells whether the goroutine of that call is still there. *)
Inductive loop_pc : Set := NsWait | NsOffer (k : nat) (waits : bool).

(** [asked_for] are the nodes that were offered to the controller, which are
    numbered; [live] the goroutines that wait for the result of a scan the
    controller took, and [lost] the scans without one.  The goroutine of a
    scan that was not taken can only end. *)
Record scan := mkScan {
  s_cache : gset string; asked_for : list (string * IP); s_loop : loop_pc; live : list nat;
  s_records : list (IP * scanRecord); s_ctx : bool; lost : list nat; ct : ctl }.

Definition new_scan : scan := mkScan ∅ [] NsWait [] [] false [] (new_ctl c).

Definition set_ct (t : ctl) (s : scan) : scan :=
  mkScan (s_cache s) (asked_for s) (s_loop s) (live s) (s_records s) (s_ctx s) (lost s) t.

(** [ScanNoWait] begins: its goroutine, and the select with the controller. *)
Definition offer (enr : string) (ip : IP) (ch : gset string) (s : scan) : scan :=
  let k := length (asked_for s) in
  mkScan ch (asked_for s ++ [(enr, ip)]) (NsOffer k true) (live s) (s_records s) (s_ctx s) (lost s)
    (mkCtl (idle (ct s)) (offered (ct s) ++ [(k, node_item ip)]) (scanning (ct s)) (results (ct s)) (gone (ct s))
       (asked (ct s) ++ [k])).

(** A node from the broker. *)
Definition on_enr (enr : string) (s : scan) : scan :=
  match ParseV4 enr with
  | None => s
  | Some ip =>
      if negb (IsGlobalUnicast ip) then s
      else let '(ch, fresh) := cacheScan (s_cache s) ip in if negb fresh then s else offer enr ip ch s
  end.

(** A thread of the controller takes the item. *)
Definition taken_on (n k : nat) (waits : bool) (item : scanItem) (s : scan) : scan :=
  mkScan (s_cache s) (asked_for s) NsWait (live s ++ (if waits then [k] else [])) (s_records s) (s_ctx s)
    (if waits then lost s else k :: lost s)
    (mkCtl n [] (scanning (ct s) ++ [(k, item)]) (results (ct s)) (gone (ct s)) (asked (ct s))).

(** [ScanNoWait] sees the end of the context, and the key is deleted or not. *)
Definition abandon (deleted : bool) (k : nat) (ip : IP) (s : scan) : scan :=
  mkScan (if deleted then deleteScan (s_cache s) ip else s_cache s) (asked_for s) NsWait (live s) (s_records s) (s_ctx s)
    (if deleted then lost s else k :: lost s)
    (mkCtl (idle (ct s)) [] (scanning (ct s)) (results (ct s)) (gone (ct s) ++ [k]) (asked (ct s))).

Definition finish (r : option scannedItem) s1 (k : nat) s2 (s : scan) : scan :=
  set_ct (mkCtl (match r with Some _ => S (idle (ct s)) | None => idle (ct s) end) (offered (ct s)) (s1 ++ s2)
            (results (ct s) ++ [(k, r)]) (gone (ct s)) (asked (ct s))) s.

(** The goroutine of a scan gets its result, and calls the callback. *)
Definition call_back (item : option scannedItem) l1 l2 (enr : string) (ip : IP) (s : scan) : scan :=
  mkScan (match item with None => deleteScan (s_cache s) ip | Some _ => s_cache s end) (asked_for s) (s_loop s) (l1 ++ l2)
    (match item with
     | None => s_records s
     | Some r => s_records s ++ [(ip, mkScanRecord enr (IP_String (Ip (Src r))) (convertArray (Open r)))]
     end) (s_ctx s) (lost s) (ct s).

Definition leave l1 (k : nat) l2 (s : scan) : scan :=
  mkScan (s_cache s) (asked_for s) (s_loop s) (l1 ++ l2) (s_records s) (s_ctx s) (k :: lost s) (ct s).

Inductive scan_step (s : scan) : scan -> Prop :=
| sc_node enr : s_loop s = NsWait -> scan_step s (on_enr enr s)
| sc_take n k waits item :
    s_loop s = NsOffer k waits -> idle (ct s) = S n -> offered (ct s) = [(k, item)] -> scan_step s (taken_on n k waits item s)
| sc_abandon deleted k waits enr ip :
    s_loop s = NsOffer k waits -> s_ctx s = true -> asked_for s !! k = Some (enr, ip) -> scan_step s (abandon deleted k ip s)
| sc_finish s1 k item s2 wait IsOpen now :
    scanning (ct s) = s1 ++ (k, item) :: s2 -> scan_step s (finish (runScanner_item wait IsOpen now item) s1 k s2 s)
| sc_result l1 k l2 r enr ip :
    live s = l1 ++ k :: l2 -> (k, r) ∈ results (ct s) -> asked_for s !! k = Some (enr, ip) ->
    scan_step s (call_back r l1 l2 enr ip s)
| sc_cancel :
    scan_step s (mkScan (s_cache s) (asked_for s) (s_loop s) (live s) (s_records s) true (lost s) (ct s))
| sc_leave_early k :
    s_loop s = NsOffer k true -> s_ctx s = true ->
    scan_step s (mkScan (s_cache s) (asked_for s) (NsOffer k false) (live s) (s_records s) (s_ctx s) (lost s) (ct s))
| sc_leave l1 k l2 : s_ctx s = true -> live s = l1 ++ k :: l2 -> scan_step s (leave l1 k l2 s).

(** ** The invariant *)

(** The item or the result of a scan is that of the node it was asked for. *)
Definition item_for (l : list (string * IP)) (x : nat * scanItem) : Prop :=
  exists enr ip, l !! x.1 = Some (enr, ip) /\ x.2 = node_item ip.
Definition result_for (l : list (string * IP)) (x : nat * option scannedItem) : Prop :=
  exists enr ip wait IsOpen now, l !! x.1 = Some (enr, ip) /\ x.2 = runScanner_item wait IsOpen now (node_item ip).

Record scan_inv (s : scan) : Prop := {
  sv_ctl : ctl_inv c (ct s);
  sv_asked : asked (ct s) = seq 0 (length (asked_for s));
  sv_offered : (offered (ct s)).*1 = match s_loop s with NsOffer k _ => [k] | NsWait => [] end;
  sv_items : Forall (item_for (asked_for s)) (offered (ct s) ++ scanning (ct s));
  sv_results : Forall (result_for (asked_for s)) (results (ct s));
  sv_scanning : (scanning (ct s)).*1 ⊆ live s ++ lost s;
  sv_known : Forall (fun k => k < length (asked_for s))%nat (live s ++ lost s);
  sv_early : forall k, s_loop s = NsOffer k false -> s_ctx s = true }.

(** What the composition is to the node scanner of Scanner.v: a scan that is
    being offered is in the cache already, and not taken on. *)
Record refines (s : scan) (a : nodeScanner) : Prop := {
  rf_under_way : under_way a = omap (fun k => asked_for s !! k) (live s);
  rf_records : records a = s_records s;
  rf_ctx : ns_ctx_done a = s_ctx s;
  rf_dropped : dropped a = omap (fun k => snd <$> asked_for s !! k) (lost s);
  rf_cache :
    match s_loop s with
    | NsWait => s_cache s = cache a
    | NsOffer k _ => exists enr ip, asked_for s !! k = Some (enr, ip) /\ ParseV4 enr = Some ip /\
        IsGlobalUnicast ip = true /\ scan_key ip ∉ cache a /\ s_cache s = {[scan_key ip]} ∪ cache a
    end }.

(** ** Lemmas *)

Lemma item_for_app l x i : item_for l i -> item_for (l ++ [x]) i.
Proof. intros (enr & ip & Hl & Hi). exists enr, ip. split; [by apply lookup_app_l_Some|done]. Qed.

Lemma result_for_app l x r : result_for l r -> result_for (l ++ [x]) r.
Proof.
  intros (enr & ip & w & op & now & Hl & Hr). exists enr, ip, w, op, now. split; [by apply lookup_app_l_Some|done].
Qed.

Lemma offered_one s k w : scan_inv s -> s_loop s = NsOffer k w ->
  exists enr ip, asked_for s !! k = Some (enr, ip) /\ offered (ct s) = [(k, node_item ip)].
Proof.
  intros Hi Hl. pose proof (sv_offered _ Hi) as Ho. rewrite Hl in Ho.
  destruct (offered (ct s)) as [|[k' item] [|]] eqn:E; try done. injection Ho as ->.
  pose proof (sv_items _ Hi) as Hit. rewrite E in Hit. apply Forall_cons in Hit as [(enr & ip & Hk & Hx) _].
  simpl in *. subst. by exists enr, ip.
Qed.

Lemma known_lt s k x : asked_for s !! k = Some x -> (k < length (asked_for s))%nat.
Proof. apply lookup_lt_Some. Qed.

(** A scan whose result is there, or that is offered or given up, is not
    under way. *)
Lemma not_scanning s k :
  scan_inv s -> k ∈ (offered (ct s)).*1 ++ (results (ct s)).*1 ++ gone (ct s) -> k ∉ (scanning (ct s)).*1.
Proof.
  intros Hi Hk Hs. destruct (sv_ctl _ Hi) as [Hp Hn _]. rewrite Hp in Hn.
  assert (Permutation ((offered (ct s)).*1 ++ (scanning (ct s)).*1 ++ (results (ct s)).*1 ++ gone (ct s))
    ((scanning (ct s)).*1 ++ (offered (ct s)).*1 ++ (results (ct s)).*1 ++ gone (ct s))) as Hq by solve_Permutation.
  rewrite Hq in Hn. apply NoDup_app in Hn as (_ & Hd & _). by apply (Hd k).
Qed.

(** ** Every step keeps the invariant *)

Lemma offer_inv enr ip ch s : scan_inv s -> s_loop s = NsWait -> scan_inv (offer enr ip ch s).
Proof.
  intros [H1 H2 H3 H4 H5 H6 H7 H8] Hl. rewrite Hl in H3.
  assert (offered (ct s) = []) as Ho by by destruct (offered (ct s)).
  constructor; simpl; try done.
  - eapply ctl_step_inv; [exact H1|]. apply (ct_offer _ (length (asked_for s)) (node_item ip)).
    rewrite H2. intros Hin%elem_of_seq. lia.
  - by rewrite length_app, Nat.add_1_r, seq_S, H2.
  - by rewrite Ho.
  - rewrite Ho in *. simpl in *. constructor.
    + exists enr, ip. simpl. by rewrite lookup_app_r, Nat.sub_diag by lia.
    + eapply Forall_impl; [exact H4|]. intros x. apply item_for_app.
  - eapply Forall_impl; [exact H5|]. intros x. apply result_for_app.
  - eapply Forall_impl; [exact H7|]. intros k. simpl. rewrite length_app. lia.
Qed.

Lemma on_enr_inv enr s : scan_inv s -> s_loop s = NsWait -> scan_inv (on_enr enr s).
Proof.
  intros Hi Hl. unfold on_enr. destruct (ParseV4 enr) as [ip|]; [|done]. destruct (IsGlobalUnicast ip); [|done].
  simpl. unfold cacheScan. case_decide; [done|]. by apply offer_inv.
Qed.

Lemma taken_on_inv n k w item s :
  scan_inv s -> s_loop s = NsOffer k w -> idle (ct s) = S n -> offered (ct s) = [(k, item)] -> scan_inv (taken_on n k w item s).
Proof.
  intros [H1 H2 H3 H4 H5 H6 H7 H8] Hl Hn Ho. rewrite Ho in *. simpl in *.
  apply Forall_cons in H4 as [Hk H4].
  assert (k < length (asked_for s))%nat as Hlt by (destruct Hk as (? & ? & Hk & _); by eapply known_lt).
  constructor; simpl; try done.
  - eapply ctl_step_inv; [exact H1|]. by apply (ct_take _ n [] k item []).
  - apply Forall_app. by split; [|constructor].
  - rewrite fmap_app. simpl. destruct w; intros x Hx; revert Hx; specialize (H6 x);
      rewrite ?elem_of_app, ?elem_of_cons, ?elem_of_nil in *; tauto.
  - destruct w; simpl; revert H7; rewrite !Forall_app, ?Forall_cons; intuition.
Qed.

Lemma abandon_inv deleted k w enr ip s :
  scan_inv s -> s_loop s = NsOffer k w -> asked_for s !! k = Some (enr, ip) -> scan_inv (abandon deleted k ip s).
Proof.
  intros Hi Hl Hk. destruct (offered_one s k w Hi Hl) as (enr' & ip' & _ & Ho).
  destruct Hi as [H1 H2 H3 H4 H5 H6 H7 H8]. rewrite Ho in H4. apply Forall_cons in H4 as [_ H4].
  constructor; simpl; try done.
  - eapply ctl_step_inv; [exact H1|]. by apply (ct_give_up _ [] k (node_item ip') []).
  - destruct deleted; [done|]. intros x Hx. apply H6 in Hx. rewrite elem_of_app in *. set_solver.
  - apply known_lt in Hk. destruct deleted; [done|]. revert H7. rewrite !Forall_app, Forall_cons. tauto.
Qed.

Lemma scan_finish_inv s1 k item s2 w op now s :
  scan_inv s -> scanning (ct s) = s1 ++ (k, item) :: s2 -> scan_inv (finish (runScanner_item w op now item) s1 k s2 s).
Proof.
  intros [H1 H2 H3 H4 H5 H6 H7 H8] Hs. rewrite Hs, !Forall_app, Forall_cons in H4.
  destruct H4 as (Ho & Hs1 & Hk & Hs2). constructor; simpl; try done.
  - eapply ctl_step_inv; [exact H1|]. by apply ct_finish.
  - rewrite !Forall_app. done.
  - apply Forall_app. split; [done|]. constructor; [|done]. destruct Hk as (enr & ip & Hk & Hit).
    simpl in Hit. subst item. by exists enr, ip, w, op, now.
  - intros x Hx. apply H6. rewrite Hs. rewrite !fmap_app in *. simpl. set_solver.
Qed.

Lemma result_inv l1 k l2 r enr ip s :
  scan_inv s -> live s = l1 ++ k :: l2 -> (k, r) ∈ results (ct s) -> scan_inv (call_back r l1 l2 enr ip s).
Proof.
  intros Hi Hl Hr. assert (k ∉ (scanning (ct s)).*1) as Hn.
  { apply not_scanning; [done|]. rewrite !elem_of_app. right; left. apply list_elem_of_fmap. by exists (k, r). }
  destruct Hi as [H1 H2 H3 H4 H5 H6 H7 H8]. rewrite Hl in H6, H7. constructor; simpl; try done.
  - intros x Hx. specialize (H6 x Hx). rewrite !elem_of_app, elem_of_cons in *.
    destruct H6 as [[|[->|]]|]; auto. done.
  - revert H7. rewrite !Forall_app, Forall_cons. tauto.
Qed.

Lemma leave_inv l1 k l2 s : scan_inv s -> live s = l1 ++ k :: l2 -> scan_inv (leave l1 k l2 s).
Proof.
  intros [H1 H2 H3 H4 H5 H6 H7 H8] Hl. rewrite Hl in H6, H7. constructor; simpl; try done.
  - intros x Hx. specialize (H6 x Hx). rewrite !elem_of_app, !elem_of_cons in *. tauto.
  - revert H7. rewrite !Forall_app, !Forall_cons. tauto.
Qed.

Lemma scan_step_inv s s' : scan_inv s -> scan_step s s' -> scan_inv s'.
Proof.
  intros Hi [enr Hl|n k w item Hl Hn Ho|del k w enr ip Hl Hx Hk|s1 k item s2 w op now Hs|l1 k l2 r enr ip Hl Hr Hk| |k Hl Hx|l1 k l2 Hx Hl].
  - by apply on_enr_inv.
  - by apply taken_on_inv.
  - by eapply abandon_inv.
  - by apply scan_finish_inv.
  - by eapply result_inv.
  - by destruct Hi.
  - destruct Hi as [H1 H2 H3 H4 H5 H6 H7 H8]. rewrite Hl in H3. by constructor.
  - by apply leave_inv.
Qed.

Lemma new_scan_inv : scan_inv new_scan.
Proof. constructor; simpl; try done. apply (ctl_reach_inv c (new_ctl c)), rtc_refl. Qed.

(** ** Each step is a step of the node scanner, or none *)

Lemma omap_known {B} (f : option (string * IP) -> option B) (l : list (string * IP)) x (ks : list nat) :
  Forall (fun k => k < length l)%nat ks -> omap (fun k => f ((l ++ [x]) !! k)) ks = omap (fun k => f (l !! k)) ks.
Proof.
  intros H. apply list_omap_ext. induction H as [|k ks Hk _ IH]; constructor; [|done]. by rewrite lookup_app_l.
Qed.

Lemma refines_offer enr ip s a :
  scan_inv s -> refines s a -> s_loop s = NsWait -> ParseV4 enr = Some ip -> IsGlobalUnicast ip = true ->
  scan_key ip ∉ s_cache s -> refines (offer enr ip ({[scan_key ip]} ∪ s_cache s) s) a.
Proof.
  intros Hi [R1 R2 R3 R4 R5] Hl Hp Hu Hn. pose proof (sv_known _ Hi) as Hk. apply Forall_app in Hk as [Hk1 Hk2].
  rewrite Hl in R5. constructor; simpl; try done.
  - rewrite R1. symmetry. by apply (omap_known id).
  - rewrite R4. symmetry. by apply (omap_known (fmap snd)).
  - exists enr, ip. rewrite lookup_app_r, Nat.sub_diag by lia. rewrite <- R5. done.
Qed.

(** A fresh address of a node. *)
Lemma on_node_fresh a enr ip accepted deleted :
  ParseV4 enr = Some ip -> IsGlobalUnicast ip = true -> scan_key ip ∉ cache a ->
  (on_node ParseV4 accepted deleted enr a).1 =
    if accepted then set_scans a ({[scan_key ip]} ∪ cache a) (under_way a ++ [(enr, ip)]) (records a)
    else if deleted then set_scans a (deleteScan ({[scan_key ip]} ∪ cache a) ip) (under_way a) (records a)
    else mkNodeScanner ({[scan_key ip]} ∪ cache a) (under_way a) (records a) (ns_ctx_done a) (ip :: dropped a).
Proof.
  intros Hp Hu Hn. unfold on_node, cacheScan. rewrite Hp, Hu. simpl. rewrite decide_False by done. by destruct accepted, deleted.
Qed.

Lemma refines_taken n k w item s a :
  scan_inv s -> refines s a -> s_loop s = NsOffer k w -> exists a', rtc (node_step ParseV4) a a' /\ refines (taken_on n k w item s) a'.
Proof.
  intros Hi [R1 R2 R3 R4 R5] Hl. rewrite Hl in R5. destruct R5 as (enr & ip & Hk & Hp & Hu & Hn & Hc).
  set (a1 := (on_node ParseV4 true false enr a).1).
  assert (node_step ParseV4 a a1) as Hs by (apply nd_node; by left).
  assert (a1 = set_scans a ({[scan_key ip]} ∪ cache a) (under_way a ++ [(enr, ip)]) (records a)) as Ha
    by (unfold a1; by rewrite (on_node_fresh a enr ip)).
  destruct w.
  - exists a1. split; [by apply rtc_once|]. rewrite Ha. constructor; simpl; try done. rewrite omap_app, R1. simpl. by rewrite Hk.
  - exists (drop_scan a1 (under_way a) ip []). split.
    + eapply rtc_l; [exact Hs|]. apply rtc_once. apply (nd_drop _ _ _ enr); rewrite Ha; [|done].
      simpl. rewrite R3. by eapply sv_early.
    + rewrite Ha. constructor; simpl; try done; [by rewrite !app_nil_r|]. by rewrite Hk, R4.
Qed.

Lemma refines_abandon deleted k w enr ip s a :
  refines s a -> s_loop s = NsOffer k w -> s_ctx s = true -> asked_for s !! k = Some (enr, ip) ->
  exists a', rtc (node_step ParseV4) a a' /\ refines (abandon deleted k ip s) a'.
Proof.
  intros [R1 R2 R3 R4 R5] Hl Hx Hk. rewrite Hl in R5. destruct R5 as (enr' & ip' & Hk' & Hp & Hu & Hn & Hc).
  rewrite Hk in Hk'. injection Hk' as <- <-.
  exists (on_node ParseV4 false deleted enr a).1. split; [apply rtc_once, nd_node; right; congruence|].
  rewrite (on_node_fresh a enr ip) by done. destruct deleted; constructor; simpl; try done; rewrite ?Hc, ?Hk; simpl; by rewrite ?R4.
Qed.

Lemma delete_other (ch : gset string) a b :
  scan_key b ∉ ch -> scan_key a ∈ ch -> deleteScan ({[scan_key b]} ∪ ch) a = {[scan_key b]} ∪ deleteScan ch a.
Proof.
  intros Hb Ha. unfold deleteScan. apply leibniz_equiv. intros x.
  rewrite elem_of_union, !elem_of_difference, elem_of_union, !elem_of_singleton. split; [tauto|].
  intros [->|[Hx Hn]]; [|tauto]. split; [by left|]. intros He. by rewrite He in Hb.
Qed.

(** A scan that is live is in the cache of the node scanner. *)
Lemma live_cached a enr ip u1 u2 :
  node_inv a -> under_way a = u1 ++ (enr, ip) :: u2 -> scan_key ip ∈ cache a.
Proof.
  intros [(_ & -> & _) _] Hu. apply elem_of_list_to_set, list_elem_of_fmap. exists ip. split; [done|].
  unfold taken. rewrite Hu, fmap_app. simpl. apply elem_of_app. left. apply elem_of_app. right. by left.
Qed.

Lemma refines_result l1 k l2 r enr ip s a :
  scan_inv s -> node_inv a -> refines s a -> live s = l1 ++ k :: l2 -> (k, r) ∈ results (ct s) ->
  asked_for s !! k = Some (enr, ip) ->
  exists a', rtc (node_step ParseV4) a a' /\ refines (call_back r l1 l2 enr ip s) a'.
Proof.
  intros Hi Ha [R1 R2 R3 R4 R5] Hl Hr Hk. pose proof (sv_results _ Hi) as Hres. rewrite List.Forall_forall in Hres.
  apply list_elem_of_In, Hres in Hr as (enr' & ip' & w & op & now & Hk' & Hr). simpl in Hk', Hr.
  rewrite Hk in Hk'. injection Hk' as <- <-.
  set (u1 := omap (fun k => asked_for s !! k) l1). set (u2 := omap (fun k => asked_for s !! k) l2).
  assert (under_way a = u1 ++ (enr, ip) :: u2) as Hu by (rewrite R1, Hl, omap_app; simpl; by rewrite Hk).
  exists (callback r a u1 enr ip u2). split; [apply rtc_once; rewrite Hr; by apply nd_callback|].
  pose proof (live_cached a enr ip u1 u2 Ha Hu) as Hin.
  destruct r as [r|]; constructor; simpl; try done; try (by rewrite omap_app); try (by rewrite R2).
  destruct (s_loop s) as [|k' w']; [by rewrite R5|]. destruct R5 as (enr' & ip' & Hk' & Hp & Hg & Hn & Hc).
  exists enr', ip'. split_and!; [done..| |].
  - unfold deleteScan. rewrite elem_of_difference. tauto.
  - rewrite Hc. by apply delete_other.
Qed.

Lemma refines_leave l1 k l2 s a :
  scan_inv s -> refines s a -> s_ctx s = true -> live s = l1 ++ k :: l2 ->
  exists a', rtc (node_step ParseV4) a a' /\ refines (leave l1 k l2 s) a'.
Proof.
  intros Hi [R1 R2 R3 R4 R5] Hx Hl. pose proof (sv_known _ Hi) as Hk. rewrite Hl, !Forall_app, Forall_cons in Hk.
  destruct Hk as ((_ & Hk & _) & _). apply lookup_lt_is_Some_2 in Hk as [[enr ip] Hk].
  set (u1 := omap (fun k => asked_for s !! k) l1). set (u2 := omap (fun k => asked_for s !! k) l2).
  assert (under_way a = u1 ++ (enr, ip) :: u2) as Hu by (rewrite R1, Hl, omap_app; simpl; by rewrite Hk).
  exists (drop_scan a u1 ip u2). split; [apply rtc_once, (nd_drop _ _ _ enr); congruence|].
  constructor; simpl; try done; [by rewrite omap_app|]. by rewrite Hk, R4.
Qed.

Lemma refines_step s s' a :
  scan_inv s -> node_inv a -> refines s a -> scan_step s s' ->
  exists a', rtc (node_step ParseV4) a a' /\ refines s' a'.
Proof.
  intros Hi Ha Hr [enr Hl|n k w item Hl Hn Ho|del k w enr ip Hl Hx Hk|s1 k item s2 w op now Hs|l1 k l2 r enr ip Hl Hres Hk| |k Hl Hx|l1 k l2 Hx Hl].
  - exists a. split; [apply rtc_refl|]. unfold on_enr. destruct (ParseV4 enr) as [ip|] eqn:Hp; [|done].
    destruct (IsGlobalUnicast ip) eqn:Hu; [|done]. simpl. unfold cacheScan. case_decide as Hc; [done|]. simpl.
    by apply refines_offer.
  - by eapply refines_taken.
  - by eapply refines_abandon.
  - exists a. split; [apply rtc_refl|]. by destruct Hr.
  - by eapply refines_result.
  - eexists. split; [apply rtc_once, nd_cancel|]. destruct Hr. by constructor.
  - exists a. split; [apply rtc_refl|]. destruct Hr as [R1 R2 R3 R4 R5]. rewrite Hl in R5. by constructor.
  - by eapply refines_leave.
Qed.

Lemma scan_reach s :
  rtc scan_step new_scan s -> scan_inv s /\ exists a, rtc (node_step ParseV4) NewNodeScanner a /\ refines s a.
Proof.
  intros Hr. revert Hr. apply (rtc_invariant scan_step
    (fun s => scan_inv s /\ exists a, rtc (node_step ParseV4) NewNodeScanner a /\ refines s a)).
  - intros x y (Hi & a & Ha & Hx) Hs. split; [by eapply scan_step_inv|].
    destruct (refines_step x y a Hi (node_reach_inv _ _ Ha) Hx Hs) as (a' & Ha' & Hy).
    exists a'. split; [by etransitivity|done].
  - split; [apply new_scan_inv|]. exists NewNodeScanner. split; [apply rtc_refl|by constructor].
Qed.


Lemma omap_nodup_inj {A B} (g : nat -> option A) (f : A -> B) (l : list nat) i j x y :
  NoDup (map f (omap g l)) -> i ∈ l -> j ∈ l -> g i = Some x -> g j = Some y -> f x = f y -> i = j.
Proof.
  assert (forall l k z, k ∈ l -> g k = Some z -> f z ∈ map f (omap g l)) as Hin.
  { intros l' k z Hk Hz. apply list_elem_of_fmap. exists z. split; [done|]. apply list_elem_of_omap. by exists k. }
  induction l as [|k l IH]; intros Hnd Hi Hj Hx Hy Hf; [by apply elem_of_nil in Hi|].
  apply elem_of_cons in Hi as [->|Hi], Hj as [->|Hj]; [done|..]; simpl in Hnd.
  - rewrite Hx in Hnd. simpl in Hnd. apply NoDup_cons in Hnd as [Hn _]. destruct Hn. rewrite Hf. by eapply Hin.
  - rewrite Hy in Hnd. simpl in Hnd. apply NoDup_cons in Hnd as [Hn _]. destruct Hn. rewrite <- Hf. by eapply Hin.
  - apply IH; try done. destruct (g k); [by apply NoDup_cons in Hnd as [_ ?]|done].
Qed.

(** The scans of a refined state. *)
Lemma refines_taken_perm s a :
  refines s a -> Permutation (taken a) (omap (fun k => snd <$> asked_for s !! k) (live s ++ lost s) ++ (s_records s).*1).
Proof.
  intros [R1 R2 R3 R4 R5]. unfold taken. rewrite R1, R2, R4, omap_app.
  assert (forall ks, (omap (fun k => asked_for s !! k) ks).*2 = omap (fun k => snd <$> asked_for s !! k) ks) as ->
    by (induction ks as [|k ks IH]; [done|]; simpl; destruct (asked_for s !! k); simpl; [f_equal|]; exact IH).
  rewrite <- (assoc_L (++)). apply Permutation_app_head, Permutation_app_comm.
Qed.

(** The threads of the controller never scan two items of one address at
    a time, all of them are global unicast addresses, and there are never more
    than the threads of the controller. *)
Theorem scanning_distinct s k k' item item' :
  rtc scan_step new_scan s -> (k, item) ∈ scanning (ct s) -> (k', item') ∈ scanning (ct s) ->
  IsGlobalUnicast (Ip item) = true /\ (scan_key (Ip item) = scan_key (Ip item') -> k = k') /\
  (length (scanning (ct s)) <= Z.to_nat (threads c))%nat.
Proof.
  intros (Hi & a & Ha & Hr)%scan_reach Hk Hk'. apply node_reach_inv in Ha as [(Hnd & _ & Hu) _].
  pose proof (refines_taken_perm s a Hr) as Hp. rewrite Hp in Hnd, Hu. rewrite map_app in Hnd.
  apply NoDup_app in Hnd as (Hnd & _ & _). apply Forall_app in Hu as [Hu _].
  assert (forall k item, (k, item) ∈ scanning (ct s) ->
    k ∈ live s ++ lost s /\ (snd <$> asked_for s !! k) = Some (Ip item)) as Hat.
  { intros j it Hj. split; [apply (sv_scanning _ Hi), list_elem_of_fmap; by exists (j, it)|].
    pose proof (sv_items _ Hi) as Hit. rewrite Forall_app, (List.Forall_forall _ (scanning _)) in Hit.
    apply list_elem_of_In, (proj2 Hit) in Hj as (enr & ip & Hl & He). simpl in Hl, He. by rewrite Hl, He. }
  destruct (Hat _ _ Hk) as [Hin Hg]. destruct (Hat _ _ Hk') as [Hin' Hg']. split_and!.
  - rewrite List.Forall_forall in Hu. apply Hu, list_elem_of_In, list_elem_of_omap. by exists k.
  - intros He. by eapply (omap_nodup_inj _ scan_key _ k k' _ _ Hnd).
  - pose proof (cl_threads _ _ (sv_ctl _ Hi)). lia.
Qed.

End NodeScan.

(** ** A concrete run: two nodes, one thread *)

Module Demo.

Definition parse (enr : string) : option IP :=
  if decide (enr = "a"%string) then Some [9; 9; 9; 1] else if decide (enr = "b"%string) then Some [9; 9; 9; 2] else None.
Definition ctl1 : ScannerController := NewScannerController 1 10 Second.

Definition s1 : scan := on_enr parse "a" (new_scan ctl1).
Definition s2 : scan := taken_on 0 0 true (node_item [9; 9; 9; 1]) s1.
Definition s3 : scan := on_enr parse "b" s2.

Lemma scan_reachable : rtc (scan_step parse) (new_scan ctl1) s3.
Proof.
  eapply rtc_l; [exact (sc_node parse (new_scan ctl1) "a" eq_refl)|].
  eapply rtc_l; [exact (sc_take parse s1 0 0 true _ eq_refl eq_refl eq_refl)|].
  eapply rtc_l; [exact (sc_node parse s2 "b" eq_refl)|apply rtc_refl].
Qed.


Lemma scanning_distinct_witness : (length (scanning (ct s3)) <= 1)%nat.
Proof.
  assert ((0%nat, node_item [9; 9; 9; 1]) ∈ scanning (ct s3)) as Hin by by left.
  exact (proj2 (proj2 (scanning_distinct parse ctl1 s3 _ _ _ _ scan_reachable Hin Hin))).
Defined.

End Demo.
