(* ===== verification/Transport.v ===== *)
(** * crawler/net: asking a peer who it is

    The hello handshake of transport/ and the querier over it.  The encrypted
    connection is go-ethereum's: what its reads and writes give is an argument,
    as are the encoding of messages and the text of a capability. *)

From Stdlib Require Import ZArith Lia.
From stdpp Require Import base list gmap strings.
From S2P Require Import Prelude Golang Peer Config.
Open Scope Z_scope.

(** ** Messages *)

Record Hello := mkHello { h_Version : Z; h_Name : string; h_Caps : list Crawler.Cap; h_ID : list Z }.

Definition Hello_Code : Z := 0.
Definition Disconnect_Code : Z := 1.
Definition Ping_Code : Z := 2.
Definition Pong_Code : Z := 3.

Record Msg := mkMsg { code : Z; Size : Z; Payload : list Z; ReceivedAt : Z }.

(** ** conn.go *)

(** A connection, with the deadlines it was given and the packets written to
    it: their codes and payloads. *)
Record Conn := mkConn { c_open : bool; readDeadline : Z; writeDeadline : Z; written : list (Z * list Z) }.

(** [Dial] at the instant [now]: [tcp], [dl] and [hs] are whether the dial, the
    setting of the deadline and the encryption's handshake succeed; [fds] are
    the open files of the process. *)
Definition Dial (now : Z) (tcp dl hs : bool) (fds : Z) : Z * option Conn :=
  if negb tcp then (fds, None)
  else
    let fds := fds + 1 in
    if negb dl then (fds, None)
    else
      let conn := mkConn true (now + 20 * Second) (now + 20 * Second) [] in
      if negb hs then (fds, None) else (fds, Some conn).

(** [Conn.Read] for what the connection's read gives: code and data. *)
Definition Conn_Read (now : Z) (r : option (Z * list Z)) (c : Conn) : Conn * option Msg :=
  let c := mkConn (c_open c) (now + 30 * Second) (writeDeadline c) (written c) in
  match r with
  | Some (code, data) => (c, Some (mkMsg code (u32 (Z.of_nat (length data))) data (to_UnixMilli now)))
  | None => (c, None)
  end.

(** [Conn.Write] of a message with its code and encoding; [ok] is whether the
    connection takes the packet. *)
Definition Conn_Write (now : Z) (code : Z) (payload : option (list Z)) (ok : bool) (c : Conn) : Conn * bool :=
  let c := mkConn (c_open c) (readDeadline c) (now + 30 * Second) (written c) in
  match payload with
  | None => (c, false)
  | Some p => if ok then (mkConn (c_open c) (readDeadline c) (writeDeadline c) (written c ++ [(u64 code, p)]), true) else (c, false)
  end.

Definition Conn_Close (c : Conn) (fds : Z) : Conn * Z :=
  (mkConn false (readDeadline c) (writeDeadline c) (written c), if c_open c then fds - 1 else fds).

Definition Msg_Time (m : Msg) : Z := time_UnixMilli (ReceivedAt m).
Definition Msg_Code (m : Msg) : Z := i64 (code m).

Inductive transport_error : Type := NoCaps | ReadFailed | NotHello (c : Z) | BadHello.

(** The connection, and the fields a handshake sets. *)
Record Transport := mkTransport { t_Conn : Conn; t_Name : string; t_Version : Z; t_Caps : list Crawler.Cap }.

Definition new_transport (c : Conn) : Transport := mkTransport c "" 0 [].
Definition set_conn (c : Conn) (t : Transport) : Transport := mkTransport c (t_Name t) (t_Version t) (t_Caps t).

Section Transport.
Context (encode_hello : Hello -> option (list Z)) (decode_hello : list Z -> option Hello) (decode_reason : list Z -> option Z).
Context (Cap_String : Crawler.Cap -> string).

(** The hello that is sent. *)
Definition our_hello (name : string) (caps : list Crawler.Cap) (key : list Z) : Hello := mkHello 4 name caps key.

(** [Setup] at the instants of its write and its read; [caps] is [None] when
    it is nil.  [write_ok] is whether the hello was written, [reply] what the
    read after it gives. *)
Definition Setup (now now' : Z) (name : string) (key : list Z) (caps : option (list Crawler.Cap)) (write_ok : bool)
    (reply : option (Z * list Z)) (t : Transport) : Transport * option transport_error :=
  match caps with
  | None => (t, Some NoCaps)
  | Some caps =>
      let '(c, ok) := Conn_Write now Hello_Code (encode_hello (our_hello name caps key)) write_ok (t_Conn t) in
      if negb ok then (set_conn c t, None)
      else
        let '(c, msg) := Conn_Read now' reply c in
        match msg with
        | None => (set_conn c t, Some ReadFailed)
        | Some msg =>
            if negb (bool_decide (code msg = Hello_Code)) then (set_conn c t, Some (NotHello (code msg)))
            else match decode_hello (Payload msg) with
            | None => (set_conn c t, Some BadHello)
            | Some h => (mkTransport c (h_Name h) (h_Version h) (h_Caps h), None)
            end
        end
  end.

(** [Transport.Read]: a message, the reason of a disconnect, or an error. *)
Definition Transport_Read (now : Z) (r : option (Z * list Z)) (t : Transport) : Transport * ((Msg + Z) + unit) :=
  let '(c, message) := Conn_Read now r (t_Conn t) in
  (set_conn c t,
   match message with
   | None => inr ()
   | Some msg =>
       if decide (Msg_Code msg = Disconnect_Code) then
         match decode_reason (Payload msg) with Some w => inl (inr w) | None => inr () end
       else inl (inl msg)
   end).

(** ** querier.go *)

Record PeerQuierier := mkQuerier { q_caps : option (list Crawler.Cap); extraQuery : option (Transport -> gmap string string) }.

Definition NewPeerQuierier : PeerQuierier := mkQuerier None None.

Definition AddCap (name : string) (version : Z) (q : PeerQuierier) : PeerQuierier :=
  mkQuerier (Some (default [] (q_caps q) ++ [Crawler.mkCap name version])) (extraQuery q).

(** What the network does to a query: the three steps of the dial, the write of
    the hello, and what is read after it; with the instants of the dial, the
    write and the read. *)
Record network := mkNetwork {
  n_tcp : bool; n_deadline : bool; n_handshake : bool; n_write : bool; n_reply : option (Z * list Z); n_clock : Z * Z * Z }.

(** [Query]: the open files after it, the connection it closed, and the
    information. *)
Definition Query (name : string) (key : list Z) (q : PeerQuierier) (net : network) (fds : Z)
    : Z * option Conn * option PeerInfo :=
  let '(t0, t1, t2) := n_clock net in
  match Dial t0 (n_tcp net) (n_deadline net) (n_handshake net) fds with
  | (fds, None) => (fds, None, None)
  | (fds, Some conn) =>
      let '(t, err) := Setup t1 t2 name key (q_caps q) (n_write net) (n_reply net) (new_transport conn) in
      let info :=
        match err with
        | Some _ => None
        | None => Some (mkInfo (t_Name t) (map Cap_String (t_Caps t)) (i64 (t_Version t))
                    (match extraQuery q with Some f => Some (f t) | None => None end))
        end in
      let '(conn, fds) := Conn_Close (t_Conn t) fds in
      (fds, Some conn, info)
  end.

(** A connection was made and encrypted. *)
Definition dialed (net : network) : bool := n_tcp net && n_deadline net && n_handshake net.

Lemma Setup_open t1 t2 name key caps w r t :
  c_open (t_Conn (Setup t1 t2 name key caps w r t).1) = c_open (t_Conn t).
Proof.
  unfold Setup, Conn_Write, Conn_Read. destruct caps as [caps|]; [|done]. destruct (encode_hello _), w; simpl; try done.
  destruct r as [[c data]|]; simpl; [|done]. destruct (negb _); simpl; [done|]. by destruct (decode_hello data).
Qed.

(** C24: A query gives information only when a capability was added and the
    connection was made; then it is what the peer's hello says, the first
    message after ours, which carried our name, capabilities and key.  When our
    hello could not be written the query still succeeds, with empty
    information.  Every query closes the connection it made; but one whose
    encryption fails after the dial leaves a file open. *)
Theorem Query_result name key q net fds fds' conn info :
  Query name key q net fds = (fds', conn, info) ->
  fds' = (if n_tcp net && negb (dialed net) then fds + 1 else fds) /\
  (forall c, conn = Some c -> c_open c = false /\ (length (written c) <= 1)%nat) /\
  forall i, info = Some i ->
    dialed net = true /\ exists caps, q_caps q = Some caps /\
    if (n_write net : bool) && bool_decide (is_Some (encode_hello (our_hello name caps key))) then
      exists data h c p, n_reply net = Some (Hello_Code, data) /\ decode_hello data = Some h /\
        Name i = h_Name h /\ Version i = i64 (h_Version h) /\ Caps i = map Cap_String (h_Caps h) /\
        conn = Some c /\ written c = [(Hello_Code, p)] /\ encode_hello (our_hello name caps key) = Some p
    else Name i = ""%string /\ Version i = 0 /\ Caps i = [].
Proof.
  destruct net as [tcp dl hs w reply [[t0 t1] t2]]. unfold Query, dialed, Dial. simpl.
  destruct tcp; [|by intros [= <- <- <-]]. destruct dl; [|by intros [= <- <- <-]]. destruct hs; [|by intros [= <- <- <-]].
  simpl. set (t := new_transport _). pose proof (Setup_open t1 t2 name key (q_caps q) w reply t) as Ho.
  destruct (Setup _ _ _ _ _ _ _ t) as [t' err] eqn:Es. simpl in Ho. unfold Conn_Close. rewrite Ho. simpl.
  intros [= <- <- <-]. split; [lia|]. revert Es. unfold Setup, Conn_Write, Conn_Read.
  destruct (q_caps q) as [caps|].
  2: { intros [= <- <-]. split; [|done]. intros c [= <-]. split; [done|simpl; lia]. }
  destruct (encode_hello (our_hello name caps key)) as [p|] eqn:Ep; simpl.
  2: { intros [= <- <-]. split; [intros c [= <-]; split; [done|simpl; lia]|]. intros i [= <-]. split; [done|].
       exists caps. split; [done|]. rewrite Ep, bool_decide_eq_false_2, andb_false_r by by intros []. done. }
  destruct w; simpl.
  2: { intros [= <- <-]. split; [intros c [= <-]; split; [done|simpl; lia]|]. intros i [= <-]. split; [done|]. by exists caps. }
  destruct reply as [[c data]|]; simpl.
  2: { intros [= <- <-]. split; [|done]. intros c [= <-]. split; [done|simpl; lia]. }
  case_bool_decide as Hc; simpl.
  2: { intros [= <- <-]. split; [|done]. intros c' [= <-]. split; [done|simpl; lia]. }
  destruct (decode_hello data) as [h|] eqn:Eh.
  2: { intros [= <- <-]. split; [|done]. intros c' [= <-]. split; [done|simpl; lia]. }
  intros [= <- <-]. subst c. split; [intros c [= <-]; split; [done|simpl; lia]|].
  intros i [= <-]. split; [done|]. exists caps. split; [done|]. rewrite Ep, bool_decide_eq_true_2 by by eexists.
  simpl. by eexists data, h, _, p.
Qed.

(** A querier to which no capability was added never succeeds. *)
Lemma Query_without_caps name key net fds : (Query name key NewPeerQuierier net fds).2 = None.
Proof.
  destruct net as [tcp dl hs w reply [[t0 t1] t2]]. unfold Query, Dial. simpl. by destruct tcp, dl, hs.
Qed.

End Transport.

Module Demo.

Definition geth : Hello := mkHello 5 "geth" [Crawler.mkCap "eth" 66] [].

Definition asking : PeerQuierier := AddCap "eth" 66 NewPeerQuierier.
Definition answer : PeerInfo := mkInfo "geth" ["eth"%string] 5 None.
Definition good : network := mkNetwork true true true true (Some (0, [])) (0, 1, 2).

Definition closed : Conn := mkConn false (2 + 30 * Second) (1 + 30 * Second) [(0, [7])].

Lemma Query_result_witness :
  Query (fun _ => Some [7]) (fun _ => Some geth) Crawler.cap_Name "us" [] asking good 3 = (3, Some closed, Some answer) /\
  exists h, Some geth = Some h /\ Name answer = h_Name h.
Proof.
  assert (Query (fun _ => Some [7]) (fun _ => Some geth) Crawler.cap_Name "us" [] asking good 3 =
    (3, Some closed, Some answer)) as Hq by reflexivity.
  split; [exact Hq|].
  destruct (Query_result _ _ _ "us" [] asking good 3 _ _ _ Hq) as (_ & _ & H).
  destruct (H answer eq_refl) as (_ & caps & Hc & Hi). injection Hc as <-. simpl in Hi.
  destruct Hi as (data & h & c & p & _ & Hd & Hn & _). exists h. split; [exact Hd|exact Hn].
Defined.

End Demo.
