(* ===== verification/Service.v ===== *)
(** * service: metrics, the message broker and the store's transactions

    The registry of Prometheus, the channel of RabbitMQ, the event feed of
    go-ethereum and the database are packages the program calls; modelled is
    what the program keeps beside them. *)

From Stdlib Require Import ZArith Lia.
From stdpp Require Import base list gmap strings relations.
From S2P Require Import Prelude Golang.
Open Scope Z_scope.
Open Scope outcome_scope.

(** ** metrics/factory.go *)

Inductive metric_type : Type := typeCounter | typeGauge | typeHistogram | typeSummary.

Definition type_name (ty : metric_type) : string :=
  match ty with
  | typeCounter => "counter" | typeGauge => "gauge" | typeHistogram => "histogram" | typeSummary => "summary"
  end.

Record MetricDescription := mkDescription {
  d_Type : string; d_Name : string; d_Help : string; d_Labels : option (list string) }.

Record Opts := mkOpts { Namespace : string; Subsystem : string; o_Name : string; Help : string }.

Definition fullName (ns subsystem name : string) : string :=
  let out := if decide (subsystem = ""%string) then ns else ns +:+ "_"%string +:+ subsystem in
  out +:+ "_"%string +:+ name.

(** A metric that is not registered does nothing. *)
Inductive metric : Type := Noop | Registered (ty : metric_type) (vec : bool) (opts : Opts) (labels : list string).

Definition new_metric (enabled : bool) (ty : metric_type) (o : Opts) (labels : option (list string))
    (f : list MetricDescription) : list MetricDescription * metric :=
  if negb enabled then (f, Noop)
  else (f ++ [mkDescription (type_name ty) (fullName (Namespace o) (Subsystem o) (o_Name o)) (Help o) labels],
        Registered ty (match labels with Some _ => true | None => false end) o (default [] labels)).

Definition NewCounter enabled o := new_metric enabled typeCounter o None.
Definition NewCounterVec enabled o labels := new_metric enabled typeCounter o (Some labels).
Definition NewGauge enabled o := new_metric enabled typeGauge o None.
Definition NewGaugeVec enabled o labels := new_metric enabled typeGauge o (Some labels).
Definition NewHistogram enabled o := new_metric enabled typeHistogram o None.
Definition NewHistogramVec enabled o labels := new_metric enabled typeHistogram o (Some labels).
Definition NewSummary enabled o := new_metric enabled typeSummary o None.
Definition NewSummaryVec enabled o labels := new_metric enabled typeSummary o (Some labels).

(** [Document] copies the list. *)
Definition Document (f : list MetricDescription) : list MetricDescription := f.

Lemma document_lists enabled ty o labels f :
  Document (new_metric enabled ty o labels f).1 =
    if (enabled : bool) then Document f ++
      [mkDescription (type_name ty) (fullName (Namespace o) (Subsystem o) (o_Name o)) (Help o) labels]
    else Document f.
Proof. by destruct enabled. Qed.

(** ** broker/feed.go and the counting of [consume]

    [callback] is set by [consume], which counts in [count] what the callback
    is called with. *)

Record bfeed := mkBFeed { listeners : Z; callback : bool; delta : Z; count : Z; cancelled : bool }.

Definition new_bfeed : bfeed := mkBFeed 0 false 0 0 false.

(** One iteration of [consume] for a [deltaCh] value: at zero the queue is
    cancelled. *)
Definition on_delta (d : Z) (f : bfeed) : bfeed :=
  let c := count f + d in
  mkBFeed (listeners f) (callback f) (delta f) c (if decide (c = 0) then true else cancelled f).

Definition bfeed_Subscribe (f : bfeed) : bfeed :=
  let f1 := if callback f then on_delta (1 + delta f) f
            else mkBFeed (listeners f) false (i32 (delta f + 1)) (count f) (cancelled f) in
  mkBFeed (i32 (listeners f1 + 1)) (callback f1) (delta f1) (count f1) (cancelled f1).

Definition bfeed_Unsubscribe (f : bfeed) : bfeed :=
  let f1 := mkBFeed (i32 (listeners f - 1)) (callback f) (delta f) (count f) (cancelled f) in
  if callback f1 then on_delta (-1) f1 else mkBFeed (listeners f1) false (i32 (delta f1 - 1)) (count f1) (cancelled f1).

(** The goroutine of the topic starts to consume. *)
Definition bfeed_consume (f : bfeed) : bfeed := mkBFeed (listeners f) true (delta f) 0 (cancelled f).

(** The count is not the number of listeners: the subscriptions made before
    the goroutine consumed are added at each later one and never at first, so
    when the only listener leaves the queue is not cancelled. *)
Lemma count_misses_first :
  let f := bfeed_Unsubscribe (bfeed_consume (bfeed_Subscribe new_bfeed)) in
  listeners f = 0 /\ count f = -1 /\ cancelled f = false.
Proof. by vm_compute. Qed.

(** ** broker/rabbitBroker.go *)

(** [r_done] is the channel [done]: [None] for nil, or whether it is closed. *)
Record rabbitBroker := mkRabbit {
  r_id : string; r_stopped : bool; r_err : option string; r_done : option bool; msgFeed : gmap string bfeed;
  published : list (string * list Z) }.

(** What [NewRabbitBroker] returns, once the connection is made. *)
Definition NewRabbitBroker (username : string) : rabbitBroker := mkRabbit username false None None ∅ [].

Definition rabbit_Stop (err : option string) (b : rabbitBroker) : outcome rabbitBroker :=
  if r_stopped b then Ok b
  else match r_done b with
  | None => Panic CloseOfNilChannel
  | Some true => Panic CloseOfClosedChannel
  | Some false =>
      Ok (mkRabbit (r_id b) true (match err with Some e => Some e | None => r_err b end) (Some true) (msgFeed b) (published b))
  end.

(** [publish]: [ok] is whether the channel took the message. *)
Definition PublishMessage (topic : string) (data : list Z) (ok : bool) (b : rabbitBroker) : rabbitBroker * bool :=
  if negb ok then (b, false)
  else (mkRabbit (r_id b) (r_stopped b) (r_err b) (r_done b) (msgFeed b) (published b ++ [(topic, data)]), true).

(** [SubscribeTopic]: [ok] is whether the queue was declared and consumed;
    the result is whether there is a subscription. *)
Definition SubscribeTopic (topic : string) (ok : bool) (b : rabbitBroker) : rabbitBroker * bool :=
  if r_stopped b then (b, false)
  else if negb ok then (b, false)
  else
    let f := default new_bfeed (msgFeed b !! topic) in
    (mkRabbit (r_id b) (r_stopped b) (r_err b) (r_done b) (<[topic := bfeed_Subscribe f]> (msgFeed b)) (published b), true).

(** The broker whose [Stop] the loss of the connection calls: not the one that
    [NewRabbitBroker] returns, but the one it made first. *)
Definition watched : rabbitBroker := mkRabbit "" false None None ∅ [].
Definition connection_lost (err : option string) : outcome rabbitBroker := rabbit_Stop err watched.

Lemma connection_lost_panics err : connection_lost err ↯ CloseOfNilChannel.
Proof. reflexivity. Qed.

(** The first call of [Stop] panics: [done] is never made. *)
Lemma rabbit_Stop_panics username err : rabbit_Stop err (NewRabbitBroker username) ↯ CloseOfNilChannel.
Proof. reflexivity. Qed.

(** ** db/store.go: [execTx]

    [open] counts the transactions that are neither committed nor rolled back,
    which [database/sql] ends also when the driver reports an error; [fn] and [after] are
    the caller's functions, and each step of the driver may fail. *)

Inductive tx_result : Type := Committed | BeginFailed | FnFailed | RollbackFailed | AfterFailed | CommitFailed.

Definition execTx {A} (begin_ok : bool) (fn : option A) (rollback_ok : bool) (after : option (A -> bool)) (commit_ok : bool)
    (open : nat) : nat * tx_result :=
  if negb begin_ok then (open, BeginFailed)
  else match fn with
  | None => if negb rollback_ok then (open, RollbackFailed) else (open, FnFailed)
  | Some obj =>
      if match after with Some f => negb (f obj) | None => false end then (S open, AfterFailed)
      else if commit_ok then (open, Committed) else (open, CommitFailed)
  end.

(** A failing [after] leaves the transaction open: it is neither committed
    nor rolled back. *)
Lemma after_failure_leaks {A} (obj : A) (f : A -> bool) rb cm open :
  f obj = false -> execTx true (Some obj) rb (Some f) cm open = (S open, AfterFailed).
Proof. intros H. unfold execTx. simpl. by rewrite H. Qed.

Lemma execTx_committed {A} b (fn : option A) rb after cm open o :
  execTx b fn rb after cm open = (o, Committed) ->
  o = open /\ exists obj, fn = Some obj /\ match after with Some f => f obj = true | None => True end.
Proof.
  unfold execTx. destruct b; [|done]. simpl. destruct fn as [obj|]; [|by destruct rb].
  destruct after as [f|]; [destruct (f obj) eqn:Ef|]; simpl; try done; destruct cm; intros [= <-]; eauto.
Qed.
