(* ===== verification/Broker.v ===== *)
(** * service/broker: the subscriptions of one topic

    rabbitBroker.go's [SubscribeTopic] and [consume] beside each other: the
    mutex, the feeds the topic had in turn, and for each the goroutine that
    consumes its queue.  A feed is a [bfeed] of Service.v.  The queue and its
    closing are the channel's of RabbitMQ; the listeners decide when a
    notification ends. *)

From Stdlib Require Import ZArith Lia.
From stdpp Require Import base list relations.
From S2P Require Import Prelude Golang Service.
Local Open Scope Z_scope.
Local Open Scope outcome_scope.

Section Broker.
Context {M : Type}.

(** The goroutine of a feed: it has not read [msgFeed] yet, is at its select,
    is in [Notify], has returned from [consume] and is to delete the topic,
    or is over. *)
Inductive consumer_pc : Type := Starting | Consuming | Notifying (m : M) | Returned | Gone.

(** [received] are the messages RabbitMQ delivered, [pending] those nobody
    took yet, [notified] those every listener has. *)
Record consumer := mkConsumer {
  feed : bfeed; c_pc : consumer_pc; received : list M; pending : list M; q_closed : bool; notified : list M }.

Definition set_feed (c : consumer) f := mkConsumer f (c_pc c) (received c) (pending c) (q_closed c) (notified c).
Definition set_cpc (c : consumer) p := mkConsumer (feed c) p (received c) (pending c) (q_closed c) (notified c).

(** The mutex is free, or held by a [SubscribeTopic] that is in the callback
    of a feed, sending to its [deltaCh]. *)
Inductive mutex : Set := Free | InCallback (k : nat).

(** [current] is the entry of the topic in [msgFeed]; [unsubs] are the
    goroutines in [unsubscribe]; [subscriptions] the calls that began. *)
Record topic := mkTopic {
  consumers : list consumer; current : option nat; mu : mutex; unsubs : nat; ingress : nat; subscriptions : Z }.

Definition new_topic : topic := mkTopic [] None Free 0 0 0.

Definition set_consumer (k : nat) (c : consumer) (t : topic) : topic :=
  mkTopic (<[k := c]> (consumers t)) (current t) (mu t) (unsubs t) (ingress t) (subscriptions t).
Definition set_mu (m : mutex) (t : topic) : topic :=
  mkTopic (consumers t) (current t) m (unsubs t) (ingress t) (subscriptions t).
Definition set_current (o : option nat) (t : topic) : topic :=
  mkTopic (consumers t) o (mu t) (unsubs t) (ingress t) (subscriptions t).

(** [SubscribeTopic] with the mutex: a topic without an entry gets a feed and
    its goroutine; a feed without a callback takes the subscription at once,
    one with a callback makes the caller send to its [deltaCh]. *)
Definition subscribe (t : topic) : topic :=
  let t := mkTopic (consumers t) (current t) (mu t) (unsubs t) (ingress t) (subscriptions t + 1) in
  match current t with
  | None =>
      let k := length (consumers t) in
      mkTopic (consumers t ++ [mkConsumer (bfeed_Subscribe new_bfeed) Starting [] [] false []])
        (Some k) (mu t) (unsubs t) (ingress t) (subscriptions t)
  | Some k =>
      match consumers t !! k with
      | None => t
      | Some c =>
          if callback (feed c) then set_mu (InCallback k) t
          else set_consumer k (set_feed c (bfeed_Subscribe (feed c))) t
      end
  end.

(** [consume] reads the topic's entry, which is its own feed whenever there
    is one ([topic_safe]), and sets the callback. *)
Definition consume_start (k : nat) (c : consumer) (t : topic) : outcome topic :=
  match current t with
  | None => Panic NilDereference
  | Some j =>
      match consumers t !! j with
      | None => Panic NilDereference
      | Some cj =>
          let t := set_consumer j (set_feed cj (bfeed_consume (feed cj))) t in
          match consumers t !! k with
          | None => Panic NilDereference
          | Some ck => Ok (set_consumer k (set_cpc ck Consuming) t)
          end
      end
  end.

(** The [deltaCh] case: the caller in the callback goes on and releases the
    mutex; at zero a goroutine unsubscribes. *)
Definition on_subscribed (k : nat) (c : consumer) (t : topic) : topic :=
  let f := bfeed_Subscribe (feed c) in
  let t := set_mu Free (set_consumer k (set_feed c f) t) in
  if decide (count f = 0)
  then mkTopic (consumers t) (current t) (mu t) (S (unsubs t)) (ingress t) (subscriptions t) else t.

Definition on_message (k : nat) (c : consumer) (m : M) (q : list M) (t : topic) : topic :=
  let t := set_consumer k (mkConsumer (feed c) (Notifying m) (received c) q (q_closed c) (notified c)) t in
  mkTopic (consumers t) (current t) (mu t) (unsubs t) (S (ingress t)) (subscriptions t).

Definition on_notified (k : nat) (c : consumer) (m : M) (t : topic) : topic :=
  set_consumer k (mkConsumer (feed c) Consuming (received c) (pending c) (q_closed c) (notified c ++ [m])) t.

Inductive topic_step (t : topic) : outcome topic -> Prop :=
| tp_subscribe : mu t = Free -> topic_step t (Ok (subscribe t))
| tp_start k c : mu t = Free -> consumers t !! k = Some c -> c_pc c = Starting -> topic_step t (consume_start k c t)
| tp_delta k c : mu t = InCallback k -> consumers t !! k = Some c -> c_pc c = Consuming ->
    topic_step t (Ok (on_subscribed k c t))
| tp_message k c m q : consumers t !! k = Some c -> c_pc c = Consuming -> pending c = m :: q ->
    topic_step t (Ok (on_message k c m q t))
| tp_notified k c m : consumers t !! k = Some c -> c_pc c = Notifying m -> topic_step t (Ok (on_notified k c m t))
| tp_closed k c : consumers t !! k = Some c -> c_pc c = Consuming -> pending c = [] -> q_closed c = true ->
    topic_step t (Ok (set_consumer k (set_cpc c Returned) t))
| tp_delete k c : mu t = Free -> consumers t !! k = Some c -> c_pc c = Returned ->
    topic_step t (Ok (set_current None (set_consumer k (set_cpc c Gone) t)))
| tp_unsubscribe n : mu t = Free -> unsubs t = S n ->
    topic_step t (Ok (mkTopic (consumers t) None (mu t) n (ingress t) (subscriptions t)))
| tp_deliver k c m : consumers t !! k = Some c -> q_closed c = false ->
    topic_step t (Ok (set_consumer k (mkConsumer (feed c) (c_pc c) (received c ++ [m]) (pending c ++ [m])
                                        (q_closed c) (notified c)) t))
| tp_close k c : consumers t !! k = Some c ->
    topic_step t (Ok (set_consumer k (mkConsumer (feed c) (c_pc c) (received c) (pending c) true (notified c)) t)).

Definition topic_ok (t t' : topic) : Prop := topic_step t (Ok t').

(** ** The invariant *)

(** A feed's counts, of at most [n] subscriptions; [callback] is set when its
    goroutine has started. *)
Record feed_inv (n : Z) (c : consumer) : Prop := {
  fi_callback : callback (feed c) = match c_pc c with Starting => false | _ => true end;
  fi_delta : 0 < delta (feed c) <= n;
  fi_count : 0 <= count (feed c);
  fi_messages : received c = notified c ++ match c_pc c with Notifying m => [m] | _ => [] end ++ pending c }.

(** The goroutine that is not over is the one of the topic's entry. *)
Record topic_inv (t : topic) : Prop := {
  ti_feeds : Forall (feed_inv (subscriptions t)) (consumers t);
  ti_current : forall k, current t = Some k <-> exists c, consumers t !! k = Some c /\ c_pc c <> Gone;
  ti_unsubs : unsubs t = 0%nat;
  ti_nonneg : 0 <= subscriptions t }.

Lemma set_consumer_inv k c c' t :
  topic_inv t -> consumers t !! k = Some c -> feed_inv (subscriptions t) c' ->
  (c_pc c' = Gone <-> c_pc c = Gone) -> topic_inv (set_consumer k c' t).
Proof.
  intros [H1 H2 H3 H4] Hk Hc Hg. pose proof (lookup_lt_Some _ _ _ Hk) as Hlt. constructor; simpl; [| |done..].
  - by apply Forall_insert.
  - intros j. rewrite H2. destruct (decide (j = k)) as [->|Hj].
    + rewrite list_lookup_insert_eq by done. split; intros (x & ? & ?); simplify_eq; eexists; split; eauto; tauto.
    + by rewrite list_lookup_insert_ne.
Qed.

Lemma feed_inv_mono n n' c : n <= n' -> feed_inv n c -> feed_inv n' c.
Proof. intros Hn []. constructor; [done|lia|done|done]. Qed.

Lemma topic_inv_feed t k c : topic_inv t -> consumers t !! k = Some c -> feed_inv (subscriptions t) c.
Proof. intros Hi Hk. by apply (Forall_lookup_1 _ _ _ _ (ti_feeds _ Hi) Hk). Qed.

(** A subscription, before its feed has a callback. *)
Lemma delta_grows n d : 0 <= d <= n -> n + 1 < 2 ^ 31 -> i32 (d + 1) = d + 1.
Proof. intros. unfold i32, wrap_s. rewrite Z.mod_small by lia. lia. Qed.

Lemma subscribe_inv t : topic_inv t -> subscriptions t + 1 < 2 ^ 31 -> topic_inv (subscribe t).
Proof.
  intros Hi Hn. set (t1 := mkTopic (consumers t) (current t) (mu t) (unsubs t) (ingress t) (subscriptions t + 1)).
  assert (topic_inv t1) as Hi1.
  { destruct Hi as [H1 H2 H3 H4]. constructor; simpl; [|done|done|lia].
    eapply Forall_impl; [exact H1|]. intros c. apply feed_inv_mono. lia. }
  unfold subscribe. fold t1. change (current t1) with (current t). destruct (current t) as [k|] eqn:Hc.
  - change (consumers t1) with (consumers t). destruct (consumers t !! k) as [c|] eqn:Hk; [|done].
    destruct (topic_inv_feed t k c Hi Hk) as [F1 F2 F3 F4].
    destruct (callback (feed c)) eqn:Hcb; [by destruct Hi1; constructor|].
    eapply set_consumer_inv; [done|exact Hk| |done].
    unfold bfeed_Subscribe. rewrite Hcb. constructor; simpl; [congruence| |done|done].
    rewrite (delta_grows (subscriptions t)) by lia. lia.
  - destruct Hi1 as [H1 H2 H3 H4]. constructor; simpl; [| |done|done].
    + apply Forall_app. split; [done|]. apply Forall_singleton. constructor; simpl; try done.
      change (i32 (0 + 1)) with 1. pose proof (ti_nonneg _ Hi). lia.
    + intros j. split.
      * intros [= <-]. eexists. split; [by rewrite lookup_app_r, Nat.sub_diag|done].
      * intros (c & Hl & Hg). apply lookup_app_Some in Hl as [Hl|[Hle Hl]].
        -- assert (current t1 = Some j) as Hj by (apply H2; by exists c). simpl in Hj. congruence.
        -- apply list_lookup_singleton_Some in Hl as [Hl _]. f_equal. simpl in Hle. lia.
Qed.

Lemma subscribe_counts t : subscriptions (subscribe t) = subscriptions t + 1.
Proof.
  unfold subscribe. simpl. destruct (current t) as [k|]; [|done].
  destruct (consumers t !! k) as [c|]; [|done]. by destruct (callback (feed c)).
Qed.

(** A goroutine at its select learns of a subscription. *)
Lemma on_subscribed_inv t k c :
  topic_inv t -> consumers t !! k = Some c -> c_pc c = Consuming ->
  topic_inv (on_subscribed k c t) /\ subscriptions (on_subscribed k c t) = subscriptions t.
Proof.
  intros Hi Hk Hp. destruct (topic_inv_feed t k c Hi Hk) as [F1 F2 F3 F4]. rewrite Hp in *.
  set (f := bfeed_Subscribe (feed c)).
  assert (feed_inv (subscriptions t) (set_feed c f)) as Hf.
  { unfold f, bfeed_Subscribe. rewrite F1. constructor; simpl; [by rewrite Hp|done|lia|by rewrite Hp]. }
  assert (count f <> 0) as Hn by (unfold f, bfeed_Subscribe; rewrite F1; simpl; lia).
  unfold on_subscribed. fold f. rewrite decide_False by done. split; [|done].
  assert (topic_inv (set_consumer k (set_feed c f) t)) as [] by (by eapply set_consumer_inv). by constructor.
Qed.

(** A goroutine that is done deletes the topic, which is its own. *)
Lemma delete_topic_inv t k c :
  topic_inv t -> consumers t !! k = Some c -> c_pc c = Returned ->
  topic_inv (set_current None (set_consumer k (set_cpc c Gone) t)).
Proof.
  intros Hi Hk Hp. destruct (topic_inv_feed t k c Hi Hk) as [F1 F2 F3 F4]. rewrite Hp in *.
  destruct Hi as [H1 H2 H3 H4]. constructor; simpl; [|..|done|done].
  - apply Forall_insert; [done|]. by constructor.
  - intros j. split; [done|]. intros (x & Hx & Hg). exfalso.
    assert (current t = Some k) as Hck by (apply H2; exists c; split; [done|congruence]).
    destruct (decide (j = k)) as [->|Hj].
    + rewrite list_lookup_insert_eq in Hx by (by eapply lookup_lt_Some). by simplify_eq.
    + rewrite list_lookup_insert_ne in Hx by done.
      assert (current t = Some j) by (apply H2; by exists x). congruence.
Qed.

Lemma topic_step_inv t o :
  topic_inv t -> topic_step t o -> exists t', o ⇓ t' /\ (subscriptions t' < 2 ^ 31 -> topic_inv t').
Proof.
  intros Hi Hs. assert (forall t', topic_inv t' -> exists t'', Ok t' ⇓ t'' /\ (subscriptions t'' < 2 ^ 31 -> topic_inv t'')) as Hok
    by (intros t' Ht'; by exists t').
  destruct Hs as [Hm|k c Hm Hk Hp|k c Hm Hk Hp|k c m q Hk Hp Hq|k c m Hk Hp|k c Hk Hp Hq Hcl|k c Hm Hk Hp|n Hm Hu|k c m Hk Hcl|k c Hk];
    try (destruct (topic_inv_feed t k c Hi Hk) as [F1 F2 F3 F4]; rewrite Hp in *).
  - exists (subscribe t). split; [done|]. rewrite subscribe_counts. by apply subscribe_inv.
  - assert (current t = Some k) as Hc by (apply (ti_current _ Hi); exists c; split; [done|congruence]).
    assert (consume_start k c t = Ok (set_consumer k (set_cpc (set_feed c (bfeed_consume (feed c))) Consuming) t)) as ->.
    { unfold consume_start, set_consumer. rewrite Hc, Hk. simpl.
      rewrite list_lookup_insert_eq by (by eapply lookup_lt_Some). simpl. by rewrite list_insert_insert_eq. }
    apply Hok. eapply set_consumer_inv; [done|exact Hk| |by rewrite Hp]. by constructor.
  - apply Hok. by apply on_subscribed_inv.
  - unfold on_message. set (c1 := mkConsumer _ _ _ _ _ _).
    assert (topic_inv (set_consumer k c1 t)) as [G1 G2 G3 G4].
    { eapply set_consumer_inv; [done|exact Hk| |by rewrite Hp].
      constructor; simpl; [done|done|done|]. by rewrite F4, Hq. }
    apply Hok. by constructor.
  - apply Hok. eapply set_consumer_inv; [done|exact Hk| |simpl; by rewrite Hp].
    constructor; simpl; [done|done|done|]. by rewrite F4, <- app_assoc.
  - apply Hok. eapply set_consumer_inv; [done|exact Hk| |simpl; by rewrite Hp]. by constructor.
  - apply Hok. by apply delete_topic_inv.
  - rewrite (ti_unsubs _ Hi) in Hu. done.
  - destruct (topic_inv_feed t k c Hi Hk) as [F1 F2 F3 F4]. apply Hok.
    eapply set_consumer_inv; [done|exact Hk| |done]. constructor; simpl; [done|done|done|].
    by rewrite F4, <- !app_assoc.
  - destruct (topic_inv_feed t k c Hi Hk) as [F1 F2 F3 F4]. apply Hok.
    eapply set_consumer_inv; [done|exact Hk| |done]. by constructor.
Qed.

Lemma new_topic_inv : topic_inv new_topic.
Proof. constructor; simpl; [constructor| |done|done]. intros k. split; [done|]. intros (c & Hc & _). done. Qed.

Lemma topic_step_mono t t' : topic_ok t t' -> subscriptions t <= subscriptions t'.
Proof.
  intros Hs. unfold topic_ok in Hs.
  inversion Hs as [Hm Ho|k c Hm Hk Hp Ho|k c Hm Hk Hp Ho|k c m q Hk Hp Hq Ho|k c m Hk Hp Ho|k c Hk Hp Hq Hcl Ho
    |k c Hm Hk Hp Ho|n Hm Hu Ho|k c m Hk Hcl Ho|k c Hk Ho]; subst; simpl; try lia.
  - rewrite subscribe_counts. lia.
  - unfold consume_start in Ho. destruct (current t) as [j|]; [|done].
    destruct (consumers t !! j) as [cj|]; [|done]. destruct (consumers (set_consumer _ _ t) !! k); [|done].
    injection Ho as <-. simpl. lia.
  - unfold on_subscribed. case_decide; simpl; lia.
Qed.

(** The invariant holds as long as the 32-bit counter of subscriptions does
    not wrap. *)
Lemma topic_ok_inv t t' :
  (subscriptions t < 2 ^ 31 -> topic_inv t) -> topic_ok t t' -> subscriptions t' < 2 ^ 31 -> topic_inv t'.
Proof.
  intros Hi Hs Hn. pose proof (topic_step_mono _ _ Hs) as Hle.
  destruct (topic_step_inv t _ (Hi ltac:(lia)) Hs) as (x & [= <-] & Hx). by apply Hx.
Qed.

Lemma topic_reach_inv t : rtc topic_ok new_topic t -> subscriptions t < 2 ^ 31 -> topic_inv t.
Proof.
  intros Hr. pattern t. revert Hr. apply rtc_invariant; [intros ? ?; apply topic_ok_inv|].
  intros _. apply new_topic_inv.
Qed.


(** ** A subscription that never ends *)

(** A [SubscribeTopic] that found a feed whose goroutine had returned sends to
    a channel nobody receives from, and it holds the mutex: the goroutine
    cannot delete the topic, and no other call gets the mutex again. *)
Definition stuck (k : nat) (t : topic) : Prop :=
  mu t = InCallback k /\ exists c, consumers t !! k = Some c /\ c_pc c = Returned.

Lemma stuck_step k t t' : stuck k t -> topic_ok t t' -> stuck k t'.
Proof.
  intros [Hmu (c & Hk & Hp)] Hs. unfold topic_ok in Hs.
  assert (forall j c', j <> k -> stuck k (set_consumer j c' t)) as Hother.
  { intros j c' Hj. split; [done|]. exists c. split; [|done]. simpl. by rewrite list_lookup_insert_ne. }
  inversion Hs as [Hm Ho|j cj Hm Hj Hpj Ho|j cj Hm Hj Hpj Ho|j cj m q Hj Hpj Hq Ho|j cj m Hj Hpj Ho|j cj Hj Hpj Hq Hcl Ho
    |j cj Hm Hj Hpj Ho|n Hm Hu Ho|j cj m Hj Hcl Ho|j cj Hj Ho]; subst; try congruence.
  - destruct (Hother j (mkConsumer (feed cj) (Notifying m) (received cj) q (q_closed cj) (notified cj))) as [H1 H2];
      [intros ->; congruence|by split].
  - apply Hother. intros ->. congruence.
  - apply Hother. intros ->. congruence.
  - destruct (decide (j = k)) as [->|Hne]; [|by apply Hother]. split; [done|]. eexists. simpl.
    rewrite list_lookup_insert_eq by (by eapply lookup_lt_Some). split; [done|]. simpl. congruence.
  - destruct (decide (j = k)) as [->|Hne]; [|by apply Hother]. split; [done|]. eexists. simpl.
    rewrite list_lookup_insert_eq by (by eapply lookup_lt_Some). split; [done|]. simpl. congruence.
Qed.

(** when the queue of a topic was closed, as a lost connection does, the
    next [SubscribeTopic] may come before the topic is deleted; it then never
    returns, and no later call gets the mutex. *)
Theorem subscribe_can_block_forever :
  exists t k, rtc topic_ok new_topic t /\ subscriptions t = 2 /\ stuck k t /\
    forall t', rtc topic_ok t t' -> mu t' = InCallback k.
Proof.
  set (f1 := bfeed_Subscribe new_bfeed). set (f2 := bfeed_consume f1).
  set (c p q := mkConsumer f2 p [] [] q []).
  set (t2 := mkTopic [c Returned true] (Some 0%nat) (InCallback 0) 0 0 2).
  exists t2, 0%nat. assert (stuck 0 t2) as Hst by (split; [done|]; by eexists).
  split_and!; [|done|done|].
  - set (st p q := mkTopic [c p q] (Some 0%nat) Free 0 0 1).
    eapply rtc_l; [by apply tp_subscribe|].
    eapply (rtc_l _ _ (st Consuming false)); [exact (tp_start (subscribe new_topic) 0 _ eq_refl eq_refl eq_refl)|].
    eapply (rtc_l _ _ (st Consuming true)); [exact (tp_close (st Consuming false) 0 _ eq_refl)|].
    eapply (rtc_l _ _ (st Returned true)); [exact (tp_closed (st Consuming true) 0 _ eq_refl eq_refl eq_refl eq_refl)|].
    eapply (rtc_l _ _ t2); [exact (tp_subscribe (st Returned true) eq_refl)|apply rtc_refl].
  - intros t' Hr. apply (rtc_invariant _ (stuck 0)) in Hr; [by destruct Hr|apply stuck_step|done].
Qed.

End Broker.

(** ** A concrete run: a subscription, and a message on its way *)

Module Demo.

Definition feed1 : bfeed := bfeed_consume (bfeed_Subscribe new_bfeed).
Definition telling : topic (M := Z) :=
  mkTopic [mkConsumer feed1 (Notifying 7) [7] [] false []] (Some 0%nat) Free 0 1 1.

Lemma telling_reachable : rtc topic_ok new_topic telling.
Proof.
  set (st (r p : list Z) := mkTopic [mkConsumer feed1 Consuming r p false []] (Some 0%nat) Free 0 0 1).
  eapply rtc_l; [by apply tp_subscribe|].
  eapply (rtc_l _ _ (st [] [])); [exact (tp_start (subscribe new_topic) 0 _ eq_refl eq_refl eq_refl)|].
  eapply (rtc_l _ _ (st [7] [7])); [exact (tp_deliver (st [] []) 0 _ 7 eq_refl eq_refl)|].
  eapply (rtc_l _ _ telling); [exact (tp_message (st [7] [7]) 0 _ 7 [] eq_refl eq_refl eq_refl)|apply rtc_refl].
Qed.


End Demo.
