(* ===== verification/Crawl.v ===== *)
(** * crawler/crawler/crawler.go: the goroutines of [Crawl]

    [Crawl] starts the loop (Crawler.v [tick]) and a goroutine that starts the
    seeker (Seeker.v), takes the nodes it finds (Crawler.v [Crawl_node]) and is
    stopped by a third one that waits for the context.  This file puts the
    parts together: their states are fields of one record, and each step is a
    step of one goroutine.  [Crawl] is called once per crawler, as in
    app/application.go. *)

From stdpp Require Import base list gmap strings relations.
From Stdlib Require Import ZArith Lia.
From S2P Require Import Prelude Golang External Instances Peer Crawler Lifecycle Seeker.
Local Open Scope Z_scope.
Local Open Scope outcome_scope.

Section Crawl.
Context `{E : Enode}.
Context (URLv4 : enode -> string) (RetrieveFieldNames : enode -> list string).

(** The goroutine of the nodes: it makes the seeker, is in [iterator.Next],
    has its result ([None] for the zero value), handles a node, or is at the
    deferred [seeker.Stop]. *)
Inductive node_pc : Type := NdStart | NdNext | NdGot (o : option enode) | NdHandle (n : enode) | NdDefer | NdInStop | NdOver.

(** The goroutine that waits for the context: [Stop] of the iterator is an
    exchange of its flag and the closing of its channel. *)
Inductive watch_pc : Set := WtOff | WtWait | WtStop | WtClose | WtDone | WtOver.

#[export] Instance watch_pc_eq_dec : EqDecision watch_pc.
Proof. solve_decision. Defined.

(** [loop]; in [LpRun] it is at its select, or in [Push] when the crawler's
    [pushing] says so. *)
Inductive loop_pc : Set := LpStart | LpRun | LpStopRunner | LpInStop | LpStopIt | LpOver.

Record crawl := mkCrawl {
  ctx_done : bool; c_wg : Z; nd : node_pc; wt : watch_pc; lp : loop_pc;
  ds_stopped : bool; ds_closed : bool; sk : seeker; lr : runner; data : crawler }.

Definition set_nd (s : crawl) p := mkCrawl (ctx_done s) (c_wg s) p (wt s) (lp s) (ds_stopped s) (ds_closed s) (sk s) (lr s) (data s).
Definition set_wt (s : crawl) p := mkCrawl (ctx_done s) (c_wg s) (nd s) p (lp s) (ds_stopped s) (ds_closed s) (sk s) (lr s) (data s).
Definition set_lp (s : crawl) p := mkCrawl (ctx_done s) (c_wg s) (nd s) (wt s) p (ds_stopped s) (ds_closed s) (sk s) (lr s) (data s).
Definition set_lr (s : crawl) r := mkCrawl (ctx_done s) (c_wg s) (nd s) (wt s) (lp s) (ds_stopped s) (ds_closed s) (sk s) r (data s).
Definition set_data (s : crawl) d := mkCrawl (ctx_done s) (c_wg s) (nd s) (wt s) (lp s) (ds_stopped s) (ds_closed s) (sk s) (lr s) d.

(** The seeker's cleanup stops the same iterator, unless it is stopped. *)
Definition set_sk (s : crawl) k :=
  mkCrawl (ctx_done s) (c_wg s) (nd s) (wt s) (lp s) (ds_stopped s || dst_stopped k)
    (ds_closed s || (dst_stopped k && negb (ds_stopped s))) k (lr s) (data s).

(** [Crawl], up to the start of its goroutines; the seeker's filter is the
    crawler's [filterNode]. *)
Definition Crawl : outcome crawl :=
  n ← wg_Add 1 0;
  Ok (mkCrawl false n NdStart WtOff LpStart false false (NewSeeker true) newRunner NewCrawler).

Definition nthreads : nat := Z.to_nat threads.

Definition start_node (s : crawl) : outcome crawl :=
  k ← seeker_Start nthreads (sk s); Ok (set_wt (set_nd (set_sk s k) NdNext) WtWait).

(** After [Next]: a stopped iterator ends the loop, and a zero item has no
    node to read. *)
Definition node_check (o : option enode) (s : crawl) : outcome crawl :=
  if ds_stopped s then Ok (set_nd s NdDefer)
  else match o with Some n => Ok (set_nd s (NdHandle n)) | None => Panic NilDereference end.

Definition stop_dst (s : crawl) : crawl :=
  if ds_stopped s then set_wt s WtDone
  else mkCrawl (ctx_done s) (c_wg s) (nd s) WtClose (lp s) true (ds_closed s) (sk s) (lr s) (data s).
Definition close_dst (s : crawl) : outcome crawl :=
  if ds_closed s then Panic CloseOfClosedChannel
  else Ok (mkCrawl (ctx_done s) (c_wg s) (nd s) WtDone (lp s) (ds_stopped s) true (sk s) (lr s) (data s)).
Definition watch_done (s : crawl) : outcome crawl :=
  n ← wg_Done (c_wg s);
  Ok (mkCrawl (ctx_done s) n (nd s) WtOver (lp s) (ds_stopped s) (ds_closed s) (sk s) (lr s) (data s)).

Definition start_loop (s : crawl) : outcome crawl :=
  r ← Lifecycle.Start nthreads (lr s); Ok (set_lp (set_lr s r) LpRun).

(** The steps of the crawler's own goroutines; [Push] returns when a worker
    takes the item or the iterator is closed. *)
Inductive crawl_own (s : crawl) : outcome crawl -> Prop :=
| cw_start : nd s = NdStart -> crawl_own s (start_node s)
| cw_closed : nd s = NdNext -> ds_closed s = true -> crawl_own s (Ok (set_nd s (NdGot None)))
| cw_check o : nd s = NdGot o -> crawl_own s (node_check o s)
| cw_handle n : nd s = NdHandle n ->
    crawl_own s (Ok (set_nd (set_data s (Crawl_node URLv4 RetrieveFieldNames n (data s))) NdNext))
| cw_defer : nd s = NdDefer -> crawl_own s (Ok (set_nd (set_sk s (seeker_Stop (sk s))) NdInStop))
| cw_stopped : nd s = NdInStop -> s_stoppers (sk s) = 0%nat -> s_waiters (sk s) = 0%nat ->
    crawl_own s (Ok (set_nd s NdOver))
| cw_seeker o : seeker_own (sk s) o -> crawl_own s (k ← o; Ok (set_sk s k))
| cw_ctx : wt s = WtWait -> ctx_done s = true -> crawl_own s (Ok (set_wt s WtStop))
| cw_stop : wt s = WtStop -> crawl_own s (Ok (stop_dst s))
| cw_close : wt s = WtClose -> crawl_own s (close_dst s)
| cw_done : wt s = WtDone -> crawl_own s (watch_done s)
| cw_loop : lp s = LpStart -> crawl_own s (start_loop s)
| cw_pushed x : lp s = LpRun -> pushing (data s) = Some x -> looping (lr s) <> 0%nat \/ it_stopped (lr s) = true ->
    crawl_own s (d ← pushed URLv4 x (data s); Ok (set_data s d))
| cw_exit : lp s = LpRun -> pushing (data s) = None -> ctx_done s = true -> crawl_own s (Ok (set_lp s LpStopRunner))
| cw_stop_runner : lp s = LpStopRunner -> crawl_own s (Ok (set_lp (set_lr s (Lifecycle.Stop (lr s))) LpInStop))
| cw_runner_stopped : lp s = LpInStop -> stoppers (lr s) = 0%nat -> crawl_own s (Ok (set_lp s LpStopIt))
| cw_stop_it : lp s = LpStopIt -> crawl_own s (Ok (set_lp (set_lr s (stop_iterator (lr s))) LpOver))
| cw_runner o : runner_own (lr s) o -> crawl_own s (r ← o; Ok (set_lr s r)).

(** And what the world brings: the end of the context, a node that a worker
    of the seeker passes on, a tick, what the workers do to peers, an event
    of the table. *)
Inductive crawl_all (s : crawl) : outcome crawl -> Prop :=
| cw_own o : crawl_own s o -> crawl_all s o
| cw_cancel : crawl_all s (Ok (mkCrawl true (c_wg s) (nd s) (wt s) (lp s) (ds_stopped s) (ds_closed s) (sk s) (lr s) (data s)))
| cw_node n : nd s = NdNext -> looping (rn (sk s)) <> 0%nat -> crawl_all s (Ok (set_nd s (NdGot (Some n))))
| cw_tick now : lp s = LpRun -> pushing (data s) = None -> crawl_all s (d ← tick URLv4 now (data s); Ok (set_data s d))
| cw_worker x p p' effs : peers (data s) !! x = Some p -> looping (lr s) <> 0%nat ->
    crawl_all s (Ok (set_data s (worker_acts x p' effs (data s))))
| cw_event : ev (sk s) = EvSelect -> crawl_all s (Ok (set_sk s (set_ev (sk s) EvPush)))
| cw_taken : ev (sk s) = EvPush -> looping (rn (sk s)) <> 0%nat -> crawl_all s (Ok (set_sk s (set_ev (sk s) EvSelect))).

Definition crawl_own_ok (s s' : crawl) : Prop := crawl_own s (Ok s').
Definition crawl_all_ok (s s' : crawl) : Prop := crawl_all s (Ok s').

(** ** The invariant *)

(** A runner that nobody stops: none of its workers has left. *)
Definition adding (pc : runner_pc) : option nat := match pc with Adding k => Some k | AtSig => Some 0%nat | _ => None end.

Record alive (r : runner) : Prop := {
  al_count : exists k, adding (main r) = Some k /\ (k + waiting r + looping r = nthreads)%nat;
  al_stoppers : stoppers r = 0%nat;
  al_it : it_stopped r = false }.

Lemma alive_not_idle r : alive r -> main r <> Idle.
Proof. intros [(k & Hk & _) _ _] Hm. by rewrite Hm in Hk. Qed.

Lemma alive_own r r' : runner_inv r -> alive r -> own_ok r r' -> alive r'.
Proof.
  intros Hi [(k & Hk & Hsum) Hst Hit] Hs. pose proof Hi as [H1 H2 H3 H4]. unfold own_ok in Hs.
  assert (cancelled r = false) as Hc by (rewrite H3; by destruct (main r)).
  assert (done_closed r = false) as Hd by (rewrite H2; by destruct (main r)).
  inversion Hs as [j Hm Ho|Hm Ho|n Hm Hn Ho|n Hd' Hn Ho|Hm Ho|Hm Ho|Hm Ho|w Hw Ho|l Hl Hc' Ho]; subst;
    try congruence; try (rewrite Hm in Hk; simpl in Hk; simplify_eq).
  - constructor; simpl; try done. exists j. split; [done|lia].
  - constructor; simpl; try done. exists 0%nat. split; [done|lia].
  - unfold begin_job in Ho. destruct (wg_Add 1 (wg r)); [|done]. injection Ho as <-.
    constructor; simpl; try done. exists k. split; [done|lia].
  - rewrite Hc, Hit in Hc'. done.
Qed.

Lemma nthreads_8 : nthreads = 8%nat.
Proof. reflexivity. Qed.

(** A worker of it comes to take what is pushed. *)
Lemma alive_worker r :
  runner_inv r -> alive r -> exists r', rtc own_ok r r' /\ alive r' /\ runner_inv r' /\ looping r' <> 0%nat.
Proof.
  intros Hi Ha. assert (forall q, runner_inv q -> alive q -> waiting q <> 0%nat ->
    exists r', own_ok q r' /\ looping r' <> 0%nat) as Hbegin.
  { intros q Hq Hqa Hw. destruct (waiting q) as [|w] eqn:Ew; [done|].
    pose proof (rn_begin q w Ew) as Hs. destruct (runner_own_inv _ _ Hq Hs) as (r' & Heq & _).
    rewrite Heq in Hs. exists r'. split; [exact Hs|].
    unfold begin_job in Heq. destruct (wg_Add 1 (wg q)); [|done]. injection Heq as <-. done. }
  destruct (decide (looping r = 0%nat)) as [Hl|Hl]; [|by exists r].
  assert (exists q, rtc own_ok r q /\ waiting q <> 0%nat) as (q & Hrq & Hw).
  { destruct (al_count _ Ha) as (k & Hk & Hsum). destruct (decide (waiting r = 0%nat)) as [Hw|Hw]; [|by exists r].
    destruct (main r) as [|j| | | | |] eqn:Em; simpl in Hk; simplify_eq.
    - destruct k as [|k]; [rewrite nthreads_8 in Hsum; lia|].
      eexists. split; [apply rtc_once; by apply rn_add|done].
    - rewrite nthreads_8 in Hsum. lia. }
  assert (runner_inv q /\ alive q) as [Hqi Hqa].
  { clear Hbegin Hw Hl. induction Hrq as [|x y z Hs Hrq IH]; [done|].
    apply IH; [by eapply own_ok_inv|by eapply alive_own]. }
  destruct (Hbegin q Hqi Hqa Hw) as (r' & Hs & Hl'). exists r'.
  split; [by eapply rtc_r|]. split; [by eapply alive_own|]. split; [by eapply own_ok_inv|done].
Qed.

(** What the goroutine of the nodes knows of the seeker: nobody stopped it
    before the deferred call, which returns when the cleanup is over. *)
Definition node_seeker (p : node_pc) (k : seeker) : Prop :=
  match p with
  | NdInStop =>
      (s_stoppers k = 1%nat /\ s_waiters k = 0%nat /\ Seeker.pc k = SkSig) \/
      (s_stoppers k = 0%nat /\ s_waiters k = 1%nat /\ after 1 (Seeker.pc k) = true) \/
      (s_stoppers k = 0%nat /\ s_waiters k = 0%nat /\ Seeker.pc k = Over)
  | NdOver => Seeker.pc k = Over
  | NdStart => Seeker.pc k = Off /\ s_stoppers k = 0%nat /\ s_waiters k = 0%nat
  | _ => Seeker.pc k = SkSig /\ s_stoppers k = 0%nat /\ s_waiters k = 0%nat
  end.

Definition loop_runner (p : loop_pc) (r : runner) (d : crawler) (ctx : bool) : Prop :=
  match p with
  | LpStart => r = newRunner /\ pushing d = None
  | LpRun => alive r
  | LpStopRunner => alive r /\ pushing d = None /\ ctx = true
  | LpInStop => main r <> Idle /\ signalled r /\ pushing d = None /\ ctx = true
  | LpStopIt => main r <> Idle /\ signalled r /\ stoppers r = 0%nat /\ pushing d = None /\ ctx = true
  | LpOver => main r <> Idle /\ signalled r /\ stoppers r = 0%nat /\ it_stopped r = true /\ pushing d = None /\ ctx = true
  end.

Definition watching (p : watch_pc) : bool := match p with WtOff | WtWait | WtStop => false | _ => true end.

Record cinv (s : crawl) : Prop := {
  cv_sk : Seeker.inv (sk s);
  cv_lr : runner_inv (lr s);
  cv_data : rtc (crawl_ok URLv4 RetrieveFieldNames) NewCrawler (data s);
  cv_off : wt s = WtOff <-> nd s = NdStart;
  cv_wg : c_wg s = match wt s with WtOver => 0 | _ => 1 end;
  cv_ctx : ctx_done s = false -> wt s = WtOff \/ wt s = WtWait;
  cv_stopped : ds_stopped s = watching (wt s);
  cv_closed : ds_closed s = match wt s with WtDone | WtOver => true | _ => false end;
  cv_node : match nd s with NdGot None | NdDefer | NdInStop | NdOver => ds_stopped s = true | _ => True end;
  cv_seeker : node_seeker (nd s) (sk s);
  cv_loop : loop_runner (lp s) (lr s) (data s) (ctx_done s) }.

(** A step of the cleanup, which only [NdInStop] allows. *)
Ltac advance p Hp Hn :=
  destruct p; simpl in *; try (destruct_and?; congruence);
  destruct Hn as [(? & ? & ?)|[(? & ? & ?)|(? & ? & ?)]]; try congruence;
  right; left; split_and!; [assumption|assumption|reflexivity].

(** A step of the seeker's goroutines keeps what its owner knows. *)
Lemma node_seeker_own p k k' :
  Seeker.inv k -> node_seeker p k -> seeker_own_ok k k' -> node_seeker p k'.
Proof.
  intros [Hi Hr] Hn Hs. pose proof Hi as [H1 H2 H3 H4 H5 H6 H7 H8 H9]. pose proof Hr as [R1 R2 R3 R4 R5 R6].
  unfold seeker_own_ok in Hs.
  inversion Hs as [o Ho Heq|n Hp Hm Heq|Hp Heq|Hp Heq|Hp Heq|Hp Heq|Hp Heq|Hp Hst Heq|Hp Hw Heq|Hp Heq|n Hd Hm Heq|n Hw Hm Heq|He Hit Heq|He Hc Heq]; subst.
  - destruct o as [r|]; [|done]. injection Heq as <-. by destruct p.
  - destruct p; simpl in *; try (destruct_and?; congruence).
    destruct Hn as [(Hs1 & Hw1 & _)|[(Hs1 & _)|(Hs1 & _)]]; [|congruence..].
    right; left. simpl. rewrite Hw1. split_and!; [congruence|done|done].
  - unfold sk_close in Heq. destruct (s_done k); simplify_eq. advance p Hp Hn.
  - advance p Hp Hn.
  - advance p Hp Hn.
  - advance p Hp Hn.
  - advance p Hp Hn.
  - advance p Hp Hn.
  - advance p Hp Hn.
  - unfold sk_release in Heq. destruct (wg_Done (s_wg k)); [|done]. injection Heq as <-. advance p Hp Hn.
  - rewrite H3 in Hd. destruct p; simpl in *; try (destruct_and?; congruence).
    destruct Hn as [(Hs1 & Hw1 & Hp)|[(Hs1 & _)|(Hs1 & _)]]; [|congruence..]. by rewrite Hp in Hd.
  - destruct p; simpl in *; try (destruct_and?; congruence).
    destruct Hn as [(Hs1 & Hw1 & Hp)|[(Hs1 & Hw1 & Ha)|(Hs1 & Hw1 & Hp)]]; [congruence| |congruence].
    right; right. rewrite H2 in Hw. assert (n = 0%nat) as -> by congruence.
    split_and!; [done..|]. by destruct (Seeker.pc k).
  - by destruct p.
  - by destruct p.
Qed.

Lemma node_seeker_dst p k :
  Seeker.inv k -> node_seeker p k -> dst_stopped k = true -> p = NdInStop \/ p = NdOver.
Proof.
  intros [Hi _] Hn. rewrite (si_dst _ Hi).
  destruct p; simpl in Hn; auto; destruct Hn as (-> & _); done.
Qed.

(** ** Every step keeps the invariant *)

(** What a goroutine may do to its own part. *)
Lemma node_update s p k :
  cinv s -> Seeker.inv k -> (p = NdStart <-> nd s = NdStart) -> node_seeker p k ->
  match p with NdGot None | NdDefer | NdInStop | NdOver => ds_stopped s = true | _ => True end ->
  cinv (set_nd (set_sk s k) p).
Proof.
  intros [C1 C2 C3 C4 C5 C6 C7 C8 C9 C10 C11] Hk Hp Hn Hm.
  assert (dst_stopped k = true -> ds_stopped s = true) as Hd.
  { intros Hd. by destruct (node_seeker_dst p k Hk Hn Hd) as [-> | ->]. }
  assert (set_nd (set_sk s k) p = mkCrawl (ctx_done s) (c_wg s) p (wt s) (lp s) (ds_stopped s) (ds_closed s) k (lr s) (data s)) as ->.
  { unfold set_nd, set_sk. simpl. f_equal.
    - destruct (dst_stopped k), (ds_stopped s); try done. by specialize (Hd eq_refl).
    - destruct (dst_stopped k), (ds_stopped s), (ds_closed s); try done; by specialize (Hd eq_refl). }
  constructor; simpl; try done. by rewrite Hp.
Qed.

Lemma loop_update s p r d :
  cinv s -> runner_inv r -> rtc (crawl_ok URLv4 RetrieveFieldNames) (data s) d -> loop_runner p r d (ctx_done s) ->
  cinv (mkCrawl (ctx_done s) (c_wg s) (nd s) (wt s) p (ds_stopped s) (ds_closed s) (sk s) r d).
Proof. intros [] Hr Hd Hl. constructor; simpl; try done. by etransitivity. Qed.

Lemma loop_runner_data p r d d' c : pushing d' = pushing d -> loop_runner p r d c -> loop_runner p r d' c.
Proof. intros Hp. destruct p; simpl; rewrite ?Hp; auto. Qed.

Lemma data_update s d :
  cinv s -> crawl_ok URLv4 RetrieveFieldNames (data s) d -> pushing d = pushing (data s) -> cinv (set_data s d).
Proof.
  intros Hc Hd Hp. apply (loop_update s (lp s) (lr s) d); [done|by destruct Hc|by apply rtc_once|].
  eapply loop_runner_data; [exact Hp|by destruct Hc].
Qed.

Lemma data_step s o :
  cinv s -> crawl_step URLv4 RetrieveFieldNames (data s) o ->
  exists d, o ⇓ d /\ crawl_ok URLv4 RetrieveFieldNames (data s) d.
Proof.
  intros Hc Hs. destruct (crawl_step_ok URLv4 RetrieveFieldNames (data s) o) as [d ->]; [|done|by exists d].
  eapply crawl_reach_inv, (cv_data _ Hc).
Qed.

(** The goroutine of the nodes. *)
Lemma start_node_inv s : cinv s -> nd s = NdStart -> exists s', start_node s ⇓ s' /\ cinv s'.
Proof.
  intros Hc Hn. pose proof Hc as [C1 C2 C3 C4 C5 C6 C7 C8 C9 C10 C11]. rewrite Hn in *.
  assert (wt s = WtOff) as Hw by by apply C4. destruct C10 as (Hp & Hst & Hwt).
  destruct (seeker_step_inv _ _ C1 (sk_Start (sk s) nthreads)) as (k & Hk & Hki).
  unfold start_node. rewrite Hk. eexists. split; [reflexivity|].
  assert (Seeker.pc k = SkSig /\ s_stoppers k = 0%nat /\ s_waiters k = 0%nat /\ dst_stopped k = false) as (K1 & K2 & K3 & K4).
  { unfold seeker_Start in Hk. destruct C1 as [Ci _]. rewrite (si_running _ Ci), (si_wg _ Ci), Hp in Hk.
    cbn -[Lifecycle.Start nthreads] in Hk.
    destruct (Start_inv newRunner nthreads) as (r & Heq & _); [by repeat constructor|done|].
    rewrite Heq in Hk. injection Hk as <-. simpl.
    split_and!; [done..|]. by rewrite (si_dst _ Ci), Hp. }
  unfold set_wt, set_nd, set_sk. simpl. rewrite K4, !orb_false_r.
  constructor; simpl; try done; rewrite ?C7, ?C8, ?C5, ?Hw; try done. by right.
Qed.

Lemma node_check_inv s o : cinv s -> nd s = NdGot o -> exists s', node_check o s ⇓ s' /\ cinv s'.
Proof.
  intros Hc Hn. pose proof Hc as [C1 C2 C3 C4 C5 C6 C7 C8 C9 C10 C11]. rewrite Hn in *. unfold node_check.
  assert (forall p, p <> NdStart -> node_seeker p (sk s) ->
    match p with NdGot None | NdDefer | NdInStop | NdOver => ds_stopped s = true | _ => True end -> cinv (set_nd s p)) as Hp.
  { intros p H1 H2 H3. constructor; simpl; try done. rewrite C4. by split. }
  destruct (ds_stopped s) eqn:Hd.
  - eexists. split; [reflexivity|]. by apply Hp.
  - destruct o as [n|]; [|done]. eexists. split; [reflexivity|]. by apply Hp.
Qed.

(** The goroutine that waits for the context. *)
Lemma watch_update s p st cl w :
  cinv s -> wt s <> WtOff -> p <> WtOff -> ctx_done s = true ->
  w = match p with WtOver => 0 | _ => 1 end -> st = watching p -> (ds_stopped s = true -> st = true) ->
  cl = match p with WtDone | WtOver => true | _ => false end ->
  cinv (mkCrawl (ctx_done s) w (nd s) p (lp s) st cl (sk s) (lr s) (data s)).
Proof.
  intros [C1 C2 C3 C4 C5 C6 C7 C8 C9 C10 C11] H1 H2 Hx -> -> Hst ->.
  constructor; simpl; try done.
  - rewrite <- C4. done.
  - by rewrite Hx.
  - destruct (nd s) as [| |[]| | | |]; auto.
Qed.

Lemma watch_inv s o :
  cinv s -> (wt s = WtStop /\ o = Ok (stop_dst s) \/ wt s = WtClose /\ o = close_dst s \/ wt s = WtDone /\ o = watch_done s) ->
  exists s', o ⇓ s' /\ cinv s'.
Proof.
  intros Hc Ho. pose proof Hc as [C1 C2 C3 C4 C5 C6 C7 C8 C9 C10 C11].
  assert (ctx_done s = true) as Hx.
  { destruct (ctx_done s); [done|]. destruct (C6 eq_refl); destruct_or?; destruct_and?; congruence. }
  destruct Ho as [[Hw ->]|[[Hw ->]|[Hw ->]]]; rewrite Hw in *; simpl in *.
  - eexists. split; [reflexivity|]. unfold stop_dst. rewrite C7. apply watch_update; congruence || done.
  - unfold close_dst. rewrite C8. eexists. split; [reflexivity|]. apply watch_update; congruence || done.
  - unfold watch_done. rewrite C5. cbn. eexists. split; [reflexivity|]. apply watch_update; congruence || done.
Qed.

(** The loop and its runner. *)
Lemma loop_runner_own p r r' d c : runner_inv r -> loop_runner p r d c -> own_ok r r' -> loop_runner p r' d c.
Proof.
  intros Hi Hl Hs. destruct (own_facts r r' Hi Hs) as (Hm & Hm' & Hit & Hst & Hd & Hsig).
  destruct p; simpl in *.
  - destruct Hl as [-> _]. done.
  - by eapply alive_own.
  - destruct Hl as [Ha Hl]. split; [by eapply alive_own|done].
  - naive_solver.
  - destruct Hl as (_ & H1 & H2 & H3). split_and!; [done|auto|lia|apply H3..].
  - destruct Hl as (_ & H1 & H2 & H3 & H4). split_and!; [done|auto|lia|congruence|apply H4..].
Qed.

Lemma loop_stop_inv s :
  cinv s -> lp s = LpStopRunner -> cinv (set_lp (set_lr s (Lifecycle.Stop (lr s))) LpInStop).
Proof.
  intros Hc Hl. pose proof (cv_loop _ Hc) as Hr. pose proof (cv_lr _ Hc) as Hi. rewrite Hl in Hr. destruct Hr as (Ha & Hp & Hx).
  apply (loop_update s LpInStop (Lifecycle.Stop (lr s)) (data s)); [done|by apply Stop_inv|done|].
  destruct (Stop_fields (lr s)) as [Hm _]. simpl. rewrite Hm. split_and!; [|by apply Stop_signals|done..].
  by apply alive_not_idle.
Qed.

Lemma pushed_pushing x d d' : pushed URLv4 x d ⇓ d' -> pushing d' = None.
Proof. unfold pushed. destruct (peers d !! x) as [p|]; [|done]. destruct (publish URLv4 p). by intros [= <-]. Qed.

Lemma loop_start_inv s : cinv s -> lp s = LpStart -> exists s', start_loop s ⇓ s' /\ cinv s'.
Proof.
  intros Hc Hl. pose proof (cv_loop _ Hc) as Hr. rewrite Hl in Hr. destruct Hr as (Hr & Hp).
  destruct (Start_inv (lr s) nthreads (cv_lr _ Hc)) as (r & Heq & Hri & ->); [by rewrite Hr|].
  unfold start_loop. rewrite Heq. eexists. split; [reflexivity|].
  apply (loop_update s LpRun _ (data s)); [done|done|done|]. rewrite Hr. simpl.
  constructor; simpl; try done. exists nthreads. split; [done|lia].
Qed.

Lemma loop_inv s o :
  cinv s ->
  (exists x, lp s = LpRun /\ pushing (data s) = Some x /\ o = (d ← pushed URLv4 x (data s); Ok (set_data s d))) \/
  (lp s = LpRun /\ pushing (data s) = None /\ ctx_done s = true /\ o = Ok (set_lp s LpStopRunner)) \/
  (lp s = LpInStop /\ stoppers (lr s) = 0%nat /\ o = Ok (set_lp s LpStopIt)) \/
  (lp s = LpStopIt /\ o = Ok (set_lp (set_lr s (stop_iterator (lr s))) LpOver)) ->
  exists s', o ⇓ s' /\ cinv s'.
Proof.
  intros Hc. pose proof (cv_loop _ Hc) as Hr. pose proof (cv_lr _ Hc) as Hi.
  intros [(x & Hl & Hp & ->)|[(Hl & Hp & Hx & ->)|[(Hl & H0 & ->)|(Hl & ->)]]]; rewrite Hl in Hr; simpl in Hr.
  - destruct (data_step s _ Hc (cs_pushed _ _ _ x Hp)) as (d & Hd & Hs). rewrite Hd. eexists. split; [reflexivity|].
    apply (loop_update s (lp s) (lr s) d); [done|done|by apply rtc_once|]. by rewrite Hl.
  - eexists. split; [reflexivity|]. by apply (loop_update s LpStopRunner (lr s) (data s)).
  - eexists. split; [reflexivity|]. apply (loop_update s LpStopIt (lr s) (data s)); [done..|]. simpl. naive_solver.
  - eexists. split; [reflexivity|]. apply (loop_update s LpOver (stop_iterator (lr s)) (data s)); [done|by apply stop_iterator_inv|done|].
    simpl. naive_solver.
Qed.

Lemma runner_update s r : cinv s -> own_ok (lr s) r -> cinv (set_lr s r).
Proof.
  intros Hc Hs. pose proof (cv_lr _ Hc) as Hi.
  apply (loop_update s (lp s) r (data s)); [done|by eapply own_ok_inv|done|].
  eapply loop_runner_own; [done|apply (cv_loop _ Hc)|done].
Qed.

Lemma seeker_update s k : cinv s -> seeker_own_ok (sk s) k -> cinv (set_sk s k).
Proof.
  intros Hc Hs. pose proof (cv_sk _ Hc) as Hi. apply (node_update s (nd s) k); [done|by eapply seeker_own_ok_inv|done| |apply (cv_node _ Hc)].
  eapply node_seeker_own; [done|apply (cv_seeker _ Hc)|done].
Qed.

Lemma crawl_own_inv s o : cinv s -> crawl_own s o -> exists s', o ⇓ s' /\ cinv s'.
Proof.
  intros Hc Hs. pose proof Hc as [C1 C2 C3 C4 C5 C6 C7 C8 C9 C10 C11].
  destruct Hs as [Hn|Hn Hcl|o Hn|n Hn|Hn|Hn Hst Hw|o Ho|Hw Hx|Hw|Hw|Hw|Hl|x Hl Hp Ht|Hl Hp Hx|Hl|Hl H0|Hl|o Ho].
  - by apply start_node_inv.
  - eexists. split; [reflexivity|]. rewrite Hn in *. constructor; simpl; try done; [rewrite C4; by split|].
    rewrite C8 in Hcl. rewrite C7. by destruct (wt s).
  - by apply node_check_inv.
  - eexists. split; [reflexivity|]. rewrite Hn in *.
    assert (cinv (set_data s (Crawl_node URLv4 RetrieveFieldNames n (data s)))) as [] by (by apply data_update; [|apply cs_node|]).
    constructor; simpl in *; rewrite ?Hn in *; try done. rewrite C4; by split.
  - eexists. split; [reflexivity|]. rewrite Hn in *. destruct C10 as (Hp & Hst & Hw).
    destruct (seeker_step_inv _ _ C1 (sk_Stop (sk s))) as (k & [= <-] & Hk).
    apply node_update; [done|done|by rewrite Hn|simpl|done].
    destruct C1 as [Ci _]. unfold seeker_Stop. rewrite (si_done _ Ci), Hp. simpl. left. by rewrite Hst.
  - eexists. split; [reflexivity|]. rewrite Hn in *.
    assert (Seeker.pc (sk s) = Over) as Hov by (simpl in C10; destruct C10 as [(? & _)|[(_ & ? & _)|(_ & _ & ?)]]; congruence).
    constructor; simpl; try done. rewrite C4; by split.
  - destruct (seeker_own_inv _ _ C1 Ho) as (k & -> & _). eexists. split; [reflexivity|]. by apply seeker_update.
  - eexists. split; [reflexivity|]. unfold set_wt. apply watch_update; rewrite ?Hw in *; congruence || done.
  - apply (watch_inv s); auto.
  - apply (watch_inv s); auto.
  - apply (watch_inv s); auto 6.
  - by apply loop_start_inv.
  - apply (loop_inv s); [done|]. left. eauto.
  - apply (loop_inv s); auto 8.
  - eexists. split; [reflexivity|]. by apply loop_stop_inv.
  - apply (loop_inv s); auto 8.
  - apply (loop_inv s); [done|]. right. right. right. auto.
  - destruct (runner_own_inv _ _ C2 Ho) as (r & -> & _). eexists. split; [reflexivity|]. by apply runner_update.
Qed.

Lemma crawl_all_inv s o : cinv s -> crawl_all s o -> exists s', o ⇓ s' /\ cinv s'.
Proof.
  intros Hc Hs. pose proof Hc as [C1 C2 C3 C4 C5 C6 C7 C8 C9 C10 C11].
  destruct Hs as [o Ho| |n Hn Hl|now Hl Hp|x p p' effs Hx Hl|He|He Hl].
  - by eapply crawl_own_inv.
  - eexists. split; [reflexivity|]. constructor; simpl; try done. destruct (lp s); simpl in *; naive_solver.
  - eexists. split; [reflexivity|]. rewrite Hn in *. constructor; simpl; try done. rewrite C4; by split.
  - destruct (data_step s _ Hc (cs_tick _ _ _ now Hp)) as (d & Hd & Hs). rewrite Hd. eexists. split; [reflexivity|].
    apply (loop_update s (lp s) (lr s) d); [done|done|by apply rtc_once|]. rewrite Hl in *. done.
  - eexists. split; [reflexivity|]. apply (data_update s); [done|by eapply cs_work|done].
  - eexists. split; [reflexivity|]. apply (node_update s (nd s)); [done| |done|by destruct (nd s)|done].
    eapply seeker_ok_inv; [exact C1|by apply ev_event].
  - eexists. split; [reflexivity|]. apply (node_update s (nd s)); [done| |done|by destruct (nd s)|done].
    eapply seeker_ok_inv; [exact C1|by apply ev_taken].
Qed.

Lemma crawl_all_ok_inv s s' : cinv s -> crawl_all_ok s s' -> cinv s'.
Proof. intros Hc Hs. by destruct (crawl_all_inv s _ Hc Hs) as (x & [= <-] & Hx). Qed.

Lemma crawl_own_ok_inv s s' : cinv s -> crawl_own_ok s s' -> cinv s'.
Proof. intros Hc Hs. eapply crawl_all_ok_inv; [exact Hc|by apply cw_own]. Qed.

Lemma Crawl_inv : exists s, Crawl ⇓ s /\ cinv s.
Proof.
  eexists. split; [reflexivity|]. constructor; simpl; try done; by repeat constructor.
Qed.

Lemma Crawl_reach_inv s0 s : Crawl ⇓ s0 -> rtc crawl_all_ok s0 s -> cinv s.
Proof.
  intros H0 Hr. destruct Crawl_inv as (x & Hx & Hi). rewrite Hx in H0. injection H0 as <-.
  run_invariant crawl_all_ok_inv. done.
Qed.


(** ** Shutting down *)

Definition lset s p r d := mkCrawl (ctx_done s) (c_wg s) (nd s) (wt s) p (ds_stopped s) (ds_closed s) (sk s) r d.

Lemma lift_lr s r : rtc own_ok (lr s) r -> rtc crawl_own_ok s (lset s (lp s) r (data s)).
Proof.
  intros Hr. remember (lr s) as r0 eqn:E0. revert s E0.
  induction Hr as [r|r r1 r2 Hs Hr IH]; intros s ->; [destruct s; apply rtc_refl|].
  eapply rtc_l; [exact (cw_runner s _ Hs)|]. exact (IH (set_lr s r1) eq_refl).
Qed.

Lemma rtc_own_inv s s' : cinv s -> rtc crawl_own_ok s s' -> cinv s'.
Proof. intros Hc Hr. revert Hc Hr. apply rtc_invariant, crawl_own_ok_inv. Qed.

(** The loop gets out of its tick, whose [Push] a worker ends. *)
Lemma loop_leaves_tick s :
  cinv s -> lp s = LpRun -> ctx_done s = true -> exists r d, rtc crawl_own_ok s (lset s LpStopRunner r d).
Proof.
  intros Hc Hl Hx. destruct (pushing (data s)) as [x|] eqn:Hp.
  - pose proof (cv_loop _ Hc) as Ha. rewrite Hl in Ha.
    destruct (alive_worker (lr s) (cv_lr _ Hc) Ha) as (r & Hr & _ & _ & Hlo).
    set (s1 := lset s (lp s) r (data s)). assert (rtc crawl_own_ok s s1) as Hr1 by by apply lift_lr.
    assert (cinv s1) as Hc1 by by eapply rtc_own_inv.
    destruct (data_step s1 _ Hc1 (cs_pushed URLv4 RetrieveFieldNames (data s1) x Hp)) as (d & Hd & _).
    pose proof (cw_pushed s1 x Hl Hp (or_introl Hlo)) as Hs. rewrite Hd in Hs; simpl in Hs.
    exists r, d. etransitivity; [exact Hr1|]. eapply rtc_l; [exact Hs|]. apply rtc_once.
    apply (cw_exit (set_data s1 d)); [done| |done]. by eapply pushed_pushing.
  - exists (lr s), (data s). apply rtc_once. by apply (cw_exit s).
Qed.

Definition rank (p : loop_pc) : nat :=
  match p with LpStart => 0 | LpRun => 1 | LpStopRunner => 2 | LpInStop => 3 | LpStopIt => 4 | LpOver => 5 end.

Lemma loop_advances s :
  cinv s -> ctx_done s = true -> lp s <> LpOver ->
  exists p r d, rtc crawl_own_ok s (lset s p r d) /\ rank p = S (rank (lp s)).
Proof.
  intros Hc Hx Hn. pose proof (cv_loop _ Hc) as Hr. pose proof (cv_lr _ Hc) as Hi.
  destruct (lp s) eqn:Hl; simpl in Hr; [| | | | |done].
  - destruct Hr as (Hr & _). destruct (Start_inv (lr s) nthreads Hi) as (r & Heq & _); [by rewrite Hr|].
    pose proof (cw_loop s Hl) as Hs. unfold start_loop in Hs. rewrite Heq in Hs.
    exists LpRun, r, (data s). split; [by apply rtc_once|done].
  - destruct (loop_leaves_tick s Hc Hl Hx) as (r & d & Hs). by exists LpStopRunner, r, d.
  - exists LpInStop, (Lifecycle.Stop (lr s)), (data s). split; [|done]. by apply rtc_once, cw_stop_runner.
  - destruct Hr as (Hm & Hsig & _). destruct (runner_drains (lr s) Hi Hm Hsig) as (r & Hrr & _ & H0).
    exists LpStopIt, r, (data s). split; [|done]. eapply rtc_r; [by apply lift_lr|].
    apply (cw_runner_stopped (lset s (lp s) r (data s))); done.
  - exists LpOver, (stop_iterator (lr s)), (data s). split; [|done]. by apply rtc_once, cw_stop_it.
Qed.

Lemma loop_ends s :
  cinv s -> ctx_done s = true ->
  exists r d, rtc crawl_own_ok s (lset s LpOver r d) /\ main r = Finished /\ wait_returns r.
Proof.
  remember (5 - rank (lp s))%nat as n eqn:En. revert s En. induction n as [|n IH]; intros s En Hc Hx.
  - assert (lp s = LpOver) as Hl by (destruct (lp s); simpl in En; lia || done).
    pose proof (cv_loop _ Hc) as Hr. rewrite Hl in Hr. destruct Hr as (Hm & Hsig & _).
    destruct (runner_can_stop (lr s) (cv_lr _ Hc) Hm Hsig) as (r & Hrr & Hf & Hw).
    exists r, (data s). split; [|done]. rewrite <- Hl. by apply lift_lr.
  - destruct (loop_advances s Hc Hx) as (p & r & d & Hr & Hp); [intros Hl; by rewrite Hl in En|].
    destruct (IH (lset s p r d)) as (r' & d' & Hr' & Hf); [simpl; lia|by eapply rtc_own_inv|done|].
    exists r', d'. split; [|done]. by etransitivity.
Qed.

(** The goroutine that waits for the context ends. *)
Definition watched (s : crawl) : crawl :=
  mkCrawl (ctx_done s) 0 (nd s) WtOver (lp s) true true (sk s) (lr s) (data s).

Lemma watch_ends s : cinv s -> ctx_done s = true -> wt s <> WtOff -> rtc crawl_own_ok s (watched s).
Proof.
  assert (forall s, cinv s -> wt s = WtDone -> rtc crawl_own_ok s (watched s)) as Hdone.
  { intros t Hc Hw. pose proof (cw_done t Hw) as Hs. unfold watch_done, wg_Done, wg_Add in Hs.
    rewrite (cv_wg _ Hc), Hw in Hs. apply rtc_once. unfold watched.
    rewrite (cv_stopped _ Hc), (cv_closed _ Hc), Hw in Hs. exact Hs. }
  assert (forall s, cinv s -> wt s = WtClose -> rtc crawl_own_ok s (watched s)) as Hclose.
  { intros t Hc Hw. pose proof (cw_close t Hw) as Hs. unfold close_dst in Hs. rewrite (cv_closed _ Hc), Hw in Hs.
    eapply rtc_l; [exact Hs|]. exact (Hdone _ (crawl_own_ok_inv _ _ Hc Hs) eq_refl). }
  assert (forall s, cinv s -> wt s = WtStop -> rtc crawl_own_ok s (watched s)) as Hstop.
  { intros t Hc Hw. pose proof (cw_stop t Hw) as Hs. unfold stop_dst in Hs. rewrite (cv_stopped _ Hc), Hw in Hs.
    eapply rtc_l; [exact Hs|]. exact (Hclose _ (crawl_own_ok_inv _ _ Hc Hs) eq_refl). }
  intros Hc Hx Hn. destruct (wt s) eqn:Hw; [done| |by apply Hstop|by apply Hclose|by apply Hdone|].
  - pose proof (cw_ctx s Hw Hx) as Hs. eapply rtc_l; [exact Hs|].
    exact (Hstop _ (crawl_own_ok_inv _ _ Hc Hs) eq_refl).
  - pose proof (cv_stopped _ Hc) as H1. pose proof (cv_closed _ Hc) as H2. pose proof (cv_wg _ Hc) as H3.
    rewrite Hw in *. destruct s; simpl in *; subst. apply rtc_refl.
Qed.

(** The goroutine of the nodes gets to its deferred [Stop]. *)
Definition nset s p k d := mkCrawl (ctx_done s) (c_wg s) p (wt s) (lp s) (ds_stopped s) (ds_closed s) k (lr s) d.

Lemma set_sk_stopped s k : ds_stopped s = true -> set_sk s k = nset s (nd s) k (data s).
Proof. intros Hd. unfold set_sk, nset. by rewrite Hd, andb_false_r, orb_false_r. Qed.

Lemma lift_sk s k : ds_stopped s = true -> rtc seeker_own_ok (sk s) k -> rtc crawl_own_ok s (nset s (nd s) k (data s)).
Proof.
  intros Hd Hr. remember (sk s) as k0 eqn:E0. revert s Hd E0.
  induction Hr as [k|k k1 k2 Hs Hr IH]; intros s Hd ->; [destruct s; apply rtc_refl|].
  pose proof (cw_seeker s _ Hs) as Hs'. simpl in Hs'. rewrite set_sk_stopped in Hs' by done.
  eapply rtc_l; [exact Hs'|]. exact (IH (nset s (nd s) k1 (data s)) Hd eq_refl).
Qed.

(** Where the goroutine of the nodes is on its way to [NdInStop]. *)
Definition away (p : node_pc) : nat :=
  match p with NdHandle _ => 4 | NdNext => 3 | NdGot _ => 2 | NdDefer => 1 | _ => 0 end.

Lemma node_stops s :
  cinv s -> wt s = WtOver -> exists p k d, rtc crawl_own_ok s (nset s p k d) /\ (p = NdInStop \/ p = NdOver).
Proof.
  remember (away (nd s)) as n eqn:En. revert s En. induction n as [|n IH]; intros s En Hc Hw.
  - exists (nd s), (sk s), (data s). split; [destruct s; apply rtc_refl|].
    pose proof (cv_off _ Hc) as H. destruct (nd s); simpl in En; try lia; auto. destruct H as [_ H]. rewrite H in Hw; done.
  - assert (ds_stopped s = true) as Hd by by rewrite (cv_stopped _ Hc), Hw.
    assert (ds_closed s = true) as Hcl by by rewrite (cv_closed _ Hc), Hw.
    assert (exists p k d, crawl_own_ok s (nset s p k d) /\ n = away p) as (p & k & d & Hs & Hn).
    { destruct (nd s) as [| |o|m| | |] eqn:Hp; simpl in En; try done; injection En as ->.
      - exists (NdGot None), (sk s), (data s). split; [by apply (cw_closed s)|done].
      - pose proof (cw_check s o Hp) as Hs. unfold node_check in Hs. rewrite Hd in Hs.
        exists NdDefer, (sk s), (data s). split; [exact Hs|done].
      - exists NdNext, (sk s), (Crawl_node URLv4 RetrieveFieldNames m (data s)). split; [exact (cw_handle s m Hp)|done].
      - pose proof (cw_defer s Hp) as Hs. rewrite set_sk_stopped in Hs by done.
        exists NdInStop, (seeker_Stop (sk s)), (data s). split; [exact Hs|done]. }
    destruct (IH (nset s p k d) Hn) as (p' & k' & d' & Hr & Hp'); [by eapply crawl_own_ok_inv|done|].
    exists p', k', d'. split; [|done]. eapply rtc_l; [exact Hs|exact Hr].
Qed.

(** The seeker finishes once it is asked to. *)
Lemma seeker_finishes p k :
  Seeker.inv k -> node_seeker p k -> p = NdInStop \/ p = NdOver ->
  exists k', rtc seeker_own_ok k k' /\ Seeker.pc k' = Over /\ s_stoppers k' = 0%nat /\ s_waiters k' = 0%nat /\ ev k' = EvEnd.
Proof.
  intros Hi Hn Hp.
  assert (exists k1, rtc seeker_own_ok k k1 /\ after 1 (Seeker.pc k1) = true) as (k1 & Hr1 & Ha).
  { assert ((s_stoppers k = 1%nat /\ Seeker.pc k = SkSig) \/ after 1 (Seeker.pc k) = true) as [[Hs Hk]|Ha].
    - destruct Hp as [-> | ->]; simpl in Hn; [|right; by rewrite Hn].
      destruct Hn as [(? & ? & ?)|[(? & ? & ?)|(? & ? & Ho)]]; [by left|by right|right; by rewrite Ho].
    - eexists. split; [apply rtc_once; by eapply sk_sig|done].
    - by exists k. }
  assert (Seeker.inv k1) as Hi1 by (revert Hi Hr1; apply rtc_invariant, seeker_own_ok_inv).
  destruct (cleanup_ends k1 Hi1 Ha) as (k2 & Hr2 & Hp2).
  assert (Seeker.inv k2) as Hi2 by (revert Hi1 Hr2; apply rtc_invariant, seeker_own_ok_inv).
  destruct (callers_return k2 Hi2 Hp2) as (k3 & Hr3 & H3). exists k3. split; [|done].
  by repeat (etransitivity; [eassumption|]).
Qed.

Lemma node_ends s :
  cinv s -> wt s = WtOver ->
  exists k d, rtc crawl_own_ok s (nset s NdOver k d) /\ Seeker.pc k = Over /\ ev k = EvEnd.
Proof.
  intros Hc Hw. destruct (node_stops s Hc Hw) as (p & k & d & Hr & Hp). set (s1 := nset s p k d) in *.
  assert (cinv s1) as Hc1 by by eapply rtc_own_inv.
  destruct (seeker_finishes p k (cv_sk _ Hc1) (cv_seeker _ Hc1) Hp) as (k' & Hr' & Hk & Hst & Hwt & He).
  assert (ds_stopped s1 = true) as Hd by by rewrite (cv_stopped _ Hc1), (Hw : wt s1 = _).
  exists k', d. split; [|done]. etransitivity; [exact Hr|]. etransitivity; [apply (lift_sk s1 k' Hd Hr')|].
  destruct Hp as [-> | ->]; [|apply rtc_refl]. apply rtc_once. by apply (cw_stopped (nset s1 NdInStop k' d)).
Qed.

(** The seeker is made before the context is looked at. *)
Lemma node_begins s : cinv s -> exists s', rtc crawl_own_ok s s' /\ wt s' <> WtOff /\ ctx_done s' = ctx_done s.
Proof.
  intros Hc. destruct (decide (wt s = WtOff)) as [Hw|Hw]; [|by exists s].
  apply (cv_off _ Hc) in Hw. pose proof (cw_start s Hw) as Hs.
  destruct (start_node_inv s Hc Hw) as (s' & Heq & _). rewrite Heq in Hs. exists s'. split; [by apply rtc_once|].
  unfold start_node in Heq. destruct (seeker_Start nthreads (sk s)); [|done]. by injection Heq as <-.
Qed.


(** [Wait] does not wait for that: the counter is only that of the goroutine
    that stops the iterator. *)
Lemma Wait_returns_early :
  exists s0 s, Crawl ⇓ s0 /\ rtc crawl_all_ok s0 s /\ c_wg s = 0 /\ nd s = NdNext /\ lp s = LpStart.
Proof.
  destruct Crawl_inv as (s0 & H0 & Hc). exists s0.
  set (s1 := mkCrawl true (c_wg s0) (nd s0) (wt s0) (lp s0) (ds_stopped s0) (ds_closed s0) (sk s0) (lr s0) (data s0)).
  assert (crawl_all_ok s0 s1) as Hs1 by apply cw_cancel.
  assert (nd s1 = NdStart /\ lp s1 = LpStart) as [Hn Hl] by (by injection H0 as <-).
  assert (cinv s1) as Hc1 by by eapply crawl_all_ok_inv.
  destruct (start_node_inv s1 Hc1 Hn) as (s2 & Heq & Hc2). pose proof (cw_start s1 Hn) as Hs2. rewrite Heq in Hs2.
  assert (nd s2 = NdNext /\ lp s2 = LpStart /\ wt s2 = WtWait /\ ctx_done s2 = true) as (Hn2 & Hl2 & Hw2 & Hx2).
  { unfold start_node in Heq. destruct (seeker_Start nthreads (sk s1)); [|done]. by injection Heq as <-. }
  exists (watched s2). split_and!; [done| |done|done|done].
  eapply rtc_l; [exact Hs1|]. apply (rtc_subrel crawl_own_ok); [intros x y H; by apply cw_own|].
  eapply rtc_l; [exact Hs2|]. apply watch_ends; congruence || done.
Qed.

End Crawl.

(** ** A concrete run: the context ends while a node is on its way *)

Module Demo.

Import Crawler.Demo.

Definition seeking (r : runner) : seeker := mkSeeker true SkSig EvSelect 1 false false false 0 0 true r.
Definition found : crawler := Crawl_node url names (node 1) NewCrawler.
Definition at_tick : crawler := ticked (1689076800 * Second) found.

Definition at_work (p : node_pc) (r : runner) (d : crawler) : crawl :=
  mkCrawl false 1 p WtWait LpStart false false (seeking r) newRunner d.
Definition adding_all : runner := mkRunner 1 (Adding 8) false false false 0 0 0 0.
Definition one_waits : runner := mkRunner 1 (Adding 7) false false false 0 1 0 0.
Definition one_works : runner := mkRunner 2 (Adding 7) false false false 0 0 1 0.

(** A node was handled, the loop pushes its peer, and the context ends. *)
Definition at_loop (ctx : bool) (d : crawler) : crawl :=
  mkCrawl ctx 1 NdNext WtWait LpRun false false (seeking one_works) adding_all d.

Definition crawl0 : crawl := mkCrawl false 1 NdStart WtOff LpStart false false (NewSeeker true) newRunner NewCrawler.

Lemma crawl_reachable : rtc (crawl_all_ok url names) crawl0 (at_loop true at_tick).
Proof.
  eapply (rtc_l _ _ (at_work NdNext adding_all NewCrawler)); [exact (cw_own url names crawl0 _ (cw_start url names crawl0 eq_refl))|].
  set (s1 := at_work NdNext adding_all NewCrawler).
  eapply (rtc_l _ _ (at_work NdNext one_waits NewCrawler)).
  { exact (cw_own url names s1 _ (cw_seeker url names s1 _ (sk_runner (seeking adding_all) _ (rn_add adding_all 7 eq_refl)))). }
  set (s2 := at_work NdNext one_waits NewCrawler).
  eapply (rtc_l _ _ (at_work NdNext one_works NewCrawler)).
  { exact (cw_own url names s2 _ (cw_seeker url names s2 _ (sk_runner (seeking one_waits) _ (rn_begin one_waits 0 eq_refl)))). }
  eapply (rtc_l _ _ (at_work (NdGot (Some (node 1))) one_works NewCrawler)).
  { by apply (cw_node url names (at_work NdNext one_works NewCrawler) (node 1)). }
  set (s3 := at_work (NdGot (Some (node 1))) one_works NewCrawler).
  eapply (rtc_l _ _ (at_work (NdHandle (node 1)) one_works NewCrawler)).
  { exact (cw_own url names s3 _ (cw_check url names s3 _ eq_refl)). }
  set (s4 := at_work (NdHandle (node 1)) one_works NewCrawler).
  eapply (rtc_l _ _ (at_work NdNext one_works found)).
  { exact (cw_own url names s4 _ (cw_handle url names s4 _ eq_refl)). }
  set (s5 := at_work NdNext one_works found).
  eapply (rtc_l _ _ (at_loop false found)); [exact (cw_own url names s5 _ (cw_loop url names s5 eq_refl))|].
  eapply (rtc_l _ _ (at_loop false at_tick)).
  { exact (cw_tick url names (at_loop false found) (1689076800 * Second) eq_refl eq_refl). }
  eapply rtc_l; [exact (cw_cancel url names (at_loop false at_tick))|apply rtc_refl].
Qed.



End Demo.
