(* ===== verification/Contexts.v ===== *)
(** * crawler/net/discovery/handler.go, ctx.go: the pool of contexts

    Each call of the packet handler takes a context from a [sync.Pool], writes
    the address of its peer and the functions into it, hands it to the sub
    handler and puts it back.  Contexts are pointers that later calls use
    again, so this file models the store they are in and the calls that run
    beside each other.  PacketHandler.v passes each call its address; here it
    is proved that this is what the call reads. *)

From stdpp Require Import base list relations.
From Stdlib Require Import ZArith Lia.
From S2P Require Import Prelude Golang.
Local Open Scope outcome_scope.

Section Contexts.
Context {addr : Type}.

(** [ctx]: [ip] is nil in a new one, and [send] and [match], which are always
    set together, are nil too. *)
Record ctx := mkCtx { ip : option addr; funcs : bool }.

Definition new_ctx : ctx := mkCtx None false.

(** A call has its context, has written [ip], and then the functions, or it
    has returned. *)
Inductive call_pc : Set := Got | Addressed | Ready | Returned.

Record call := mkCall { address : addr; ptr : nat; c_pc : call_pc }.

(** [store] has every context that was made, [free] those in the pool;
    [reads] are the addresses the calls read, with the index of the call. *)
Record ctxPool := mkPool { store : list ctx; free : list nat; calls : list call; reads : list (nat * addr) }.

Definition empty_pool : ctxPool := mkPool [] [] [] [].

(** [Get] of a pool makes a context or takes any it has; the pool may also
    drop one at any time. *)
Definition Get_new (a : addr) (p : ctxPool) : ctxPool :=
  mkPool (store p ++ [new_ctx]) (free p) (calls p ++ [mkCall a (length (store p)) Got]) (reads p).
Definition Get_free (a : addr) (f1 : list nat) (k : nat) (f2 : list nat) (p : ctxPool) : ctxPool :=
  mkPool (store p) (f1 ++ f2) (calls p ++ [mkCall a k Got]) (reads p).

Definition set_call (i : nat) (c : call) (pc : call_pc) (p : ctxPool) : ctxPool :=
  mkPool (store p) (free p) (<[i := mkCall (address c) (ptr c) pc]> (calls p)) (reads p).
Definition set_store (k : nat) (x : ctx) (p : ctxPool) : ctxPool :=
  mkPool (<[k := x]> (store p)) (free p) (calls p) (reads p).

(** The assignments of [getCtx]. *)
Definition set_ip (i : nat) (c : call) (p : ctxPool) : outcome ctxPool :=
  match store p !! ptr c with
  | None => Panic NilDereference
  | Some x => Ok (set_call i c Addressed (set_store (ptr c) (mkCtx (Some (address c)) (funcs x)) p))
  end.
Definition set_funcs (i : nat) (c : call) (p : ctxPool) : outcome ctxPool :=
  match store p !! ptr c with
  | None => Panic NilDereference
  | Some x => Ok (set_call i c Ready (set_store (ptr c) (mkCtx (ip x) true) p))
  end.

(** The sub handler uses its context: [Address().( *net.UDPAddr)] of an
    address that is nil panics, and so does a call of a nil function. *)
Definition use_ctx (i : nat) (c : call) (p : ctxPool) : outcome ctxPool :=
  match store p !! ptr c with
  | None => Panic NilDereference
  | Some x =>
      match ip x with
      | None => Panic InterfaceConversion
      | Some a => if funcs x then Ok (mkPool (store p) (free p) (calls p) (reads p ++ [(i, a)])) else Panic NilDereference
      end
  end.

(** The deferred [Put]. *)
Definition Put (i : nat) (c : call) (p : ctxPool) : ctxPool :=
  mkPool (store p) (ptr c :: free p) (calls (set_call i c Returned p)) (reads p).

Inductive ctx_step (p : ctxPool) : outcome ctxPool -> Prop :=
| cx_new a : ctx_step p (Ok (Get_new a p))
| cx_get a f1 k f2 : free p = f1 ++ k :: f2 -> ctx_step p (Ok (Get_free a f1 k f2 p))
| cx_drop f1 k f2 : free p = f1 ++ k :: f2 -> ctx_step p (Ok (mkPool (store p) (f1 ++ f2) (calls p) (reads p)))
| cx_ip i c : calls p !! i = Some c -> c_pc c = Got -> ctx_step p (set_ip i c p)
| cx_funcs i c : calls p !! i = Some c -> c_pc c = Addressed -> ctx_step p (set_funcs i c p)
| cx_use i c : calls p !! i = Some c -> c_pc c = Ready -> ctx_step p (use_ctx i c p)
| cx_put i c : calls p !! i = Some c -> c_pc c = Ready -> ctx_step p (Ok (Put i c p)).

Definition ctx_ok (p p' : ctxPool) : Prop := ctx_step p (Ok p').

(** ** The invariant *)

Definition active (c : call) : bool := match c_pc c with Returned => false | _ => true end.

(** The contexts somebody holds: the pool's and those of calls that run. *)
Definition held (p : ctxPool) : list nat := free p ++ omap (fun c => if active c then Some (ptr c) else None) (calls p).

(** What a call has written is in its context. *)
Definition written (s : list ctx) (c : call) : Prop :=
  match c_pc c with
  | Got | Returned => True
  | Addressed => exists x, s !! ptr c = Some x /\ ip x = Some (address c)
  | Ready => s !! ptr c = Some (mkCtx (Some (address c)) true)
  end.

Record ctx_inv (p : ctxPool) : Prop := {
  cx_once : NoDup (held p);
  cx_made : Forall (fun k => (k < length (store p))%nat) (held p);
  cx_written : Forall (written (store p)) (calls p);
  cx_reads : Forall (fun r => address <$> calls p !! r.1 = Some r.2) (reads p) }.

Lemma active_held p i c : calls p !! i = Some c -> active c = true -> ptr c ∈ held p.
Proof.
  intros Hi Ha. apply elem_of_app. right. apply list_elem_of_omap. exists c.
  split; [by eapply list_elem_of_lookup_2|]. by rewrite Ha.
Qed.

(** Two running calls have different contexts. *)
Lemma active_distinct p i j c d :
  NoDup (held p) -> calls p !! i = Some c -> calls p !! j = Some d -> active c = true -> active d = true ->
  ptr c = ptr d -> i = j.
Proof.
  intros Hnd Hi Hj Hc Hd Hp. apply NoDup_app in Hnd as (_ & _ & Hnd).
  destruct (decide (i = j)) as [|Hne]; [done|exfalso].
  destruct (omap_split (fun c => if active c then Some (ptr c) else None) (calls p) i c Hi) as (l1 & l2 & Ho & Hy).
  rewrite Ho, Hc in Hnd. simpl in Hnd. apply NoDup_app in Hnd as (_ & Hn1 & [Hn2 _]%NoDup_cons).
  specialize (Hy (mkCall (address c) (ptr c) Returned)). simpl in Hy.
  assert (ptr d ∈ l1 ++ l2) as Hin.
  { rewrite <- Hy. apply list_elem_of_omap. exists d. split; [|by rewrite Hd].
    apply (list_elem_of_lookup_2 _ j). by rewrite list_lookup_insert_ne. }
  rewrite <- Hp in Hin. apply elem_of_app in Hin as [Hin|Hin]; [|done]. apply (Hn1 _ Hin). by left.
Qed.

Lemma held_set_call p i c pc :
  calls p !! i = Some c -> active (mkCall (address c) (ptr c) pc) = active c -> held (set_call i c pc p) = held p.
Proof.
  intros Hi Ha. unfold held. simpl.
  destruct (omap_split (fun c => if active c then Some (ptr c) else None) (calls p) i c Hi) as (l1 & l2 & Ho & Hy).
  by rewrite Hy, Ho, Ha.
Qed.

Lemma held_put p i c : calls p !! i = Some c -> c_pc c = Ready -> Permutation (held (Put i c p)) (held p).
Proof.
  intros Hi Hc. unfold held. simpl.
  destruct (omap_split (fun c => if active c then Some (ptr c) else None) (calls p) i c Hi) as (l1 & l2 & Ho & Hy).
  rewrite Hy, Ho. unfold active. rewrite Hc. simpl. solve_Permutation.
Qed.

Lemma reads_grow (p : ctxPool) (cs : list call) :
  (forall i c, calls p !! i = Some c -> address <$> cs !! i = Some (address c)) ->
  Forall (fun r => address <$> calls p !! r.1 = Some r.2) (reads p) ->
  Forall (fun r => address <$> cs !! r.1 = Some r.2) (reads p).
Proof.
  intros H H0. eapply Forall_impl; [exact H0|]. intros [i a] Hr. simpl in *.
  destruct (calls p !! i) as [c|] eqn:Hc; [|done]. rewrite (H i c Hc). exact Hr.
Qed.

Lemma addresses_kept p i c pc :
  calls p !! i = Some c ->
  forall j d, calls p !! j = Some d -> address <$> calls (set_call i c pc p) !! j = Some (address d).
Proof.
  intros Hi j d Hj. simpl. destruct (decide (j = i)) as [->|Hne].
  - rewrite list_lookup_insert_eq by (by eapply lookup_lt_Some). by simplify_eq.
  - rewrite list_lookup_insert_ne by done. by rewrite Hj.
Qed.

(** A call writes to its context and goes on. *)
Lemma write_inv p i c pc x :
  ctx_inv p -> calls p !! i = Some c -> active c = true -> active (mkCall (address c) (ptr c) pc) = true ->
  written (<[ptr c := x]> (store p)) (mkCall (address c) (ptr c) pc) ->
  ctx_inv (set_call i c pc (set_store (ptr c) x p)).
Proof.
  intros [H1 H2 H3 H4] Hi Hc Ha Hw.
  assert (held (set_call i c pc (set_store (ptr c) x p)) = held p) as Hh.
  { apply (held_set_call (set_store (ptr c) x p) i c pc Hi). congruence. }
  constructor.
  - by rewrite Hh.
  - rewrite Hh. simpl. by rewrite length_insert.
  - simpl. apply Forall_lookup. intros j d Hj. destruct (decide (j = i)) as [->|Hne].
    + rewrite list_lookup_insert_eq in Hj by (by eapply lookup_lt_Some). by simplify_eq.
    + rewrite list_lookup_insert_ne in Hj by done. pose proof (Forall_lookup_1 _ _ _ _ H3 Hj) as Hd.
      unfold written in *. destruct (c_pc d) eqn:Ed; try done;
        (rewrite list_lookup_insert_ne; [done|]; intros Hp; apply Hne; symmetry;
         apply (active_distinct p i j c d); try done; unfold active; by rewrite Ed).
  - eapply (reads_grow p); [apply (addresses_kept p i c pc Hi)|exact H4].
Qed.

Lemma ctx_store p i c : ctx_inv p -> calls p !! i = Some c -> active c = true -> is_Some (store p !! ptr c).
Proof.
  intros Hi Hc Ha. apply lookup_lt_is_Some. pose proof (cx_made _ Hi) as H. rewrite List.Forall_forall in H.
  apply H, list_elem_of_In. by eapply active_held.
Qed.

Lemma Put_keeps p i c : ctx_inv p -> calls p !! i = Some c -> c_pc c = Ready -> ctx_inv (Put i c p).
Proof.
  intros [H1 H2 H3 H4] Hi Hc. constructor.
  - by rewrite held_put.
  - by rewrite held_put.
  - simpl. apply Forall_insert; [done|exact I].
  - eapply (reads_grow p); [apply (addresses_kept p i c Returned Hi)|exact H4].
Qed.

Definition held_calls (cs : list call) : list nat := omap (fun c => if active c then Some (ptr c) else None) cs.

(** A new call gets the context [k], of the store [s]. *)
Lemma get_inv p s f a k :
  ctx_inv p -> NoDup (k :: f ++ held_calls (calls p)) ->
  Forall (fun j => (j < length s)%nat) (k :: f ++ held_calls (calls p)) ->
  store p `prefix_of` s -> ctx_inv (mkPool s f (calls p ++ [mkCall a k Got]) (reads p)).
Proof.
  intros [H1 H2 H3 H4] Hn Hf Hs.
  assert (Permutation (held (mkPool s f (calls p ++ [mkCall a k Got]) (reads p))) (k :: f ++ held_calls (calls p))) as Hp.
  { unfold held, held_calls. simpl. rewrite omap_app. simpl. solve_Permutation. }
  constructor; [by rewrite Hp|by rewrite Hp| |]; simpl.
  - apply Forall_app. split; [|by constructor]. eapply Forall_impl; [exact H3|]. intros c.
    unfold written. destruct (c_pc c); try done.
    + intros (x & Hx & ?). exists x. split; [by eapply prefix_lookup_Some|done].
    + intros Hx. by eapply prefix_lookup_Some.
  - eapply (reads_grow p); [|exact H4]. intros i c Hc. by rewrite (lookup_app_l_Some _ _ _ _ Hc).
Qed.

(** ** Every step *)

Lemma ctx_step_inv p o : ctx_inv p -> ctx_step p o -> exists p', o ⇓ p' /\ ctx_inv p'.
Proof.
  intros Hi Hs. pose proof Hi as [H1 H2 H3 H4].
  destruct Hs as [a|a f1 k f2 Hf|f1 k f2 Hf|i c Hc Hp|i c Hc Hp|i c Hc Hp|i c Hc Hp];
    try (assert (active c = true) as Ha by (unfold active; by rewrite Hp);
         destruct (ctx_store p i c Hi Hc Ha) as [x Hx]; pose proof (Forall_lookup_1 _ _ _ _ H3 Hc) as Hw;
         unfold written in Hw; rewrite Hp in Hw).
  - eexists. split; [reflexivity|]. apply get_inv; [done| | |by apply prefix_app_r].
    + apply NoDup_cons. split; [|exact H1]. intros Hin. rewrite List.Forall_forall in H2.
      apply list_elem_of_In, H2 in Hin. lia.
    + rewrite length_app. simpl. constructor; [lia|]. eapply Forall_impl; [exact H2|]. simpl. lia.
  - eexists. split; [reflexivity|].
    assert (Permutation (held p) (k :: (f1 ++ f2) ++ held_calls (calls p))) as Hp
      by (unfold held, held_calls; rewrite Hf; solve_Permutation).
    apply get_inv; [done|by rewrite <- Hp|by rewrite <- Hp|done].
  - eexists. split; [reflexivity|].
    assert (Permutation (held p) (k :: (f1 ++ f2) ++ held_calls (calls p))) as Hp
      by (unfold held, held_calls; rewrite Hf; solve_Permutation).
    rewrite Hp in H1, H2. apply NoDup_cons in H1 as [_ H1]. apply Forall_cons in H2 as [_ H2]. by constructor.
  - unfold set_ip. rewrite Hx. eexists. split; [reflexivity|]. apply write_inv; [done..|].
    unfold written. simpl. eexists. rewrite list_lookup_insert_eq by (by eapply lookup_lt_Some). done.
  - unfold set_funcs. rewrite Hx. eexists. split; [reflexivity|]. apply write_inv; [done..|].
    unfold written. simpl. rewrite list_lookup_insert_eq by (by eapply lookup_lt_Some).
    destruct Hw as (y & Hy & Hip). assert (x = y) as -> by congruence. by rewrite Hip.
  - unfold use_ctx. rewrite Hw. simpl. eexists. split; [reflexivity|].
    constructor; simpl; try done. apply Forall_app. split; [done|]. constructor; [|done]. simpl. by rewrite Hc.
  - eexists. split; [reflexivity|]. by apply Put_keeps.
Qed.

Lemma ctx_ok_inv p p' : ctx_inv p -> ctx_ok p p' -> ctx_inv p'.
Proof. intros Hi Hs. by destruct (ctx_step_inv _ _ Hi Hs) as (x & [= <-] & Hx). Qed.

Lemma ctx_reach_inv p : rtc ctx_ok empty_pool p -> ctx_inv p.
Proof. intros Hr. run_invariant ctx_ok_inv. constructor; simpl; [apply NoDup_nil_2|constructor..]. Qed.

(** C25: in every interleaving of calls that share the pool, none uses a nil
    context, address or function; two calls that run never have the same
    context, and it is not in the pool meanwhile; and whatever calls ran
    before or beside it, the address a call reads is its own. *)
Theorem contexts_private p :
  rtc ctx_ok empty_pool p ->
  (forall w, ~ ctx_step p (Panic w)) /\
  (forall i c, calls p !! i = Some c -> active c = true -> ptr c ∉ free p) /\
  (forall i j c d, calls p !! i = Some c -> calls p !! j = Some d -> active c = true -> active d = true ->
     ptr c = ptr d -> i = j) /\
  (forall i a, (i, a) ∈ reads p -> exists c, calls p !! i = Some c /\ address c = a).
Proof.
  intros Hi%ctx_reach_inv. pose proof Hi as [H1 H2 H3 H4]. split_and!.
  - intros w Hs. by destruct (ctx_step_inv _ _ Hi Hs) as (? & ? & _).
  - intros i c Hc Ha Hin. apply NoDup_app in H1 as (_ & Hd & _). apply (Hd _ Hin).
    apply list_elem_of_omap. exists c. split; [by eapply list_elem_of_lookup_2|by rewrite Ha].
  - intros i j c d Hc Hd Ha Hb. by apply (active_distinct p).
  - intros i a Hin. rewrite List.Forall_forall in H4. apply list_elem_of_In, H4 in Hin. simpl in Hin.
    destruct (calls p !! i) as [c|]; [|done]. injection Hin as <-. by exists c.
Qed.

End Contexts.

(** ** A concrete run: the second call uses the first one's context *)

Module Demo.

Definition reused : ctxPool (addr := Z) :=
  mkPool [mkCtx (Some 2%Z) true] [] [mkCall 1%Z 0 Returned; mkCall 2%Z 0 Ready] [(0%nat, 1%Z); (1%nat, 2%Z)].

Lemma reused_reachable : rtc ctx_ok empty_pool reused.
Proof.
  set (p1 := Get_new 1%Z empty_pool). set (c := mkCall 1%Z 0).
  eapply (rtc_l _ _ p1); [apply cx_new|].
  set (p pc ip fs fr rd := mkPool [mkCtx ip fs] fr [c pc] rd).
  eapply (rtc_l _ _ (p Addressed (Some 1%Z) false [] [])); [exact (cx_ip p1 0 (c Got) eq_refl eq_refl)|].
  eapply (rtc_l _ _ (p Ready (Some 1%Z) true [] [])); [exact (cx_funcs (p Addressed (Some 1%Z) false [] []) 0 (c Addressed) eq_refl eq_refl)|].
  eapply (rtc_l _ _ (p Ready (Some 1%Z) true [] [(0%nat, 1%Z)])); [exact (cx_use (p Ready (Some 1%Z) true [] []) 0 (c Ready) eq_refl eq_refl)|].
  set (p4 := p Returned (Some 1%Z) true [0%nat] [(0%nat, 1%Z)]).
  eapply (rtc_l _ _ p4); [exact (cx_put (p Ready (Some 1%Z) true [] [(0%nat, 1%Z)]) 0 (c Ready) eq_refl eq_refl)|].
  set (d := mkCall 2%Z 0). set (q pc ip rd := mkPool [mkCtx (Some ip) true] [] [c Returned; d pc] ((0%nat, 1%Z) :: rd)).
  eapply (rtc_l _ _ (q Got 1%Z [])); [exact (cx_get p4 2%Z [] 0 [] eq_refl)|].
  eapply (rtc_l _ _ (q Addressed 2%Z [])); [exact (cx_ip (q Got 1%Z []) 1 (d Got) eq_refl eq_refl)|].
  eapply (rtc_l _ _ (q Ready 2%Z [])); [exact (cx_funcs (q Addressed 2%Z []) 1 (d Addressed) eq_refl eq_refl)|].
  eapply (rtc_l _ _ reused); [exact (cx_use (q Ready 2%Z []) 1 (d Ready) eq_refl eq_refl)|apply rtc_refl].
Qed.

Lemma contexts_private_witness :
  (1%nat, 2%Z) ∈ reads reused /\ exists c, calls reused !! 1%nat = Some c /\ address c = 2%Z.
Proof.
  assert ((1%nat, 2%Z) ∈ reads reused) as Hin by (right; left).
  split; [exact Hin|]. destruct (contexts_private reused reused_reachable) as (_ & _ & _ & H). exact (H _ _ Hin).
Defined.

End Demo.
