(* ===== verification/Delivery.v ===== *)
(** * crawler/net/discovery/listener.go and acceptor.go: the way of a datagram

    The listener reads every datagram into one buffer; [Accept] of the pool
    copies it and hands the copy to a worker, which calls the handler.  This
    file puts the listener's goroutine and the pool's workers beside each
    other, with the buffers in a store they share.  What a worker does with
    its packet is left open: it returns, it waits for the reply to a request
    of its own, as the handling of a ping does, or it delivers a reply to a
    worker that waits. *)

From stdpp Require Import base list relations.
From Stdlib Require Import ZArith Lia.
From S2P Require Import Prelude Golang Acceptor.

Section Delivery.
Context {addr : Type}.

(** [acceptorJob]: the slice is a buffer of the store; [j_index] numbers the
    datagrams in the order they were read. *)
Record job := mkJob { j_index : nat; j_from : addr; j_ptr : nat }.

(** A worker is at its select, calls [HandlePacket], has read the packet, is
    waiting in [Await], or has returned from [listen]. *)
Inductive worker_pc : Type := WkIdle | WkHandle (j : job) | WkDecoded (j : job) | WkAwait (j : job) | WkExited.

(** The listener reads, is in [Accept] with the first [n] bytes of its
    buffer, is in [send], or has returned. *)
Inductive listener_pc : Type := LsRead | LsAccept (i : nat) (from : addr) (n : nat) | LsSend (j : job) | LsOver.

(** The buffer of the listener is the first of the [store].  [received],
    [refused], [dropped] and [handled] are what became of the datagrams. *)
Record delivery := mkDelivery {
  store : list (list Z); ls : listener_pc; workers : list worker_pc; nworkers : nat; started : bool; chDone : bool;
  received : list (addr * list Z); refused : list nat; dropped : list nat; handled : list (nat * (addr * list Z)) }.

Definition new_delivery (n : nat) : delivery :=
  mkDelivery [replicate maxPacketSize 0%Z] LsRead [] n false false [] [] [] [].

Definition set_ls (l : listener_pc) (s : delivery) : delivery :=
  mkDelivery (store s) l (workers s) (nworkers s) (started s) (chDone s) (received s) (refused s) (dropped s) (handled s).
Definition set_worker (w : nat) (p : worker_pc) (s : delivery) : delivery :=
  mkDelivery (store s) (ls s) (<[w := p]> (workers s)) (nworkers s) (started s) (chDone s) (received s) (refused s)
    (dropped s) (handled s).

(** What [ReadFromUDP] leaves in a buffer: the datagram, cut to its size. *)
Definition read_into (buf d : list Z) : list Z := take (length buf) d ++ drop (length d) buf.

Definition on_read (from : addr) (d : list Z) (buf : list Z) (s : delivery) : delivery :=
  let n := Nat.min (length d) (length buf) in
  mkDelivery (<[0%nat := read_into buf d]> (store s)) (LsAccept (length (received s)) from n) (workers s) (nworkers s)
    (started s) (chDone s) (received s ++ [(from, take (length buf) d)]) (refused s) (dropped s) (handled s).

(** [once.Do(a.start)]. *)
Definition start_once (s : delivery) : delivery :=
  if started s then s
  else mkDelivery (store s) (ls s) (replicate (nworkers s) WkIdle) (nworkers s) true (chDone s) (received s) (refused s)
         (dropped s) (handled s).

(** [Accept] of a packet the limiter lets pass: a copy, and [send]. *)
Definition accept (i : nat) (from : addr) (n : nat) (buf : list Z) (s : delivery) : delivery :=
  let s := start_once s in
  mkDelivery (store s ++ [take n buf]) (LsSend (mkJob i from (length (store s)))) (workers s) (nworkers s) (started s)
    (chDone s) (received s) (refused s) (dropped s) (handled s).

Definition refuse (i : nat) (s : delivery) : delivery :=
  let s := start_once s in
  mkDelivery (store s) LsRead (workers s) (nworkers s) (started s) (chDone s) (received s) (i :: refused s) (dropped s) (handled s).

Definition drop_job (j : job) (s : delivery) : delivery :=
  mkDelivery (store s) LsRead (workers s) (nworkers s) (started s) (chDone s) (received s) (refused s)
    (j_index j :: dropped s) (handled s).

(** The worker's handler reads the packet. *)
Definition decode (w : nat) (j : job) (d : list Z) (s : delivery) : delivery :=
  mkDelivery (store s) (ls s) (<[w := WkDecoded j]> (workers s)) (nworkers s) (started s) (chDone s) (received s) (refused s)
    (dropped s) (handled s ++ [(j_index j, (j_from j, d))]).

Inductive delivery_step (s : delivery) : delivery -> Prop :=
| dl_read from d buf : ls s = LsRead -> store s !! 0%nat = Some buf -> delivery_step s (on_read from d buf s)
| dl_end : ls s = LsRead -> delivery_step s (set_ls LsOver s)
| dl_accept i from n buf : ls s = LsAccept i from n -> store s !! 0%nat = Some buf -> delivery_step s (accept i from n buf s)
| dl_refuse i from n : ls s = LsAccept i from n -> delivery_step s (refuse i s)
| dl_send w j : ls s = LsSend j -> workers s !! w = Some WkIdle ->
    delivery_step s (set_ls LsRead (set_worker w (WkHandle j) s))
| dl_drop j : ls s = LsSend j -> chDone s = true -> delivery_step s (drop_job j s)
| dl_stop : started s = true ->
    delivery_step s (mkDelivery (store s) (ls s) (workers s) (nworkers s) true true (received s) (refused s) (dropped s) (handled s))
| dl_exit w : chDone s = true -> workers s !! w = Some WkIdle -> delivery_step s (set_worker w WkExited s)
| dl_decode w j d : workers s !! w = Some (WkHandle j) -> store s !! j_ptr j = Some d -> delivery_step s (decode w j d s)
| dl_return w j : workers s !! w = Some (WkDecoded j) -> delivery_step s (set_worker w WkIdle s)
| dl_ask w j : workers s !! w = Some (WkDecoded j) -> delivery_step s (set_worker w (WkAwait j) s)
| dl_reply w j w' j' : workers s !! w = Some (WkDecoded j) -> workers s !! w' = Some (WkAwait j') ->
    delivery_step s (set_worker w' (WkDecoded j') s).

(** The awaiter's deadline for the request of a worker that waits. *)
Inductive expiry_step (s : delivery) : delivery -> Prop :=
| dl_expire w j : workers s !! w = Some (WkAwait j) -> expiry_step s (set_worker w (WkDecoded j) s).

Definition delivery_any (s s' : delivery) : Prop := delivery_step s s' \/ expiry_step s s'.

(** ** The invariant *)

Definition held (w : worker_pc) : option job := match w with WkHandle j => Some j | _ => None end.
Definition ls_job (l : listener_pc) : list job := match l with LsSend j => [j] | _ => [] end.
Definition ls_index (l : listener_pc) : list nat :=
  match l with LsAccept i _ _ => [i] | LsSend j => [j_index j] | _ => [] end.

(** Where each datagram is. *)
Definition jobs (s : delivery) : list job := ls_job (ls s) ++ omap held (workers s).
Definition places (s : delivery) : list nat :=
  ls_index (ls s) ++ map j_index (omap held (workers s)) ++ (handled s).*1 ++ refused s ++ dropped s.

(** A job's slice is not the listener's buffer, and holds the datagram. *)
Definition job_ok (st : list (list Z)) (rc : list (addr * list Z)) (j : job) : Prop :=
  j_ptr j <> 0%nat /\ exists d, st !! j_ptr j = Some d /\ rc !! j_index j = Some (j_from j, d).

Definition buffer_ok (st : list (list Z)) (rc : list (addr * list Z)) (l : listener_pc) : Prop :=
  exists buf, st !! 0%nat = Some buf /\ length buf = maxPacketSize /\
    match l with LsAccept i from n => rc !! i = Some (from, take n buf) | _ => True end.

Record delivery_inv (s : delivery) : Prop := {
  di_buffer : buffer_ok (store s) (received s) (ls s);
  di_jobs : Forall (job_ok (store s) (received s)) (jobs s);
  di_handled : Forall (fun h => received s !! h.1 = Some h.2) (handled s);
  di_places : Permutation (places s) (seq 0 (length (received s)));
  di_start : started s = false -> workers s = [] }.

(** ** Lemmas *)

Lemma take_read_into (buf d : list Z) :
  take (Nat.min (length d) (length buf)) (read_into buf d) = take (length buf) d.
Proof.
  unfold read_into. apply take_app_length'. rewrite length_take. lia.
Qed.

Lemma length_read_into (buf d : list Z) : length (read_into buf d) = length buf.
Proof. unfold read_into. rewrite length_app, length_take, length_drop. lia. Qed.

Lemma job_ok_read st rc r buf j : job_ok st rc j -> job_ok (<[0%nat := buf]> st) (rc ++ r) j.
Proof.
  intros (Hp & d & Hd & Hr). split; [done|]. exists d. rewrite list_lookup_insert_ne by done.
  split; [done|by apply lookup_app_l_Some].
Qed.

Lemma job_ok_alloc st rc b j : job_ok st rc j -> job_ok (st ++ [b]) rc j.
Proof. intros (Hp & d & Hd & Hr). split; [done|]. exists d. split; [by apply lookup_app_l_Some|done]. Qed.

(** A change of the workers that leaves what they hold. *)
Lemma worker_inv w p q s :
  delivery_inv s -> workers s !! w = Some p -> held p = None -> held q = None -> delivery_inv (set_worker w q s).
Proof.
  intros [H1 H2 H3 H4 H5] Hw Hp Hq.
  destruct (omap_split held (workers s) w p Hw) as (l1 & l2 & Ho & Hy).
  assert (omap held (<[w := q]> (workers s)) = omap held (workers s)) as He by (by rewrite Hy, Ho, Hp, Hq).
  constructor; unfold jobs, places in *; simpl; rewrite ?He; try done.
  intros Hs. by rewrite (H5 Hs) in Hw.
Qed.

Lemma start_once_inv s : delivery_inv s -> delivery_inv (start_once s).
Proof.
  intros Hi. unfold start_once. destruct (started s) eqn:Hs; [done|]. destruct Hi as [H1 H2 H3 H4 H5].
  assert (omap held (replicate (nworkers s) WkIdle) = []) as He by (induction (nworkers s); by simpl).
  constructor; unfold jobs, places in *; simpl; rewrite ?He; rewrite ?(H5 Hs) in *; done.
Qed.

Lemma start_once_same s : ls (start_once s) = ls s /\ store (start_once s) = store s /\ received (start_once s) = received s.
Proof. unfold start_once. by destruct (started s). Qed.

Lemma read_inv from d buf s :
  delivery_inv s -> ls s = LsRead -> store s !! 0%nat = Some buf -> delivery_inv (on_read from d buf s).
Proof.
  intros [H1 H2 H3 H4 H5] Hl Hb. unfold jobs, places in *. rewrite Hl in *. simpl in *. constructor; simpl; [..|done].
  - destruct H1 as (b & Hb' & Hlen & _). assert (b = buf) as -> by congruence.
    exists (read_into buf d). rewrite list_lookup_insert_eq by (by eapply lookup_lt_Some).
    rewrite length_read_into, take_read_into, lookup_app_r, Nat.sub_diag by lia. done.
  - eapply Forall_impl; [exact H2|]. intros j. apply job_ok_read.
  - eapply Forall_impl; [exact H3|]. intros [i x] Hx. by apply lookup_app_l_Some.
  - unfold places. simpl. rewrite length_app. simpl. rewrite Nat.add_1_r, seq_S, H4. simpl.
    by rewrite Permutation_cons_append.
Qed.

Lemma accept_inv i from n buf s :
  delivery_inv s -> ls s = LsAccept i from n -> store s !! 0%nat = Some buf -> delivery_inv (accept i from n buf s).
Proof.
  intros Hi Hl Hb. destruct (start_once_same s) as (E1 & E2 & E3). apply start_once_inv in Hi.
  unfold accept. set (t := start_once s) in *. rewrite <- E1 in Hl. rewrite <- E2 in Hb. clearbody t. clear E1 E2 E3 s.
  destruct Hi as [H1 H2 H3 H4 H5]. unfold jobs, places in *. rewrite Hl in *. simpl in *.
  destruct H1 as (b & Hb' & Hlen & Hr). assert (b = buf) as -> by congruence.
  constructor; simpl; [| |done|exact H4|done].
  - exists buf. split_and!; [by apply lookup_app_l_Some|done|done].
  - unfold jobs. simpl. constructor.
    + split; simpl; [|exists (take n buf); split; [by rewrite lookup_app_r, Nat.sub_diag by lia|done]].
      apply lookup_lt_Some in Hb. lia.
    + eapply Forall_impl; [exact H2|]. intros j. apply job_ok_alloc.
Qed.

Lemma refuse_inv i from n s : delivery_inv s -> ls s = LsAccept i from n -> delivery_inv (refuse i s).
Proof.
  intros Hi Hl. destruct (start_once_same s) as (E1 & _). apply start_once_inv in Hi.
  unfold refuse. set (t := start_once s) in *. rewrite <- E1 in Hl. clearbody t. clear E1 s.
  destruct Hi as [H1 H2 H3 H4 H5]. unfold jobs, places in *. rewrite Hl in *. simpl in *.
  constructor; simpl; try done.
  - destruct H1 as (b & ? & ? & _). by exists b.
  - unfold places. simpl. rewrite <- H4. solve_Permutation.
Qed.

Lemma send_job_inv w j s :
  delivery_inv s -> ls s = LsSend j -> workers s !! w = Some WkIdle ->
  delivery_inv (set_ls LsRead (set_worker w (WkHandle j) s)).
Proof.
  intros [H1 H2 H3 H4 H5] Hl Hw. unfold jobs, places in *. rewrite Hl in *. simpl in *.
  destruct (omap_split held (workers s) w _ Hw) as (l1 & l2 & Ho & Hy). simpl in Ho.
  constructor; simpl; try done.
  - unfold jobs. simpl. rewrite Hy. rewrite Ho in H2. simpl. revert H2. rewrite Forall_cons, !Forall_app, Forall_cons. tauto.
  - unfold places. simpl. rewrite Hy. rewrite Ho in H4. rewrite <- H4. simpl. rewrite !map_app. simpl. solve_Permutation.
  - intros Hs. by rewrite (H5 Hs) in Hw.
Qed.

Lemma drop_inv j s : delivery_inv s -> ls s = LsSend j -> delivery_inv (drop_job j s).
Proof.
  intros [H1 H2 H3 H4 H5] Hl. unfold jobs, places in *. rewrite Hl in *. simpl in *. constructor; simpl; try done.
  - unfold jobs. simpl. by apply Forall_cons in H2 as [_ H2].
  - unfold places. simpl. rewrite <- H4. solve_Permutation.
Qed.

Lemma decode_inv w j d s :
  delivery_inv s -> workers s !! w = Some (WkHandle j) -> store s !! j_ptr j = Some d -> delivery_inv (decode w j d s).
Proof.
  intros [H1 H2 H3 H4 H5] Hw Hd. unfold jobs, places in *.
  destruct (omap_split held (workers s) w _ Hw) as (l1 & l2 & Ho & Hy). simpl in Ho. rewrite Ho in H2, H4.
  assert (received s !! j_index j = Some (j_from j, d)) as Hr.
  { rewrite !Forall_app in H2. destruct H2 as (_ & _ & (Hj & _)%Forall_cons).
    destruct Hj as (_ & d' & Hd' & Hr). by assert (d' = d) as -> by congruence. }
  constructor; simpl; try done.
  - unfold jobs. simpl. rewrite Hy. simpl. revert H2. rewrite !Forall_app, Forall_cons. tauto.
  - apply Forall_app. by split; [|constructor].
  - unfold places. simpl. rewrite Hy, <- H4. simpl. rewrite !map_app. simpl. solve_Permutation.
  - intros Hs. by rewrite (H5 Hs) in Hw.
Qed.

Lemma pool_stop_inv s :
  delivery_inv s -> started s = true ->
  delivery_inv (mkDelivery (store s) (ls s) (workers s) (nworkers s) true true (received s) (refused s) (dropped s) (handled s)).
Proof. intros [H1 H2 H3 H4 H5] Hs. by constructor. Qed.

Lemma end_inv s : delivery_inv s -> ls s = LsRead -> delivery_inv (set_ls LsOver s).
Proof.
  intros [H1 H2 H3 H4 H5] Hl. unfold jobs, places in *. rewrite Hl in *. by constructor.
Qed.

Lemma delivery_step_inv s s' : delivery_inv s -> delivery_step s s' -> delivery_inv s'.
Proof.
  intros Hi [from d buf Hl Hb|Hl|i from n buf Hl Hb|i from n Hl|w j Hl Hw|j Hl Hc|Hs|w Hc Hw|w j d Hw Hd|w j Hw|w j Hw|w j w' j' Hw Hw'].
  - by apply read_inv.
  - by apply end_inv.
  - by apply accept_inv.
  - by eapply refuse_inv.
  - by apply send_job_inv.
  - by apply drop_inv.
  - by apply pool_stop_inv.
  - by eapply worker_inv.
  - by apply decode_inv.
  - by eapply worker_inv.
  - by eapply worker_inv.
  - by eapply worker_inv.
Qed.

Lemma delivery_any_inv s s' : delivery_inv s -> delivery_any s s' -> delivery_inv s'.
Proof. intros Hi [Hs|[w j Hw]]; [by eapply delivery_step_inv|by eapply worker_inv]. Qed.

Lemma new_delivery_inv n : delivery_inv (new_delivery n).
Proof.
  constructor; simpl; [|constructor..|done]. exists (replicate maxPacketSize 0%Z).
  split_and!; [done|by rewrite length_replicate|done].
Qed.

Lemma delivery_reach_inv n s : rtc delivery_any (new_delivery n) s -> delivery_inv s.
Proof. intros Hr. run_invariant delivery_any_inv. apply new_delivery_inv. Qed.

(** The slice of a worker's job. *)
Lemma datagrams_job s w j :
  delivery_inv s -> workers s !! w = Some (WkHandle j) ->
  exists d, store s !! j_ptr j = Some d /\ received s !! j_index j = Some (j_from j, d).
Proof.
  intros [_ H2 _ _ _] Hw. unfold jobs in H2. rewrite Forall_app in H2. destruct H2 as [_ H2].
  rewrite List.Forall_forall in H2. destruct (H2 j) as [_ Hj]; [|done].
  apply list_elem_of_In, list_elem_of_omap. exists (WkHandle j). split; [by eapply list_elem_of_lookup_2|done].
Qed.


(** ** Workers that wait for each other *)

Definition awaiting (p : worker_pc) : Prop := exists j, p = WkAwait j.

(** Every worker waits for a reply. *)
Definition starved (s : delivery) : Prop := started s = true /\ Forall awaiting (workers s).

Lemma starved_lookup s w p : starved s -> workers s !! w = Some p -> awaiting p.
Proof. intros [_ Ha] Hw. by apply (Forall_lookup_1 _ _ _ _ Ha Hw). Qed.

Lemma starved_step s s' :
  starved s -> delivery_step s s' -> starved s' /\ workers s' = workers s /\ handled s' = handled s.
Proof.
  intros Hs Hst. pose proof Hs as [Hstart Ha].
  destruct Hst as [from d buf Hl Hb|Hl|i from n buf Hl Hb|i from n Hl|w j Hl Hw|j Hl Hc|_|w Hc Hw|w j d Hw Hd|w j Hw|w j Hw|w j w' j' Hw Hw'];
    try (destruct (starved_lookup s w _ Hs Hw); discriminate);
    unfold starved, accept, refuse, start_once; rewrite ?Hstart; simpl; by rewrite ?Hstart.
Qed.

Lemma starved_run s s' :
  starved s -> rtc delivery_step s s' -> starved s' /\ workers s' = workers s /\ handled s' = handled s.
Proof.
  intros Hs Hr. revert Hs. induction Hr as [s|s s1 s' Hst Hr IH]; intros Hs; [done|].
  destruct (starved_step s s1 Hs Hst) as (Hs1 & <- & <-). by apply IH.
Qed.

(** A worker that does not wait comes back to its select. *)
Lemma worker_frees s w p :
  delivery_inv s -> workers s !! w = Some p -> ~ awaiting p -> p <> WkExited ->
  exists s', rtc delivery_step s s' /\ workers s' !! w = Some WkIdle /\ ls s' = ls s /\ received s' = received s.
Proof.
  intros Hi Hw Ha He. pose proof Hw as Hlt%lookup_lt_Some.
  assert (forall s1 j, workers s1 !! w = Some (WkDecoded j) ->
    exists s', rtc delivery_step s1 s' /\ workers s' !! w = Some WkIdle /\ ls s' = ls s1 /\ received s' = received s1) as Hd.
  { intros s1 j Hw1. exists (set_worker w WkIdle s1). split_and!; [|by eapply list_lookup_insert_eq, lookup_lt_Some|done..].
    apply rtc_once. by eapply dl_return. }
  destruct p as [|j|j|j|]; [by exists s| |by apply (Hd s j)| |done].
  - destruct (datagrams_job s w j Hi Hw) as (x & Hx & _).
    destruct (Hd (decode w j x s) j) as (s' & Hr & ? & ? & ?); [by apply list_lookup_insert_eq|].
    exists s'. split_and!; [|done..]. eapply rtc_l; [by apply dl_decode|exact Hr].
  - destruct Ha. by exists j.
Qed.

(** a datagram that the listener hands to the pool can be handled without
    waiting for a deadline when one of the workers does not wait for a reply.
    When all of them do, no packet is handled any more until a deadline
    passes, and none of the replies can arrive: a reply, too, is a packet that
    a worker has to handle. *)
Theorem workers_starve n s j :
  rtc delivery_any (new_delivery n) s -> ls s = LsSend j ->
  (forall w p, workers s !! w = Some p -> ~ awaiting p -> p <> WkExited ->
     exists s' x, rtc delivery_step s s' /\ received s !! j_index j = Some x /\ (j_index j, x) ∈ handled s') /\
  (starved s -> forall s', rtc delivery_step s s' -> workers s' = workers s /\ handled s' = handled s).
Proof.
  intros Hi%delivery_reach_inv Hl. split; [|intros Hs s' Hr; by apply starved_run].
  intros w p Hw Ha He. destruct (worker_frees s w p Hi Hw Ha He) as (s1 & Hr1 & Hw1 & Hl1 & Hrc).
  assert (delivery_step s1 (set_ls LsRead (set_worker w (WkHandle j) s1))) as Hs2 by (apply dl_send; [congruence|done]).
  assert (delivery_inv s1) as Hi1.
  { clear -Hi Hr1. induction Hr1 as [|s s' s1 Hst _ IH]; [done|]. by apply IH, (delivery_step_inv s). }
  pose proof (delivery_step_inv _ _ Hi1 Hs2) as Hi2. set (s2 := set_ls _ _) in *.
  assert (workers s2 !! w = Some (WkHandle j)) as Hw2 by (by eapply list_lookup_insert_eq, lookup_lt_Some).
  destruct (datagrams_job s2 w j Hi2 Hw2) as (x & Hx & Hrx).
  exists (decode w j x s2), (j_from j, x). split_and!.
  - etransitivity; [exact Hr1|]. eapply rtc_l; [exact Hs2|]. apply rtc_once. by apply dl_decode.
  - rewrite <- Hrc. exact Hrx.
  - simpl. apply elem_of_app. right. by apply list_elem_of_singleton.
Qed.

(** One datagram, whose worker then waits. *)
Lemma ask_once s w (from : addr) (d : list Z) :
  delivery_inv s -> ls s = LsRead -> workers (start_once s) !! w = Some WkIdle ->
  exists s' j, rtc delivery_step s s' /\ ls s' = LsRead /\ started s' = true /\
    workers s' = <[w := WkAwait j]> (workers (start_once s)) /\ length (handled s') = S (length (handled s)).
Proof.
  intros Hi Hl Hw. destruct (di_buffer _ Hi) as (buf & Hb & _).
  set (s1 := on_read from d buf s). assert (delivery_step s s1) as Hs1 by by apply dl_read.
  assert (delivery_inv s1) as Hi1 by by eapply delivery_step_inv.
  destruct (di_buffer _ Hi1) as (buf1 & Hb1 & _).
  set (s2 := accept (length (received s)) from (Nat.min (length d) (length buf)) buf1 s1).
  assert (delivery_step s1 s2) as Hs2 by by apply dl_accept.
  assert (workers s2 = workers (start_once s)) as Hw2 by (unfold s2, accept, s1, on_read, start_once; simpl; by destruct (started s)).
  assert (handled s2 = handled s) as Hh2 by (unfold s2, accept, s1, on_read, start_once; simpl; by destruct (started s)).
  assert (started s2 = true) as Hst by (unfold s2, accept, start_once; simpl; by destruct (started s) eqn:Hs).
  assert (delivery_inv s2) as Hi2 by by eapply delivery_step_inv.
  assert (exists j, ls s2 = LsSend j) as [j Hj] by by eexists.
  set (s3 := set_ls LsRead (set_worker w (WkHandle j) s2)).
  assert (delivery_step s2 s3) as Hs3 by (apply dl_send; [done|by rewrite Hw2]).
  assert (delivery_inv s3) as Hi3 by by eapply delivery_step_inv.
  pose proof Hw as Hlt%lookup_lt_Some. rewrite <- Hw2 in Hlt.
  assert (workers s3 !! w = Some (WkHandle j)) as Hw3 by by apply list_lookup_insert_eq.
  destruct (datagrams_job s3 w j Hi3 Hw3) as (x & Hx & _).
  set (s4 := decode w j x s3). assert (delivery_step s3 s4) as Hs4 by by apply dl_decode.
  assert (workers s4 = <[w := WkDecoded j]> (workers s2)) as Hw4 by apply list_insert_insert_eq.
  set (s5 := set_worker w (WkAwait j) s4).
  assert (delivery_step s4 s5) as Hs5 by (apply dl_ask; rewrite Hw4; by apply list_lookup_insert_eq).
  exists s5, j. split_and!; [|done|exact Hst| |].
  - do 4 (eapply rtc_l; [eassumption|]). by apply rtc_once.
  - simpl. rewrite !list_insert_insert_eq. by rewrite <- Hw2.
  - assert (handled s5 = handled s2 ++ [(j_index j, (j_from j, x))]) as -> by done.
    rewrite length_app, Hh2. simpl. lia.
Qed.

(** With as many datagrams as workers, each of which makes its worker wait,
    the pool is starved. *)
Lemma starved_reachable n (from : addr) :
  exists s, rtc delivery_any (new_delivery (S n)) s /\ starved s /\ length (handled s) = S n.
Proof.
  assert (forall k, (k <= S n)%nat -> exists s, rtc delivery_any (new_delivery (S n)) s /\ ls s = LsRead /\
    length (handled s) = k /\ (k <> 0%nat -> started s = true) /\ length (workers (start_once s)) = S n /\
    forall i p, workers (start_once s) !! i = Some p -> if decide (i < k)%nat then awaiting p else p = WkIdle) as H.
  { induction k as [|k IH]; intros Hk.
    - exists (new_delivery (S n)). split_and!; [done..|apply length_replicate|].
      intros i p Hp. simpl in Hp. by apply (lookup_replicate_1 (S n)) in Hp as [-> _].
    - destruct IH as (s & Hr & Hl & Hh & _ & Hlen & Hw); [lia|].
      destruct (lookup_lt_is_Some_2 (workers (start_once s)) k) as [p Hp]; [lia|].
      pose proof (Hw k p Hp) as Hpi. rewrite decide_False in Hpi by lia. subst p.
      destruct (ask_once s k from [] (delivery_reach_inv _ _ Hr) Hl Hp) as (s' & j & Hr' & Hl' & Hst & Hws & Hh').
      exists s'. unfold start_once. rewrite Hst, Hws. split_and!; [|done|lia|done|by rewrite length_insert|].
      + etransitivity; [exact Hr|]. revert Hr'. apply rtc_subrel. by left.
      + intros i p Hi. destruct (decide (i = k)) as [->|Hne].
        * rewrite list_lookup_insert_eq in Hi by lia. simplify_eq. rewrite decide_True by lia. by exists j.
        * rewrite list_lookup_insert_ne in Hi by done. apply Hw in Hi. repeat case_decide; done || lia. }
  destruct (H (S n)) as (s & Hr & _ & Hh & Hst & Hlen & Hw); [lia|]. specialize (Hst ltac:(lia)).
  exists s. split_and!; [done| |done]. split; [done|]. apply Forall_lookup. intros i p Hi.
  unfold start_once in Hw, Hlen. rewrite Hst in Hw, Hlen. pose proof (Hw i p Hi) as Hp.
  rewrite decide_True in Hp; [done|]. apply lookup_lt_Some in Hi. lia.
Qed.

End Delivery.

(** ** A concrete run: the buffer is read into again before the worker looks *)

Module Demo.

Definition b0 : list Z := replicate maxPacketSize 0%Z.
Definition b1 : list Z := read_into b0 [1; 2; 3]%Z.
Definition b2 : list Z := read_into b1 [9]%Z.
Definition first : job (addr := Z) := mkJob 0 7%Z 1.

Definition s1 : delivery (addr := Z) := on_read 7%Z [1; 2; 3]%Z b0 (new_delivery 1).
Definition s2 := accept 0 7%Z 3 b1 s1.
Definition s3 := set_ls LsRead (set_worker 0 (WkHandle first) s2).
Definition s4 := on_read 8%Z [9]%Z b1 s3.
Definition s5 := decode 0 first [1; 2; 3]%Z s4.
Definition s6 := set_worker 0 (WkAwait first) s5.
Definition s7 := accept 1 8%Z 1 b2 s6.
(** The pool is stopped: that, too, does not bring the reply. *)
Definition s8 : delivery :=
  mkDelivery (store s7) (ls s7) (workers s7) (nworkers s7) true true (received s7) (refused s7) (dropped s7) (handled s7).

Lemma demo_steps : rtc delivery_any (new_delivery 1) s5.
Proof.
  eapply rtc_l; [left; exact (dl_read (new_delivery 1) 7%Z [1; 2; 3]%Z b0 eq_refl eq_refl)|].
  eapply rtc_l; [left; exact (dl_accept s1 0 7%Z 3 b1 eq_refl eq_refl)|].
  eapply rtc_l; [left; exact (dl_send s2 0 first eq_refl eq_refl)|].
  eapply rtc_l; [left; exact (dl_read s3 8%Z [9]%Z b1 eq_refl eq_refl)|].
  eapply rtc_l; [left; exact (dl_decode s4 0 first [1; 2; 3]%Z eq_refl eq_refl)|apply rtc_refl].
Qed.


Lemma starved_steps : rtc delivery_any (new_delivery 1) s7.
Proof.
  etransitivity; [exact demo_steps|].
  eapply rtc_l; [left; exact (dl_ask s5 0 first eq_refl)|].
  eapply rtc_l; [left; exact (dl_accept s6 1 8%Z 1 b2 eq_refl eq_refl)|apply rtc_refl].
Qed.

Lemma workers_starve_witness : rtc delivery_step s7 s8 /\ handled s8 = handled s7.
Proof.
  assert (rtc delivery_step s7 s8) as Hr by (apply rtc_once; exact (dl_stop s7 eq_refl)).
  split; [exact Hr|].
  assert (starved s7) as Hs by (split; [reflexivity|]; constructor; [by exists first|constructor]).
  exact (proj2 (proj2 (workers_starve 1 s7 _ starved_steps eq_refl) Hs s8 Hr)).
Defined.

End Demo.
