(* ===== verification/CrawlApp.v ===== *)
(** * crawler/cmd/crawler and crawler/app/application.go: the crawl command

    The command reads its flags (Config.v), opens what it needs and builds the
    application of the parts of this library: the throttled writer, the packet
    handler of version 4, the listener with its pool, the querier.  [Run] is
    the wait group of the application's three goroutines, in every
    interleaving. *)

From Stdlib Require Import ZArith Lia.
From stdpp Require Import base list gmap strings relations pretty.
From S2P Require Import Prelude Golang Procs External Instances Nodes NodesFacts.
From S2P Require Import Table TableInv TableSys TableProps Identity Awaiter V4 V4Facts V4Props V4Safe PacketHandler.
From S2P Require Config Transport Writer Delivery Service.
From S2P Require Import Lifecycle.
Local Open Scope Z_scope.
Import Config.Crawler (Cap).

(** ** Version *)

Definition VersionMajor : Z := 0.
Definition VersionMinor : Z := 0.
Definition VersionPatch : Z := 1.
Definition VersionMeta : string := "dev".

Definition Version : string :=
  pretty VersionMajor +:+ "." +:+ pretty VersionMinor +:+ "." +:+ pretty VersionPatch.

Definition VersionWithMeta : string :=
  if decide (VersionMeta = "") then Version else Version +:+ "-" +:+ VersionMeta.

(** ** The command *)

Section CrawlApp.
Context `{EL : EnodeLaws} `{NL : NetUtilLaws} `{DL : NodeDBLaws (E := E)} `{WL : V4WireLaws (E := E)}.
Context `{R : Writer.RateLimiter}.
Context {Store Socket : Type}.

(** The packages the command calls: parsing a node, opening the store, the
    socket and the connection to the broker; the database in memory; and the
    local node with its clock and the randomness of the table. *)
Context (ParseV4 : string -> option enode) (NewStore : string -> string -> option Store)
  (ListenPacket : Z -> option Socket) (Dial : string -> string -> string -> bool) (OpenDB : DB) (Self : enode)
  (now : Z) (qrnd : nat).

Inductive broker : Type := RabbitBroker (b : Service.rabbitBroker) | VoidBroker.

Record AppConfig := mkAppConfig {
  Metrics : bool; Port : Z; Bootnodes : list enode; Conn : Socket; Qurier : Transport.PeerQuierier;
  Keys : list string; c_Store : Store;
  BrokerEnabled : bool; BrokerEndpoint : string; BrokerUser : string; BrokerPassword : string }.

Record Application := mkApplication {
  app_Config : AppConfig;
  app_writer : Writer.writer;
  app_handler : PacketHandler (St := handler);
  app_listener : Delivery.delivery (addr := addr);
  app_broker : broker }.

(** What the command has opened, in order. *)
Inductive resource : Type := OpenedStore | OpenedSocket (port : Z) | OpenedBroker (endpoint : string).

Abbreviation cmd := (proc (list resource)).

Definition opened (r : resource) : cmd () := modify (fun l => l ++ [r])%list.

(** The writer, the handler and the listener of an application; [None] is the
    error of a bad bootstrap node. *)
Definition MakeHandler (boot : list enode) (db : DB)
    : outcome (option (Writer.writer * PacketHandler (St := handler) * Delivery.delivery (addr := addr))) :=
  let writer := Writer.Build (Writer.ThrottlePackets (1 * Second) 8192 (Writer.ThrottleIp (1 * Second) 32 Writer.newWriter)) in
  '(_, handler) ← NewHandler Self DefaultConfig default_limits now qrnd db boot true;
  Ok (option_map (fun h => (writer, h, Delivery.new_delivery 4)) handler).

Definition NewCrawlApp (cfg : AppConfig) : cmd Application :=
  app_broker ←
    (if BrokerEnabled cfg then
       if Dial (BrokerEndpoint cfg) (BrokerUser cfg) (BrokerPassword cfg)
       then opened (OpenedBroker (BrokerEndpoint cfg));; mret (RabbitBroker (Service.NewRabbitBroker (BrokerUser cfg)))
       else crash Raised
     else mret VoidBroker);
  match MakeHandler (Bootnodes cfg) OpenDB with
  | Panic w => crash w
  | Ok None => crash Raised
  | Ok (Some (writer, handler, listener)) => mret (mkApplication cfg writer handler listener app_broker)
  end.

Inductive crawl_error : Set := BadNodes | NoBootnode | BadCaps | BadBroker | BadDb | BadSocket.

(** The command, up to [Run] of the application it makes. *)
Definition runCrawler (ctx : Config.Context) : cmd (crawl_error + Application) :=
  let ids := Config.Crawler.ParseIdentities ctx in
  let metrics := Config.Crawler.ParseMetrics ctx in
  match Config.Crawler.ParseNodes ParseV4 ctx with
  | None => mret (inl BadNodes)
  | Some [] => mret (inl NoBootnode)
  | Some bootnodes =>
  match Config.Crawler.ParseFakeCaps ctx with
  | None => mret (inl BadCaps)
  | Some fakecaps =>
  match Config.Crawler.ParseBroker ctx with
  | None => mret (inl BadBroker)
  | Some creds =>
  match Config.Crawler.ParseDb NewStore ctx with
  | None => mret (inl BadDb)
  | Some store =>
      opened OpenedStore;;
      let port := Config.Crawler.ParseDiscPort ctx in
      match ListenPacket port with
      | None => mret (inl BadSocket)
      | Some socket =>
          opened (OpenedSocket port);;
          let quierier := fold_left (fun q flag => Transport.AddCap (Config.Crawler.cap_Name flag)
                                       (Config.Crawler.cap_Version flag) q) fakecaps Transport.NewPeerQuierier in
          let '(broker_enabled, (broker_username, broker_password, broker_endpoint)) :=
            match creds with Some c => (true, c) | None => (false, ("", "", "")) end in
          app ← NewCrawlApp (mkAppConfig metrics 6061 bootnodes socket quierier ids store
                              broker_enabled broker_endpoint broker_username broker_password);
          mret (inr app)
      end
  end end end end.

(** ** Facts *)

Lemma caps_added caps q :
  Transport.q_caps (fold_left (fun q flag => Transport.AddCap (Config.Crawler.cap_Name flag)
                      (Config.Crawler.cap_Version flag) q) caps q) =
    match caps with [] => Transport.q_caps q | _ => Some (default [] (Transport.q_caps q) ++ caps)%list end.
Proof.
  revert q. induction caps as [|[n v] caps IH]; intros q; [done|]. cbn [fold_left]. rewrite IH.
  destruct caps as [|c caps]; [done|]. simpl. by rewrite <- (assoc_L (++)).
Qed.

(** What [MakeHandler] builds. *)
Definition made (w : Writer.writer) (h : PacketHandler (St := handler)) (l : Delivery.delivery (addr := addr)) : Prop :=
  Writer.throttle_inv (1 * Second) 32 (Writer.ipThrotter w) /\
  Writer.throttle_inv (1 * Second) 8192 (Writer.packetThrotter w) /\
  tab_inv Self no_limits (sub h) /\ l = Delivery.new_delivery 4.

Lemma MakeHandler_result boot db :
  exists r, MakeHandler boot db = Ok r /\
    match r with
    | None => forallb ValidateComplete boot = false
    | Some (w, h, l) => forallb ValidateComplete boot = true /\ made w h l
    end.
Proof.
  destruct (NewTable_inv Self default_limits now qrnd db boot true true) as (t & Heq & Ht).
  unfold MakeHandler, NewHandler. rewrite Heq. eexists. split; [reflexivity|].
  destruct t as [t|]; [|exact Ht]. destruct Ht as [Hv Ht]. split; [done|].
  split_and!; [by split_and!|by split_and!|exact Ht|done].
Qed.

(** What the broker of an application is and has opened. *)
Definition broker_of (cfg : AppConfig) (b : broker) (l l' : list resource) : Prop :=
  if BrokerEnabled cfg
  then Dial (BrokerEndpoint cfg) (BrokerUser cfg) (BrokerPassword cfg) = true /\
       b = RabbitBroker (Service.NewRabbitBroker (BrokerUser cfg)) /\ l' = (l ++ [OpenedBroker (BrokerEndpoint cfg)])%list
  else b = VoidBroker /\ l' = l.

Lemma NewCrawlApp_result cfg l :
  match NewCrawlApp cfg l with
  | Blocks _ => False
  | Panics w => w = Raised /\
      (BrokerEnabled cfg = true /\ Dial (BrokerEndpoint cfg) (BrokerUser cfg) (BrokerPassword cfg) = false \/
       forallb ValidateComplete (Bootnodes cfg) = false)
  | Returns l' app =>
      app_Config app = cfg /\ broker_of cfg (app_broker app) l l' /\
      forallb ValidateComplete (Bootnodes cfg) = true /\
      made (app_writer app) (app_handler app) (app_listener app)
  end.
Proof.
  destruct (MakeHandler_result (Bootnodes cfg) OpenDB) as (r & Hr & Hm).
  unfold NewCrawlApp, broker_of, mbind, proc_bind. rewrite Hr.
  destruct (BrokerEnabled cfg).
  - destruct (Dial _ _ _); [|by split; [|left]].
    destruct r as [[[w h] la]|]; simpl; [|by split; [|right]]. by destruct Hm.
  - destruct r as [[[w h] la]|]; simpl; [|by split; [|right]]. by destruct Hm.
Qed.

(** C32: what the crawl command makes of its command line.  An error leaves
    nothing open but the store, when it is the socket that fails.  It panics
    only when the broker cannot be reached or a bootstrap node, which was
    parsed, is incomplete.  Otherwise it has bootstrap nodes, identities and
    capabilities, all of them from the flags or their defaults; a handler
    whose table keeps its invariant; a writer throttled to 32 packets a second
    for an address and 8192 for a kind of packet; four workers; and has opened
    the store, the socket and the broker it was asked for, in this order. *)
Theorem runCrawler_result ctx :
  match runCrawler ctx [] with
  | Blocks _ => False
  | Panics w => w = Raised /\ exists boot creds,
      Config.Crawler.ParseNodes ParseV4 ctx = Some boot /\ Config.Crawler.ParseBroker ctx = Some creds /\
      (match creds with Some (u, pw, ep) => Dial ep u pw = false | None => False end \/ forallb ValidateComplete boot = false)
  | Returns l (inl e) => l = match e with BadSocket => [OpenedStore] | _ => [] end
  | Returns l (inr app) =>
      let cfg := app_Config app in
      Config.Crawler.ParseNodes ParseV4 ctx = Some (Bootnodes cfg) /\ Bootnodes cfg <> [] /\ Keys cfg <> [] /\
      (exists caps, Config.Crawler.ParseFakeCaps ctx = Some caps /\ caps <> [] /\
                    Transport.q_caps (Qurier cfg) = Some caps) /\
      broker_of cfg (app_broker app) [OpenedStore; OpenedSocket (Config.Crawler.ParseDiscPort ctx)] l /\
      Config.Crawler.ParseBroker ctx =
        Some (if BrokerEnabled cfg then Some (BrokerUser cfg, BrokerPassword cfg, BrokerEndpoint cfg) else None) /\
      forallb ValidateComplete (Bootnodes cfg) = true /\
      made (app_writer app) (app_handler app) (app_listener app)
  end.
Proof.
  unfold runCrawler. destruct (Config.Crawler.ParseNodes ParseV4 ctx) as [[|n ns]|] eqn:Hn; [done| |done].
  destruct (Config.Crawler.ParseFakeCaps ctx) as [caps|] eqn:Hc; [|done].
  destruct (Config.Crawler.ParseBroker ctx) as [creds|] eqn:Hb; [|done].
  destruct (Config.Crawler.ParseDb NewStore ctx) as [store|]; [|done].
  unfold opened, modify, mbind, proc_bind. cbn [app]. destruct (ListenPacket _) as [socket|]; [|done].
  cbn [app].
  assert (Config.Crawler.ParseIdentities ctx <> []) as Hids.
  { unfold Config.Crawler.ParseIdentities. by case_decide as Hl; [|intros Hx; rewrite Hx in Hl]. }
  assert (caps <> []) as Hcs.
  { revert Hc. unfold Config.Crawler.ParseFakeCaps. destruct (mapM _ _) as [fl|]; [|done].
    by case_decide as Hl; intros [= <-]; [|intros Hx; rewrite Hx in Hl]. }
  set (q := fold_left _ caps _). assert (Transport.q_caps q = Some caps) as Hq
    by (unfold q; rewrite caps_added; by destruct caps).
  destruct creds as [[[u pw] ep]|]; set (cfg := mkAppConfig _ _ _ _ _ _ _ _ _ _ _);
    pose proof (NewCrawlApp_result cfg [OpenedStore; OpenedSocket (Config.Crawler.ParseDiscPort ctx)]) as H;
    destruct (NewCrawlApp cfg _) as [l app|l|w]; try done; unfold mret, proc_ret; cbv beta iota zeta.
  1,3: destruct H as (-> & H1 & H2 & H3); split_and!; try done; by exists caps.
  all: destruct H as [-> H]; split; [done|]; eexists _, _; split; [done|]; split; [done|];
    destruct H as [[H1 H2]|H]; [first [by left|done]|by right].
Qed.

End CrawlApp.

(** ** application.go: [Run] *)

Module Run.

(** [Run] is before its first [Add], before the second, in [Wait], or has
    returned; each of its goroutines is not started, at work, or has called
    [Done]. *)
Inductive run_pc : Set := AddHttp | AddCrawler | InWait | Returned.
Inductive go_pc : Set := Unstarted | Working | Over.

(** [lookups] counts the calls of [LookupRandom]; [stopped] is the listener's. *)
Record running := mkRunning {
  main : run_pc; wg : Z; http : go_pc; crawler : go_pc; handler : go_pc; ctx_done : bool; lookups : nat; stopped : bool }.

Definition new_running : running := mkRunning AddHttp 0 Unstarted Unstarted Unstarted false 0 false.

Definition go_done (h c k : go_pc) (s : running) : outcome running :=
  n ← wg_Done (wg s); Ok (mkRunning (main s) n h c k (ctx_done s) (lookups s) (stopped s)).

(** The server ends when it cannot serve, the crawler and the handler when the
    context is done. *)
Inductive run_step (s : running) : outcome running -> Prop :=
| ap_http_add : main s = AddHttp ->
    run_step s (n ← wg_Add 1 (wg s); Ok (mkRunning AddCrawler n Working (crawler s) (handler s) (ctx_done s) (lookups s) (stopped s)))
| ap_crawler_add : main s = AddCrawler ->
    run_step s (n ← wg_Add 1 (wg s); Ok (mkRunning InWait n (http s) Working Working (ctx_done s) (lookups s) (stopped s)))
| ap_cancel : run_step s (Ok (mkRunning (main s) (wg s) (http s) (crawler s) (handler s) true (lookups s) (stopped s)))
| ap_http_end : http s = Working -> run_step s (go_done Over (crawler s) (handler s) s)
| ap_crawler_end : crawler s = Working -> ctx_done s = true -> run_step s (go_done (http s) Over (handler s) s)
| ap_handler_end : handler s = Working -> ctx_done s = true -> run_step s (go_done (http s) (crawler s) Over s)
| ap_lookup : handler s = Working ->
    run_step s (Ok (mkRunning (main s) (wg s) (http s) (crawler s) (handler s) (ctx_done s) (S (lookups s)) (stopped s)))
| ap_return : main s = InWait -> wg s = 0 ->
    run_step s (Ok (mkRunning Returned (wg s) (http s) (crawler s) (handler s) (ctx_done s) (lookups s) true)).

Definition run_ok (s s' : running) : Prop := run_step s (Ok s').

Definition over (g : go_pc) : Z := match g with Over => 1 | _ => 0 end.
Definition added (p : run_pc) : Z := match p with AddHttp => 0 | AddCrawler => 1 | _ => 2 end.

Record running_inv (s : running) : Prop := {
  ru_wg : wg s = added (main s) - over (http s) - over (crawler s) - over (handler s);
  ru_pos : 0 <= wg s;
  ru_http : http s = Unstarted <-> main s = AddHttp;
  ru_crawler : crawler s = Unstarted <-> main s = AddHttp \/ main s = AddCrawler;
  ru_handler : handler s = Unstarted <-> main s = AddHttp \/ main s = AddCrawler;
  ru_ctx : crawler s = Over \/ handler s = Over -> ctx_done s = true;
  ru_return : main s = Returned -> wg s = 0 /\ stopped s = true }.

(** A [Done] that the counter pays for. *)
Lemma go_done_ok h c k s : 1 <= wg s ->
  go_done h c k s = Ok (mkRunning (main s) (wg s - 1) h c k (ctx_done s) (lookups s) (stopped s)).
Proof. intros Hw. unfold go_done, wg_Done. rewrite wg_Add_ok by lia. simpl. by replace (wg s + -1) with (wg s - 1) by lia. Qed.

Lemma go_done_panics h c k s : wg s = 0 -> go_done h c k s = Panic NegativeWaitGroup.
Proof. intros Hw. unfold go_done, wg_Done, wg_Add. by rewrite decide_True by lia. Qed.

(** The end of a goroutine that works: the counter pays for it, or the others
    have used it up. *)
Lemma go_done_inv h c k s :
  running_inv s ->
  over h + over c + over k = over (http s) + over (crawler s) + over (handler s) + 1 ->
  (h = Unstarted <-> main s = AddHttp) ->
  (c = Unstarted <-> main s = AddHttp \/ main s = AddCrawler) -> (k = Unstarted <-> main s = AddHttp \/ main s = AddCrawler) ->
  (c = Over \/ k = Over -> ctx_done s = true) ->
  (exists s', go_done h c k s = Ok s' /\ running_inv s') \/
  (go_done h c k s = Panic NegativeWaitGroup /\ wg s = 0).
Proof.
  intros [H1 H2 H3 H4 H5 H6 H7] Ho Hh Hc Hk Hx. destruct (decide (wg s = 0)) as [Hw|Hw].
  - right. split; [by apply go_done_panics|done].
  - left. rewrite go_done_ok by lia. eexists. split; [reflexivity|].
    constructor; simpl; try done; try lia. intros Hm. by destruct (H7 Hm).
Qed.

(** Each step keeps the invariant, or is the third [Done]. *)
Lemma run_step_inv s o :
  running_inv s -> run_step s o ->
  (exists s', o = Ok s' /\ running_inv s') \/ (o = Panic NegativeWaitGroup /\ wg s = 0 /\ http s <> Unstarted).
Proof.
  intros Hi Hs. pose proof Hi as [H1 H2 H3 H4 H5 H6 H7].
  destruct Hs as [Hm|Hm| |Hg|Hg Hx|Hg Hx|Hg|Hm Hw].
  - left. rewrite wg_Add_ok by lia. eexists. split; [reflexivity|]. rewrite Hm in *. simpl in *.
    assert (http s = Unstarted) as Hh by by apply H3. rewrite Hh in *. simpl in *.
    constructor; simpl; try done; try lia; naive_solver.
  - left. rewrite wg_Add_ok by lia. eexists. split; [reflexivity|]. rewrite Hm in *. simpl in *.
    assert (crawler s = Unstarted) as Hc by (apply H4; by right). assert (handler s = Unstarted) as Hk by (apply H5; by right).
    rewrite Hc, Hk in *. simpl in *. constructor; simpl; try done; try lia; naive_solver.
  - left. eexists. split; [reflexivity|]. by constructor.
  - destruct (go_done_inv Over (crawler s) (handler s) s Hi) as [?|[-> Hw]]; rewrite ?Hg in *; simpl in *; try done; try lia.
    + naive_solver.
    + by left.
    + by right.
  - destruct (go_done_inv (http s) Over (handler s) s Hi) as [?|[-> Hw]]; rewrite ?Hg in *; simpl in *; try done; try lia.
    + naive_solver.
    + by left.
    + right. split_and!; [done..|]. naive_solver.
  - destruct (go_done_inv (http s) (crawler s) Over s Hi) as [?|[-> Hw]]; rewrite ?Hg in *; simpl in *; try done; try lia.
    + naive_solver.
    + by left.
    + right. split_and!; [done..|]. naive_solver.
  - left. eexists. split; [reflexivity|]. by constructor.
  - left. eexists. split; [reflexivity|]. rewrite Hm in *. constructor; simpl in *; try done; try lia; naive_solver.
Qed.

Lemma running_reach s : rtc run_ok new_running s -> running_inv s.
Proof.
  intros Hr. assert (running_inv new_running) as Hi.
  { constructor; simpl; try done; try (by intros [|]); (split; [by left|done]). }
  revert Hi Hr. apply rtc_invariant. intros s1 s2 Hi Hs.
  by destruct (run_step_inv _ _ Hi Hs) as [(s' & [= ->] & ?)|[[=] _]].
Qed.

(** A step that succeeds, from a state of the invariant. *)
Lemma run_ok_go s s' : running_inv s -> run_step s (Ok s') -> rtc run_ok s s' /\ running_inv s'.
Proof.
  intros Hi Hs. split; [by apply rtc_once|]. by destruct (run_step_inv _ _ Hi Hs) as [(? & [= ->] & ?)|[[=] _]].
Qed.

(** With the context done, a crawler or a handler at work can end, as long as
    the server is there. *)
Lemma goroutine_ends s :
  running_inv s -> main s = InWait -> ctx_done s = true -> http s <> Over ->
  exists s', rtc run_ok s s' /\ running_inv s' /\ main s' = InWait /\ ctx_done s' = true /\ http s' = http s /\
    crawler s' = Over /\ handler s' = Over.
Proof.
  intros Hi Hm Hx Hh.
  assert (forall s, running_inv s -> main s = InWait -> http s <> Over -> crawler s <> Unstarted /\ handler s <> Unstarted /\
    (crawler s = Working \/ handler s = Working -> 1 <= wg s)) as Hgo.
  { clear. intros s [H1 H2 H3 H4 H5 H6 H7] Hm Hh. rewrite Hm in *. split_and!; [naive_solver..|].
    intros Hw. simpl in H1. destruct (http s), (crawler s), (handler s); simpl in *; try lia; naive_solver. }
  assert (exists s1, rtc run_ok s s1 /\ running_inv s1 /\ main s1 = InWait /\ ctx_done s1 = true /\ http s1 = http s /\
    crawler s1 = Over) as (s1 & Hr1 & Hi1 & Hm1 & Hx1 & Hh1 & Hc1).
  { destruct (Hgo s Hi Hm Hh) as (Hc & _ & Hw). destruct (crawler s) eqn:Ec; [done| |by exists s].
    pose proof (ap_crawler_end s Ec Hx) as Hs. rewrite go_done_ok in Hs by (apply Hw; by left).
    destruct (run_ok_go _ _ Hi Hs). eexists. by split_and!. }
  destruct (Hgo s1 Hi1 Hm1) as (_ & Hk & Hw); [by rewrite Hh1|].
  destruct (handler s1) eqn:Ek; [done| |exists s1; by split_and!].
  pose proof (ap_handler_end s1 Ek Hx1) as Hs. rewrite go_done_ok in Hs by (apply Hw; by right).
  destruct (run_ok_go _ _ Hi1 Hs). eexists. split_and!; [by etrans|done..].
Qed.

(** while the server serves, [Run] is right: no [Done] panics but the
    server's own once the others are over; it returns only when the context is
    done and the crawler and the handler are over, with the listener stopped;
    and when the context is done it can return. *)
Theorem Run_waits s o :
  rtc run_ok new_running s -> run_step s o -> http s <> Over ->
  ((exists s', o = Ok s') \/ (crawler s = Over /\ handler s = Over)) /\
  (main s = Returned -> crawler s = Over /\ handler s = Over /\ ctx_done s = true /\ stopped s = true) /\
  (main s = InWait -> ctx_done s = true -> exists s', rtc run_ok s s' /\ main s' = Returned).
Proof.
  intros Hi%running_reach Hs Hh. pose proof Hi as [H1 H2 H3 H4 H5 H6 H7].
  assert (main s <> AddHttp -> main s <> AddCrawler -> wg s = 0 -> crawler s = Over /\ handler s = Over) as Hover.
  { intros Hm Hm' Hw. destruct (main s), (http s), (crawler s), (handler s); simpl in *; try done; lia. }
  split_and!.
  - destruct (run_step_inv _ _ Hi Hs) as [(s' & -> & _)|(-> & Hw & Hu)]; [left; by eexists|right].
    apply Hover; [naive_solver| |done]. intros Hm. rewrite Hm in *.
    destruct (http s), (crawler s), (handler s); simpl in *; try done; try lia; naive_solver.
  - intros Hm. destruct (H7 Hm) as [Hw Hst]. destruct Hover as [Hc Hk]; [by rewrite Hm..|done|].
    split_and!; [done..| |done]. apply H6. by left.
  - intros Hm Hx. destruct (goroutine_ends s Hi Hm Hx Hh) as (s1 & Hr & Hi1 & Hm1 & _ & Hh1 & Hc & Hk).
    eexists. split; [eapply rtc_r; [exact Hr|]|]; [apply ap_return; [done|]|done].
    rewrite (ru_wg _ Hi1), Hm1, Hc, Hk, Hh1. destruct (http s) eqn:Eh; simpl; [|done|done].
    assert (main s = AddHttp) by (by apply H3). congruence.
Qed.

(** When the server fails, as with a port in use, [Run] returns when one of
    the others is over, and the [Done] of the last panics. *)
Definition failed : running := mkRunning Returned 0 Over Working Over true 0 true.

Lemma server_failure_panics :
  rtc run_ok new_running failed /\ crawler failed = Working /\ run_step failed (Panic NegativeWaitGroup).
Proof.
  split_and!; [|done|exact (ap_crawler_end failed eq_refl eq_refl)].
  eapply rtc_l; [exact (ap_http_add new_running eq_refl)|].
  eapply rtc_l; [exact (ap_crawler_add (mkRunning AddCrawler 1 Working Unstarted Unstarted false 0 false) eq_refl)|].
  eapply rtc_l; [exact (ap_http_end (mkRunning InWait 2 Working Working Working false 0 false) eq_refl)|].
  eapply rtc_l; [exact (ap_cancel (mkRunning InWait 1 Over Working Working false 0 false))|].
  eapply rtc_l; [exact (ap_handler_end (mkRunning InWait 1 Over Working Working true 0 false) eq_refl eq_refl)|].
  eapply rtc_l; [exact (ap_return (mkRunning InWait 0 Over Working Over true 0 false) eq_refl eq_refl)|apply rtc_refl].
Qed.

Definition serving : running := mkRunning InWait 2 Working Working Working true 3 false.

Lemma serving_reachable : rtc run_ok new_running serving.
Proof.
  eapply rtc_l; [exact (ap_http_add new_running eq_refl)|].
  eapply rtc_l; [exact (ap_crawler_add (mkRunning AddCrawler 1 Working Unstarted Unstarted false 0 false) eq_refl)|].
  eapply rtc_l; [exact (ap_lookup (mkRunning InWait 2 Working Working Working false 0 false) eq_refl)|].
  eapply rtc_l; [exact (ap_lookup (mkRunning InWait 2 Working Working Working false 1 false) eq_refl)|].
  eapply rtc_l; [exact (ap_cancel (mkRunning InWait 2 Working Working Working false 2 false))|].
  eapply rtc_l; [exact (ap_lookup (mkRunning InWait 2 Working Working Working true 2 false) eq_refl)|apply rtc_refl].
Qed.

Lemma Run_waits_witness : exists s', rtc run_ok serving s' /\ main s' = Returned.
Proof.
  exact (proj2 (proj2 (Run_waits serving _ serving_reachable (ap_cancel serving) ltac:(discriminate))) eq_refl eq_refl).
Defined.

End Run.

(** ** launcher/launch.go: interrupts *)

(** The goroutine of [Before] handles the [i]-th interrupt: [printed] is what
    it tells, [exited] the end of the program. *)
Record interrupts := mkInterrupts { i : Z; canceled : bool; printed : list Z; exited : bool }.

Definition no_interrupts : interrupts := mkInterrupts 0 false [] false.

Definition on_interrupt (s : interrupts) : interrupts :=
  if exited s then s
  else mkInterrupts (i s + 1) true (printed s ++ [10 - i s])%list (bool_decide (i s + 1 = 10)).

Fixpoint on_interrupts (n : nat) (s : interrupts) : interrupts :=
  match n with O => s | S n' => on_interrupts n' (on_interrupt s) end.

(** The first interrupt cancels the context and the tenth ends the program;
    before it "1 graceful attempts left" is told, and ten after the first,
    when nine are left. *)
Lemma interrupts_told :
  canceled (on_interrupts 1 no_interrupts) = true /\ printed (on_interrupts 1 no_interrupts) = [10] /\
  exited (on_interrupts 9 no_interrupts) = false /\ exited (on_interrupts 10 no_interrupts) = true /\
  printed (on_interrupts 12 no_interrupts) = [10; 9; 8; 7; 6; 5; 4; 3; 2; 1].
Proof. by vm_compute. Qed.

(** ** A concrete command line *)

Module Demo.

Definition flags : Config.Context :=
  Config.mkContext (fun s => negb (bool_decide (s = "enable_broker"))) (fun _ => true) (fun _ => "enode://a")
    (fun _ => ["eth:66"]) (fun _ => 30303) (fun _ => 0) (fun _ => 0).

Definition run : res (list resource) (crawl_error + Application) :=
  runCrawler (R := Writer.token_bucket) (Store := string) (Socket := Z) (fun _ => Some (TableProps.Demo.peer 1))
    (fun source _ => Some source) Some (fun _ _ _ => true) empty_db TableProps.Demo.self 0 0 flags [].

Lemma runCrawler_result_witness :
  match run with
  | Returns l (inl e) => l = match e with BadSocket => [OpenedStore] | _ => [] end
  | Returns l (inr app) => Bootnodes (app_Config app) = [TableProps.Demo.peer 1] /\
      l = [OpenedStore; OpenedSocket 30303] /\ app_broker app = VoidBroker
  | Blocks _ => False
  | Panics _ => forallb ValidateComplete [TableProps.Demo.peer 1] = false
  end.
Proof.
  pose proof (runCrawler_result (R := Writer.token_bucket) (Store := string) (Socket := Z) (fun _ => Some (TableProps.Demo.peer 1))
    (fun source _ => Some source) Some (fun _ _ _ => true) empty_db TableProps.Demo.self 0 0 flags) as H.
  fold run in H. destruct run as [l [e|app]|l|w]; [exact H| |exact H|].
  - destruct H as (Hn & _ & _ & _ & Hb & Hc & _). injection Hn as <-. split; [reflexivity|].
    unfold broker_of in Hb. destruct (BrokerEnabled (app_Config app)); [discriminate Hc|].
    destruct Hb as [-> ->]. split; reflexivity.
  - destruct H as (_ & boot & creds & Hn & Hc & H). injection Hn as <-. injection Hc as <-.
    destruct H as [[]|H]. exact H.
Defined.

End Demo.
