(* ===== verification/DiscCmd.v ===== *)
(** * crawler/cmd/disc/v4/disc.go: the commands against the handler

    [ping], [random] and [enr] make a handler of their own, without bootstrap
    nodes, and ask each node of the flag in turn; [scan] asks one node with
    several goroutines (the loop that collects is in Disc.v). *)

From Stdlib Require Import ZArith Lia.
From stdpp Require Import base list gmap strings relations.
From S2P Require Import Prelude Golang Procs External Instances Nodes NodesFacts.
From S2P Require Import Table TableInv TableSys TableProps Identity Awaiter V4 V4Facts V4Props V4Safe PacketHandler.
From S2P Require Config Writer Delivery.
From S2P Require CrawlApp.
Local Open Scope Z_scope.

Section DiscCmd.
Context `{EL : EnodeLaws} `{NL : NetUtilLaws} `{DL : NodeDBLaws (E := E)} `{WL : V4WireLaws (E := E)}.
Context `{R : Writer.RateLimiter}.
Context (ParseV4 : string -> option enode) (Self : enode) (holder : identity (E := E)) (write_ok : list sent -> bool)
  (Name : External.packet Pubkey ENRecord -> string) (now : Z) (qrnd : nat).

#[local] Instance sub_v4 : SubHandler handler v4err Pubkey v4world := v4_SubHandler Self holder write_ok Name.
Abbreviation PH := (PacketHandler (St := handler)).
Abbreviation timing := (timing (World := v4world)).

(** What a command asks one node. *)
Definition ask_ping (t : timing) (n : enode) : proc PH (v4err + Z) :=
  '(val, err) ← Ping t n; mret match err with Some e => inl e | None => inr val end.

Definition ask_random (target : Pubkey) (t : timing) (n : enode) : proc PH (v4err + list enode) :=
  '(nodes, err) ← AskForRandomNodes t n target; mret match err with Some e => inl e | None => inr nodes end.

(** The record of the answer is read. *)
Definition ask_enr (t : timing) (n : enode) : proc PH (v4err + enode) :=
  '(enr, err) ← RequestENR t n;
  match err, enr with
  | Some e, _ => mret (inl e)
  | None, Some enr => mret (inr enr)
  | None, None => crash NilDereference
  end.

(** The loop over the nodes: the answers, and the error that ended it. *)
Fixpoint ask_nodes {A} (ask : timing -> enode -> proc PH (v4err + A)) (qs : list (timing * enode))
    : proc PH (list A * option v4err) :=
  match qs with
  | [] => mret ([], None)
  | (t, n) :: qs' =>
      r ← ask t n;
      match r with
      | inl e => mret ([], Some e)
      | inr a => '(l, err) ← ask_nodes ask qs'; mret (a :: l, err)
      end
  end.

Inductive disc_error : Set := BadNodes | DbFailed | SocketFailed | BadHandler.

(** [db] and [socket] are what opening the database and the socket give. *)
Definition makeHandler (db : option DB) (socket : bool) : disc_error + outcome (option PH) :=
  match db with
  | None => inl DbFailed
  | Some db =>
      if negb socket then inl SocketFailed
      else inr (option_map (fun '(_, h, _) => h) <$> CrawlApp.MakeHandler Self now qrnd [] db)
  end.

Definition disc_command {A} (ask : timing -> enode -> proc PH (v4err + A)) (ts : nat -> timing)
    (ctx : Config.Context) (db : option DB) (socket : bool) : disc_error + res PH (list A * option v4err) :=
  match Config.Crawler.ParseNodes ParseV4 ctx with
  | None => inl BadNodes
  | Some nodes =>
      match makeHandler db socket with
      | inl e => inl e
      | inr (Panic w) => inr (Panics w)
      | inr (Ok None) => inl BadHandler
      | inr (Ok (Some h)) => inr (ask_nodes ask (imap (fun i n => (ts i, n)) nodes) h)
      end
  end.

(** ** Facts *)

(** The invariant of the handler, and what is true of an answer. *)
Definition PI (h : PH) : Prop := tab_inv Self no_limits (sub h).
Abbreviation fair := (fair_world (tab_inv Self no_limits)).

Definition answers {A} (P : enode -> A -> Prop) (m : timing -> enode -> proc PH (v4err + A)) : Prop :=
  forall t n h, fair (world t) -> PI h ->
    wp (m t n) (fun h' r => PI h' /\ match r with Some (inr a) => P n a | _ => True end) h.

(** The answers of the loop are those of the nodes in order, of all of them
    when there is no error. *)
Lemma ask_nodes_wp {A} (P : enode -> A -> Prop) ask qs h :
  answers P ask -> Forall (fun q => fair (world q.1)) qs -> PI h ->
  wp (ask_nodes ask qs) (fun h' r => PI h' /\
    match r with
    | Some (l, err) => exists asked rest, qs.*2 = (asked ++ rest)%list /\ Forall2 P asked l /\ (err = None <-> rest = [])
    | None => True
    end) h.
Proof.
  intros Ha Hf. revert h. induction Hf as [|[t n] qs Hq Hf IH]; intros h Hh; cbn [ask_nodes].
  { apply wp_ret. split; [done|]. exists [], []. by split_and!. }
  apply wp_bind. eapply wp_mono; [by apply Ha|]. intros h1 [[e|a]|] [Hh1 Hp]; [| |done].
  - apply wp_ret. split; [done|]. exists [], (n :: qs.*2). by split_and!.
  - apply wp_bind. eapply wp_mono; [by apply IH|]. intros h2 [[l err]|] [Hh2 Hr]; [|done].
    apply wp_ret. split; [done|]. destruct Hr as (asked & rest & Hq2 & Hl & He).
    exists (n :: asked), rest. split_and!; [by rewrite fmap_cons, Hq2|by constructor|done].
Qed.

(** A call of the packet handler: what the sub handler's result satisfies. *)
Lemma wp_call {X A} (m : proc handler (X * RpcInfo v4err)) (t : timing) (k : X * RpcInfo v4err -> proc PH A) f
    (J : X * RpcInfo v4err -> Prop) (Q : PH -> option A -> Prop) h :
  (forall x, k x = (record false (begun t) (ended t) x.2;; mret (f x))) ->
  wp m (fun s r => tab_inv Self no_limits s /\ match r with Some x => J x | None => True end) (sub h) ->
  (forall s l, tab_inv Self no_limits s -> Q (mkPacketHandler s l) None) ->
  (forall s l x, tab_inv Self no_limits s -> J x -> Q (mkPacketHandler s l) (Some (f x))) ->
  wp (on_sub m ≫= k) Q h.
Proof.
  intros Hk Hm Hb Hr. apply wp_bind, wp_on_sub. eapply wp_mono; [exact Hm|].
  intros s [x|] [Hs HJ]; [|by apply Hb]. rewrite Hk. by apply wp_bind, wp_modify, wp_ret, Hr.
Qed.

Lemma ping_answers : answers (fun _ _ => True) ask_ping.
Proof.
  intros t n h Hf Hh. unfold ask_ping. apply wp_bind. unfold Ping.
  apply (wp_call _ t _ (fun x => (x.1, rpc_Error x.2)) (fun _ => True)); [by intros []| |done|].
  - eapply preserves_wp; [by apply (law_MakePingRequest (I := tab_inv Self no_limits))|exact Hh|].
    intros s [r|] Hs; by split.
  - intros s l x Hs _. apply wp_ret. split; [done|]. by destruct (rpc_Error x.2).
Qed.

(** A record that is answered is of the node that was asked. *)
Definition same_node (n enr : enode) : Prop := enode_ID enr = enode_ID n.

Lemma enr_same w a n :
  fair w -> forall s, tab_inv Self no_limits s ->
  wp (sub_MakeEnrRequest w a n) (fun s' r => tab_inv Self no_limits s' /\
    match r with
    | Some (enr, info) => rpc_Error info = None -> exists n', enr = Some n' /\ same_node n n'
    | None => True
    end) s.
Proof.
  intros Hf s Hs. destruct Hf as ([Hwk Hk] & [Hwk' Hk'] & Hsl).
  assert (may_write (tab_inv Self no_limits)) as Hmay by (intros h l Hh; exact Hh).
  cbn. unfold v4_MakeEnrRequest, MakeEnrRequest. apply wp_bind, wp_bind.
  eapply preserves_wp; [by apply (tryBond_preserves holder write_ok (tab_inv Self no_limits) Hmay)|exact Hs|].
  intros s1 [[|]|] Hs1; simpl; [| |done].
  - pose proof (makeEnr_preserves write_ok (tab_inv Self no_limits) Hmay (w_now3 w) n a (w_evs' w) Hwk' Hk' s1 Hs1) as Hp.
    pose proof (makeEnrRequest_checked write_ok (w_now3 w) n a (w_evs' w) s1 Hwk') as Hc.
    unfold wp in *. destruct (makeEnrRequest _ _ _ _ _ s1) as [s2 [e|n']|s2|x]; simpl; [done| |done|done].
    split; [done|]. intros _. exists n'. split; [done|]. destruct Hc as [->|(Hid & _)]; [done|exact Hid].
  - by apply wp_ret, wp_ret.
Qed.

Lemma enr_answers : answers same_node ask_enr.
Proof.
  intros t n h Hf Hh. unfold ask_enr. apply wp_bind. unfold RequestENR.
  apply (wp_call _ t _ (fun x => (x.1, rpc_Error x.2))
    (fun x => rpc_Error x.2 = None -> exists n', x.1 = Some n' /\ same_node n n')); [by intros []| |done|].
  - eapply wp_mono; [by apply enr_same|]. intros s [[x info]|] [Hs Hx]; by split.
  - intros s l [x info] Hs Hx. simpl in *. destruct (rpc_Error info) as [e|]; [by apply wp_ret|].
    destruct (Hx eq_refl) as (n' & -> & Hid). by apply wp_ret.
Qed.

(** The nodes that are answered passed the checks: they may be at an address
    that the asked node relays, not at a low port, and are complete. *)
Definition acceptable (n m : enode) : Prop := exists (rn : rpcNode Pubkey) k,
  1024 < rn_udp rn /\ CheckRelayIP (enode_IP n) (rn_ip rn) = true /\
  m = NewV4 k (rn_ip rn) (rn_tcp rn) (rn_udp rn) /\ ValidateComplete m = true.
Definition checked_nodes (n : enode) (nodes : list enode) : Prop := Forall (acceptable n) nodes.

Lemma random_checked w a n key :
  fair w -> a.1 = enode_IP n -> forall s, tab_inv Self no_limits s ->
  wp (sub_MakeFindNodeRequest w a (enode_ID n) key) (fun s' r => tab_inv Self no_limits s' /\
    match r with Some (nodes, _) => checked_nodes n nodes | None => True end) s.
Proof.
  intros Hf Ha s Hs. destruct Hf as ([Hwk Hk] & [Hwk' Hk'] & Hsl).
  assert (may_write (tab_inv Self no_limits)) as Hmay by (intros h l Hh; exact Hh).
  cbn. unfold v4_MakeFindNodeRequest, MakeFindNodeRequest. apply wp_bind, wp_bind.
  eapply preserves_wp; [by apply (tryBond_preserves holder write_ok (tab_inv Self no_limits) Hmay)|exact Hs|].
  intros s1 [[|]|] Hs1; simpl; [| |done].
  - pose proof (makeFindNode_preserves write_ok (tab_inv Self no_limits) Hmay (w_now3 w) (enode_ID n) a key
      (w_evs' w) Hwk' Hk' s1 Hs1) as Hp.
    pose proof (makeFindNodeRequest_checked write_ok (w_now3 w) (enode_ID n) a key (w_evs' w) s1 Hwk') as Hc.
    unfold wp in *. destruct (makeFindNodeRequest _ _ _ _ _ _ s1) as [s2 [nodes err]|s2|x]; simpl; [|done|done].
    split; [done|]. destruct Hc as [_ Hc]. apply Forall_forall. intros m Hm.
    destruct (Hc m Hm) as (rn & k & _ & Hu & Hr & _ & Hv). exists rn, k. by rewrite <- Ha.
  - apply wp_ret, wp_ret. split; [done|constructor].
Qed.

Lemma random_answers target : answers checked_nodes (ask_random target).
Proof.
  intros t n h Hf Hh. unfold ask_random. apply wp_bind. unfold AskForRandomNodes, runNodesQuery.
  apply (wp_call _ t _ (fun x => (x.1, rpc_Error x.2)) (fun x => checked_nodes n x.1)); [by intros []| |done|].
  - eapply wp_mono; [by apply random_checked|]. intros s [[x info]|] [Hs Hx]; by split.
  - intros s l [x info] Hs Hx. simpl in *. apply wp_ret. split; [done|]. by destruct (rpc_Error info).
Qed.

Lemma imap_nodes (ts : nat -> timing) (nodes : list enode) : (imap (fun i n => (ts i, n)) nodes).*2 = nodes.
Proof.
  revert ts. induction nodes as [|n nodes IH]; intros ts; [done|].
  rewrite imap_cons, fmap_cons. simpl. f_equal. exact (IH (fun i => ts (S i))).
Qed.

Lemma imap_fair (ts : nat -> timing) (nodes : list enode) :
  (forall i, fair (world (ts i))) -> Forall (fun q => fair (world q.1)) (imap (fun i n => (ts i, n)) nodes).
Proof.
  intros Hf. apply Forall_lookup. intros i q Hq. rewrite list_lookup_imap in Hq.
  apply fmap_Some in Hq as (n & _ & ->). apply Hf.
Qed.

(** The outcome of a command whose answers satisfy [P]. *)
Definition outcome_of {A} (P : enode -> A -> Prop) ctx (db : option DB) (socket : bool)
    (o : disc_error + res PH (list A * option v4err)) : Prop :=
  match o with
  | inl BadNodes => Config.Crawler.ParseNodes ParseV4 ctx = None
  | inl DbFailed => db = None
  | inl SocketFailed => socket = false
  | inl BadHandler => False
  | inr r => exists nodes, Config.Crawler.ParseNodes ParseV4 ctx = Some nodes /\
      match r with
      | Panics _ => False
      | Blocks h => PI h
      | Returns h (l, err) => PI h /\
          exists asked rest, nodes = (asked ++ rest)%list /\ Forall2 P asked l /\ (err = None <-> rest = [])
      end
  end.

Lemma disc_command_result {A} (P : enode -> A -> Prop) ask ts ctx db socket :
  answers P ask -> (forall i, fair (world (ts i))) -> outcome_of P ctx db socket (disc_command ask ts ctx db socket).
Proof.
  intros Ha Hf. unfold disc_command, makeHandler.
  destruct (Config.Crawler.ParseNodes ParseV4 ctx) as [nodes|] eqn:Hn; [|exact Hn].
  destruct db as [db|]; [|done]. destruct socket; [|done]. simpl.
  destruct (CrawlApp.MakeHandler_result Self now qrnd [] db) as (r & -> & Hr). simpl.
  destruct r as [[[w h] l]|]; [|done]. destruct Hr as (_ & _ & _ & Ht & _). simpl. exists nodes. split; [done|].
  pose proof (ask_nodes_wp P ask (imap (fun i n => (ts i, n)) nodes) h Ha (imap_fair ts nodes Hf) Ht) as Hw.
  unfold wp in Hw. rewrite imap_nodes in Hw.
  by destruct (ask_nodes _ _ h) as [h' [lr err]|h'|x]; [|destruct Hw|].
Qed.


End DiscCmd.

(** ** Two nodes that do not answer *)

Module Demo.

Definition flags : Config.Context :=
  Config.mkContext (fun _ => true) (fun _ => true) (fun _ => "enode://a,enode://b") (fun _ => []) (fun _ => 0) (fun _ => 0)
    (fun _ => 0).

Definition when (i : nat) : timing (World := v4world) := PacketHandler.Demo.when.

Lemma when_fair i : fair_world (tab_inv TableProps.Demo.self no_limits) (world (when i)).
Proof. split; [|split]; [split; repeat constructor|split; constructor|intros h Hh; exact Hh]. Qed.


End Demo.
