(* ===== verification/DiscScan.v ===== *)
(** * crawler/cmd/disc/v4/disc.go: the goroutines of [scan]

    For each node [factor] goroutines ask for random nodes and send what they
    are told to a channel, which the loop of Disc.v ([peek_on]) receives from
    until it has heard enough.  The goroutines and the loop in every
    interleaving, and the set of scans that is dumped. *)

From Stdlib Require Import ZArith Lia.
From stdpp Require Import base list gmap strings relations.
From S2P Require Import Prelude Golang External Instances Disc.
From S2P Require Config.
Local Open Scope Z_scope.

(** [make(chan ..., factor)]. *)
Definition make_chan (size : Z) : outcome nat := if decide (size < 0) then Panic MakeChanSize else Ok (Z.to_nat size).

(** The channel of a scan has the size of the flag, as an [int]: half of the
    values that the flag takes make the command panic. *)
Lemma concurrency_panics ctx :
  Config.IsSet ctx Config.Crawler.ConcurrencyFactorFlag = true ->
  2 ^ 63 <= Config.Uint64 ctx Config.Crawler.ConcurrencyFactorFlag < 2 ^ 64 ->
  make_chan (Config.Crawler.ParseConcurrency ctx) = Panic MakeChanSize.
Proof.
  intros Hs Hu. unfold Config.Crawler.ParseConcurrency, make_chan. rewrite Hs. simpl.
  rewrite decide_True; [done|]. unfold i64, wrap_s. set (u := Config.Uint64 _ _) in *.
  replace (u + 2 ^ (64 - 1)) with (u - 2 ^ 63 + 1 * 2 ^ 64) by lia.
  rewrite Z.mod_add, Z.mod_small by lia. lia.
Qed.

Section Scan.
Context `{E : Enode} (factor : nat).

(** A goroutine asks, sends what it was told, or has given up; [errs] are its
    errors in a row. *)
Inductive asker_pc : Type := AkAsk (errs : Z) | AkSend (errs : Z) (result : list enode) | AkOver.

(** [heard] is what the loop's select saw so far. *)
Record pscan := mkPscan {
  ps_peek : peek; going : bool; resultCh : list (list enode); askers : list asker_pc; heard : list peek_event;
  told_ : list (list enode) }.

Definition new_pscan : pscan := mkPscan new_peek true [] (replicate factor (AkAsk 0)) [] [].

Definition set_asker (k : nat) (pc : asker_pc) (s : pscan) : pscan :=
  mkPscan (ps_peek s) (going s) (resultCh s) (<[k := pc]> (askers s)) (heard s) (told_ s).

(** [AskForRandomNodes] returned nodes, or an error with or without some. *)
Definition answer (k : nat) (errs : Z) (result : list enode) (failed : bool) (s : pscan) : pscan :=
  mkPscan (ps_peek s) (going s) (resultCh s)
    (<[k := AkSend (if failed then errs + 1 else 0) result]> (askers s)) (heard s) (told_ s ++ [result]).

Definition deliver (k : nat) (errs : Z) (result : list enode) (s : pscan) : pscan :=
  mkPscan (ps_peek s) (going s) (resultCh s ++ [result]) (<[k := AkAsk errs]> (askers s)) (heard s) (told_ s).

(** The loop handles an event. *)
Definition on_event (ev : peek_event) (rest : list (list enode)) (s : pscan) : pscan :=
  let '(p, go) := peek_on (ps_peek s) ev in
  mkPscan p go rest (askers s) (heard s ++ [ev]) (told_ s).

Inductive pscan_step (s : pscan) : pscan -> Prop :=
| pk_answer k errs result failed :
    askers s !! k = Some (AkAsk errs) -> errs <= 10 -> pscan_step s (answer k errs result failed s)
| pk_quit k errs : askers s !! k = Some (AkAsk errs) -> 10 < errs -> pscan_step s (set_asker k AkOver s)
| pk_send k errs result :
    askers s !! k = Some (AkSend errs result) -> (length (resultCh s) < factor)%nat -> pscan_step s (deliver k errs result s)
| pk_receive result rest :
    going s = true -> resultCh s = result :: rest -> pscan_step s (on_event (Answered result) rest s)
| pk_tick : going s = true -> pscan_step s (on_event Ticked (resultCh s) s)
| pk_cancel : going s = true -> pscan_step s (on_event Cancelled (resultCh s) s).

(** What is not yet heard is in the channel or with a goroutine. *)
Definition held (pc : asker_pc) : option (list enode) := match pc with AkSend _ r => Some r | _ => None end.
Definition heard_results (evs : list peek_event) : list (list enode) :=
  omap (fun ev => match ev with Answered r => Some r | _ => None end) evs.

Record pscan_inv (s : pscan) : Prop := {
  ps_loop : peek_loop new_peek (heard s) = (ps_peek s, going s);
  ps_room : (length (resultCh s) <= factor)%nat;
  ps_told : Permutation (told_ s) (heard_results (heard s) ++ resultCh s ++ omap held (askers s)) }.

Lemma peek_loop_snoc p evs ev p' :
  peek_loop p evs = (p', true) -> peek_loop p (evs ++ [ev]) = peek_on p' ev.
Proof.
  revert p. induction evs as [|e evs IH]; intros p; simpl.
  - intros [= ->]. by destruct (peek_on p' ev) as [q []].
  - destruct (peek_on p e) as [q []]; [apply IH|done].
Qed.

Lemma on_event_inv ev rest s :
  pscan_inv s -> going s = true -> (length rest <= factor)%nat ->
  Permutation (heard_results [ev] ++ rest) (resultCh s) -> pscan_inv (on_event ev rest s).
Proof.
  intros [H1 H2 H3] Hg Hl Hp. unfold on_event. rewrite Hg in H1.
  pose proof (peek_loop_snoc _ _ ev _ H1) as Hs. destruct (peek_on (ps_peek s) ev) as [p go].
  constructor; simpl; [done|done|]. rewrite H3. unfold heard_results. rewrite omap_app, <- !(assoc_L (++)).
  apply Permutation_app_head. rewrite <- Hp. unfold heard_results. by rewrite <- (assoc_L (++)).
Qed.

(** The goroutine [k] goes on. *)
Lemma asker_told k pc pc' s extra :
  pscan_inv s -> askers s !! k = Some pc ->
  Permutation (extra ++ option_list (held pc')) (option_list (held pc)) ->
  Permutation (told_ s) (heard_results (heard s) ++ resultCh s ++ extra ++ omap held (<[k := pc']> (askers s))).
Proof.
  intros [_ _ H3] Hk Hp. destruct (omap_split held (askers s) k pc Hk) as (l1 & l2 & H1 & H2).
  rewrite H3, H1, H2. do 2 apply Permutation_app_head. rewrite <- Hp. solve_Permutation.
Qed.

Lemma pscan_step_inv s s' : pscan_inv s -> pscan_step s s' -> pscan_inv s'.
Proof.
  intros Hi Hs. pose proof Hi as [H1 H2 H3].
  destruct Hs as [k errs result failed Hk He|k errs Hk He|k errs result Hk Hroom|result rest Hg Hch|Hg|Hg].
  - destruct (omap_split held (askers s) k _ Hk) as (l1 & l2 & E1 & E2).
    constructor; simpl; [done|done|]. rewrite H3, E1, E2. simpl. solve_Permutation.
  - constructor; simpl; [done|done|]. exact (asker_told k _ AkOver s [] Hi Hk ltac:(done)).
  - constructor; simpl; [done|rewrite length_app; simpl; lia|].
    pose proof (asker_told k _ (AkAsk errs) s [result] Hi Hk ltac:(done)) as Hp. rewrite Hp. solve_Permutation.
  - apply on_event_inv; [done|done| |by rewrite Hch]. rewrite Hch in H2. simpl in H2. lia.
  - by apply on_event_inv.
  - by apply on_event_inv.
Qed.

Lemma pscan_reach s : rtc pscan_step new_pscan s -> pscan_inv s.
Proof.
  intros Hr. assert (pscan_inv new_pscan) as Hi.
  { constructor; simpl; [done|lia|]. assert (forall n, omap held (replicate n (AkAsk 0)) = []) as ->; [|done].
    induction n as [|n IH]; [done|]. csimpl. exact IH. }
  revert Hi Hr. apply rtc_invariant, pscan_step_inv.
Qed.

(** What a scan dumps, in every interleaving of its goroutines: each identity
    once, and only nodes that some query was told; and every query's result is
    accounted for: heard by the loop, in the channel or with its goroutine. *)
Theorem scan_dumps_told s :
  rtc pscan_step new_pscan s ->
  NoDup (map enode_ID (scanned (ps_peek s))) /\
  (forall n, n ∈ scanned (ps_peek s) -> exists r, r ∈ told_ s /\ n ∈ r) /\
  (going s = true -> forall r n, r ∈ heard_results (heard s) -> n ∈ r -> enode_ID n ∈ map enode_ID (scanned (ps_peek s))) /\
  Permutation (told_ s) (heard_results (heard s) ++ resultCh s ++ omap held (askers s)).
Proof.
  intros [H1 H2 H3]%pscan_reach. destruct (scan_result _ _ _ H1) as (Hnd & handled & rest & He & Hg & Hn & Hi).
  assert (forall evs n, n ∈ told evs <-> exists r, r ∈ heard_results evs /\ n ∈ r) as Ht.
  { clear. intros evs n. unfold told. rewrite list_elem_of_In, in_concat. split.
    - intros (l & Hl & Hx). apply in_map_iff in Hl as (ev & <- & Hev). destruct ev as [| |r]; [done|done|].
      exists r. split; [|by apply list_elem_of_In]. apply list_elem_of_omap. exists (Answered r). by rewrite list_elem_of_In.
    - intros (r & (ev & Hev & Hr)%list_elem_of_omap & Hx). exists r. split; [|by apply list_elem_of_In].
      apply in_map_iff. exists ev. apply list_elem_of_In in Hev. destruct ev; by simplify_eq/=. }
  split_and!; [done| | |done].
  - intros n Hin. apply Hn, Ht in Hin as (r & Hr & Hx). exists r. split; [|done].
    rewrite H3, He. unfold heard_results in *. rewrite omap_app, !elem_of_app. tauto.
  - intros Hgo r n Hr Hx. rewrite (Hg Hgo), app_nil_r in He. subst handled. apply Hi.
    apply list_elem_of_fmap. exists n. split; [done|]. apply Ht. by exists r.
Qed.

(** Once the loop has ended and the channel is full, the goroutines that send
    stay where they are. *)
Lemma askers_stay s s' k errs result :
  rtc pscan_step s s' -> going s = false -> length (resultCh s) = factor ->
  askers s !! k = Some (AkSend errs result) -> askers s' !! k = Some (AkSend errs result).
Proof.
  induction 1 as [|s s1 s2 Hs _ IH]; intros Hg Hl Hk; [done|].
  destruct Hs as [j e r f Hj He|j e Hj He|j e r Hj Hroom|r rest Hg'|Hg'|Hg']; [|..]; try congruence; try lia;
    (apply IH; [done|done|]; simpl; rewrite list_lookup_insert_ne; [done|intros ->; congruence]).
Qed.

End Scan.

(** ** The set of scans *)

(** The scans of the nodes, as they arrive, by the text of the node: of two
    equal nodes the scan that arrives last is dumped. *)
Definition scanSet {N : Type} (scans : list (string * list N)) : gmap string (list N) :=
  fold_left (fun m scan => <[scan.1 := scan.2]> m) scans ∅.

Lemma scanSet_last {N} (scans : list (string * list N)) k :
  scanSet scans !! k = snd <$> last (filter (fun s => s.1 = k) scans).
Proof.
  unfold scanSet. induction scans as [|[k' l] scans IH] using rev_ind; [done|].
  rewrite fold_left_app, filter_app. cbn [fold_left fst snd]. destruct (decide (k' = k)) as [->|Hk].
  - rewrite (filter_cons_True (fun s => s.1 = k) (k, l)), filter_nil by done. by rewrite lookup_insert_eq, last_snoc.
  - rewrite (filter_cons_False (fun s => s.1 = k) (k', l)), filter_nil by done. by rewrite lookup_insert_ne, IH, app_nil_r.
Qed.
