(* ===== verification/ScanApp.v ===== *)
(** * scanner/cmd/scanner and scanner/app/application.go: the scan commands

    [EventScan] parses and validates its configuration (Config.v), sets up the
    broker, the cache and the store, and runs the node scanner (NodeScan.v)
    with them.  [IpScan] scans the addresses of its flag with a goroutine for
    each, and collects what they return, in every interleaving. *)

From Stdlib Require Import ZArith Lia.
From stdpp Require Import base list gmap strings relations.
From S2P Require Import Prelude Golang Config.
From S2P Require Log.
From S2P Require Scanner Service.
Local Open Scope Z_scope.

Section ScanApp.
Context {Store : Type}.
(** The packages the commands call: parsing an address, connecting to the
    broker and to the cache, opening the store. *)
Context (ParseIP : string -> option IP) (Dial : string -> string -> string -> bool) (PingCache : string -> string -> bool)
  (NewStore : string -> string -> option Store) (gomaxprocs : Z).

(** ** application.go *)

(** [http] tells whether there is a server, [cache] whether its client has
    started. *)
Record Application := mkApplication {
  a_cfg : Config.Scanner.Config; http : bool; broker : option Service.rabbitBroker; cache : bool; store : option Store }.

Definition NewScanApp (cfg : Config.Scanner.Config) : Application := mkApplication cfg false None false None.

Inductive setup_error : Set := BrokerFailed | BrokerRequired | CacheFailed | CacheRequired | StoreFailed | StoreRequired.

(** The application as [Setup] leaves it, and its error. *)
Definition Setup (app : Application) : Application * option setup_error :=
  let cfg := a_cfg app in
  let app := if Config.Scanner.Metrics cfg then mkApplication cfg true (broker app) (cache app) (store app) else app in
  if negb (Config.Scanner.BrokerEnabled cfg) then (app, Some BrokerRequired)
  else if negb (Dial (Config.Scanner.BrokerEndpoint cfg) (Config.Scanner.BrokerUser cfg) (Config.Scanner.BrokerPassword cfg))
  then (app, Some BrokerFailed)
  else
    let app := mkApplication cfg (http app) (Some (Service.NewRabbitBroker (Config.Scanner.BrokerUser cfg))) (cache app) (store app) in
    if negb (Config.Scanner.CacheEnabled cfg) then (app, Some CacheRequired)
    else if negb (PingCache (Config.Scanner.CacheEndpoint cfg) (Config.Scanner.CachePassword cfg))
    then (app, Some CacheFailed)
    else
      let app := mkApplication cfg (http app) (broker app) true (store app) in
      if negb (Config.Scanner.StoreEnabled cfg) then (app, Some StoreRequired)
      else match NewStore (Config.Scanner.StoreSource cfg) (Config.Scanner.StoreMigration cfg) with
      | None => (app, Some StoreFailed)
      | Some s => (mkApplication cfg (http app) (broker app) (cache app) (Some s), None)
      end.

(** The controller that [Run] gives to the node scanner. *)
Definition app_controller (app : Application) : Scanner.ScannerController :=
  Scanner.NewScannerController (Config.Scanner.Threads (a_cfg app)) (Config.Scanner.Burst (a_cfg app))
    (Config.Scanner.Interval (a_cfg app)).

Definition Stop (app : Application) : Application :=
  if negb (http app) then app else mkApplication (a_cfg app) false (broker app) (cache app) (store app).

(** [parseLogging] of parse.go, on the variables of the package log. *)
Definition parseLogging `{Zp : Log.Zap} (ctx : Config.Context) (p : Log.package) : Log.package :=
  if IsSet ctx Config.Scanner.Verbose && Bool_ ctx Config.Scanner.Verbose then Log.SetLoggingLvl Log.DEBUG p else p.

(** ** cli.go: [EventScan] *)

Inductive event_error : Set := BadFlags | BadConfig | BadSetup (app_http : bool) (e : setup_error).

(** The command up to [Run]: the application that runs. *)
Definition runEventScanner (ctx : Config.Context) : event_error + Application :=
  let '(cfg, ok) := Config.Scanner.Parse ParseIP ctx (Config.Scanner.DefaultConfig gomaxprocs) in
  if negb ok then inl BadFlags
  else match Config.Scanner.Validate cfg with
  | None => inl BadConfig
  | Some cfg =>
      match Setup (NewScanApp cfg) with
      | (app, Some e) => inl (BadSetup (http app) e)
      | (app, None) => inr app
      end
  end.

(** The flag [verbose] concerns the loggers made later: the root logger, which
    [IpScan] takes before it parses its flags, keeps its level. *)
Lemma parseLogging_root `{Zp : Log.Zap} ctx p n :
  Log.root p = Some n ->
  Log.root (parseLogging ctx p) = Some n /\ Log.made (parseLogging ctx p) = Log.made p /\
  (IsSet ctx Config.Scanner.Verbose && Bool_ ctx Config.Scanner.Verbose = true -> Log.currLvl (parseLogging ctx p) = Log.DEBUG).
Proof. intros Hr. unfold parseLogging. by destruct (_ && _). Qed.

(** [Setup] succeeds with all three services, and otherwise names the first
    that is missing, keeping those before it. *)
Lemma Setup_result app app' e :
  Setup app = (app', e) -> broker app = None -> cache app = false -> store app = None ->
  let cfg := a_cfg app in
  let connected := Config.Scanner.BrokerEnabled cfg &&
    Dial (Config.Scanner.BrokerEndpoint cfg) (Config.Scanner.BrokerUser cfg) (Config.Scanner.BrokerPassword cfg) in
  let cached := Config.Scanner.CacheEnabled cfg &&
    PingCache (Config.Scanner.CacheEndpoint cfg) (Config.Scanner.CachePassword cfg) in
  a_cfg app' = cfg /\
  (is_Some (broker app') <-> connected = true) /\
  (cache app' = true <-> connected && cached = true) /\
  (is_Some (store app') <-> e = None) /\
  (e = None -> connected && cached && Config.Scanner.StoreEnabled cfg = true /\
     store app' = NewStore (Config.Scanner.StoreSource cfg) (Config.Scanner.StoreMigration cfg)).
Proof.
  intros Hs Hb Hc Hst. cbv zeta. revert Hs. unfold Setup.
  assert (forall (b : bool) x y z w, (if b then mkApplication x true y z w else mkApplication x (http app) y z w) =
    mkApplication x (if b then true else http app) y z w) as Hif by by intros [].
  destruct app as [cfg h b c s]; simpl in *. subst b c s. rewrite Hif.
  destruct (Config.Scanner.BrokerEnabled cfg), (Dial _ _ _); simpl;
    try (intros [= <- <-]; simpl; split_and!; try done; split; try done; by intros []).
  destruct (Config.Scanner.CacheEnabled cfg), (PingCache _ _); simpl;
    try (intros [= <- <-]; simpl; split_and!; try done; split; try done; try (by eexists); by intros []).
  destruct (Config.Scanner.StoreEnabled cfg); simpl.
  2: { intros [= <- <-]; simpl. split_and!; try done; split; try done; try (by eexists); by intros []. }
  destruct (NewStore _ _) as [st|]; intros [= <- <-]; simpl; split_and!; try done; split; try done; try (by eexists); by intros [].
Qed.

Lemma Validate_services c c' :
  Config.Scanner.Validate c = Some c' -> exists threads burst interval pstart pend,
    c' = Config.Scanner.set_limits c threads burst interval pstart pend /\ 1 <= threads /\ 1 <= burst /\ Millisecond <= interval.
Proof.
  intros Hv. pose proof (Config.Scanner.Validate_result _ _ Hv) as (_ & Hb & Ht & Hi & _). revert Hv Hb Ht Hi.
  unfold Config.Scanner.Validate. destruct (_ && _); [done|]. intros [= <-]. simpl. intros. by eexists _, _, _, _, _.
Qed.

(** C33: the scan of new nodes runs only when it has what it needs.  Then the
    flags of the broker, the cache and the store are all set with their
    credentials; these are the ones the services accepted, the broker's id is
    the user name; and the controller has threads, a burst and an interval,
    so that no thread divides by zero. *)
Theorem runEventScanner_result ctx app :
  runEventScanner ctx = inr app ->
  (IsSet ctx Scanner.brokerEnabled && Bool_ ctx Scanner.brokerEnabled &&
   IsSet ctx Scanner.brokerUser && IsSet ctx Scanner.brokerPassword && IsSet ctx Scanner.brokerEndpoint = true /\
   Dial (String_ ctx Scanner.brokerEndpoint) (String_ ctx Scanner.brokerUser) (String_ ctx Scanner.brokerPassword) = true /\
   is_Some (broker app)) /\
  (IsSet ctx Scanner.cacheEnabled && Bool_ ctx Scanner.cacheEnabled &&
   IsSet ctx Scanner.cacheEndpoint && IsSet ctx Scanner.cachePassword = true /\
   PingCache (String_ ctx Scanner.cacheEndpoint) (String_ ctx Scanner.cachePassword) = true /\ cache app = true) /\
  (IsSet ctx Scanner.dbEnabled && Bool_ ctx Scanner.dbEnabled &&
   IsSet ctx Scanner.dbSource && IsSet ctx Scanner.dbMigrationUrl = true /\
   is_Some (store app) /\ store app = NewStore (String_ ctx Scanner.dbSource) (String_ ctx Scanner.dbMigrationUrl)) /\
  1 <= Scanner.maxBurst (app_controller app) /\ Millisecond <= Scanner.maxFrequency (app_controller app) /\
  exists l, Scanner.scanner_limits (app_controller app) = Ok l.
Proof.
  unfold runEventScanner. destruct (Config.Scanner.Parse _ _ _) as [cfg ok] eqn:Hp. destruct ok; [|done]. simpl.
  destruct (Config.Scanner.Validate cfg) as [cfg'|] eqn:Hv; [|done].
  destruct (Setup (NewScanApp cfg')) as [app' [e|]] eqn:Hs; [done|]. intros [= <-].
  apply Config.Scanner.Parse_result in Hp as (_ & _ & Hb & Hd & Hc).
  apply Validate_services in Hv as (th & bu & iv & ps & pe & -> & Hth & Hbu & Hiv).
  apply Setup_result in Hs; [|done..]. simpl in Hs. destruct Hs as (Hcfg & H1 & H2 & H3 & H4).
  destruct (H4 eq_refl) as [Hall Hst]. rewrite !andb_true_iff in Hall. destruct Hall as [[[Hbe Hdial] [Hce Hping]] Hse].
  destruct (IsSet ctx Scanner.brokerEnabled); [destruct Hb as [Hbf [= Hb1 Hb2 Hb3 Hb4]]|by injection Hb as Hb1; congruence].
  destruct (IsSet ctx Scanner.cacheEnabled); [destruct Hc as [Hcf [= Hc1 Hc2 Hc3]]|by injection Hc as Hc1; congruence].
  destruct (IsSet ctx Scanner.dbEnabled); [destruct Hd as [Hdf [= Hd1 Hd2 Hd3]]|by injection Hd as Hd1; congruence].
  apply andb_true_iff in Hbf as [[? ?]%andb_true_iff ?], Hcf as [? ?], Hdf as [? ?].
  assert (Hdial' := Hdial). assert (Hping' := Hping). rewrite Hb2, Hb3, Hb4 in Hdial'. rewrite Hc2, Hc3 in Hping'.
  split_and!; rewrite ?andb_true_iff; simpl; try assumption; try (by split_and!; congruence).
  - apply H1. by rewrite Hbe, Hdial.
  - apply H2. by rewrite Hbe, Hdial, Hce, Hping.
  - by apply H3.
  - by rewrite Hst, Hd2, Hd3.
  - by unfold app_controller; rewrite Hcfg.
  - by unfold app_controller; rewrite Hcfg.
  - unfold Scanner.scanner_limits, app_controller, div_i64. rewrite Hcfg. simpl.
    rewrite decide_False by lia. by eexists.
Qed.

End ScanApp.

(** ** cli.go: [IpScan] *)

Section IpScan.
Context (ParseIP : string -> option IP) (gomaxprocs : Z).

Inductive ip_error : Set := BadIpFlags | NoIps.

(** The command up to its goroutines: what each of them scans, and the
    controller.  The configuration is not validated. *)
Definition runIpScanner (ctx : Config.Context) : ip_error + (Scanner.ScannerController * list Scanner.scanItem) :=
  let '(cfg, ok) := Config.Scanner.Parse ParseIP ctx (Config.Scanner.DefaultConfig gomaxprocs) in
  if negb ok then inl BadIpFlags
  else if decide (length (Config.Scanner.Ips cfg) = 0%nat) then inl NoIps
  else inr (Scanner.NewScannerController (Config.Scanner.Threads cfg) (Config.Scanner.Burst cfg) (Config.Scanner.Interval cfg),
            map (fun ip => Scanner.mkItem ip (u16 (Config.Scanner.PortStart cfg)) (u16 (Config.Scanner.PortEnd cfg)))
              (Config.Scanner.Ips cfg)).

(** The flags of the ports have no effect: all of them are scanned. *)
Lemma runIpScanner_all_ports ctx c items :
  runIpScanner ctx = inr (c, items) ->
  items <> [] /\ Forall (fun i => Scanner.PortStart i = 0 /\ Scanner.PortEnd i = Scanner.MaxTcpPort) items.
Proof.
  unfold runIpScanner. destruct (Config.Scanner.Parse _ _ _) as [cfg ok] eqn:Hp. destruct ok; [|done]. simpl.
  apply Config.Scanner.Parse_result in Hp as ((Hs & He & _) & _).
  case_decide as Hl; [done|]. intros [= <- <-]. split; [by destruct (Config.Scanner.Ips cfg)|].
  apply List.Forall_map, Forall_forall. intros ip _. by rewrite Hs, He.
Qed.

(** ** The goroutines of the scan *)

Context {Err : Type} (n : nat).

Inductive scan_error : Type := CtxErr | ScanErr (e : Err).

(** [sent] is what the goroutines sent to [chErrs], in order: the number of
    the address and the error of its scan.  The first [received] of it were
    received; the rest is in the buffer of the channel. *)
Record ip_scan := mkIpScan {
  sent : list (nat * option Err); received : nat; chError : option Err; ret : option (option scan_error); ctx_done : bool }.

Definition new_ip_scan : ip_scan := mkIpScan [] 0 None None false.

Definition chErrs (s : ip_scan) : list (nat * option Err) := drop (received s) (sent s).

Definition take_error (e : option Err) (x : nat * option Err) : option Err :=
  match x.2 with Some e' => Some e' | None => e end.

Definition on_error (x : nat * option Err) (s : ip_scan) : ip_scan :=
  let e := take_error (chError s) x in
  mkIpScan (sent s) (S (received s)) e (if decide (S (received s) = n) then Some (ScanErr <$> e) else None) (ctx_done s).

Inductive ip_step (s : ip_scan) : ip_scan -> Prop :=
| ip_sent k r : (k < n)%nat -> k ∉ (sent s).*1 -> (length (chErrs s) < n)%nat ->
    ip_step s (mkIpScan (sent s ++ [(k, r)]) (received s) (chError s) (ret s) (ctx_done s))
| ip_received x : ret s = None -> head (chErrs s) = Some x -> ip_step s (on_error x s)
| ip_cancelled : ip_step s (mkIpScan (sent s) (received s) (chError s) (ret s) true)
| ip_ctx : ret s = None -> ctx_done s = true ->
    ip_step s (mkIpScan (sent s) (received s) (chError s) (Some (Some CtxErr)) (ctx_done s)).

Record ip_inv (s : ip_scan) : Prop := {
  ii_nodup : NoDup (sent s).*1;
  ii_range : Forall (fun k => k < n)%nat (sent s).*1;
  ii_received : (received s <= length (sent s))%nat;
  ii_error : chError s = fold_left take_error (take (received s) (sent s)) None;
  ii_ret : match ret s with
           | None => (received s < n)%nat
           | Some (Some CtxErr) => ctx_done s = true
           | Some r => received s = n /\ r = ScanErr <$> chError s
           end }.

Lemma sent_length s : ip_inv s -> (length (sent s) <= n)%nat.
Proof.
  intros [H1 H2 _ _ _]. rewrite <- (length_fmap fst), <- (length_seq n 0).
  apply NoDup_incl_length; [by apply NoDup_ListNoDup|]. intros k Hk. apply in_seq.
  rewrite List.Forall_forall in H2. specialize (H2 k Hk). lia.
Qed.

Lemma chErrs_room s k : ip_inv s -> (k < n)%nat -> k ∉ (sent s).*1 -> (length (chErrs s) < n)%nat.
Proof.
  intros Hi Hk Hn. assert (length (sent s) < n)%nat as Hl; [|unfold chErrs; rewrite length_drop; lia].
  destruct Hi as [H1 H2 _ _ _].
  assert (length (k :: (sent s).*1) <= n)%nat as Hlen; [|simpl in Hlen; rewrite length_fmap in Hlen; lia].
  rewrite <- (length_seq n 0). apply NoDup_incl_length; [constructor; [by rewrite <- list_elem_of_In|by apply NoDup_ListNoDup]|].
  intros x [<-|Hx]; apply in_seq; [lia|]. rewrite List.Forall_forall in H2. specialize (H2 x Hx). lia.
Qed.

Lemma ip_step_inv s s' : ip_inv s -> ip_step s s' -> ip_inv s'.
Proof.
  intros Hi Hs. pose proof Hi as [H1 H2 H3 H4 H5]. destruct Hs as [k r Hk Hn Hroom|x Hr Hx| |Hr Hc].
  - constructor; simpl; try done.
    + rewrite fmap_app. by apply NoDup_snoc.
    + rewrite fmap_app. apply Forall_app. by split; [|apply Forall_singleton].
    + rewrite length_app. simpl. lia.
    + by rewrite take_app_le by lia.
  - rewrite Hr in H5. unfold chErrs in Hx.
    assert (sent s !! received s = Some x) as Hl.
    { rewrite <- (Nat.add_0_r (received s)), <- lookup_drop. by destruct (drop _ _). }
    pose proof Hl as Hlt%lookup_lt_Some. constructor; simpl; try done.
    + by rewrite (take_S_r _ _ _ Hl), fold_left_app, <- H4.
    + case_decide; [|lia]. by destruct (take_error _ _).
  - constructor; simpl; try done. destruct (ret s) as [[[|]|]|]; done.
  - by constructor.
Qed.

Lemma ip_reach s : (0 < n)%nat -> rtc ip_step new_ip_scan s -> ip_inv s.
Proof.
  intros Hn Hr. assert (ip_inv new_ip_scan) as Hi by (by constructor; simpl; [constructor..| | |]).
  revert Hi Hr. apply rtc_invariant, ip_step_inv.
Qed.

(** The error that is kept is the last one. *)
Lemma take_error_last (l : list (nat * option Err)) :
  match fold_left take_error l None with
  | None => Forall (fun x => x.2 = None) l
  | Some e => exists l1 k l2, l = (l1 ++ (k, Some e) :: l2)%list /\ Forall (fun x => x.2 = None) l2
  end.
Proof.
  induction l as [|[k [e|]] l IH] using rev_ind; [constructor|..]; rewrite fold_left_app; simpl.
  - exists l, k, []. by split.
  - unfold take_error at 1. simpl. destruct (fold_left _ l None) as [e|].
    + destruct IH as (l1 & k' & l2 & -> & Hf). exists l1, k', (l2 ++ [(k, None)])%list.
      rewrite <- (assoc_L (++)). split; [done|]. apply Forall_app. split; [done|by constructor].
    + apply Forall_app. split; [done|by constructor].
Qed.

(** Every scan that is still under way can send. *)
Lemma ip_all_sent s : ip_inv s -> exists s', rtc ip_step s s' /\ ip_inv s' /\ ret s' = ret s /\ length (sent s') = n.
Proof.
  remember (n - length (sent s))%nat as m eqn:Hm. revert s Hm. induction m as [|m IH]; intros s Hm Hi.
  { exists s. split_and!; [done..|]. pose proof (sent_length s Hi). lia. }
  destruct (decide (Forall (fun k => k ∈ (sent s).*1) (seq 0 n))) as [Hall|Hex].
  { exfalso. assert (n <= length (sent s))%nat; [|lia].
    rewrite <- (length_seq n 0), <- (length_fmap fst). apply NoDup_incl_length; [apply NoDup_ListNoDup, NoDup_seq|].
    intros k Hk. rewrite List.Forall_forall in Hall. by apply list_elem_of_In, Hall. }
  apply not_Forall_Exists in Hex; [|apply _]. apply Exists_exists in Hex as (k & Hk%elem_of_seq & Hn).
  assert (k < n)%nat as Hlt by lia.
  set (s1 := mkIpScan (sent s ++ [(k, None)]) (received s) (chError s) (ret s) (ctx_done s)).
  assert (ip_step s s1) as Hs by (apply ip_sent; [done|done|by eapply chErrs_room]).
  destruct (IH s1) as (s' & Hr & ? & ? & ?); [simpl; rewrite length_app; simpl; lia|by eapply ip_step_inv|].
  exists s'. split_and!; [by eapply rtc_l|done..].
Qed.

Lemma ip_collects s : ip_inv s -> length (sent s) = n -> exists s', rtc ip_step s s' /\ ret s' <> None.
Proof.
  remember (n - received s)%nat as m eqn:Hm. revert s Hm. induction m as [|m IH]; intros s Hm Hi Hl.
  { exists s. split; [done|]. intros Hr. pose proof (ii_ret _ Hi) as H. rewrite Hr in H. lia. }
  destruct (ret s) as [r|] eqn:Hr; [exists s; by rewrite Hr|].
  destruct (lookup_lt_is_Some_2 (sent s) (received s)) as [x Hx]; [lia|].
  assert (ip_step s (on_error x s)) as Hs.
  { apply ip_received; [done|]. unfold chErrs. by rewrite (drop_S _ _ _ Hx). }
  destruct (IH (on_error x s)) as (s' & Hr' & ?); [simpl; lia|by eapply ip_step_inv|done|].
  exists s'. split; [by eapply rtc_l|done].
Qed.


End IpScan.

(** ** Concrete command lines *)

Module Demo.

Definition flags : Config.Context :=
  Config.mkContext (fun _ => true) (fun _ => true) (fun s => s) (fun _ => []) (fun _ => 5) (fun _ => 80) (fun _ => 80).

Definition accepts (endpoint user password : string) : bool := true.

Definition run : event_error + Application (Store := string) :=
  runEventScanner (fun _ => None) accepts (fun _ _ => true) (fun s _ => Some s) 4 flags.
Definition app : Application (Store := string) :=
  match run with inr app => app | inl _ => NewScanApp (Config.Scanner.DefaultConfig 4) end.

Lemma runEventScanner_result_witness : store app = Some "db_source"%string /\ cache app = true.
Proof.
  assert (runEventScanner (fun _ => None) accepts (fun _ _ => true) (fun s _ => Some s) 4 flags = inr app) as Hr
    by (vm_compute; reflexivity).
  destruct (runEventScanner_result _ _ _ _ _ _ _ Hr) as (_ & (_ & _ & Hc) & (_ & _ & Hs) & _).
  split; [exact Hs|exact Hc].
Defined.

(** Two addresses, the second of which fails first. *)
Definition ended : ip_scan (Err := string) :=
  mkIpScan [(1%nat, Some "canceled"%string); (0%nat, None)] 2 (Some "canceled"%string)
    (Some (Some (ScanErr "canceled"%string))) false.

Lemma ended_reachable : rtc (ip_step 2) new_ip_scan ended.
Proof.
  eapply rtc_l; [exact (ip_sent 2 new_ip_scan 1 (Some "canceled"%string) ltac:(lia) (not_elem_of_nil _) ltac:(simpl; lia))|].
  eapply rtc_l; [exact (ip_received 2 (mkIpScan [(1%nat, Some "canceled"%string)] 0 None None false) _ eq_refl eq_refl)|].
  eapply rtc_l; [apply (ip_sent 2 _ 0 None); [lia| |simpl; lia]|].
  { simpl. intros H. apply list_elem_of_singleton in H. discriminate. }
  eapply rtc_l; [exact (ip_received 2 (mkIpScan [(1%nat, Some "canceled"%string); (0%nat, None)] 1
    (Some "canceled"%string) None false) _ eq_refl eq_refl)|apply rtc_refl].
Qed.


End Demo.
