(* ===== verification/Monitor.v ===== *)
(** * crawler/workers/runner/runner.go, base/pool.go, events: the reports of the workers

    A worker that leaves its loop sends its statistics on the pool's feed
    (Feed.v), and the goroutine of [monitorWorkers], the feed's only listener,
    hands them to the runner's callback until the runner (Lifecycle.v) closes
    [done].  Here the runner, the feed and the monitor run beside each other;
    a report is named by the number of the sending goroutine. *)

From stdpp Require Import base list gmap relations.
From Stdlib Require Import ZArith Lia Permutation.
From S2P Require Import Prelude Golang Lifecycle Feed.
Local Open Scope nat_scope.
Local Open Scope outcome_scope.

(** Where [monitorWorkers] is: before [SubscribeJobFeed], at its select, in
    [afterExitWorker] for a report, in the deferred [Unsubscribe] before the
    lock, before the close of its channel and before the unlock. *)
Inductive monitor_pc : Set := MnStart | MnSelect | MnCall (k : nat) | MnLeaving | MnClosing | MnUnlock | MnGone.

(** [reports] of the workers that left have called [Send], for [unheard] of
    them nobody listened; [exits] are the calls of [afterExitWorker] that
    returned. *)
Record monitored := mkMonitored {
  lr : runner; wf : feed; mpc : monitor_pc; reports : nat; unheard : nat; exits : list nat }.

(** The monitor's channel, of the only listener. *)
Definition wfch (i : nat) : nat := i.

Definition new_monitored : monitored := mkMonitored newRunner NewFeed MnStart 0 0 [].

Definition set_lr (s : monitored) r := mkMonitored r (wf s) (mpc s) (reports s) (unheard s) (exits s).
Definition set_wf (s : monitored) f := mkMonitored (lr s) f (mpc s) (reports s) (unheard s) (exits s).
Definition set_mpc (s : monitored) pc := mkMonitored (lr s) (wf s) pc (reports s) (unheard s) (exits s).

(** The end of a worker's goroutine in [spawnWorker]: [workersFeed.Send]. *)
Definition report (s : monitored) : monitored :=
  mkMonitored (lr s) (Send (wf s)) (mpc s) (S (reports s))
    (if (subs (wf s) =? 0)%Z then S (unheard s) else unheard s) (exits s).

(** [runWorkers] has started the goroutine of [monitorWorkers]. *)
Definition monitor_started (r : runner) : bool := match main r with Idle | Adding _ => false | _ => true end.

Inductive monitor_step (s : monitored) : outcome monitored -> Prop :=
| mn_runner o : runner_step (lr s) o -> monitor_step s (r ← o; Ok (set_lr s r))
| mn_report : reports s < ended (lr s) -> monitor_step s (Ok (report s))
| mn_send all :
    spawned (wf s) <> 0 -> closing (wf s) = None -> Permutation all (elements (listeners (wf s))) ->
    monitor_step s (Ok (set_wf s (send (wf s) all)))
| mn_offer s1 k all i todo s2 :
    sending (wf s) = s1 ++ mkSender k all (i :: todo) None :: s2 ->
    monitor_step s (Ok (set_wf s (wrapped_send (wf s) s1 k all i todo s2)))
| mn_receive s1 k all i todo s2 :
    sending (wf s) = s1 ++ mkSender k all todo (Some i) :: s2 -> mpc s = MnSelect \/ wfch i ∈ closed (wf s) ->
    monitor_step s (f ← hand wfch (wf s) s1 k all i todo s2; Ok (set_mpc (set_wf s f) (MnCall k)))
| mn_sent s1 k all s2 :
    sending (wf s) = s1 ++ mkSender k all [] None :: s2 ->
    monitor_step s (Ok (set_wf s (set_sending (wf s) (s1 ++ s2) (log (wf s)))))
| mn_subscribe :
    mpc s = MnStart -> monitor_started (lr s) = true -> unlocked (wf s) ->
    monitor_step s (Ok (set_mpc (set_wf s (Subscribe (wf s) 0)) MnSelect))
| mn_called k :
    mpc s = MnCall k ->
    monitor_step s (Ok (mkMonitored (lr s) (wf s) MnSelect (reports s) (unheard s) (exits s ++ [k])))
| mn_leave : mpc s = MnSelect -> done_closed (lr s) = true -> monitor_step s (Ok (set_mpc s MnLeaving))
| mn_unsubscribe :
    mpc s = MnLeaving -> unlocked (wf s) ->
    monitor_step s (Ok (set_mpc (set_wf s (Unsubscribe (wf s) 0)) MnClosing))
| mn_close i todo :
    mpc s = MnClosing -> closing (wf s) = Some (i :: todo) -> i ∈ done_ (wf s) \/ tasks (wf s) i = 0 ->
    monitor_step s (f ← wrapped_close wfch (wf s) i todo; Ok (set_mpc (set_wf s f) MnUnlock))
| mn_unlock :
    mpc s = MnUnlock -> closing (wf s) = Some [] ->
    monitor_step s (Ok (set_mpc (set_wf s (set_closing (wf s) None (done_ (wf s)) (closed (wf s)))) MnGone)).

Definition monitor_ok (s s' : monitored) : Prop := monitor_step s (Ok s').

(** ** The invariant *)

Definition listening (pc : monitor_pc) : bool := match pc with MnSelect | MnCall _ | MnLeaving => true | _ => false end.
Definition current (pc : monitor_pc) : list nat := match pc with MnCall k => [k] | _ => [] end.

(** The reports that reached the monitor. *)
Definition told (s : monitored) : list nat := exits s ++ current (mpc s).

Record mon_inv (s : monitored) : Prop := {
  mi_runner : runner_inv (lr s);
  mi_feed : feed_inv wfch (wf s);
  mi_listeners : listeners (wf s) = if listening (mpc s) then {[0]} else ∅;
  mi_subs : subs (wf s) = if listening (mpc s) then 1%Z else 0%Z;
  mi_start : mpc s = MnStart -> known (wf s) = ∅ /\ spawned (wf s) = 0 /\ next_send (wf s) = 0;
  mi_stopped : stopped (wf s) = false;
  mi_closing : closing (wf s) = match mpc s with MnClosing => Some [0] | MnUnlock => Some [] | _ => None end;
  mi_log : (log (wf s)).*1 = told s;
  mi_nodup : NoDup (told s);
  mi_sent : listening (mpc s) = true -> forall k, k < next_send (wf s) -> k ∈ told s \/ k ∈ map sd_id (sending (wf s));
  mi_count : reports s = unheard s + spawned (wf s) + next_send (wf s);
  mi_reports : reports s <= ended (lr s) }.

Lemma wfch_inj : Inj (=) (=) wfch.
Proof. by intros x y. Qed.

Lemma new_monitored_inv : mon_inv new_monitored.
Proof. constructor; try done; try apply NoDup_nil_2. apply NewFeed_inv. Qed.

(** While the monitor listens every sender has its channel alone to serve. *)
Lemma listening_sender s sd :
  mon_inv s -> listening (mpc s) = true -> sd ∈ sending (wf s) -> sd_all sd = [0].
Proof.
  intros Hi Hl Hs. destruct (fi_senders _ _ (mi_feed _ Hi) _ Hs) as [Ha _].
  rewrite (mi_listeners _ Hi), Hl, elements_singleton in Ha. by apply Permutation_singleton_r in Ha.
Qed.

(** Otherwise it has none. *)
Lemma deaf_sender s sd :
  mon_inv s -> listening (mpc s) = false -> sd ∈ sending (wf s) -> sd_at sd = None /\ sd_todo sd = [].
Proof.
  intros Hi Hl Hs. destruct (fi_senders _ _ (mi_feed _ Hi) _ Hs) as [Ha Hp].
  rewrite (mi_listeners _ Hi), Hl, elements_empty in Ha. apply Permutation_nil_r in Ha. rewrite Ha in Hp.
  symmetry in Hp. apply app_nil in Hp as [_ [Hp ?]%app_nil]. split; [by destruct (sd_at sd)|done].
Qed.

(** A report was told exactly when its log is not empty. *)
Lemma told_handed s k : mon_inv s -> k ∈ told s <-> handed (log (wf s)) k <> [].
Proof.
  intros Hi. rewrite <- (mi_log _ Hi). unfold handed. split.
  - intros ([k' i] & -> & Hin)%list_elem_of_fmap Hn. apply fmap_nil_inv in Hn.
    assert ((k', i) ∈ filter (fun e => e.1 = k') (log (wf s))) as He by (by apply list_elem_of_filter).
    simpl in *. rewrite Hn in He. by apply elem_of_nil in He.
  - intros Hn. destruct (filter _ _) as [|e l] eqn:Ef; [done|].
    assert (e ∈ filter (fun e => e.1 = k) (log (wf s))) as He by (rewrite Ef; left).
    apply list_elem_of_filter in He as [<- He]. by apply list_elem_of_fmap_2.
Qed.

(** While the monitor listens, a sender's report was told exactly when it is
    done. *)
Lemma sender_told s sd :
  mon_inv s -> listening (mpc s) = true -> sd ∈ sending (wf s) ->
  sd_id sd ∈ told s <-> sd_at sd = None /\ sd_todo sd = [].
Proof.
  intros Hi Hl Hs. rewrite told_handed by done.
  pose proof (so_progress _ _ (fi_senders _ _ (mi_feed _ Hi) _ Hs)) as Hp.
  rewrite (listening_sender s sd Hi Hl Hs) in Hp.
  destruct (handed (log (wf s)) (sd_id sd)) as [|x l].
  - split; [done|]. by intros [Ha Ht]; rewrite Ha, Ht in Hp.
  - split; [|done]. intros _. simpl in Hp. injection Hp as _ Hp. symmetry in Hp.
    apply app_nil in Hp as [_ [Hp ?]%app_nil]. split; [by destruct (sd_at sd)|done].
Qed.

(** ** Every step succeeds and keeps the invariant *)

(** The steps of the feed that the monitored system takes keep its invariant. *)
Lemma wf_step f f' : feed_inv wfch f -> feed_ok wfch (fun _ => True) f f' -> feed_inv wfch f'.
Proof. apply feed_step_inv. Qed.

Lemma runner_ended r r' : runner_step r (Ok r') -> ended r <= ended r'.
Proof.
  intros Hs. inversion Hs as [o Ho Heq|n Hm Heq|Heq|Heq]; subst; simpl; try done.
  - inversion Ho as [| | | |Hm Hr|Hm Hr|Hm|w Hw Hr|l Hl Hc Hr]; subst; simpl; try done;
      unfold close_done, release, begin_job, end_job in Hr; [by destruct (done_closed r); simplify_eq/=|..];
      destruct (wg_Add _ _) as [x|] eqn:Ex || destruct (wg_Done _) as [x|] eqn:Ex; try done;
      injection Hr as <-; simpl; lia.
  - unfold Start in Heq. destruct (wg_Add _ _); [|done]. by injection Heq as <-.
  - unfold Lifecycle.Stop. by case_match.
Qed.

Lemma runner_keeps s o :
  mon_inv s -> runner_step (lr s) o -> exists r, o ⇓ r /\ mon_inv (set_lr s r).
Proof.
  intros [] Hs. destruct (runner_step_inv _ _ mi_runner0 Hs) as (r & -> & Hr). exists r. split; [done|].
  apply runner_ended in Hs. constructor; try done. simpl in *. lia.
Qed.

Lemma report_keeps s : mon_inv s -> reports s < ended (lr s) -> mon_inv (report s).
Proof.
  intros [] Hlt. assert (feed_inv wfch (Send (wf s))) as Hf by (eapply wf_step; [done|apply fd_Send]).
  unfold report, Send in *. destruct (subs (wf s) =? 0)%Z eqn:E; constructor; try done; simpl; try lia.
  intros Hst. rewrite mi_subs0, Hst in E. done.
Qed.

Lemma send_keeps s all :
  mon_inv s -> spawned (wf s) <> 0 -> closing (wf s) = None -> Permutation all (elements (listeners (wf s))) ->
  mon_inv (set_wf s (send (wf s) all)).
Proof.
  intros [] Hn Hc Hp. assert (feed_inv wfch (send (wf s) all)) as Hf by (eapply wf_step; [done|by apply fd_send]).
  constructor; try done; simpl.
  - intros Hst. by destruct (mi_start0 Hst) as (_ & ? & _).
  - intros Hl k Hk. rewrite map_app, elem_of_app. simpl. rewrite list_elem_of_singleton.
    destruct (decide (k = next_send (wf s))) as [->|]; [by right; right|].
    destruct (mi_sent0 Hl k); [lia|by left|by right; left].
  - lia.
Qed.

(** A sender that moves keeps its number. *)
Lemma set_sending_keeps s s1 sd sd' s2 :
  mon_inv s -> sending (wf s) = s1 ++ sd :: s2 -> sd_id sd' = sd_id sd ->
  feed_inv wfch (set_sending (wf s) (s1 ++ sd' :: s2) (log (wf s))) ->
  mon_inv (set_wf s (set_sending (wf s) (s1 ++ sd' :: s2) (log (wf s)))).
Proof.
  intros [] Hs Hid Hf. constructor; try done. simpl. intros Hl k Hk. specialize (mi_sent0 Hl k Hk).
  rewrite Hs, map_app in mi_sent0. rewrite map_app. simpl in *. by rewrite Hid.
Qed.

Lemma offer_keeps s s1 k all i todo s2 :
  mon_inv s -> sending (wf s) = s1 ++ mkSender k all (i :: todo) None :: s2 ->
  mon_inv (set_wf s (wrapped_send (wf s) s1 k all i todo s2)).
Proof.
  intros Hi Hs. pose proof (wrapped_send_inv _ _ _ _ _ _ _ _ (mi_feed _ Hi) Hs) as Hf. unfold wrapped_send in *.
  case_decide as Hd; [by eapply sender_next in Hd; [|apply (mi_feed _ Hi)|exact Hs]|].
  by eapply set_sending_keeps.
Qed.

Lemma receive_keeps s s1 k all i todo s2 :
  mon_inv s -> sending (wf s) = s1 ++ mkSender k all todo (Some i) :: s2 -> mpc s = MnSelect \/ wfch i ∈ closed (wf s) ->
  exists f, hand wfch (wf s) s1 k all i todo s2 ⇓ f /\ mon_inv (set_mpc (set_wf s f) (MnCall k)).
Proof.
  intros Hi Hs Hr. pose proof (hand_ok _ _ _ _ _ _ _ _ (mi_feed _ Hi) wfch_inj Hs) as Hc.
  destruct Hr as [Hm|]; [|done]. unfold hand. rewrite decide_False by done. eexists. split; [reflexivity|].
  pose proof (hand_inv _ _ _ _ _ _ _ _ (mi_feed _ Hi) Hs) as Hf.
  assert (k ∉ told s) as Hk.
  { intros Hk. apply (sender_told s (mkSender k all todo (Some i))) in Hk; [naive_solver|done|by rewrite Hm|].
    rewrite Hs. set_solver. }
  assert (told (set_mpc (set_wf s (set_sending (wf s) (s1 ++ mkSender k all todo None :: s2) (log (wf s) ++ [(k, i)])))
            (MnCall k)) = told s ++ [k]) as Ht by (unfold told; rewrite Hm; simpl; by rewrite app_nil_r).
  destruct Hi. rewrite Hm in *. constructor; try done; rewrite ?Ht; simpl.
  - rewrite fmap_app, mi_log0. done.
  - apply NoDup_app. split_and!; [done| |apply NoDup_singleton]. intros j Hj ->%list_elem_of_singleton. done.
  - intros _ j Hj. specialize (mi_sent0 eq_refl j Hj). rewrite Hs, map_app in mi_sent0. rewrite map_app. set_solver.
Qed.

Lemma sent_keeps s s1 k all s2 :
  mon_inv s -> sending (wf s) = s1 ++ mkSender k all [] None :: s2 ->
  mon_inv (set_wf s (set_sending (wf s) (s1 ++ s2) (log (wf s)))).
Proof.
  intros Hi Hs. pose proof (finish_inv _ _ _ _ _ (mi_feed _ Hi) Hs) as Hf. pose proof (sender_told s) as Ht.
  destruct Hi as [? ? ? ? ? ? ? ? ? Hsent ? ?]. constructor; try done. simpl. intros Hl j Hj.
  destruct (Hsent Hl j Hj) as [?|Hin]; [by left|]. rewrite Hs, map_app in Hin. rewrite map_app.
  simpl in Hin. rewrite elem_of_app, elem_of_cons in Hin. rewrite elem_of_app. destruct Hin as [?|[->|?]]; [by auto| |by auto].
  left. change (sd_id (mkSender k all [] None) ∈ told s). apply Ht; [by constructor|done|rewrite Hs; set_solver|done].
Qed.

Lemma subscribe_keeps s :
  mon_inv s -> mpc s = MnStart -> unlocked (wf s) -> mon_inv (set_mpc (set_wf s (Subscribe (wf s) 0)) MnSelect).
Proof.
  intros Hi Hm Hu. destruct (mi_start _ Hi Hm) as (Hk & Hsp & Hn).
  pose proof (Subscribe_inv _ _ 0 (mi_feed _ Hi) Hu ltac:(rewrite Hk; apply not_elem_of_empty)) as Hf.
  destruct Hi. unfold told in *. rewrite Hm in *. unfold Subscribe in *. rewrite mi_stopped0 in *.
  constructor; try done; simpl.
  - rewrite mi_listeners0. apply (right_id_L ∅ (∪)).
  - by rewrite mi_subs0.
  - intros _ k Hk'. lia.
Qed.

Lemma called_keeps s k :
  mon_inv s -> mpc s = MnCall k -> mon_inv (mkMonitored (lr s) (wf s) MnSelect (reports s) (unheard s) (exits s ++ [k])).
Proof.
  intros Hi Hm. assert (told (mkMonitored (lr s) (wf s) MnSelect (reports s) (unheard s) (exits s ++ [k])) = told s) as Ht
    by (unfold told; rewrite Hm; simpl; by rewrite app_nil_r).
  destruct Hi. rewrite Hm in *. constructor; rewrite ?Ht; done.
Qed.

Lemma leave_keeps s : mon_inv s -> mpc s = MnSelect -> mon_inv (set_mpc s MnLeaving).
Proof.
  intros Hi Hm. assert (told (set_mpc s MnLeaving) = told s) as Ht by (unfold told; by rewrite Hm).
  destruct Hi. rewrite Hm in *. constructor; rewrite ?Ht; done.
Qed.

Lemma unsubscribe_keeps s :
  mon_inv s -> mpc s = MnLeaving -> unlocked (wf s) -> mon_inv (set_mpc (set_wf s (Unsubscribe (wf s) 0)) MnClosing).
Proof.
  intros Hi Hm Hu. pose proof (Unsubscribe_inv _ _ 0 (mi_feed _ Hi) Hu) as Hf.
  destruct Hi. unfold told in *. rewrite Hm in *. unfold Unsubscribe in *.
  rewrite decide_True in * by (rewrite mi_listeners0; set_solver).
  constructor; try done; simpl; rewrite ?mi_listeners0, ?mi_subs0; [set_solver|done].
Qed.

Lemma close_keeps s i todo :
  mon_inv s -> mpc s = MnClosing -> closing (wf s) = Some (i :: todo) ->
  exists f, wrapped_close wfch (wf s) i todo ⇓ f /\ mon_inv (set_mpc (set_wf s f) MnUnlock).
Proof.
  intros Hi Hm Hc. pose proof (close_inv _ _ _ _ (mi_feed _ Hi) Hc) as Hf.
  destruct (fi_closing _ _ (mi_feed _ Hi) _ Hc) as [_ Hl]. destruct (Hl i ltac:(by left)) as [Hd _].
  unfold wrapped_close. rewrite decide_False by done. rewrite decide_False.
  2: { rewrite (fi_closed _ _ (mi_feed _ Hi)). intros (j & Hj & ?)%elem_of_map. by apply wfch_inj in Hj as <-. }
  eexists. split; [reflexivity|]. destruct Hi. unfold told in *. rewrite Hm in *. rewrite mi_closing0 in Hc.
  injection Hc as <- <-. constructor; done.
Qed.

Lemma unlock_keeps s :
  mon_inv s -> mpc s = MnUnlock -> closing (wf s) = Some [] ->
  mon_inv (set_mpc (set_wf s (set_closing (wf s) None (done_ (wf s)) (closed (wf s)))) MnGone).
Proof.
  intros Hi Hm Hc. pose proof (wf_step _ _ (mi_feed _ Hi) (fd_unlock _ (fun _ => True) _ Hc)) as Hf.
  destruct Hi. unfold told in *. rewrite Hm in *. by constructor.
Qed.

Lemma monitor_step_inv s o : mon_inv s -> monitor_step s o -> exists s', o ⇓ s' /\ mon_inv s'.
Proof.
  intros Hi Hs. destruct Hs as [o Ho| | | |? ? ? ? ? ? Hs Hr| | | | | |? ? Hm Hc _|].
  - destruct (runner_keeps s o Hi Ho) as (r & -> & Hr). by exists (set_lr s r).
  - eauto using report_keeps.
  - eauto using send_keeps.
  - eauto using offer_keeps.
  - destruct (receive_keeps _ _ _ _ _ _ _ Hi Hs Hr) as (f & -> & Hf). by eexists.
  - eauto using sent_keeps.
  - eauto using subscribe_keeps.
  - eauto using called_keeps.
  - eauto using leave_keeps.
  - eauto using unsubscribe_keeps.
  - destruct (close_keeps _ _ _ Hi Hm Hc) as (f & -> & Hf). by eexists.
  - eauto using unlock_keeps.
Qed.

Lemma monitor_ok_inv s s' : mon_inv s -> monitor_ok s s' -> mon_inv s'.
Proof. intros Hi Hs. destruct (monitor_step_inv _ _ Hi Hs) as (x & [= <-] & Hx). done. Qed.

Lemma monitored_inv s : rtc monitor_ok new_monitored s -> mon_inv s.
Proof. intros Hr. run_invariant monitor_ok_inv. apply new_monitored_inv. Qed.

(** ** The reports are told once *)

Lemma told_bound s k : mon_inv s -> k ∈ told s -> k < next_send (wf s).
Proof.
  intros Hi. rewrite <- (mi_log _ Hi). intros (e & -> & He)%list_elem_of_fmap.
  by apply (fi_log _ _ (mi_feed _ Hi)).
Qed.

Lemma told_length s : mon_inv s -> length (told s) + unheard s <= reports s.
Proof.
  intros Hi. assert (length (told s) <= length (seq 0 (next_send (wf s)))) as Hl.
  { apply submseteq_length, NoDup_submseteq; [apply (mi_nodup _ Hi)|].
    intros k Hk. apply elem_of_seq. pose proof (told_bound _ _ Hi Hk). lia. }
  rewrite length_seq in Hl. rewrite (mi_count _ Hi). lia.
Qed.

(** Nothing of the feed is under way. *)
Definition settled (s : monitored) : Prop := spawned (wf s) = 0 /\ sending (wf s) = [].

Lemma settled_told s : mon_inv s -> listening (mpc s) = true -> settled s -> length (told s) + unheard s = reports s.
Proof.
  intros Hi Hl [Hsp Hse]. pose proof (told_length _ Hi) as Hle.
  assert (length (seq 0 (next_send (wf s))) <= length (told s)) as Hge.
  { apply submseteq_length, NoDup_submseteq; [apply NoDup_seq|]. intros k [_ Hk]%elem_of_seq.
    destruct (mi_sent _ Hi Hl k Hk) as [?|Hin]; [done|]. rewrite Hse in Hin. by apply elem_of_nil in Hin. }
  rewrite length_seq in Hge. rewrite (mi_count _ Hi) in *. lia.
Qed.

(** ** The monitor serves *)

(** The work that is left: each step of the senders and the return of the
    callback take some of it away. *)
Definition sender_work (sd : sender) : nat :=
  1 + 3 * length (sd_todo sd) + match sd_at sd with Some _ => 2 | None => 0 end.
Definition work (s : monitored) : nat :=
  5 * spawned (wf s) + sum_list_with sender_work (sending (wf s)) + length (current (mpc s)).

(** What the runner and the workers see of a state. *)
Definition outside (s : monitored) : runner * nat * nat := (lr s, reports s, unheard s).

Definition serving (s : monitored) : Prop := mpc s = MnSelect \/ exists k, mpc s = MnCall k.

Lemma serving_listens s : serving s -> listening (mpc s) = true.
Proof. by intros [->|[k ->]]. Qed.

(** A serving monitor or a sender can always move. *)
Lemma serve_step s :
  mon_inv s -> serving s -> work s <> 0 ->
  exists s', monitor_ok s s' /\ serving s' /\ outside s' = outside s /\ work s' < work s.
Proof.
  intros Hi Hv Hw. pose proof (serving_listens _ Hv) as Hl. destruct Hv as [Hm|[k Hm]].
  2: { eexists. split; [by apply (mn_called _ k)|]. split; [by left|]. split; [done|]. unfold work. rewrite Hm. simpl. lia. }
  pose proof (mi_closing _ Hi) as Hc. rewrite Hm in Hc.
  destruct (sending (wf s)) as [|[k all todo at_] s2] eqn:Hs.
  - unfold work in Hw. rewrite Hs, Hm in Hw. simpl in Hw.
    eexists. split; [apply (mn_send s (elements (listeners (wf s)))); [lia|done|done]|].
    split; [by left|]. split; [done|]. unfold work. simpl. rewrite Hm, Hs, (mi_listeners _ Hi), Hl, elements_singleton. simpl. lia.
  - destruct at_ as [i|].
    + pose proof (mn_receive s [] k all i todo s2 Hs (or_introl Hm)) as Hst.
      unfold hand in Hst. rewrite decide_False in Hst by (eapply (hand_ok _ _ []); [apply (mi_feed _ Hi)|apply wfch_inj|exact Hs]).
      eexists. split; [exact Hst|]. split; [right; by exists k|]. split; [done|].
      unfold work. rewrite Hs, Hm. simpl. lia.
    + destruct todo as [|i todo].
      * eexists. split; [by apply (mn_sent s [] k all s2)|]. split; [by left|]. split; [done|].
        unfold work. rewrite Hs. simpl. lia.
      * eexists. split; [by apply (mn_offer s [] k all i todo s2)|]. unfold wrapped_send.
        rewrite decide_False by (by eapply (sender_next _ _ []); [apply (mi_feed _ Hi)|exact Hs]).
        split; [by left|]. split; [done|]. unfold work. rewrite Hs. simpl. lia.
Qed.

Lemma serve_all s :
  mon_inv s -> serving s -> exists s', rtc monitor_ok s s' /\ serving s' /\ outside s' = outside s /\ work s' = 0.
Proof.
  remember (work s) as n eqn:En. revert s En. induction n as [n IH] using lt_wf_ind. intros s -> Hi Hv.
  destruct (decide (work s = 0)) as [Hw|Hw]; [by exists s|].
  destruct (serve_step s Hi Hv Hw) as (s1 & Hs & Hv1 & Ho & Hlt).
  destruct (IH _ Hlt s1 eq_refl (monitor_ok_inv _ _ Hi Hs) Hv1) as (s' & Hr & Hv' & Ho' & Hw').
  exists s'. split; [by eapply rtc_l|]. by rewrite Ho'.
Qed.

Lemma work_settled s : work s = 0 -> settled s.
Proof. unfold work, settled. destruct (sending (wf s)); simpl; [|lia]. split; [lia|done]. Qed.

(** ** The monitor leaves *)

(** The monitor no longer receives, and a sender is still on its way to it. *)
Definition stuck (s : monitored) : Prop :=
  mpc s = MnLeaving /\ exists sd, sd ∈ sending (wf s) /\ sd_id sd ∉ told s.

Lemma monitor_stuck_step s s' : mon_inv s -> stuck s -> monitor_ok s s' -> stuck s'.
Proof.
  intros Hi (Hm & sd & Hin & Hn) Hs. pose proof (sender_told s) as Ht. unfold monitor_ok in Hs.
  assert (~ unlocked (wf s)) as Hu by (intros [He _]; rewrite He in Hin; by apply elem_of_nil in Hin).
  inversion Hs as [o Ho Heq| |all| s1 k all i todo s2 Hsd| s1 k all i todo s2 Hsd Hr Heq|s1 k all s2 Hsd| | | | | |]; subst; try congruence.
  - destruct o as [r|]; [|done]. injection Heq as <-. by split; [|exists sd].
  - split; [done|]. exists sd. split; [|done]. unfold report, Send. simpl. by case_match.
  - split; [done|]. exists sd. split; [|done]. simpl. set_solver.
  - unfold wrapped_send. rewrite decide_False by (by eapply sender_next; [apply (mi_feed _ Hi)|exact Hsd]).
    rewrite Hsd in Hin. split; [done|]. simpl. apply elem_of_app in Hin as [?|[->|?]%elem_of_cons].
    + exists sd. split; [set_solver|done].
    + exists (mkSender k all todo (Some i)). split; [set_solver|done].
    + exists sd. split; [set_solver|done].
  - destruct Hr as [?|Hc]; [congruence|]. by apply (hand_ok _ _ _ _ _ _ _ _ (mi_feed _ Hi) wfch_inj Hsd) in Hc.
  - split; [done|]. exists sd. split; [|done]. simpl. rewrite Hsd in Hin.
    apply elem_of_app in Hin as [?|[->|?]%elem_of_cons]; [set_solver| |set_solver].
    exfalso. apply Hn, Ht; [done|by rewrite Hm|rewrite Hsd; set_solver|done].
Qed.

Lemma stuck_stays s s' : mon_inv s -> stuck s -> rtc monitor_ok s s' -> mpc s' = MnLeaving.
Proof.
  intros Hi Hs Hr. induction Hr as [x|x y z Hxy Hr IH]; [by destruct Hs|].
  apply IH; [by eapply monitor_ok_inv|by eapply monitor_stuck_step].
Qed.

(** With every sender done the locks are given back. *)
Lemma senders_finish s :
  mon_inv s -> (forall sd, sd ∈ sending (wf s) -> sd_at sd = None /\ sd_todo sd = []) ->
  exists s', rtc monitor_ok s s' /\ sending (wf s') = [] /\ mpc s' = mpc s.
Proof.
  intros Hi Hd. remember (sending (wf s)) as l eqn:El. revert s Hi El Hd.
  induction l as [|[k all todo at_] l IH]; intros s Hi El Hd; [by exists s|].
  destruct (Hd (mkSender k all todo at_)) as [Ha Ht]; [by left|]. simpl in *. subst.
  pose proof (mn_sent s [] k all l (eq_sym El)) as Hs.
  destruct (IH _ (monitor_ok_inv _ _ Hi Hs) eq_refl) as (s' & Hr & He & Hm); [intros sd Hin; apply Hd; by right|].
  exists s'. split; [by eapply rtc_l|done].
Qed.

Lemma leave_unlocked s :
  mon_inv s -> mpc s = MnLeaving -> sending (wf s) = [] -> exists s', rtc monitor_ok s s' /\ mpc s' = MnGone.
Proof.
  intros Hi Hm Hs. assert (unlocked (wf s)) as Hu by (split; [done|by rewrite (mi_closing _ Hi), Hm]).
  pose proof (mn_unsubscribe _ Hm Hu) as H1. pose proof (monitor_ok_inv _ _ Hi H1) as Hi1.
  set (s1 := set_mpc _ _) in *. pose proof (mi_closing _ Hi1) as Hc1. simpl in Hc1.
  assert (tasks (wf s1) 0 = 0) as Ht.
  { unfold tasks, s1. simpl. unfold Unsubscribe. by case_decide; simpl; rewrite Hs. }
  pose proof (mn_close s1 0 [] eq_refl Hc1 (or_intror Ht)) as H2.
  destruct (close_keeps s1 0 [] Hi1 eq_refl Hc1) as (f & Hf & Hi2). rewrite Hf in H2. simpl in H2.
  pose proof (mn_unlock (set_mpc (set_wf s1 f) MnUnlock) eq_refl (mi_closing _ Hi2)) as H3.
  eexists. split; [eapply rtc_l; [exact H1|]; eapply rtc_l; [exact H2|]; apply rtc_once, H3|done].
Qed.

(** C30: Runner, feed and monitor beside each other never panic, and the
    report of a worker is given to the callback at most once.  As long as the
    monitor serves, the reports that were sent can all be delivered without any help of the
    runner, and then each that found the monitor subscribed was given to the
    callback once.  A monitor that left its loop can end if and only if every
    sender at work has delivered; otherwise it waits for the lock forever. *)
Theorem monitor_reports s :
  rtc monitor_ok new_monitored s ->
  (forall p, ~ monitor_step s (Panic p)) /\
  NoDup (told s) /\ length (told s) + unheard s <= reports s <= ended (lr s) /\
  (serving s ->
    exists s', rtc monitor_ok s s' /\ serving s' /\ outside s' = outside s /\ settled s' /\
      length (told s') + unheard s = reports s) /\
  (mpc s = MnLeaving ->
    (exists s', rtc monitor_ok s s' /\ mpc s' = MnGone) <-> forall sd, sd ∈ sending (wf s) -> sd_id sd ∈ told s).
Proof.
  intros Hi%monitored_inv. split_and!.
  - intros p Hs. by destruct (monitor_step_inv _ _ Hi Hs) as (? & ? & _).
  - apply (mi_nodup _ Hi).
  - by apply told_length.
  - apply (mi_reports _ Hi).
  - intros Hv. destruct (serve_all s Hi Hv) as (s' & Hr & Hv' & Ho & Hw%work_settled). exists s'. split_and!; try done.
    assert (mon_inv s') as Hi' by (revert Hi Hr; apply rtc_invariant, monitor_ok_inv).
    pose proof (settled_told s' Hi' (serving_listens _ Hv') Hw) as Ht. injection Ho as _ E1 E2. by rewrite <- E1, <- E2.
  - intros Hm. split.
    + intros (s' & Hr & Hg) sd Hin. destruct (decide (sd_id sd ∈ told s)) as [|Hn]; [done|].
      assert (mpc s' = MnLeaving) by (apply (stuck_stays s); [done|split; [done|by exists sd]|done]). congruence.
    + intros Ha. destruct (senders_finish s Hi) as (s1 & Hr1 & He & Hm1).
      { intros sd Hin. apply (sender_told s); [done|by rewrite Hm|done|by apply Ha]. }
      assert (mon_inv s1) as Hi1 by (revert Hi Hr1; apply rtc_invariant, monitor_ok_inv).
      destruct (leave_unlocked s1 Hi1) as (s' & Hr & Hg); [congruence|done|]. exists s'. split; [by etransitivity|done].
Qed.

(** ** A worker that leaves while its runner is stopped *)

Module Demo.

Definition idle : runner := mkRunner 1 AtSig false false true 0 0 0 1.
Definition closed_ : runner := mkRunner 1 AtDone true false true 0 0 0 1.
Definition served : monitored := mkMonitored idle Feed.Demo.offering MnSelect 1 0 [].
Definition leaving : monitored := mkMonitored closed_ Feed.Demo.offering MnLeaving 1 0 [].

Lemma runner_runs s r r' : rtc runner_ok r r' -> rtc monitor_ok (set_lr s r) (set_lr s r').
Proof. apply rtc_congruence. intros x y Hs. exact (mn_runner (set_lr s x) _ Hs). Qed.

Lemma idle_reachable : rtc runner_ok newRunner idle.
Proof.
  eapply rtc_l; [exact (rn_start newRunner 1 eq_refl)|].
  eapply rtc_l; [by apply rn_own, (rn_add _ 0)|]. eapply rtc_l; [by apply rn_own, rn_added|].
  eapply rtc_l; [exact (rn_own _ _ (rn_begin (mkRunner 1 AtSig false false false 0 1 0 0) 0 eq_refl))|].
  eapply rtc_l; [by apply rn_iterator|].
  eapply rtc_l; [exact (rn_own _ _ (rn_end (mkRunner 2 AtSig false false true 0 0 1 0) 0 eq_refl eq_refl))|]. apply rtc_refl.
Qed.

Lemma closed_reachable : rtc runner_ok idle closed_.
Proof.
  eapply rtc_l; [by apply rn_stop|].
  eapply rtc_l; [exact (rn_own _ _ (rn_sig (mkRunner 1 AtSig false false true 1 0 0 1) 0 eq_refl eq_refl))|].
  eapply rtc_l; [exact (rn_own _ _ (rn_close (mkRunner 1 AtClose false false true 0 0 0 1) eq_refl))|]. apply rtc_refl.
Qed.

Lemma served_reachable : rtc monitor_ok new_monitored served.
Proof.
  etransitivity; [exact (runner_runs new_monitored _ _ idle_reachable)|].
  eapply rtc_l; [exact (mn_subscribe (mkMonitored idle NewFeed MnStart 0 0 []) eq_refl eq_refl (conj eq_refl eq_refl))|].
  eapply rtc_l; [exact (mn_report (mkMonitored idle Feed.Demo.subscribed MnSelect 0 0 []) (le_n 1))|].
  eapply rtc_l; [exact (mn_send (mkMonitored idle Feed.Demo.spawning MnSelect 1 0 []) [0] ltac:(done) eq_refl Feed.Demo.elements_one)|].
  eapply rtc_l; [exact (mn_offer (mkMonitored idle Feed.Demo.iterating MnSelect 1 0 []) [] 0 [0] 0 [] [] eq_refl)|].
  unfold wrapped_send. rewrite decide_False by apply not_elem_of_empty. apply rtc_refl.
Qed.

Lemma leaving_reachable : rtc monitor_ok new_monitored leaving.
Proof.
  etransitivity; [exact served_reachable|]. etransitivity; [exact (runner_runs served _ _ closed_reachable)|].
  apply rtc_once, (mn_leave (mkMonitored closed_ Feed.Demo.offering MnSelect 1 0 [])); done.
Qed.

(** The worker's report is delivered, unless the runner is stopped first:
    then the monitor never ends. *)
Lemma monitor_reports_witness :
  (exists s', rtc monitor_ok served s' /\ serving s' /\ length (told s') = 1) /\
  ~ (exists s', rtc monitor_ok leaving s' /\ mpc s' = MnGone).
Proof.
  split.
  - destruct (monitor_reports served served_reachable) as (_ & _ & _ & Hs & _).
    destruct (Hs (or_introl eq_refl)) as (s' & Hr & Hv & _ & _ & Hl). exists s'. split; [exact Hr|]. split; [exact Hv|].
    simpl in Hl. lia.
  - destruct (monitor_reports leaving leaving_reachable) as (_ & _ & _ & _ & Hg). intros Hx.
    apply (Hg eq_refl) with (sd := mkSender 0 [0] [] (Some 0)) in Hx; [by apply elem_of_nil in Hx|].
    apply list_elem_of_singleton. reflexivity.
Defined.

End Demo.
