(* ===== verification/ScanCalls.v ===== *)
(** * scanner/scanner/scanner.go: the calls of Scan and the controller

    [ScannerController.Scan] offers an item to the controller's threads and
    then waits for its answer; at both places it may leave because its context
    is done.  Here any number of calls run beside the threads of the
    controller of Scanner.v.  The port scanner's network does not change while
    it is scanned, and the limiter is what the documentation of
    [rate.Limiter] says of a context that is not cancelled: it refuses always
    or never. *)

From stdpp Require Import base list gmap relations.
From Stdlib Require Import ZArith Lia Permutation.
From S2P Require Import Prelude Golang NetIP Scanner.
Local Open Scope Z_scope.
Local Open Scope outcome_scope.

(** What a call returns: the context's error, the error "canceled" of a closed
    callback, or the open ports. *)
Inductive scan_end : Type := EndCtx | EndCanceled | EndOpen (open : list Z).

Section Calls.
Context (c : ScannerController) (IsOpen : IP -> Z -> bool) (allows : Z -> Z -> bool).

(** [Wait] of the limiter that a thread makes. *)
Definition wait : bool := match scanner_limits c with Ok (burst, interval) => allows burst interval | Panic _ => false end.

(** What a thread answers. *)
Definition answer (now : Z) (item : scanItem) : option scannedItem := runScanner_item (fun _ => wait) (IsOpen (Ip item)) now item.

(** Calls are numbered, [items] is what they ask for; [at_in] are at the first
    select (as [offered] of the controller is), [waiting] at the second one,
    and [ctx] are the calls whose context is done. *)
Record calls := mkCalls {
  sc_ctl : ctl; items : list scanItem; waiting : list nat; ended : list (nat * scan_end); ctx : gset nat }.

Definition new_calls : calls := mkCalls (new_ctl c) [] [] [] ∅.

(** [Scan] makes the item and comes to its first select. *)
Definition Scan (item : scanItem) (s : calls) : calls :=
  let k := length (items s) in let t := sc_ctl s in
  mkCalls (mkCtl (idle t) (offered t ++ [(k, item)]) (scanning t) (results t) (gone t) (asked t ++ [k]))
    (items s ++ [item]) (waiting s) (ended s) (ctx s).

Definition item_taken (n : nat) o1 (k : nat) (item : scanItem) o2 (s : calls) : calls :=
  let t := sc_ctl s in
  mkCalls (mkCtl n (o1 ++ o2) (scanning t ++ [(k, item)]) (results t) (gone t) (asked t))
    (items s) (waiting s ++ [k]) (ended s) (ctx s).

(** [case <-ctx.Done()] of the first select. *)
Definition leave_in o1 (k : nat) o2 (s : calls) : calls :=
  let t := sc_ctl s in
  mkCalls (mkCtl (idle t) (o1 ++ o2) (scanning t) (results t) (gone t ++ [k]) (asked t))
    (items s) (waiting s) (ended s ++ [(k, EndCtx)]) (ctx s).

(** A thread has scanned an item. *)
Definition scanned (now : Z) s1 (k : nat) (item : scanItem) s2 (s : calls) : calls :=
  let t := sc_ctl s in
  mkCalls (mkCtl (match answer now item with Some _ => S (idle t) | None => idle t end) (offered t) (s1 ++ s2)
             (results t ++ [(k, answer now item)]) (gone t) (asked t))
    (items s) (waiting s) (ended s) (ctx s).

Definition end_of (r : option scannedItem) : scan_end := match r with Some result => EndOpen (Open result) | None => EndCanceled end.

(** A call returns from its second select. *)
Definition return_ (e : scan_end) w1 (k : nat) w2 (s : calls) : calls :=
  mkCalls (sc_ctl s) (items s) (w1 ++ w2) (ended s ++ [(k, e)]) (ctx s).

Inductive call_step (s : calls) : calls -> Prop :=
| cs_call item : item_ok item -> call_step s (Scan item s)
| cs_take n o1 k item o2 :
    idle (sc_ctl s) = S n -> offered (sc_ctl s) = o1 ++ (k, item) :: o2 -> call_step s (item_taken n o1 k item o2 s)
| cs_leave_in o1 k item o2 :
    offered (sc_ctl s) = o1 ++ (k, item) :: o2 -> k ∈ ctx s -> call_step s (leave_in o1 k o2 s)
| cs_scanned now s1 k item s2 :
    scanning (sc_ctl s) = s1 ++ (k, item) :: s2 -> call_step s (scanned now s1 k item s2 s)
| cs_result r w1 k w2 :
    waiting s = w1 ++ k :: w2 -> (k, r) ∈ results (sc_ctl s) -> call_step s (return_ (end_of r) w1 k w2 s)
| cs_leave w1 k w2 : waiting s = w1 ++ k :: w2 -> k ∈ ctx s -> call_step s (return_ EndCtx w1 k w2 s)
| cs_cancel k : call_step s (mkCalls (sc_ctl s) (items s) (waiting s) (ended s) ({[k]} ∪ ctx s)).

(** ** What an answer is *)

Lemma while_const (b : bool) (l : list Z) : while (fun _ => b) l = if b then l else [].
Proof. destruct b; [|by destruct l]. by apply while_all. Qed.

(** A limiter that never refuses lets every port be tried; one that always
    does makes the result empty, if there is one. *)
Lemma answer_spec now item :
  item_ok item ->
  (wait = true -> exists r, answer now item = Some r /\ Open r = filter (fun p => IsOpen (Ip item) p = true) (ports item)) /\
  (wait = false -> forall r, answer now item = Some r -> Open r = [] /\ PortEnd item <= PortStart item).
Proof.
  intros Hok. unfold answer, runScanner_item.
  rewrite (ScanItem_spec (fun _ => wait) (IsOpen (Ip item)) now item Hok). rewrite while_const. split; intros ->; simpl.
  - rewrite decide_True by done. rewrite bool_decide_eq_false_2 by tauto. by eexists.
  - pose proof (ports_length item). case_decide as Hl; [|case_bool_decide as Hb; [done|]];
      try rewrite bool_decide_eq_false_2 by tauto; intros r [= <-]; (split; [done|]); simpl in *; lia.
Qed.

(** ** The invariant *)

(** What the state has to say of the item of call [k]. *)
Definition asks (s : calls) (k : nat) (item : scanItem) : Prop := items s !! k = Some item.

Definition end_ok (s : calls) (x : nat * scan_end) : Prop :=
  match x.2 with
  | EndCtx => x.1 ∈ ctx s
  | e => exists item now, asks s x.1 item /\ e = end_of (answer now item)
  end.

Record calls_inv (s : calls) : Prop := {
  ca_ctl : ctl_inv c (sc_ctl s);
  ca_asked : asked (sc_ctl s) = seq 0 (length (items s));
  ca_ok : Forall item_ok (items s);
  ca_items : Forall (fun x => asks s x.1 x.2) (offered (sc_ctl s) ++ scanning (sc_ctl s));
  ca_results : Forall (fun x => exists item now, asks s x.1 item /\ x.2 = answer now item) (results (sc_ctl s));
  ca_waiting : waiting s ⊆ (scanning (sc_ctl s)).*1 ++ (results (sc_ctl s)).*1;
  ca_where : Permutation (seq 0 (length (items s))) ((offered (sc_ctl s)).*1 ++ waiting s ++ (ended s).*1);
  ca_ended : Forall (end_ok s) (ended s) }.

Lemma new_calls_inv : calls_inv new_calls.
Proof. constructor; simpl; try done. constructor; simpl; [done|apply NoDup_nil_2|lia]. Qed.

Lemma asks_snoc s k i item : items s !! k = Some i -> (items s ++ [item]) !! k = Some i.
Proof. intros H. by rewrite lookup_app_l by (by eapply lookup_lt_Some). Qed.

Lemma Scan_inv item s : calls_inv s -> item_ok item -> calls_inv (Scan item s).
Proof.
  intros [] Hok. assert (length (items s) ∉ asked (sc_ctl s)) as Hk by (rewrite ca_asked0, elem_of_seq; lia).
  constructor; simpl; try done.
  - exact (ctl_step_inv _ _ _ ca_ctl0 (ct_offer _ _ item Hk)).
  - rewrite ca_asked0, length_app, seq_app. done.
  - apply Forall_app. by split; [|apply Forall_singleton].
  - unfold asks in *. simpl in *. rewrite Forall_app in ca_items0 |- *. rewrite Forall_app, Forall_singleton. simpl.
    destruct ca_items0 as [Ho Hs]. split_and!; [|by apply list_lookup_middle|];
      (eapply Forall_impl; [done|]); intros x; apply asks_snoc.
  - eapply Forall_impl; [exact ca_results0|]. intros x (i & now & Ha & Hx). exists i, now. split; [by apply asks_snoc|done].
  - rewrite length_app, seq_app, ca_where0, fmap_app. simpl. solve_Permutation.
  - eapply Forall_impl; [exact ca_ended0|]. intros [k e]. unfold end_ok. simpl.
    destruct e; [done|..]; intros (i & now & Ha & Hx); exists i, now; (split; [by apply asks_snoc|done]).
Qed.

Lemma item_taken_inv n o1 k item o2 s :
  calls_inv s -> idle (sc_ctl s) = S n -> offered (sc_ctl s) = o1 ++ (k, item) :: o2 -> calls_inv (item_taken n o1 k item o2 s).
Proof.
  intros [] Hn Ho. constructor; simpl; try done.
  - exact (ctl_step_inv _ _ _ ca_ctl0 (ct_take _ _ _ _ _ _ Hn Ho)).
  - rewrite Ho in ca_items0. unfold asks in *. simpl. rewrite !Forall_app, !Forall_cons in *. rewrite Forall_nil. tauto.
  - rewrite fmap_app. simpl. set_solver.
  - rewrite ca_where0, Ho, !fmap_app. simpl. solve_Permutation.
Qed.

Lemma leave_in_inv o1 k item o2 s :
  calls_inv s -> offered (sc_ctl s) = o1 ++ (k, item) :: o2 -> k ∈ ctx s -> calls_inv (leave_in o1 k o2 s).
Proof.
  intros [] Ho Hk. constructor; simpl; try done.
  - exact (ctl_step_inv _ _ _ ca_ctl0 (ct_give_up _ _ _ _ _ Ho)).
  - rewrite Ho in ca_items0. unfold asks in *. simpl. rewrite !Forall_app, !Forall_cons in *. tauto.
  - rewrite ca_where0, Ho, !fmap_app. simpl. solve_Permutation.
  - apply Forall_app. split; [done|]. by apply Forall_singleton.
Qed.

Lemma scanned_inv now s1 k item s2 s :
  calls_inv s -> scanning (sc_ctl s) = s1 ++ (k, item) :: s2 -> calls_inv (scanned now s1 k item s2 s).
Proof.
  intros [] Hs. constructor; simpl; try done.
  - exact (ctl_step_inv _ _ _ ca_ctl0 (ct_finish _ _ _ _ _ _ _ now Hs)).
  - rewrite Hs in ca_items0. unfold asks in *. simpl. rewrite !Forall_app, !Forall_cons in *. tauto.
  - apply Forall_app. split; [done|]. apply Forall_singleton. simpl. exists item, now. split; [|done].
    rewrite Hs in ca_items0. unfold asks in *. rewrite !Forall_app, !Forall_cons in ca_items0. tauto.
  - rewrite Hs in ca_waiting0. rewrite !fmap_app in *. simpl in *. set_solver.
Qed.

Lemma return_inv e w1 k w2 s :
  calls_inv s -> waiting s = w1 ++ k :: w2 -> end_ok s (k, e) -> calls_inv (return_ e w1 k w2 s).
Proof.
  intros [] Hw He. constructor; simpl; try done.
  - rewrite Hw in ca_waiting0. set_solver.
  - rewrite ca_where0, Hw, !fmap_app. simpl. solve_Permutation.
  - apply Forall_app. split; [done|]. by apply Forall_singleton.
Qed.

Lemma call_step_inv s s' : calls_inv s -> call_step s s' -> calls_inv s'.
Proof.
  intros Hi Hs. destruct Hs as [item Hok|n o1 k item o2 Hn Ho|o1 k item o2 Ho Hk|now s1 k item s2 Hs|r w1 k w2 Hw Hr|w1 k w2 Hw Hk|k].
  - by apply Scan_inv.
  - by apply item_taken_inv.
  - by eapply leave_in_inv.
  - by apply scanned_inv.
  - apply return_inv; [done..|]. pose proof (ca_results _ Hi) as Hf. rewrite Forall_forall in Hf.
    destruct (Hf _ Hr) as (item & now & Ha & Hx). simpl in *. subst r. unfold end_ok. simpl.
    destruct (end_of (answer now item)) eqn:E; [by destruct (answer now item)|..]; exists item, now; by rewrite E.
  - by apply return_inv.
  - destruct Hi. constructor; try done. eapply Forall_impl; [exact ca_ended0|]. intros [j e]. unfold end_ok. simpl.
    destruct e; [set_solver|done..].
Qed.

Lemma calls_reach s : rtc call_step new_calls s -> calls_inv s.
Proof. intros Hr. run_invariant call_step_inv. apply new_calls_inv. Qed.

(** ** Every call can return *)

Definition work (s : calls) : nat :=
  (3 * length (offered (sc_ctl s)) + length (scanning (sc_ctl s)) + length (waiting s))%nat.

(** A step that is not of a caller or a context. *)
Definition moves (s s' : calls) : Prop :=
  call_step s s' /\ items s' = items s /\ ctx s' = ctx s /\ (work s' < work s)%nat /\
  exists l, ended s' = ended s ++ l /\ forall x, x ∈ l -> exists open, x.2 = EndOpen open.

(** No thread has ended when the limiter never refuses. *)
Lemma all_delivered s k r : calls_inv s -> wait = true -> (k, r) ∈ results (sc_ctl s) -> exists result, r = Some result.
Proof.
  intros Hi Hw Hr. pose proof (ca_results _ Hi) as Hf. rewrite Forall_forall in Hf.
  destruct (Hf _ Hr) as (item & now & Ha & Hx). simpl in *.
  pose proof (ca_ok _ Hi) as Hok. rewrite Forall_forall in Hok.
  destruct (proj1 (answer_spec now item (Hok _ (list_elem_of_lookup_2 _ _ _ Ha))) Hw) as (result & He & _).
  exists result. congruence.
Qed.

Lemma threads_idle s : calls_inv s -> wait = true -> 0 < threads c -> scanning (sc_ctl s) = [] -> exists n, idle (sc_ctl s) = S n.
Proof.
  intros Hi Hw Ht Hs. pose proof (cl_threads _ _ (ca_ctl _ Hi)) as Hn. rewrite Hs in Hn.
  destruct (filter (fun r => r.2 = None) (results (sc_ctl s))) as [|[k r] l] eqn:Ef.
  - exists (pred (idle (sc_ctl s))). simpl in Hn. lia.
  - assert ((k, r) ∈ filter (fun r => r.2 = None) (results (sc_ctl s))) as Hin by (rewrite Ef; left).
    apply list_elem_of_filter in Hin as [Hn' Hin]. simpl in Hn'. subst r.
    by destruct (all_delivered _ _ _ Hi Hw Hin).
Qed.

Lemma call_moves s : calls_inv s -> wait = true -> 0 < threads c -> work s <> 0%nat -> exists s', moves s s'.
Proof.
  intros Hi Hw Ht Hn. unfold moves, work in *.
  destruct (scanning (sc_ctl s)) as [|[k item] s2] eqn:Hs.
  - destruct (waiting s) as [|k w2] eqn:Hwt.
    + destruct (offered (sc_ctl s)) as [|[k item] o2] eqn:Ho; [done|].
      destruct (threads_idle s Hi Hw Ht Hs) as [n Hidle]. eexists. split; [by apply (cs_take s n [] k item o2)|].
      simpl. rewrite Hs, Hwt. simpl. split_and!; [done|done|lia|]. exists []. rewrite app_nil_r. split; [done|]. by intros x ?%elem_of_nil.
    + assert (k ∈ (results (sc_ctl s)).*1) as ([k' r] & Heq & Hr)%list_elem_of_fmap.
      { pose proof (ca_waiting _ Hi) as Hsub. rewrite Hs, Hwt in Hsub. apply Hsub. by left. }
      simpl in Heq. subst k'. destruct (all_delivered _ _ _ Hi Hw Hr) as [result ->].
      eexists. split; [by apply (cs_result s (Some result) [] k w2)|]. simpl. rewrite Hs. split_and!; [done|done|simpl; lia|].
      eexists. split; [done|]. intros x ->%list_elem_of_singleton. by eexists.
  - eexists. split; [by apply (cs_scanned s 0 [] k item s2)|]. simpl. split_and!; [done|done|lia|].
    exists []. rewrite app_nil_r. split; [done|]. by intros x ?%elem_of_nil.
Qed.

Lemma all_return s :
  calls_inv s -> wait = true -> 0 < threads c ->
  exists s' l, rtc call_step s s' /\ items s' = items s /\ ctx s' = ctx s /\ work s' = 0%nat /\
    ended s' = ended s ++ l /\ forall x, x ∈ l -> exists open, x.2 = EndOpen open.
Proof.
  remember (work s) as n eqn:En. revert s En. induction n as [n IH] using lt_wf_ind. intros s -> Hi Hw Ht.
  destruct (decide (work s = 0%nat)) as [Hz|Hz].
  { exists s, []. rewrite app_nil_r. split_and!; try done. by intros x ?%elem_of_nil. }
  destruct (call_moves s Hi Hw Ht Hz) as (s1 & Hs & E1 & E2 & Hlt & l1 & El1 & Hl1).
  destruct (IH _ Hlt s1 eq_refl (call_step_inv _ _ Hi Hs) Hw Ht) as (s' & l & Hr & E1' & E2' & Hz' & El & Hl).
  exists s', (l1 ++ l). rewrite E1', E2', El, El1, E1, E2. split_and!; try done.
  - by eapply rtc_l.
  - by rewrite (assoc_L (++)).
  - intros x [?|?]%elem_of_app; auto.
Qed.

Lemma ended_spec s k e :
  calls_inv s -> (k, e) ∈ ended s -> exists item, items s !! k = Some item /\
    match e with
    | EndCtx => k ∈ ctx s
    | EndCanceled => wait = false
    | EndOpen open => open = if wait then filter (fun p => IsOpen (Ip item) p = true) (ports item) else []
    end.
Proof.
  intros Hi Hin. pose proof (ca_ended _ Hi) as Hf. rewrite Forall_forall in Hf. specialize (Hf _ Hin).
  assert (is_Some (items s !! k)) as [item' Hk'].
  { apply lookup_lt_is_Some_2. assert (k ∈ seq 0 (length (items s))) as Hs%elem_of_seq; [|lia].
    rewrite (ca_where _ Hi), !elem_of_app. right. right. by apply (list_elem_of_fmap_2 fst _ (k, e)). }
  pose proof (ca_ok _ Hi) as Hok. rewrite Forall_forall in Hok.
  specialize (Hok _ (list_elem_of_lookup_2 _ _ _ Hk')). exists item'. split; [done|]. unfold end_ok, asks in Hf. simpl in Hf.
  assert (forall item now, items s !! k = Some item /\ e = end_of (answer now item) -> e = end_of (answer now item')) as He
    by (intros i now [Ha ->]; congruence).
  destruct e as [| |open]; [done|..]; destruct Hf as (item & now & Ha & Hx);
    specialize (He item now (conj Ha Hx)); destruct (answer_spec now item' Hok) as [H1 H2]; destruct wait; try done.
  - destruct (H1 eq_refl) as (r & Hr & _). by rewrite Hr in He.
  - destruct (H1 eq_refl) as (r & Hr & Ho). rewrite Hr in He. simpl in He. congruence.
  - destruct (answer now item') as [r|] eqn:Er; [|done]. destruct (H2 eq_refl r eq_refl) as [Ho _]. simpl in He. congruence.
Qed.

(** C18: the calls of Scan beside the threads of the controller.  A call
    returns at most once: with the open ports of its range, in order and both ends included,
    as long as the limiter admits connections at all; with "canceled" only if
    it does not; and with the context's error only when its context is done.
    With a thread and a limiter that admits connections every call can return, with ports and
    without anything from its context; a call is never left behind by those
    that gave up. *)
Theorem Scan_result s :
  rtc call_step new_calls s ->
  NoDup (ended s).*1 /\
  (forall k e, (k, e) ∈ ended s -> exists item, items s !! k = Some item /\
     match e with
     | EndCtx => k ∈ ctx s
     | EndCanceled => wait = false
     | EndOpen open => open = if wait then filter (fun p => IsOpen (Ip item) p = true) (ports item) else []
     end) /\
  (wait = true -> 0 < threads c ->
     exists s' l, rtc call_step s s' /\ items s' = items s /\ ctx s' = ctx s /\
       Permutation (seq 0 (length (items s))) (ended s').*1 /\
       ended s' = ended s ++ l /\ forall x, x ∈ l -> exists open, x.2 = EndOpen open).
Proof.
  intros Hi%calls_reach. split_and!.
  - pose proof (NoDup_seq 0 (length (items s))) as Hn. rewrite (ca_where _ Hi) in Hn.
    by apply NoDup_app in Hn as (_ & _ & (_ & _ & Hn)%NoDup_app).
  - intros k e. by apply ended_spec.
  - intros Hw Ht. destruct (all_return s Hi Hw Ht) as (s' & l & Hr & E1 & E2 & Hz & El & Hl).
    exists s', l. split_and!; try done.
    assert (calls_inv s') as Hi' by (revert Hi Hr; apply rtc_invariant, call_step_inv).
    rewrite <- E1, (ca_where _ Hi'). unfold work in Hz. destruct (offered (sc_ctl s')); [|simpl in Hz; lia].
    destruct (waiting s'); [done|simpl in Hz; lia].
Qed.

(** When every thread has ended nobody answers any more: a call that is at
    the first select leaves by its context or stays. *)
Lemma dead_controller s s' :
  idle (sc_ctl s) = 0%nat -> scanning (sc_ctl s) = [] -> rtc call_step s s' ->
  idle (sc_ctl s') = 0%nat /\ scanning (sc_ctl s') = [] /\ results (sc_ctl s') = results (sc_ctl s).
Proof.
  intros Hn Hs Hr. induction Hr as [|x y z Hxy _ IH]; [done|].
  destruct Hxy as [| | |now s1 k item s2 Hx| | |]; simpl in *; try (by apply IH); [congruence|].
  rewrite Hs in Hx. by destruct s1.
Qed.

End Calls.

(** ** Two calls, one of which is cancelled *)

Module Demo.

Definition one : ScannerController := NewScannerController 1 10 Second.
Definition open_web (ip : IP) (p : Z) : bool := bool_decide (p = 65535).
Definition within_burst (burst interval : Z) : bool := bool_decide (0 < burst).
Definition last_ports : scanItem := mkItem [9; 9; 9; 9] 65530 65535.

Definition two_calls : calls :=
  mkCalls (mkCtl 0 [(1%nat, last_ports)] [(0%nat, last_ports)] [] [] [0%nat; 1%nat]) [last_ports; last_ports] [0%nat] [] ∅.

Lemma last_ports_ok : item_ok last_ports.
Proof. unfold item_ok. simpl. lia. Qed.

Lemma two_calls_reachable : rtc (call_step one open_web within_burst) (new_calls one) two_calls.
Proof.
  eapply rtc_l; [exact (cs_call one open_web within_burst (new_calls one) last_ports last_ports_ok)|].
  eapply rtc_l; [exact (cs_call one open_web within_burst (Scan last_ports (new_calls one)) last_ports last_ports_ok)|].
  eapply rtc_l; [exact (cs_take one open_web within_burst (Scan last_ports (Scan last_ports (new_calls one))) 0 []
    0 last_ports [(1%nat, last_ports)] eq_refl eq_refl)|]. apply rtc_refl.
Qed.

Lemma one_waits : wait one within_burst = true.
Proof. reflexivity. Qed.

Lemma Scan_result_witness :
  exists s', rtc (call_step one open_web within_burst) two_calls s' /\ length (ended s') = 2%nat.
Proof.
  destruct (Scan_result one open_web within_burst two_calls two_calls_reachable) as (_ & _ & H).
  destruct (H one_waits eq_refl) as (s' & l & Hr & _ & _ & Hp & _). exists s'. split; [exact Hr|].
  apply Permutation_length in Hp. rewrite length_fmap in Hp. symmetry. exact Hp.
Defined.

End Demo.
