(* ===== verification/Db.v ===== *)
(** * service/db: the tables and their statements

    migration/00001_init_schema.up.sql declares four tables, and each method
    of sqlc's [Queries] runs one SQL statement of query/*.sql.  The schema is
    data here ([table_of]); a statement is what SQL says it does to the rows
    under the schema's constraints, and a method is its statement and the scan
    of the rows it returns.  What SQL leaves open is a parameter: the order in
    which rows without an ORDER BY arrive ([plan], of each statement), the
    texts that the encoding of the database admits ([valid_text]), the
    rounding of an instant to a timestamp, and the clock. *)

From stdpp Require Import base list strings sorting.
From Stdlib Require Import ZArith Lia Permutation Sorted.
From S2P Require Import Prelude Golang.
Local Open Scope Z_scope.

(** ** Values and schemas *)

Inductive sql_type : Set := Varchar | Int4 | Int8 | Timestamptz | VarcharArray | Int4Array.

(** A timestamp counts microseconds. *)
Inductive value : Set :=
| Null
| Text (s : string)
| Int (z : Z)
| Time (us : Z)
| Texts (l : list string)
| Ints (l : list Z).

#[export] Instance value_eq_dec : EqDecision value.
Proof. solve_decision. Defined.

Inductive default_value : Set := DefaultNow | DefaultInt (z : Z).

Record column := mkColumn { c_name : string; c_type : sql_type; c_not_null : bool; c_default : option default_value }.

Inductive table_name : Set := Nodes | EnrRecords | RlpRecords | ScanRecords.

#[export] Instance table_name_eq_dec : EqDecision table_name.
Proof. solve_decision. Defined.

(** A primary key, unique indices, and columns that reference the primary key
    of a table. *)
Record table := mkTable {
  columns : list column; primary_key : string; unique_indices : list (list string);
  foreign_keys : list (string * table_name) }.

Definition added_at : column := mkColumn "added_at" Timestamptz true (Some DefaultNow).
Definition edited_at : column := mkColumn "edited_at" Timestamptz true (Some DefaultNow).

Definition table_of (t : table_name) : table :=
  match t with
  | Nodes =>
      mkTable [mkColumn "id" Varchar false None; added_at; mkColumn "seen_at" Timestamptz true (Some DefaultNow);
               mkColumn "queries" Int4 true (Some (DefaultInt 0)); mkColumn "ips" VarcharArray false None]
        "id" [] []
  | EnrRecords =>
      mkTable [mkColumn "id" Varchar false None; mkColumn "fields" VarcharArray false None; added_at; edited_at]
        "id" [] [("id", Nodes)]
  | RlpRecords =>
      mkTable [mkColumn "id" Varchar false None; mkColumn "raw_name" Varchar true None;
               mkColumn "protocol_version" Int4 true None; mkColumn "caps" VarcharArray false None; added_at; edited_at]
        "id" [] [("id", Nodes)]
  | ScanRecords =>
      mkTable [mkColumn "id" Int8 false None; mkColumn "node" Varchar true None; mkColumn "ip" Varchar true None;
               mkColumn "ports" Int4Array true None; mkColumn "scanned_at" Timestamptz true (Some DefaultNow); edited_at]
        "id" [["node"; "ip"]] []
  end%string.

Definition all_tables : list table_name := [Nodes; EnrRecords; RlpRecords; ScanRecords].

(** A primary key is never null. *)
Definition not_null (t : table_name) (c : column) : bool :=
  c_not_null c || bool_decide (c_name c = primary_key (table_of t)).

(** ** Rows and the database *)

(** The values of a row in the order of the columns. *)
Definition row : Set := list value.

Record db := mkDb { r_nodes : list row; r_enrs : list row; r_rlps : list row; r_scans : list row }.

(** What the migration leaves. *)
Definition migrated : db := mkDb [] [] [] [].

Definition rows (d : db) (t : table_name) : list row :=
  match t with Nodes => r_nodes d | EnrRecords => r_enrs d | RlpRecords => r_rlps d | ScanRecords => r_scans d end.

Definition set_rows (t : table_name) (l : list row) (d : db) : db :=
  match t with
  | Nodes => mkDb l (r_enrs d) (r_rlps d) (r_scans d)
  | EnrRecords => mkDb (r_nodes d) l (r_rlps d) (r_scans d)
  | RlpRecords => mkDb (r_nodes d) (r_enrs d) l (r_scans d)
  | ScanRecords => mkDb (r_nodes d) (r_enrs d) (r_rlps d) l
  end.

Fixpoint get_col (cs : list column) (c : string) (r : row) : value :=
  match cs, r with
  | x :: cs', v :: r' => if decide (c_name x = c) then v else get_col cs' c r'
  | _, _ => Null
  end.

Definition get (t : table_name) (c : string) (r : row) : value := get_col (columns (table_of t)) c r.

Definition key (t : table_name) (r : row) : value := get t (primary_key (table_of t)) r.

(** The comparison [=] of SQL as a condition: null is equal to nothing. *)
Definition sql_eq (v w : value) : bool := bool_decide (v <> Null) && bool_decide (v = w).

Inductive db_error : Set :=
| ErrNoRows
| NotNullViolation (col : string)
| UniqueViolation
| ForeignKeyViolation
| OutOfRange
| InvalidText
| DatatypeMismatch
| NegativeLimit
| ScanError.

Section Statements.
Context (valid_text : string -> bool).

(** ** Constraints *)

Definition type_error (ty : sql_type) (v : value) : option db_error :=
  match ty, v with
  | _, Null => None
  | Varchar, Text s => if valid_text s then None else Some InvalidText
  | Int4, Int z => if decide (- 2 ^ 31 <= z < 2 ^ 31) then None else Some OutOfRange
  | Int8, Int z => if decide (- 2 ^ 63 <= z < 2 ^ 63) then None else Some OutOfRange
  | Timestamptz, Time _ => None
  | VarcharArray, Texts l => if forallb valid_text l then None else Some InvalidText
  | Int4Array, Ints l => if forallb (fun z => bool_decide (- 2 ^ 31 <= z < 2 ^ 31)) l then None else Some OutOfRange
  | _, _ => Some DatatypeMismatch
  end.

Definition value_error (t : table_name) (c : column) (v : value) : option db_error :=
  match type_error (c_type c) v with
  | Some e => Some e
  | None => if not_null t c && bool_decide (v = Null) then Some (NotNullViolation (c_name c)) else None
  end.

Fixpoint cols_error (t : table_name) (cs : list column) (r : row) : option db_error :=
  match cs, r with
  | c :: cs', v :: r' => match value_error t c v with Some e => Some e | None => cols_error t cs' r' end
  | [], [] => None
  | _, _ => Some DatatypeMismatch
  end.

Definition row_error (t : table_name) (r : row) : option db_error := cols_error t (columns (table_of t)) r.

(** Two rows have the same value in the columns of a unique index. *)
Definition agree (t : table_name) (cols : list string) (r r' : row) : bool :=
  forallb (fun c => sql_eq (get t c r) (get t c r')) cols.

Definition unique_keys (t : table_name) : list (list string) := [primary_key (table_of t)] :: unique_indices (table_of t).

Definition conflict (t : table_name) (r r' : row) : bool := existsb (fun cols => agree t cols r r') (unique_keys t).

(** The rows that a reference of a row needs. *)
Definition has_key (d : db) (t : table_name) (v : value) : bool := existsb (fun r => sql_eq (key t r) v) (rows d t).

Definition references_ok (d : db) (t : table_name) (r : row) : bool :=
  forallb (fun fk => bool_decide (get t fk.1 r = Null) || has_key d fk.2 (get t fk.1 r)) (foreign_keys (table_of t)).

(** ** Statements

    A statement returns rows, or fails and leaves the database as it was. *)

Definition statement : Type := db -> db_error + (list row * db).

Definition supplied (now : Z) (vals : list (string * value)) (c : column) : value :=
  match list_find (fun x => x.1 = c_name c) vals with
  | Some (_, x) => x.2
  | None => match c_default c with Some DefaultNow => Time now | Some (DefaultInt z) => Int z | None => Null end
  end.

(** INSERT INTO t (...) VALUES (...) RETURNING * *)
Definition INSERT (t : table_name) (now : Z) (vals : list (string * value)) : statement := fun d =>
  let r := map (supplied now vals) (columns (table_of t)) in
  match row_error t r with
  | Some e => inl e
  | None =>
      if existsb (conflict t r) (rows d t) then inl UniqueViolation
      else if negb (references_ok d t r) then inl ForeignKeyViolation
      else inr ([r], set_rows t (rows d t ++ [r]) d)
  end.

(** SELECT * FROM t WHERE c = v *)
Definition matches (t : table_name) (c : string) (v : value) (r : row) : bool := sql_eq (get t c r) v.

Definition SELECT (t : table_name) (c : string) (v : value) : statement := fun d =>
  inr (filter (fun r => matches t c v r = true) (rows d t), d).

(** DELETE FROM t WHERE c = v: no row may refer to a deleted one. *)
Definition refers (t : table_name) (deleted : list row) (d : db) : bool :=
  existsb (fun t' =>
    existsb (fun fk => bool_decide (fk.2 = t) &&
      existsb (fun r' => existsb (fun r => sql_eq (get t' fk.1 r') (key t r)) deleted) (rows d t'))
      (foreign_keys (table_of t'))) all_tables.

Definition DELETE (t : table_name) (c : string) (v : value) : statement := fun d =>
  let deleted := filter (fun r => matches t c v r = true) (rows d t) in
  let d' := set_rows t (filter (fun r => matches t c v r = false) (rows d t)) d in
  if refers t deleted d' then inl ForeignKeyViolation else inr (deleted, d').

(** The right-hand sides of UPDATE. *)
Inductive expr : Set := Val (v : value) | Plus (c : string) (v : value) | Coalesce (v : value) (c : string) | Now.

Definition eval (t : table_name) (now : Z) (r : row) (e : expr) : value :=
  match e with
  | Val v => v
  | Plus c v => match get t c r, v with Int x, Int y => Int (x + y) | _, _ => Null end
  | Coalesce v c => if decide (v = Null) then get t c r else v
  | Now => Time now
  end.

Definition assign (t : table_name) (now : Z) (sets : list (string * expr)) (r : row) : row :=
  map (fun c => match list_find (fun x => x.1 = c_name c) sets with
                | Some (_, x) => eval t now r x.2
                | None => get t (c_name c) r
                end) (columns (table_of t)).

Fixpoint first_error (t : table_name) (l : list row) : option db_error :=
  match l with
  | [] => None
  | r :: l' => match row_error t r with Some e => Some e | None => first_error t l' end
  end.

(** A statement of this program never assigns to a column of a key. *)
Definition key_columns (t : table_name) : list string := concat (unique_keys t) ++ (foreign_keys (table_of t)).*1.

(** UPDATE t SET ... WHERE c = v RETURNING *, of columns that are in no key. *)
Definition UPDATE (t : table_name) (now : Z) (sets : list (string * expr)) (c : string) (v : value) : statement := fun d =>
  let new := map (fun r => if matches t c v r then assign t now sets r else r) (rows d t) in
  let changed := map (assign t now sets) (filter (fun r => matches t c v r = true) (rows d t)) in
  match first_error t changed with
  | Some e => inl e
  | None => inr (changed, set_rows t new d)
  end.

(** SELECT * FROM t ORDER BY c LIMIT limit OFFSET offset, of a column of
    timestamps; the rows come from the table in the order of [plan]. *)
Definition time_of (v : value) : Z := match v with Time z => z | _ => 0 end.

Definition by_time (t : table_name) (c : string) (r r' : row) : Prop := time_of (get t c r) <= time_of (get t c r').

#[global] Instance by_time_dec t c : RelDecision (by_time t c).
Proof. unfold by_time, RelDecision. solve_decision. Defined.

Definition SELECT_PAGE (t : table_name) (plan : list row -> list row) (c : string) (limit offset : Z) : statement := fun d =>
  if decide (limit < 0 \/ offset < 0) then inl NegativeLimit
  else inr (take (Z.to_nat limit) (drop (Z.to_nat offset) (merge_sort (by_time t c) (plan (rows d t)))), d).

End Statements.

(** ** sqlc/models.go

    A slice is [None] when it is nil, which the driver writes as null and
    reads from null; instants are in nanoseconds. *)

Record Node := mkNode { Node_ID : string; Node_AddedAt : Z; SeenAt : Z; Node_Queries : Z; Ips : option (list string) }.

Record EnrRecord := mkEnr { Enr_ID : string; Fields : option (list string); Enr_AddedAt : Z; Enr_EditedAt : Z }.

Record RlpRecord := mkRlp {
  Rlp_ID : string; RawName : string; ProtocolVersion : Z; Caps : option (list string); Rlp_AddedAt : Z; Rlp_EditedAt : Z }.

Record ScanRecord := mkScan {
  Scan_ID : Z; Scan_Node : string; Scan_Ip : string; Ports : option (list Z); ScannedAt : Z; Scan_EditedAt : Z }.

Definition texts (v : value) : option (option (list string)) :=
  match v with Null => Some None | Texts l => Some (Some l) | _ => None end.

Definition ints (v : value) : option (option (list Z)) :=
  match v with Null => Some None | Ints l => Some (Some l) | _ => None end.

Definition of_us (us : Z) : Z := us * Microsecond.

(** [row.Scan] into a struct: null has no place in a string, a number or an
    instant. *)
Definition scan_Node (r : row) : option Node :=
  match r with
  | [Text id; Time a; Time s; Int q; v] => ips ← texts v; Some (mkNode id (of_us a) (of_us s) q ips)
  | _ => None
  end.

Definition scan_EnrRecord (r : row) : option EnrRecord :=
  match r with
  | [Text id; v; Time a; Time e] => fields ← texts v; Some (mkEnr id fields (of_us a) (of_us e))
  | _ => None
  end.

Definition scan_RlpRecord (r : row) : option RlpRecord :=
  match r with
  | [Text id; Text name; Int version; v; Time a; Time e] =>
      caps ← texts v; Some (mkRlp id name version caps (of_us a) (of_us e))
  | _ => None
  end.

Definition scan_ScanRecord (r : row) : option ScanRecord :=
  match r with
  | [Int id; Text node; Text ip; v; Time s; Time e] => ports ← ints v; Some (mkScan id node ip ports (of_us s) (of_us e))
  | _ => None
  end.

(** ** database/sql: the first row, no row, or all rows of a statement *)

Section Driver.
Context (valid_text : string -> bool).

(** The arguments of a statement are converted before it runs. *)
Definition arg_error (v : value) : option db_error :=
  match v with
  | Text s => if valid_text s then None else Some InvalidText
  | Texts l => if forallb valid_text l then None else Some InvalidText
  | _ => None
  end.

Fixpoint args_error (args : list value) : option db_error :=
  match args with [] => None | v :: args' => match arg_error v with Some e => Some e | None => args_error args' end end.

Definition bind (args : list value) (s : statement) : statement := fun d =>
  match args_error args with Some e => inl e | None => s d end.

Definition QueryRow {A} (plan : list row -> list row) (scan : row -> option A) (args : list value) (s : statement) (d : db)
    : db * (db_error + A) :=
  match bind args s d with
  | inl e => (d, inl e)
  | inr (rs, d') =>
      (d', match plan rs with
           | [] => inl ErrNoRows
           | r :: _ => match scan r with Some a => inr a | None => inl ScanError end
           end)
  end.

Definition Exec (args : list value) (s : statement) (d : db) : db * option db_error :=
  match bind args s d with inl e => (d, Some e) | inr (_, d') => (d', None) end.

Fixpoint scan_all {A} (scan : row -> option A) (rs : list row) : db_error + list A :=
  match rs with
  | [] => inr []
  | r :: rs' =>
      match scan r with
      | None => inl ScanError
      | Some a => match scan_all scan rs' with inl e => inl e | inr l => inr (a :: l) end
      end
  end.

Definition Query {A} (scan : row -> option A) (args : list value) (s : statement) (d : db) : db * (db_error + list A) :=
  match bind args s d with inl e => (d, inl e) | inr (rs, d') => (d', scan_all scan rs) end.

End Driver.

(** ** The methods of [Queries]

    [now] is the clock of the database in microseconds. *)

Definition nullable (l : option (list string)) : value := match l with Some l => Texts l | None => Null end.
Definition nullable_ints (l : option (list Z)) : value := match l with Some l => Ints l | None => Null end.
Definition null_string (s : option string) : value := match s with Some s => Text s | None => Null end.
Definition null_int32 (z : option Z) : value := match z with Some z => Int z | None => Null end.

Section Queries.
Context (valid_text : string -> bool) (timestamptz : Z -> Z) (plan : list row -> list row) (now : Z).

Notation INSERT := (INSERT valid_text).
Notation UPDATE := (UPDATE valid_text).
Notation QueryRow := (QueryRow valid_text plan).
Notation Exec := (Exec valid_text).
Notation Query := (Query valid_text).

(** nodes.sql.go *)

Definition GetNode (id : string) (d : db) : db * (db_error + Node) :=
  QueryRow scan_Node [Text id] (SELECT Nodes "id" (Text id)) d.

Definition CreateNode (id : string) (d : db) : db * (db_error + Node) :=
  QueryRow scan_Node [Text id] (INSERT Nodes now [("id"%string, Text id)]) d.

Definition DeleteNode (id : string) (d : db) : db * option db_error := Exec [Text id] (DELETE Nodes "id" (Text id)) d.

Definition AddQueries (Queries : Z) (ID : string) (d : db) : db * (db_error + Node) :=
  QueryRow scan_Node [Int Queries; Text ID] (UPDATE Nodes now [("queries"%string, Plus "queries" (Int Queries))] "id" (Text ID)) d.

Definition IncrementQuery (id : string) (d : db) : db * (db_error + Node) :=
  QueryRow scan_Node [Text id] (UPDATE Nodes now [("queries"%string, Plus "queries" (Int 1))] "id" (Text id)) d.

Definition ListNodesByCreation (Limit Offset : Z) (d : db) : db * (db_error + list Node) :=
  Query scan_Node [Int Limit; Int Offset] (SELECT_PAGE Nodes plan "added_at" Limit Offset) d.

Definition ListNodesByActivity (Limit Offset : Z) (d : db) : db * (db_error + list Node) :=
  Query scan_Node [Int Limit; Int Offset] (SELECT_PAGE Nodes plan "seen_at" Limit Offset) d.

(** enr_records.sql.go *)

Definition GetEnrRecord (id : string) (d : db) : db * (db_error + EnrRecord) :=
  QueryRow scan_EnrRecord [Text id] (SELECT EnrRecords "id" (Text id)) d.

Definition CreateEnrRecord (ID : string) (fields : option (list string)) (d : db) : db * (db_error + EnrRecord) :=
  QueryRow scan_EnrRecord [Text ID; nullable fields] (INSERT EnrRecords now [("id"%string, Text ID); ("fields"%string, nullable fields)]) d.

Definition DeleteEnrRecord (id : string) (d : db) : db * option db_error := Exec [Text id] (DELETE EnrRecords "id" (Text id)) d.

Definition MarkEnrSeen (EditedAt : Z) (ID : string) (d : db) : db * option db_error :=
  Exec [Time (timestamptz EditedAt); Text ID] (UPDATE EnrRecords now [("edited_at"%string, Val (Time (timestamptz EditedAt)))] "id" (Text ID)) d.

Definition UpdateEnrFields (fields : option (list string)) (ID : string) (d : db) : db * option db_error :=
  Exec [nullable fields; Text ID] (UPDATE EnrRecords now [("fields"%string, Val (nullable fields)); ("edited_at"%string, Now)] "id" (Text ID)) d.

(** rlp_records.sql.go *)

Definition GetRlpRecord (id : string) (d : db) : db * (db_error + RlpRecord) :=
  QueryRow scan_RlpRecord [Text id] (SELECT RlpRecords "id" (Text id)) d.

Definition CreateRlpRecord (ID rawName : string) (version : Z) (caps : option (list string)) (d : db)
    : db * (db_error + RlpRecord) :=
  QueryRow scan_RlpRecord [Text ID; Text rawName; Int version; nullable caps] (INSERT RlpRecords now
    [("id"%string, Text ID); ("raw_name"%string, Text rawName); ("protocol_version"%string, Int version);
     ("caps"%string, nullable caps)]) d.

Definition UpdateRlpRecord (rawName : option string) (version : option Z) (caps : option (list string)) (ID : string) (d : db)
    : db * option db_error :=
  Exec [null_string rawName; null_int32 version; nullable caps; Text ID] (UPDATE RlpRecords now
    [("raw_name"%string, Coalesce (null_string rawName) "raw_name");
     ("protocol_version"%string, Coalesce (null_int32 version) "protocol_version");
     ("caps"%string, Coalesce (nullable caps) "caps"); ("edited_at"%string, Now)] "id" (Text ID)) d.

Definition DeleteRlpRecord (id : string) (d : db) : db * option db_error := Exec [Text id] (DELETE RlpRecords "id" (Text id)) d.

(** scan_records.sql.go *)

Definition GetNodeScanRecords (node : string) (d : db) : db * (db_error + ScanRecord) :=
  QueryRow scan_ScanRecord [Text node] (SELECT ScanRecords "node" (Text node)) d.

Definition CreateScanRecord (node ip : string) (ports : option (list Z)) (d : db) : db * (db_error + ScanRecord) :=
  QueryRow scan_ScanRecord [Text node; Text ip; nullable_ints ports] (INSERT ScanRecords now
    [("node"%string, Text node); ("ip"%string, Text ip);
     ("ports"%string, nullable_ints ports)]) d.

Definition DeleteScanRecord (id : Z) (d : db) : db * option db_error := Exec [Int id] (DELETE ScanRecords "id" (Int id)) d.

Definition DeleteNodeScanRecords (node : string) (d : db) : db * option db_error :=
  Exec [Text node] (DELETE ScanRecords "node" (Text node)) d.

End Queries.

(** ** The migrations

    A script of DDL runs statement by statement in one transaction; a table
    that another one references cannot be dropped.  [drop_all] is
    migration/00001_init_schema.down.sql. *)

Definition drop_table (t : table_name) (existing : list table_name) : option (list table_name) :=
  if existsb (fun t' => bool_decide (t' <> t) && existsb (fun fk => bool_decide (fk.2 = t)) (foreign_keys (table_of t'))) existing
  then None else Some (filter (fun t' => t' <> t) existing).

Definition drop_all (existing : list table_name) : option (list table_name) :=
  foldl (fun acc t => e ← acc; drop_table t e) (Some existing) all_tables.

(** The down migration fails at its first statement. *)
Lemma down_migration_fails : drop_all all_tables = None.
Proof. reflexivity. Qed.

(** ** store.go: opening the store

    The migration tool opens the scripts and the database, and runs the
    scripts that the database has not run; that none is left is no failure. *)
Inductive migration_up : Set := UpDone | UpNoChange | UpFailed.

Inductive open_error : Set := MigrationInit | MigrationUp | OpenFailed.

Definition runMigration (init : bool) (up : migration_up) : option open_error :=
  if negb init then Some MigrationInit
  else match up with UpFailed => Some MigrationUp | UpDone | UpNoChange => None end.

(** [before] is what the database holds when the scripts have run already. *)
Definition NewStore (init : bool) (up : migration_up) (opens : bool) (before : db) : open_error + db :=
  match runMigration init up with
  | Some e => inl e
  | None => if negb opens then inl OpenFailed else inr (match up with UpDone => migrated | _ => before end)
  end.
