(* ===== verification/DbSpec.v ===== *)
(** * service/db: what the store promises

    The specification of [Queries]: three finite maps from identities to
    records, with one operation for each method.  [store_refines] is that the
    statements under the constraints of the schema implement it. *)

From stdpp Require Import base list gmap strings sorting relations.
From Stdlib Require Import ZArith Lia Permutation Sorted.
From S2P Require Import Prelude Golang Db.
Local Open Scope Z_scope.

(** ** Keyed tables

    The rows of a table with the text [id] as its primary key, up to their
    order, and the map of the records that they encode. *)

Section Keyed.
Context {A : Type} (id_of : A -> string) (enc : A -> row) (t : table_name).
Context (enc_id : forall a, get t "id" (enc a) = Text (id_of a)).

Definition held (m : gmap string A) : list row := map enc (map_to_list m).*2.

Record holds (l : list row) (m : gmap string A) : Prop := {
  h_rows : Permutation l (held m);
  h_ids : forall id a, m !! id = Some a -> id_of a = id }.

Lemma matches_id id a : matches t "id" (Text id) (enc a) = bool_decide (id_of a = id).
Proof.
  unfold matches, sql_eq. rewrite enc_id, bool_decide_eq_true_2 by done. simpl.
  by apply bool_decide_ext; split; [intros [= ->]|intros ->].
Qed.

Lemma held_empty : held ∅ = [].
Proof. unfold held. by rewrite map_to_list_empty. Qed.

Lemma held_insert m id a : m !! id = None -> Permutation (held (<[id := a]> m)) (enc a :: held m).
Proof. intros H. unfold held. by rewrite map_to_list_insert. Qed.

Lemma held_delete m id a : m !! id = Some a -> Permutation (held m) (enc a :: held (delete id m)).
Proof. intros H. unfold held. by rewrite <- (map_to_list_delete _ _ _ H). Qed.

(** The other rows do not match. *)
Lemma held_others m id r : (forall i a, m !! i = Some a -> id_of a = i) -> m !! id = None -> r ∈ held m -> matches t "id" (Text id) r = false.
Proof.
  intros Hi Hn (a & -> & Ha)%list_elem_of_fmap. apply list_elem_of_fmap in Ha as ([i a'] & -> & Ha).
  apply elem_of_map_to_list in Ha. simpl. rewrite matches_id, bool_decide_eq_false_2; [done|].
  intros <-. pose proof (Hi _ _ Ha). subst. congruence.
Qed.

Lemma filter_all {X} (P : X -> Prop) `{forall x, Decision (P x)} (l : list X) : (forall x, x ∈ l -> P x) -> filter P l = l.
Proof.
  induction l as [|x l IH]; intros Hl; [done|]. rewrite filter_cons, decide_True by (apply Hl; left).
  f_equal. apply IH. intros y Hy. apply Hl. by right.
Qed.

Lemma filter_nothing {X} (P : X -> Prop) `{forall x, Decision (P x)} (l : list X) : (forall x, x ∈ l -> ~ P x) -> filter P l = [].
Proof.
  induction l as [|x l IH]; intros Hl; [done|]. rewrite filter_cons, decide_False by (apply Hl; left).
  apply IH. intros y Hy. apply Hl. by right.
Qed.

Lemma filter_matching l m id :
  holds l m ->
  filter (fun r => matches t "id" (Text id) r = true) l = match m !! id with Some a => [enc a] | None => [] end.
Proof.
  intros [Hp Hi]. destruct (m !! id) as [a|] eqn:Hm.
  - apply Permutation_singleton_r. rewrite Hp, (held_delete _ _ _ Hm), filter_cons, matches_id, decide_True
      by by (apply bool_decide_eq_true_2, Hi).
    rewrite filter_nothing; [done|]. intros r Hr. rewrite (held_others (delete id m) id); [done| |apply lookup_delete_eq|done].
    intros i b [_ Hb]%lookup_delete_Some. by apply Hi.
  - apply Permutation_nil_r. rewrite Hp. rewrite filter_nothing; [done|]. intros r Hr. by rewrite (held_others m id).
Qed.

Lemma filter_others l m id :
  holds l m -> holds (filter (fun r => matches t "id" (Text id) r = false) l) (delete id m).
Proof.
  intros [Hp Hi]. assert (forall i a, delete id m !! i = Some a -> id_of a = i) as Hd
    by (intros i a [_ Ha]%lookup_delete_Some; by apply Hi).
  constructor; [|done].
  assert (filter (fun r => matches t "id" (Text id) r = false) (held (delete id m)) = held (delete id m)) as He.
  { apply filter_all. intros r Hr. by apply (held_others (delete id m)); [|apply lookup_delete_eq|]. }
  destruct (m !! id) as [a|] eqn:Hm.
  - rewrite Hp, (held_delete _ _ _ Hm), filter_cons, matches_id, bool_decide_eq_true_2 by by apply Hi.
    rewrite decide_False by done. by rewrite He.
  - rewrite delete_id in He |- * by done. by rewrite Hp, He.
Qed.

Lemma holds_insert l m a : holds l m -> m !! id_of a = None -> holds (l ++ [enc a]) (<[id_of a := a]> m).
Proof.
  intros [Hp Hi] Hm. constructor.
  - rewrite (held_insert _ _ _ Hm), Hp. by rewrite (comm (++)).
  - intros i b. rewrite lookup_insert_Some. intros [[<- <-]|[_ Hb]]; [done|by apply Hi].
Qed.

(** An update of the rows with an identity. *)
Lemma map_others (f : row -> row) l m id :
  holds l m -> m !! id = None -> map (fun r => if matches t "id" (Text id) r then f r else r) l = l.
Proof.
  intros [Hp Hi] Hm. rewrite <- (map_id l) at 2. apply map_ext_in. intros r Hr.
  rewrite (held_others m id); [done..|]. rewrite <- Hp. by apply list_elem_of_In.
Qed.

Lemma holds_update (f : row -> row) l m id a a' :
  holds l m -> m !! id = Some a -> f (enc a) = enc a' -> id_of a' = id ->
  holds (map (fun r => if matches t "id" (Text id) r then f r else r) l) (<[id := a']> m).
Proof.
  intros [Hp Hi] Hm Hf Hid. constructor.
  - rewrite Hp, (held_delete _ _ _ Hm). simpl. rewrite matches_id, bool_decide_eq_true_2 by by apply Hi.
    rewrite Hf, <- insert_delete_eq, held_insert by apply lookup_delete_eq.
    assert (holds (held (delete id m)) (delete id m)) as Hh.
    { constructor; [done|]. intros i b [_ Hb]%lookup_delete_Some. by apply Hi. }
    by rewrite (map_others f _ _ id Hh) by apply lookup_delete_eq.
  - intros i b. rewrite lookup_insert_Some. intros [[<- <-]|[_ Hb]]; [done|by apply Hi].
Qed.

(** A record with an identity, by its primary key. *)
Lemma exists_key l m id (P : row -> bool) :
  (forall a, P (enc a) = bool_decide (id_of a = id)) -> holds l m -> existsb P l = bool_decide (is_Some (m !! id)).
Proof.
  intros HP [Hp Hi]. apply eq_iff_eq_true. rewrite bool_decide_eq_true, existsb_exists. split.
  - intros (r & Hr & Ht). apply list_elem_of_In in Hr. rewrite Hp in Hr.
    apply list_elem_of_fmap in Hr as (a & -> & Ha). apply list_elem_of_fmap in Ha as ([i a'] & -> & Ha).
    apply elem_of_map_to_list in Ha. rewrite HP, bool_decide_eq_true in Ht. simpl in *. subst. rewrite (Hi _ _ Ha). by exists a'.
  - intros [a Ha]. exists (enc a). split; [|by rewrite HP; apply bool_decide_eq_true, Hi].
    apply list_elem_of_In. rewrite Hp. apply list_elem_of_fmap. exists a. split; [done|].
    apply list_elem_of_fmap. exists (id, a). split; [done|]. by apply elem_of_map_to_list.
Qed.

End Keyed.

(** ** The specification *)

Record store := mkStore { nodes : gmap string Node; enrs : gmap string EnrRecord; rlps : gmap string RlpRecord }.

Definition set_nodes (m : gmap string Node) (st : store) : store := mkStore m (enrs st) (rlps st).
Definition set_enrs (m : gmap string EnrRecord) (st : store) : store := mkStore (nodes st) m (rlps st).
Definition set_rlps (m : gmap string RlpRecord) (st : store) : store := mkStore (nodes st) (enrs st) m.

Definition empty_store : store := mkStore ∅ ∅ ∅.

Definition int32_ok (z : Z) : bool := bool_decide (- 2 ^ 31 <= z < 2 ^ 31).

Module Spec.
Section Spec.
Context (valid_text : string -> bool) (timestamptz : Z -> Z) (now : Z).

Definition texts_ok (o : option (list string)) : bool := match o with Some l => forallb valid_text l | None => true end.

Definition found {A} (o : option A) : db_error + A := match o with Some a => inr a | None => inl ErrNoRows end.

Definition GetNode (id : string) (st : store) : db_error + Node :=
  if negb (valid_text id) then inl InvalidText else found (nodes st !! id).

Definition new_node (id : string) : Node := mkNode id (of_us now) (of_us now) 0 None.

Definition CreateNode (id : string) (st : store) : store * (db_error + Node) :=
  if negb (valid_text id) then (st, inl InvalidText)
  else match nodes st !! id with
       | Some _ => (st, inl UniqueViolation)
       | None => (set_nodes (<[id := new_node id]> (nodes st)) st, inr (new_node id))
       end.

(** A node stays while there is a record of it. *)
Definition DeleteNode (id : string) (st : store) : store * option db_error :=
  if negb (valid_text id) then (st, Some InvalidText)
  else if bool_decide (is_Some (enrs st !! id)) || bool_decide (is_Some (rlps st !! id)) then (st, Some ForeignKeyViolation)
  else (set_nodes (delete id (nodes st)) st, None).

Definition add_queries (q : Z) (n : Node) : Node :=
  mkNode (Node_ID n) (Node_AddedAt n) (SeenAt n) (Node_Queries n + q) (Ips n).

Definition AddQueries (q : Z) (id : string) (st : store) : store * (db_error + Node) :=
  if negb (valid_text id) then (st, inl InvalidText)
  else match nodes st !! id with
       | None => (st, inl ErrNoRows)
       | Some n =>
           if negb (int32_ok (Node_Queries n + q)) then (st, inl OutOfRange)
           else (set_nodes (<[id := add_queries q n]> (nodes st)) st, inr (add_queries q n))
       end.

(** A page of the nodes in the order of an instant. *)
Definition page (by_ : Node -> Z) (limit offset : Z) (st : store) (r : db_error + list Node) : Prop :=
  if decide (limit < 0 \/ offset < 0) then r = inl NegativeLimit
  else exists l, Permutation l (map_to_list (nodes st)).*2 /\ Sorted (fun a b => by_ a <= by_ b) l /\
         r = inr (take (Z.to_nat limit) (drop (Z.to_nat offset) l)).

Definition GetEnrRecord (id : string) (st : store) : db_error + EnrRecord :=
  if negb (valid_text id) then inl InvalidText else found (enrs st !! id).

Definition new_enr (id : string) (fields : option (list string)) : EnrRecord := mkEnr id fields (of_us now) (of_us now).

Definition CreateEnrRecord (id : string) (fields : option (list string)) (st : store) : store * (db_error + EnrRecord) :=
  if negb (valid_text id && texts_ok fields) then (st, inl InvalidText)
  else if bool_decide (is_Some (enrs st !! id)) then (st, inl UniqueViolation)
  else if negb (bool_decide (is_Some (nodes st !! id))) then (st, inl ForeignKeyViolation)
  else (set_enrs (<[id := new_enr id fields]> (enrs st)) st, inr (new_enr id fields)).

Definition DeleteEnrRecord (id : string) (st : store) : store * option db_error :=
  if negb (valid_text id) then (st, Some InvalidText) else (set_enrs (delete id (enrs st)) st, None).

(** An update of a record that is not there does nothing. *)
Definition alter_enr (id : string) (f : EnrRecord -> EnrRecord) (st : store) : store :=
  match enrs st !! id with Some r => set_enrs (<[id := f r]> (enrs st)) st | None => st end.

Definition mark_seen (at_ : Z) (r : EnrRecord) : EnrRecord := mkEnr (Enr_ID r) (Fields r) (Enr_AddedAt r) (of_us (timestamptz at_)).

Definition MarkEnrSeen (at_ : Z) (id : string) (st : store) : store * option db_error :=
  if negb (valid_text id) then (st, Some InvalidText) else (alter_enr id (mark_seen at_) st, None).

Definition with_fields (fields : option (list string)) (r : EnrRecord) : EnrRecord :=
  mkEnr (Enr_ID r) fields (Enr_AddedAt r) (of_us now).

Definition UpdateEnrFields (fields : option (list string)) (id : string) (st : store) : store * option db_error :=
  if negb (texts_ok fields && valid_text id) then (st, Some InvalidText) else (alter_enr id (with_fields fields) st, None).

Definition GetRlpRecord (id : string) (st : store) : db_error + RlpRecord :=
  if negb (valid_text id) then inl InvalidText else found (rlps st !! id).

Definition new_rlp (id name : string) (version : Z) (caps : option (list string)) : RlpRecord :=
  mkRlp id name version caps (of_us now) (of_us now).

Definition CreateRlpRecord (id name : string) (version : Z) (caps : option (list string)) (st : store)
    : store * (db_error + RlpRecord) :=
  if negb (valid_text id && valid_text name && texts_ok caps) then (st, inl InvalidText)
  else if bool_decide (is_Some (rlps st !! id)) then (st, inl UniqueViolation)
  else if negb (bool_decide (is_Some (nodes st !! id))) then (st, inl ForeignKeyViolation)
  else (set_rlps (<[id := new_rlp id name version caps]> (rlps st)) st, inr (new_rlp id name version caps)).

(** What is not given stays. *)
Definition with_rlp (name : option string) (version : option Z) (caps : option (list string)) (r : RlpRecord) : RlpRecord :=
  mkRlp (Rlp_ID r) (default (RawName r) name) (default (ProtocolVersion r) version)
    (match caps with Some _ => caps | None => Caps r end) (Rlp_AddedAt r) (of_us now).

Definition UpdateRlpRecord (name : option string) (version : option Z) (caps : option (list string)) (id : string) (st : store)
    : store * option db_error :=
  if negb (match name with Some s => valid_text s | None => true end && texts_ok caps && valid_text id)
  then (st, Some InvalidText)
  else (match rlps st !! id with
        | Some r => set_rlps (<[id := with_rlp name version caps r]> (rlps st)) st
        | None => st
        end, None).

Definition DeleteRlpRecord (id : string) (st : store) : store * option db_error :=
  if negb (valid_text id) then (st, Some InvalidText) else (set_rlps (delete id (rlps st)) st, None).

(** There is never a scan record: the statement that creates one gives no
    primary key, and the column has no default. *)
Definition GetNodeScanRecords (node : string) : db_error + ScanRecord :=
  if negb (valid_text node) then inl InvalidText else inl ErrNoRows.

Definition CreateScanRecord (node ip : string) : db_error + ScanRecord :=
  if negb (valid_text node && valid_text ip) then inl InvalidText else inl (NotNullViolation "id").

Definition DeleteNodeScanRecords (node : string) : option db_error :=
  if negb (valid_text node) then Some InvalidText else None.

End Spec.
End Spec.

(** ** Calls of the interface [Querier] *)

Inductive call : Type :=
| CallGetNode (id : string)
| CallCreateNode (id : string)
| CallDeleteNode (id : string)
| CallAddQueries (q : Z) (id : string)
| CallIncrementQuery (id : string)
| CallListNodesByCreation (limit offset : Z)
| CallListNodesByActivity (limit offset : Z)
| CallGetEnrRecord (id : string)
| CallCreateEnrRecord (id : string) (fields : option (list string))
| CallDeleteEnrRecord (id : string)
| CallMarkEnrSeen (at_ : Z) (id : string)
| CallUpdateEnrFields (fields : option (list string)) (id : string)
| CallGetRlpRecord (id : string)
| CallCreateRlpRecord (id name : string) (version : Z) (caps : option (list string))
| CallUpdateRlpRecord (name : option string) (version : option Z) (caps : option (list string)) (id : string)
| CallDeleteRlpRecord (id : string)
| CallGetNodeScanRecords (node : string)
| CallCreateScanRecord (node ip : string) (ports : option (list Z))
| CallDeleteScanRecord (id : Z)
| CallDeleteNodeScanRecords (node : string).

(** The integers of the parameters are 32 bits wide. *)
Definition call_ok (c : call) : Prop :=
  match c with
  | CallCreateRlpRecord _ _ version _ => int32_ok version = true
  | CallUpdateRlpRecord _ (Some version) _ _ => int32_ok version = true
  | _ => True
  end.

Inductive answer : Type :=
| ANode (r : db_error + Node)
| ANodes (r : db_error + list Node)
| AEnr (r : db_error + EnrRecord)
| ARlp (r : db_error + RlpRecord)
| AScan (r : db_error + ScanRecord)
| AExec (r : option db_error).

Section Calls.
Context (valid_text : string -> bool) (timestamptz : Z -> Z) (plan : list row -> list row) (now : Z).

Definition exec (c : call) (d : db) : db * answer :=
  match c with
  | CallGetNode id => prod_map (fun d => d) ANode (GetNode valid_text plan id d)
  | CallCreateNode id => prod_map (fun d => d) ANode (CreateNode valid_text plan now id d)
  | CallDeleteNode id => prod_map (fun d => d) AExec (DeleteNode valid_text id d)
  | CallAddQueries q id => prod_map (fun d => d) ANode (AddQueries valid_text plan now q id d)
  | CallIncrementQuery id => prod_map (fun d => d) ANode (IncrementQuery valid_text plan now id d)
  | CallListNodesByCreation l o => prod_map (fun d => d) ANodes (ListNodesByCreation valid_text plan l o d)
  | CallListNodesByActivity l o => prod_map (fun d => d) ANodes (ListNodesByActivity valid_text plan l o d)
  | CallGetEnrRecord id => prod_map (fun d => d) AEnr (GetEnrRecord valid_text plan id d)
  | CallCreateEnrRecord id fields => prod_map (fun d => d) AEnr (CreateEnrRecord valid_text plan now id fields d)
  | CallDeleteEnrRecord id => prod_map (fun d => d) AExec (DeleteEnrRecord valid_text id d)
  | CallMarkEnrSeen at_ id => prod_map (fun d => d) AExec (MarkEnrSeen valid_text timestamptz now at_ id d)
  | CallUpdateEnrFields fields id => prod_map (fun d => d) AExec (UpdateEnrFields valid_text now fields id d)
  | CallGetRlpRecord id => prod_map (fun d => d) ARlp (GetRlpRecord valid_text plan id d)
  | CallCreateRlpRecord id name v caps => prod_map (fun d => d) ARlp (CreateRlpRecord valid_text plan now id name v caps d)
  | CallUpdateRlpRecord name v caps id => prod_map (fun d => d) AExec (UpdateRlpRecord valid_text now name v caps id d)
  | CallDeleteRlpRecord id => prod_map (fun d => d) AExec (DeleteRlpRecord valid_text id d)
  | CallGetNodeScanRecords node => prod_map (fun d => d) AScan (GetNodeScanRecords valid_text plan node d)
  | CallCreateScanRecord node ip ports => prod_map (fun d => d) AScan (CreateScanRecord valid_text plan now node ip ports d)
  | CallDeleteScanRecord id => prod_map (fun d => d) AExec (DeleteScanRecord valid_text id d)
  | CallDeleteNodeScanRecords node => prod_map (fun d => d) AExec (DeleteNodeScanRecords valid_text node d)
  end.

(** What a call may do to the specification's state, and its answer. *)
Definition spec (c : call) (st st' : store) (a : answer) : Prop :=
  match c with
  | CallGetNode id => st' = st /\ a = ANode (Spec.GetNode valid_text id st)
  | CallCreateNode id => (st', a) = prod_map (fun st => st) ANode (Spec.CreateNode valid_text now id st)
  | CallDeleteNode id => (st', a) = prod_map (fun st => st) AExec (Spec.DeleteNode valid_text id st)
  | CallAddQueries q id => (st', a) = prod_map (fun st => st) ANode (Spec.AddQueries valid_text q id st)
  | CallIncrementQuery id => (st', a) = prod_map (fun st => st) ANode (Spec.AddQueries valid_text 1 id st)
  | CallListNodesByCreation l o => st' = st /\ exists r, a = ANodes r /\ Spec.page Node_AddedAt l o st r
  | CallListNodesByActivity l o => st' = st /\ exists r, a = ANodes r /\ Spec.page SeenAt l o st r
  | CallGetEnrRecord id => st' = st /\ a = AEnr (Spec.GetEnrRecord valid_text id st)
  | CallCreateEnrRecord id fields => (st', a) = prod_map (fun st => st) AEnr (Spec.CreateEnrRecord valid_text now id fields st)
  | CallDeleteEnrRecord id => (st', a) = prod_map (fun st => st) AExec (Spec.DeleteEnrRecord valid_text id st)
  | CallMarkEnrSeen at_ id => (st', a) = prod_map (fun st => st) AExec (Spec.MarkEnrSeen valid_text timestamptz at_ id st)
  | CallUpdateEnrFields fields id =>
      (st', a) = prod_map (fun st => st) AExec (Spec.UpdateEnrFields valid_text now fields id st)
  | CallGetRlpRecord id => st' = st /\ a = ARlp (Spec.GetRlpRecord valid_text id st)
  | CallCreateRlpRecord id name v caps =>
      (st', a) = prod_map (fun st => st) ARlp (Spec.CreateRlpRecord valid_text now id name v caps st)
  | CallUpdateRlpRecord name v caps id =>
      (st', a) = prod_map (fun st => st) AExec (Spec.UpdateRlpRecord valid_text now name v caps id st)
  | CallDeleteRlpRecord id => (st', a) = prod_map (fun st => st) AExec (Spec.DeleteRlpRecord valid_text id st)
  | CallGetNodeScanRecords node => st' = st /\ a = AScan (Spec.GetNodeScanRecords valid_text node)
  | CallCreateScanRecord node ip ports => st' = st /\ a = AScan (Spec.CreateScanRecord valid_text node ip)
  | CallDeleteScanRecord id => st' = st /\ a = AExec None
  | CallDeleteNodeScanRecords node => st' = st /\ a = AExec (Spec.DeleteNodeScanRecords valid_text node)
  end.

End Calls.
