(* ===== verification/DbProps.v ===== *)
(** * service/db: the store keeps its promise

    The representation of the specification's maps by the rows of the tables,
    that every method keeps it and answers as specified, and what it means for
    the pages of a listing. *)

From stdpp Require Import base list gmap strings sorting relations.
From Stdlib Require Import ZArith Lia Permutation Sorted.
From S2P Require Import Prelude Golang Db DbSpec.
Local Open Scope Z_scope.

(** ** Records as rows *)

Definition us (t : Z) : Z := t / Microsecond.

(** Instants of the database have no nanoseconds. *)
Definition whole (t : Z) : Prop := of_us (us t) = t.

Lemma us_of_us z : us (of_us z) = z.
Proof. unfold us, of_us. by rewrite Z.div_mul. Qed.

Lemma whole_of_us z : whole (of_us z).
Proof. unfold whole. by rewrite us_of_us. Qed.

Definition enc_Node (n : Node) : row :=
  [Text (Node_ID n); Time (us (Node_AddedAt n)); Time (us (SeenAt n)); Int (Node_Queries n); nullable (Ips n)].
Definition enc_Enr (r : EnrRecord) : row :=
  [Text (Enr_ID r); nullable (Fields r); Time (us (Enr_AddedAt r)); Time (us (Enr_EditedAt r))].
Definition enc_Rlp (r : RlpRecord) : row :=
  [Text (Rlp_ID r); Text (RawName r); Int (ProtocolVersion r); nullable (Caps r); Time (us (Rlp_AddedAt r));
   Time (us (Rlp_EditedAt r))].

Section Props.
Context (valid_text : string -> bool) (timestamptz : Z -> Z).

Notation texts_ok := (Spec.texts_ok valid_text).

Record node_ok (n : Node) : Prop := {
  no_id : valid_text (Node_ID n) = true; no_added : whole (Node_AddedAt n); no_seen : whole (SeenAt n);
  no_queries : int32_ok (Node_Queries n) = true; no_ips : texts_ok (Ips n) = true }.

Record enr_ok (r : EnrRecord) : Prop := {
  eo_id : valid_text (Enr_ID r) = true; eo_fields : texts_ok (Fields r) = true;
  eo_added : whole (Enr_AddedAt r); eo_edited : whole (Enr_EditedAt r) }.

Record rlp_ok (r : RlpRecord) : Prop := {
  ro_id : valid_text (Rlp_ID r) = true; ro_name : valid_text (RawName r) = true;
  ro_version : int32_ok (ProtocolVersion r) = true; ro_caps : texts_ok (Caps r) = true;
  ro_added : whole (Rlp_AddedAt r); ro_edited : whole (Rlp_EditedAt r) }.

Lemma texts_nullable o : texts (nullable o) = Some o.
Proof. by destruct o. Qed.

Lemma scan_enc_Node n : node_ok n -> scan_Node (enc_Node n) = Some n.
Proof. intros [_ H1 H2 _ _]. unfold whole in *. simpl. rewrite texts_nullable. simpl. rewrite H1, H2. by destruct n. Qed.

Lemma scan_enc_Enr r : enr_ok r -> scan_EnrRecord (enc_Enr r) = Some r.
Proof. intros [_ _ H1 H2]. unfold whole in *. simpl. rewrite texts_nullable. simpl. rewrite H1, H2. by destruct r. Qed.

Lemma scan_enc_Rlp r : rlp_ok r -> scan_RlpRecord (enc_Rlp r) = Some r.
Proof. intros [_ _ _ _ H1 H2]. unfold whole in *. simpl. rewrite texts_nullable. simpl. rewrite H1, H2. by destruct r. Qed.

(** ** The representation *)

Record repr (d : db) (st : store) : Prop := {
  rp_nodes : holds Node_ID enc_Node (r_nodes d) (nodes st);
  rp_enrs : holds Enr_ID enc_Enr (r_enrs d) (enrs st);
  rp_rlps : holds Rlp_ID enc_Rlp (r_rlps d) (rlps st);
  rp_scans : r_scans d = [];
  rp_nodes_ok : map_Forall (fun _ n => node_ok n) (nodes st);
  rp_enrs_ok : map_Forall (fun _ r => enr_ok r) (enrs st);
  rp_rlps_ok : map_Forall (fun _ r => rlp_ok r) (rlps st);
  rp_enr_node : forall id, is_Some (enrs st !! id) -> is_Some (nodes st !! id);
  rp_rlp_node : forall id, is_Some (rlps st !! id) -> is_Some (nodes st !! id) }.

Lemma migrated_repr : repr migrated empty_store.
Proof.
  constructor; simpl; try done; try (by intros id [? Hx]; rewrite lookup_empty in Hx);
    try apply map_Forall_empty; (constructor; [by unfold held; rewrite map_to_list_empty|]; intros id a Ha; by rewrite lookup_empty in Ha).
Qed.

Lemma key_Node n : get Nodes "id" (enc_Node n) = Text (Node_ID n).
Proof. reflexivity. Qed.
Lemma key_Enr r : get EnrRecords "id" (enc_Enr r) = Text (Enr_ID r).
Proof. reflexivity. Qed.
Lemma key_Rlp r : get RlpRecords "id" (enc_Rlp r) = Text (Rlp_ID r).
Proof. reflexivity. Qed.

(** The three tables: a map for each, and its rows. *)
Lemma set_nodes_repr d st l m :
  repr d st -> holds Node_ID enc_Node l m -> map_Forall (fun _ n => node_ok n) m ->
  (forall id, is_Some (enrs st !! id) \/ is_Some (rlps st !! id) -> is_Some (m !! id)) ->
  repr (set_rows Nodes l d) (set_nodes m st).
Proof. intros [] Hh Hok Hr. constructor; simpl; auto. Qed.

Lemma set_enrs_repr d st l m :
  repr d st -> holds Enr_ID enc_Enr l m -> map_Forall (fun _ r => enr_ok r) m ->
  (forall id, is_Some (m !! id) -> is_Some (nodes st !! id)) -> repr (set_rows EnrRecords l d) (set_enrs m st).
Proof. intros [] Hh Hok Hr. constructor; simpl; auto. Qed.

Lemma set_rlps_repr d st l m :
  repr d st -> holds Rlp_ID enc_Rlp l m -> map_Forall (fun _ r => rlp_ok r) m ->
  (forall id, is_Some (m !! id) -> is_Some (nodes st !! id)) -> repr (set_rows RlpRecords l d) (set_rlps m st).
Proof. intros [] Hh Hok Hr. constructor; simpl; auto. Qed.

(** ** Statements on represented tables *)

Lemma args_text id : args_error valid_text [Text id] = if valid_text id then None else Some InvalidText.
Proof. simpl. by destruct (valid_text id). Qed.

Lemma select_by_id {A} (id_of : A -> string) (enc : A -> row) t (Henc : forall a, get t "id" (enc a) = Text (id_of a)) d m id :
  holds id_of enc (rows d t) m ->
  SELECT t "id" (Text id) d = inr (match m !! id with Some a => [enc a] | None => [] end, d).
Proof. intros Hh. unfold SELECT. by rewrite (filter_matching id_of enc t Henc _ m). Qed.

Context (plan : list row -> list row) (plan_perm : forall l, Permutation (plan l) l).

Lemma plan_nil : plan [] = [].
Proof. by apply Permutation_nil_r, plan_perm. Qed.
Lemma plan_one r : plan [r] = [r].
Proof. by apply Permutation_singleton_r, plan_perm. Qed.

(** The one row of a key. *)
Lemma get_one {A} (id_of : A -> string) (enc : A -> row) (scan : row -> option A) (ok : A -> Prop) t
    (Henc : forall a, get t "id" (enc a) = Text (id_of a)) (Hscan : forall a, ok a -> scan (enc a) = Some a) d m id :
  holds id_of enc (rows d t) m -> map_Forall (fun _ a => ok a) m ->
  QueryRow valid_text plan scan [Text id] (SELECT t "id" (Text id)) d =
    (d, if negb (valid_text id) then inl InvalidText else Spec.found (m !! id)).
Proof.
  intros Hh Hok. unfold QueryRow, bind. rewrite args_text. destruct (valid_text id); [|done].
  rewrite (select_by_id _ _ _ Henc _ m) by done. destruct (m !! id) as [a|] eqn:Hm; simpl.
  - rewrite plan_one, Hscan by by eapply Hok. done.
  - by rewrite plan_nil.
Qed.

(** An update of one record. *)
Lemma update_one {A} (id_of : A -> string) (enc : A -> row) t (Henc : forall a, get t "id" (enc a) = Text (id_of a))
    now sets d m id :
  holds id_of enc (rows d t) m ->
  UPDATE valid_text t now sets "id" (Text id) d =
    match m !! id with
    | None => inr ([], d)
    | Some a =>
        match row_error valid_text t (assign t now sets (enc a)) with
        | Some e => inl e
        | None => inr ([assign t now sets (enc a)],
                       set_rows t (map (fun r => if matches t "id" (Text id) r then assign t now sets r else r) (rows d t)) d)
        end
    end.
Proof.
  intros Hh. unfold UPDATE. rewrite (filter_matching id_of enc t Henc _ m) by done.
  destruct (m !! id) as [a|] eqn:Hm; simpl; [by destruct (row_error _ _ _)|].
  rewrite (map_others id_of enc t Henc _ _ m) by done. by destruct d, t.
Qed.

Lemma delete_one {A} (id_of : A -> string) (enc : A -> row) t (Henc : forall a, get t "id" (enc a) = Text (id_of a)) d m id :
  holds id_of enc (rows d t) m ->
  DELETE t "id" (Text id) d =
    let d' := set_rows t (filter (fun r => matches t "id" (Text id) r = false) (rows d t)) d in
    let deleted := match m !! id with Some a => [enc a] | None => [] end in
    if refers t deleted d' then inl ForeignKeyViolation else inr (deleted, d').
Proof. intros Hh. unfold DELETE. by rewrite (filter_matching id_of enc t Henc _ m). Qed.

(** Whether a key is taken. *)
Lemma key_taken {A} (id_of : A -> string) (enc : A -> row) l m id (P : row -> bool) :
  (forall a, P (enc a) = sql_eq (Text id) (Text (id_of a)) || false) ->
  holds id_of enc l m -> existsb P l = bool_decide (is_Some (m !! id)).
Proof.
  intros HP. apply (exists_key id_of enc). intros a. rewrite HP, orb_false_r. unfold sql_eq.
  rewrite bool_decide_eq_true_2 by done. simpl. apply bool_decide_ext. split; [by intros [= ->]|by intros ->].
Qed.

(** ** The methods *)

Context (now : Z).

Notation exec := (exec valid_text timestamptz plan now).
Notation spec := (spec valid_text timestamptz now).

(** A call on represented tables. *)
Definition refined (c : call) : Prop :=
  forall d st, repr d st -> exists st', spec c st st' (exec c d).2 /\ repr (exec c d).1 st'.

Lemma GetNode_refined id : refined (CallGetNode id).
Proof.
  intros d st Hr. exists st. simpl. unfold GetNode.
  rewrite (get_one Node_ID enc_Node scan_Node node_ok Nodes key_Node scan_enc_Node d (nodes st)) by apply Hr. done.
Qed.

Lemma GetEnrRecord_refined id : refined (CallGetEnrRecord id).
Proof.
  intros d st Hr. exists st. simpl. unfold GetEnrRecord.
  rewrite (get_one Enr_ID enc_Enr scan_EnrRecord enr_ok EnrRecords key_Enr scan_enc_Enr d (enrs st)) by apply Hr. done.
Qed.

Lemma GetRlpRecord_refined id : refined (CallGetRlpRecord id).
Proof.
  intros d st Hr. exists st. simpl. unfold GetRlpRecord.
  rewrite (get_one Rlp_ID enc_Rlp scan_RlpRecord rlp_ok RlpRecords key_Rlp scan_enc_Rlp d (rlps st)) by apply Hr. done.
Qed.

(** Rows that are inserted. *)
Lemma inserted_Node id : map (supplied now [("id"%string, Text id)]) (columns (table_of Nodes)) = enc_Node (Spec.new_node now id).
Proof. unfold enc_Node. simpl. by rewrite us_of_us. Qed.

Lemma inserted_Enr id fields :
  map (supplied now [("id"%string, Text id); ("fields"%string, nullable fields)]) (columns (table_of EnrRecords)) =
  enc_Enr (Spec.new_enr now id fields).
Proof. unfold enc_Enr. simpl. by rewrite us_of_us. Qed.

Lemma inserted_Rlp id name version caps :
  map (supplied now [("id"%string, Text id); ("raw_name"%string, Text name); ("protocol_version"%string, Int version);
                     ("caps"%string, nullable caps)]) (columns (table_of RlpRecords)) =
  enc_Rlp (Spec.new_rlp now id name version caps).
Proof. unfold enc_Rlp. simpl. by rewrite us_of_us. Qed.

Lemma new_node_ok id : valid_text id = true -> node_ok (Spec.new_node now id).
Proof. intros Hv. constructor; simpl; try done; apply whole_of_us. Qed.

Lemma new_enr_ok id fields : valid_text id = true -> texts_ok fields = true -> enr_ok (Spec.new_enr now id fields).
Proof. intros Hv Hf. constructor; simpl; try done; apply whole_of_us. Qed.

Lemma new_rlp_ok id name version caps :
  valid_text id = true -> valid_text name = true -> int32_ok version = true -> texts_ok caps = true ->
  rlp_ok (Spec.new_rlp now id name version caps).
Proof. intros Hv Hn Hi Hc. constructor; simpl; try done; apply whole_of_us. Qed.

Lemma type_error_texts o : type_error valid_text VarcharArray (nullable o) = if texts_ok o then None else Some InvalidText.
Proof. by destruct o. Qed.

Lemma type_error_int4 z : type_error valid_text Int4 (Int z) = if int32_ok z then None else Some OutOfRange.
Proof. simpl. unfold int32_ok. by case_decide; [rewrite bool_decide_eq_true_2|rewrite bool_decide_eq_false_2]. Qed.

Lemma value_error_some t c v : v <> Null -> value_error valid_text t c v = type_error valid_text (c_type c) v.
Proof.
  intros Hv. unfold value_error. destruct (type_error _ _ _); [done|]. by rewrite (bool_decide_eq_false_2 (v = Null)), andb_false_r.
Qed.

Lemma value_error_texts t c o :
  c_type c = VarcharArray -> not_null t c = false -> value_error valid_text t c (nullable o) = if texts_ok o then None else Some InvalidText.
Proof. intros Hc Hn. unfold value_error. rewrite Hc, type_error_texts, Hn. by destruct (texts_ok o). Qed.

Lemma row_error_Node n :
  row_error valid_text Nodes (enc_Node n) =
    if negb (valid_text (Node_ID n)) then Some InvalidText
    else if negb (int32_ok (Node_Queries n)) then Some OutOfRange
    else if negb (texts_ok (Ips n)) then Some InvalidText else None.
Proof.
  unfold row_error, enc_Node. cbn [columns table_of cols_error]. rewrite !(value_error_some _ _ (Text _)), !(value_error_some _ _ (Time _)),
    (value_error_some _ _ (Int _)), value_error_texts by done. cbn [c_type].
  rewrite type_error_int4. simpl. by destruct (valid_text _), (int32_ok _), (texts_ok _).
Qed.

Lemma row_error_Enr r :
  row_error valid_text EnrRecords (enc_Enr r) =
    if negb (valid_text (Enr_ID r) && texts_ok (Fields r)) then Some InvalidText else None.
Proof.
  unfold row_error, enc_Enr. cbn [columns table_of cols_error].
  rewrite !(value_error_some _ _ (Text _)), !(value_error_some _ _ (Time _)), value_error_texts by done.
  simpl. by destruct (valid_text _), (texts_ok _).
Qed.

Lemma row_error_Rlp r :
  row_error valid_text RlpRecords (enc_Rlp r) =
    if negb (valid_text (Rlp_ID r) && valid_text (RawName r)) then Some InvalidText
    else if negb (int32_ok (ProtocolVersion r)) then Some OutOfRange
    else if negb (texts_ok (Caps r)) then Some InvalidText else None.
Proof.
  unfold row_error, enc_Rlp. cbn [columns table_of cols_error].
  rewrite !(value_error_some _ _ (Text _)), !(value_error_some _ _ (Time _)), (value_error_some _ _ (Int _)), value_error_texts by done.
  cbn [c_type]. rewrite type_error_int4. simpl. by destruct (valid_text _), (valid_text _), (int32_ok _), (texts_ok _).
Qed.

(** Conflicts and references in terms of the maps. *)
Lemma conflict_Node d st n : repr d st -> existsb (conflict Nodes (enc_Node n)) (r_nodes d) = bool_decide (is_Some (nodes st !! Node_ID n)).
Proof. intros Hr. apply (key_taken Node_ID enc_Node); [|apply Hr]. intros a. unfold conflict. simpl. by rewrite andb_true_r. Qed.

Lemma conflict_Enr d st r : repr d st -> existsb (conflict EnrRecords (enc_Enr r)) (r_enrs d) = bool_decide (is_Some (enrs st !! Enr_ID r)).
Proof. intros Hr. apply (key_taken Enr_ID enc_Enr); [|apply Hr]. intros a. unfold conflict. simpl. by rewrite andb_true_r. Qed.

Lemma conflict_Rlp d st r : repr d st -> existsb (conflict RlpRecords (enc_Rlp r)) (r_rlps d) = bool_decide (is_Some (rlps st !! Rlp_ID r)).
Proof. intros Hr. apply (key_taken Rlp_ID enc_Rlp); [|apply Hr]. intros a. unfold conflict. simpl. by rewrite andb_true_r. Qed.

Lemma sql_eq_comm v w : v <> Null -> sql_eq v w = sql_eq w v.
Proof.
  intros Hv. unfold sql_eq. apply eq_iff_eq_true. rewrite !andb_true_iff, !bool_decide_eq_true. naive_solver.
Qed.

Lemma has_node d st id : repr d st -> has_key d Nodes (Text id) = bool_decide (is_Some (nodes st !! id)).
Proof.
  intros Hr. apply (key_taken Node_ID enc_Node); [|apply Hr]. intros a. unfold key. simpl.
  rewrite orb_false_r. by apply sql_eq_comm.
Qed.

Lemma references_Enr d st r : repr d st -> references_ok d EnrRecords (enc_Enr r) = bool_decide (is_Some (nodes st !! Enr_ID r)).
Proof.
  intros Hr. unfold references_ok. cbn [foreign_keys table_of forallb fst snd]. rewrite key_Enr, (has_node d st) by done.
  rewrite (bool_decide_eq_false_2 (Text _ = Null)) by done. by rewrite andb_true_r.
Qed.

Lemma references_Rlp d st r : repr d st -> references_ok d RlpRecords (enc_Rlp r) = bool_decide (is_Some (nodes st !! Rlp_ID r)).
Proof.
  intros Hr. unfold references_ok. cbn [foreign_keys table_of forallb fst snd]. rewrite key_Rlp, (has_node d st) by done.
  rewrite (bool_decide_eq_false_2 (Text _ = Null)) by done. by rewrite andb_true_r.
Qed.

Lemma CreateNode_refined id : refined (CallCreateNode id).
Proof.
  intros d st Hr. simpl. unfold CreateNode, Spec.CreateNode, QueryRow, bind. rewrite args_text.
  destruct (valid_text id) eqn:Hv; [|by exists st]. cbn [negb]. unfold INSERT.
  rewrite inserted_Node, row_error_Node. cbn [Spec.new_node Node_ID Node_Queries Ips]. rewrite Hv. cbn [negb].
  rewrite (conflict_Node d st) by done. cbn [Spec.new_node Node_ID].
  destruct (nodes st !! id) as [n|] eqn:Hn; [by exists st|].
  simpl. rewrite plan_one, scan_enc_Node by by apply new_node_ok. eexists. split; [done|]. simpl.
  apply (set_nodes_repr d st); [done| | |].
  - apply (holds_insert Node_ID enc_Node); [apply Hr|done].
  - apply map_Forall_insert_2; [by apply new_node_ok|apply Hr].
  - intros i Hi. rewrite lookup_insert_is_Some'. right. destruct Hi; [by apply Hr|by apply (rp_rlp_node _ _ Hr)].
Qed.

Lemma args_cons v l : args_error valid_text (v :: l) = match arg_error valid_text v with Some e => Some e | None => args_error valid_text l end.
Proof. reflexivity. Qed.

Lemma arg_text s : arg_error valid_text (Text s) = if valid_text s then None else Some InvalidText.
Proof. reflexivity. Qed.

Lemma arg_texts o : arg_error valid_text (nullable o) = if texts_ok o then None else Some InvalidText.
Proof. by destruct o. Qed.

Lemma CreateEnrRecord_refined id fields : refined (CallCreateEnrRecord id fields).
Proof.
  intros d st Hr. simpl. unfold CreateEnrRecord, Spec.CreateEnrRecord, QueryRow, bind.
  rewrite args_cons, arg_text, args_cons, arg_texts. cbn [args_error].
  destruct (valid_text id) eqn:Hv; [|by exists st]. destruct (texts_ok fields) eqn:Hf; [|by exists st]. cbn [negb andb]. unfold INSERT.
  rewrite inserted_Enr, row_error_Enr. cbn [Spec.new_enr Enr_ID Fields]. rewrite Hv, Hf. cbn [negb andb].
  rewrite (conflict_Enr d st), (references_Enr d st) by done. cbn [Spec.new_enr Enr_ID].
  case_bool_decide as He; [by exists st|]. case_bool_decide as Hn; [|by exists st].
  simpl. rewrite plan_one, scan_enc_Enr by by apply new_enr_ok. eexists. split; [done|]. simpl.
  apply (set_enrs_repr d st); [done| | |].
  - apply (holds_insert Enr_ID enc_Enr); [apply Hr|]. by apply eq_None_not_Some.
  - apply map_Forall_insert_2; [by apply new_enr_ok|apply Hr].
  - intros i. rewrite lookup_insert_is_Some'. intros [<-|Hi]; [done|by apply (rp_enr_node _ _ Hr)].
Qed.

Lemma CreateRlpRecord_refined id name version caps : int32_ok version = true -> refined (CallCreateRlpRecord id name version caps).
Proof.
  intros Hi d st Hr. simpl. unfold CreateRlpRecord, Spec.CreateRlpRecord, QueryRow, bind.
  rewrite args_cons, arg_text, args_cons, arg_text, args_cons, args_cons, arg_texts. cbn [args_error arg_error].
  destruct (valid_text id) eqn:Hv; [|by exists st]. destruct (valid_text name) eqn:Hnm; [|by exists st].
  destruct (texts_ok caps) eqn:Hf; [|by exists st]. cbn [negb andb]. unfold INSERT.
  rewrite inserted_Rlp, row_error_Rlp. cbn [Spec.new_rlp Rlp_ID RawName ProtocolVersion Caps]. rewrite Hv, Hnm, Hf, Hi. cbn [negb andb].
  rewrite (conflict_Rlp d st), (references_Rlp d st) by done. cbn [Spec.new_rlp Rlp_ID].
  case_bool_decide as He; [by exists st|]. case_bool_decide as Hn; [|by exists st].
  simpl. rewrite plan_one, scan_enc_Rlp by by apply new_rlp_ok. eexists. split; [done|]. simpl.
  apply (set_rlps_repr d st); [done| | |].
  - apply (holds_insert Rlp_ID enc_Rlp); [apply Hr|]. by apply eq_None_not_Some.
  - apply map_Forall_insert_2; [by apply new_rlp_ok|apply Hr].
  - intros i. rewrite lookup_insert_is_Some'. intros [<-|Hx]; [done|by apply (rp_rlp_node _ _ Hr)].
Qed.

(** Rows that an update changes. *)
Lemma assigned_queries q n :
  assign Nodes now [("queries"%string, Plus "queries" (Int q))] (enc_Node n) = enc_Node (Spec.add_queries q n).
Proof. reflexivity. Qed.

Lemma assigned_seen at_ r :
  assign EnrRecords now [("edited_at"%string, Val (Time (timestamptz at_)))] (enc_Enr r) = enc_Enr (Spec.mark_seen timestamptz at_ r).
Proof. unfold enc_Enr. simpl. by rewrite us_of_us. Qed.

Lemma assigned_fields fields r :
  assign EnrRecords now [("fields"%string, Val (nullable fields)); ("edited_at"%string, Now)] (enc_Enr r) =
  enc_Enr (Spec.with_fields now fields r).
Proof. unfold enc_Enr. simpl. by rewrite us_of_us. Qed.

Lemma assigned_rlp name version caps r :
  assign RlpRecords now
    [("raw_name"%string, Coalesce (null_string name) "raw_name");
     ("protocol_version"%string, Coalesce (null_int32 version) "protocol_version");
     ("caps"%string, Coalesce (nullable caps) "caps"); ("edited_at"%string, Now)] (enc_Rlp r) =
  enc_Rlp (Spec.with_rlp now name version caps r).
Proof. unfold enc_Rlp. destruct name, version, caps; simpl; by rewrite us_of_us. Qed.

(** The program's updates touch no column of a key. *)
Lemma update_keeps_key (P : gmap string Node) id n n' i :
  P !! id = Some n -> is_Some (P !! i) -> is_Some (<[id := n']> P !! i).
Proof. intros _ Hi. rewrite lookup_insert_is_Some'. by right. Qed.

Lemma AddQueries_result q id d st :
  repr d st ->
  exists st', Spec.AddQueries valid_text q id st = (st', (AddQueries valid_text plan now q id d).2) /\
    repr (AddQueries valid_text plan now q id d).1 st'.
Proof.
  intros Hr. unfold AddQueries, Spec.AddQueries, QueryRow, bind. rewrite args_cons, args_text. cbn [arg_error].
  destruct (valid_text id) eqn:Hv; [|by exists st]. cbn [negb].
  rewrite (update_one Node_ID enc_Node Nodes key_Node _ _ _ (nodes st)) by apply Hr.
  destruct (nodes st !! id) as [n|] eqn:Hn; [|exists st; by rewrite plan_nil].
  pose proof (rp_nodes_ok _ _ Hr _ _ Hn) as Hok. pose proof (h_ids _ _ _ _ (rp_nodes _ _ Hr) _ _ Hn) as Hid.
  rewrite assigned_queries, row_error_Node. cbn [Spec.add_queries Node_ID Node_Queries Ips].
  rewrite (no_id _ Hok), (no_ips _ Hok). cbn [negb]. destruct (int32_ok (Node_Queries n + q)) eqn:Hq; [|by exists st]. cbn [negb].
  assert (node_ok (Spec.add_queries q n)) as Hok' by (destruct Hok; constructor; done).
  rewrite plan_one, scan_enc_Node by done. eexists. split; [reflexivity|]. simpl.
  apply (set_nodes_repr d st); [done| | |].
  - by apply (holds_update Node_ID enc_Node Nodes key_Node _ _ _ _ n); [apply Hr|..].
  - by apply map_Forall_insert_2; [|apply Hr].
  - intros i Hi. eapply update_keeps_key; [done|]. destruct Hi; [by apply Hr|by apply (rp_rlp_node _ _ Hr)].
Qed.

Lemma AddQueries_refined q id : refined (CallAddQueries q id).
Proof. intros d st Hr. destruct (AddQueries_result q id d st Hr) as (st' & E & H). exists st'. simpl. rewrite E. by destruct (AddQueries _ _ _ _ _ _). Qed.

Lemma IncrementQuery_refined id : refined (CallIncrementQuery id).
Proof.
  intros d st Hr. destruct (AddQueries_result 1 id d st Hr) as (st' & E & H). exists st'. simpl. rewrite E.
  change (IncrementQuery valid_text plan now id d) with (AddQueries valid_text plan now 1 id d). by destruct (AddQueries _ _ _ _ _ _).
Qed.

(** An update of a record of [enr_records]. *)
Lemma alter_enr_repr d st id sets f :
  repr d st -> (forall r, assign EnrRecords now sets (enc_Enr r) = enc_Enr (f r)) ->
  (forall r, enr_ok r -> enr_ok (f r)) -> (forall r, Enr_ID (f r) = Enr_ID r) ->
  exists rs d', UPDATE valid_text EnrRecords now sets "id" (Text id) d = inr (rs, d') /\ repr d' (Spec.alter_enr id f st).
Proof.
  intros Hr Ha Hok Hid. rewrite (update_one Enr_ID enc_Enr EnrRecords key_Enr _ _ _ (enrs st)) by apply Hr.
  unfold Spec.alter_enr. destruct (enrs st !! id) as [r|] eqn:He; [|by eexists _, _].
  pose proof (rp_enrs_ok _ _ Hr _ _ He) as Hro. rewrite Ha, row_error_Enr, (eo_id _ (Hok _ Hro)), (eo_fields _ (Hok _ Hro)).
  eexists _, _. split; [done|]. apply (set_enrs_repr d st); [done| | |].
  - apply (holds_update Enr_ID enc_Enr EnrRecords key_Enr _ _ _ _ r); [apply Hr|done|apply Ha|].
    rewrite Hid. by apply (h_ids _ _ _ _ (rp_enrs _ _ Hr)).
  - apply map_Forall_insert_2; [by apply Hok|apply Hr].
  - intros i. rewrite lookup_insert_is_Some'. intros [<-|Hi]; apply (rp_enr_node _ _ Hr); [by rewrite He|done].
Qed.

Lemma MarkEnrSeen_refined at_ id : refined (CallMarkEnrSeen at_ id).
Proof.
  intros d st Hr. simpl. unfold MarkEnrSeen, Spec.MarkEnrSeen, Exec, bind. rewrite args_cons, args_text. cbn [arg_error].
  destruct (valid_text id) eqn:Hv; [|by exists st]. cbn [negb].
  destruct (alter_enr_repr d st id _ _ Hr (assigned_seen at_)) as (rs & d' & -> & H); [|done|by eexists].
  intros r []. constructor; simpl; try done. apply whole_of_us.
Qed.

Lemma UpdateEnrFields_refined fields id : refined (CallUpdateEnrFields fields id).
Proof.
  intros d st Hr. simpl. unfold UpdateEnrFields, Spec.UpdateEnrFields, Exec, bind. rewrite args_cons, args_text, arg_texts.
  destruct (texts_ok fields) eqn:Hf; [|by exists st]. destruct (valid_text id) eqn:Hv; [|by exists st]. cbn [negb andb].
  destruct (alter_enr_repr d st id _ _ Hr (assigned_fields fields)) as (rs & d' & -> & H); [|done|by eexists].
  intros r []. constructor; simpl; try done. apply whole_of_us.
Qed.

Lemma with_rlp_ok name version caps r :
  match name with Some s => valid_text s | None => true end = true -> match version with Some v => int32_ok v | None => true end = true ->
  texts_ok caps = true -> rlp_ok r -> rlp_ok (Spec.with_rlp now name version caps r).
Proof.
  intros Hn Hv Hc []. constructor; simpl; try done; try apply whole_of_us; [by destruct name|by destruct version|by destruct caps].
Qed.

Lemma UpdateRlpRecord_refined name version caps id :
  match version with Some v => int32_ok v | None => true end = true -> refined (CallUpdateRlpRecord name version caps id).
Proof.
  intros Hvs d st Hr. simpl. unfold UpdateRlpRecord, Spec.UpdateRlpRecord, Exec, bind.
  rewrite !args_cons, arg_texts, arg_text.
  assert (arg_error valid_text (null_string name) = if match name with Some s => valid_text s | None => true end then None else Some InvalidText)
    as -> by by destruct name.
  assert (arg_error valid_text (null_int32 version) = None) as -> by by destruct version.
  destruct (match name with Some s => valid_text s | None => true end) eqn:Hn; [|by exists st]. cbn [args_error].
  destruct (texts_ok caps) eqn:Hc; [|by exists st]. destruct (valid_text id) eqn:Hv; [|by exists st]. cbn [negb andb].
  rewrite (update_one Rlp_ID enc_Rlp RlpRecords key_Rlp _ _ _ (rlps st)) by apply Hr.
  destruct (rlps st !! id) as [r|] eqn:He; [|by exists st].
  pose proof (with_rlp_ok _ _ _ _ Hn Hvs Hc (rp_rlps_ok _ _ Hr _ _ He)) as Hok.
  rewrite assigned_rlp, row_error_Rlp, (ro_id _ Hok), (ro_name _ Hok), (ro_version _ Hok), (ro_caps _ Hok).
  eexists. split; [done|]. apply (set_rlps_repr d st); [done| | |].
  - apply (holds_update Rlp_ID enc_Rlp RlpRecords key_Rlp _ _ _ _ r); [apply Hr|done|apply assigned_rlp|].
    exact (h_ids _ _ _ _ (rp_rlps _ _ Hr) _ _ He).
  - by apply map_Forall_insert_2; [|apply Hr].
  - intros i. rewrite lookup_insert_is_Some'. intros [<-|Hi]; apply (rp_rlp_node _ _ Hr); [by rewrite He|done].
Qed.

(** Deletions: only the nodes are referred to. *)
Lemma refers_nodes l d :
  refers Nodes l d =
    existsb (fun r => existsb (fun x => sql_eq (get EnrRecords "id" r) (key Nodes x)) l) (r_enrs d) ||
    existsb (fun r => existsb (fun x => sql_eq (get RlpRecords "id" r) (key Nodes x)) l) (r_rlps d).
Proof. unfold refers. simpl. by rewrite !orb_false_r. Qed.

Lemma existsb_nothing (l : list row) : existsb (fun _ => false) l = false.
Proof. by induction l. Qed.

Lemma deleted_node_refers d st id :
  repr d st ->
  refers Nodes (match nodes st !! id with Some n => [enc_Node n] | None => [] end)
    (set_rows Nodes (filter (fun r => matches Nodes "id" (Text id) r = false) (r_nodes d)) d) =
  bool_decide (is_Some (enrs st !! id)) || bool_decide (is_Some (rlps st !! id)).
Proof.
  intros Hr. rewrite refers_nodes. destruct (nodes st !! id) as [n|] eqn:Hn.
  - pose proof (h_ids _ _ _ _ (rp_nodes _ _ Hr) _ _ Hn) as Hid.
    f_equal; [apply (key_taken Enr_ID enc_Enr); [|apply Hr]|apply (key_taken Rlp_ID enc_Rlp); [|apply Hr]];
      intros a; cbn [existsb]; rewrite ?key_Enr, ?key_Rlp; unfold key; cbn [primary_key table_of]; rewrite key_Node, Hid;
      f_equal; by apply sql_eq_comm.
  - assert (forall A (m : gmap string A), (forall i, is_Some (m !! i) -> is_Some (nodes st !! i)) -> bool_decide (is_Some (m !! id)) = false) as Hno.
    { intros A m Hm. apply bool_decide_eq_false_2. intros Hi%Hm. rewrite Hn in Hi. by destruct Hi. }
    rewrite !Hno by (apply Hr). cbn [existsb]. by rewrite !existsb_nothing.
Qed.

Lemma DeleteNode_refined id : refined (CallDeleteNode id).
Proof.
  intros d st Hr. simpl. unfold DeleteNode, Spec.DeleteNode, Exec, bind. rewrite args_text.
  destruct (valid_text id) eqn:Hv; [|by exists st]. cbn [negb].
  rewrite (delete_one Node_ID enc_Node Nodes key_Node _ (nodes st)) by apply Hr. cbv zeta. cbn [rows].
  rewrite (deleted_node_refers d st) by done. destruct (_ || _) eqn:Href; [by exists st|].
  apply orb_false_iff in Href as [He Hl]. apply bool_decide_eq_false_1 in He, Hl.
  eexists. split; [done|]. apply (set_nodes_repr d st); [done|..].
  - apply (filter_others Node_ID enc_Node Nodes key_Node), Hr.
  - apply map_Forall_delete, Hr.
  - intros i Hi. assert (i <> id) by (intros ->; by destruct Hi). rewrite lookup_delete_ne by done.
    destruct Hi; [by apply Hr|by apply (rp_rlp_node _ _ Hr)].
Qed.

Lemma refers_none t l d : t <> Nodes -> refers t l d = false.
Proof. by destruct t. Qed.

Lemma DeleteEnrRecord_refined id : refined (CallDeleteEnrRecord id).
Proof.
  intros d st Hr. simpl. unfold DeleteEnrRecord, Spec.DeleteEnrRecord, Exec, bind. rewrite args_text.
  destruct (valid_text id) eqn:Hv; [|by exists st]. cbn [negb]. unfold DELETE. rewrite refers_none by done.
  eexists. split; [done|]. apply (set_enrs_repr d st); [done|..].
  - apply (filter_others Enr_ID enc_Enr EnrRecords key_Enr), Hr.
  - apply map_Forall_delete, Hr.
  - intros i [x [_ Hx]%lookup_delete_Some]. apply (rp_enr_node _ _ Hr). by rewrite Hx.
Qed.

Lemma DeleteRlpRecord_refined id : refined (CallDeleteRlpRecord id).
Proof.
  intros d st Hr. simpl. unfold DeleteRlpRecord, Spec.DeleteRlpRecord, Exec, bind. rewrite args_text.
  destruct (valid_text id) eqn:Hv; [|by exists st]. cbn [negb]. unfold DELETE. rewrite refers_none by done.
  eexists. split; [done|]. apply (set_rlps_repr d st); [done|..].
  - apply (filter_others Rlp_ID enc_Rlp RlpRecords key_Rlp), Hr.
  - apply map_Forall_delete, Hr.
  - intros i [x [_ Hx]%lookup_delete_Some]. apply (rp_rlp_node _ _ Hr). by rewrite Hx.
Qed.

(** Scan records: there are none, and none is made. *)
Lemma CreateScanRecord_refined node ip ports : refined (CallCreateScanRecord node ip ports).
Proof.
  intros d st Hr. exists st. simpl. unfold CreateScanRecord, Spec.CreateScanRecord, QueryRow, bind.
  rewrite !args_cons, !arg_text. assert (arg_error valid_text (nullable_ints ports) = None) as -> by by destruct ports.
  by destruct (valid_text node), (valid_text ip).
Qed.

Lemma GetNodeScanRecords_refined node : refined (CallGetNodeScanRecords node).
Proof.
  intros d st Hr. exists st. simpl. unfold GetNodeScanRecords, Spec.GetNodeScanRecords, QueryRow, bind. rewrite args_text.
  destruct (valid_text node); [|done]. unfold SELECT. cbn [rows]. rewrite (rp_scans _ _ Hr), filter_nil. simpl. by rewrite plan_nil.
Qed.

Lemma deleted_scans d st c v : repr d st -> DELETE ScanRecords c v d = inr ([], d).
Proof. intros Hr. unfold DELETE. rewrite refers_none by done. cbn [rows]. rewrite (rp_scans _ _ Hr), !filter_nil. destruct d. simpl in *. by rewrite <- (rp_scans _ _ Hr). Qed.

Lemma DeleteScanRecord_refined id : refined (CallDeleteScanRecord id).
Proof. intros d st Hr. exists st. unfold exec, DeleteScanRecord, Exec, bind. cbn [args_error arg_error]. by rewrite (deleted_scans d st). Qed.

Lemma DeleteNodeScanRecords_refined node : refined (CallDeleteNodeScanRecords node).
Proof.
  intros d st Hr. exists st. simpl. unfold DeleteNodeScanRecords, Spec.DeleteNodeScanRecords, Exec, bind. rewrite args_text.
  destruct (valid_text node); [|done]. by rewrite (deleted_scans d st).
Qed.

(** Listings: a page of the sorted rows. *)
Lemma scan_all_enc l : Forall node_ok l -> scan_all scan_Node (map enc_Node l) = inr l.
Proof. induction 1 as [|n l Hn _ IH]; [done|]. simpl map. cbn [scan_all]. by rewrite scan_enc_Node, IH. Qed.

#[local] Instance by_time_total t c : Total (by_time t c).
Proof. intros x y. unfold by_time. lia. Qed.
#[local] Instance by_time_trans t c : Transitive (by_time t c).
Proof. intros x y z. unfold by_time. lia. Qed.

Lemma page_refined d st c by_ limit offset :
  repr d st -> (forall n, node_ok n -> time_of (get Nodes c (enc_Node n)) = us (by_ n) /\ whole (by_ n)) ->
  exists r, Query valid_text scan_Node [Int limit; Int offset] (SELECT_PAGE Nodes plan c limit offset) d = (d, r) /\
    Spec.page by_ limit offset st r.
Proof.
  intros Hr Hc. unfold Query, bind, SELECT_PAGE, Spec.page. cbn [args_error arg_error].
  case_decide as Hneg; [by eexists|]. eexists. split; [reflexivity|].
  set (sorted := merge_sort _ _).
  assert (Permutation sorted (map enc_Node (map_to_list (nodes st)).*2)) as Hp.
  { unfold sorted. rewrite merge_sort_Permutation, plan_perm. apply (rp_nodes _ _ Hr). }
  apply Permutation_map_inv in Hp as (l & Hl & Hperm).
  assert (Forall node_ok l) as Hok.
  { rewrite Forall_forall. intros n Hn. rewrite <- Hperm in Hn. apply list_elem_of_fmap in Hn as ([i n'] & -> & Hi).
    apply elem_of_map_to_list in Hi. by apply (rp_nodes_ok _ _ Hr i). }
  exists l. split_and!.
  - by symmetry.
  - pose proof (Sorted_merge_sort (by_time Nodes c) (plan (rows d Nodes))) as Hs. fold sorted in Hs. rewrite Hl in Hs.
    revert Hs Hok. clear -Hc. induction l as [|n l IH]; [constructor|]. intros [Hs Hh]%Sorted_inv [Hn Hok]%Forall_cons.
    constructor; [by apply IH|]. destruct l as [|n' l]; constructor. apply HdRel_inv in Hh. unfold by_time in Hh.
    apply Forall_cons in Hok as [Hn' _]. destruct (Hc n Hn) as [E1 W1], (Hc n' Hn') as [E2 W2]. rewrite E1, E2 in Hh.
    unfold whole, of_us in *. unfold Microsecond in *. lia.
  - rewrite Hl, <- fmap_drop, <- fmap_take. rewrite scan_all_enc; [done|]. by apply Forall_take, Forall_drop.
Qed.

Lemma ListNodesByCreation_refined limit offset : refined (CallListNodesByCreation limit offset).
Proof.
  intros d st Hr. exists st. simpl. unfold ListNodesByCreation.
  destruct (page_refined d st "added_at" Node_AddedAt limit offset Hr) as (r & -> & Hp); [by intros n []|]. split; [|done].
  split; [done|]. by exists r.
Qed.

Lemma ListNodesByActivity_refined limit offset : refined (CallListNodesByActivity limit offset).
Proof.
  intros d st Hr. exists st. simpl. unfold ListNodesByActivity.
  destruct (page_refined d st "seen_at" SeenAt limit offset Hr) as (r & -> & Hp); [by intros n []|]. split; [|done].
  split; [done|]. by exists r.
Qed.

#[local] Hint Resolve GetNode_refined CreateNode_refined DeleteNode_refined AddQueries_refined IncrementQuery_refined
  ListNodesByCreation_refined ListNodesByActivity_refined GetEnrRecord_refined CreateEnrRecord_refined DeleteEnrRecord_refined
  MarkEnrSeen_refined UpdateEnrFields_refined GetRlpRecord_refined CreateRlpRecord_refined UpdateRlpRecord_refined
  DeleteRlpRecord_refined GetNodeScanRecords_refined CreateScanRecord_refined DeleteScanRecord_refined
  DeleteNodeScanRecords_refined : core.

Lemma call_refined c : call_ok c -> refined c.
Proof. destruct c as [| | | | | | | | | | | | | |name [v|] caps id| | | | |]; simpl; intros Hc; auto. Qed.

End Props.

(** ** Any sequence of calls *)

(** A call with the order in which its rows come and the clock. *)
Record request := mkRequest { rq_call : call; rq_plan : list row -> list row; rq_now : Z }.

Definition request_ok (q : request) : Prop := call_ok (rq_call q) /\ forall l, Permutation (rq_plan q l) l.

Section Runs.
Context (valid_text : string -> bool) (timestamptz : Z -> Z).

Fixpoint run (l : list request) (d : db) : db * list answer :=
  match l with
  | [] => (d, [])
  | q :: l' =>
      let '(d', a) := exec valid_text timestamptz (rq_plan q) (rq_now q) (rq_call q) d in
      let '(d2, answers) := run l' d' in (d2, a :: answers)
  end.

Fixpoint spec_run (l : list request) (st st' : store) (answers : list answer) : Prop :=
  match l, answers with
  | [], [] => st' = st
  | q :: l', a :: answers' =>
      exists st1, spec valid_text timestamptz (rq_now q) (rq_call q) st st1 a /\ spec_run l' st1 st' answers'
  | _, _ => False
  end.

Lemma run_refined l d st :
  repr valid_text d st -> Forall request_ok l ->
  exists st', spec_run l st st' (run l d).2 /\ repr valid_text (run l d).1 st'.
Proof.
  revert d st. induction l as [|[c plan now] l IH]; intros d st Hr Hl; [by exists st|].
  apply Forall_cons in Hl as [[Hc Hp] Hl]. simpl in *.
  destruct (call_refined valid_text timestamptz plan Hp now c Hc d st Hr) as (st1 & Hs & Hr1).
  destruct (exec _ _ _ _ _ _) as [d1 a] eqn:E. destruct (IH d1 st1 Hr1 Hl) as (st' & Hss & Hr').
  destruct (run l d1) as [d2 answers] eqn:E2. exists st'. split; [by exists st1|done].
Qed.

(** ** The constraints *)

(** What the schema demands of the whole of a database. *)
Definition consistent (d : db) : Prop :=
  forall t, Forall (fun r => row_error valid_text t r = None) (rows d t) /\ NoDup (map (key t) (rows d t)) /\
    Forall (fun r => references_ok d t r = true) (rows d t).

#[local] Instance Text_inj : Inj (=) (=) Text.
Proof. by intros x y [= ->]. Qed.

Lemma held_keys {A} (id_of : A -> string) (enc : A -> row) t l m :
  (forall a, key t (enc a) = Text (id_of a)) -> holds id_of enc l m -> NoDup (map (key t) l).
Proof.
  intros Hk [Hp Hi]. rewrite Hp. unfold held. rewrite map_map, (map_ext _ _ Hk).
  assert (map (fun a => Text (id_of a)) (map_to_list m).*2 = map Text (map_to_list m).*1) as ->.
  { rewrite map_map, map_map. apply map_ext_in. intros [i a] Hin. simpl. f_equal. apply Hi.
    by apply elem_of_map_to_list, list_elem_of_In. }
  apply (NoDup_fmap_2 Text), NoDup_fst_map_to_list.
Qed.

Lemma held_forall {A} (id_of : A -> string) (enc : A -> row) l (m : gmap string A) (P : row -> Prop) :
  holds id_of enc l m -> (forall id a, m !! id = Some a -> P (enc a)) -> Forall P l.
Proof.
  intros [Hp Hi] HP. rewrite Hp. unfold held. rewrite Forall_fmap, Forall_forall. intros r Hr.
  apply list_elem_of_fmap in Hr as ([i a] & -> & Ha). apply elem_of_map_to_list in Ha. by eapply HP.
Qed.

Lemma repr_consistent d st : repr valid_text d st -> consistent d.
Proof.
  intros Hr. assert (forall id n, nodes st !! id = Some n -> Node_ID n = id) as Hn by apply (rp_nodes _ _ _ Hr).
  assert (forall id r, enrs st !! id = Some r -> Enr_ID r = id) as He by apply (rp_enrs _ _ _ Hr).
  assert (forall id r, rlps st !! id = Some r -> Rlp_ID r = id) as Hl by apply (rp_rlps _ _ _ Hr).
  intros []; simpl; split_and!.
  - apply (held_forall _ _ _ _ _ (rp_nodes _ _ _ Hr)). intros id n Hx. rewrite row_error_Node.
    destruct (rp_nodes_ok _ _ _ Hr _ _ Hx) as [-> _ _ -> ->]. done.
  - by apply (held_keys _ _ _ _ _ key_Node (rp_nodes _ _ _ Hr)).
  - apply (held_forall _ _ _ _ _ (rp_nodes _ _ _ Hr)). done.
  - apply (held_forall _ _ _ _ _ (rp_enrs _ _ _ Hr)). intros id r Hx. rewrite row_error_Enr.
    destruct (rp_enrs_ok _ _ _ Hr _ _ Hx) as [-> -> _ _]. done.
  - by apply (held_keys _ _ _ _ _ key_Enr (rp_enrs _ _ _ Hr)).
  - apply (held_forall _ _ _ _ _ (rp_enrs _ _ _ Hr)). intros id r Hx. rewrite (references_Enr valid_text timestamptz 0 d st) by done.
    apply bool_decide_eq_true_2, (rp_enr_node _ _ _ Hr). rewrite (He _ _ Hx). by exists r.
  - apply (held_forall _ _ _ _ _ (rp_rlps _ _ _ Hr)). intros id r Hx. rewrite row_error_Rlp.
    destruct (rp_rlps_ok _ _ _ Hr _ _ Hx) as [-> -> -> -> _ _]. done.
  - by apply (held_keys _ _ _ _ _ key_Rlp (rp_rlps _ _ _ Hr)).
  - apply (held_forall _ _ _ _ _ (rp_rlps _ _ _ Hr)). intros id r Hx. rewrite (references_Rlp valid_text timestamptz 0 d st) by done.
    apply bool_decide_eq_true_2, (rp_rlp_node _ _ _ Hr). rewrite (Hl _ _ Hx). by exists r.
  - rewrite (rp_scans _ _ _ Hr). constructor.
  - rewrite (rp_scans _ _ _ Hr). constructor.
  - rewrite (rp_scans _ _ _ Hr). constructor.
Qed.

(** C35: the statements of the store implement its specification.  Whatever
    calls of the interface [Querier] run on a migrated database, at any times
    and with the rows in any order: each answers, and changes the maps from
    identities to records, as its specification says; the tables represent
    these maps, and every constraint of the schema holds of them. *)
Theorem store_refines l :
  Forall request_ok l ->
  consistent (run l migrated).1 /\
  exists st, spec_run l empty_store st (run l migrated).2 /\ repr valid_text (run l migrated).1 st.
Proof.
  intros Hl. destruct (run_refined l migrated empty_store (migrated_repr _) Hl) as (st & Hs & Hr).
  split; [by eapply repr_consistent|by exists st].
Qed.

(** ** Pages *)

Lemma page_list by_ limit offset st r :
  0 <= limit -> 0 <= offset -> Spec.page by_ limit offset st r ->
  exists l, Permutation l (map_to_list (nodes st)).*2 /\ Sorted (fun a b => by_ a <= by_ b) l /\
    r = inr (take (Z.to_nat limit) (drop (Z.to_nat offset) l)).
Proof. intros Hl Ho. unfold Spec.page. by rewrite decide_False by lia. Qed.

(** Distinct instants leave one order. *)
Lemma sorted_unique (by_ : Node -> Z) l l' :
  (forall a b, a ∈ l -> b ∈ l -> by_ a = by_ b -> a = b) ->
  Sorted (fun a b => by_ a <= by_ b) l -> Sorted (fun a b => by_ a <= by_ b) l' -> Permutation l l' -> l = l'.
Proof.
  intros Hinj Hs Hs' Hp. assert (Transitive (fun a b => by_ a <= by_ b)) by (intros a b c; simpl; lia).
  apply (StronglySorted_unique_strong (fun a b => by_ a <= by_ b)); try by apply Sorted_StronglySorted.
  - intros a b Ha Hb H1 H2. apply Hinj; [done|by rewrite Hp|lia].
  - done.
Qed.

Lemma chunks_concat {A} (n k : nat) (l : list A) :
  concat (map (fun i => take n (drop (n * i) l)) (seq 0 k)) = take (n * k) l.
Proof.
  induction k as [|k IH]; [by rewrite Nat.mul_0_r|].
  rewrite seq_S, map_app, concat_app, IH. simpl. rewrite app_nil_r, Nat.mul_succ_r. by rewrite take_take_drop.
Qed.

(** The pages of a listing, in whatever order the rows come for each of them,
    show every node once and in order, if no two nodes have the same instant
    and nothing changes in between.  With equal instants they need not:
    [tied_pages]. *)
Theorem pages_complete (by_ : Node -> Z) limit k st pages :
  0 < limit -> Z.of_nat (size (nodes st)) <= limit * Z.of_nat k ->
  (forall i a j b, nodes st !! i = Some a -> nodes st !! j = Some b -> by_ a = by_ b -> a = b) ->
  Forall2 (fun i p => Spec.page by_ limit (limit * Z.of_nat i) st (inr p)) (seq 0 k) pages ->
  Permutation (concat pages) (map_to_list (nodes st)).*2 /\ Sorted (fun a b => by_ a <= by_ b) (concat pages).
Proof.
  intros Hl Hk Hinj Hp. destruct k as [|k'].
  { inversion Hp; subst. simpl in *. assert (nodes st = ∅) as -> by (apply map_size_empty_inv; lia).
    rewrite map_to_list_empty. by split. }
  assert (forall a b, a ∈ (map_to_list (nodes st)).*2 -> b ∈ (map_to_list (nodes st)).*2 -> by_ a = by_ b -> a = b) as Hinj'.
  { intros a b ([i a'] & -> & Ha)%list_elem_of_fmap ([j b'] & -> & Hb)%list_elem_of_fmap.
    apply elem_of_map_to_list in Ha, Hb. by eapply Hinj. }
  assert (exists l, Permutation l (map_to_list (nodes st)).*2 /\ Sorted (fun a b => by_ a <= by_ b) l) as (l & Hperm & Hs).
  { inversion Hp as [|i p ? ? H0 ? E]; subst. apply page_list in H0 as (l & ? & ? & _); [eauto|lia|lia]. }
  assert (pages = map (fun i => take (Z.to_nat limit) (drop (Z.to_nat limit * i) l)) (seq 0 (S k'))) as ->.
  { assert (forall xs ps, Forall2 (fun i p => Spec.page by_ limit (limit * Z.of_nat i) st (inr p)) xs ps ->
      ps = map (fun i => take (Z.to_nat limit) (drop (Z.to_nat limit * i) l)) xs) as Hall; [|by apply Hall].
    induction 1 as [|i p xs ps Hi _ IH]; [done|]. simpl. f_equal; [|done].
    apply page_list in Hi as (l' & Hp' & Hs' & [= ->]); [|lia|lia].
    replace (Z.to_nat (limit * Z.of_nat i)) with (Z.to_nat limit * i)%nat by lia.
    by rewrite (sorted_unique by_ l' l); [|intros a b; rewrite Hp'; apply Hinj'|..|rewrite Hp', Hperm]. }
  rewrite chunks_concat, firstn_all2; [done|].
  rewrite Hperm, length_fmap, length_map_to_list. lia.
Qed.

End Runs.

(** ** Two nodes *)

Module Demo.

Definition any_text (s : string) : bool := true.
Definition rounded (t : Z) : Z := t / Microsecond.
Definition as_stored (l : list row) : list row := l.

Definition at_ (c : call) (now : Z) : request := mkRequest c as_stored now.

Lemma at_ok c now : call_ok c -> request_ok (at_ c now).
Proof. intros Hc. split; [exact Hc|]. intros l. reflexivity. Qed.

(** A node, a record of it, and what the constraints refuse. *)
Definition requests : list request :=
  [at_ (CallCreateNode "a") 5; at_ (CallCreateEnrRecord "a" (Some ["ip"; "udp"])) 6; at_ (CallCreateEnrRecord "b" None) 7;
   at_ (CallCreateNode "a") 8; at_ (CallDeleteNode "a") 9; at_ (CallAddQueries (2 ^ 31 - 1) "a") 10; at_ (CallIncrementQuery "a") 11].

Lemma requests_ok : Forall request_ok requests.
Proof. repeat (apply Forall_cons; split; [by apply at_ok|]). by apply Forall_nil. Qed.

Lemma requests_answered :
  (run any_text rounded requests migrated).2 =
  [ANode (inr (mkNode "a" 5000 5000 0 None)); AEnr (inr (mkEnr "a" (Some ["ip"; "udp"]) 6000 6000)); AEnr (inl ForeignKeyViolation);
   ANode (inl UniqueViolation); AExec (Some ForeignKeyViolation); ANode (inr (mkNode "a" 5000 5000 (2 ^ 31 - 1) None));
   ANode (inl OutOfRange)].
Proof. reflexivity. Qed.

Lemma store_refines_witness : consistent any_text (run any_text rounded requests migrated).1.
Proof. exact (proj1 (store_refines any_text rounded requests requests_ok)). Defined.

(** Two nodes of the same instant: the first page and the second one may show
    the same node, and never the other. *)
Definition twins : db := (run any_text rounded [at_ (CallCreateNode "a") 5; at_ (CallCreateNode "b") 5] migrated).1.

Definition backwards (l : list row) : list row := rev l.

Lemma tied_pages :
  (ListNodesByCreation any_text as_stored 1 0 twins).2 = inr [mkNode "a" 5000 5000 0 None] /\
  (ListNodesByCreation any_text backwards 1 1 twins).2 = inr [mkNode "a" 5000 5000 0 None].
Proof. by split. Qed.

Definition first : Node := mkNode "a" 5000 5000 0 None.
Definition second : Node := mkNode "b" 6000 6000 0 None.
Definition two : store := mkStore (<["a"%string := first]> (<["b"%string := second]> ∅)) ∅ ∅.

Lemma two_nodes : Permutation [first; second] (map_to_list (nodes two)).*2.
Proof.
  unfold two. simpl nodes. rewrite map_to_list_insert by reflexivity. rewrite map_to_list_insert by reflexivity.
  rewrite map_to_list_empty. reflexivity.
Qed.

Lemma two_sorted : Sorted (fun a b => Node_AddedAt a <= Node_AddedAt b) [first; second].
Proof. repeat constructor. simpl. lia. Qed.

Lemma two_distinct i a j b : nodes two !! i = Some a -> nodes two !! j = Some b -> Node_AddedAt a = Node_AddedAt b -> a = b.
Proof.
  unfold two. simpl nodes. rewrite !lookup_insert_Some, !lookup_empty.
  intros [[_ <-]|[_ [[_ <-]|[_ [=]]]]] [[_ <-]|[_ [[_ <-]|[_ [=]]]]]; simpl; intros; done || lia.
Qed.

Lemma pages_complete_witness : Permutation [first; second] (map_to_list (nodes two)).*2.
Proof.
  refine (proj1 (pages_complete Node_AddedAt 1 2 two [[first]; [second]] _ _ two_distinct _)); [lia|vm_compute; congruence|].
  assert (Sorted (fun a b => Node_AddedAt a <= Node_AddedAt b) [first; second]) as Hs by exact two_sorted.
  repeat constructor; exists [first; second]; (split; [exact two_nodes|split; [exact Hs|reflexivity]]).
Defined.

End Demo.
