(* ===== verification/DbUse.v ===== *)
(** * What the crawler and the scanner store

    The crawler (Crawler.v) creates a record for each node it is given and
    each peer whose information arrives, the node scanner (NodeScan.v) one for
    each scan; both write to the database of Db.v, which their statements
    meet under the constraints of the schema.  Here the three run beside each
    other.  Neither program ever calls [CreateNode]. *)

From stdpp Require Import base list gmap strings relations.
From Stdlib Require Import ZArith Lia Permutation.
From S2P Require Import Prelude Golang External Instances Nodes NetIP Db DbSpec DbProps.
From S2P Require Crawler Scanner NodeScan.
Local Open Scope Z_scope.

(** The slices of the programs, which may be nil when they are empty. *)
Definition slice {A} (l : list A) (o : option (list A)) : Prop := o = Some l \/ l = [] /\ o = None.

(** The call that an effect of the crawler is, if it is one. *)
Inductive effect_call : Crawler.effect -> call -> Prop :=
| ec_enr id fields o : slice fields o -> effect_call (Crawler.CreateEnrRecord id fields) (CallCreateEnrRecord id o)
| ec_rlp id name version caps o :
    slice caps o -> effect_call (Crawler.CreateRlpRecord id name version caps) (CallCreateRlpRecord id name (i32 version) o).

(** The call of the scanner's callback. *)
Inductive record_call : Scanner.scanRecord -> call -> Prop :=
| rc_scan r o : slice (Scanner.rec_Ports r) o -> record_call r (CallCreateScanRecord (Scanner.rec_Node r) (Scanner.rec_Ip r) o).

Section Use.
Context (valid_text : string -> bool) (timestamptz : Z -> Z).

(** Calls that are made one after the other, at any time and with the rows in
    any order; a call may be lost on its way.  [answers] are those that ran. *)
Inductive performs : list call -> db -> db -> list answer -> Prop :=
| pf_done d : performs [] d d []
| pf_lost c cs d d' answers : performs cs d d' answers -> performs (c :: cs) d d' answers
| pf_call c cs plan now d d' answers :
    (forall l, Permutation (plan l) l) ->
    performs cs (exec valid_text timestamptz plan now c d).1 d' answers ->
    performs (c :: cs) d d' ((exec valid_text timestamptz plan now c d).2 :: answers).

(** The calls of a list of effects, in order; other effects are none. *)
Inductive calls_of {X} (P : X -> call -> Prop) : list X -> list call -> Prop :=
| co_nil : calls_of P [] []
| co_call x c xs cs : P x c -> calls_of P xs cs -> calls_of P (x :: xs) (c :: cs)
| co_none x xs cs : (forall c, ~ P x c) -> calls_of P xs cs -> calls_of P (x :: xs) cs.

Context `{E : Enode} (URLv4 : enode -> string) (RetrieveFieldNames : enode -> list string).
Context (ParseV4 : string -> option IP) (controller : Scanner.ScannerController).

(** The crawler, the scanner, the database, and the answers so far. *)
Record deployment := mkDeployment {
  dp_crawler : Crawler.crawler; dp_scan : NodeScan.scan; dp_db : db; dp_answers : list answer }.

Definition deployed : deployment := mkDeployment Crawler.NewCrawler (NodeScan.new_scan controller) migrated [].

Inductive deployment_step (s : deployment) : deployment -> Prop :=
| dp_crawls c' effs cs d' answers :
    Crawler.crawl_ok URLv4 RetrieveFieldNames (dp_crawler s) c' ->
    Crawler.effects c' = Crawler.effects (dp_crawler s) ++ effs -> calls_of effect_call effs cs ->
    performs cs (dp_db s) d' answers ->
    deployment_step s (mkDeployment c' (dp_scan s) d' (dp_answers s ++ answers))
| dp_scans s' records cs d' answers :
    NodeScan.scan_step ParseV4 (dp_scan s) s' ->
    (NodeScan.s_records s').*2 = (NodeScan.s_records (dp_scan s)).*2 ++ records -> calls_of record_call records cs ->
    performs cs (dp_db s) d' answers ->
    deployment_step s (mkDeployment (dp_crawler s) s' d' (dp_answers s ++ answers)).

(** ** Nothing is stored *)

(** The statement was refused. *)
Definition refused (a : answer) : Prop :=
  match a with
  | AEnr (inl e) | ARlp (inl e) => e = ForeignKeyViolation \/ e = InvalidText
  | AScan (inl e) => e = NotNullViolation "id" \/ e = InvalidText
  | _ => False
  end.

Definition creates (c : call) : Prop :=
  match c with
  | CallCreateEnrRecord _ _ | CallCreateScanRecord _ _ _ => True
  | CallCreateRlpRecord _ _ v _ => int32_ok v = true
  | _ => False
  end.

Lemma int32_ok_i32 z : int32_ok (i32 z) = true.
Proof.
  unfold int32_ok, i32, wrap_s. apply bool_decide_eq_true_2. change (32 - 1) with 31.
  pose proof (Z.mod_pos_bound (z + 2 ^ 31) (2 ^ 32) ltac:(lia)). lia.
Qed.

Lemma repr_empty d : repr valid_text d empty_store -> d = migrated.
Proof.
  intros Hr. assert (forall A (id_of : A -> string) enc l, holds id_of enc l ∅ -> l = []) as Hnil.
  { intros A id_of enc l [Hp _]. unfold held in Hp. rewrite map_to_list_empty in Hp. by apply Permutation_nil_r in Hp. }
  destruct Hr as [H1 H2 H3 H4 _ _ _ _ _]. apply Hnil in H1, H2, H3. destruct d. simpl in *. by subst.
Qed.

(** A record without its node, or without its key, is refused. *)
Lemma create_refused plan now c :
  (forall l, Permutation (plan l) l) -> creates c ->
  (exec valid_text timestamptz plan now c migrated).1 = migrated /\ refused (exec valid_text timestamptz plan now c migrated).2.
Proof.
  intros Hp Hc. assert (call_ok c) as Hok by by destruct c.
  destruct (call_refined valid_text timestamptz plan Hp now c Hok migrated empty_store (migrated_repr _)) as (st' & Hs & Hr).
  assert (st' = empty_store /\ refused (exec valid_text timestamptz plan now c migrated).2) as [-> Ha];
    [|split; [by apply repr_empty|done]].
  destruct (exec _ _ _ _ _ _) as [d a]. clear Hr Hok. simpl in *. destruct c; try done; simpl in Hs.
  - unfold Spec.CreateEnrRecord in Hs. destruct (negb _); [|cbn in Hs; rewrite !lookup_empty in Hs; cbn in Hs];
      injection Hs as -> ->; (split; [done|]); simpl; auto.
  - unfold Spec.CreateRlpRecord in Hs. destruct (negb _); [|cbn in Hs; rewrite !lookup_empty in Hs; cbn in Hs];
      injection Hs as -> ->; (split; [done|]); simpl; auto.
  - destruct Hs as [-> ->]. split; [done|]. unfold Spec.CreateScanRecord. destruct (negb _); simpl; auto.
Qed.

Lemma performs_nothing cs d' answers :
  Forall creates cs -> performs cs migrated d' answers -> d' = migrated /\ Forall refused answers.
Proof.
  intros Hc Hp. remember migrated as d eqn:Ed. induction Hp as [d|c cs d d' answers Hp IH|c cs plan now d d' answers Hpl Hp IH]; subst.
  - done.
  - apply Forall_cons in Hc as [_ Hc]. by apply IH.
  - apply Forall_cons in Hc as [Hc Hcs]. destruct (create_refused plan now c Hpl Hc) as [Hd Ha].
    destruct (IH Hcs Hd) as [-> Hf]. split; [done|by constructor].
Qed.

Lemma calls_create {X} (P : X -> call -> Prop) xs cs :
  (forall x c, P x c -> creates c) -> calls_of P xs cs -> Forall creates cs.
Proof. intros HP. induction 1; eauto. Qed.

Lemma effects_create e c : effect_call e c -> creates c.
Proof. destruct 1; [done|]. apply int32_ok_i32. Qed.

Lemma records_create r c : record_call r c -> creates c.
Proof. by destruct 1. Qed.

Lemma deployment_inv s s' :
  (dp_db s = migrated /\ Forall refused (dp_answers s)) -> deployment_step s s' ->
  dp_db s' = migrated /\ Forall refused (dp_answers s').
Proof.
  intros [Hd Hf] Hs. destruct Hs as [c' effs cs d' answers _ _ Hc Hp|s' records cs d' answers _ _ Hc Hp]; simpl; rewrite Hd in Hp;
    (apply performs_nothing in Hp as [-> Ha]; [split; [done|by apply Forall_app]|]).
  - by eapply calls_create; [apply effects_create|].
  - by eapply calls_create; [apply records_create|].
Qed.

(** C36: the database stays empty.  However the crawler and the node scanner
    run beside each other on the migrated schema, every record they create is
    refused: those of the crawler because the node they refer to was never
    created, those of the scanner because the statement gives no primary key;
    unless the encoding refuses their text before that. *)
Theorem nothing_is_stored s :
  rtc deployment_step deployed s -> dp_db s = migrated /\ Forall refused (dp_answers s).
Proof.
  intros Hr. apply (rtc_invariant deployment_step (fun s => dp_db s = migrated /\ Forall refused (dp_answers s)) deployed s deployment_inv); [|done].
  split; [done|constructor].
Qed.

(** Had the crawler created the node first, its record would be stored. *)
Lemma record_of_created_node plan now now' id fields :
  (forall l, Permutation (plan l) l) -> valid_text id = true -> Spec.texts_ok valid_text fields = true ->
  let d := (CreateNode valid_text plan now id migrated).1 in
  (CreateEnrRecord valid_text plan now' id fields d).2 = inr (mkEnr id fields (of_us now') (of_us now')).
Proof.
  intros Hp Hv Hf d.
  destruct (call_refined valid_text timestamptz plan Hp now (CallCreateNode id) I migrated empty_store (migrated_repr _))
    as (st1 & Hs1 & Hr1).
  destruct (call_refined valid_text timestamptz plan Hp now' (CallCreateEnrRecord id fields) I _ st1 Hr1) as (st2 & Hs2 & _).
  simpl in Hs1, Hs2, Hr1. fold d in Hs2.
  unfold Spec.CreateNode in Hs1. rewrite Hv in Hs1. simpl in Hs1. rewrite lookup_empty in Hs1. injection Hs1 as -> _.
  unfold Spec.CreateEnrRecord in Hs2. rewrite Hv, Hf in Hs2. simpl in Hs2. rewrite lookup_empty, lookup_insert_eq in Hs2.
  destruct (CreateEnrRecord valid_text plan now' id fields d) as [d2 r]. simpl in *. by injection Hs2.
Qed.

End Use.

(** ** One node and one scan *)

Module Demo.

Import Instances.

Definition url (n : record) : string := "enode://a".
Definition names (n : record) : list string := ["ip"%string].
Definition parse (enr : string) : option IP := Some [9; 9; 9; 9].
Definition one : Scanner.ScannerController := Scanner.NewScannerController 1 10 Second.
Definition peer : record := mkRecord 1 [9; 9; 9; 9] 30303 30303 1.

Definition crawled : Crawler.crawler := Crawler.Crawl_node url names peer Crawler.NewCrawler.
Definition stored : deployment :=
  mkDeployment crawled (NodeScan.new_scan one) migrated [AEnr (inl ForeignKeyViolation)].

Lemma stored_reachable :
  rtc (deployment_step DbProps.Demo.any_text DbProps.Demo.rounded url names parse) (deployed one) stored.
Proof.
  apply rtc_once.
  refine (dp_crawls DbProps.Demo.any_text DbProps.Demo.rounded url names parse (deployed one) crawled (Crawler.effects crawled)
    [CallCreateEnrRecord "enode://a" (Some ["ip"%string])] migrated _ (Crawler.cs_node url names _ peer) eq_refl _ _).
  - apply co_none; [by intros c Hc; inversion Hc|]. apply co_call; [apply ec_enr; by left|].
    apply co_none; [by intros c Hc; inversion Hc|]. apply co_nil.
  - exact (pf_call DbProps.Demo.any_text DbProps.Demo.rounded (CallCreateEnrRecord "enode://a" (Some ["ip"%string])) []
      DbProps.Demo.as_stored 7 migrated migrated [] (fun _ => reflexivity _) (pf_done _ _ migrated)).
Qed.

Lemma nothing_is_stored_witness : dp_db stored = migrated /\ Forall refused (dp_answers stored).
Proof. exact (nothing_is_stored DbProps.Demo.any_text DbProps.Demo.rounded url names parse one stored stored_reachable). Defined.

End Demo.
