(* ===== verification/Metrics.v ===== *)
(** * Metrics: what the recorders register and record

    Each component records what it does through a recorder: crawler/net/
    discovery/recorder.go, crawler/crawler/metrics.go, crawler/workers/runner/
    metrics.go, scanner/scanner/recorder.go and service/broker/recorder.go.
    Their metrics come from the factory of service/metrics (Service.v), which
    registers them with Prometheus once metrics are enabled.  Prometheus is the
    class below; a registration that it refuses panics. *)

From Stdlib Require Import ZArith Lia String.
From stdpp Require Import base list strings pretty.
From S2P Require Import Prelude Golang Procs Service.
From S2P Require PacketHandler Workers.
Local Open Scope Z_scope.

(** ** Prometheus *)

Class Prometheus := {
  registry : Type;
  (* a registry with the collectors of the process, of Go and of the build *)
  NewRegistry : registry;
  names : registry -> list string;
  valid_name : string -> bool;
  valid_value : string -> bool;
  BuildFQName : string -> string -> string -> string;
  (* registers a metric by its full name and its labels, unless it is refused *)
  register : string -> list string -> registry -> option registry }.

(** The names of the collectors' metrics. *)
Definition collectors_own (s : string) : bool := String.prefix "go_" s || String.prefix "process_" s.

(** Names of small letters, digits and underscores that begin with a letter. *)
Definition within (lo hi : nat) (c : Ascii.ascii) : bool := (lo <=? Ascii.nat_of_ascii c)%nat && (Ascii.nat_of_ascii c <=? hi)%nat.

Fixpoint plain_rest (s : string) : bool :=
  match s with
  | EmptyString => true
  | String c s' => (within 97 122 c || within 48 57 c || within 95 95 c) && plain_rest s'
  end.

Definition plain (s : string) : bool := match s with EmptyString => false | String c s' => within 97 122 c && plain_rest s' end.

Fixpoint ascii_only (s : string) : bool :=
  match s with EmptyString => true | String c s' => (Ascii.nat_of_ascii c <? 128)%nat && ascii_only s' end.

Class PrometheusLaws `(P : Prometheus) : Prop := {
  NewRegistry_names s : In s (names NewRegistry) -> collectors_own s = true;
  plain_valid s : plain s = true -> valid_name s = true;
  ascii_valid s : ascii_only s = true -> valid_value s = true;
  BuildFQName_joins ns sub name : ns <> EmptyString -> name <> EmptyString ->
    BuildFQName ns sub name =
      (ns +:+ (if decide (sub = EmptyString) then EmptyString else "_" +:+ sub) +:+ "_" +:+ name)%string;
  register_fresh fq labels r :
    valid_name fq = true -> forallb valid_name labels = true -> ~ In fq (names r) ->
    exists r', register fq labels r = Some r' /\ forall s, In s (names r') <-> s = fq \/ In s (names r);
  register_taken fq labels r : In fq (names r) -> register fq labels r = None }.

(** ** service/metrics: the factory on top of a registry *)

(** [float64] of an integer, or of a duration in seconds. *)
Inductive amount : Set := Added (z : Z) | Observed (z : Z) | ObservedSeconds (d : Z) | SetTo (z : Z).

Record observation := mkObservation { ob_name : string; ob_labels : list (string * string); ob_amount : amount }.

Section Metrics.
Context `{P : Prometheus}.

Record metrics := mkMetrics {
  enabled : bool; factory : list MetricDescription; registered : registry; observed : list observation }.

(** The process before it does anything, and [Enable]. *)
Definition process : metrics := mkMetrics false [] NewRegistry [].

Definition Enabled : proc metrics bool := s ← Procs.get; mret (enabled s).

Definition Enable : proc metrics () := modify (fun s => mkMetrics true (factory s) (registered s) (observed s)).

(** The route of the handler is the engine's; the collector that is made here
    is dropped. *)
Definition RegisterMetricsHandler : proc metrics () := Enable.

(** What a factory's method does, which [new_metric] of Service.v says, and
    the registration. *)
Definition declare (ty : metric_type) (o : Opts) (labels : option (list string)) : proc metrics metric :=
  s ← Procs.get;
  let '(f, x) := new_metric (enabled s) ty o labels (factory s) in
  match x with
  | Noop => mret Noop
  | Registered _ _ _ ls =>
      match register (BuildFQName (Namespace o) (Subsystem o) (o_Name o)) ls (registered s) with
      | Some r => modify (fun _ => mkMetrics (enabled s) f r (observed s));; mret x
      | None => crash Raised
      end
  end.

Definition Counter o := declare typeCounter o None.
Definition CounterVec o labels := declare typeCounter o (Some labels).
Definition HistogramVec o labels := declare typeHistogram o (Some labels).
Definition Summary o := declare typeSummary o None.
Definition SummaryVec o labels := declare typeSummary o (Some labels).

(** A metric with the values of its labels; [None] is a metric that does
    nothing. *)
Definition child : Type := option (metric_type * string * list (string * string)).

Definition WithLabelValues (x : metric) (values : list string) : proc metrics child :=
  match x with
  | Noop => mret None
  | Registered ty _ o labels =>
      if decide (length values = length labels) then
        if forallb valid_value values
        then mret (Some (ty, BuildFQName (Namespace o) (Subsystem o) (o_Name o), zip labels values))
        else crash Raised
      else crash Raised
  end.

(** A metric without labels. *)
Definition self (x : metric) : child :=
  match x with
  | Noop => None
  | Registered ty _ o _ => Some (ty, BuildFQName (Namespace o) (Subsystem o) (o_Name o), [])
  end.

Definition note (c : child) (a : amount) : proc metrics () :=
  match c with
  | None => mret tt
  | Some (_, name, labels) =>
      modify (fun s => mkMetrics (enabled s) (factory s) (registered s) (observed s ++ [mkObservation name labels a]))
  end.

(** A counter does not decrease. *)
Definition Add (c : child) (z : Z) : proc metrics () :=
  match c with
  | Some (typeCounter, _, _) => if decide (z < 0) then crash Raised else note c (Added z)
  | _ => note c (Added z)
  end.

Definition Inc (c : child) : proc metrics () := Add c 1.
Definition Sub (c : child) (z : Z) : proc metrics () := Add c (- z).
Definition Dec (c : child) : proc metrics () := Add c (- 1).
Definition Set_ (c : child) (z : Z) : proc metrics () := note c (SetTo z).
Definition Observe (c : child) (z : Z) : proc metrics () := note c (Observed z).

Definition FormatBool (b : bool) : string := if b then "true" else "false".
Definition Itoa (z : Z) : string := pretty z.

End Metrics.

(** ** The recorders *)

(** *** crawler/net/discovery/recorder.go *)
Module Discovery.
Section Discovery.
Context `{P : Prometheus}.

Definition labels : list string := ["method"; "response_code"; "external"]%string.

Inductive Recorder : Type := noOpRecorder | recorder (rpcHist rpcCounter : metric).

Definition newRecorder : proc metrics Recorder :=
  e ← Enabled;
  if negb e then mret noOpRecorder
  else
    rpcHist ← HistogramVec (mkOpts "discovery" "v4" "rpc_duration" "histogram of executed rpc methods") labels;
    rpcCounter ← CounterVec (mkOpts "discovery" "v4" "rpc_counter" "histogram of executed rpc methods") labels;
    mret (recorder rpcHist rpcCounter).

Definition RecordRpcDuration (r : Recorder) (dur : Z) (method : string) (code : Z) (ext : bool) : proc metrics () :=
  match r with
  | noOpRecorder => mret tt
  | recorder rpcHist _ => c ← WithLabelValues rpcHist [method; Itoa code; FormatBool ext]; Observe c (Z.quot dur Millisecond)
  end.

Definition RecordRpcRequest (r : Recorder) (method : string) (code : Z) (ext : bool) : proc metrics () :=
  match r with
  | noOpRecorder => mret tt
  | recorder _ rpcCounter => c ← WithLabelValues rpcCounter [method; Itoa code; FormatBool ext]; Inc c
  end.

(** The calls that PacketHandler.v lists. *)
Definition record (r : Recorder) (x : PacketHandler.recording) : proc metrics () :=
  match x with
  | PacketHandler.RecordRpcDuration dur method code ext => RecordRpcDuration r dur method code ext
  | PacketHandler.RecordRpcRequest method code ext => RecordRpcRequest r method code ext
  end.

End Discovery.
End Discovery.

(** *** crawler/crawler/metrics.go *)
Module Crawl.
Section Crawl.
Context `{P : Prometheus}.

Inductive Recorder : Type := noOpRecorder | crawlRecorder (targeted useless recv lookup : metric).

Definition newRecorder : proc metrics Recorder :=
  e ← Enabled;
  if negb e then mret noOpRecorder
  else
    targeted ← Counter (mkOpts "crawl" "crawler" "targeted_nodes" "amount of nodes meeting filter requirements");
    useless ← Counter (mkOpts "crawl" "crawler" "useless_nodes" "amount of nodes not meeting filter requirements");
    recv ← Counter (mkOpts "crawl" "crawler" "recv_nodes" "amount of received nodes");
    lookup ← Counter (mkOpts "crawl" "crawler" "lookup_iterations" "amount of lookup done of accepeted nodes");
    mret (crawlRecorder targeted useless recv lookup).

Inductive event : Set := TargetedNode | UselessNode | RecvNode | Lookup.

(** [RecordTargetedNode], [RecordUselessNode], [RecordRecvNode] and
    [RecordLookup]. *)
Definition record (r : Recorder) (e : event) : proc metrics () :=
  match r with
  | noOpRecorder => mret tt
  | crawlRecorder targeted useless recv lookup =>
      Inc (self match e with TargetedNode => targeted | UselessNode => useless | RecvNode => recv | Lookup => lookup end)
  end.

End Crawl.
End Crawl.

(** *** crawler/workers/runner/metrics.go *)
Module Runner.
Section Runner.
Context `{P : Prometheus}.

(** The variables of the package. *)
Record vars := mkVars { metricsCounter : metric; metricsSummaryRecv : metric; metricsSummaryOp : metric; metricsSummaryWrite : metric }.

Definition runnerType : list string := ["runnerType"%string].

(** Their initialisation, before [main]. *)
Definition init : proc metrics vars :=
  c ← CounterVec (mkOpts "workers" "runner" "loops" "amount of iterations done by workers") runnerType;
  r ← SummaryVec (mkOpts "workers" "runner" "recv_time" "recv time stats across workers") runnerType;
  o ← SummaryVec (mkOpts "workers" "runner" "op_time" "op time stats across workers") runnerType;
  w ← SummaryVec (mkOpts "workers" "runner" "write_time" "write time stats across workers") runnerType;
  mret (mkVars c r o w).

Record RunnerRecorder := mkRunnerRecorder { c : child; t_recv : child; t_op : child; t_write : child }.

Definition newRecorder (v : vars) (runner_id : string) (write : bool) : proc metrics RunnerRecorder :=
  c ← WithLabelValues (metricsCounter v) [runner_id];
  t_recv ← WithLabelValues (metricsSummaryRecv v) [runner_id];
  t_op ← WithLabelValues (metricsSummaryOp v) [runner_id];
  t_write ← (if write then WithLabelValues (metricsSummaryWrite v) [runner_id] else mret None);
  mret (mkRunnerRecorder c t_recv t_op t_write).

(** A recorder's calls of Workers.v, with the duration. *)
Definition record (r : RunnerRecorder) (x : Workers.record_call) (d : Z) : proc metrics () :=
  match x with
  | Workers.Loop => Inc (c r)
  | Workers.RecvTime => Observe (t_recv r) d
  | Workers.OpTime => Observe (t_op r) d
  | Workers.WriteTime => Observe (t_write r) d
  end.

Fixpoint records (r : RunnerRecorder) (l : list (Workers.record_call * Z)) : proc metrics () :=
  match l with
  | [] => mret tt
  | (x, d) :: l' => record r x d;; records r l'
  end.

(** [Start] of a runner with metrics, and what its work loops record. *)
Definition run (v : vars) (runner_id : string) (write : bool) (l : list (Workers.record_call * Z)) : proc metrics () :=
  r ← newRecorder v runner_id write; records r l.

End Runner.
End Runner.

(** *** scanner/scanner/recorder.go *)
Module Scanner.
Section Scanner.
Context `{P : Prometheus}.

Record Recorder := mkRecorder { scanMeter : metric; scanCount : metric; portScan : metric }.

Definition newRecorder : proc metrics Recorder :=
  scanMeter ← Summary (mkOpts "scanner" "" "scan_duration" "amount elapsed to make whole scan");
  scanCount ← Counter (mkOpts "scanner" "" "scan_count" "amount of scans done");
  portScan ← CounterVec (mkOpts "scanner" "" "port_count" "amount of ports scanned") ["open"%string];
  mret (mkRecorder scanMeter scanCount portScan).

Definition RecordScan (r : Recorder) (duration : Z) : proc metrics () :=
  note (self (scanMeter r)) (ObservedSeconds duration);; Inc (self (scanCount r)).

Definition RecordPortScan (r : Recorder) (open : bool) : proc metrics () :=
  c ← WithLabelValues (portScan r) [FormatBool open]; Inc c.

End Scanner.
End Scanner.

(** *** service/broker/recorder.go *)
Module Broker.
Section Broker.
Context `{P : Prometheus}.

Record Recorder := mkRecorder { egressMeter : metric; egressCount : metric; ingressMeter : metric; ingressCount : metric }.

Definition NewRecorder : proc metrics Recorder :=
  egressMeter ← Counter (mkOpts "broker" "" "egress_amount" "amount of data sent through broker");
  egressCount ← Counter (mkOpts "broker" "" "egress_count" "how many times data has been sent through broker");
  ingressMeter ← Counter (mkOpts "broker" "" "ingress_amount" "amount of data recv through broker");
  ingressCount ← Counter (mkOpts "broker" "" "ingress_count" "how many times data has been recv through broker");
  mret (mkRecorder egressMeter egressCount ingressMeter ingressCount).

Definition RecordEgress (r : Recorder) (size : Z) : proc metrics () :=
  Add (self (egressMeter r)) size;; Inc (self (egressCount r)).

Definition RecordIngress (r : Recorder) (size : Z) : proc metrics () :=
  Add (self (ingressMeter r)) size;; Inc (self (ingressCount r)).

End Broker.
End Broker.

(** ** The applications

    What each process does with metrics, in order: the variables of package
    runner are initialised, the metrics enabled if the flags say so, and the
    recorders of the parts made.  The broker of a crawl without one records
    nothing. *)

Section Apps.
Context `{P : Prometheus}.

Record crawl_recorders := mkCrawlRecorders {
  runner_vars : Runner.vars; broker_recorder : option Broker.Recorder;
  handler_recorder : Discovery.Recorder; crawler_recorder : Crawl.Recorder }.

Definition crawl_app (Metrics BrokerEnabled : bool) : proc metrics crawl_recorders :=
  vars ← Runner.init;
  (if Metrics then RegisterMetricsHandler else mret tt);;
  broker ← (if BrokerEnabled then r ← Broker.NewRecorder; mret (Some r) else mret None);
  handler ← Discovery.newRecorder;
  crawler ← Crawl.newRecorder;
  mret (mkCrawlRecorders vars broker handler crawler).

(** The calls of the recorders by the parts of the crawl application. *)
Inductive report : Type :=
| HandlerReport (x : PacketHandler.recording)
| CrawlerReport (e : Crawl.event)
| Egress (size : Z)
| Ingress (size : Z)
| RunnerReport (runner_id : string) (write : bool) (l : list (Workers.record_call * Z)).

Definition broker_report (f : Broker.Recorder -> proc metrics ()) (r : option Broker.Recorder) : proc metrics () :=
  match r with Some r => f r | None => mret tt end.

Definition crawl_report (r : crawl_recorders) (x : report) : proc metrics () :=
  match x with
  | HandlerReport x => Discovery.record (handler_recorder r) x
  | CrawlerReport e => Crawl.record (crawler_recorder r) e
  | Egress size => broker_report (fun b => Broker.RecordEgress b size) (broker_recorder r)
  | Ingress size => broker_report (fun b => Broker.RecordIngress b size) (broker_recorder r)
  | RunnerReport id write l => Runner.run (runner_vars r) id write l
  end.

(** The scan of new nodes: [Setup] and [Run]. *)
Definition scan_app (Metrics : bool) : proc metrics (Broker.Recorder * Scanner.Recorder) :=
  (if Metrics then RegisterMetricsHandler else mret tt);;
  broker ← Broker.NewRecorder;
  controller ← Scanner.newRecorder;
  mret (broker, controller).

Inductive scan_report_ : Set := Scanned (duration : Z) | PortScanned (open : bool) | ScanIngress (size : Z).

Definition scan_report (r : Broker.Recorder * Scanner.Recorder) (x : scan_report_) : proc metrics () :=
  match x with
  | Scanned d => Scanner.RecordScan r.2 d
  | PortScanned open => Scanner.RecordPortScan r.2 open
  | ScanIngress size => Broker.RecordIngress r.1 size
  end.

Fixpoint reports {X} (f : X -> proc metrics ()) (l : list X) : proc metrics () :=
  match l with [] => mret tt | x :: l' => f x;; reports f l' end.

(** ** What is documented and observed *)

Definition described (ty : metric_type) (o : Opts) (labels : option (list string)) : MetricDescription :=
  mkDescription (type_name ty) (fullName (Namespace o) (Subsystem o) (o_Name o)) (Help o) labels.

Definition counts (name : string) (labels : list (string * string)) : observation := mkObservation name labels (Added 1).

Definition rpc_labels (method : string) (code : Z) (ext : bool) : list (string * string) :=
  [("method", method); ("response_code", Itoa code); ("external", FormatBool ext)]%string.

(** What a report adds when metrics are enabled.  The runners add nothing:
    their metrics were made before. *)
Definition observations (broker : bool) (x : report) : list observation :=
  match x with
  | HandlerReport (PacketHandler.RecordRpcDuration dur method code ext) =>
      [mkObservation "discovery_v4_rpc_duration" (rpc_labels method code ext) (Observed (Z.quot dur Millisecond))]
  | HandlerReport (PacketHandler.RecordRpcRequest method code ext) =>
      [counts "discovery_v4_rpc_counter" (rpc_labels method code ext)]
  | CrawlerReport Crawl.TargetedNode => [counts "crawl_crawler_targeted_nodes" []]
  | CrawlerReport Crawl.UselessNode => [counts "crawl_crawler_useless_nodes" []]
  | CrawlerReport Crawl.RecvNode => [counts "crawl_crawler_recv_nodes" []]
  | CrawlerReport Crawl.Lookup => [counts "crawl_crawler_lookup_iterations" []]
  | Egress size => if broker then [mkObservation "broker_egress_amount" [] (Added size); counts "broker_egress_count" []] else []
  | Ingress size => if broker then [mkObservation "broker_ingress_amount" [] (Added size); counts "broker_ingress_count" []] else []
  | RunnerReport _ _ _ => []
  end.

Definition scan_observations (x : scan_report_) : list observation :=
  match x with
  | Scanned d => [mkObservation "scanner_scan_duration" [] (ObservedSeconds d); counts "scanner_scan_count" []]
  | PortScanned open => [counts "scanner_port_count" [("open", FormatBool open)]%string]
  | ScanIngress size => [mkObservation "broker_ingress_amount" [] (Added size); counts "broker_ingress_count" []]
  end.

(** A method's name is a valid value of a label, a code is one of the packet
    handler's, and a size is none below 0. *)
Definition report_ok (x : report) : Prop :=
  match x with
  | HandlerReport (PacketHandler.RecordRpcDuration _ method code ext) | HandlerReport (PacketHandler.RecordRpcRequest method code ext) =>
      valid_value method = true /\ (code = 200 \/ code = 404)
  | Egress size | Ingress size => 0 <= size
  | _ => True
  end.

Definition scan_report_ok (x : scan_report_) : Prop := match x with ScanIngress size => 0 <= size | _ => True end.

(** ** Facts *)

Context {L : PrometheusLaws P}.

(** The registry has the collectors' metrics and those that are documented. *)
Definition exact (s : metrics) : Prop :=
  forall n, In n (names (registered s)) <-> In n (names NewRegistry) \/ In n (map d_Name (factory s)).

Lemma process_exact : exact process.
Proof. intros n. simpl. tauto. Qed.

(** The metrics that Prometheus takes beside those that are documented. *)
Definition admissible (o : Opts) (labels : list string) (documented : list string) : bool :=
  let fq := fullName (Namespace o) (Subsystem o) (o_Name o) in
  negb (bool_decide (Namespace o = EmptyString)) && negb (bool_decide (o_Name o = EmptyString)) && plain fq &&
  forallb plain labels &&
  negb (collectors_own fq) && negb (existsb (String.eqb fq) documented).

Lemma append_assoc (a b c : string) : ((a +:+ b) +:+ c)%string = (a +:+ (b +:+ c))%string.
Proof. induction a as [|x a IH]; [done|]. exact (f_equal (String x) IH). Qed.

(** The name that is documented is the one that is registered. *)
Lemma fullName_BuildFQName ns sub name :
  ns <> EmptyString -> name <> EmptyString -> BuildFQName ns sub name = fullName ns sub name.
Proof.
  intros Hn Hm. rewrite BuildFQName_joins by done. unfold fullName. by destruct (decide (sub = "")); rewrite ?append_assoc.
Qed.

Lemma names_valid labels : forallb plain labels = true -> forallb valid_name labels = true.
Proof. rewrite !forallb_forall. intros H l Hl. by apply plain_valid, H. Qed.

Lemma existsb_names s l : existsb (String.eqb s) l = false -> ~ In s l.
Proof.
  intros H Hin. apply not_true_iff_false in H. apply H, existsb_exists. exists s. by rewrite String.eqb_refl.
Qed.

(** A process that has made the metrics [documented], if they are enabled, and
    has observed nothing. *)
Definition started (on : bool) (documented : list string) (s : metrics) : Prop :=
  enabled s = on /\ exact s /\ observed s = [] /\ map d_Name (factory s) = if on then documented else [].

Lemma wp_declare ty o labels documented (Q : metrics -> option metric -> Prop) s :
  started true documented s -> admissible o (default [] labels) documented = true ->
  (forall s', started true (documented ++ [fullName (Namespace o) (Subsystem o) (o_Name o)]) s' ->
     Q s' (Some (Registered ty (match labels with Some _ => true | None => false end) o (default [] labels)))) ->
  wp (declare ty o labels) Q s.
Proof.
  intros (He & Hx & Ho & Hf) Ha HQ. unfold admissible in Ha. rewrite !andb_true_iff, !negb_true_iff, !bool_decide_eq_false in Ha.
  destruct Ha as (((((Hn & Hm) & Hp) & Hl) & Hc) & Hd). apply existsb_names in Hd. rewrite <- Hf in Hd.
  unfold declare. apply wp_bind, wp_get. unfold new_metric. rewrite He. cbn [negb].
  rewrite fullName_BuildFQName by done.
  destruct (register_fresh (fullName (Namespace o) (Subsystem o) (o_Name o)) (default [] labels) (registered s)) as (r & -> & Hr).
  { by apply plain_valid. }
  { by apply names_valid. }
  { rewrite (Hx _). intros [Hin|Hin]; [|done]. apply NewRegistry_names in Hin. congruence. }
  apply wp_bind, wp_modify, wp_ret, HQ. split_and!; [done| |done|by simpl; rewrite map_app, Hf].
  intros n. cbn [registered factory]. rewrite Hr, (Hx n), map_app, in_app_iff. simpl. intuition.
Qed.

(** Without metrics nothing happens. *)
Lemma wp_declare_disabled ty o labels (Q : metrics -> option metric -> Prop) s :
  enabled s = false -> Q s (Some Noop) -> wp (declare ty o labels) Q s.
Proof. intros He HQ. unfold declare. apply wp_bind, wp_get. unfold new_metric. rewrite He. exact HQ. Qed.

Lemma wp_Enabled on documented (Q : metrics -> option bool -> Prop) s :
  started on documented s -> Q s (Some on) -> wp Enabled Q s.
Proof. intros (<- & _) HQ. exact HQ. Qed.

(** *** Observing *)

Definition observe (l : list observation) (s : metrics) : metrics :=
  mkMetrics (enabled s) (factory s) (registered s) (observed s ++ l).

Lemma observe_nil s : observe [] s = s.
Proof. destruct s. unfold observe. simpl. by rewrite app_nil_r. Qed.

Lemma observe_app l l' s : observe l' (observe l s) = observe (l ++ l') s.
Proof. unfold observe. simpl. by rewrite <- app_assoc. Qed.

(** [m] only adds the observations [l]. *)
Definition observes (m : proc metrics ()) (l : list observation) : Prop := forall s, m s = Returns (observe l s) tt.

Lemma observes_nothing : observes (mret tt) [].
Proof. intros s. by rewrite observe_nil. Qed.

Lemma observes_then (m m' : proc metrics ()) l l' : observes m l -> observes m' l' -> observes (m;; m') (l ++ l').
Proof. intros Hm Hm' s. unfold mbind, proc_bind. by rewrite Hm, Hm', observe_app. Qed.

Lemma observes_note ty name labels a : observes (note (Some (ty, name, labels)) a) [mkObservation name labels a].
Proof. intros s. done. Qed.

Lemma observes_add ty name labels z : 0 <= z -> observes (Add (Some (ty, name, labels)) z) [mkObservation name labels (Added z)].
Proof. intros Hz s. unfold Add. destruct ty; [rewrite decide_False by lia|..]; done. Qed.

(** A metric that was registered, with its labels. *)
Lemma with_labels ty vec o labels values (k : child -> proc metrics ()) l :
  length values = length labels -> Forall (fun v => valid_value v = true) values ->
  observes (k (Some (ty, BuildFQName (Namespace o) (Subsystem o) (o_Name o), zip labels values))) l ->
  observes (x ← WithLabelValues (Registered ty vec o labels) values; k x) l.
Proof.
  intros Hl Hv Hk s. unfold WithLabelValues. rewrite decide_True by done.
  assert (forallb valid_value values = true) as -> by (apply forallb_forall; by apply List.Forall_forall). apply Hk.
Qed.

Lemma reports_observe {X} (f : X -> proc metrics ()) (g : X -> list observation) (ok : X -> Prop) l :
  (forall x, ok x -> observes (f x) (g x)) -> Forall ok l -> observes (reports f l) (flat_map g l).
Proof.
  intros Hf Hl. induction Hl as [|x l Hx Hl IH]; [apply observes_nothing|]. apply observes_then; [by apply Hf|done].
Qed.

(** *** The recorders that are made *)

Definition counter_ (ns sub name help : string) : metric := Registered typeCounter false (mkOpts ns sub name help) [].

Definition made_broker : Broker.Recorder := Broker.mkRecorder
  (counter_ "broker" "" "egress_amount" "amount of data sent through broker")
  (counter_ "broker" "" "egress_count" "how many times data has been sent through broker")
  (counter_ "broker" "" "ingress_amount" "amount of data recv through broker")
  (counter_ "broker" "" "ingress_count" "how many times data has been recv through broker").

Definition made_handler : Discovery.Recorder := Discovery.recorder
  (Registered typeHistogram true (mkOpts "discovery" "v4" "rpc_duration" "histogram of executed rpc methods") Discovery.labels)
  (Registered typeCounter true (mkOpts "discovery" "v4" "rpc_counter" "histogram of executed rpc methods") Discovery.labels).

Definition made_crawler : Crawl.Recorder := Crawl.crawlRecorder
  (counter_ "crawl" "crawler" "targeted_nodes" "amount of nodes meeting filter requirements")
  (counter_ "crawl" "crawler" "useless_nodes" "amount of nodes not meeting filter requirements")
  (counter_ "crawl" "crawler" "recv_nodes" "amount of received nodes")
  (counter_ "crawl" "crawler" "lookup_iterations" "amount of lookup done of accepeted nodes").

Definition made_scanner : Scanner.Recorder := Scanner.mkRecorder
  (Registered typeSummary false (mkOpts "scanner" "" "scan_duration" "amount elapsed to make whole scan") [])
  (counter_ "scanner" "" "scan_count" "amount of scans done")
  (Registered typeCounter true (mkOpts "scanner" "" "port_count" "amount of ports scanned") ["open"%string]).

Definition noop_broker : Broker.Recorder := Broker.mkRecorder Noop Noop Noop Noop.

Definition noop_vars : Runner.vars := Runner.mkVars Noop Noop Noop Noop.

(** The names that are documented. *)
Definition broker_names : list string :=
  ["broker_egress_amount"; "broker_egress_count"; "broker_ingress_amount"; "broker_ingress_count"]%string.

Definition crawl_names (broker : bool) : list string :=
  ((if broker then broker_names else []) ++
  ["discovery_v4_rpc_duration"; "discovery_v4_rpc_counter"; "crawl_crawler_targeted_nodes"; "crawl_crawler_useless_nodes";
   "crawl_crawler_recv_nodes"; "crawl_crawler_lookup_iterations"]%string)%list.

Definition scan_names : list string :=
  (broker_names ++ ["scanner_scan_duration"; "scanner_scan_count"; "scanner_port_count"]%string)%list.

Ltac declare_metric :=
  apply wp_bind; eapply wp_declare; [eassumption|vm_compute; reflexivity|intros; cbn beta iota].

Ltac skip_metric := apply wp_bind, wp_declare_disabled; [assumption|cbn beta iota].

Lemma init_disabled (Q : metrics -> option Runner.vars -> Prop) s :
  enabled s = false -> Q s (Some noop_vars) -> wp Runner.init Q s.
Proof. intros He HQ. unfold Runner.init, CounterVec, SummaryVec. do 4 skip_metric. exact HQ. Qed.

(** Each recorder's metrics are admissible after those before them. *)
Lemma wp_broker on documented (Q : metrics -> option Broker.Recorder -> Prop) s :
  started on documented s -> documented = [] ->
  (forall s', started on broker_names s' -> Q s' (Some (if on then made_broker else noop_broker))) -> wp Broker.NewRecorder Q s.
Proof.
  intros Hs -> HQ. unfold Broker.NewRecorder, Counter. destruct on.
  - do 4 declare_metric. by apply wp_ret, HQ.
  - destruct Hs as (He & Hs). do 4 skip_metric. apply wp_ret, HQ. by split.
Qed.

Lemma wp_handler on documented (Q : metrics -> option Discovery.Recorder -> Prop) s :
  started on documented s -> In documented [[]; broker_names] ->
  (forall s', started on (documented ++ ["discovery_v4_rpc_duration"; "discovery_v4_rpc_counter"]%string) s' ->
     Q s' (Some (if on then made_handler else Discovery.noOpRecorder))) -> wp Discovery.newRecorder Q s.
Proof.
  intros Hs Hd HQ. unfold Discovery.newRecorder, HistogramVec, CounterVec.
  apply wp_bind. eapply wp_Enabled; [exact Hs|]. destruct on; cbn beta iota delta [negb].
  - destruct Hd as [<-|[<-|[]]]; do 2 declare_metric; by apply wp_ret, HQ.
  - apply wp_ret, HQ. exact Hs.
Qed.

Lemma wp_crawler on BrokerEnabled (Q : metrics -> option Crawl.Recorder -> Prop) s :
  started on ((if BrokerEnabled : bool then broker_names else []) ++ ["discovery_v4_rpc_duration"; "discovery_v4_rpc_counter"]%string) s ->
  (forall s', started on (crawl_names BrokerEnabled) s' ->
     Q s' (Some (if on then made_crawler else Crawl.noOpRecorder))) -> wp Crawl.newRecorder Q s.
Proof.
  intros Hs HQ. unfold Crawl.newRecorder, Counter.
  apply wp_bind. eapply wp_Enabled; [exact Hs|]. destruct on; cbn beta iota delta [negb].
  - destruct BrokerEnabled; do 4 declare_metric; by apply wp_ret, HQ.
  - apply wp_ret, HQ. exact Hs.
Qed.

Lemma wp_scanner on (Q : metrics -> option Scanner.Recorder -> Prop) s :
  started on broker_names s ->
  (forall s', started on scan_names s' ->
     Q s' (Some (if on then made_scanner else Scanner.mkRecorder Noop Noop Noop))) -> wp Scanner.newRecorder Q s.
Proof.
  intros Hs HQ. unfold Scanner.newRecorder, Counter, CounterVec, Summary. destruct on.
  - do 3 declare_metric. by apply wp_ret, HQ.
  - destruct Hs as (He & Hs). do 3 skip_metric. apply wp_ret, HQ. by split.
Qed.

(** What the applications have made. *)
Definition crawl_made (Metrics BrokerEnabled : bool) : crawl_recorders := mkCrawlRecorders noop_vars
  (if BrokerEnabled then Some (if Metrics then made_broker else noop_broker) else None)
  (if Metrics then made_handler else Discovery.noOpRecorder) (if Metrics then made_crawler else Crawl.noOpRecorder).

Definition scan_made (Metrics : bool) : Broker.Recorder * Scanner.Recorder :=
  if Metrics then (made_broker, made_scanner) else (noop_broker, Scanner.mkRecorder Noop Noop Noop).

Lemma enabled_started on :
  wp (if on : bool then RegisterMetricsHandler else mret tt) (fun s r => r = Some tt /\ started on [] s) process.
Proof. destruct on; (split; [done|]); split_and!; try done; apply process_exact. Qed.

Lemma crawl_app_made Metrics BrokerEnabled :
  wp (crawl_app Metrics BrokerEnabled)
     (fun s r => r = Some (crawl_made Metrics BrokerEnabled) /\ started Metrics (crawl_names BrokerEnabled) s) process.
Proof.
  unfold crawl_app. apply wp_bind, init_disabled; [done|]. cbn beta iota.
  apply wp_bind. eapply wp_mono; [apply enabled_started|]. intros s ? [-> Hs]. cbn beta iota.
  apply wp_bind. destruct BrokerEnabled.
  - apply wp_bind. eapply wp_broker; [exact Hs|done|]. clear s Hs. intros s Hs. cbn beta iota. apply wp_ret. cbn beta iota.
    apply wp_bind. eapply wp_handler; [exact Hs|simpl; auto|]. clear s Hs. intros s Hs. cbn beta iota.
    apply wp_bind, (wp_crawler Metrics true); [exact Hs|]. intros s' Hs'. by apply wp_ret.
  - apply wp_ret. cbn beta iota.
    apply wp_bind. eapply wp_handler; [exact Hs|simpl; auto|]. clear s Hs. intros s Hs. cbn beta iota.
    apply wp_bind, (wp_crawler Metrics false); [exact Hs|]. intros s' Hs'. by apply wp_ret.
Qed.

Lemma scan_app_made Metrics :
  wp (scan_app Metrics)
     (fun s r => r = Some (scan_made Metrics) /\
        started Metrics scan_names s) process.
Proof.
  unfold scan_app. apply wp_bind. eapply wp_mono; [apply enabled_started|]. intros s ? [-> Hs]. cbn beta iota.
  apply wp_bind. eapply wp_broker; [exact Hs|done|]. clear s Hs. intros s Hs. cbn beta iota.
  apply wp_bind, (wp_scanner Metrics); [exact Hs|]. intros s' Hs'. apply wp_ret. split; [by destruct Metrics|done].
Qed.

(** *** What a report observes *)

(** The names under which the metrics are registered. *)
Lemma registered_name ns sub name fq :
  ns <> EmptyString -> name <> EmptyString -> fullName ns sub name = fq -> BuildFQName ns sub name = fq.
Proof. intros Hn Hm <-. by apply fullName_BuildFQName. Qed.

Lemma FormatBool_ascii b : ascii_only (FormatBool b) = true.
Proof. by destruct b. Qed.

Lemma Itoa_ascii code : code = 200 \/ code = 404 -> ascii_only (Itoa code) = true.
Proof. by intros [-> | ->]. Qed.

Lemma observes_counter ns sub name help fq z :
  ns <> EmptyString -> name <> EmptyString -> fullName ns sub name = fq -> 0 <= z ->
  observes (Add (self (counter_ ns sub name help)) z) [mkObservation fq [] (Added z)].
Proof. intros Hn Hm <- Hz. unfold self, counter_. cbn [Namespace Subsystem o_Name]. rewrite fullName_BuildFQName by done. by apply observes_add. Qed.

Lemma egress_observes size : 0 <= size ->
  observes (Broker.RecordEgress made_broker size) [mkObservation "broker_egress_amount" [] (Added size); counts "broker_egress_count" []].
Proof. intros Hs. apply (observes_then _ _ [_] [_]); by apply observes_counter. Qed.

Lemma ingress_observes size : 0 <= size ->
  observes (Broker.RecordIngress made_broker size) [mkObservation "broker_ingress_amount" [] (Added size); counts "broker_ingress_count" []].
Proof. intros Hs. apply (observes_then _ _ [_] [_]); by apply observes_counter. Qed.

Lemma handler_observes x B : report_ok (HandlerReport x) -> observes (Discovery.record made_handler x) (observations B (HandlerReport x)).
Proof.
  assert (forall method code ext, valid_value method = true -> code = 200 \/ code = 404 ->
    Forall (fun v => valid_value v = true) [method; Itoa code; FormatBool ext]) as Hv.
  { intros method code ext Hm Hc. repeat constructor; [done| |]; apply ascii_valid; [by apply Itoa_ascii|apply FormatBool_ascii]. }
  destruct x as [dur method code ext|method code ext]; intros [Hm Hc]; unfold Discovery.record, Discovery.RecordRpcDuration, Discovery.RecordRpcRequest, made_handler;
    (apply with_labels; [done|by apply Hv|]);
    cbn [Namespace Subsystem o_Name]; rewrite fullName_BuildFQName by done; [apply observes_note|by apply observes_add].
Qed.

Lemma noop_add z : observes (Add None z) [].
Proof. apply observes_nothing. Qed.

Lemma runner_observes id write l : observes (Runner.run noop_vars id write l) [].
Proof.
  intros s. destruct write; unfold Runner.run, mbind, proc_bind; simpl;
    (induction l as [|[x d] l IH]; [apply observes_nothing|]; destruct x; exact IH).
Qed.

Lemma crawl_report_observes Metrics BrokerEnabled x :
  report_ok x ->
  observes (crawl_report (crawl_made Metrics BrokerEnabled) x) (if Metrics then observations BrokerEnabled x else []).
Proof.
  destruct x as [x|e|size|size|id write l]; simpl crawl_report.
  - destruct Metrics; [apply handler_observes|]. intros _. destruct x; apply observes_nothing.
  - intros _. destruct Metrics; [|apply observes_nothing]. destruct e; by apply observes_counter.
  - intros Hs. destruct BrokerEnabled; [|destruct Metrics; apply observes_nothing].
    destruct Metrics; [by apply egress_observes|apply (observes_then _ _ [] []); apply noop_add].
  - intros Hs. destruct BrokerEnabled; [|destruct Metrics; apply observes_nothing].
    destruct Metrics; [by apply ingress_observes|apply (observes_then _ _ [] []); apply noop_add].
  - intros _. destruct Metrics; apply runner_observes.
Qed.

(** *** The metrics of a process *)

(** [s] documents and has registered the metrics [documented] and has the
    observations [l]. *)
Definition recorded (s : metrics) (documented : list string) (l : list observation) : Prop :=
  map d_Name (Document (factory s)) = documented /\ NoDup documented /\
  (forall n, In n (names (registered s)) <-> In n (names NewRegistry) \/ In n documented) /\ observed s = l.

Lemma started_recorded on documented s l :
  started on documented s -> NoDup documented -> recorded (observe l s) (if on then documented else []) l.
Proof.
  intros (He & Hx & Ho & Hf) Hn. split_and!; [exact Hf| |by rewrite <- Hf|by simpl; rewrite Ho].
  destruct on; [done|constructor].
Qed.

Lemma names_distinct B : NoDup (crawl_names B).
Proof. apply (bool_decide_eq_true_1 _). by destruct B. Qed.

Lemma flat_map_nil {X Y} (l : list X) : flat_map (fun _ => [] : list Y) l = [].
Proof. by induction l. Qed.

(** C37: the metrics of the crawl command.  Making the recorders never panics,
    with or without metrics and broker: the names are distinct and taken by no
    collector, what is documented is what is registered, and whatever the parts
    then record is observed, once, in order and under its labels.  But for the
    runners: nothing they record is observed, since their metrics are made
    before metrics are enabled. *)
Theorem crawl_metrics Metrics BrokerEnabled l :
  Forall report_ok l ->
  exists r s s', crawl_app Metrics BrokerEnabled process = Returns s r /\ reports (crawl_report r) l s = Returns s' tt /\
    recorded s' (if Metrics then crawl_names BrokerEnabled else []) (if Metrics then flat_map (observations BrokerEnabled) l else []).
Proof.
  intros Hl. pose proof (crawl_app_made Metrics BrokerEnabled) as Hm. unfold wp in Hm.
  destruct (crawl_app Metrics BrokerEnabled process) as [s r|s|]; [|by destruct Hm|done]. destruct Hm as [[= ->] Hs].
  exists (crawl_made Metrics BrokerEnabled), s. eexists. split; [done|]. split.
  { apply (reports_observe _ _ report_ok l (crawl_report_observes Metrics BrokerEnabled) Hl). }
  assert (flat_map (fun x => if Metrics then observations BrokerEnabled x else []) l
    = if Metrics then flat_map (observations BrokerEnabled) l else []) as -> by (destruct Metrics; [done|apply flat_map_nil]).
  apply started_recorded; [done|apply names_distinct].
Qed.

(** *** The scanner *)

Lemma scan_report_observes (Metrics : bool) x :
  scan_report_ok x ->
  observes (scan_report (scan_made Metrics) x)
    (if Metrics then scan_observations x else []).
Proof.
  destruct Metrics.
  - destruct x as [d|open|size]; intros Hx; unfold scan_report.
    + apply (observes_then _ _ [_] [_]); [|by apply observes_counter].
      unfold self, scan_made. cbn [snd made_scanner Scanner.scanMeter Namespace Subsystem o_Name].
      rewrite fullName_BuildFQName by done. apply observes_note.
    + apply with_labels; [done|repeat constructor; by apply ascii_valid, FormatBool_ascii|].
      cbn [Namespace Subsystem o_Name]. rewrite fullName_BuildFQName by done. by apply observes_add.
    + by apply ingress_observes.
  - destruct x; intros _; [apply (observes_then _ _ [] []); apply observes_nothing|apply noop_add|].
    apply (observes_then _ _ [] []); apply noop_add.
Qed.

(** The same of the scan of new nodes. *)
Lemma scan_metrics Metrics l :
  Forall scan_report_ok l ->
  exists r s s', scan_app Metrics process = Returns s r /\ reports (scan_report r) l s = Returns s' tt /\
    recorded s' (if Metrics then scan_names else []) (if Metrics then flat_map scan_observations l else []).
Proof.
  intros Hl. pose proof (scan_app_made Metrics) as Hm. unfold wp in Hm.
  destruct (scan_app Metrics process) as [s r|s|]; [|by destruct Hm|done]. destruct Hm as [[= ->] Hs].
  exists (scan_made Metrics), s. eexists. split; [done|]. split; [apply (reports_observe _ _ scan_report_ok l (scan_report_observes Metrics) Hl)|].
  assert (flat_map (fun x => if Metrics then scan_observations x else []) l
    = if Metrics then flat_map scan_observations l else []) as -> by (destruct Metrics; [done|apply flat_map_nil]).
  apply started_recorded; [done|]. apply (bool_decide_eq_true_1 _). done.
Qed.

(** A second handler of the same process panics where metrics are enabled. *)
Lemma second_handler_panics s :
  enabled s = true -> In "discovery_v4_rpc_duration"%string (names (registered s)) ->
  Discovery.newRecorder s = Panics Raised.
Proof.
  intros He Hin. destruct s as [e f r o]. simpl in He, Hin. subst e.
  unfold Discovery.newRecorder, Enabled, HistogramVec, declare, mbind, proc_bind, Procs.get. cbn.
  by rewrite fullName_BuildFQName, register_taken.
Qed.

(** *** The calls of the packet handler *)

(** The count of the calls with this code, for any method. *)
Definition counted (code : Z) (ext : bool) (l : list observation) : nat :=
  length (filter (fun o => ob_name o = "discovery_v4_rpc_counter"%string /\
                           drop 1 (ob_labels o) = drop 1 (rpc_labels "" code ext)) l).

Lemma Itoa_codes (a b : Z) : a = 200 \/ a = 404 -> b = 200 \/ b = 404 -> Itoa a = Itoa b -> a = b.
Proof. by intros [-> | ->] [-> | ->]. Qed.

Lemma FormatBool_inj a b : FormatBool a = FormatBool b -> a = b.
Proof. by destruct a, b. Qed.

(** With what PacketHandler.v records, the counter of a code is the number of
    calls that returned it: 200 for those without an error, 404 for the others,
    apart for datagrams and for requests. *)
Lemma rpc_counter_counts `{E : External.Enode} {Err Key World : Type}
    (cs : list (PacketHandler.timing (World := World) * PacketHandler.call (Key := Key))) (rs : list (option Err)) l code ext B :
  code = 200 \/ code = 404 ->
  PacketHandler.recorded cs rs l ->
  counted code ext (flat_map (observations B) (map HandlerReport l)) =
    length (filter (fun '(c, r) => PacketHandler.external c.2 = ext /\
                                   PacketHandler.record_code (PacketHandler.WrapIntoRpcInfo r "") = code) (zip cs rs)).
Proof.
  intros Hcode. induction 1 as [cs|t c cs r rs l ls Hl Hr IH]; [by destruct cs|].
  destruct Hl as [method ->]. rewrite map_app, flat_map_app. unfold counted in *. rewrite filter_app, length_app, IH.
  cbn [PacketHandler.recordings map flat_map observations app zip_with]. rewrite filter_cons_False by (intros [? _]; done).
  set (code' := PacketHandler.record_code (PacketHandler.WrapIntoRpcInfo r method)).
  assert (PacketHandler.record_code (PacketHandler.WrapIntoRpcInfo r "") = code') as Hc by done.
  assert (code' = 200 \/ code' = 404) as Hc' by (subst code'; unfold PacketHandler.record_code; simpl; destruct r; auto).
  rewrite filter_cons. symmetry. rewrite filter_cons.
  destruct (decide (_ /\ _)) as [Hd|Hd], (decide (_ /\ _)) as [Hd'|Hd']; [done| | |done]; exfalso.
  - apply Hd'. split; [done|]. destruct Hd as [<- <-]. by rewrite Hc.
  - apply Hd. destruct Hd' as [_ [= Ha Hb]]. split; [by apply FormatBool_inj|].
    rewrite Hc. apply Itoa_codes; [done..|exact Ha].
Qed.

End Apps.

(** ** A concrete registry *)

Module Demo.

Definition collected : list string := ["go_goroutines"; "go_build_info"; "process_open_fds"]%string.

Definition joined (ns sub name : string) : string :=
  if decide (name = EmptyString) then EmptyString
  else ((if decide (ns = EmptyString) then EmptyString else ns +:+ (if decide (sub = EmptyString) then EmptyString else "_" +:+ sub) +:+ "_") +:+ name)%string.

#[export] Instance registry_of_names : Prometheus := {
  registry := list string;
  NewRegistry := collected;
  names r := r;
  valid_name := plain;
  valid_value := ascii_only;
  BuildFQName := joined;
  register fq labels r :=
    if existsb (String.eqb fq) r then None else if plain fq && forallb plain labels then Some (fq :: r) else None }.

#[export] Instance registry_laws : PrometheusLaws registry_of_names.
Proof.
  split.
  - intros s [<-|[<-|[<-|[]]]]; reflexivity.
  - intros s Hs. exact Hs.
  - intros s Hs. exact Hs.
  - intros ns sub name Hn Hm. simpl. unfold joined. rewrite !decide_False by done. by rewrite !append_assoc.
  - intros fq labels r Hv Hl Hn. simpl in *. exists (fq :: r). rewrite Hv, Hl.
    destruct (existsb (String.eqb fq) r) eqn:Eb.
    + apply existsb_exists in Eb as (x & Hx & Ex). apply String.eqb_eq in Ex as ->. by destruct Hn.
    + split; [done|]. intros s. simpl. intuition.
  - intros fq labels r Hn. simpl in *. assert (existsb (String.eqb fq) r = true) as ->; [|done].
    apply existsb_exists. exists fq. by rewrite String.eqb_refl.
Qed.

(** A ping answered in 7 ms, a node received, a loop of a runner, a message. *)
Definition calls : list report :=
  [HandlerReport (PacketHandler.RecordRpcDuration 7000000 "PING" 200 false);
   HandlerReport (PacketHandler.RecordRpcRequest "PING" 200 false);
   CrawlerReport Crawl.RecvNode; RunnerReport "seeker" true [(Workers.Loop, 0)]; Egress 12].

Lemma calls_ok : Forall report_ok calls.
Proof. repeat constructor; try reflexivity; simpl; try lia; by left. Qed.

Lemma crawl_metrics_witness :
  exists r s s', crawl_app true true process = Returns s r /\ reports (crawl_report r) calls s = Returns s' tt /\
    recorded s' (crawl_names true) (flat_map (observations true) calls).
Proof. exact (crawl_metrics true true calls calls_ok). Defined.

Example calls_observed :
  map ob_name (flat_map (observations true) calls) =
    ["discovery_v4_rpc_duration"; "discovery_v4_rpc_counter"; "crawl_crawler_recv_nodes"; "broker_egress_amount";
     "broker_egress_count"]%string.
Proof. reflexivity. Qed.

End Demo.
