(* ===== verification/Announce.v ===== *)
(** * From the crawl to the scan

    crawler/broker/broker.go and scanner/broker/broker.go: the crawler
    announces its nodes and their statistics as JSON to two queues, and the
    scanner subscribes to the queue of the nodes.  Here the crawler (Crawler.v),
    the broker's calls (Service.v), the subscription of the scanner's topic
    (Broker.v), the goroutine of [SubscribeNewNodes] and the node scanner
    (NodeScan.v) run beside each other: what is scanned is what was crawled. *)

From stdpp Require Import base list gmap strings relations.
From Stdlib Require Import ZArith Lia Permutation.
From S2P Require Import Prelude Golang External Instances Nodes NetIP Peer Service.
From S2P Require Crawler Scanner NodeScan Broker.
Import Crawler (NewNode, NodeStats, nn_ENR, effect).
Local Open Scope Z_scope.

(** ** JSON

    The encoder and the decoder of the standard library, on the two messages.
    A text that is valid UTF-8 comes back as it was. *)
Class Json := {
  MarshalNode : NewNode -> option (list Z);
  MarshalStats : NodeStats -> option (list Z);
  UnmarshalNode : list Z -> option NewNode;
  valid_utf8 : string -> bool }.

Class JsonLaws `(J : Json) : Prop := {
  law_ENR n raw : MarshalNode n = Some raw -> valid_utf8 (nn_ENR n) = true ->
    exists n', UnmarshalNode raw = Some n' /\ nn_ENR n' = nn_ENR n }.

Definition newNodesQueue : string := "nodes.new".
Definition nodeStatsQueue : string := "nodes.stats".

(** ** The crawler's broker *)

Section Publish.
Context `{J : Json}.

(** [publish]: [ok] is whether the channel takes the message; the result is
    whether there was no error. *)
Definition publish (raw : option (list Z)) (topic : string) (ok : bool) (b : rabbitBroker) : rabbitBroker * bool :=
  match raw with None => (b, false) | Some raw => PublishMessage topic raw ok b end.

Definition PublishNewNodeFound (data : NewNode) := publish (MarshalNode data) newNodesQueue.
Definition PublishNodeStats (data : NodeStats) := publish (MarshalStats data) nodeStatsQueue.

(** The effects of the crawler on its broker, in order; each message may be
    refused by the channel. *)
Definition announce_one (e : effect) (ok : bool) (b : rabbitBroker) : rabbitBroker :=
  match e with
  | Crawler.PublishNewNodeFound n => (PublishNewNodeFound n ok b).1
  | Crawler.PublishNodeStats s => (PublishNodeStats s ok b).1
  | _ => b
  end.

Fixpoint announce (effs : list effect) (oks : list bool) (b : rabbitBroker) : rabbitBroker :=
  match effs, oks with e :: effs', ok :: oks' => announce effs' oks' (announce_one e ok b) | _, _ => b end.

(** Only nodes are announced to the scanner's queue. *)
Lemma announced effs oks b raw :
  (newNodesQueue, raw) ∈ published (announce effs oks b) ->
  (newNodesQueue, raw) ∈ published b \/
  exists n, Crawler.PublishNewNodeFound n ∈ effs /\ MarshalNode n = Some raw.
Proof.
  revert oks b. induction effs as [|e effs IH]; intros [|ok oks] b; simpl; auto. intros Hin.
  destruct (IH _ _ Hin) as [Hb|(n & Hn & Hm)]; [|right; exists n; split; [by right|done]].
  destruct e as [n|st|? ?|? ? ? ?|?| |]; simpl in Hb; auto; unfold PublishNewNodeFound, PublishNodeStats, publish, PublishMessage in Hb.
  - destruct (MarshalNode n) as [raw'|] eqn:Em; [|by left]. destruct ok; [|by left].
    simpl in Hb. apply elem_of_app in Hb as [Hb|Hb]; [by left|]. apply list_elem_of_singleton in Hb as [= ->].
    right. exists n. split; [left|done].
  - destruct (MarshalStats st); [|by left]. destruct ok; [|by left].
    simpl in Hb. apply elem_of_app in Hb as [Hb|Hb]; [by left|]. by apply list_elem_of_singleton in Hb.
Qed.

End Publish.

(** ** The pipeline *)

Section Pipeline.
Context `{E : Enode} (URLv4 : enode -> string) (RetrieveFieldNames : enode -> list string).
Context (ParseV4 : string -> option IP) (controller : Scanner.ScannerController).
Context `{J : Json}.

(** A step of the crawler: a node that the seeker passes on, a tick, the rest
    of one, or an action of a worker, whose hook may announce the peer. *)
Inductive crawls (c : Crawler.crawler) : Crawler.crawler -> option enode -> Prop :=
| cr_node n : crawls c (Crawler.Crawl_node URLv4 RetrieveFieldNames n c) (Some n)
| cr_tick now c' : Crawler.pushing c = None -> Crawler.tick URLv4 now c = Ok c' -> crawls c c' None
| cr_pushed x c' : Crawler.pushing c = Some x -> Crawler.pushed URLv4 x c = Ok c' -> crawls c c' None
| cr_work x p p' effs : Crawler.peers c !! x = Some p -> peer_node p' = peer_node p ->
    effs = [] \/ effs = Crawler.infoHook URLv4 RetrieveFieldNames p' ->
    crawls c (Crawler.worker_acts x p' effs c) None.

(** [given] are the nodes the seeker passed on, and [held] the node that the
    goroutine of [SubscribeNewNodes] waits to hand over. *)
Record pipeline := mkPipeline {
  pl_given : list enode; pl_crawler : Crawler.crawler; pl_broker : rabbitBroker;
  pl_topic : Broker.topic (M := list Z); pl_held : option NewNode; pl_scan : NodeScan.scan }.

Definition new_pipeline (username : string) : pipeline :=
  mkPipeline [] Crawler.NewCrawler (NewRabbitBroker username) Broker.new_topic None (NodeScan.new_scan controller).

(** A queue delivers nothing but what was published to it. *)
Definition fed (b : rabbitBroker) (t : Broker.topic (M := list Z)) : Prop :=
  forall k c m, Broker.consumers t !! k = Some c -> m ∈ Broker.received c -> (newNodesQueue, m) ∈ published b.

Inductive pipeline_step (s : pipeline) : pipeline -> Prop :=
| pl_crawls c' o effs oks :
    crawls (pl_crawler s) c' o -> Crawler.effects c' = Crawler.effects (pl_crawler s) ++ effs ->
    pipeline_step s (mkPipeline (pl_given s ++ option_list o) c' (announce effs oks (pl_broker s)) (pl_topic s) (pl_held s) (pl_scan s))
| pl_subscription t' :
    Broker.topic_ok (pl_topic s) t' -> fed (pl_broker s) t' ->
    pipeline_step s (mkPipeline (pl_given s) (pl_crawler s) (pl_broker s) t' (pl_held s) (pl_scan s))
| pl_hears k c m :
    Broker.consumers (pl_topic s) !! k = Some c -> Broker.c_pc c = Broker.Notifying m -> pl_held s = None ->
    pipeline_step s (mkPipeline (pl_given s) (pl_crawler s) (pl_broker s) (Broker.on_notified k c m (pl_topic s))
                       (UnmarshalNode m) (pl_scan s))
| pl_takes n :
    pl_held s = Some n -> NodeScan.s_loop (pl_scan s) = NodeScan.NsWait ->
    pipeline_step s (mkPipeline (pl_given s) (pl_crawler s) (pl_broker s) (pl_topic s) None
                       (NodeScan.on_enr ParseV4 (nn_ENR n) (pl_scan s)))
| pl_scans s' :
    NodeScan.scan_step ParseV4 (pl_scan s) s' -> NodeScan.asked_for s' = NodeScan.asked_for (pl_scan s) ->
    pipeline_step s (mkPipeline (pl_given s) (pl_crawler s) (pl_broker s) (pl_topic s) (pl_held s) s').

(** ** The crawler announces nodes it was given *)

Definition of_given (l : list enode) (text : string) : Prop := exists e, e ∈ l /\ text = URLv4 e.

Definition peers_given (l : list enode) (c : Crawler.crawler) : Prop :=
  forall x p, Crawler.peers c !! x = Some p -> peer_node p ∈ l.

Lemma peers_given_insert l c x p c' :
  peers_given l c -> peer_node p ∈ l -> Crawler.peers c' = <[x := p]> (Crawler.peers c) -> peers_given l c'.
Proof. intros Hl Hp He y q. rewrite He, lookup_insert_Some. intros [[_ <-]|[_ Hq]]; [done|by eapply Hl]. Qed.

Lemma search_node now p : peer_node (Crawler.search now p).1 = peer_node p.
Proof. unfold Crawler.search. by destruct (CanRefresh now (findCounter p)). Qed.

Lemma publish_node p : peer_node (Crawler.publish URLv4 p).1 = peer_node p.
Proof. unfold Crawler.publish, NewEntries. by case_decide. Qed.

Lemma publish_effects p n : Crawler.PublishNewNodeFound n ∉ (Crawler.publish URLv4 p).2.
Proof. unfold Crawler.publish. destruct (NewEntries p). case_decide; simpl; set_solver. Qed.

(** A step adds effects, announces nodes that were given only, and keeps the
    peers of such nodes. *)
Lemma crawls_given l c c' o :
  peers_given l c -> crawls c c' o ->
  peers_given (l ++ option_list o) c' /\
  exists effs, Crawler.effects c' = Crawler.effects c ++ effs /\
    forall n, Crawler.PublishNewNodeFound n ∈ effs -> of_given (l ++ option_list o) (nn_ENR n).
Proof.
  intros Hl Hs. destruct Hs as [e|now c' Hp Ht|x c' Hp Ht|x p p' effs Hx Hn He]; simpl; rewrite ?app_nil_r.
  - split.
    + intros x p. simpl. rewrite lookup_insert_Some. intros [[_ <-]|[_ Hp]]; apply elem_of_app; [right; left|left; by eapply Hl].
    + eexists. split; [done|]. intros n Hn. exists e. split; [apply elem_of_app; right; left|]. set_solver.
  - unfold Crawler.tick in Ht. destruct (Crawler.Dequeue (Crawler.buffer c)) as [rest [x|]].
    2:{ injection Ht as <-. split; [done|]. exists []. split; [by rewrite app_nil_r|]. intros n Hn. by apply elem_of_nil in Hn. }
    destruct (Crawler.peers c !! x) as [p|] eqn:Ex; [|done].
    pose proof (search_node now p) as Hsn. destruct (Crawler.search now p) as [p1 can]. simpl in Hsn.
    pose proof (publish_node p1) as Hpn. pose proof (publish_effects p1) as Hpe.
    destruct (Crawler.publish URLv4 p1) as [p2 effs]. simpl in *. pose proof (Hl _ _ Ex) as Hin.
    destruct can; injection Ht as <-; (split; [eapply peers_given_insert; [exact Hl| |done]; congruence|]);
      eexists; (split; [done|]); intros n Hn; [set_solver|by destruct (Hpe n)].
  - unfold Crawler.pushed in Ht. destruct (Crawler.peers c !! x) as [p|] eqn:Ex; [|done].
    pose proof (publish_node p) as Hpn. pose proof (publish_effects p) as Hpe.
    destruct (Crawler.publish URLv4 p) as [p2 effs]. simpl in *. injection Ht as <-. pose proof (Hl _ _ Ex) as Hin.
    split; [eapply peers_given_insert; [exact Hl| |done]; congruence|]. eexists. split; [done|]. intros n Hn.
    apply elem_of_cons in Hn as [Hn|Hn]; [done|by destruct (Hpe n)].
  - split; [eapply peers_given_insert; [exact Hl| |done]; rewrite Hn; by eapply Hl|]. exists effs. split; [done|].
    intros n Hin. destruct He as [->| ->]; [by apply elem_of_nil in Hin|]. exists (peer_node p').
    split; [rewrite Hn; by eapply Hl|]. simpl in Hin. set_solver.
Qed.

Lemma announce_grows effs oks b x : x ∈ published b -> x ∈ published (announce effs oks b).
Proof.
  revert oks b. induction effs as [|e effs IH]; intros [|ok oks] b Hx; simpl; auto. apply IH.
  destruct e; simpl; auto; unfold PublishNewNodeFound, PublishNodeStats, publish, PublishMessage.
  - destruct (MarshalNode n), ok; simpl; auto. apply elem_of_app. by left.
  - destruct (MarshalStats s), ok; simpl; auto. apply elem_of_app. by left.
Qed.

(** ** The listener hears what was delivered *)

Definition hears_c (c : Broker.consumer (M := list Z)) : Prop :=
  (forall m, Broker.c_pc c = Broker.Notifying m -> m ∈ Broker.received c) /\ Broker.pending c ⊆ Broker.received c.

Definition hears (t : Broker.topic (M := list Z)) : Prop := Forall hears_c (Broker.consumers t).

Lemma hears_set k c t : hears t -> hears_c c -> hears (Broker.set_consumer k c t).
Proof. intros Ht Hc. by apply Forall_insert. Qed.

Lemma hears_get t k c : hears t -> Broker.consumers t !! k = Some c -> hears_c c.
Proof. intros Ht Hk. exact (proj1 (Forall_lookup _ _) Ht k c Hk). Qed.

Lemma topic_hears t t' : hears t -> Broker.topic_ok t t' -> hears t'.
Proof.
  intros Ht Hs. unfold Broker.topic_ok in Hs.
  inversion Hs as [Hm Ho|k c Hm Hk Hp Ho|k c Hm Hk Hp Ho|k c m q Hk Hp Hq Ho|k c m Hk Hp Ho|k c Hk Hp Hq Hcl Ho
    |k c Hm Hk Hp Ho|n Hm Hu Ho|k c m Hk Hcl Ho|k c Hk Ho]; subst; try (pose proof (hears_get t k c Ht Hk) as [H1 H2]).
  - unfold Broker.subscribe. simpl. destruct (Broker.current t) as [j|].
    + destruct (Broker.consumers t !! j) as [c|] eqn:Ej; [|done]. destruct (callback _); [done|].
      apply hears_set; [done|]. exact (hears_get t j c Ht Ej).
    + apply Forall_app. split; [done|]. constructor; [|constructor]. split; [done|]. simpl. done.
  - unfold Broker.consume_start in Ho. destruct (Broker.current t) as [j|]; [|done].
    destruct (Broker.consumers t !! j) as [cj|] eqn:Ej; [|done].
    assert (hears (Broker.set_consumer j (Broker.set_feed cj (bfeed_consume (Broker.feed cj))) t)) as Ht1.
    { apply hears_set; [done|]. exact (hears_get t j cj Ht Ej). }
    destruct (Broker.consumers (Broker.set_consumer j _ t) !! k) as [ck|] eqn:Ek; [|done]. injection Ho as <-.
    apply hears_set; [done|]. destruct (hears_get _ _ _ Ht1 Ek) as [_ Hk2]. by split.
  - unfold Broker.on_subscribed. assert (hears (Broker.set_consumer k (Broker.set_feed c (bfeed_Subscribe (Broker.feed c))) t)).
    { apply hears_set; [done|]. by split. }
    case_decide; done.
  - apply hears_set; [done|]. rewrite Hq in H2. split; simpl; [intros x [= <-]; set_solver|set_solver].
  - apply hears_set; [done|]. split; simpl; [done|exact H2].
  - apply hears_set; [done|]. by split.
  - apply (hears_set k _ t); [done|]. by split.
  - exact Ht.
  - apply hears_set; [done|]. split; simpl; [intros x Hx; apply H1 in Hx; set_solver|set_solver].
  - apply hears_set; [done|]. by split.
Qed.

(** ** The invariant of the pipeline *)

(** What the laws of the packages say of the texts of nodes. *)
Context {JL : JsonLaws J}.
Hypothesis url_valid : forall e, valid_utf8 (URLv4 e) = true.
Hypothesis url_parsed : forall e ip, ParseV4 (URLv4 e) = Some ip -> ip = enode_IP e.

(** The scan of a node that was given. *)
Definition target (l : list enode) (x : string * IP) : Prop := exists e, e ∈ l /\ x = (URLv4 e, enode_IP e).

Definition record_target (l : list enode) (x : IP * Scanner.scanRecord) : Prop :=
  target l (Scanner.rec_Node x.2, x.1) /\ Scanner.rec_Ip x.2 = IP_String x.1.

Record pipeline_inv (s : pipeline) : Prop := {
  pi_peers : peers_given (pl_given s) (pl_crawler s);
  pi_published : forall raw, (newNodesQueue, raw) ∈ published (pl_broker s) ->
    exists n, of_given (pl_given s) (nn_ENR n) /\ MarshalNode n = Some raw;
  pi_fed : fed (pl_broker s) (pl_topic s);
  pi_hears : hears (pl_topic s);
  pi_held : forall n, pl_held s = Some n -> of_given (pl_given s) (nn_ENR n);
  pi_asked : Forall (target (pl_given s)) (NodeScan.asked_for (pl_scan s));
  pi_records : Forall (record_target (pl_given s)) (NodeScan.s_records (pl_scan s));
  pi_scan : rtc (NodeScan.scan_step ParseV4) (NodeScan.new_scan controller) (pl_scan s) }.

Lemma of_given_mono l l' t : of_given l t -> of_given (l ++ l') t.
Proof. intros (e & He & ->). exists e. split; [apply elem_of_app; by left|done]. Qed.

Lemma target_mono l l' x : target l x -> target (l ++ l') x.
Proof. intros (e & He & ->). exists e. split; [apply elem_of_app; by left|done]. Qed.

(** A message of the queue decodes to a node that was given. *)
Lemma decoded s raw n :
  pipeline_inv s -> (newNodesQueue, raw) ∈ published (pl_broker s) -> UnmarshalNode raw = Some n ->
  of_given (pl_given s) (nn_ENR n).
Proof.
  intros Hi Hr Hu. destruct (pi_published _ Hi _ Hr) as (n0 & (e & He & Ht) & Hm).
  destruct (law_ENR n0 raw Hm) as (n' & Hn' & Hen); [rewrite Ht; apply url_valid|].
  rewrite Hn' in Hu. injection Hu as ->. exists e. split; [done|congruence].
Qed.

(** A scan that gives a result is of its item's address. *)
Lemma runScanner_Src wait IsOpen now ip r :
  Scanner.runScanner_item wait IsOpen now (Scanner.node_item ip) = Some r -> Scanner.Ip (Scanner.Src r) = ip.
Proof.
  unfold Scanner.runScanner_item. destruct (Scanner.ScanItem wait IsOpen now (Scanner.node_item ip)) as [r' index] eqn:Es.
  apply Scanner.ScanItem_result in Es as (Hs & _); [|by vm_compute]. case_bool_decide; [done|]. intros [= <-]. by rewrite Hs.
Qed.

(** The records after a step of the scanner are of nodes that were asked for. *)
Lemma scan_records l s s' :
  NodeScan.scan_inv controller s -> Forall (target l) (NodeScan.asked_for s) ->
  Forall (record_target l) (NodeScan.s_records s) -> NodeScan.scan_step ParseV4 s s' ->
  Forall (record_target l) (NodeScan.s_records s').
Proof.
  intros Hi Ha Hr Hs. destruct Hs as [enr _|n k w item _ _ _|del k w enr ip _ _ _|s1 k item s2 w op now _
    |l1 k l2 r enr ip Hl Hres Hk| |k _ _|l1 k l2 _ _]; try exact Hr.
  - unfold NodeScan.on_enr. destruct (ParseV4 enr); [|done]. destruct (negb _); [done|].
    destruct (Scanner.cacheScan _ _) as [ch fresh]. by destruct (negb fresh).
  - unfold NodeScan.call_back. simpl. destruct r as [r|]; [|done]. apply Forall_app. split; [done|]. constructor; [|constructor].
    split; simpl; [exact (proj1 (Forall_lookup _ _) Ha k _ Hk)|].
    pose proof (NodeScan.sv_results _ _ Hi) as Hrs. rewrite Forall_forall in Hrs.
    destruct (Hrs _ Hres) as (enr' & ip' & w & op & now & Hk' & Hrun). simpl in *. rewrite Hk in Hk'. injection Hk' as <- <-.
    by rewrite (runScanner_Src w op now ip r).
Qed.

Lemma on_enr_asked l enr s :
  of_given l enr -> Forall (target l) (NodeScan.asked_for s) -> Forall (target l) (NodeScan.asked_for (NodeScan.on_enr ParseV4 enr s)).
Proof.
  intros (e & He & ->) Ha. unfold NodeScan.on_enr. destruct (ParseV4 (URLv4 e)) as [ip|] eqn:Ep; [|done].
  destruct (negb _); [done|]. destruct (Scanner.cacheScan _ _) as [ch fresh]. destruct (negb fresh); [done|].
  simpl. apply Forall_app. split; [done|]. constructor; [|constructor]. exists e. split; [done|]. f_equal. by apply url_parsed.
Qed.

Lemma pipeline_step_inv s s' : pipeline_inv s -> pipeline_step s s' -> pipeline_inv s'.
Proof.
  intros Hi Hs. pose proof Hi as [H1 H2 H3 H4 H5 H6 H7 H8].
  destruct Hs as [c' o effs oks Hc He|t' Ht Hf|k c m Hk Hp Hn|n Hn Hl|s' Hs Ha].
  - destruct (crawls_given _ _ _ _ H1 Hc) as (Hp & effs' & He' & Hn).
    rewrite He in He'. apply app_inv_head in He' as ->. constructor; simpl; try done.
    + intros raw Hr. apply announced in Hr as [Hr|(n & Hin & Hm)]; [|exists n; auto].
      destruct (H2 _ Hr) as (n & Hg & Hm). exists n. split; [by apply of_given_mono|done].
    + intros k c m Hk Hm. apply announce_grows. by eapply H3.
    + intros n Hx. by apply of_given_mono, H5.
    + eapply Forall_impl; [exact H6|]. intros x. apply target_mono.
    + eapply Forall_impl; [exact H7|]. intros x [Hx Hy]. split; [by apply target_mono|done].
  - constructor; simpl; try done. by eapply topic_hears.
  - pose proof (hears_get _ _ _ H4 Hk) as [Hh1 Hh2].
    assert (hears (Broker.on_notified k c m (pl_topic s))) as Hh'.
    { eapply topic_hears; [exact H4|]. by eapply Broker.tp_notified. }
    constructor; simpl; try done.
    + intros j d x Hj Hx. simpl in Hj. apply list_lookup_insert_Some in Hj as [(_ & <- & _)|[_ Hj]]; [|by eapply H3].
      simpl in Hx. by eapply H3.
    + intros n Hu. eapply (decoded s); [exact Hi| |exact Hu]. eapply H3; [exact Hk|]. by apply Hh1.
  - constructor; simpl; try done.
    + apply on_enr_asked; [by apply H5|done].
    + apply NodeScan.scan_reach in H8 as H9. destruct H9 as [Hsi _].
      eapply scan_records; [exact Hsi|exact H6|exact H7|]. by apply NodeScan.sc_node.
    + eapply rtc_r; [exact H8|]. by apply NodeScan.sc_node.
  - constructor; simpl; try done.
    + by rewrite Ha.
    + apply NodeScan.scan_reach in H8 as H9. destruct H9 as [Hsi _].
      eapply scan_records; [exact Hsi|exact H6|exact H7|exact Hs].
    + by eapply rtc_r.
Qed.

Lemma pipeline_reach username s : rtc pipeline_step (new_pipeline username) s -> pipeline_inv s.
Proof.
  intros Hr. apply (rtc_invariant pipeline_step pipeline_inv _ _ pipeline_step_inv) in Hr; [exact Hr|]. constructor; simpl.
  - unfold peers_given. simpl. intros x p. by rewrite lookup_empty.
  - intros raw Hraw. by apply elem_of_nil in Hraw.
  - intros k c m Hk. done.
  - constructor.
  - done.
  - constructor.
  - constructor.
  - apply rtc_refl.
Qed.


End Pipeline.

(** ** One node, from the seeker to a thread of the controller *)

Module Demo.

Import Instances.

Fixpoint bytes (s : string) : list Z :=
  match s with EmptyString => [] | String c s' => Z.of_nat (Ascii.nat_of_ascii c) :: bytes s' end.

Fixpoint text (l : list Z) : string :=
  match l with [] => EmptyString | z :: l' => String (Ascii.ascii_of_nat (Z.to_nat z)) (text l') end.

Lemma text_bytes s : text (bytes s) = s.
Proof. induction s as [|c s IH]; [done|]. simpl. by rewrite Nat2Z.id, Ascii.ascii_nat_embedding, IH. Qed.

(** A message that has the text of the record only. *)
#[export] Instance small_json : Json := {
  MarshalNode n := Some (bytes (nn_ENR n));
  MarshalStats s := Some [];
  UnmarshalNode raw := Some (Crawler.mkNewNode (text raw) [] "" 0 [] None);
  valid_utf8 s := true }.

#[export] Instance small_json_laws : JsonLaws small_json.
Proof. split. intros n raw [= <-] _. eexists. split; [done|]. simpl. apply text_bytes. Qed.

Definition url (n : record) : string := if decide (r_ip n = [9; 9; 9; 9]) then "enode://a" else "enode://b".
Definition parse (enr : string) : option IP := if decide (enr = "enode://a"%string) then Some [9; 9; 9; 9] else None.
Definition fields (n : record) : list string := [].

Lemma url_parse n ip : parse (url n) = Some ip -> ip = r_ip n.
Proof. unfold parse, url. destruct (decide (r_ip n = _)) as [->|]; case_decide; congruence. Qed.

Definition one : Scanner.ScannerController := Scanner.NewScannerController 1 10 Second.
Definition peer : record := mkRecord 1 [9; 9; 9; 9] 30303 30303 1.

Definition crawler1 : Crawler.crawler := Crawler.Crawl_node url fields peer Crawler.NewCrawler.
Definition raw : list Z := bytes "enode://a".
Definition broker1 : rabbitBroker := mkRabbit "u" false None None ∅ [(newNodesQueue, raw)].

Definition feed1 : bfeed := bfeed_consume (bfeed_Subscribe new_bfeed).
Definition topic_at (pc : Broker.consumer_pc) (r p n : list (list Z)) (i : nat) : Broker.topic :=
  Broker.mkTopic [Broker.mkConsumer feed1 pc r p false n] (Some 0%nat) Broker.Free 0 i 1.

Definition at_ (t : Broker.topic) (held : option NewNode) (sc : NodeScan.scan) : pipeline (E := xor_enode) :=
  mkPipeline [peer] crawler1 broker1 t held sc.

Definition scan0 : NodeScan.scan := NodeScan.new_scan one.
Definition scan1 : NodeScan.scan := NodeScan.on_enr parse "enode://a" scan0.
Definition scan2 : NodeScan.scan := NodeScan.taken_on 0 0 true (Scanner.node_item [9; 9; 9; 9]) scan1.
Definition heard : NewNode := Crawler.mkNewNode "enode://a" [] "" 0 [] None.
Definition told : Broker.topic := topic_at Broker.Consuming [raw] [] [raw] 1.

Lemma fed_nothing b t : Forall (fun c => Broker.received c = []) (Broker.consumers t) -> fed b t.
Proof.
  intros H k c m Hk Hm. rewrite (proj1 (Forall_lookup _ _) H k c Hk) in Hm. by apply elem_of_nil in Hm.
Qed.

Lemma fed_raw pc p n i : fed broker1 (topic_at pc [raw] p n i).
Proof. intros [|k] c m Hk Hm; [|done]. injection Hk as <-. apply list_elem_of_singleton in Hm as ->. left. Qed.

Lemma scanning_reachable : rtc (pipeline_step (E := xor_enode) url fields parse) (new_pipeline one "u") (at_ told None scan2).
Proof.
  pose proof (pl_crawls (E := xor_enode) url fields parse (new_pipeline one "u") crawler1 (Some peer) (Crawler.effects crawler1) [true; true; true]
    (cr_node _ _ _ peer) eq_refl) as H1.
  eapply rtc_l; [exact H1|]. clear H1.
  change (rtc (pipeline_step (E := xor_enode) url fields parse) (at_ Broker.new_topic None scan0) (at_ told None scan2)).
  eapply rtc_l; [apply (pl_subscription (E := xor_enode) url fields parse (at_ Broker.new_topic None scan0) (Broker.subscribe Broker.new_topic));
    [by apply Broker.tp_subscribe|by apply fed_nothing; repeat constructor]|].
  eapply rtc_l; [apply (pl_subscription (E := xor_enode) url fields parse (at_ (Broker.subscribe Broker.new_topic) None scan0) (topic_at Broker.Consuming [] [] [] 0));
    [exact (Broker.tp_start (Broker.subscribe Broker.new_topic) 0 _ eq_refl eq_refl eq_refl)|by apply fed_nothing; repeat constructor]|].
  eapply rtc_l; [apply (pl_subscription (E := xor_enode) url fields parse (at_ (topic_at Broker.Consuming [] [] [] 0) None scan0) (topic_at Broker.Consuming [raw] [raw] [] 0));
    [exact (Broker.tp_deliver (topic_at Broker.Consuming [] [] [] 0) 0 _ raw eq_refl eq_refl)|apply fed_raw]|].
  eapply rtc_l; [apply (pl_subscription (E := xor_enode) url fields parse (at_ (topic_at Broker.Consuming [raw] [raw] [] 0) None scan0) (topic_at (Broker.Notifying raw) [raw] [] [] 1));
    [exact (Broker.tp_message (topic_at Broker.Consuming [raw] [raw] [] 0) 0 _ raw [] eq_refl eq_refl eq_refl)|apply fed_raw]|].
  eapply rtc_l; [exact (pl_hears (E := xor_enode) url fields parse (at_ (topic_at (Broker.Notifying raw) [raw] [] [] 1) None scan0) 0 _ raw eq_refl eq_refl eq_refl)|].
  eapply rtc_l; [exact (pl_takes (E := xor_enode) url fields parse (at_ told (Some heard) scan0) heard eq_refl eq_refl)|].
  eapply rtc_l; [exact (pl_scans (E := xor_enode) url fields parse (at_ told None scan1) scan2 (NodeScan.sc_take parse scan1 0 0 true _ eq_refl eq_refl eq_refl) eq_refl)|].
  apply rtc_refl.
Qed.


End Demo.
