(* ===== verification/Launch.v ===== *)
(** * The launchers: commands and their flags

    The tables of commands that crawler/cmd/crawler/launcher, crawler/cmd/disc
    and scanner/cmd/scanner/launcher give to the package [cli], with the flags
    each command accepts, as crawler/app/flags.go and scanner/app/flags.go
    declare them.  A command depends on the flags it accepts and on no other;
    some that the scanner accepts have no effect. *)

From Stdlib Require Import ZArith Lia.
From stdpp Require Import base list gmap strings relations.
From S2P Require Import Prelude Golang Procs External Instances Nodes.
From S2P Require Import Config.
From S2P Require Writer CrawlApp ScanApp Log.

(** ** Flags *)

Inductive flag_kind : Set := BoolFlag | StringFlag | StringSliceFlag | IntFlag | UintFlag | Uint64Flag.

Record flag := mkFlag { f_kind : flag_kind; f_Name : string }.

#[export] Instance flag_kind_eq_dec : EqDecision flag_kind.
Proof. solve_decision. Defined.

#[export] Instance flag_eq_dec : EqDecision flag.
Proof. solve_decision. Defined.

Module CrawlerFlags.
Import Config.Crawler.

Definition Nodes := mkFlag StringFlag NodesFlag.
Definition TimeOutInMinutes := mkFlag Uint64Flag TimeOutInMinutesFlag.
Definition ConcurrencyFactor := mkFlag Uint64Flag ConcurrencyFactorFlag.
Definition Dir := mkFlag StringFlag DirFlag.

(** The flags of [CrawlerCommand]. *)
Definition crawl : list flag :=
  [Nodes; mkFlag BoolFlag MetricsFlag; mkFlag StringSliceFlag IdentitiesFlag; mkFlag IntFlag DiscPort;
   mkFlag StringFlag FakeName; mkFlag StringSliceFlag FakeCaps; mkFlag BoolFlag BrokerEnabled;
   mkFlag StringFlag BrokerEndpoint; mkFlag StringFlag BrokerPassword; mkFlag StringFlag BrokerUser;
   mkFlag StringFlag DbSource; mkFlag StringFlag DbMigrationUrl].

End CrawlerFlags.

Module ScannerFlags.
Import Config.Scanner.

Definition BrokerFlags : list flag :=
  [mkFlag BoolFlag brokerEnabled; mkFlag StringFlag brokerEndpoint; mkFlag StringFlag brokerUser; mkFlag StringFlag brokerPassword].
Definition DbFlags : list flag := [mkFlag BoolFlag dbEnabled; mkFlag StringFlag dbSource; mkFlag StringFlag dbMigrationUrl].
Definition CacheFlags : list flag :=
  [mkFlag BoolFlag cacheEnabled; mkFlag StringFlag cacheEndpoint; mkFlag StringFlag cachePassword].
Definition BurstFlag : string := "burst".

(** [init] adds these to both commands. *)
Definition baseFlags : list flag :=
  [mkFlag BoolFlag Verbose; mkFlag UintFlag IntervalFlag; mkFlag StringFlag BurstFlag; mkFlag StringSliceFlag IpsFlag;
   mkFlag UintFlag ScanPortStart; mkFlag UintFlag ScanPortEnd].

Definition EventScan : list flag := ([mkFlag BoolFlag MetricsFlag] ++ BrokerFlags ++ CacheFlags ++ DbFlags ++ baseFlags)%list.
Definition IpScan : list flag := baseFlags.

(** The flags without effect. *)
Definition unread : list string := [BurstFlag; ScanPortStart; ScanPortEnd].

End ScannerFlags.

(** ** Commands *)

Inductive action : Set := RunCrawler | DiscV4Ping | DiscV4AskRandom | DiscV4AskEnr | DiscV4PeekDB | RunEventScanner | RunIpScanner.

(** A command with an action, or with subcommands. *)
Inductive command : Type :=
| Command (name : string) (flags : list flag) (a : action)
| Group (name : string) (subcommands : list command).

Definition cmd_name (c : command) : string := match c with Command n _ _ | Group n _ => n end.

Definition crawler_app : list command := [Command "crawl" CrawlerFlags.crawl RunCrawler].

Definition disc_app : list command :=
  [Group "discv4"
    [Command "ping" [CrawlerFlags.Nodes] DiscV4Ping;
     Command "random" [CrawlerFlags.Nodes] DiscV4AskRandom;
     Command "enr" [CrawlerFlags.Nodes] DiscV4AskEnr;
     Command "scan" [CrawlerFlags.Nodes; CrawlerFlags.TimeOutInMinutes; CrawlerFlags.ConcurrencyFactor; CrawlerFlags.Dir] DiscV4PeekDB]].

Definition scanner_app : list command :=
  [Command "EventScan" ScannerFlags.EventScan RunEventScanner; Command "IpScan" ScannerFlags.IpScan RunIpScanner].

(** The actions and the flags of a table, and the names on the way to them. *)
Fixpoint actions (prefix : list string) (c : command) : list (list string * list flag * action) :=
  match c with
  | Command n fs a => [((prefix ++ [n])%list, fs, a)]
  | Group n cs => concat (map (actions (prefix ++ [n])%list) cs)
  end.

Definition all_actions (app : list command) : list (list string * list flag * action) := concat (map (actions []) app).

(** No two actions of a program have the same names, and no command has two
    flags of one name. *)
Lemma commands_distinct :
  Forall (fun app => NoDup (map (fun x => x.1.1) (all_actions app)) /\ Forall (fun x => NoDup (map f_Name x.1.2)) (all_actions app))
    [crawler_app; disc_app; scanner_app].
Proof. apply (bool_decide_eq_true_1 _). vm_compute. reflexivity. Qed.

(** [exit] of disc/main.go, and the launchers' [Launch]: the status. *)
Definition exit_code {Err} (err : option Err) : Z := match err with None => 0 | Some _ => 1 end.

(** ** What a command depends on *)

Record agree_on (ctx ctx' : Config.Context) (n : string) : Prop := {
  ag_set : IsSet ctx n = IsSet ctx' n;
  ag_bool : Bool_ ctx n = Bool_ ctx' n;
  ag_string : String_ ctx n = String_ ctx' n;
  ag_slice : StringSlice ctx n = StringSlice ctx' n;
  ag_int : Int ctx n = Int ctx' n;
  ag_uint : Uint ctx n = Uint ctx' n;
  ag_uint64 : Uint64 ctx n = Uint64 ctx' n }.

(** Two command lines that say the same of the flags. *)
Definition agree (fs : list flag) (ctx ctx' : Config.Context) : Prop := Forall (agree_on ctx ctx') (map f_Name fs).

Lemma agree_get fs ctx ctx' n : agree fs ctx ctx' -> bool_decide (n ∈ map f_Name fs) = true -> agree_on ctx ctx' n.
Proof. intros H Hn%bool_decide_eq_true. unfold agree in H. rewrite Forall_forall in H. by apply H. Qed.

(** A flag that a command accepts reads the same. *)
Ltac reads :=
  repeat match goal with
  | H : agree _ ?ctx ?ctx' |- context[_ ?ctx ?n] =>
      let G := fresh in
      pose proof (agree_get _ _ _ n H ltac:(vm_compute; reflexivity)) as G;
      progress rewrite ?(ag_set _ _ _ G), ?(ag_bool _ _ _ G), ?(ag_string _ _ _ G), ?(ag_slice _ _ _ G), ?(ag_int _ _ _ G),
        ?(ag_uint _ _ _ G), ?(ag_uint64 _ _ _ G); clear G
  end.

Section Crawler.
Context `{EL : EnodeLaws} `{NL : NetUtilLaws} `{DL : NodeDBLaws (E := E)} `{WL : V4WireLaws (E := E)}.
Context `{R : Writer.RateLimiter}.
Context {Store Socket : Type}.
Context (ParseV4 : string -> option enode) (NewStore : string -> string -> option Store)
  (ListenPacket : Z -> option Socket) (Dial : string -> string -> string -> bool) (OpenDB : DB) (Self : enode)
  (now : Z) (qrnd : nat).
Implicit Types ctx : Config.Context.

(** The crawl command depends on the flags it accepts. *)
Lemma crawl_flags_suffice ctx ctx' :
  agree CrawlerFlags.crawl ctx ctx' ->
  CrawlApp.runCrawler ParseV4 NewStore ListenPacket Dial OpenDB Self now qrnd ctx =
  CrawlApp.runCrawler ParseV4 NewStore ListenPacket Dial OpenDB Self now qrnd ctx'.
Proof.
  intros H. unfold CrawlApp.runCrawler.
  assert (Config.Crawler.ParseIdentities ctx = Config.Crawler.ParseIdentities ctx') as -> by (unfold Config.Crawler.ParseIdentities; by reads).
  assert (Config.Crawler.ParseMetrics ctx = Config.Crawler.ParseMetrics ctx') as -> by (unfold Config.Crawler.ParseMetrics; by reads).
  assert (Config.Crawler.ParseNodes ParseV4 ctx = Config.Crawler.ParseNodes ParseV4 ctx') as ->
    by (unfold Config.Crawler.ParseNodes; by reads).
  assert (Config.Crawler.ParseFakeCaps ctx = Config.Crawler.ParseFakeCaps ctx') as -> by (unfold Config.Crawler.ParseFakeCaps; by reads).
  assert (Config.Crawler.ParseBroker ctx = Config.Crawler.ParseBroker ctx') as -> by (unfold Config.Crawler.ParseBroker; by reads).
  assert (Config.Crawler.ParseDb NewStore ctx = Config.Crawler.ParseDb NewStore ctx') as -> by (unfold Config.Crawler.ParseDb; by reads).
  assert (Config.Crawler.ParseDiscPort ctx = Config.Crawler.ParseDiscPort ctx') as -> by (unfold Config.Crawler.ParseDiscPort; by reads).
  reflexivity.
Qed.

End Crawler.

Section Scanner.
Context {Store : Type}.
Context (ParseIP : string -> option IP) (Dial : string -> string -> string -> bool) (PingCache : string -> string -> bool)
  (NewStore : string -> string -> option Store) (gomaxprocs : Z).
Implicit Types ctx : Config.Context.

(** The flags of a list that have an effect. *)
Definition read_flags (fs : list flag) : list flag := filter (fun f => f_Name f ∉ ScannerFlags.unread) fs.

Lemma Parse_agree ctx ctx' cfg :
  agree (read_flags ScannerFlags.EventScan) ctx ctx' ->
  Config.Scanner.Parse ParseIP ctx cfg = Config.Scanner.Parse ParseIP ctx' cfg.
Proof.
  intros H. unfold Config.Scanner.Parse.
  assert (forall c, Config.Scanner.ParseMetrics ctx c = Config.Scanner.ParseMetrics ctx' c) as ->
    by (intros c; unfold Config.Scanner.ParseMetrics; by reads).
  assert (forall c, Config.Scanner.ParseInterval ctx c = Config.Scanner.ParseInterval ctx' c) as ->
    by (intros c; unfold Config.Scanner.ParseInterval; by reads).
  assert (forall c, Config.Scanner.ParseIps ParseIP ctx c = Config.Scanner.ParseIps ParseIP ctx' c) as ->
    by (intros c; unfold Config.Scanner.ParseIps; by reads).
  destruct (Config.Scanner.ParseIps ParseIP ctx' _) as [c2 _].
  assert (forall c, Config.Scanner.ParseBroker ctx c = Config.Scanner.ParseBroker ctx' c) as ->
    by (intros c; unfold Config.Scanner.ParseBroker; by reads).
  destruct (Config.Scanner.ParseBroker ctx' c2) as [c3 []]; [|done]. simpl.
  assert (forall c, Config.Scanner.ParseDb ctx c = Config.Scanner.ParseDb ctx' c) as ->
    by (intros c; unfold Config.Scanner.ParseDb; by reads).
  destruct (Config.Scanner.ParseDb ctx' c3) as [c4 []]; [|done]. simpl. unfold Config.Scanner.ParseCache. by reads.
Qed.

(** The burst and the range of ports, which both scan commands accept, have
    no effect on them. *)
Lemma unread_flags_ignored ctx ctx' :
  agree (read_flags ScannerFlags.EventScan) ctx ctx' ->
  ScanApp.runEventScanner ParseIP Dial PingCache NewStore gomaxprocs ctx =
    ScanApp.runEventScanner ParseIP Dial PingCache NewStore gomaxprocs ctx' /\
  ScanApp.runIpScanner ParseIP gomaxprocs ctx = ScanApp.runIpScanner ParseIP gomaxprocs ctx'.
Proof.
  intros H. unfold ScanApp.runEventScanner, ScanApp.runIpScanner. by rewrite (Parse_agree ctx ctx' _ H).
Qed.

(** A flag that a command does not accept is not set. *)
Definition accepts (fs : list flag) ctx : Prop := forall n, n ∉ map f_Name fs -> IsSet ctx n = false.

(** [IpScan] parses the flags of [EventScan], of which it accepts its own:
    it never fails for the services, and has none. *)
Lemma IpScan_no_services ctx c :
  accepts ScannerFlags.IpScan ctx ->
  exists c', Config.Scanner.Parse ParseIP ctx c = (c', true) /\
    Config.Scanner.Metrics c' = Config.Scanner.Metrics c /\ Config.Scanner.BrokerEnabled c' = Config.Scanner.BrokerEnabled c /\
    Config.Scanner.CacheEnabled c' = Config.Scanner.CacheEnabled c /\ Config.Scanner.StoreEnabled c' = Config.Scanner.StoreEnabled c.
Proof.
  intros H. assert (forall n, bool_decide (n ∉ map f_Name ScannerFlags.IpScan) = true -> IsSet ctx n = false) as Hn.
  { intros n Hn%bool_decide_eq_true. by apply H. }
  unfold Config.Scanner.Parse, Config.Scanner.ParseMetrics, Config.Scanner.ParseBroker, Config.Scanner.ParseDb, Config.Scanner.ParseCache.
  rewrite (Hn Config.Scanner.MetricsFlag), (Hn Config.Scanner.brokerEnabled), (Hn Config.Scanner.dbEnabled),
    (Hn Config.Scanner.cacheEnabled) by (vm_compute; reflexivity). simpl.
  unfold Config.Scanner.ParseIps, Config.Scanner.ParseInterval. destruct (IsSet ctx Config.Scanner.IpsFlag); simpl.
  - destruct (Config.Scanner.add_ips _ _ _) as [ips ok]. eexists. split; [done|]. by destruct (IsSet ctx Config.Scanner.IntervalFlag).
  - eexists. split; [done|]. by destruct (IsSet ctx Config.Scanner.IntervalFlag).
Qed.

End Scanner.
