(* ===== verification/Cache.v ===== *)
(** * scanner/scanner/cache.go: the cache of the scanned addresses

    The cache is a Redis server: a key per address, that expires after twelve
    hours.  Scanner.v and NodeScan.v have the cache as the set of its keys, as
    long as none expires; here the keys have their time, and the commands may
    fail. *)

From stdpp Require Import base list gmap strings sorting.
From Stdlib Require Import ZArith Lia.
From S2P Require Import Prelude Golang NetIP Scanner.
Local Open Scope Z_scope.

(** ** Redis

    A command that does not reach the server, or whose context is done,
    changes nothing.  [stored s t k]: the key [k] is there at the instant [t]
    if nothing is written before. *)
Class Redis := {
  store : Type;
  stored : store -> Z -> string -> bool;
  (* the key, the time to live, the instant *)
  SetNX : string -> Z -> Z -> store -> store * bool;
  Del : string -> store -> store }.

Class RedisLaws `(R : Redis) : Prop := {
  SetNX_taken k ttl now s : stored s now k = true -> SetNX k ttl now s = (s, false);
  SetNX_free k ttl now s : stored s now k = false ->
    (SetNX k ttl now s).2 = true /\
    forall t k', now <= t -> stored (SetNX k ttl now s).1 t k' = if decide (k' = k) then bool_decide (t < now + ttl) else stored s t k';
  Del_stored k s t k' : stored (Del k s) t k' = negb (bool_decide (k' = k)) && stored s t k' }.

Section Cache.
Context `{R : Redis}.

Definition expiration : Z := 12 * Hour.

(** [Start]: the client pings the server, and looks after it when that
    answered. *)
Definition Start (ping : bool) : option () := if ping then Some tt else None.

(** [runStatus] over the answers of the server: how often it pinged, how often
    it waited for its ticker, and whether the process exited. *)
Fixpoint runStatus (pings : list bool) : nat * nat * bool :=
  match pings with
  | [] => (0%nat, 0%nat, false)
  | true :: pings' => let '(n, w, e) := runStatus pings' in (S n, w, e)
  | false :: _ => (1%nat, 0%nat, true)
  end.

(** The value of a command that failed is false. *)
Definition cacheScan (reached : bool) (now : Z) (ip : IP) (s : store) : store * bool :=
  if negb reached then (s, false) else SetNX (scan_key ip) expiration now s.

Definition deleteScan (reached : bool) (ip : IP) (s : store) : store :=
  if negb reached then s else Del (scan_key ip) s.

(** ** Sequences of commands *)

Inductive command : Type := CacheScan (ip : IP) | DeleteScan (ip : IP).

(** A command, its instant, and whether the server was reached. *)
Record request := mkRequest { rq_at : Z; rq_reached : bool; rq_command : command }.

(** The result of a deletion is false. *)
Definition serve (q : request) (s : store) : store * bool :=
  match rq_command q with
  | CacheScan ip => cacheScan (rq_reached q) (rq_at q) ip s
  | DeleteScan ip => (deleteScan (rq_reached q) ip s, false)
  end.

Fixpoint serve_all (l : list request) (s : store) : store * list bool :=
  match l with
  | [] => (s, [])
  | q :: l' => let '(s1, b) := serve q s in let '(s2, bs) := serve_all l' s1 in (s2, b :: bs)
  end.

(** ** Facts *)

Context {L : RedisLaws R}.

(** The status is checked without a pause, until the server fails. *)
Lemma runStatus_never_waits pings :
  (runStatus pings).1.2 = 0%nat /\ ((runStatus pings).2 = true <-> false ∈ pings) /\
  (false ∉ pings -> (runStatus pings).1.1 = length pings).
Proof.
  induction pings as [|[] pings IH]; simpl.
  - split_and!; [done| |done]. split; [done|]. by intros ?%elem_of_nil.
  - destruct (runStatus pings) as [[n w] e]. simpl in *. destruct IH as (Hw & He & Hn). split_and!; [done| |].
    + rewrite He. set_solver.
    + intros Hf. f_equal. apply Hn. set_solver.
  - split_and!; [done| |]; [split; [left|done]|]. intros Hf. destruct Hf. left.
Qed.

(** While the server cannot be reached every address counts as scanned. *)
Lemma unreached_is_hit now ip s : cacheScan false now ip s = (s, false).
Proof. reflexivity. Qed.

(** The keys that are there, as Scanner.v has them. *)
Definition represents (now : Z) (s : store) (c : gset string) : Prop := forall k, stored s now k = bool_decide (k ∈ c).

Lemma cacheScan_refines now ip s c :
  represents now s c ->
  (cacheScan true now ip s).2 = (Scanner.cacheScan c ip).2 /\ represents now (cacheScan true now ip s).1 (Scanner.cacheScan c ip).1.
Proof.
  intros Hr. unfold cacheScan, Scanner.cacheScan. cbn [negb]. pose proof (Hr (scan_key ip)) as Hk. case_decide as Hin.
  - rewrite bool_decide_eq_true_2 in Hk by done. by rewrite SetNX_taken.
  - rewrite bool_decide_eq_false_2 in Hk by done. destruct (SetNX_free _ expiration _ _ Hk) as [Hok Hs]. split; [done|].
    intros k. simpl. rewrite Hs by lia. case_decide as He.
    + subst. symmetry. rewrite !bool_decide_eq_true_2; [done| |set_solver]. unfold expiration, Hour, Minute, Second, Millisecond, Microsecond. lia.
    + rewrite (Hr k). apply bool_decide_ext. set_solver.
Qed.

Lemma deleteScan_refines now ip s c : represents now s c -> represents now (deleteScan true ip s) (Scanner.deleteScan c ip).
Proof.
  intros Hr k. unfold deleteScan, Scanner.deleteScan. cbn [negb]. rewrite Del_stored, (Hr k).
  repeat case_bool_decide; set_solver.
Qed.

(** The key of an address stays until [until]. *)
Definition kept (ip : IP) (now until : Z) (s : store) : Prop := forall t, now <= t < until -> stored s t (scan_key ip) = true.

Definition not_deleted (ip : IP) (q : request) : Prop :=
  match rq_command q with DeleteScan ip' => scan_key ip' <> scan_key ip | CacheScan _ => True end.

Lemma serve_kept ip now until q s :
  kept ip now until s -> now <= rq_at q -> not_deleted ip q -> kept ip (rq_at q) until (serve q s).1.
Proof.
  intros Hk Hn Hd t Ht. pose proof (Hk t ltac:(lia)) as Hs. unfold serve, not_deleted in *. destruct (rq_command q) as [ip'|ip'].
  - unfold cacheScan. destruct (rq_reached q); [|done]. cbn [negb].
    destruct (stored s (rq_at q) (scan_key ip')) eqn:Eq; [by rewrite SetNX_taken|].
    destruct (SetNX_free _ expiration _ _ Eq) as [_ Hf]. rewrite Hf by lia. case_decide as He; [|done].
    rewrite <- He, Hk in Eq by lia. done.
  - simpl. unfold deleteScan. destruct (rq_reached q); [|done]. cbn [negb]. rewrite Del_stored, Hs, bool_decide_eq_false_2 by done. done.
Qed.

(** No scan of the address is granted while its key is kept. *)
Lemma kept_refused ip now until l s i q :
  kept ip now until s -> Forall (fun q => now <= rq_at q) l -> StronglySorted (fun q q' => rq_at q <= rq_at q') l ->
  Forall (not_deleted ip) l -> l !! i = Some q -> rq_command q = CacheScan ip -> (serve_all l s).2 !! i = Some true ->
  until <= rq_at q.
Proof.
  revert now s i. induction l as [|q0 l IH]; intros now s i Hk Hn Hs Hd Hi Hq Hg; [done|].
  apply Forall_cons in Hn as [Hn0 Hn], Hd as [Hd0 Hd]. apply StronglySorted_inv in Hs as [Hs Hle].
  simpl in Hg. destruct (serve q0 s) as [s1 b] eqn:Es. destruct (serve_all l s1) as [s2 bs] eqn:El.
  destruct i as [|i]; simpl in Hi, Hg.
  - injection Hi as ->. injection Hg as ->. destruct (decide (until <= rq_at q)); [done|]. exfalso.
    unfold serve in Es. rewrite Hq in Es. unfold cacheScan in Es. destruct (rq_reached q); [|done]. cbn [negb] in Es.
    rewrite SetNX_taken in Es by (apply Hk; lia). done.
  - pose proof (serve_kept ip now until q0 s Hk Hn0 Hd0) as Hk1. rewrite Es in Hk1. simpl in Hk1.
    eapply (IH (rq_at q0) s1 i Hk1); [| | |exact Hi|exact Hq|by rewrite El]; [|done..].
    eapply Forall_impl; [exact Hle|done].
Qed.

Lemma serve_all_app l l' s : (serve_all (l ++ l') s).2 = (serve_all l s).2 ++ (serve_all l' (serve_all l s).1).2.
Proof.
  revert s. induction l as [|q l IH]; intros s; simpl; [done|]. destruct (serve q s) as [s1 b]. specialize (IH s1).
  destruct (serve_all (l ++ l') s1) as [s2 bs], (serve_all l s1) as [s3 bs']. simpl in *. by rewrite IH.
Qed.

Lemma serve_all_length l s : length (serve_all l s).2 = length l.
Proof.
  revert s. induction l as [|q l IH]; intros s; simpl; [done|]. destruct (serve q s) as [s1 b]. specialize (IH s1).
  destruct (serve_all l s1). simpl in *. by f_equal.
Qed.

(** The answer to a request of the second part. *)
Lemma serve_all_second l l' s i b :
  (serve_all (l ++ l') s).2 !! (length l + i)%nat = Some b -> (serve_all l' (serve_all l s).1).2 !! i = Some b.
Proof. rewrite serve_all_app, lookup_app_r; rewrite serve_all_length; [|lia]. by rewrite Nat.add_comm, Nat.add_sub. Qed.

(** A granted scan keeps the key. *)
Lemma granted_kept ip q s s1 :
  rq_command q = CacheScan ip -> serve q s = (s1, true) -> kept ip (rq_at q) (rq_at q + expiration) s1.
Proof.
  intros Hq Hs t Ht. unfold serve in Hs. rewrite Hq in Hs. unfold cacheScan in Hs. destruct (rq_reached q); [|done]. cbn [negb] in Hs.
  destruct (stored s (rq_at q) (scan_key ip)) eqn:Es; [by rewrite SetNX_taken in Hs|].
  destruct (SetNX_free _ expiration _ _ Es) as [_ Hf]. rewrite Hs in Hf. simpl in Hf. rewrite Hf by lia.
  rewrite decide_True by done. apply bool_decide_eq_true_2. lia.
Qed.


End Cache.

(** ** A server *)

Module Demo.

(** The keys with the instants at which they expire. *)
#[export] Instance expiring : Redis := {
  store := gmap string Z;
  stored s t k := match s !! k with Some e => bool_decide (t < e) | None => false end;
  SetNX k ttl now s :=
    match s !! k with
    | Some e => if decide (now < e) then (s, false) else (<[k := now + ttl]> s, true)
    | None => (<[k := now + ttl]> s, true)
    end;
  Del k s := delete k s }.

#[export] Instance expiring_laws : RedisLaws expiring.
Proof.
  split; simpl.
  - intros k ttl now s. destruct (s !! k) as [e|]; [|done]. intros He%bool_decide_eq_true. by rewrite decide_True.
  - intros k ttl now s Hn. assert (forall t k', now <= t ->
      match <[k:=now + ttl]> s !! k' with Some e => bool_decide (t < e) | None => false end =
      (if decide (k' = k) then bool_decide (t < now + ttl) else match s !! k' with Some e => bool_decide (t < e) | None => false end)) as H.
    { intros t k' _. case_decide as Hk; [by rewrite Hk, lookup_insert_eq|by rewrite lookup_insert_ne]. }
    destruct (s !! k) as [e|]; [|by split]. apply bool_decide_eq_false in Hn. rewrite decide_False by done. by split.
  - intros k s t k'. case_bool_decide as Hk; simpl; [by rewrite Hk, lookup_delete_eq|by rewrite lookup_delete_ne].
Qed.

Definition ip1 : IP := [9; 9; 9; 9].

Definition again (t : Z) : request := mkRequest t true (CacheScan ip1).

Example twelve_hours : (serve_all [again 0; again (11 * Hour); again (12 * Hour)] ∅).2 = [true; false; true].
Proof. vm_compute. reflexivity. Qed.


End Demo.
