(* ===== verification/LookupCalls.v ===== *)
(** * Lookups through the packet handler

    query.go takes the function that queries a node as a parameter; Query.v
    lets any node answer anything.  In handler.go that function is
    [runNodesQuery] of the packet handler.  Here the goroutines of a lookup
    call the packet handler (PacketHandler.v), which other calls use
    beside them: the lookup is one of Query.v, and each of its queries is one
    call that the handler records. *)

From Stdlib Require Import ZArith Lia Permutation String.
From stdpp Require Import base list gmap relations.
From S2P Require Import Prelude Golang Procs External Instances Nodes NodesFacts Query QueryProps.
From S2P Require PacketHandler.
Local Open Scope Z_scope.

Section LookupCalls.
Context `{E : Enode} {St Err Key World : Type} {H : PacketHandler.SubHandler St Err Key World}.
Implicit Types (t : PacketHandler.timing (World := World)) (h : PacketHandler.PacketHandler (St := St)).

(** [queryFunc] of [LookupRandom] for its target. *)
Definition queryFunc (target : Key) t (n : enode) : proc PacketHandler.PacketHandler (list enode * option Err) :=
  PacketHandler.runNodesQuery t (enode_IP n, enode_UDP n) (enode_ID n) target.

(** The nodes whose query is under way. *)
Definition querying (g : list go) : list enode := omap (fun x => match x with GQuery n => Some n | _ => None end) g.

(** A call that ended, with the error it returned. *)
Definition ended : Type := PacketHandler.timing (World := World) * PacketHandler.call (Key := Key) * option Err.

(** The round, the packet handler, all calls that ended, and the nodes whose
    queries are among them. *)
Record looking := mkLooking {
  lk_round : round; lk_handler : PacketHandler.PacketHandler (St := St); lk_log : list ended; lk_asked : list enode }.

Definition start_round (it : lookup) h : looking := mkLooking (round_init it (Enodes (result it))) h [] [].

Section Steps.
Context (target : Key) (fair : World -> Prop).

(** A query that returned, in the goroutine between [g1] and [g2]. *)
Definition returned (it : lookup) ns p s c d g1 g2 (nodes : list enode) (err : option Err) : round :=
  match err with
  | Some _ => mkRound it ns p s c d (g1 ++ GSend :: g2)
  | None =>
      let '(b, added) := append (buffer it) nodes in
      mkRound (set_answers (set_buffer it b) (answers it ++ nodes)) ns p s c d
        (g1 ++ (if decide (0 < added)%nat then GAdd else GSend) :: g2)
  end.

(** A step of the round other than a query's; a query; another call of the
    handler.  A call that blocks has no step. *)
Inductive looking_step (x : looking) : looking -> Prop :=
| lk_own r' :
    round_ok (lk_round x) r' -> (length (querying (gos (lk_round x))) <= length (querying (gos r')))%nat ->
    looking_step x (mkLooking r' (lk_handler x) (lk_log x) (lk_asked x))
| lk_query it ns p s c d g1 n g2 t h' nodes err :
    lk_round x = mkRound it ns p s c d (g1 ++ GQuery n :: g2) -> fair (PacketHandler.world t) ->
    queryFunc target t n (lk_handler x) = Returns h' (nodes, err) ->
    looking_step x (mkLooking (returned it ns p s c d g1 g2 nodes err) h'
      (lk_log x ++ [(t, PacketHandler.CallRandom n target, err)]) (lk_asked x ++ [n]))
| lk_beside t c h' r :
    fair (PacketHandler.world t) -> PacketHandler.run_call t c (lk_handler x) = Returns h' r ->
    looking_step x (mkLooking (lk_round x) h' (lk_log x ++ [(t, c, r)]) (lk_asked x)).

(** [Run] of the lookup from a state of the handler to another, with the calls
    that ended and the nodes that were queried. *)
Inductive lookup_runs : lookup -> PacketHandler.PacketHandler -> list ended -> list enode -> lookup -> PacketHandler.PacketHandler -> Prop :=
| lr_depth it h : depth it = 0 -> lookup_runs it h [] [] it h
| lr_stop it h x :
    depth it <> 0 -> rtc looking_step (start_round it h) x -> at_ (lk_round x) = PcRet false ->
    lookup_runs it h (lk_log x) (lk_asked x) (look (lk_round x)) (lk_handler x)
| lr_more it h x log asked it' h' :
    depth it <> 0 -> rtc looking_step (start_round it h) x -> at_ (lk_round x) = PcRet true ->
    lookup_runs (absorb (look (lk_round x))) (lk_handler x) log asked it' h' ->
    lookup_runs it h (lk_log x ++ log) (lk_asked x ++ asked) it' h'.

End Steps.

(** ** Facts *)

Lemma querying_app g1 g2 : querying (g1 ++ g2) = querying g1 ++ querying g2.
Proof. unfold querying. by rewrite omap_app. Qed.

(** A query's return is a step of the round. *)
Lemma returned_step it ns p s c d g1 n g2 nodes err :
  round_ok (mkRound it ns p s c d (g1 ++ GQuery n :: g2)) (returned it ns p s c d g1 g2 nodes err).
Proof.
  unfold returned. destruct err; [apply st_error|]. destruct (append (buffer it) nodes) as [b added] eqn:Ea. by apply st_reply.
Qed.

Lemma returned_trace it ns p s c d g1 g2 nodes err :
  trace (look (returned it ns p s c d g1 g2 nodes err)) = trace it /\
  querying (gos (returned it ns p s c d g1 g2 nodes err)) = querying g1 ++ querying g2.
Proof.
  unfold returned. destruct err; simpl; [by rewrite querying_app|]. destruct (append _ _) as [b added]. simpl.
  rewrite querying_app. by case_decide.
Qed.

(** A step of the round's own hands out queries of the trace, and ends none. *)
Lemma own_trace r r' :
  round_ok r r' -> (length (querying (gos r)) <= length (querying (gos r')))%nat ->
  exists new, trace (look r') = trace (look r) ++ new /\ Permutation (querying (gos r')) (querying (gos r) ++ new).
Proof.
  intros Hs Hq. inversion Hs as [| it it' n ns s c d g Hc|it it' n ns s c d g Hc| | | | | | | | | | | | |]; subst; simpl in *;
    rewrite ?querying_app in *; simpl in *; rewrite ?length_app in *; simpl in *;
    try (exists []; rewrite !app_nil_r; split; [done|done]).
  - exists []. rewrite !app_nil_r. unfold canAsk in Hc. case_decide; by injection Hc as <-.
  - exists []. rewrite !app_nil_r. unfold canAsk in Hc. case_decide; by injection Hc as <-.
  - exists [n]. done.
  - lia.
  - exfalso. case_decide; simpl in *; rewrite ?querying_app, ?length_app in *; simpl in *; lia.
  - exists []. rewrite !app_nil_r. split; [done|]. by case_decide.
Qed.

(** ** The calls *)

Section Laws.
Context {I : St -> Prop} {fair : World -> Prop} {HL : PacketHandler.SubHandlerLaws H I fair}.

(** The recordings of calls that all ended. *)
Definition logged (log : list ended) (l : list PacketHandler.recording) : Prop := PacketHandler.recorded log.*1 log.*2 l.

Lemma logged_snoc log t c r l l' :
  logged log l -> PacketHandler.records_call t c r l' -> logged (log ++ [(t, c, r)]) (l ++ l').
Proof.
  unfold logged. revert l. induction log as [|[[t0 c0] r0] log IH]; intros l Hl Hr; inversion Hl; subst; simpl.
  - rewrite <- (app_nil_r l'). by constructor; [|constructor].
  - rewrite <- app_assoc. constructor; [done|]. by apply IH.
Qed.

Lemma logged_app log log' l l' : logged log l -> logged log' l' -> logged (log ++ log') (l ++ l').
Proof.
  unfold logged. revert l. induction log as [|[[t0 c0] r0] log IH]; intros l Hl Hr; inversion Hl; subst; simpl; [done|].
  rewrite <- app_assoc. constructor; [done|]. by apply IH.
Qed.

(** A call that ends keeps the invariant and was recorded; none panics. *)
Lemma call_ends t c h :
  fair (PacketHandler.world t) -> I (PacketHandler.sub h) ->
  match PacketHandler.run_call t c h with
  | Returns h' r => I (PacketHandler.sub h') /\
      exists l, PacketHandler.recorder h' = PacketHandler.recorder h ++ l /\ PacketHandler.records_call t c r l
  | Blocks h' => I (PacketHandler.sub h')
  | Panics _ => False
  end.
Proof.
  intros Hf Hi.
  assert (wp (PacketHandler.run_call t c) (fun h' r => I (PacketHandler.sub h') /\ match r with
      | Some r => exists l, PacketHandler.recorder h' = PacketHandler.recorder h ++ l /\ PacketHandler.records_call t c r l
      | None => True end) h) as Hw.
  { apply (PacketHandler.wp_run_call (I := I) (fair := fair)); [done|done|done|].
    intros s r l Hs Hl. split; [done|]. by exists l. }
  unfold wp in Hw. destruct (PacketHandler.run_call t c h); [done|by destruct Hw|done].
Qed.

Lemma query_call target t n h h' nodes err :
  queryFunc target t n h = Returns h' (nodes, err) ->
  PacketHandler.run_call t (PacketHandler.CallRandom n target) h = Returns h' err.
Proof.
  intros Hq. unfold queryFunc in Hq. unfold PacketHandler.run_call, PacketHandler.AskForRandomNodes, mbind at 1, proc_bind at 1.
  by rewrite Hq.
Qed.

(** What a state of a round says of the handler and the calls. *)
Record looking_inv (target : Key) (it : lookup) h0 (x : looking) : Prop := {
  li_round : rtc round_ok (round_init it (Enodes (result it))) (lk_round x);
  li_handler : I (PacketHandler.sub (lk_handler x));
  li_logged : exists l, PacketHandler.recorder (lk_handler x) = PacketHandler.recorder h0 ++ l /\ logged (lk_log x) l;
  li_calls : map (fun n => PacketHandler.CallRandom n target) (lk_asked x) `sublist_of` (lk_log x).*1.*2;
  li_trace : Permutation (trace (look (lk_round x))) (trace it ++ lk_asked x ++ querying (gos (lk_round x))) }.

Lemma looking_step_inv target it h0 x y :
  looking_inv target it h0 x -> looking_step target fair x y -> looking_inv target it h0 y.
Proof.
  intros [H1 H2 (l & H3 & H4) H5 H6] Hs.
  destruct Hs as [r' Hr Hq|it' ns p s c d g1 n g2 t h' nodes err Hx Hf Hq|t c h' r Hf Hc].
  - destruct (own_trace _ _ Hr Hq) as (new & Ht & Hg). constructor; simpl; [by eapply rtc_r|done|by exists l|done|].
    rewrite Ht, H6, Hg, !app_assoc. done.
  - apply query_call in Hq. pose proof (call_ends t (PacketHandler.CallRandom n target) _ Hf H2) as He. rewrite Hq in He. destruct He as (Hi & l' & Hl & Hrec).
    destruct (returned_trace it' ns p s c d g1 g2 nodes err) as [Ht Hg].
    constructor; simpl.
    + eapply rtc_r; [exact H1|]. rewrite Hx. apply returned_step.
    + done.
    + exists (l ++ l'). rewrite Hl, H3, app_assoc. split; [done|by apply logged_snoc].
    + rewrite map_app, !fmap_app. by apply sublist_app.
    + rewrite Ht, Hg. rewrite Hx in H6. simpl in H6. rewrite H6, querying_app. simpl. solve_Permutation.
  - pose proof (call_ends t c _ Hf H2) as He. rewrite Hc in He. destruct He as (Hi & l' & Hl & Hrec).
    constructor; simpl; [done|done| | |done].
    + exists (l ++ l'). rewrite Hl, H3, app_assoc. split; [done|by apply logged_snoc].
    + rewrite !fmap_app. by apply sublist_inserts_r.
Qed.

Lemma looking_reach target it h x :
  I (PacketHandler.sub h) -> rtc (looking_step target fair) (start_round it h) x -> looking_inv target it h x.
Proof.
  intros Hi Hr. apply (rtc_invariant _ (looking_inv target it h) _ _ (looking_step_inv target it h)) in Hr; [done|].
  constructor; simpl; [apply rtc_refl|done| |done|by rewrite app_nil_r].
  exists []. split; [by rewrite app_nil_r|constructor].
Qed.

(** ** Whole lookups *)

Lemma absorb_trace it : trace (absorb it) = trace it.
Proof.
  unfold absorb. generalize (peek (buffer it)). intros ns. simpl. revert it. induction ns as [|n ns IH]; intros it; simpl; [done|].
  rewrite IH. case_decide; [done|]. unfold push_seen. by destruct (WrapNode (lhp it) n).
Qed.

(** What [Run] of a lookup leaves behind; [open_] are the queries that were
    under way when a round was given up. *)
Record ran (target : Key) (it : lookup) h (log : list ended) (asked : list enode) (it' : lookup) h' : Prop := {
  rn_run : exists k, Run it k it';
  rn_handler : I (PacketHandler.sub h');
  rn_logged : exists l, PacketHandler.recorder h' = PacketHandler.recorder h ++ l /\ logged log l;
  rn_calls : map (fun n => PacketHandler.CallRandom n target) asked `sublist_of` log.*1.*2;
  rn_trace : exists open_, Permutation (trace it') (trace it ++ asked ++ open_) }.

Lemma lookup_ran target it h log asked it' h' :
  I (PacketHandler.sub h) -> lookup_runs target fair it h log asked it' h' -> ran target it h log asked it' h'.
Proof.
  intros Hi Hr. induction Hr as [it h Hd|it h x Hd Hx Ha|it h x log asked it' h' Hd Hx Ha Hr IH].
  - constructor; simpl; [exists 0%nat; by apply run_stop, query_depth|done| |done|exists []; by rewrite !app_nil_r].
    exists []. split; [by rewrite app_nil_r|constructor].
  - destruct (looking_reach _ _ _ _ Hi Hx) as [H1 H2 H3 H4 H5]. constructor; try done; [|by eexists].
    exists 0%nat. apply run_stop. by eapply query_round.
  - destruct (looking_reach _ _ _ _ Hi Hx) as [H1 H2 (l & H3 & H3') H4 H5].
    destruct (IH H2) as [(k & R1) R2 (l' & R3 & R3') R4 (o & R5)]. constructor.
    + exists (S k). eapply run_more; [by eapply query_round|exact R1].
    + done.
    + exists (l ++ l'). rewrite R3, H3, app_assoc. split; [done|by apply logged_app].
    + rewrite map_app, !fmap_app. by apply sublist_app.
    + exists (querying (gos (lk_round x)) ++ o). rewrite R5, absorb_trace, H5. solve_Permutation.
Qed.

(** Some call answers each query: none waits for ever. *)
Definition responsive (target : Key) : Prop := forall n h, I (PacketHandler.sub h) ->
  exists t h' nodes err, fair (PacketHandler.world t) /\ queryFunc target t n h = Returns h' (nodes, err).

Lemma querying_in g : querying g <> [] -> exists g1 n g2, g = g1 ++ GQuery n :: g2.
Proof.
  induction g as [|x g IH]; intros Hq; [done|]. destruct x as [n| | |]; [by exists [], n, g|..];
    destruct (IH Hq) as (g1 & n & g2 & ->); [exists (GSend :: g1)|exists (GAdd :: g1)|exists (GClose :: g1)]; by exists n, g2.
Qed.

(** A round that has not returned goes on. *)
Lemma looking_progress target it h x :
  0 < alpha it < 2 ^ 32 -> responsive target -> looking_inv target it h x -> (forall b, at_ (lk_round x) <> PcRet b) ->
  exists y, looking_step target fair x y /\ (round_measure (lk_round y) < round_measure (lk_round x))%nat.
Proof.
  intros Ha Hresp [H1 H2 _ _ _] Hp. destruct (round_safe _ _ _ Ha H1) as (_ & _ & _ & Hgo). destruct (Hgo Hp) as [r' Hr].
  destruct (decide (length (querying (gos (lk_round x))) <= length (querying (gos r')))%nat) as [Hq|Hq].
  - eexists. split; [by apply lk_own|]. by apply round_step_measure.
  - destruct (querying_in (gos (lk_round x))) as (g1 & n & g2 & Hg); [intros He; rewrite He in Hq; simpl in Hq; lia|].
    destruct (Hresp n (lk_handler x) H2) as (t & h' & nodes & err & Hf & Hc).
    destruct x as [[it' ns p s c d g] hx log asked]. simpl in *. subst g.
    eexists. split; [by eapply lk_query|]. apply round_step_measure, returned_step.
Qed.

Lemma looking_returns target it h :
  0 < alpha it < 2 ^ 32 -> responsive target -> I (PacketHandler.sub h) ->
  exists x b, rtc (looking_step target fair) (start_round it h) x /\ at_ (lk_round x) = PcRet b.
Proof.
  intros Ha Hresp Hi. assert (forall m x, round_measure (lk_round x) = m -> looking_inv target it h x ->
    exists y b, rtc (looking_step target fair) x y /\ at_ (lk_round y) = PcRet b) as Hgo.
  { induction m as [m IH] using lt_wf_ind. intros x Hm Hx.
    destruct (at_ (lk_round x)) as [|n|n| |b] eqn:Ep; [..|exists x, b; by split];
      (destruct (looking_progress target it h x Ha Hresp Hx ltac:(congruence)) as (y & Hs & Hlt);
       destruct (IH (round_measure (lk_round y)) ltac:(lia) y eq_refl (looking_step_inv _ _ _ _ _ Hx Hs)) as (z & b & Hz & Hb);
       exists z, b; split; [by eapply rtc_l|done]). }
  eapply Hgo; [reflexivity|]. by apply looking_reach; [|apply rtc_refl].
Qed.

Lemma lookup_returns target it h :
  0 < alpha it < 2 ^ 32 -> 0 <= depth it -> responsive target -> I (PacketHandler.sub h) ->
  exists log asked it' h', lookup_runs target fair it h log asked it' h'.
Proof.
  intros Ha Hd Hresp. remember (Z.to_nat (depth it)) as k eqn:Hk. revert it h Ha Hd Hk.
  induction k as [|k IH]; intros it h Ha Hd Hk Hi.
  { eexists _, _, _, _. apply lr_depth. lia. }
  destruct (looking_returns target it h Ha Hresp Hi) as (x & b & Hx & Hb).
  destruct (looking_reach _ _ _ _ Hi Hx) as [H1 H2 _ _ _].
  destruct b; [|eexists _, _, _, _; apply lr_stop; [lia|done|done]].
  destruct (core_reach _ _ H1) as (_ & _ & Hde & _ & Hal). simpl in Hde, Hal.
  destruct (absorb_depth (look (lk_round x))) as [Hde' Hal'].
  destruct (IH (absorb (look (lk_round x))) (lk_handler x)) as (log & asked & it' & h' & Hr); [rewrite Hal', Hal; done|lia|lia|done|].
  eexists _, _, _, _. eapply lr_more; [lia|exact Hx|exact Hb|exact Hr].
Qed.

Context {EL : EnodeLaws E}.


End Laws.

End LookupCalls.

(** ** A protocol whose nodes know each other *)

Module Demo.

Definition a : @enode xor_enode := mkRecord 1 [8; 8; 8; 1] 30303 30303 1.
Definition b : @enode xor_enode := mkRecord 2 [8; 8; 8; 2] 30303 30303 1.

Definition info : PacketHandler.RpcInfo unit := PacketHandler.WrapIntoRpcInfo None "FINDNODE"%string.

#[export] Instance friends : PacketHandler.SubHandler (E := xor_enode) unit unit unit unit := {
  sub_HandlePacket w from buf := mret info;
  sub_MakePingRequest w to id := mret (1, info);
  sub_MakeFindNodeRequest w to id key := mret ([a; b], info);
  sub_MakeEnrRequest w to n := mret (Some n, info) }.

#[export] Instance friends_laws : PacketHandler.SubHandlerLaws friends (fun _ => True) (fun _ => True).
Proof. constructor; intros; by intros s Hs. Qed.

Definition idle : PacketHandler.PacketHandler (St := unit) := PacketHandler.mkPacketHandler tt [].

Definition once : PacketHandler.timing (World := unit) := PacketHandler.mkTiming 0 1 tt.

Lemma friends_answer : responsive (H := friends) (I := fun _ => True) (fair := fun _ => True) tt.
Proof. intros n h _. exists once. eexists _, _, _. split; [done|]. reflexivity. Qed.


End Demo.
