(* ===== verification/MessageBroker.v ===== *)
(** * service/broker: publishing with metrics, subscriptions, and no broker

    rabbitBroker.go's [publish] with its recorder (Metrics.v), the
    subscription of feed.go that its holders give back, and voidBroker.go.
    Both brokers are instances of the interface of broker.go. *)

From Stdlib Require Import ZArith Lia.
From stdpp Require Import base list strings gmap.
From S2P Require Import Prelude Golang Procs Service.
From S2P Require Metrics.
Local Open Scope Z_scope.

(** ** The interface *)

(** [BrokerMessage] is its data.  [Env] is what the packages answer; the
    results are whether there was no error. *)
Class MessageBroker (B Env : Type) := {
  mb_PublishMessage : Env -> string -> list Z -> proc B bool;
  mb_SubscribeTopic : Env -> string -> proc B bool;
  mb_Stop : option string -> proc B () }.

(** *** rabbitBroker.go *)

Section Rabbit.
Context `{P : Metrics.Prometheus}.

(** The broker and the metrics of the process. *)
Record metered := mkMetered { mt_broker : rabbitBroker; mt_metrics : Metrics.metrics }.

(** [publish]: the size of a message the channel took is recorded. *)
Definition publish (r : Metrics.Broker.Recorder) (ok : bool) (topic : string) (data : list Z) : proc metered bool :=
  s ← Procs.get;
  let '(b, sent) := PublishMessage topic data ok (mt_broker s) in
  modify (fun s => mkMetered b (mt_metrics s));;
  (if sent then
     zoom mt_metrics (fun m s => mkMetered (mt_broker s) m) (Metrics.Broker.RecordEgress r (Z.of_nat (length data)))
   else mret tt);;
  mret sent.

Definition subscribe_topic (ok : bool) (topic : string) : proc metered bool :=
  s ← Procs.get;
  let '(b, sent) := SubscribeTopic topic ok (mt_broker s) in
  modify (fun s => mkMetered b (mt_metrics s));; mret sent.

Definition stop (err : option string) : proc metered () :=
  s ← Procs.get;
  match rabbit_Stop err (mt_broker s) with
  | Panic w => crash w
  | Ok b => modify (fun s => mkMetered b (mt_metrics s))
  end.

#[export] Instance rabbit_broker (r : Metrics.Broker.Recorder) : MessageBroker metered bool := {|
  mb_PublishMessage ok topic data := publish r ok topic data;
  mb_SubscribeTopic ok topic := subscribe_topic ok topic;
  mb_Stop err := stop err |}.

End Rabbit.

(** *** voidBroker.go: messages are discarded *)

#[export] Instance void_broker : MessageBroker () () := {|
  mb_PublishMessage _ _ _ := mret true;
  mb_SubscribeTopic _ _ := mret true;
  mb_Stop _ := mret tt |}.

(** ** A sequence of messages through a broker *)

Section Publish.
Context {B Env : Type} `{M : MessageBroker B Env}.

Fixpoint publish_all (l : list (Env * string * list Z)) : proc B (list bool) :=
  match l with
  | [] => mret []
  | (env, topic, data) :: l' => ok ← mb_PublishMessage env topic data; oks ← publish_all l'; mret (ok :: oks)
  end.

End Publish.

(** Without a broker every message is published, as far as its sender knows. *)
Lemma void_publishes l : publish_all (M := void_broker) l tt = Returns tt (map (fun _ => true) l).
Proof. induction l as [|[[[] topic] data] l IH]; [done|]. simpl. unfold mbind, proc_bind. simpl. by rewrite IH. Qed.

Section Metered.
Context `{L : Metrics.PrometheusLaws}.

(** The messages the channel took. *)
Definition sent (l : list (bool * string * list Z)) : list (string * list Z) :=
  omap (fun '(ok, topic, data) => if (ok : bool) then Some (topic, data) else None) l.

Definition egress (m : string * list Z) : list Metrics.observation :=
  [Metrics.mkObservation "broker_egress_amount" [] (Metrics.Added (Z.of_nat (length m.2)));
   Metrics.counts "broker_egress_count" []].

Lemma publish_one ok topic data b m :
  publish Metrics.made_broker ok topic data (mkMetered b m) =
    Returns (mkMetered (PublishMessage topic data ok b).1
               (if ok then Metrics.observe (egress (topic, data)) m else m)) ok.
Proof.
  unfold publish, mbind, proc_bind, Procs.get, PublishMessage. destruct ok; [|done]. cbn -[Metrics.Broker.RecordEgress].
  unfold zoom. cbn -[Metrics.Broker.RecordEgress]. by rewrite (Metrics.egress_observes (Z.of_nat (length data)) ltac:(lia)).
Qed.

(** The metrics of the broker tell what was published: each message the channel
    took is counted once with its size, and no other. *)
Theorem egress_counts_published l b m :
  exists b' m', publish_all (M := rabbit_broker Metrics.made_broker) l (mkMetered b m) = Returns (mkMetered b' m') (map (fun x => x.1.1) l) /\
    published b' = published b ++ sent l /\
    Metrics.observed m' = Metrics.observed m ++ flat_map egress (sent l).
Proof.
  revert b m. induction l as [|[[ok topic] data] l IH]; intros b m.
  { exists b, m. split; [done|]. by rewrite !app_nil_r. }
  cbn [publish_all]. unfold mb_PublishMessage. cbn [rabbit_broker]. unfold mbind, proc_bind. rewrite publish_one.
  destruct (IH (PublishMessage topic data ok b).1 (if ok then Metrics.observe (egress (topic, data)) m else m)) as (b' & m' & -> & Hb & Hm).
  exists b', m'. split; [done|]. destruct ok; simpl in *; [|done]. rewrite Hb, Hm, <- !app_assoc. done.
Qed.

End Metered.

(** ** feed.go: a subscription

    [inner] counts the calls of the event feed's [Unsubscribe]. *)
Record subscription := mkSubscription { called : bool; inner : nat }.

Definition newSubsciption : subscription := mkSubscription false 0.

Definition Unsubscribe (s : subscription) : subscription := if called s then s else mkSubscription true (S (inner s)).

(** However often it is called, the feed's is called once. *)
Lemma unsubscribed_once n : inner (Nat.iter (S n) Unsubscribe newSubsciption) = 1%nat.
Proof.
  assert (forall n, Nat.iter (S n) Unsubscribe newSubsciption = mkSubscription true 1) as H; [|by rewrite H].
  clear n. induction n as [|n IH]; [done|]. change (Unsubscribe (Nat.iter (S n) Unsubscribe newSubsciption) = mkSubscription true 1).
  by rewrite IH.
Qed.
